(* ===== verification/_CoqProject ===== *)
-Q . S2P
Prelude.v
Core.v
Hashing.v
Retention.v
Registry.v
RegistryFacts.v
CommitFacts.v
Service.v
Checkpoints.v
ManifestFacts.v
ServiceFacts.v
RevocationFacts.v
Evolution.v
Sessions.v
SessionFacts.v
System.v
Safety.v
Operations.v
Sweeps.v
History.v
SessionSafety.v
Effects.v
Strategies.v
Runtime.v
Agents.v
Adapter.v
CopyFacts.v
Copies.v
Cluster.v
VersionedStore.v
SqliteRegistry.v
SqliteFacts.v
SqliteParity.v
SqliteSimulation.v
SqliteReads.v
SqliteDurability.v
Migration.v
MigrationSafety.v
Substrate.v
ObjectStore.v
Workspace.v
WorkspaceFacts.v
RestoreFacts.v
RestoreProgress.v
RestoreWrites.v
RestoreSafety.v
PinFacts.v
PinSafety.v
DurableService.v
DurableFacts.v
Policy.v
BashPaths.v
Auth.v
HookPayloads.v
Hooks.v
HookFacts.v
HookShapes.v
StrictReads.v
CasEndpoint.v
CasProgress.v
HookSafety.v
