(* ===== verification/Prelude.v ===== *)
(** * Verification of the coherence coordinator and its agents

    The program keeps shared artifacts coherent between agents with a MESI-style
    protocol.  A coordinator owns a registry of artifacts; agents fetch, acquire,
    commit and invalidate copies through it; snapshot sessions, effect gates and
    workspace checkpoints are built on its version numbers; each agent keeps a local
    cache under a synchronization strategy.  Paths below are relative to [src/ccs/].

    ** The model

    Code is translated method by method into procedures
    [proc E S A := S → outcome E A * S]: a Python method takes the object state and
    either returns or raises, and mutations made before a raise stay.  Dictionaries
    are insertion-ordered association lists ([dget], [dset], [dpop] below), ids are
    128-bit integers, ticks and versions are unbounded [Z] as Python's integers are.
    No fuel is used except where stated: every loop of the code is a fold over data
    read first, or a retry loop with a bound of its own.

    - [Prelude]: dictionaries, the procedure monad and its triples, record update.
    - [Core], [Hashing], [Retention]: [core/] and [coordinator/retention.py]: states,
      dataclasses, exceptions, SHA-256 and uuid5, the collection rule.
    - [Registry]: [coordinator/registry.py].  [ArtifactRecord] and [Registry] are its
      two mutable objects, each public method one procedure; the registry lock makes
      a method one step.  The state-log callback and the wall clock are arbitrary
      functions, so every theorem covers a callback that raises at any moment unless
      it assumes [log_quiet].
    - [Service], [Sessions], [Checkpoints]: [coordinator/service.py] over that
      registry: [fetch], [write], [commit], [commit_cas], [commit_all], [invalidate],
      [delete] and the two sweeps; sessions and effect gates; manifests and restore
      registration.
    - [System]: the coordinator as a transition system.  [op] has one constructor per
      call, [reachable] closes the initial states under all of them in any order, and
      [reachable_ok] proves the invariant [sys_ok] for every reachable state.
    - [Strategies], [Runtime]: [strategies/] as a type class with one instance per
      class, and [agent/cache.py], [agent/runtime.py] over any strategy that obeys
      the laws.
    - [Adapter]: [adapters/base.py] and [bus/event_bus.py].  One state holds the
      registry, every agent's runtime and the subscriptions; a publish runs the
      subscribed runtimes' handlers in turn, as the in-process bus does.

    - [SqliteRegistry], [Migration]: [coordinator/sqlite_registry.py].  One finite map
      per table, each method a transaction that rolls back on every exception; schema
      creation, the migration chain, and several processes opening one file.  What
      the engine decides (row order, a busy database) is left open.
    - [Substrate], [ObjectStore], [Workspace]: [core/substrate.py], the contract types of
      [adapters/substrate.py], [adapters/coherent_object.py] and [adapters/workspace.py].
      The S3 client and the file seam are the class [Env]: arbitrary functions on a
      state of their own, so foreign writers may act during every call; [World] records
      the calls.  The workspace engine runs on a [Site], that world and the
      coordinator's registry; [Surroundings] may make any call to the coordinator fail,
      before it took effect or after (an answer that was lost), which is how a crash is
      expressed, and let other parties act between two calls; what the theorems assume of
      those parties is named ([peers_keep], [pins_stay]).
      The legs and the registration loop admit nine iterations, as their budget does,
      and a conditional put nine attempts.
    - [DurableService]: the methods of [coordinator/service.py] that the HTTP coordinator
      calls, over the durable registry.
    - [Policy], [BashPaths], [Auth], [HookPayloads]: [policy.py], [bash_path_detector.py],
      [auth.py], [hook_payloads.py] and the validators of [coordinator_server.py], all in
      [adapters/claude_code/], with what they use of the standard library ([fnmatch],
      [shlex], [ipaddress], the regular expressions).  The one fuel is the length of the
      text that is scanned.
    - [Hooks]: [coordinator_server.py]: [Server] is the coordinator object, each [/hooks]
      handler a procedure on it, [dispatch] the path of a request.  [HOOK_ROUTES] are the
      eight modelled routes; the theorems on requests hold for any table that has them
      ([route_table]) and for requests outside the fourteen [OTHER_ROUTES].  Requests run
      one after the other; a [Schedule] says whether the watchdog pool is full, whether a
      run outlives its answer, and what it then finds in its abort event.  A late run,
      which the code lets go on beside the next requests, ends before the next one here.

    [RegistryFacts], [CommitFacts], [ServiceFacts], [RevocationFacts],
    [ManifestFacts], [SessionFacts] and [Evolution] hold the lemmas of one component
    each: the record an operation leaves on every path, the invariant it keeps, and
    how records may evolve ([rec_evolves], [good]).  [CopyFacts], [Copies] and
    [Cluster] relate the coordinator's view of a copy to the cache that holds it: one
    record, one runtime, all runtimes of an adapter.  [SqliteFacts] and [SqliteParity]
    hold the lemmas of the durable registry: what a transaction may change, and how a
    database represents an in-memory registry ([par]).  [WorkspaceFacts] relates the
    engine's coordinator calls to the stored manifest ([stored]); [RestoreFacts],
    [RestoreProgress] and [RestoreWrites] follow a restore: the rows it moves, the
    failures it absorbs, the calls it logs; [PinFacts] does so for capture and pinning.
    [DurableFacts] gives the effect of each durable operation and the invariant [store_wf]
    it keeps, [HookFacts] lifts it through every handler ([moves]).

    ** What the theorems show

    - [Safety]: in every reachable state the copies are coherent; versions only grow;
      no update is lost; a superseded agent cannot commit; a late revocation of an
      old version is ignored and a current one takes effect.
    - [Operations]: the outcome and the final state of each coordinator operation on
      every branch; a batch commit is all or nothing and its refusal is exact.
    - [Sweeps]: the grant sweep reclaims exactly what is due; heartbeats are monotone.
    - [SessionSafety], [Effects]: snapshot reads are stable, session commits are
      first-committer-wins, sessions are private to their owner, the session sweep is
      exact; an escaping effect runs only on an unmoved cut; the atomic gate checks its
      target and nothing else.
    - [History]: retained versions are truthful, and which ones a commit leaves is
      exactly the retention rule; manifests are well formed and read back as written.
    - [Strategies], [Agents]: bounded staleness of cached reads; read your writes; an
      optimistic write replaces what its content was made from or fails after exactly
      the allowed number of lost attempts; local copies follow the coordinator's verdicts.
    - [VersionedStore]: an adapter with all its agents, caches, strategies and
      broadcasts refines one versioned store, for any sequence of calls with callbacks
      that do not raise; coherence of every state it reaches; a cached read is current
      unless the sweep reclaimed the copy.

    - [SqliteSimulation], [SqliteReads], [SqliteDurability]: the durable registry answers
      the calls both registries can take as the in-memory one does, read by read, and
      where the two part outside those calls; a call that raises leaves no trace; a
      reopened file goes on where it was; names under a directory.
    - [MigrationSafety]: processes opening a file of any earlier version, interleaved
      and killed at will, all arrive at the schema of a fresh file and lose nothing;
      and the exception, two processes creating the same new file.

    - [RestoreSafety]: wherever a restore is cut, its durable rows and header say what was
      done, and outcomes are final over any number of resumes; a calm restore settles every
      member; every write is a compare-and-set against the run's own last read; and the
      exception, a resume that loses the marker of a completed registration.
    - [PinSafety]: a checkpoint claims [restorable] only for versions whose hold was set;
      releasing it drops no hold that another checkpoint holds and keeps, and none that
      another checkpoint claimed before the last-instant re-check.
    - [HookShapes]: every hook request is answered, with a typed object.
    - [StrictReads]: a session with an invalidated view of a strict path is denied all its
      reads, and they change nothing.
    - [CasEndpoint], [CasProgress]: the answer of the optimistic commit tells what happened
      in the store, a win shuts the other readers out, and a retry at the reported version
      wins.
    - [HookSafety]: only requests with the secret and an allowed Host act; no sequence of
      hook requests breaks the store; an example of a denied search that lifts the denial.

    ** Not modelled

    Threads inside one locked step, the text of log lines and of exceptions beyond their
    leading words, and the callbacks the code isolates behind a catch-all.  Of the HTTP
    coordinator: the [/session], [/workspace], [/policy], [/status] and migration routes,
    the socket server, the count of requests in flight, two handlers at the same moment,
    and fractions of a second.  Of SQLite: the 64-bit range of its integers, the journal
    mode and file permissions.  The other components are listed with the reason in the
    manifest of the development. *)
From stdpp Require Export base gmap list strings.
From Stdlib Require Export ZArith Lia.

#[global] Set Default Goal Selector "!".
#[global] Set Warnings "-clear-no-such-hyp".

(** ** Record update

    [r <| f := v |>] and [r <| f ::= g |>] update one field of a record whose
    eta expansion has been declared with [Settable]. *)
Declare Scope py_scope.
Delimit Scope py_scope with py.

Definition rec_pure {R A : Type} (a : A) : R → A := λ _, a.
Definition rec_ap {R A B : Type} (f : R → A → B) (x : R → A) : R → B :=
  λ r, f r (x r).
Class Settable (R : Type) := rec_eta : R → R.
Class FieldSetter {R T : Type} (proj : R → T) := set_field : (T → T) → R → R.
Arguments set_field {_ _} proj {_} _ _ /.

Infix "<*>" := rec_ap (at level 41, left associativity) : py_scope.

Ltac solve_field_setter :=
  lazymatch goal with
  | |- @FieldSetter ?R ?T ?proj =>
    let inst := constr:(_ : Settable R) in
    let eta := eval red in inst in
    let eta := (lazymatch eta with
                | rec_eta => eval unfold inst in inst
                | _ => eta end) in
    let eta := eval pattern proj in eta in
    lazymatch eta with
    | ?F proj =>
      let body := constr:(λ (g : T → T) (r : R), F (λ r' : R, g (proj r')) r) in
      let body := eval cbv beta delta [rec_ap rec_pure] in body in
      exact body
    end
  end.
#[export] Hint Extern 0 (@FieldSetter _ _ _) => solve_field_setter : typeclass_instances.

Notation "r <| f := v |>" := (set_field f (λ _, v) r)
  (at level 1, f at next level, left associativity) : py_scope.
Notation "r <| f ::= g |>" := (set_field f g r)
  (at level 1, f at next level, left associativity) : py_scope.
Open Scope py_scope.


(** ** Insertion-ordered dictionaries

    A Python [dict] is its list of items in insertion order: assigning to a
    present key keeps its position, assigning to an absent one appends, [pop]
    removes.  Order is observable in the code (the order of invalidated peers,
    of a sweep, of a name scan), so a [gmap] would not do.  The keys of a
    dictionary built by these operations are distinct ([dict_wf]). *)
Section dict.
Context {K V : Type} `{EqDecision K}.
Implicit Types d : list (K * V).

Fixpoint dget (d : list (K * V)) (k : K) : option V :=
  match d with
  | [] => None
  | (k', v) :: d' => if decide (k' = k) then Some v else dget d' k
  end.

Fixpoint dset (d : list (K * V)) (k : K) (v : V) : list (K * V) :=
  match d with
  | [] => [(k, v)]
  | (k', v') :: d' =>
    if decide (k' = k) then (k', v) :: d' else (k', v') :: dset d' k v
  end.

Fixpoint dpop (d : list (K * V)) (k : K) : list (K * V) :=
  match d with
  | [] => []
  | (k', v') :: d' => if decide (k' = k) then dpop d' k else (k', v') :: dpop d' k
  end.

Definition dmem (d : list (K * V)) (k : K) : bool :=
  match dget d k with Some _ => true | None => false end.

Definition dict_wf (d : list (K * V)) : Prop := NoDup (d.*1).

Lemma dget_dset_eq d k v : dget (dset d k v) k = Some v.
Proof. induction d as [|[k' v'] d IH]; simpl; repeat (case_decide; simpl); done. Qed.

Lemma dget_dset_ne d k k' v : k ≠ k' → dget (dset d k v) k' = dget d k'.
Proof.
  intros Hne. induction d as [|[k1 v1] d IH]; simpl.
  - by rewrite decide_False.
  - repeat (case_decide; simpl); congruence.
Qed.

Lemma dget_dset d k k' v :
  dget (dset d k v) k' = if decide (k = k') then Some v else dget d k'.
Proof. case_decide; [subst; apply dget_dset_eq|by apply dget_dset_ne]. Qed.

Lemma dget_dpop_eq d k : dget (dpop d k) k = None.
Proof. induction d as [|[k1 v1] d IH]; simpl; repeat (case_decide; simpl); done. Qed.

Lemma dget_dpop_ne d k k' : k ≠ k' → dget (dpop d k) k' = dget d k'.
Proof. intros ?. induction d as [|[k1 v1] d IH]; simpl; repeat (case_decide; simpl); congruence. Qed.

Lemma dget_dpop d k k' :
  dget (dpop d k) k' = if decide (k = k') then None else dget d k'.
Proof. case_decide; [subst; apply dget_dpop_eq|by apply dget_dpop_ne]. Qed.

Lemma dget_None d k : dget d k = None ↔ k ∉ d.*1.
Proof.
  induction d as [|[k1 v1] d IH]; simpl; [set_solver|].
  rewrite not_elem_of_cons, <-IH. case_decide; naive_solver.
Qed.

Lemma dget_Some_key d k v : dget d k = Some v → k ∈ d.*1.
Proof. intros Hk. destruct (decide (k ∈ d.*1)) as [|Hn]; [done|]. by apply dget_None in Hn; rewrite Hn in Hk. Qed.

Lemma dget_Some_elem d k v : dget d k = Some v → (k, v) ∈ d.
Proof. induction d as [|[k1 v1] d IH]; simpl; [done|]. case_decide; set_solver. Qed.

Lemma dget_elem d k v : dict_wf d → (k, v) ∈ d → dget d k = Some v.
Proof.
  unfold dict_wf. induction d as [|[k1 v1] d IH]; simpl; [set_solver|].
  rewrite NoDup_cons, list_elem_of_fmap, elem_of_cons. intros [Hk ?] [Heq|Hin].
  - simplify_eq. by rewrite decide_True.
  - rewrite decide_False; [by apply IH|]. intros ->. apply Hk. by exists (k, v).
Qed.

Lemma dict_elem_iff d k v : dict_wf d → (k, v) ∈ d ↔ dget d k = Some v.
Proof. split; eauto using dget_elem, dget_Some_elem. Qed.

Lemma dkey_Some d k : k ∈ d.*1 → ∃ v, dget d k = Some v.
Proof. intros Hk. destruct (dget d k) eqn:E; [eauto|]. by apply dget_None in E. Qed.

Lemma dset_absent d k v : dget d k = None → dset d k v = d ++ [(k, v)].
Proof.
  induction d as [|[k1 v1] d IH]; simpl; [done|].
  case_decide; [done|]. intros ?. f_equal. by apply IH.
Qed.

Lemma dset_id d k v : dget d k = Some v → dset d k v = d.
Proof.
  induction d as [|[k1 v1] d IH]; simpl; [done|].
  case_decide; intros ?; simplify_eq; [done|]. f_equal. by apply IH.
Qed.

Lemma dset_dset d k v w : dset (dset d k v) k w = dset d k w.
Proof. induction d as [|[k1 v1] d IH]; simpl; repeat (case_decide; simpl); congruence. Qed.

Lemma dkeys_dset_present d k v w : dget d k = Some w → (dset d k v).*1 = d.*1.
Proof.
  induction d as [|[k1 v1] d IH]; simpl; [done|].
  case_decide; simpl; [done|]. intros ?. f_equal. by apply IH.
Qed.

Lemma dkeys_dset d k k' v : k' ∈ (dset d k v).*1 ↔ k' = k ∨ k' ∈ d.*1.
Proof.
  induction d as [|[k1 v1] d IH]; simpl; [set_solver|].
  case_decide; simpl; rewrite !elem_of_cons; [naive_solver|].
  rewrite IH. naive_solver.
Qed.

Lemma dkeys_dpop d k k' : k' ∈ (dpop d k).*1 ↔ k' ≠ k ∧ k' ∈ d.*1.
Proof.
  induction d as [|[k1 v1] d IH]; simpl; [set_solver|].
  case_decide; simpl; rewrite ?elem_of_cons, IH; naive_solver.
Qed.

Lemma dict_wf_nil : dict_wf (@nil (K * V)).
Proof. constructor. Qed.

Lemma dict_wf_cons d k v : dict_wf ((k, v) :: d) ↔ (k ∉ d.*1) ∧ dict_wf d.
Proof. apply NoDup_cons. Qed.

Lemma dict_wf_dset d k v : dict_wf d → dict_wf (dset d k v).
Proof.
  unfold dict_wf. induction d as [|[k1 v1] d IH]; simpl; intros Hwf.
  - apply NoDup_singleton.
  - case_decide; simpl; [done|]. apply NoDup_cons in Hwf as [??].
    apply NoDup_cons. rewrite dkeys_dset. naive_solver.
Qed.

Lemma dict_wf_dpop d k : dict_wf d → dict_wf (dpop d k).
Proof.
  unfold dict_wf. induction d as [|[k1 v1] d IH]; simpl; intros Hwf; [done|].
  apply NoDup_cons in Hwf as [??]. case_decide; simpl; [auto|].
  apply NoDup_cons. rewrite dkeys_dpop. naive_solver.
Qed.

Lemma dpop_absent d k : dget d k = None → dpop d k = d.
Proof.
  induction d as [|[k1 v1] d IH]; simpl; [done|].
  case_decide; [done|]. intros ?. f_equal. by apply IH.
Qed.

Lemma dget_filter_key (P : K → Prop) `{∀ kv : K * V, Decision (P kv.1)} `{∀ k, Decision (P k)} d k :
  dget (filter (λ kv : K * V, P kv.1) d) k = if decide (P k) then dget d k else None.
Proof.
  induction d as [|[k1 v1] d IH]; simpl; [by case_decide|].
  rewrite filter_cons. simpl. repeat (case_decide; simpl in *; subst); congruence.
Qed.

Lemma dkeys_filter_key (P : K → Prop) `{∀ kv : K * V, Decision (P kv.1)} `{∀ k, Decision (P k)} d :
  (filter (λ kv : K * V, P kv.1) d).*1 = filter P d.*1.
Proof.
  induction d as [|[k1 v1] d IH]; simpl; [done|].
  rewrite !filter_cons. simpl. repeat case_decide; simpl in *; try done; by f_equal.
Qed.

Lemma dict_wf_filter (P : K * V → Prop) `{∀ kv, Decision (P kv)} d : dict_wf d → dict_wf (filter P d).
Proof. intros Hd. eapply sublist_NoDup; [exact Hd|]. apply fmap_sublist, sublist_filter. Qed.

(** Same keys in the same order and same lookups: the same dictionary. *)
Lemma dict_ext d d' : dict_wf d → d'.*1 = d.*1 → (∀ k, dget d' k = dget d k) → d' = d.
Proof.
  revert d'. induction d as [|[k v] d IH]; intros [|[k' v'] d'] Hwf; simpl; try done.
  intros [= -> Hk] Hget. change (d'.*1 = d.*1) in Hk. apply dict_wf_cons in Hwf as [Hn Hwf].
  pose proof (Hget k) as Hv. rewrite !decide_True in Hv by done. simplify_eq. f_equal.
  apply IH; [done..|]. intros k1. specialize (Hget k1). destruct (decide (k = k1)) as [<-|]; [|done].
  by rewrite (proj2 (dget_None d' k)), (proj2 (dget_None d k)) by (done || by rewrite Hk).
Qed.

Lemma dmem_true d k : dmem d k = true ↔ ∃ v, dget d k = Some v.
Proof. unfold dmem. destruct (dget d k); naive_solver. Qed.
End dict.

Lemma dkeys_dset_eq {K V W} `{EqDecision K} (d : list (K * V)) (d' : list (K * W)) k v w :
  d.*1 = d'.*1 → (dset d k v).*1 = (dset d' k w).*1.
Proof.
  revert d'. induction d as [|[k1 v1] d IH]; intros [|[k2 v2] d']; simpl; try done.
  intros [= -> Hd]. case_decide; simpl; f_equal; auto.
Qed.

Create HintDb dict discriminated.
#[export] Hint Resolve dict_wf_nil dict_wf_dset dict_wf_dpop : dict.

(** Case analysis on the lookup of an updated dictionary. *)
Ltac dict_simp :=
  repeat match goal with
  | H : context [dget (dset _ _ _) _] |- _ => rewrite dget_dset in H
  | H : context [dget (dpop _ _) _] |- _ => rewrite dget_dpop in H
  | |- context [dget (dset _ _ _) _] => rewrite dget_dset
  | |- context [dget (dpop _ _) _] => rewrite dget_dpop
  | H : context [decide (?a = ?a)] |- _ => rewrite (decide_True_pi eq_refl) in H
  | _ => case_decide; simplify_eq/=
  end.

(** ** Procedures: state, result and exception

    A method of the code is a function from the object's state to an outcome
    and the state it leaves.  An exception keeps the mutations made before it,
    as in Python. *)
Inductive outcome (E A : Type) : Type :=
| Ok (a : A)
| Raise (e : E).
Arguments Ok {_ _} _.
Arguments Raise {_ _} _.

Definition proc (E S A : Type) : Type := S → outcome E A * S.

Section proc.
Context {E S : Type}.

#[export] Instance proc_ret : MRet (proc E S) := λ A a s, (Ok a, s).
#[export] Instance proc_bind : MBind (proc E S) := λ A B k m s,
  match m s with
  | (Ok a, s') => k a s'
  | (Raise e, s') => (Raise e, s')
  end.

Definition raise {A} (e : E) : proc E S A := λ s, (Raise e, s).
Definition gets {A} (f : S → A) : proc E S A := λ s, (Ok (f s), s).
Definition of_outcome {A} (o : outcome E A) : proc E S A := λ s, (o, s).
Definition modify (f : S → S) : proc E S unit := λ s, (Ok tt, f s).
Definition catch {A} (m : proc E S A) (h : E → proc E S A) : proc E S A := λ s,
  match m s with
  | (Ok a, s') => (Ok a, s')
  | (Raise e, s') => h e s'
  end.
(** [try: m finally: f], for an [f] that does not raise. *)
Definition finally {A} (m : proc E S A) (f : S → S) : proc E S A := λ s,
  let '(o, s') := m s in (o, f s').
Definition when (b : bool) (m : proc E S unit) : proc E S unit :=
  if b then m else mret tt.

Fixpoint for_each {A} (l : list A) (f : A → proc E S unit) : proc E S unit :=
  match l with
  | [] => mret tt
  | x :: l' => f x ;; for_each l' f
  end.

Fixpoint foldm {A B} (f : B → A → proc E S B) (l : list A) (b : B) : proc E S B :=
  match l with
  | [] => mret b
  | x :: l' => b' ← f b x; foldm f l' b'
  end.

Lemma bind_Ok {A B} (m : proc E S A) (k : A → proc E S B) s a s' :
  m s = (Ok a, s') → (x ← m; k x) s = k a s'.
Proof. intros Hm. unfold mbind, proc_bind. by rewrite Hm. Qed.

Lemma bind_run {A B} (m : proc E S A) (k : A → proc E S B) s a s' x :
  m s = (Ok a, s') → k a s' = x → (x ← m; k x) s = x.
Proof. intros Hm Hk. by rewrite (bind_Ok _ _ _ _ _ Hm). Qed.

Lemma bind_Raise {A B} (m : proc E S A) (k : A → proc E S B) s e s' :
  m s = (Raise e, s') → (x ← m; k x) s = (Raise e, s').
Proof. intros Hm. unfold mbind, proc_bind. by rewrite Hm. Qed.

Lemma bind_inv {A B} (m : proc E S A) (k : A → proc E S B) s o s' :
  (x ← m; k x) s = (o, s') →
  (∃ a s1, m s = (Ok a, s1) ∧ k a s1 = (o, s')) ∨
  (∃ e, m s = (Raise e, s') ∧ o = Raise e).
Proof.
  unfold mbind, proc_bind. destruct (m s) as [[a|e] s1]; intros ?; [left; eauto|].
  right. simplify_eq. eauto.
Qed.

(** A procedure that keeps a property of the state, whatever its outcome. *)
Definition preserves {A} (I : S → Prop) (m : proc E S A) : Prop :=
  ∀ s, I s → I (m s).2.

Lemma preserves_bind {A B} I (m : proc E S A) (k : A → proc E S B) :
  preserves I m → (∀ a, preserves I (k a)) → preserves I (x ← m; k x).
Proof.
  intros Hm Hk s Hs. unfold mbind, proc_bind.
  specialize (Hm s Hs). destruct (m s) as [[a|e] s1]; simpl in *; [by apply Hk|done].
Qed.

Lemma preserves_ret {A} I (a : A) : preserves I (mret a).
Proof. by intros s Hs. Qed.

Lemma preserves_raise {A} I e : preserves I (raise e : proc E S A).
Proof. by intros s Hs. Qed.

Lemma preserves_gets {A} I (f : S → A) : preserves I (gets f).
Proof. by intros s Hs. Qed.

Lemma preserves_for_each {A} I (l : list A) f :
  (∀ x, x ∈ l → preserves I (f x)) → preserves I (for_each l f).
Proof.
  induction l as [|x l IH]; intros Hf; simpl; [apply preserves_ret|].
  apply preserves_bind; [apply Hf; set_solver|]. intros _. apply IH. set_solver.
Qed.
End proc.

(** Run a procedure on a component of a larger state. *)
Definition zoom {E S R A} (get : S → R) (put : R → S → S) (m : proc E R A) : proc E S A :=
  λ s, let '(o, r) := m (get s) in (o, put r s).

#[export] Hint Resolve preserves_bind preserves_ret preserves_raise preserves_gets : dict.

(** ** Small generic facts *)
Lemma app_cons_Forall {A} (P : A → Prop) l1 x l2 :
  Forall P (l1 ++ x :: l2) ↔ Forall P l1 ∧ P x ∧ Forall P l2.
Proof. rewrite Forall_app, Forall_cons. naive_solver. Qed.

Lemma foldl_ext_in {A B} (f g : B → A → B) l b :
  (∀ b x, x ∈ l → f b x = g b x) → foldl f b l = foldl g b l.
Proof.
  revert b. induction l as [|x l IH]; intros b Hfg; simpl; [done|].
  rewrite Hfg by set_solver. apply IH. intros b' y Hy. apply Hfg. set_solver.
Qed.

(** ** Hoare triples over procedures

    [triple P m Q X]: from a state in [P], the procedure [m] returns a value in a
    state related by [Q], or raises an exception in a state related by [X]. *)
Section triple.
Context {E S : Type}.

Definition triple {A} (P : S → Prop) (m : proc E S A) (Q : A → S → Prop) (X : E → S → Prop) : Prop :=
  ∀ s, P s → match m s with (Ok a, s') => Q a s' | (Raise e, s') => X e s' end.

Lemma triple_bind {A B} P (m : proc E S A) (k : A → proc E S B) M Q X :
  triple P m M X → (∀ a, triple (M a) (k a) Q X) → triple P (x ← m; k x) Q X.
Proof.
  intros Hm Hk s Hs. unfold mbind, proc_bind. specialize (Hm s Hs).
  destruct (m s) as [[a|e] s1]; [by apply Hk|done].
Qed.

Lemma triple_conseq {A} (P P' : S → Prop) (m : proc E S A) Q Q' X X' :
  triple P m Q X → (∀ s, P' s → P s) → (∀ a s, Q a s → Q' a s) → (∀ e s, X e s → X' e s) →
  triple P' m Q' X'.
Proof.
  intros Hm HP HQ HX s Hs. specialize (Hm s (HP s Hs)). destruct (m s) as [[a|e] s1]; auto.
Qed.

(** Sequencing with a step that cannot raise, or raises as the rest may. *)
Lemma triple_then {A B} P (m : proc E S A) (k : proc E S B) M Q X :
  triple P m (λ _, M) (λ _ _, False) → triple M k Q X → triple P (m ;; k) Q X.
Proof.
  intros Hm Hk. apply (triple_bind _ _ _ (λ _, M)); [|done].
  by eapply triple_conseq.
Qed.

Lemma triple_then_exc {A B} P (m : proc E S A) (k : proc E S B) M Q X :
  triple P m (λ _, M) X → triple M k Q X → triple P (m ;; k) Q X.
Proof. intros Hm Hk. by apply (triple_bind _ _ _ (λ _, M)). Qed.

Lemma triple_ret {A} (P : S → Prop) (a : A) Q X : (∀ s, P s → Q a s) → triple P (mret a) Q X.
Proof. intros H s Hs. by apply H. Qed.

Lemma triple_raise {A} (P : S → Prop) e (Q : A → S → Prop) X :
  (∀ s, P s → X e s) → triple P (raise e) Q X.
Proof. intros H s Hs. by apply H. Qed.

(** A read: the value is a function [v] of the precondition. *)
Lemma triple_gets {A B} (P : S → Prop) (f : S → A) (k : A → proc E S B) v Q X :
  (∀ s, P s → f s = v) → triple P (k v) Q X → triple P (x ← gets f; k x) Q X.
Proof.
  intros Hf Hk s Hs. unfold mbind, proc_bind, gets. rewrite (Hf s Hs). by apply Hk.
Qed.

Lemma triple_of_outcome {A B} (P : S → Prop) (o : outcome E A) (k : A → proc E S B) v Q X :
  o = Ok v → triple P (k v) Q X → triple P (x ← of_outcome o; k x) Q X.
Proof. intros -> Hk s Hs. by apply Hk. Qed.

(** A loop whose body moves an indexed state [I] from [b] to [g b x]. *)
Lemma triple_foldm {A B} (I : B → S → Prop) (f : B → A → proc E S B) (g : B → A → B) l b X :
  (∀ b x, x ∈ l → triple (I b) (f b x) (λ b', λ s, b' = g b x ∧ I b' s) X) →
  triple (I b) (foldm f l b) (λ b', λ s, b' = foldl g b l ∧ I b' s) X.
Proof.
  revert b. induction l as [|x l IH]; intros b Hf; simpl.
  - apply triple_ret. naive_solver.
  - eapply triple_bind; [apply Hf; set_solver|]. intros b' s [-> Hs]. simpl.
    apply IH; [|done]. intros b1 y Hy. apply Hf. set_solver.
Qed.

Lemma triple_and {A} P P' (m : proc E S A) Q X Q' X' :
  triple P m Q X → triple P' m Q' X' →
  triple (λ s, P s ∧ P' s) m (λ a s, Q a s ∧ Q' a s) (λ e s, X e s ∧ X' e s).
Proof. intros H1 H2 s [Hs Hs']. specialize (H1 s Hs). specialize (H2 s Hs'). by destruct (m s) as [[a|e] s']. Qed.

(** A triple, and that nothing is raised. *)
Lemma triple_returns {A} P (m : proc E S A) Q X :
  triple P m Q X → triple P m (λ _ _, True) (λ _ _, False) → triple P m Q (λ _ _, False).
Proof. intros H1 H2 s Hs. specialize (H1 s Hs). specialize (H2 s Hs). by destruct (m s) as [[a|e] s']. Qed.

Lemma triple_pure {A} (φ : Prop) (P : S → Prop) (m : proc E S A) Q X :
  (φ → triple P m Q X) → triple (λ s, φ ∧ P s) m Q X.
Proof. intros Hm s [Hφ Hs]. by apply Hm. Qed.

Lemma triple_exists {A B} (P : B → S → Prop) (m : proc E S A) Q X :
  (∀ b, triple (P b) m Q X) → triple (λ s, ∃ b, P b s) m Q X.
Proof. intros Hm s [b Hs]. by apply (Hm b). Qed.

(** From the triple of a run that returned. *)
Lemma triple_Ok {A} (P : S → Prop) (m : proc E S A) Q X s a s' :
  triple P m Q X → P s → m s = (Ok a, s') → Q a s'.
Proof. intros Hm Hs Heq. specialize (Hm s Hs). by rewrite Heq in Hm. Qed.

Lemma triple_total {A} (P : S → Prop) (m : proc E S A) Q X s :
  triple P m Q X → P s → (∀ e s', ¬ X e s') → ∃ a s', m s = (Ok a, s') ∧ Q a s'.
Proof.
  intros Hm Hs HX. specialize (Hm s Hs). destruct (m s) as [[a|e] s']; [eauto|].
  by destruct (HX e s').
Qed.
End triple.

(** [try ... except]. *)
Lemma triple_catch {E S A} P (m : proc E S A) h Q (Y X : E → S → Prop) :
  triple P m Q Y → (∀ e, triple (Y e) (h e) Q X) → triple P (catch m h) Q X.
Proof.
  intros Hm Hh s Hs. unfold catch. specialize (Hm s Hs). destruct (m s) as [[a|e] s1]; [done|by apply Hh].
Qed.

(** ** Procedures that respect a preorder on states *)
Definition respects {E S} (R : relation S) {A} (m : proc E S A) : Prop := ∀ s, R s (m s).2.

Section respects.
Context {E S : Type} (R : relation S) `{!PreOrder R}.

Lemma respects_bind {A B} (m : proc E S A) (k : A → proc E S B) :
  respects R m → (∀ x, respects R (k x)) → respects R (x ← m; k x).
Proof.
  intros Hm Hk s. unfold mbind, proc_bind. specialize (Hm s). destruct (m s) as [[x|e] s1]; simpl in *; [|done].
  etrans; [apply Hm|apply Hk].
Qed.
Lemma respects_pure {A} (m : proc E S A) : (∀ s, (m s).2 = s) → respects R m.
Proof. intros H s. by rewrite H. Qed.
Lemma respects_for_each {A} (l : list A) (f : A → proc E S unit) : (∀ x, respects R (f x)) → respects R (for_each l f).
Proof. intros Hf. induction l as [|x l IH]; simpl; [by apply respects_pure|]. by apply respects_bind. Qed.
Lemma respects_foldm {A B} (f : B → A → proc E S B) l b : (∀ b x, respects R (f b x)) → respects R (foldm f l b).
Proof. intros Hf. revert b. induction l as [|x l IH]; intros b; simpl; [by apply respects_pure|]. by apply respects_bind. Qed.
Lemma respects_catch {A} (m : proc E S A) h : respects R m → (∀ e, respects R (h e)) → respects R (catch m h).
Proof.
  intros Hm Hh s. unfold catch. specialize (Hm s). destruct (m s) as [[x|e] s1]; simpl in *; [done|].
  etrans; [apply Hm|apply Hh].
Qed.
End respects.

(** Decompose a method body; [leaf] closes the statements. *)
Ltac respects_tac leaf :=
  repeat first
    [ progress leaf
    | apply respects_bind; [apply _| |intros ?]
    | apply respects_for_each; [apply _|intros ?]
    | apply respects_foldm; [apply _|intros ? ?]
    | apply respects_catch; [apply _| |intros ?]
    | apply respects_pure; [apply _|]; by intros ?
    | match goal with
      | |- respects _ (when ?b _) => unfold when; destruct b
      | |- respects _ (match ?x with _ => _ end) => destruct x
      | |- respects _ (let _ := _ in _) => cbv zeta
      end ].

(** ** Outcomes, whatever the state: what a procedure returns and what it raises *)
Definition yields {E S A} (Q : A → Prop) (X : E → Prop) (m : proc E S A) : Prop :=
  ∀ s, match (m s).1 with Ok a => Q a | Raise e => X e end.

Section yields.
Context {E S : Type}.

Lemma yields_bind {A B} (R : A → Prop) Q X (m : proc E S A) (k : A → proc E S B) :
  yields R X m → (∀ x, R x → yields Q X (k x)) → yields Q X (x ← m; k x).
Proof.
  intros Hm Hk s. unfold mbind, proc_bind. specialize (Hm s). destruct (m s) as [[x|e] s1]; simpl in *; [|done].
  by apply Hk.
Qed.
Lemma yields_ret {A} (Q : A → Prop) X a : Q a → yields Q X (mret a : proc E S A).
Proof. by intros ? s. Qed.
Lemma yields_raise {A} (Q : A → Prop) (X : E → Prop) e : X e → yields Q X (raise e : proc E S A).
Proof. by intros ? s. Qed.
Lemma yields_of_outcome {A} (Q : A → Prop) (X : E → Prop) o :
  match o with Ok a => Q a | Raise e => X e end → yields Q X (of_outcome o : proc E S A).
Proof. by intros ? s. Qed.
Lemma yields_catch {A} (Q : A → Prop) (Y X : E → Prop) (m : proc E S A) h :
  yields Q Y m → (∀ e, Y e → yields Q X (h e)) → yields Q X (catch m h).
Proof.
  intros Hm Hh s. unfold catch. specialize (Hm s). destruct (m s) as [[x|e] s1]; simpl in *; [done|]. by apply Hh.
Qed.
Lemma yields_conseq {A} (Q Q' : A → Prop) (X X' : E → Prop) (m : proc E S A) :
  yields Q X m → (∀ a, Q a → Q' a) → (∀ e, X e → X' e) → yields Q' X' m.
Proof. intros Hm HQ HX s. specialize (Hm s). destruct (m s) as [[x|e] s1]; simpl in *; auto. Qed.

(** The outcome and the state together. *)
Lemma triple_yields {A} (P : S → Prop) (m : proc E S A) Q X Q' X' :
  triple P m Q X → yields Q' X' m → triple P m (λ a s, Q' a ∧ Q a s) (λ e s, X' e ∧ X e s).
Proof. intros Hm Hy s Hs. specialize (Hm s Hs). specialize (Hy s). by destruct (m s) as [[x|e] s1]. Qed.
End yields.
