(* ===== verification/Core.v ===== *)
(** Core domain of the coherence protocol: [src/ccs/core/].

    MESI states and the transition table ([states.py]), the domain dataclasses
    ([types.py]), the exceptions and wire-stable reasons ([exceptions.py]), the
    runtime invariant checks ([invariants.py]), the logical clock ([clock.py])
    and the granularity table ([granularity.py]). *)
From S2P Require Import Prelude.

Open Scope Z_scope.
Open Scope string_scope.

(** A [uuid.UUID] is its 128-bit integer value ([UUID.int]). *)
Abbreviation UUID := N.

(** A body handed to the coordinator: Python [str] (as its UTF-8 bytes) or
    [bytes].  The two are different values even when the bytes agree. *)
Inductive body : Type :=
| BStr (s : string)
| BBytes (s : string).
#[export] Instance body_eq_dec : EqDecision body.
Proof. solve_decision. Defined.

(** ** Exceptions ([core/exceptions.py] and the built-in ones the code raises)

    The message of an exception is its leading tag; the values an f-string
    interpolates are left out. *)
Inductive exn : Type :=
| KeyError (msg : string)
| ValueError (msg : string)
| AttributeError (msg : string)
| AssertionError (msg : string)
| CoherenceError (msg : string)
| StaleReadGeneration
| OccCallerTransientError
| SessionInvalidated (msg : string)
| InvalidTransitionError
| InvariantViolationError (msg : string)
| CasRetriesExhausted (artifact_id : UUID) (attempts last_current_version : Z)
| CheckpointUnknown (checkpoint_id : string)
| WatchdogAbandoned
| IntegrityError (msg : string)
| OperationalError (msg : string)
| RuntimeError (msg : string)
| ReadOnlyMutationError
| SchemaVersionError (msg : string)
| CrossRuntimeSchemaError
| MissingDatabaseError
| StoreNeedsRecoveryError (reason : string)
| FileNotFoundError
| OSError (msg : string)
| ConnectionError
| TimeoutError
| UnicodeDecodeError
| TypeError (msg : string)
| ClientError (code : string)
| TransportError
| StructuralMemberRefused
| BinaryFileMemberRefused
| CheckpointPersistFailed
| VersionPointerUnconfirmed (etag : option string)
| LegalHoldUnavailable
| ConditionalPutRetriesExhausted (attempts : Z)
| CasVersionConflict (expected_version current_version : Z)
| ViewWedged
| StaleView
| CommitUnconfirmed
| KeyboardInterrupt
| CallbackError.
#[export] Instance exn_eq_dec : EqDecision exn.
Proof. solve_decision. Defined.

Definition UNKNOWN_ARTIFACT_REASON := "unknown_artifact".
Definition RETENTION_OFF_REASON := "retention_off".
Definition NOT_RETAINED_REASON := "not_retained".
Definition EPOCH_MISMATCH_REASON := "epoch_mismatch".
Definition CURRENT_VERSION_REASON := "current_version".
Definition FUTURE_VERSION_REASON := "future_version".
Definition READ_AT_VERSION_REASONS : list string :=
  [RETENTION_OFF_REASON; UNKNOWN_ARTIFACT_REASON; NOT_RETAINED_REASON;
   EPOCH_MISMATCH_REASON; CURRENT_VERSION_REASON; FUTURE_VERSION_REASON].
Definition SESSION_NOT_FOUND_REASON := "session_not_found".
Definition SESSION_ARTIFACT_NOT_IN_CUT_REASON := "artifact_not_in_cut".
Definition SESSION_INVALIDATED_REASON := "session_invalidated".
Definition SESSION_READ_REASONS : list string :=
  [SESSION_NOT_FOUND_REASON; SESSION_ARTIFACT_NOT_IN_CUT_REASON; SESSION_INVALIDATED_REASON].
Definition SESSION_CAP_EXCEEDED_REASON := "session_cap_exceeded".
Definition SESSION_READ_SET_TOO_LARGE_REASON := "read_set_too_large".

(** ** MESI states ([core/states.py]) *)
Inductive MESIState : Type :=
| MODIFIED
| EXCLUSIVE
| SHARED
| INVALID.
#[export] Instance mesi_eq_dec : EqDecision MESIState.
Proof. solve_decision. Defined.

Inductive TransientState : Type :=
| ISG
| IED
| EIA
| SIA
| MWB
| MSA.
#[export] Instance transient_eq_dec : EqDecision TransientState.
Proof. solve_decision. Defined.

Definition VALID_TRANSITIONS : list (MESIState * MESIState) :=
  [ (INVALID, SHARED);
    (INVALID, EXCLUSIVE);
    (SHARED, INVALID);
    (SHARED, EXCLUSIVE);
    (EXCLUSIVE, SHARED);
    (EXCLUSIVE, MODIFIED);
    (EXCLUSIVE, INVALID);
    (MODIFIED, INVALID);
    (MODIFIED, SHARED) ].

Definition is_valid_transition (current_state next_state : MESIState) : bool :=
  bool_decide ((current_state, next_state) ∈ VALID_TRANSITIONS).

Definition transition_state (current_state next_state : MESIState) : outcome exn MESIState :=
  if is_valid_transition current_state next_state
  then Ok next_state
  else Raise InvalidTransitionError.

Definition can_act_in_transient (transient_state : TransientState) (strategy_name : string)
    (is_write lease_valid accesses_remaining : bool) : bool :=
  match transient_state with
  | ISG | IED => false
  | EIA | SIA =>
    if String.eqb strategy_name "eager" then false
    else if String.eqb strategy_name "lazy" then true
    else if String.eqb strategy_name "lease" then lease_valid
    else if String.eqb strategy_name "access_count" then accesses_remaining
    else false
  | MWB | MSA => negb is_write
  end.

(** The write-claim states, [_M_OR_E_STATES] of the registries. *)
Definition m_or_e (s : MESIState) : bool :=
  match s with MODIFIED | EXCLUSIVE => true | SHARED | INVALID => false end.

(** [state != MESIState.INVALID]. *)
Definition non_invalid (s : MESIState) : bool :=
  match s with INVALID => false | _ => true end.

(** ** Domain dataclasses ([core/types.py]) *)
Record Artifact := mkArtifact {
  art_id : UUID;
  art_name : string;
  art_version : Z;
  art_content_hash : option string;
  art_size_tokens : option Z;
  art_depends_on : list UUID;
}.
#[export] Instance eta_Artifact : Settable Artifact :=
  rec_pure mkArtifact <*> art_id <*> art_name <*> art_version <*> art_content_hash
    <*> art_size_tokens <*> art_depends_on.

Record ArtifactCacheEntry := mkEntry {
  ce_artifact_id : UUID;
  ce_state : MESIState;
  ce_local_version : Z;
  ce_access_count : Z;
  ce_acquired_at_tick : Z;
  ce_expires_at_tick : option Z;
  ce_transient_state : option TransientState;
  ce_transient_entered_tick : option Z;
}.
#[export] Instance eta_ArtifactCacheEntry : Settable ArtifactCacheEntry :=
  rec_pure mkEntry <*> ce_artifact_id <*> ce_state <*> ce_local_version <*> ce_access_count
    <*> ce_acquired_at_tick <*> ce_expires_at_tick <*> ce_transient_state
    <*> ce_transient_entered_tick.

Inductive ConflictReason : Type :=
| version_mismatch
| other_holder
| stale_read_generation.
#[export] Instance conflict_reason_eq_dec : EqDecision ConflictReason.
Proof. solve_decision. Defined.

Record ConflictDetail := mkConflict {
  cd_reason : ConflictReason;
  cd_current_version : Z;
}.

Record MultiCommitResult := mkMultiCommitResult {
  mcr_versions : list (UUID * Z);
  mcr_invalidated : list (UUID * list UUID);
}.

Record CommitAllEntry := mkCommitAllEntry {
  cae_expected_version : Z;
  cae_content_hash : string;
  cae_size_tokens : option Z;
  cae_content : option body;
}.

Record InvalidationSignal := mkSignal {
  sig_artifact_id : UUID;
  sig_new_version : Z;
  sig_issued_at_tick : Z;
  sig_issuer_agent_id : UUID;
}.

Record FetchRequest := mkFetchRequest {
  fq_artifact_id : UUID;
  fq_requesting_agent_id : UUID;
  fq_requested_at_tick : Z;
}.

Record FetchResponse := mkFetchResponse {
  fr_artifact_id : UUID;
  fr_version : Z;
  fr_content : body;
  fr_state_grant : MESIState;
}.

Record VersionedContent := mkVersionedContent {
  vc_artifact_id : UUID;
  vc_version : Z;
  vc_content : body;
  vc_captured_at : Z;
  vc_coordinator_epoch : string;
}.

Record VersionedReadRejection := mkVersionedReadRejection {
  vr_reason : string;
  vr_artifact_id : UUID;
  vr_requested_version : Z;
  vr_current_version : option Z;
  vr_coordinator_epoch : string;
}.

Record SnapshotSession := mkSnapshotSession {
  ss_session_token : string;
  ss_cut : list (UUID * Z);
  ss_coordinator_epoch : string;
  ss_retain_versions : bool;
}.

Record DataPlaneDeferredRead := mkDeferredRead {
  dp_artifact_id : UUID;
  dp_version : Z;
  dp_content_hash : option string;
  dp_coordinator_epoch : string;
}.

(** [SessionReadRejection] and [SessionCommitRejection] have the same fields. *)
Record SessionRejection := mkSessionRejection {
  sr_reason : string;
  sr_artifact_id : UUID;
  sr_coordinator_epoch : string;
}.

(** ** Runtime invariant checks ([core/invariants.py]) *)
Definition check_single_writer (state_by_agent : list (UUID * MESIState)) : outcome exn unit :=
  let owners := filter (λ kv, m_or_e kv.2 = true) state_by_agent in
  if decide (1 < length owners)%nat
  then Raise (InvariantViolationError "single_writer_violated")
  else Ok tt.

Definition check_monotonic_version (previous_version current_version : Z) : outcome exn unit :=
  if decide (current_version < previous_version)
  then Raise (InvariantViolationError "version_regressed")
  else Ok tt.

Definition check_bounded_staleness (steps_on_stale max_steps : Z) : outcome exn unit :=
  if decide (max_steps < steps_on_stale)
  then Raise (InvariantViolationError "staleness_bound_exceeded")
  else Ok tt.

(** ** Logical clock ([core/clock.py]) *)
Module LogicalClock.
Record t := mk { tick : Z }.

Definition advance (n : Z) : proc exn t Z := λ c,
  if decide (n < 0) then (Raise (ValueError "Cannot advance clock backwards"), c)
  else (Ok (tick c + n), mk (tick c + n)).

Definition now (c : t) : Z := tick c.

Definition elapsed_since (past_tick : Z) (c : t) : outcome exn Z :=
  if decide (tick c < past_tick) then Raise (ValueError "past_tick cannot be in the future")
  else Ok (tick c - past_tick).

(** Any run of [advance] calls, failing ones included, leaves a clock whose
    elapsed time since an earlier reading is defined and non-negative. *)
Lemma advances_elapsed ns c c' :
  snd (for_each ns (λ n, catch (advance n ;; mret tt) (λ _, mret tt)) c) = c' →
  ∃ e, elapsed_since (now c) c' = Ok e ∧ 0 <= e.
Proof.
  revert c. induction ns as [|n ns IH]; intros c; simpl.
  - intros <-. unfold elapsed_since, now. case_decide; [lia|]. eexists; split; [done|lia].
  - unfold mbind at 1, proc_bind, catch, mbind, mret, proc_ret, advance.
    case_decide; simpl; intros Hc; [by apply IH|].
    destruct (IH _ Hc) as (e & He & ?). unfold elapsed_since, now in *. simpl in *.
    repeat case_decide; simplify_eq; try lia. eexists; split; [done|lia].
Qed.
End LogicalClock.

(** ** Granularity table ([core/granularity.py]) *)
Module Granularity.
Inductive GranularityLevel : Type := COARSE | MEDIUM | FINE.
Record GranularitySpec := mkSpec {
  level : GranularityLevel;
  min_tokens : Z;
  max_tokens : Z;
  v01_supported : bool;
}.
Definition GRANULARITY_SPECS (l : GranularityLevel) : GranularitySpec :=
  match l with
  | COARSE => mkSpec COARSE 2048 8192 true
  | MEDIUM => mkSpec MEDIUM 256 2048 false
  | FINE => mkSpec FINE 10 100 false
  end.
Definition CANONICAL_ARTIFACT_TOKENS : Z := 4096.
Definition DEFAULT_GRANULARITY : GranularityLevel := COARSE.
End Granularity.

(** ** Facts *)
Lemma m_or_e_non_invalid s : m_or_e s = true → non_invalid s = true.
Proof. by destruct s. Qed.

Lemma m_or_e_not_invalid s : m_or_e s = true → s ≠ INVALID.
Proof. by destruct s. Qed.

Lemma non_invalid_spec s : non_invalid s = true ↔ s ≠ INVALID.
Proof. by destruct s. Qed.

Lemma check_single_writer_spec (d : list (UUID * MESIState)) :
  dict_wf d →
  check_single_writer d = Ok tt ↔
  ∀ a b sa sb, dget d a = Some sa → dget d b = Some sb →
    m_or_e sa = true → m_or_e sb = true → a = b.
Proof.
  intros Hwf. unfold check_single_writer.
  assert (Hf : ∀ k s, (k, s) ∈ filter (λ kv : UUID * MESIState, m_or_e kv.2 = true) d
    ↔ dget d k = Some s ∧ m_or_e s = true).
  { intros k s. rewrite list_elem_of_filter, dict_elem_iff; naive_solver. }
  assert (Hnd : NoDup (filter (λ kv : UUID * MESIState, m_or_e kv.2 = true) d).*1).
  { eapply sublist_NoDup; [exact Hwf|]. apply fmap_sublist, sublist_filter. }
  destruct (filter _ d) as [|[k1 s1] [|[k2 s2] l]] eqn:El.
  - split; [|done]. intros _ a b sa sb ????. exfalso.
    apply (not_elem_of_nil (a, sa)), Hf; done.
  - split; [|done]. intros _ a b sa sb Ha Hb Hma Hmb.
    assert ((a, sa) ∈ [(k1, s1)]) as Hina by (apply Hf; done).
    assert ((b, sb) ∈ [(k1, s1)]) as Hinb by (apply Hf; done). set_solver.
  - split; [by rewrite decide_True by (simpl; lia)|]. intros Huniq. exfalso.
    destruct (proj1 (Hf k1 s1)) as [??]; [set_solver|].
    destruct (proj1 (Hf k2 s2)) as [??]; [set_solver|].
    simpl in Hnd. apply NoDup_cons in Hnd as [Hk _].
    apply Hk. rewrite (Huniq k1 k2 s1 s2); [set_solver|done..].
Qed.
