(* ===== verification/Hashing.v ===== *)
(** Content hashing and derived identities.

    [core/hashing.py] and [core/identity.py] call Python's [hashlib.sha256] and
    [uuid.uuid5] (SHA-1 under a namespace).  Both digests are written out here
    on 32-bit words kept in [N], so that every hash of the model is the one the
    program computes; the vectors at the end of the file pin them. *)
From S2P Require Import Prelude Core.

Open Scope string_scope.
Open Scope N_scope.

(** ** 32-bit words and bytes *)
Definition mask32 (x : N) : N := N.land x 0xffffffff.
Definition add32 (x y : N) : N := mask32 (x + y).
Definition rotr32 (n x : N) : N := N.lor (N.shiftr x n) (mask32 (N.shiftl x (32 - n))).
Definition rotl32 (n x : N) : N := rotr32 (32 - n) x.
Definition not32 (x : N) : N := N.lxor x 0xffffffff.

Fixpoint bytes_of_string (s : string) : list N :=
  match s with
  | EmptyString => []
  | String c s' => Ascii.N_of_ascii c :: bytes_of_string s'
  end.

Fixpoint be_word (acc : N) (bs : list N) : N :=
  match bs with
  | [] => acc
  | b :: bs' => be_word (N.lor (N.shiftl acc 8) b) bs'
  end.

Fixpoint be_bytes (n : nat) (x : N) : list N :=
  match n with
  | O => []
  | S n' => (be_bytes n' (N.shiftr x 8) ++ [N.land x 0xff])%list
  end.

Fixpoint chunks (n : nat) (fuel : nat) (l : list N) : list (list N) :=
  match fuel, l with
  | O, _ => []
  | _, [] => []
  | S fuel', _ => take n l :: chunks n fuel' (drop n l)
  end.

(** The Merkle-Damgard padding both digests share: 0x80, zeros up to 56 modulo
    64, the bit length as eight bytes. *)
Definition pad (msg : list N) : list N :=
  let len := length msg in
  (msg ++ [0x80] ++ replicate ((119 - len mod 64) mod 64)%nat 0
    ++ be_bytes 8 (8 * N.of_nat len))%list.

Definition blocks (msg : list N) : list (list N) :=
  let p := pad msg in
  map (λ b, map (be_word 0) (chunks 4 16 b)) (chunks 64 (length p) p).

(** ** SHA-256 *)
Module Sha256.
(** The round and initial constants are the fractional bits of the cube roots of
    the first 64 primes and of the square roots of the first 8. *)
Definition is_prime (n : nat) : bool :=
  forallb (λ d, negb (Nat.eqb (n mod d) 0)) (seq 2 (n - 2)).

Definition primes : list nat := filter (λ n, is_prime n = true) (seq 2 310).

(** The integer cube root, one bit at a time from the top. *)
Fixpoint icbrt (bits : nat) (acc n : N) : N :=
  match bits with
  | O => acc
  | S b =>
    let acc' := acc + N.shiftl 1 (N.of_nat b) in
    icbrt b (if acc' * acc' * acc' <=? n then acc' else acc) n
  end.

Definition K : list N :=
  Eval vm_compute in map (λ p, mask32 (icbrt 36 0 (N.shiftl (N.of_nat p) 96))) primes.
Definition H0 : list N :=
  Eval vm_compute in map (λ p, mask32 (N.sqrt (N.shiftl (N.of_nat p) 64))) (take 8 primes).

Definition bsig0 x := N.lxor (rotr32 2 x) (N.lxor (rotr32 13 x) (rotr32 22 x)).
Definition bsig1 x := N.lxor (rotr32 6 x) (N.lxor (rotr32 11 x) (rotr32 25 x)).
Definition ssig0 x := N.lxor (rotr32 7 x) (N.lxor (rotr32 18 x) (N.shiftr x 3)).
Definition ssig1 x := N.lxor (rotr32 17 x) (N.lxor (rotr32 19 x) (N.shiftr x 10)).
Definition ch e f g := N.lxor (N.land e f) (N.land (not32 e) g).
Definition maj a b c := N.lxor (N.land a b) (N.lxor (N.land a c) (N.land b c)).

(** [ws] holds the schedule so far, most recent word first. *)
Fixpoint schedule (n : nat) (ws : list N) : list N :=
  match n with
  | O => rev ws
  | S n' =>
    let w := add32 (add32 (ssig1 (nth 1 ws 0)) (nth 6 ws 0))
                   (add32 (ssig0 (nth 14 ws 0)) (nth 15 ws 0)) in
    schedule n' (w :: ws)
  end.

Definition round (st : list N) (kw : N * N) : list N :=
  match st with
  | [a; b; c; d; e; f; g; h] =>
    let t1 := add32 (add32 h (bsig1 e)) (add32 (ch e f g) (add32 kw.1 kw.2)) in
    let t2 := add32 (bsig0 a) (maj a b c) in
    [add32 t1 t2; a; b; c; add32 d t1; e; f; g]
  | _ => st
  end.

Definition compress (st : list N) (block : list N) : list N :=
  zip_with add32 st (foldl round st (zip K (schedule 48 (rev block)))).

Definition digest (msg : list N) : list N := foldl compress H0 (blocks msg).
End Sha256.

(** ** SHA-1 *)
Module Sha1.
Definition H0 : list N := [0x67452301; 0xefcdab89; 0x98badcfe; 0x10325476; 0xc3d2e1f0].

Fixpoint schedule (n : nat) (ws : list N) : list N :=
  match n with
  | O => rev ws
  | S n' =>
    let w := rotl32 1 (N.lxor (N.lxor (nth 2 ws 0) (nth 7 ws 0))
                              (N.lxor (nth 13 ws 0) (nth 15 ws 0))) in
    schedule n' (w :: ws)
  end.

Definition fk (t : nat) (b c d : N) : N * N :=
  if (t <? 20)%nat then (N.lor (N.land b c) (N.land (not32 b) d), 0x5a827999)
  else if (t <? 40)%nat then (N.lxor b (N.lxor c d), 0x6ed9eba1)
  else if (t <? 60)%nat then
    (N.lor (N.land b c) (N.lor (N.land b d) (N.land c d)), 0x8f1bbcdc)
  else (N.lxor b (N.lxor c d), 0xca62c1d6).

Definition round (st : list N) (tw : nat * N) : list N :=
  match st with
  | [a; b; c; d; e] =>
    let '(f, k) := fk tw.1 b c d in
    [add32 (add32 (rotl32 5 a) f) (add32 e (add32 k tw.2)); a; rotl32 30 b; c; d]
  | _ => st
  end.

Definition compress (st : list N) (block : list N) : list N :=
  zip_with add32 st (foldl round st (zip (seq 0 80) (schedule 64 (rev block)))).

Definition digest (msg : list N) : list N := foldl compress H0 (blocks msg).
End Sha1.

(** ** Lower-case hexadecimal *)
Definition hex_digit (x : N) : Ascii.ascii :=
  Ascii.ascii_of_N (if x <? 10 then 48 + x else 87 + x).

Fixpoint hex_word (n : nat) (x : N) (acc : string) : string :=
  match n with
  | O => acc
  | S n' => hex_word n' (N.shiftr x 4) (String (hex_digit (N.land x 15)) acc)
  end.

Definition hexdigest (ws : list N) : string :=
  foldr (λ w acc, hex_word 8 w acc) EmptyString ws.

(** ** [core/hashing.py] *)

(** [content.encode("utf-8")] exists for [str] only: a [bytes] body raises. *)
Definition compute_content_hash (content : body) : outcome exn string :=
  match content with
  | BStr s => Ok (hexdigest (Sha256.digest (bytes_of_string s)))
  | BBytes _ => Raise (AttributeError "encode")
  end.

(** ** [uuid.uuid5] and [core/identity.py] *)
Definition NAMESPACE_URL : UUID := 0x6ba7b8119dad11d180b400c04fd430c8.

Definition uuid5 (namespace : UUID) (name : string) : UUID :=
  let d := Sha1.digest (be_bytes 16 namespace ++ bytes_of_string name)%list in
  let i := be_word 0 (flat_map (be_bytes 4) (take 4 d)) in
  let i := N.lor (N.ldiff i (N.shiftl 0xc000 48)) (N.shiftl 0x8000 48) in
  N.lor (N.ldiff i (N.shiftl 0xf000 64)) (N.shiftl 5 76).

Definition artifact_uuid (scope key : string) : UUID :=
  uuid5 NAMESPACE_URL ("ccs-artifact:" ++ scope ++ ":" ++ key).

(** ** Facts *)
Lemma length_hex_word n x acc : String.length (hex_word n x acc) = (n + String.length acc)%nat.
Proof.
  revert x acc. induction n as [|n IH]; intros x acc; simpl; [done|].
  rewrite IH. simpl. lia.
Qed.

Lemma length_hexdigest ws : String.length (hexdigest ws) = (8 * length ws)%nat.
Proof.
  induction ws as [|w ws IH]; [done|].
  change (hexdigest (w :: ws)) with (hex_word 8 w (hexdigest ws)).
  rewrite length_hex_word, IH. simpl. lia.
Qed.

Lemma sha256_round_length st kws : length st = 8%nat → length (foldl Sha256.round st kws) = 8%nat.
Proof.
  revert st. induction kws as [|kw kws IH]; intros st Hst; simpl; [done|].
  apply IH. destruct st as [|? [|? [|? [|? [|? [|? [|? [|? [|]]]]]]]]]; done.
Qed.

Lemma sha256_digest_length msg : length (Sha256.digest msg) = 8%nat.
Proof.
  unfold Sha256.digest. set (bs := blocks msg). clearbody bs.
  assert (Hst : length Sha256.H0 = 8%nat) by reflexivity. revert Hst.
  generalize Sha256.H0. induction bs as [|b bs IH]; intros st Hst; simpl; [done|].
  apply IH. unfold Sha256.compress. by rewrite length_zip_with, sha256_round_length, Hst.
Qed.

Lemma content_hash_length c h : compute_content_hash c = Ok h → String.length h = 64%nat.
Proof.
  destruct c as [s|s]; cbn [compute_content_hash]; intros ?; simplify_eq.
  by rewrite length_hexdigest, sha256_digest_length.
Qed.

(** The digests agree with the published vectors and with CPython's [uuid5]. *)
Example sha256_empty : compute_content_hash (BStr EmptyString) =
  Ok "e3b0c44298fc1c149afbf4c8996fb92427ae41e4649b934ca495991b7852b855".
Proof. vm_compute. reflexivity. Qed.

Example sha256_two_blocks :
  compute_content_hash (BStr "abcdbcdecdefdefgefghfghighijhijkijkljklmklmnlmnomnopnopq") =
  Ok "248d6a61d20638b8e5c026930c3e6039a33ce45964ff2167f6ecedd419db06c1".
Proof. vm_compute. reflexivity. Qed.

Example artifact_uuid_vector : artifact_uuid "graph:thread" "plan" = 0x8b19e8f0204752a8baeea27a2aa22a0e.
Proof. vm_compute. reflexivity. Qed.
