(* ===== verification/Retention.v ===== *)
(** Bounded version retention: [src/ccs/coordinator/retention.py].

    The policy and [collectible_versions], the one garbage-collection rule every
    capture point of a registry and the read side route through.  Wall-clock
    seconds are integers of one unit: the code only compares and subtracts
    them. *)
From S2P Require Import Prelude Core.
From stdpp Require Import sorting.

Open Scope Z_scope.

Record RetentionPolicy := mkPolicy {
  max_versions : option Z;
  max_age_seconds : option Z;
}.

(** [RetentionPolicy(...)] with its [__post_init__] validation. *)
Definition RetentionPolicy_init (k t : option Z) : outcome exn RetentionPolicy :=
  match k with
  | Some k' =>
    if decide (k' < 1) then Raise (ValueError "RetentionPolicy.max_versions must be >= 1 when set")
    else match t with
         | Some t' => if decide (t' <= 0)
                      then Raise (ValueError "RetentionPolicy.max_age_seconds must be > 0 when set")
                      else Ok (mkPolicy k t)
         | None => Ok (mkPolicy k t)
         end
  | None => match t with
            | Some t' => if decide (t' <= 0)
                         then Raise (ValueError "RetentionPolicy.max_age_seconds must be > 0 when set")
                         else Ok (mkPolicy k t)
            | None => Ok (mkPolicy k t)
            end
  end.

(** The [versions] argument: a bare iterable, or a [{version: captured_at}]
    mapping, which alone enables the age axis. *)
Inductive versions_arg : Type :=
| VIterable (l : list Z)
| VMapping (d : list (Z * Z)).

Definition arg_versions (vs : versions_arg) : list Z :=
  match vs with VIterable l => l | VMapping d => d.*1 end.

(** [set(sorted(all_versions, reverse=True)[:k])]. *)
Definition kept_by_k (k : Z) (all : gset Z) : gset Z :=
  list_to_set (take (Z.to_nat k) (merge_sort (flip Z.le) (elements all))).

Definition expired (cutoff : Z) (d : list (Z * Z)) : gset Z :=
  list_to_set (filter (λ kv : Z * Z, kv.2 < cutoff) d).*1.

Definition collectible_versions (versions : versions_arg) (current_version : Z)
    (policy : RetentionPolicy) (now : Z) (exemptions : gset Z) : gset Z :=
  let all_versions : gset Z := list_to_set (arg_versions versions) in
  let exempt := exemptions ∪ {[current_version]} in
  let by_k := match max_versions policy with
              | Some k => all_versions ∖ kept_by_k k all_versions
              | None => ∅
              end in
  let by_t := match max_age_seconds policy, versions with
              | Some t, VMapping d => expired (now - t) d
              | _, _ => ∅
              end in
  (by_k ∪ by_t) ∖ exempt.

(** ** Ranking by the sorted prefix *)

(** The versions of [l] newer than [v]. *)
Definition newer (v : Z) (l : list Z) : list Z := filter (λ w : Z, v < w) l.

Lemma filter_newer_sorted v l :
  StronglySorted (flip Z.le) (v :: l) → newer v l = [].
Proof.
  unfold newer. intros Hs. apply StronglySorted_inv in Hs as [_ Hall].
  induction l as [|w l IH]; [done|]. apply Forall_cons in Hall as [Hw Hall].
  unfold flip in Hw. rewrite filter_cons_False by lia. by apply IH.
Qed.

(** In a strictly descending list, the elements of the first [k] places are
    those with fewer than [k] greater ones. *)
Lemma elem_take_sorted (v : Z) (k : nat) (l : list Z) :
  StronglySorted (flip Z.le) l → NoDup l →
  v ∈ take k l ↔ v ∈ l ∧ (length (newer v l) < k)%nat.
Proof.
  unfold newer. revert k. induction l as [|x l IH]; intros k Hs Hnd.
  - rewrite take_nil. split; [by intros ?%elem_of_nil|by intros [?%elem_of_nil _]].
  - pose proof (filter_newer_sorted x l Hs) as Hx. unfold newer in Hx.
    pose proof Hs as Hs'. apply StronglySorted_inv in Hs' as [Hs' Hall].
    apply NoDup_cons in Hnd as [Hni Hnd]. rewrite Forall_forall in Hall.
    destruct k as [|k]; simpl.
    { split; [by intros ?%elem_of_nil|lia]. }
    rewrite !elem_of_cons, (IH k) by done.
    destruct (decide (v = x)) as [->|Hne].
    + rewrite filter_cons_False, Hx by lia. simpl. split; [|auto with lia].
      intros _. split; [by left|lia].
    + split.
      * intros [?|[Hv Hlen]]; [done|]. split; [by right|].
        specialize (Hall v Hv). unfold flip in Hall.
        rewrite filter_cons_True by lia. simpl. lia.
      * intros [[?|Hv] Hlen]; [done|]. right. split; [done|].
        specialize (Hall v Hv). unfold flip in Hall.
        rewrite filter_cons_True in Hlen by lia. simpl in Hlen. lia.
Qed.

#[local] Instance flip_le_total : Total (flip Z.le).
Proof. intros x y. unfold flip. lia. Qed.

#[local] Instance flip_le_trans : Transitive (flip Z.le).
Proof. intros x y z. unfold flip. lia. Qed.

#[local] Instance newer_proper v : Proper ((≡ₚ) ==> (≡ₚ)) (newer v).
Proof. intros l1 l2 Hp. unfold newer. by rewrite Hp. Qed.

Lemma elem_kept_by_k v k all :
  v ∈ kept_by_k k all ↔ v ∈ all ∧ (length (newer v (elements all)) < Z.to_nat k)%nat.
Proof.
  unfold kept_by_k. rewrite elem_of_list_to_set, elem_take_sorted.
  - by rewrite (merge_sort_Permutation (flip Z.le) (elements all)), elem_of_elements.
  - apply StronglySorted_merge_sort; apply _.
  - rewrite (merge_sort_Permutation (flip Z.le) (elements all)). apply NoDup_elements.
Qed.

Lemma elem_expired v cutoff d : v ∈ expired cutoff d ↔ ∃ t, (v, t) ∈ d ∧ t < cutoff.
Proof.
  unfold expired. rewrite elem_of_list_to_set, list_elem_of_fmap. split.
  - intros ([v' t] & -> & [??]%list_elem_of_filter). eauto.
  - intros (t & ? & ?). exists (v, t). split; [done|]. by apply list_elem_of_filter.
Qed.

(** ** What the rule collects *)

Section collectible.
Context (vs : versions_arg) (cur now : Z) (policy : RetentionPolicy) (ex : gset Z).

Abbreviation dropped := (collectible_versions vs cur policy now ex).
Abbreviation all := (list_to_set (arg_versions vs) : gset Z).

Lemma current_not_collectible : cur ∉ dropped.
Proof. unfold collectible_versions. set_solver. Qed.

Lemma exempt_not_collectible v : v ∈ ex → v ∉ dropped.
Proof. unfold collectible_versions. set_solver. Qed.

Lemma collectible_subseteq : dropped ⊆ all.
Proof.
  unfold collectible_versions. intros v [Hv _]%elem_of_difference.
  apply elem_of_union in Hv as [Hv|Hv].
  - destruct (max_versions policy); set_solver.
  - destruct (max_age_seconds policy), vs as [l|d]; try set_solver.
    apply elem_expired in Hv as (t & ? & _). simpl. apply elem_of_list_to_set.
    apply list_elem_of_fmap. by exists (v, t).
Qed.

(** How many retained versions are newer than [v]. *)
Definition newer_count (v : Z) : nat := length (newer v (elements all)).

Lemma collectible_spec v :
  v ∈ dropped ↔
    v ∈ all ∧ (v ∉ ex) ∧ v ≠ cur ∧
    ((∃ k, max_versions policy = Some k ∧ (Z.to_nat k <= newer_count v)%nat) ∨
     (∃ t d c, max_age_seconds policy = Some t ∧ vs = VMapping d ∧ ((v, c) ∈ d) ∧ c < now - t)).
Proof.
  split.
  - intros Hv. pose proof (collectible_subseteq v Hv) as Hall.
    unfold collectible_versions in Hv. apply elem_of_difference in Hv as [Hv Hex].
    split_and!; [done|set_solver..|].
    apply elem_of_union in Hv as [Hv|Hv].
    + destruct (max_versions policy) as [k|]; [|set_solver]. left. exists k. split; [done|].
      apply elem_of_difference in Hv as [_ Hv]. rewrite elem_kept_by_k in Hv.
      unfold newer_count. destruct (decide (Z.to_nat k <= length (newer v (elements all)))%nat); [done|].
      exfalso. apply Hv. split; [done|lia].
    + destruct (max_age_seconds policy) as [t|], vs as [l|d]; try set_solver.
      apply elem_expired in Hv as (c & ? & ?). right. eauto 10.
  - intros (Hall & Hex & Hcur & Hor). unfold collectible_versions.
    apply elem_of_difference. split; [|set_solver]. apply elem_of_union.
    destruct Hor as [(k & -> & Hk)|(t & d & c & -> & -> & ? & ?)].
    + left. apply elem_of_difference. split; [done|]. rewrite elem_kept_by_k.
      unfold newer_count in Hk. lia.
    + right. apply elem_expired. eauto.
Qed.
End collectible.
