(* ===== verification/Registry.v ===== *)
(** The in-memory artifact registry: [src/ccs/coordinator/registry.py], with the
    contract types and trigger sets of [registry_protocol.py].

    [ArtifactRecord] and [Registry] are the two mutable objects of the module,
    field for field.  A public method is one [proc] on the registry: the code
    runs each of them under the registry-wide lock, so a method is one atomic
    step.  Two ambient inputs are explicit.  [wall_clock] is the sequence of
    values successive [time.time()] calls return, no monotonicity assumed.
    [state_log] is the optional callback: whether it raises is any function of
    the calls it has received and of the entry, and [log_calls] is the trace of
    those calls with their outcome. *)
From S2P Require Import Prelude Core Retention.

Open Scope Z_scope.
Open Scope string_scope.

(** ** Contract constants ([registry_protocol.py]) *)
Definition RECLAIM_TRIGGERS : list string := ["reclaim_heartbeat"; "reclaim_max_hold"; "timeout"].
Definition EPOCH_BUMP_TRIGGERS : list string := (RECLAIM_TRIGGERS ++ ["invalidate"])%list.
Definition CLAIM_CAPTURE_TRIGGERS : list string := ["fetch"].

Definition ReclamationSlot : Type := string * Z.

(** [CasResult]: win, typed loss, impossible state. *)
Inductive CasResult : Type :=
| CasWin (updated : Artifact) (invalidated : list UUID)
| CasConflict (detail : ConflictDetail)
| CasCorruption (current_version : Z).

Inductive MultiCasResult : Type :=
| MultiWin (result : MultiCommitResult)
| MultiConflict (per_artifact : list (UUID * ConflictDetail))
| MultiCorruption (current_version : Z).

Record CheckpointRecord := mkCheckpoint {
  cp_checkpoint_id : string;
  cp_name : string;
  cp_owner : option UUID;
  cp_created_at : Z;
  cp_created_at_tick : Z;
  cp_window_min : Z;
  cp_window_max : Z;
  cp_restore_status : string;
  cp_restore_updated_at : option Z;
  cp_pin_refcount : Z;
}.
#[export] Instance eta_CheckpointRecord : Settable CheckpointRecord :=
  rec_pure mkCheckpoint <*> cp_checkpoint_id <*> cp_name <*> cp_owner <*> cp_created_at
    <*> cp_created_at_tick <*> cp_window_min <*> cp_window_max <*> cp_restore_status
    <*> cp_restore_updated_at <*> cp_pin_refcount.

Record CheckpointMember := mkMember {
  cm_member_path : string;
  cm_artifact_id : option UUID;
  cm_native_token : option string;
  cm_fingerprint : option string;
  cm_captured_at : Z;
  cm_absent : bool;
  cm_dirty_during_window : bool;
  cm_arbitration_tier : string;
  cm_restore_tier : string;
  cm_pin_state : string;
  cm_restore_outcome : option string;
  cm_deleted_at_restore : option Z;
}.
#[export] Instance eta_CheckpointMember : Settable CheckpointMember :=
  rec_pure mkMember <*> cm_member_path <*> cm_artifact_id <*> cm_native_token <*> cm_fingerprint
    <*> cm_captured_at <*> cm_absent <*> cm_dirty_during_window <*> cm_arbitration_tier
    <*> cm_restore_tier <*> cm_pin_state <*> cm_restore_outcome <*> cm_deleted_at_restore.

(** ** State *)
Record LogEntry := mkLogEntry {
  le_tick : Z;
  le_artifact_id : UUID;
  le_agent_id : UUID;
  le_agent_name : option string;
  le_from_state : MESIState;
  le_to_state : MESIState;
  le_trigger : string;
  le_version : Z;
  le_content_hash : option string;
  le_sequence_number : Z;
  le_instance_id : string;
}.

Record ArtifactRecord := mkRecord {
  artifact : Artifact;
  content : body;
  state_by_agent : list (UUID * MESIState);
  transient_by_agent : list (UUID * TransientState);
  transient_tick_by_agent : list (UUID * Z);
  last_writer : option UUID;
  version_history : list (Z * body);
  version_captured_at : list (Z * Z);
  granted_at_tick_by_agent : list (UUID * Z);
  last_reclamation_by_agent : list (UUID * ReclamationSlot);
  owner_generation : Z;
  read_generation_by_agent : list (UUID * Z);
  last_observed_version_by_agent : list (UUID * Z);
}.
#[export] Instance eta_ArtifactRecord : Settable ArtifactRecord :=
  rec_pure mkRecord <*> artifact <*> content <*> state_by_agent <*> transient_by_agent
    <*> transient_tick_by_agent <*> last_writer <*> version_history <*> version_captured_at
    <*> granted_at_tick_by_agent <*> last_reclamation_by_agent <*> owner_generation
    <*> read_generation_by_agent <*> last_observed_version_by_agent.

Definition fresh_record (a : Artifact) (c : body) : ArtifactRecord :=
  mkRecord a c [] [] [] None [] [] [] [] 0 [] [].

Record Registry := mkRegistry {
  records : list (UUID * ArtifactRecord);
  heartbeat_by_agent : list (UUID * Z);
  state_log : option (list (LogEntry * bool) → LogEntry → bool);
  log_calls : list (LogEntry * bool);
  agent_names : option (list (UUID * string));
  instance_id : string;
  coordinator_epoch : string;
  seq_no : Z;
  retain_versions : bool;
  retention_policy : option RetentionPolicy;
  session_pins : list (string * list (UUID * Z));
  session_meta : list (string * (UUID * Z));
  checkpoints : list (string * CheckpointRecord);
  checkpoint_members : list (string * list (string * CheckpointMember));
  conflict_counts : list ((UUID * UUID * ConflictReason) * Z);
  wall_clock : nat → Z;
  wall_reads : nat;
}.
#[export] Instance eta_Registry : Settable Registry :=
  rec_pure mkRegistry <*> records <*> heartbeat_by_agent <*> state_log <*> log_calls
    <*> agent_names <*> instance_id <*> coordinator_epoch <*> seq_no <*> retain_versions
    <*> retention_policy <*> session_pins <*> session_meta <*> checkpoints
    <*> checkpoint_members <*> conflict_counts <*> wall_clock <*> wall_reads.

Definition RM (A : Type) : Type := proc exn Registry A.

(** [ArtifactRegistry.__init__].  [minted_instance] and [minted_epoch] are the
    [uuid4()] values the constructor draws. *)
Definition registry_init (sink : option (list (LogEntry * bool) → LogEntry → bool))
    (names : option (list (UUID * string))) (instance : option string)
    (retain : bool) (policy : option RetentionPolicy)
    (minted_instance minted_epoch : string) (clock : nat → Z) : outcome exn Registry :=
  match sink, instance with
  | Some _, None => Raise (ValueError "instance_id must be provided when state_log is set")
  | _, _ =>
    Ok (mkRegistry [] [] sink [] names (default minted_instance instance) minted_epoch 0
          retain policy [] [] [] [] [] clock 0)
  end.

(** [abort_guard]: the lock is won, then the abort event is tested.  [abort] is
    the state of the watchdog event at that instant. *)
Definition abort_guard {A} (abort : bool) (m : RM A) : RM A :=
  if abort then raise WatchdogAbandoned else m.

(** ** Read accessors *)
Definition get_record (r : Registry) (a : UUID) : option ArtifactRecord := dget (records r) a.
Definition has_artifact (r : Registry) (a : UUID) : bool := dmem (records r) a.
Definition artifact_ids (r : Registry) : list UUID := (records r).*1.
Definition get_artifact (r : Registry) (a : UUID) : option Artifact := artifact <$> get_record r a.
Definition get_content (r : Registry) (a : UUID) : option body := content <$> get_record r a.

Definition retention_meta (r : Registry) : bool * option RetentionPolicy :=
  if retain_versions r then (true, retention_policy r) else (false, None).

Definition get_owner_generation (r : Registry) (a : UUID) : outcome exn Z :=
  match get_record r a with
  | Some rec => Ok (owner_generation rec)
  | None => Raise (KeyError "artifact")
  end.

Definition get_read_generation (r : Registry) (a ag : UUID) : option Z :=
  rec ← get_record r a; dget (read_generation_by_agent rec) ag.
Definition last_observed_version_for (r : Registry) (a ag : UUID) : option Z :=
  rec ← get_record r a; dget (last_observed_version_by_agent rec) ag.
Definition get_artifact_and_generation (r : Registry) (a : UUID) : option (Artifact * Z) :=
  rec ← get_record r a; Some (artifact rec, owner_generation rec).
Definition get_content_at_version (r : Registry) (a : UUID) (v : Z) : option body :=
  rec ← get_record r a; dget (version_history rec) v.
Definition get_version_record (r : Registry) (a : UUID) (v : Z) : option (body * Z) :=
  rec ← get_record r a;
  c ← dget (version_history rec) v;
  t ← dget (version_captured_at rec) v;
  Some (c, t).
Definition get_state_map (r : Registry) (a : UUID) : list (UUID * MESIState) :=
  match get_record r a with Some rec => state_by_agent rec | None => [] end.
Definition get_agent_state (r : Registry) (a ag : UUID) : option MESIState :=
  rec ← get_record r a; dget (state_by_agent rec) ag.
Definition get_agent_transient (r : Registry) (a ag : UUID) : option TransientState :=
  rec ← get_record r a; dget (transient_by_agent rec) ag.
Definition get_transient_map (r : Registry) (a : UUID) : list (UUID * TransientState) :=
  match get_record r a with Some rec => transient_by_agent rec | None => [] end.
Definition get_transient_tick (r : Registry) (a ag : UUID) : option Z :=
  rec ← get_record r a; dget (transient_tick_by_agent rec) ag.
Definition last_heartbeat_tick (r : Registry) (ag : UUID) : option Z := dget (heartbeat_by_agent r) ag.
Definition get_last_reclamation (r : Registry) (ag a : UUID) : option ReclamationSlot :=
  rec ← get_record r a; dget (last_reclamation_by_agent rec) ag.
Definition granted_at_tick (r : Registry) (ag a : UUID) : option Z :=
  rec ← get_record r a; dget (granted_at_tick_by_agent rec) ag.
Definition valid_holders (r : Registry) (a : UUID) : list UUID :=
  (filter (λ kv : UUID * MESIState, non_invalid kv.2 = true) (get_state_map r a)).*1.
Definition get_session_meta (r : Registry) (token : string) : option (UUID * Z) :=
  dget (session_meta r) token.
Definition all_session_meta (r : Registry) : list (string * (UUID * Z)) := session_meta r.
Definition session_count (r : Registry) : Z := Z.of_nat (length (session_meta r)).
Definition get_session_cut (r : Registry) (token : string) : option (list (UUID * Z)) :=
  dget (session_pins r) token.
Definition conflict_outcome_totals (r : Registry) : list ((UUID * UUID * ConflictReason) * Z) :=
  conflict_counts r.

(** [self._records[artifact_id]]: [KeyError] on a missing artifact. *)
Definition require_record (a : UUID) : RM ArtifactRecord := λ r,
  match get_record r a with
  | Some rec => (Ok rec, r)
  | None => (Raise (KeyError "artifact"), r)
  end.

Definition put_record (a : UUID) (rec : ArtifactRecord) : RM unit :=
  modify (λ r, r <| records ::= λ d, dset d a rec |>).

(** Mutate the record of an artifact in place. *)
Definition update_record (a : UUID) (f : ArtifactRecord → ArtifactRecord) : RM unit :=
  rec ← require_record a; put_record a (f rec).

(** ** The state log *)

(** [_emit_state_log]: the sequence number is reserved for the call and given
    back when the callback raises; the result counts the reservation kept. *)
Definition emit_state_log (a ag : UUID) (from to : MESIState) (trigger : string) (tick version : Z)
    (content_hash : option string) : RM Z := λ r,
  match state_log r with
  | None => (Ok 0, r)
  | Some sink =>
    let entry := mkLogEntry tick a ag (names ← agent_names r; dget names ag) from to trigger
                   version content_hash (seq_no r + 1) (instance_id r) in
    let raises := sink (log_calls r) entry in
    let r' := r <| log_calls ::= λ l, (l ++ [(entry, negb raises)])%list |> in
    if raises then (Raise CallbackError, r')
    else (Ok 1, r' <| seq_no := seq_no r + 1 |>)
  end.

(** ** Retention capture *)
Definition live_pins_for_artifact (r : Registry) (a : UUID) : gset Z :=
  list_to_set (omap (λ kv : string * list (UUID * Z), dget kv.2 a) (session_pins r)).

Definition drop_versions (dropped : gset Z) (rec : ArtifactRecord) : ArtifactRecord :=
  rec <| version_history ::= λ d, filter (λ kv : Z * body, kv.1 ∉ dropped) d |>
      <| version_captured_at ::= λ d, filter (λ kv : Z * Z, kv.1 ∉ dropped) d |>.

(** [_capture_version]: one clock reading stamps the body and dates the GC.
    [captured_record] is the record it leaves, given the policy, the live pins and
    that reading. *)
Definition captured_record (policy : option RetentionPolicy) (pins : gset Z) (now : Z)
    (rec : ArtifactRecord) (version : Z) (c : body) : ArtifactRecord :=
  let rec1 := rec <| version_history ::= λ d, dset d version c |>
                  <| version_captured_at ::= λ d, dset d version now |> in
  match policy with
  | None => rec1
  | Some policy =>
    drop_versions (collectible_versions (VMapping (version_captured_at rec1)) version policy now pins) rec1
  end.

Definition capture_version (rec : ArtifactRecord) (version : Z) (c : body) : RM ArtifactRecord := λ r,
  (Ok (captured_record (retention_policy r) (live_pins_for_artifact r (art_id (artifact rec)))
         (wall_clock r (wall_reads r)) rec version c),
   r <| wall_reads ::= S |>).

Definition register_artifact (a : Artifact) (c : body) : RM unit :=
  let rec := fresh_record a c in
  retain ← gets retain_versions;
  rec ← (if retain : bool then capture_version rec (art_version a) c else mret rec);
  put_record (art_id a) rec.

(** ** Grants *)

(** The crash-recovery, fence and observation bookkeeping of [set_agent_state]:
    everything the method does to the record before it logs. *)
Definition apply_transition (ag : UUID) (state : MESIState) (trigger : string) (tick : Z)
    (rec : ArtifactRecord) : ArtifactRecord :=
  let from_state := default INVALID (dget (state_by_agent rec) ag) in
  let new_in_me := m_or_e state in
  let prev_in_me := m_or_e from_state in
  let rec := rec <| state_by_agent ::= λ d, dset d ag state |> in
  let rec :=
    if new_in_me then
      if prev_in_me then rec
      else rec <| granted_at_tick_by_agent ::= λ d, dset d ag tick |>
               <| last_reclamation_by_agent ::= λ d, dpop d ag |>
    else if prev_in_me then
      let rec := rec <| granted_at_tick_by_agent ::= λ d, dpop d ag |> in
      if bool_decide (trigger ∈ EPOCH_BUMP_TRIGGERS)
      then rec <| owner_generation ::= λ g, g + 1 |> else rec
    else rec in
  let rec :=
    if (new_in_me && negb prev_in_me)
       || (bool_decide (trigger ∈ CLAIM_CAPTURE_TRIGGERS) && non_invalid state && negb prev_in_me)
    then rec <| read_generation_by_agent ::= λ d, dset d ag (owner_generation rec) |>
    else rec in
  if non_invalid state
  then rec <| last_observed_version_by_agent ::= λ d, dset d ag (art_version (artifact rec)) |>
  else rec.

Definition set_agent_state (a ag : UUID) (state : MESIState) (trigger : string) (tick : Z)
    (content_hash : option string) : RM unit :=
  rec ← require_record a;
  put_record a (apply_transition ag state trigger tick rec) ;;
  _ ← emit_state_log a ag (default INVALID (dget (state_by_agent rec) ag)) state trigger tick
        (art_version (artifact rec)) content_hash;
  mret tt.

Definition set_agent_transient (a ag : UUID) (t : TransientState) (entered_tick : Z) : RM unit :=
  update_record a (λ rec, rec <| transient_by_agent ::= λ d, dset d ag t |>
                              <| transient_tick_by_agent ::= λ d, dset d ag entered_tick |>).

Definition clear_agent_transient (a ag : UUID) : RM unit :=
  update_record a (λ rec, rec <| transient_by_agent ::= λ d, dpop d ag |>
                              <| transient_tick_by_agent ::= λ d, dpop d ag |>).

Definition record_heartbeat (ag : UUID) (now_tick : Z) : RM unit := λ r,
  match dget (heartbeat_by_agent r) ag with
  | Some prev => if decide (prev < now_tick)
                 then (Ok tt, r <| heartbeat_by_agent ::= λ d, dset d ag now_tick |>)
                 else (Ok tt, r)
  | None => (Ok tt, r <| heartbeat_by_agent ::= λ d, dset d ag now_tick |>)
  end.

Definition record_last_reclamation (ag a : UUID) (trigger : string) (tick : Z) : RM unit :=
  update_record a (λ rec, rec <| last_reclamation_by_agent ::= λ d, dset d ag (trigger, tick) |>).

Definition remove_artifact (a : UUID) : RM unit :=
  modify (λ r, r <| records ::= λ d, dpop d a |>).

(** The fence test both commit paths share: a captured read generation that a
    revocation has superseded. *)
Definition fence_superseded (rec : ArtifactRecord) (ag : UUID) : bool :=
  match dget (read_generation_by_agent rec) ag with
  | Some read_gen => bool_decide (read_gen < owner_generation rec)
  | None => false
  end.

Definition set_artifact_and_content (a : UUID) (new : Artifact) (c : body)
    (writer fence_agent_id : option UUID) : RM unit :=
  rec ← require_record a;
  if (match fence_agent_id with Some ag => fence_superseded rec ag | None => false end)
  then raise StaleReadGeneration
  else
    retain ← gets retain_versions;
    rec ← (if retain : bool then capture_version rec (art_version new) c else mret rec);
    put_record a (rec <| artifact := new |> <| content := c |> <| last_writer := writer |>).

(** ** Optimistic commit *)

(** [_note_conflict].  The observer callbacks are isolated (an exception of one is
    logged and dropped) and are not part of the state. *)
Definition note_conflict (a ag : UUID) (reason : ConflictReason) : RM unit :=
  modify (λ r, r <| conflict_counts ::=
    λ d, dset d (a, ag, reason) (default 0 (dget d (a, ag, reason)) + 1) |>).

(** The arbitration legs, in the code's order: version, holder, fence.
    [None] is a win. *)
Definition cas_arbitrate (rec : ArtifactRecord) (ag : UUID) (expected_version : Z)
    : option (Z + ConflictReason) :=
  let current := art_version (artifact rec) in
  if decide (current < expected_version) then Some (inl current)
  else if decide (expected_version < current) then Some (inr version_mismatch)
  else if existsb (λ kv : UUID * MESIState, bool_decide (kv.1 ≠ ag) && m_or_e kv.2)
            (state_by_agent rec)
  then Some (inr other_holder)
  else if fence_superseded rec ag then Some (inr stale_read_generation)
  else None.

(** The peers a win invalidates: every other agent whose entry is not INVALID. *)
Definition cas_peers (rec : ArtifactRecord) (ag : UUID) : list (UUID * MESIState) :=
  filter (λ kv : UUID * MESIState, kv.1 ≠ ag ∧ non_invalid kv.2 = true) (state_by_agent rec).

Definition cas_updated (a : UUID) (rec : ArtifactRecord) (content_hash : string)
    (size_tokens : option Z) : Artifact :=
  mkArtifact a (art_name (artifact rec)) (art_version (artifact rec) + 1) (Some content_hash)
    (match size_tokens with Some n => Some n | None => art_size_tokens (artifact rec) end)
    (art_depends_on (artifact rec)).

(** The peer and committer writes of the APPLY block. *)
Definition invalidate_peer (rec : ArtifactRecord) (peer : UUID * MESIState) : ArtifactRecord :=
  let rec := rec <| state_by_agent ::= λ d, dset d peer.1 INVALID |> in
  if m_or_e peer.2 then rec <| granted_at_tick_by_agent ::= λ d, dpop d peer.1 |> else rec.

Definition cas_apply (ag : UUID) (updated : Artifact) (peers : list (UUID * MESIState))
    (rec : ArtifactRecord) : ArtifactRecord :=
  let rec := rec <| artifact := updated |> <| last_writer := Some ag |> in
  let rec := foldl invalidate_peer rec peers in
  rec <| state_by_agent ::= λ d, dset d ag SHARED |>
      <| last_observed_version_by_agent ::= λ d, dset d ag (art_version updated) |>.

(** Content coherence and retention capture of a win: [None] stores no body. *)
Definition cas_content (rec : ArtifactRecord) (next_version : Z) (c : option body) : RM ArtifactRecord :=
  match c with
  | None => mret rec
  | Some c =>
    let rec := rec <| content := c |> in
    retain ← gets retain_versions;
    if retain : bool then capture_version rec next_version c else mret rec
  end.

(** One pending log entry: artifact, agent, from, to, version, content hash. *)
Definition pending : Type := UUID * UUID * MESIState * MESIState * Z * option string.

Definition cas_pending (a ag : UUID) (rec : ArtifactRecord) (next_version : Z) (content_hash : string)
    : list pending :=
  (map (λ p : UUID * MESIState, (a, p.1, p.2, INVALID, next_version, None)) (cas_peers rec ag) ++
   [(a, ag, default INVALID (dget (state_by_agent rec) ag), SHARED, next_version,
     Some content_hash)])%list.

(** The emit loop: on an exception the sequence numbers reserved so far by this
    call are given back and the exception is re-raised. *)
Fixpoint emit_all (trigger : string) (tick : Z) (es : list pending) (emitted_here : Z) : RM unit :=
  match es with
  | [] => mret tt
  | (a, ag, from, to, version, h) :: es' => λ r,
    match emit_state_log a ag from to trigger tick version h r with
    | (Ok n, r') => emit_all trigger tick es' (emitted_here + n) r'
    | (Raise e, r') => (Raise e, r' <| seq_no ::= λ s, s - emitted_here |>)
    end
  end.

Definition commit_cas (a ag : UUID) (expected_version : Z) (content_hash : string)
    (size_tokens : option Z) (c : option body) (tick : Z) (trigger : string) : RM CasResult :=
  rec ← require_record a;
  let current := art_version (artifact rec) in
  match cas_arbitrate rec ag expected_version with
  | Some (inl current) => mret (CasCorruption current)
  | Some (inr reason) =>
    note_conflict a ag reason ;; mret (CasConflict (mkConflict reason current))
  | None =>
    let peers := cas_peers rec ag in
    emit_all trigger tick (cas_pending a ag rec (current + 1) content_hash) 0 ;;
    let updated := cas_updated a rec content_hash size_tokens in
    rec ← cas_content rec (current + 1) c;
    put_record a (cas_apply ag updated peers rec) ;;
    mret (CasWin updated peers.*1)
  end.

(** ** Atomic multi-artifact publish *)

(** The CHECK loop: a missing member raises, a corrupt one aborts the batch, the
    other failures are collected per member. *)
Fixpoint check_all (r : Registry) (ag : UUID) (writes : list (UUID * CommitAllEntry))
    (conflicts : list (UUID * ConflictDetail)) : outcome exn (Z + list (UUID * ConflictDetail)) :=
  match writes with
  | [] => Ok (inr conflicts)
  | (a, entry) :: writes' =>
    match get_record r a with
    | None => Raise (KeyError "artifact")
    | Some rec =>
      match cas_arbitrate rec ag (cae_expected_version entry) with
      | Some (inl current) => Ok (inl current)
      | Some (inr reason) =>
        check_all r ag writes'
          (dset conflicts a (mkConflict reason (art_version (artifact rec))))
      | None => check_all r ag writes' conflicts
      end
    end
  end.

Definition stage_pending (r : Registry) (ag : UUID) (writes : list (UUID * CommitAllEntry))
    : list pending :=
  flat_map (λ w : UUID * CommitAllEntry,
    match get_record r w.1 with
    | Some rec => cas_pending w.1 ag rec (art_version (artifact rec) + 1) (cae_content_hash w.2)
    | None => []
    end) writes.

(** The APPLY loop over the staged members. *)
Definition apply_member (ag : UUID) (acc : MultiCommitResult) (w : UUID * CommitAllEntry)
    : RM MultiCommitResult :=
  let '(a, entry) := w in
  rec ← require_record a;
  let next_version := art_version (artifact rec) + 1 in
  let peers := cas_peers rec ag in
  let updated := cas_updated a rec (cae_content_hash entry) (cae_size_tokens entry) in
  rec ← cas_content rec next_version (cae_content entry);
  put_record a (cas_apply ag updated peers rec) ;;
  mret (mkMultiCommitResult
          (dset (mcr_versions acc) a next_version)
          (if decide (peers = []) then mcr_invalidated acc
           else dset (mcr_invalidated acc) a peers.*1)).

Definition commit_all (ag : UUID) (writes : list (UUID * CommitAllEntry)) (tick : Z)
    (trigger : string) : RM MultiCasResult :=
  match writes with
  | [] => raise (ValueError "commit_all requires a non-empty write-set")
  | _ =>
    r ← gets id;
    checked ← of_outcome (check_all r ag writes []);
    match checked with
    | inl current => mret (MultiCorruption current)
    | inr ((_ :: _) as conflicts) =>
      for_each conflicts (λ kv, note_conflict kv.1 ag (cd_reason kv.2)) ;;
      mret (MultiConflict conflicts)
    | inr [] =>
      emit_all trigger tick (stage_pending r ag writes) 0 ;;
      result ← foldm (apply_member ag) writes (mkMultiCommitResult [] []);
      mret (MultiWin result)
    end
  end.

(** ** Snapshot sessions *)

(** [capture_version_vector]: the cut, or the smallest unknown id.  [None] for
    [owner] records no owner binding; [created_at_tick or 0]. *)
Fixpoint capture_cut (r : Registry) (ids : list UUID) (cut : list (UUID * Z)) (missing : list UUID)
    : list (UUID * Z) * list UUID :=
  match ids with
  | [] => (cut, missing)
  | a :: ids' =>
    match get_record r a with
    | None => capture_cut r ids' cut (missing ++ [a])%list
    | Some rec => capture_cut r ids' (dset cut a (art_version (artifact rec))) missing
    end
  end.

Definition capture_version_vector (ids : list UUID) (token : string) (owner : option UUID)
    (created_at_tick : option Z) : RM (list (UUID * Z) + VersionedReadRejection) := λ r,
  match capture_cut r ids [] [] with
  | (_, m :: missing) =>
    (Ok (inr (mkVersionedReadRejection UNKNOWN_ARTIFACT_REASON (foldl N.min m missing) 0 None
                (coordinator_epoch r))), r)
  | (cut, []) =>
    let r := r <| session_pins ::= λ d, dset d token cut |> in
    let r := match owner with
             | Some o => r <| session_meta ::= λ d, dset d token (o, default 0 created_at_tick) |>
             | None => r
             end in
    (Ok (inl cut), r)
  end.

Definition release_session (token : string) : RM unit :=
  modify (λ r, r <| session_pins ::= λ d, dpop d token |>
                 <| session_meta ::= λ d, dpop d token |>).

(** ** Workspace-checkpoint manifests *)
Fixpoint index_members (members : list CheckpointMember) (d : list (string * CheckpointMember))
    : outcome exn (list (string * CheckpointMember)) :=
  match members with
  | [] => Ok d
  | m :: members' =>
    if dmem d (cm_member_path m)
    then Raise (ValueError "create_checkpoint: duplicate member path")
    else index_members members' (dset d (cm_member_path m) m)
  end.

Definition create_checkpoint (cp : CheckpointRecord) (members : list CheckpointMember) : RM unit :=
  match cp_owner cp with
  | None => raise (ValueError "create_checkpoint requires an owner")
  | Some _ =>
    dup ← gets (λ r, dmem (checkpoints r) (cp_checkpoint_id cp));
    if dup : bool then raise (ValueError "create_checkpoint: duplicate checkpoint_id")
    else
      by_path ← of_outcome (index_members members []);
      modify (λ r, r <| checkpoints ::= λ d, dset d (cp_checkpoint_id cp) cp |>
                     <| checkpoint_members ::= λ d, dset d (cp_checkpoint_id cp) by_path |>)
  end.

Definition get_checkpoint (r : Registry) (id : string) : option CheckpointRecord :=
  dget (checkpoints r) id.

(** [sorted(..., key=lambda c: (c.created_at, c.checkpoint_id))]. *)
Definition checkpoint_le (c1 c2 : CheckpointRecord) : Prop :=
  cp_created_at c1 < cp_created_at c2 ∨
  (cp_created_at c1 = cp_created_at c2 ∧
   String.leb (cp_checkpoint_id c1) (cp_checkpoint_id c2) = true).
#[export] Instance checkpoint_le_dec : RelDecision checkpoint_le.
Proof. intros c1 c2. unfold checkpoint_le. apply _. Defined.

Definition list_checkpoints (r : Registry) : list CheckpointRecord :=
  sorting.merge_sort checkpoint_le (checkpoints r).*2.

Definition path_le (p q : string * CheckpointMember) : Prop := String.leb p.1 q.1 = true.
#[export] Instance path_le_dec : RelDecision path_le.
Proof. intros p q. unfold path_le. apply _. Defined.

Definition get_checkpoint_members (r : Registry) (id : string) : list CheckpointMember :=
  (sorting.merge_sort path_le (default [] (dget (checkpoint_members r) id))).*2.

Definition require_checkpoint (id : string) : RM CheckpointRecord := λ r,
  match dget (checkpoints r) id with
  | Some cp => (Ok cp, r)
  | None => (Raise (KeyError "checkpoint"), r)
  end.

Definition set_checkpoint_restore_status (id status : string) (updated_at : Z) : RM unit :=
  cp ← require_checkpoint id;
  modify (λ r, r <| checkpoints ::= λ d,
    dset d id (cp <| cp_restore_status := status |> <| cp_restore_updated_at := Some updated_at |>) |>).

Definition update_member (id path : string) (f : CheckpointMember → CheckpointMember) : RM unit := λ r,
  let members := default [] (dget (checkpoint_members r) id) in
  match dget members path with
  | None => (Raise (KeyError "member"), r)
  | Some m => (Ok tt, r <| checkpoint_members ::= λ d, dset d id (dset members path (f m)) |>)
  end.

Definition set_checkpoint_member_restore (id path : string) (restore_outcome : option string)
    (deleted_at_restore : option Z) : RM unit :=
  update_member id path (λ m, m <| cm_restore_outcome := restore_outcome |>
                                <| cm_deleted_at_restore := deleted_at_restore |>).

Definition set_checkpoint_member_pin (id path pin_state : string) (restore_tier : option string) : RM unit :=
  update_member id path (λ m, m <| cm_pin_state := pin_state |>
                                <| cm_restore_tier := default (cm_restore_tier m) restore_tier |>).

Definition adjust_checkpoint_pin_refcount (id : string) (delta : Z) : RM Z :=
  cp ← require_checkpoint id;
  let new_count := cp_pin_refcount cp + delta in
  if decide (new_count < 0) then raise (ValueError "pin refcount would go negative")
  else
    modify (λ r, r <| checkpoints ::= λ d, dset d id (cp <| cp_pin_refcount := new_count |>) |>) ;;
    mret new_count.
