(* ===== verification/RegistryFacts.v ===== *)
(** Facts on the registry: the well-formedness invariant of a record and of the
    registry, the record-level effect of each registry operation, and the symbolic
    execution rules ([at_rec]) the service proofs run on. *)
From S2P Require Import Prelude Core Retention Registry.

Open Scope Z_scope.
Open Scope string_scope.

(** ** Invariant *)

(** The MESI state of an agent, absent entries reading as INVALID. *)
Definition st (rec : ArtifactRecord) (ag : UUID) : MESIState :=
  default INVALID (dget (state_by_agent rec) ag).
Definition version (rec : ArtifactRecord) : Z := art_version (artifact rec).

(** What every record the service produces satisfies.  [rec_core] also holds in
    the middle of a pessimistic commit, where the committer's observation lags. *)
Record rec_core (rec : ArtifactRecord) : Prop := {
  rok_states : dict_wf (state_by_agent rec);
  (** a write grant excludes every other valid copy *)
  rok_excl : ∀ p q, m_or_e (st rec p) = true → non_invalid (st rec q) = true → p = q;
  rok_observed_le : ∀ p v, dget (last_observed_version_by_agent rec) p = Some v → v <= version rec;
  (** a write grant carries the current ownership epoch *)
  rok_readgen : ∀ p, m_or_e (st rec p) = true →
    dget (read_generation_by_agent rec) p = Some (owner_generation rec);
  rok_readgen_le : ∀ p g, dget (read_generation_by_agent rec) p = Some g → g <= owner_generation rec;
  (** grant ticks are kept exactly for the write grants *)
  rok_granted : ∀ p, m_or_e (st rec p) = true ↔ is_Some (dget (granted_at_tick_by_agent rec) p);
  rok_transient : ∀ p, is_Some (dget (transient_by_agent rec) p) ↔
    is_Some (dget (transient_tick_by_agent rec) p);
  rok_version : 1 <= version rec;
  rok_history_wf : dict_wf (version_history rec);
  rok_history_keys : (version_history rec).*1 = (version_captured_at rec).*1;
  rok_history_le : ∀ v, v ∈ (version_history rec).*1 → v <= version rec;
  (** the body retained for the current version is the current body *)
  rok_history_current : ∀ c, dget (version_history rec) (version rec) = Some c → content rec = c;
}.

(** A valid copy of [p] is a copy of the current version. *)
Definition fresh_copy (rec : ArtifactRecord) (p : UUID) : Prop :=
  non_invalid (st rec p) = true →
  dget (last_observed_version_by_agent rec) p = Some (version rec).

Record rec_ok (rec : ArtifactRecord) : Prop := {
  rok_core : rec_core rec;
  rok_fresh : ∀ p, fresh_copy rec p;
}.

Record reg_ok (r : Registry) : Prop := {
  reg_records : dict_wf (records r);
  reg_id : ∀ a rec, get_record r a = Some rec → art_id (artifact rec) = a;
  reg_rec : ∀ a rec, get_record r a = Some rec → rec_ok rec;
}.

(** The state log never raises. *)
Definition log_quiet (r : Registry) : Prop :=
  ∀ sink, state_log r = Some sink → ∀ calls entry, sink calls entry = false.

(** ** Frames *)

(** The components no grant or commit on an artifact touches. *)
Record frame (r0 r : Registry) : Prop := {
  fr_heartbeats : heartbeat_by_agent r = heartbeat_by_agent r0;
  fr_state_log : state_log r = state_log r0;
  fr_names : agent_names r = agent_names r0;
  fr_instance : instance_id r = instance_id r0;
  fr_epoch : coordinator_epoch r = coordinator_epoch r0;
  fr_retain : retain_versions r = retain_versions r0;
  fr_policy : retention_policy r = retention_policy r0;
  fr_pins : session_pins r = session_pins r0;
  fr_meta : session_meta r = session_meta r0;
  fr_checkpoints : checkpoints r = checkpoints r0;
  fr_members : checkpoint_members r = checkpoint_members r0;
  fr_clock : wall_clock r = wall_clock r0;
}.
#[export] Instance frame_preorder : PreOrder frame.
Proof.
  split.
  - intros r. by constructor.
  - intros r1 r2 r3 [] []. constructor; congruence.
Qed.

(** [r] is [r0] but for the record of [a], which is [rec]. *)
Record at_rec (a : UUID) (r0 : Registry) (rec : ArtifactRecord) (r : Registry) : Prop := {
  ar_frame : frame r0 r;
  ar_keys : (records r).*1 = (records r0).*1;
  ar_others : ∀ b, b ≠ a → get_record r b = get_record r0 b;
  ar_rec : get_record r a = Some rec;
}.

Lemma at_rec_refl a r rec : get_record r a = Some rec → at_rec a r rec r.
Proof. by constructor. Qed.

(** How a record evolves under an operation: [pins] are the versions live sessions
    pin, [X] the agents that may take a new claim.  Versions and epochs only grow,
    a body changes only with its version, the claims of other agents stay, and a
    pinned version is kept as it is. *)
Record rec_evolves (pins : gset Z) (X : UUID → Prop) (rec rec' : ArtifactRecord) : Prop := {
  ev_version : version rec <= version rec';
  ev_same : version rec' = version rec → artifact rec' = artifact rec ∧ content rec' = content rec;
  ev_id : art_id (artifact rec') = art_id (artifact rec);
  ev_generation : owner_generation rec <= owner_generation rec';
  ev_claims : ∀ p, ¬ X p →
    dget (read_generation_by_agent rec') p = dget (read_generation_by_agent rec) p;
  ev_pinned : ∀ w, w ∈ pins → w <= version rec →
    dget (version_history rec') w = dget (version_history rec) w ∧
    dget (version_captured_at rec') w = dget (version_captured_at rec) w;
  (** history is never rewritten, only extended and collected *)
  ev_history : ∀ w b, w <= version rec → dget (version_history rec') w = Some b →
    dget (version_history rec) w = Some b;
}.
#[export] Instance rec_evolves_preorder pins X : PreOrder (rec_evolves pins X).
Proof.
  split; [by intros rec; split|].
  intros rec1 rec2 rec3 [V1 S1 I1 G1 C1 P1 T1] [V2 S2 I2 G2 C2 P2 T2]. split; [lia| |congruence|lia|..].
  - intros Heq. destruct S1 as [E1 F1]; [lia|]. destruct S2 as [E2 F2]; [lia|]. split; congruence.
  - intros p Hp. by rewrite C2, C1.
  - intros w Hw Hv. destruct (P1 w Hw Hv) as [<- <-]. apply P2; [done|lia].
  - intros w b Hw Hb. apply T1; [done|]. apply T2; [lia|done].
Qed.

(** An exception left the record of [a] well formed and in [Φ]; only a state log
    that raises causes one. *)
Definition exc_ok (a : UUID) (r0 : Registry) (Φ : ArtifactRecord → Prop) (e : exn) (r : Registry) : Prop :=
  e = CallbackError ∧ ¬ log_quiet r0 ∧
  ∃ rec, at_rec a r0 rec r ∧ rec_ok rec ∧ art_id (artifact rec) = a ∧ Φ rec.

Lemma at_rec_trans a r0 r1 r2 rec1 rec2 :
  at_rec a r0 rec1 r1 → at_rec a r1 rec2 r2 → at_rec a r0 rec2 r2.
Proof.
  intros [F1 K1 O1 _] [F2 K2 O2 R2]. constructor; [by trans r1|congruence| |done].
  intros b Hb. by rewrite O2, O1.
Qed.

Lemma at_rec_reg_ok a r0 rec r :
  reg_ok r0 → at_rec a r0 rec r → rec_ok rec → art_id (artifact rec) = a → reg_ok r.
Proof.
  intros [W I R] [_ K O RR] Hok Hid. constructor.
  - unfold dict_wf. by rewrite K.
  - intros b recb Hb. destruct (decide (b = a)) as [->|]; [by simplify_eq|].
    rewrite O in Hb by done. eauto.
  - intros b recb Hb. destruct (decide (b = a)) as [->|]; [by simplify_eq|].
    rewrite O in Hb by done. eauto.
Qed.

(** ** Execution rules *)
Definition with_transient (ag : UUID) (t : TransientState) (tick : Z) (rec : ArtifactRecord) :=
  rec <| transient_by_agent ::= λ d, dset d ag t |>
      <| transient_tick_by_agent ::= λ d, dset d ag tick |>.
Definition without_transient (ag : UUID) (rec : ArtifactRecord) :=
  rec <| transient_by_agent ::= λ d, dpop d ag |>
      <| transient_tick_by_agent ::= λ d, dpop d ag |>.

Section rules.
Context (a : UUID) (r0 : Registry).
Implicit Types rec : ArtifactRecord.

Lemma triple_require_record rec : triple (at_rec a r0 rec) (require_record a)
  (λ x, λ r, x = rec ∧ at_rec a r0 rec r) (λ _ _, False).
Proof. intros r Hr. unfold require_record. by rewrite (ar_rec _ _ _ _ Hr). Qed.

Lemma triple_put_record rec rec' : triple (at_rec a r0 rec) (put_record a rec')
  (λ _, at_rec a r0 rec') (λ _ _, False).
Proof.
  intros r [F K O R]. unfold put_record, modify. constructor; unfold get_record in *; simpl.
  - trans r; [done|]. by constructor.
  - by erewrite dkeys_dset_present.
  - intros b Hb. rewrite dget_dset_ne by done. by apply O.
  - by rewrite dget_dset_eq.
Qed.

Lemma triple_update_record rec f : triple (at_rec a r0 rec) (update_record a f)
  (λ _, at_rec a r0 (f rec)) (λ _ _, False).
Proof.
  eapply triple_bind; [apply triple_require_record|]. intros x r [-> Hr].
  by apply (triple_put_record rec).
Qed.

(** The log neither reads nor writes the records. *)
Lemma triple_emit rec ag from to trigger tick v h X :
  (∀ r, ¬ log_quiet r0 → at_rec a r0 rec r → X CallbackError r) →
  triple (at_rec a r0 rec) (emit_state_log a ag from to trigger tick v h)
    (λ _, at_rec a r0 rec) X.
Proof.
  intros HX r Hr. unfold emit_state_log.
  destruct (state_log r) as [sink|] eqn:Es; [|done].
  destruct (sink _ _) eqn:Ek.
  - apply HX.
    + intros Hq. destruct Hr as [[_ Hs] _ _ _]. rewrite Es in Hs.
      by rewrite (Hq sink) in Ek.
    + destruct Hr as [F K O R]. constructor; [|done..]. trans r; [done|by constructor].
  - destruct Hr as [F K O R]. constructor; [|done..]. trans r; [done|by constructor].
Qed.

Lemma triple_set_agent_state rec ag s trigger tick h (Φ : ArtifactRecord → Prop) :
  let rec' := apply_transition ag s trigger tick rec in
  rec_ok rec' → art_id (artifact rec') = a → Φ rec' →
  triple (at_rec a r0 rec) (set_agent_state a ag s trigger tick h)
    (λ _, at_rec a r0 rec') (exc_ok a r0 Φ).
Proof.
  intros rec' Hok Hid HΦ. unfold set_agent_state.
  eapply triple_bind; [eapply triple_conseq; [apply triple_require_record|done|done|done]|].
  intros x. apply triple_pure. intros Hx. subst x.
  eapply triple_then; [apply triple_put_record|].
  apply (triple_bind _ _ _ (λ _, at_rec a r0 rec')); [apply triple_emit|].
  - intros r Hq Hr. split_and!; [done..|]. by exists rec'.
  - intros n. by apply triple_ret.
Qed.

Lemma triple_set_agent_transient rec ag t tick : triple (at_rec a r0 rec)
  (set_agent_transient a ag t tick) (λ _, at_rec a r0 (with_transient ag t tick rec)) (λ _ _, False).
Proof. apply (triple_update_record rec (with_transient ag t tick)). Qed.

Lemma triple_clear_agent_transient rec ag : triple (at_rec a r0 rec)
  (clear_agent_transient a ag) (λ _, at_rec a r0 (without_transient ag rec)) (λ _ _, False).
Proof. apply (triple_update_record rec (without_transient ag)). Qed.
End rules.

(** ** Record-level effect of the operations *)
Lemma st_dset rec ag s p :
  default INVALID (dget (dset (state_by_agent rec) ag s) p) = if decide (ag = p) then s else st rec p.
Proof. rewrite dget_dset. by case_decide. Qed.

Section transition.
Context (ag : UUID) (s : MESIState) (trigger : string) (tick : Z) (rec : ArtifactRecord).
Local Abbreviation rec' := (apply_transition ag s trigger tick rec).
Local Abbreviation prev := (m_or_e (st rec ag)).

Definition bumps_epoch : bool :=
  negb (m_or_e s) && prev && bool_decide (trigger ∈ EPOCH_BUMP_TRIGGERS).
Definition captures_claim : bool :=
  (m_or_e s && negb prev)
  || (bool_decide (trigger ∈ CLAIM_CAPTURE_TRIGGERS) && non_invalid s && negb prev).

Ltac by_cases :=
  unfold apply_transition, bumps_epoch, captures_claim, st;
  destruct s, (default INVALID (dget (state_by_agent rec) ag)),
    (bool_decide (trigger ∈ EPOCH_BUMP_TRIGGERS)), (bool_decide (trigger ∈ CLAIM_CAPTURE_TRIGGERS));
  reflexivity.

Lemma transition_states : state_by_agent rec' = dset (state_by_agent rec) ag s.
Proof. by_cases. Qed.
Lemma transition_artifact : artifact rec' = artifact rec.
Proof. by_cases. Qed.
Lemma transition_content : content rec' = content rec.
Proof. by_cases. Qed.
Lemma transition_writer : last_writer rec' = last_writer rec.
Proof. by_cases. Qed.
Lemma transition_transient : transient_by_agent rec' = transient_by_agent rec.
Proof. by_cases. Qed.
Lemma transition_transient_tick : transient_tick_by_agent rec' = transient_tick_by_agent rec.
Proof. by_cases. Qed.
Lemma transition_history : version_history rec' = version_history rec.
Proof. by_cases. Qed.
Lemma transition_captured : version_captured_at rec' = version_captured_at rec.
Proof. by_cases. Qed.
Lemma transition_granted : granted_at_tick_by_agent rec' =
  if m_or_e s then (if prev then granted_at_tick_by_agent rec else dset (granted_at_tick_by_agent rec) ag tick)
  else (if prev then dpop (granted_at_tick_by_agent rec) ag else granted_at_tick_by_agent rec).
Proof. by_cases. Qed.
Lemma transition_generation : owner_generation rec' = owner_generation rec + (if bumps_epoch then 1 else 0).
Proof.
  unfold apply_transition, bumps_epoch, st.
  destruct s, (default INVALID (dget (state_by_agent rec) ag)),
    (bool_decide (trigger ∈ EPOCH_BUMP_TRIGGERS)), (bool_decide (trigger ∈ CLAIM_CAPTURE_TRIGGERS));
  simpl; lia.
Qed.
Lemma transition_readgen : read_generation_by_agent rec' =
  if captures_claim then dset (read_generation_by_agent rec) ag (owner_generation rec')
  else read_generation_by_agent rec.
Proof. by_cases. Qed.
Lemma transition_observed : last_observed_version_by_agent rec' =
  if non_invalid s then dset (last_observed_version_by_agent rec) ag (version rec)
  else last_observed_version_by_agent rec.
Proof. by_cases. Qed.
Lemma transition_reclamation : last_reclamation_by_agent rec' =
  if m_or_e s && negb prev then dpop (last_reclamation_by_agent rec) ag
  else last_reclamation_by_agent rec.
Proof. by_cases. Qed.

Lemma st_transition p : st rec' p = if decide (ag = p) then s else st rec p.
Proof. unfold st at 1. rewrite transition_states. apply st_dset. Qed.

Lemma version_transition : version rec' = version rec.
Proof. unfold version. by rewrite transition_artifact. Qed.

(** What a transition must respect: a write grant only when no other agent holds a
    valid copy, a shared copy only when no other agent holds a write grant. *)
Definition legal : Prop :=
  (m_or_e s = true → ∀ q, q ≠ ag → st rec q = INVALID) ∧
  (non_invalid s = true → ∀ q, q ≠ ag → m_or_e (st rec q) = false).

Lemma captures_was_free : captures_claim = true → prev = false.
Proof. unfold captures_claim. destruct prev; [|done]. by rewrite !andb_false_r. Qed.

Lemma me_claims : m_or_e s = true → prev = false → captures_claim = true.
Proof. unfold captures_claim. by intros -> ->. Qed.

Lemma bumps_was_held : bumps_epoch = true → m_or_e s = false ∧ prev = true.
Proof. unfold bumps_epoch. destruct (m_or_e s), prev; naive_solver. Qed.

Lemma transition_core : rec_core rec → legal → rec_core rec'.
Proof.
  intros Hok [Hexcl Hshare]. split.
  - rewrite transition_states. apply dict_wf_dset, Hok.
  - intros p q. rewrite !st_transition. repeat case_decide; subst; intros Hp Hq; [done|..].
    + rewrite Hexcl in Hq by done. done.
    + rewrite Hshare in Hp by done. done.
    + by apply (rok_excl _ Hok).
  - intros p v. rewrite transition_observed, version_transition.
    destruct (non_invalid s); intros Hv; dict_simp; try lia; by eapply rok_observed_le.
  - intros p. rewrite st_transition, transition_readgen. case_decide; intros Hp; [subst p|].
    + destruct prev eqn:Epr.
      * destruct captures_claim eqn:Ec; [by rewrite dget_dset_eq|].
        rewrite (rok_readgen _ Hok) by done. rewrite transition_generation.
        unfold bumps_epoch. rewrite Hp. simpl. f_equal. lia.
      * rewrite me_claims by done. by rewrite dget_dset_eq.
    + assert (bumps_epoch = false) as Hb.
      { destruct bumps_epoch eqn:Eb; [|done]. destruct (bumps_was_held Eb) as [_ Hh].
        exfalso. apply H. apply (rok_excl _ Hok); [done|]. by apply m_or_e_non_invalid. }
      rewrite transition_generation, Hb, Z.add_0_r.
      destruct captures_claim; [rewrite dget_dset_ne by done|]; by apply (rok_readgen _ Hok).
  - intros p g. rewrite transition_readgen. destruct captures_claim; intros Hg; dict_simp; try lia;
      pose proof (rok_readgen_le _ Hok _ _ Hg); rewrite transition_generation;
      destruct bumps_epoch; lia.
  - intros p. rewrite st_transition, transition_granted. case_decide; [subst p|].
    + pose proof (rok_granted _ Hok ag) as Hg. destruct (m_or_e s), prev; dict_simp; naive_solver.
    + pose proof (rok_granted _ Hok p) as Hg. destruct (m_or_e s), prev; dict_simp; naive_solver.
  - intros p. rewrite transition_transient, transition_transient_tick. apply Hok.
  - rewrite version_transition. apply Hok.
  - rewrite transition_history. apply Hok.
  - rewrite transition_history, transition_captured. apply Hok.
  - rewrite transition_history, version_transition. apply Hok.
  - rewrite transition_history, version_transition, transition_content. apply Hok.
Qed.

Lemma transition_fresh p : (p ≠ ag → fresh_copy rec p) → fresh_copy rec' p.
Proof.
  unfold fresh_copy. rewrite st_transition, transition_observed, version_transition.
  case_decide; intros Hf Hp; [subst p; rewrite Hp; by rewrite dget_dset_eq|].
  destruct (non_invalid s); [rewrite dget_dset_ne by done|]; by apply Hf.
Qed.

(** A legal transition needs fresh copies of the other agents only: the agent's own
    observation is refreshed, or its copy is dropped. *)
Lemma transition_ok :
  rec_core rec → (∀ p, p ≠ ag → fresh_copy rec p) → legal → rec_ok rec'.
Proof. intros Hc Hf Hl. split; [by apply transition_core|]. intros p. apply transition_fresh, Hf. Qed.
End transition.

Lemma transition_keeps_ok ag s trigger tick rec :
  rec_ok rec → legal ag s rec → rec_ok (apply_transition ag s trigger tick rec).
Proof. intros [Hc Hf] Hl. by apply transition_ok. Qed.

Lemma transition_evolves pins X ag s trigger tick rec :
  (captures_claim ag s trigger rec = true → X ag) →
  rec_evolves pins X rec (apply_transition ag s trigger tick rec).
Proof.
  intros Hcap. split.
  - rewrite version_transition. lia.
  - by rewrite transition_artifact, transition_content.
  - by rewrite transition_artifact.
  - rewrite transition_generation. destruct (bumps_epoch _ _ _ _); lia.
  - intros p Hp. rewrite transition_readgen. destruct (captures_claim _ _ _ _) eqn:Ec; [|done].
    rewrite dget_dset_ne; [done|]. intros <-. apply Hp. auto.
  - by rewrite transition_history, transition_captured.
  - by rewrite transition_history.
Qed.

Lemma invalid_captures_nothing ag trigger rec : captures_claim ag INVALID trigger rec = false.
Proof. unfold captures_claim. simpl. by rewrite andb_false_r. Qed.

Lemma held_captures_nothing ag s trigger rec :
  m_or_e (st rec ag) = true → captures_claim ag s trigger rec = false.
Proof. intros Hme. unfold captures_claim. rewrite Hme. simpl. by rewrite !andb_false_r. Qed.

Lemma with_transient_evolves pins X ag t tick rec : rec_evolves pins X rec (with_transient ag t tick rec).
Proof. by split. Qed.
Lemma without_transient_evolves pins X ag rec : rec_evolves pins X rec (without_transient ag rec).
Proof. by split. Qed.

Lemma legal_invalid ag rec : legal ag INVALID rec.
Proof. by split. Qed.

Lemma with_transient_ok ag t tick rec : rec_ok rec → rec_ok (with_transient ag t tick rec).
Proof.
  intros [[] Hf]. split; [split; try done|exact Hf].
  intros p. unfold with_transient. simpl. rewrite !dget_dset. case_decide; naive_solver.
Qed.

Lemma without_transient_ok ag rec : rec_ok rec → rec_ok (without_transient ag rec).
Proof.
  intros [[] Hf]. split; [split; try done|exact Hf].
  intros p. unfold without_transient. simpl. rewrite !dget_dpop. case_decide; naive_solver.
Qed.

Lemma fresh_record_ok a c : 1 <= art_version a → rec_ok (fresh_record a c).
Proof.
  intros Hv. split; [split; simpl; try done|done].
  - apply dict_wf_nil.
  - apply dict_wf_nil.
  - intros v. simpl. set_solver.
Qed.

(** ** Retention capture *)
Lemma dget_drop {V} (X : gset Z) (d : list (Z * V)) w :
  dget (filter (λ kv : Z * V, kv.1 ∉ X) d) w = if decide (w ∈ X) then None else dget d w.
Proof. etrans; [apply (dget_filter_key (λ w : Z, w ∉ X))|]. by repeat case_decide. Qed.

Lemma dkeys_drop {V} (X : gset Z) (d : list (Z * V)) :
  (filter (λ kv : Z * V, kv.1 ∉ X) d).*1 = filter (λ w : Z, w ∉ X) d.*1.
Proof. apply (dkeys_filter_key (λ w : Z, w ∉ X)). Qed.

Section captured.
Context (policy : option RetentionPolicy) (pins : gset Z) (now : Z).
Context (rec : ArtifactRecord) (v : Z) (c : body).
Local Abbreviation rec' := (captured_record policy pins now rec v c).

(** Only the two history dictionaries change. *)
Lemma captured_shape : ∃ h t, rec' = rec <| version_history := h |> <| version_captured_at := t |>.
Proof. unfold captured_record. destruct policy; simpl; eauto. Qed.

Definition gc_dropped : gset Z :=
  match policy with
  | None => ∅
  | Some policy =>
    collectible_versions (VMapping (dset (version_captured_at rec) v now)) v policy now pins
  end.

Lemma gc_keeps_current : v ∉ gc_dropped.
Proof. unfold gc_dropped. destruct policy; [apply current_not_collectible|set_solver]. Qed.

Lemma gc_keeps_pins w : w ∈ pins → w ∉ gc_dropped.
Proof. unfold gc_dropped. destruct policy; [apply exempt_not_collectible|set_solver]. Qed.

Lemma captured_history w : dget (version_history rec') w =
  if decide (w = v) then Some c
  else if decide (w ∈ gc_dropped) then None else dget (version_history rec) w.
Proof.
  pose proof gc_keeps_current as Hk. unfold captured_record, gc_dropped in *.
  destruct policy as [pol|]; simpl in *.
  - rewrite dget_drop, dget_dset. repeat case_decide; subst; naive_solver.
  - rewrite dget_dset. repeat case_decide; subst; set_solver.
Qed.

Lemma captured_dates w : dget (version_captured_at rec') w =
  if decide (w = v) then Some now
  else if decide (w ∈ gc_dropped) then None else dget (version_captured_at rec) w.
Proof.
  pose proof gc_keeps_current as Hk. unfold captured_record, gc_dropped in *.
  destruct policy as [pol|]; simpl in *.
  - rewrite dget_drop, dget_dset. repeat case_decide; subst; naive_solver.
  - rewrite dget_dset. repeat case_decide; subst; set_solver.
Qed.

Lemma captured_keys : (version_history rec).*1 = (version_captured_at rec).*1 →
  (version_history rec').*1 = (version_captured_at rec').*1.
Proof.
  intros Hk. assert ((dset (version_history rec) v c).*1 = (dset (version_captured_at rec) v now).*1) as Hd
    by by apply dkeys_dset_eq.
  unfold captured_record. destruct policy; simpl; [|done].
  by rewrite !dkeys_drop, Hd.
Qed.

Lemma captured_wf : dict_wf (version_history rec) → dict_wf (version_history rec').
Proof.
  intros Hw. unfold captured_record. destruct policy; simpl; [|by apply dict_wf_dset].
  apply dict_wf_filter. by apply dict_wf_dset.
Qed.
End captured.
