(* ===== verification/CommitFacts.v ===== *)
(** Facts on the version-moving operations of the registry: the body a commit
    stores, the arbitration of [commit_cas], the record a win leaves, and the
    all-or-nothing batch of [commit_all]. *)
From S2P Require Import Prelude Core Retention Registry RegistryFacts.

Open Scope Z_scope.
Open Scope string_scope.

(** ** Storing a body *)

(** The record after the body of version [v] is stored, if there is one, and
    captured, if versions are retained; [now] is the clock reading. *)
Definition body_stored (r : Registry) (now : Z) (rec : ArtifactRecord) (v : Z) (c : option body)
    : ArtifactRecord :=
  match c with
  | None => rec
  | Some c =>
    let rec := rec <| content := c |> in
    if retain_versions r
    then captured_record (retention_policy r) (live_pins_for_artifact r (art_id (artifact rec))) now rec v c
    else rec
  end.

#[global] Arguments body_stored : simpl never.

Section stored.
Context (r : Registry) (now : Z) (rec : ArtifactRecord) (v : Z) (c : option body).
Local Abbreviation rec' := (body_stored r now rec v c).

Lemma stored_shape : ∃ b h t,
  rec' = rec <| content := b |> <| version_history := h |> <| version_captured_at := t |>.
Proof.
  unfold body_stored. destruct c as [b|].
  2: { exists (content rec), (version_history rec), (version_captured_at rec). by destruct rec. }
  destruct (retain_versions r).
  2: { exists b, (version_history rec), (version_captured_at rec). by destruct rec. }
  destruct (captured_shape (retention_policy r) (live_pins_for_artifact r (art_id (artifact rec))) now
              (rec <| content := b |>) v b) as (h & t & Heq).
  exists b, h, t. exact Heq.
Qed.

Lemma stored_states : state_by_agent rec' = state_by_agent rec.
Proof. by destruct stored_shape as (?&?&?& ->). Qed.
Lemma stored_artifact : artifact rec' = artifact rec.
Proof. by destruct stored_shape as (?&?&?& ->). Qed.
Lemma stored_observed : last_observed_version_by_agent rec' = last_observed_version_by_agent rec.
Proof. by destruct stored_shape as (?&?&?& ->). Qed.
Lemma stored_readgen : read_generation_by_agent rec' = read_generation_by_agent rec.
Proof. by destruct stored_shape as (?&?&?& ->). Qed.
Lemma stored_generation : owner_generation rec' = owner_generation rec.
Proof. by destruct stored_shape as (?&?&?& ->). Qed.
Lemma stored_granted : granted_at_tick_by_agent rec' = granted_at_tick_by_agent rec.
Proof. by destruct stored_shape as (?&?&?& ->). Qed.
Lemma stored_transient : transient_by_agent rec' = transient_by_agent rec.
Proof. by destruct stored_shape as (?&?&?& ->). Qed.
Lemma stored_transient_tick : transient_tick_by_agent rec' = transient_tick_by_agent rec.
Proof. by destruct stored_shape as (?&?&?& ->). Qed.

Lemma stored_content : content rec' = default (content rec) c.
Proof.
  unfold body_stored. destruct c as [b|]; [|done]. destruct (retain_versions r); [|done].
  destruct (captured_shape (retention_policy r) (live_pins_for_artifact r (art_id (artifact rec))) now
              (rec <| content := b |>) v b) as (h & t & Heq).
  simpl in *. by rewrite Heq.
Qed.

(** Every retained body is an old one or the one just stored; a pinned one stays. *)
Lemma stored_history_inv w b : dget (version_history rec') w = Some b →
  (w = v ∧ c = Some b ∧ retain_versions r = true) ∨ dget (version_history rec) w = Some b.
Proof.
  unfold body_stored. destruct c as [b'|]; [|by right].
  destruct (retain_versions r); [|by right].
  rewrite captured_history. simpl. repeat case_decide; naive_solver.
Qed.

Lemma stored_history_pinned w : w ≠ v → w ∈ live_pins_for_artifact r (art_id (artifact rec)) →
  dget (version_history rec') w = dget (version_history rec) w ∧
  dget (version_captured_at rec') w = dget (version_captured_at rec) w.
Proof.
  intros Hv Hpin. unfold body_stored. destruct c as [b'|]; [|done].
  destruct (retain_versions r); [|done].
  rewrite captured_history, captured_dates. rewrite !(decide_False (P := w = v)) by done.
  rewrite !decide_False; [done|by apply gc_keeps_pins..].
Qed.

Lemma stored_captures b : c = Some b → retain_versions r = true →
  dget (version_history rec') v = Some b.
Proof. intros -> Hr. unfold body_stored. rewrite Hr, captured_history. by rewrite decide_True. Qed.

Lemma stored_history_wf : dict_wf (version_history rec) → dict_wf (version_history rec').
Proof.
  unfold body_stored. destruct c as [b|], (retain_versions r); try done. intros Hw. by apply captured_wf.
Qed.

Lemma stored_history_keys : (version_history rec).*1 = (version_captured_at rec).*1 →
  (version_history rec').*1 = (version_captured_at rec').*1.
Proof.
  unfold body_stored. destruct c as [b|], (retain_versions r); try done.
  intros Hk. by apply captured_keys.
Qed.

Lemma stored_history_le : (∀ w, w ∈ (version_history rec).*1 → w <= v) →
  ∀ w, w ∈ (version_history rec').*1 → w <= v.
Proof.
  intros Hle w [b Hb]%dkey_Some. apply stored_history_inv in Hb as [[-> _]|Hb]; [lia|].
  by eapply Hle, dget_Some_key.
Qed.

(** The body retained for a version that is new is the one just stored. *)
Lemma stored_history_current b : (∀ w, w ∈ (version_history rec).*1 → w < v) →
  dget (version_history rec') v = Some b → content rec' = b.
Proof.
  intros Hlt Hb. rewrite stored_content. apply stored_history_inv in Hb as [(_ & -> & _)|Hb]; [done|].
  apply dget_Some_key, Hlt in Hb. lia.
Qed.
End stored.

(** A clock reading under [capture_version] leaves the registry in place. *)
Lemma triple_capture a r0 rec0 rec v c : triple (at_rec a r0 rec0) (capture_version rec v c)
  (λ x, λ r, (∃ now, x = captured_record (retention_policy r0)
                (live_pins_for_artifact r0 (art_id (artifact rec))) now rec v c) ∧ at_rec a r0 rec0 r)
  (λ _ _, False).
Proof.
  intros r Hr. unfold capture_version. destruct Hr as [F K O R].
  split; [|constructor; [|done..]; trans r; [done|by constructor]].
  eexists. unfold live_pins_for_artifact. by rewrite (fr_policy _ _ F), (fr_pins _ _ F).
Qed.

Lemma triple_cas_content a r0 rec v c : triple (at_rec a r0 rec) (cas_content rec v c)
  (λ x, λ r, (∃ now, x = body_stored r0 now rec v c) ∧ at_rec a r0 rec r) (λ _ _, False).
Proof.
  unfold cas_content, body_stored. destruct c as [c|].
  - eapply (triple_gets _ _ _ (retain_versions r0)); [by intros r [[] _ _ _]|].
    destruct (retain_versions r0); [apply triple_capture|]. apply triple_ret. intros r Hr. split; [by exists 0|done].
  - apply triple_ret. intros r Hr. split; [by exists 0|done].
Qed.

(** ** Arbitration *)
Lemma existsb_holder rec ag : dict_wf (state_by_agent rec) →
  existsb (λ kv : UUID * MESIState, bool_decide (kv.1 ≠ ag) && m_or_e kv.2) (state_by_agent rec) = true ↔
  ∃ q, q ≠ ag ∧ m_or_e (st rec q) = true.
Proof.
  intros Hwf. rewrite existsb_exists. setoid_rewrite <-list_elem_of_In. split.
  - intros ([q s] & Hin & [Hq Hs]%andb_prop). apply bool_decide_eq_true in Hq.
    exists q. split; [done|]. unfold st. by rewrite (dget_elem _ _ _ Hwf Hin).
  - intros (q & Hq & Hs). unfold st in Hs. destruct (dget _ q) as [s|] eqn:Es; [|done].
    exists (q, s). split; [by apply dget_Some_elem|]. simpl in *. by rewrite bool_decide_true.
Qed.

(** The whole decision table of the arbitration. *)
Lemma cas_arbitrate_spec rec ag expected : dict_wf (state_by_agent rec) →
  match cas_arbitrate rec ag expected with
  | Some (inl current) => current = version rec ∧ version rec < expected
  | Some (inr version_mismatch) => expected < version rec
  | Some (inr other_holder) => expected = version rec ∧ ∃ q, q ≠ ag ∧ m_or_e (st rec q) = true
  | Some (inr stale_read_generation) =>
    expected = version rec ∧ (∀ q, q ≠ ag → m_or_e (st rec q) = false) ∧ fence_superseded rec ag = true
  | None =>
    expected = version rec ∧ (∀ q, q ≠ ag → m_or_e (st rec q) = false) ∧ fence_superseded rec ag = false
  end.
Proof.
  intros Hwf. unfold cas_arbitrate, version. do 2 (case_decide; [lia|]).
  pose proof (existsb_holder rec ag Hwf) as Hh.
  destruct (existsb _ _); [split; [lia|by apply Hh]|].
  assert (∀ q, q ≠ ag → m_or_e (st rec q) = false) as Hno.
  { intros q Hq. apply not_true_is_false. intros Hs. by assert (false = true) by (apply Hh; eauto). }
  destruct (fence_superseded rec ag); (split_and!; [lia|done..]).
Qed.

Lemma elem_cas_peers rec ag p s : dict_wf (state_by_agent rec) →
  (p, s) ∈ cas_peers rec ag ↔ p ≠ ag ∧ dget (state_by_agent rec) p = Some s ∧ non_invalid s = true.
Proof. intros Hwf. unfold cas_peers. rewrite list_elem_of_filter, dict_elem_iff by done. naive_solver. Qed.

Lemma elem_cas_peers_keys rec ag p : dict_wf (state_by_agent rec) →
  p ∈ (cas_peers rec ag).*1 ↔ p ≠ ag ∧ non_invalid (st rec p) = true.
Proof.
  intros Hwf. rewrite list_elem_of_fmap. unfold st. split.
  - intros ([q s] & -> & (Hq & Hd & Hs)%elem_cas_peers); [|done]. simpl. by rewrite Hd.
  - intros [Hp Hs]. destruct (dget _ p) as [s|] eqn:Es; [|done].
    exists (p, s). split; [done|]. by apply elem_cas_peers.
Qed.

(** ** The record a win leaves *)
Section invalidate.
Implicit Types peers : list (UUID * MESIState).

Lemma invalidate_shape peers rec : ∃ d g,
  foldl invalidate_peer rec peers = rec <| state_by_agent := d |> <| granted_at_tick_by_agent := g |> ∧
  (dict_wf (state_by_agent rec) → dict_wf d) ∧
  (∀ p, default INVALID (dget d p) = if decide (p ∈ peers.*1) then INVALID else st rec p) ∧
  (Forall (λ kv, m_or_e kv.2 = false) peers → g = granted_at_tick_by_agent rec).
Proof.
  revert rec. induction peers as [|[q s] peers IH]; intros rec; simpl.
  - exists (state_by_agent rec), (granted_at_tick_by_agent rec).
    split_and!; [by destruct rec|done|done|done].
  - destruct (IH (invalidate_peer rec (q, s))) as (d & g & Heq & Hwf & Hst & Hg).
    exists d, g. rewrite Heq. split_and!.
    + unfold invalidate_peer. by destruct (m_or_e (q, s).2).
    + intros Hd. apply Hwf. unfold invalidate_peer. destruct (m_or_e _); by apply dict_wf_dset.
    + intros p. rewrite Hst. unfold st, invalidate_peer.
      destruct (m_or_e _); simpl; rewrite dget_dset; repeat case_decide; set_solver.
    + intros [Hs Hp]%Forall_cons. rewrite Hg by done. unfold invalidate_peer. by rewrite Hs.
Qed.
End invalidate.

Definition cas_final (r : Registry) (now : Z) (a ag : UUID) (rec : ArtifactRecord)
    (h : string) (sz : option Z) (c : option body) : ArtifactRecord :=
  cas_apply ag (cas_updated a rec h sz) (cas_peers rec ag)
    (body_stored r now rec (version rec + 1) c).

Section win.
Context (r : Registry) (now : Z) (a ag : UUID) (rec : ArtifactRecord).
Context (h : string) (sz : option Z) (c : option body).
Local Abbreviation rec' := (cas_final r now a ag rec h sz c).
Context (Hwf : dict_wf (state_by_agent rec)) (Hother : ∀ q, q ≠ ag → m_or_e (st rec q) = false).

Lemma peers_not_me : Forall (λ kv : UUID * MESIState, m_or_e kv.2 = false) (cas_peers rec ag).
Proof using Hwf Hother.
  apply Forall_forall. intros [q s] (Hq & Hd & _)%elem_cas_peers; [|done].
  specialize (Hother q Hq). unfold st in Hother. by rewrite Hd in Hother.
Qed.

(** The fields a win changes, and the ones it keeps. *)
Lemma cas_final_shape : ∃ d,
  rec' = (body_stored r now rec (version rec + 1) c) <| artifact := cas_updated a rec h sz |>
           <| last_writer := Some ag |> <| state_by_agent := d |>
           <| last_observed_version_by_agent :=
                dset (last_observed_version_by_agent rec) ag (version rec + 1) |> ∧
  dict_wf d ∧ (∀ p, default INVALID (dget d p) = if decide (p = ag) then SHARED else INVALID).
Proof using Hwf Hother.
  set (rec1 := (body_stored r now rec (version rec + 1) c) <| artifact := cas_updated a rec h sz |>
                 <| last_writer := Some ag |>).
  destruct (invalidate_shape (cas_peers rec ag) rec1) as (d & g & Heq & Hd & Hst & Hg).
  exists (dset d ag SHARED). unfold cas_final, cas_apply. fold rec1. rewrite Heq. split_and!.
  - rewrite Hg by apply peers_not_me. unfold rec1. simpl.
    rewrite stored_observed. by destruct (body_stored _ _ _ _ _).
  - apply dict_wf_dset, Hd. unfold rec1. simpl. by rewrite stored_states.
  - intros p. rewrite dget_dset. repeat case_decide; simpl; try congruence. rewrite Hst.
    case_decide as Hp; [done|]. rewrite elem_cas_peers_keys in Hp by done.
    unfold st, rec1. simpl. rewrite stored_states. fold (st rec p).
    destruct (non_invalid (st rec p)) eqn:En; [naive_solver|by destruct (st rec p)].
Qed.

Lemma cas_final_st p : st rec' p = if decide (p = ag) then SHARED else INVALID.
Proof using Hwf Hother. destruct cas_final_shape as (d & -> & _ & Hst). apply Hst. Qed.

Lemma cas_final_artifact : artifact rec' = cas_updated a rec h sz.
Proof using Hwf Hother. by destruct cas_final_shape as (d & -> & _). Qed.

Lemma cas_final_version : version rec' = version rec + 1.
Proof using Hwf Hother. unfold version. by rewrite cas_final_artifact. Qed.

Lemma cas_final_content : content rec' = default (content rec) c.
Proof using Hwf Hother.
  destruct cas_final_shape as (d & -> & _). simpl. apply stored_content.
Qed.

Lemma cas_final_evolves X : art_id (artifact rec) = a →
  rec_evolves (live_pins_for_artifact r a) X rec rec'.
Proof using Hwf Hother.
  intros Hid. pose proof cas_final_version as Hv.
  destruct cas_final_shape as (d & Heq & _). split; [lia|lia|by rewrite Heq|..].
  - rewrite Heq. simpl. rewrite stored_generation. lia.
  - intros p _. rewrite Heq. simpl. by rewrite stored_readgen.
  - intros w Hw Hle. rewrite Heq. simpl. apply stored_history_pinned; [lia|by rewrite Hid].
  - intros w b Hle. rewrite Heq. simpl. intros [[? _]|?]%stored_history_inv; [lia|done].
Qed.

Lemma cas_final_ok : rec_ok rec → m_or_e (st rec ag) = false → rec_ok rec'.
Proof using Hwf Hother.
  intros [Hok Hfresh] Hag. pose proof cas_final_st as Hst. pose proof cas_final_version as Hv.
  assert (∀ p, m_or_e (st rec p) = false) as Hfree.
  { intros p. destruct (decide (p = ag)) as [->|]; auto. }
  destruct cas_final_shape as (d & Heq & Hd & _). split; [split|].
  - by rewrite Heq.
  - intros p q. rewrite !Hst. by repeat case_decide.
  - intros p v. rewrite Hv, Heq. simpl. intros Hp. dict_simp; [lia|].
    pose proof (rok_observed_le _ Hok _ _ Hp). lia.
  - intros p. rewrite Hst. by case_decide.
  - intros p g. rewrite Heq. simpl. rewrite stored_readgen, stored_generation. apply Hok.
  - intros p. rewrite Hst, Heq. simpl. rewrite stored_granted.
    pose proof (rok_granted _ Hok p) as Hg. rewrite (Hfree p) in Hg. by case_decide.
  - intros p. rewrite Heq. simpl. rewrite stored_transient, stored_transient_tick. apply Hok.
  - rewrite Hv. pose proof (rok_version _ Hok). lia.
  - rewrite Heq. simpl. apply stored_history_wf, Hok.
  - rewrite Heq. simpl. apply stored_history_keys, Hok.
  - rewrite Hv, Heq. simpl. apply stored_history_le.
    intros w Hw. pose proof (rok_history_le _ Hok w Hw). lia.
  - intros b. rewrite Hv, Heq. simpl. apply stored_history_current.
    intros w Hw. pose proof (rok_history_le _ Hok w Hw). lia.
  - intros p. unfold fresh_copy. rewrite Hst, Hv, Heq. simpl. case_decide; [|done]. subst.
    by rewrite dget_dset_eq.
Qed.
End win.

(** ** The log entries of a commit *)
Lemma emit_shape a ag from to trigger tick v h r : ∃ l n,
  (emit_state_log a ag from to trigger tick v h r).2 = r <| log_calls := l |> <| seq_no := n |> ∧
  match (emit_state_log a ag from to trigger tick v h r).1 with
  | Ok _ => True
  | Raise e => e = CallbackError ∧ ¬ log_quiet r
  end.
Proof.
  unfold emit_state_log. destruct (state_log r) as [sink|] eqn:Es.
  - destruct (sink _ _) eqn:Ek.
    + assert (¬ log_quiet r) by (intros Hq; by rewrite (Hq sink) in Ek).
      destruct r. simpl in *. do 2 eexists. by split.
    + by do 2 eexists.
  - exists (log_calls r), (seq_no r). split; [by destruct r|done].
Qed.

(** The emit loop touches the log fields only, and fails only on a raising log. *)
Lemma emit_all_shape trigger tick es n0 r : ∃ l n,
  (emit_all trigger tick es n0 r).2 = r <| log_calls := l |> <| seq_no := n |> ∧
  match (emit_all trigger tick es n0 r).1 with
  | Ok _ => True
  | Raise e => e = CallbackError ∧ ¬ log_quiet r
  end.
Proof.
  revert n0 r. induction es as [|[[[[[a ag] from] to] v] h] es IH]; intros n0 r; simpl.
  - exists (log_calls r), (seq_no r). split; [by destruct r|done].
  - destruct (emit_shape a ag from to trigger tick v h r) as (l & n & Hs & Ho).
    destruct (emit_state_log _ _ _ _ _ _ _ _ r) as [[m|e] r'] eqn:Ee; simpl in *; subst r'.
    + destruct (IH (n0 + m) (r <| log_calls := l |> <| seq_no := n |>)) as (l' & n' & Hs' & Ho').
      exists l', n'. exact (conj Hs' Ho').
    + by do 2 eexists.
Qed.

Lemma at_rec_log a r0 rec r l n :
  at_rec a r0 rec r → at_rec a r0 rec (r <| log_calls := l |> <| seq_no := n |>).
Proof. intros [F K O R]. constructor; [|done..]. trans r; [done|by constructor]. Qed.

Lemma at_rec_quiet a r0 rec r : at_rec a r0 rec r → log_quiet r ↔ log_quiet r0.
Proof. intros [F _ _ _]. unfold log_quiet. by rewrite (fr_state_log _ _ F). Qed.

Lemma triple_emit_all a r0 rec trigger tick es n : triple (at_rec a r0 rec)
  (emit_all trigger tick es n) (λ _, at_rec a r0 rec)
  (λ e r, e = CallbackError ∧ ¬ log_quiet r0 ∧ at_rec a r0 rec r).
Proof.
  intros r Hr. destruct (emit_all_shape trigger tick es n r) as (l & m & Hs & Ho).
  destruct (emit_all _ _ _ _ r) as [[u|e] r']; simpl in *; subst r'.
  - by apply at_rec_log.
  - destruct Ho as [-> Hq]. rewrite (at_rec_quiet _ _ _ _ Hr) in Hq.
    split_and!; [done..|]. by apply at_rec_log.
Qed.

Lemma triple_note_conflict a r0 rec b ag reason :
  triple (at_rec a r0 rec) (note_conflict b ag reason) (λ _, at_rec a r0 rec) (λ _ _, False).
Proof. intros r [F K O R]. constructor; [|done..]. trans r; [done|by constructor]. Qed.

(** ** [commit_cas] on every branch *)
Definition cas_post (a ag : UUID) (r0 : Registry) (rec : ArtifactRecord) (expected : Z)
    (h : string) (sz : option Z) (c : option body) (res : CasResult) (r : Registry) : Prop :=
  match cas_arbitrate rec ag expected with
  | Some (inl current) => res = CasCorruption current ∧ at_rec a r0 rec r
  | Some (inr reason) => res = CasConflict (mkConflict reason (version rec)) ∧ at_rec a r0 rec r
  | None => res = CasWin (cas_updated a rec h sz) (cas_peers rec ag).*1 ∧
            ∃ now, at_rec a r0 (cas_final r0 now a ag rec h sz c) r
  end.

Lemma triple_commit_cas a ag r0 rec expected h sz c tick trigger :
  triple (at_rec a r0 rec) (commit_cas a ag expected h sz c tick trigger)
    (cas_post a ag r0 rec expected h sz c)
    (λ e r, e = CallbackError ∧ ¬ log_quiet r0 ∧ at_rec a r0 rec r).
Proof.
  unfold commit_cas, cas_post.
  eapply triple_bind; [eapply triple_conseq; [apply triple_require_record|done|done|done]|].
  intros x. apply triple_pure. intros Hx. subst x.
  destruct (cas_arbitrate rec ag expected) as [[cur|reason]|].
  - by apply triple_ret.
  - eapply triple_then; [apply triple_note_conflict|]. by apply triple_ret.
  - eapply triple_then_exc; [apply triple_emit_all|].
    eapply triple_bind; [eapply triple_conseq; [apply triple_cas_content|done|done|done]|].
    intros x. apply triple_pure. intros [now Hx]. subst x.
    eapply triple_then; [apply triple_put_record|].
    apply triple_ret. intros r Hr. split; [done|]. by exists now.
Qed.

(** ** [commit_all] *)
Lemma cas_final_frame r0 r now a ag rec h sz c : frame r0 r →
  cas_final r now a ag rec h sz c = cas_final r0 now a ag rec h sz c.
Proof.
  intros F. unfold cas_final, body_stored, live_pins_for_artifact.
  by rewrite (fr_retain _ _ F), (fr_policy _ _ F), (fr_pins _ _ F).
Qed.

(** The batch is admitted exactly when every member wins its own arbitration. *)
Definition admitted (r : Registry) (ag : UUID) (writes : list (UUID * CommitAllEntry)) : Prop :=
  ∀ a e, (a, e) ∈ writes → ∃ rec,
    get_record r a = Some rec ∧ cas_arbitrate rec ag (cae_expected_version e) = None.

(** The conflict a member contributes. *)
Definition member_conflict (r : Registry) (ag a : UUID) (e : CommitAllEntry) (d : ConflictDetail) : Prop :=
  ∃ rec reason, get_record r a = Some rec ∧
    cas_arbitrate rec ag (cae_expected_version e) = Some (inr reason) ∧
    d = mkConflict reason (version rec).

Lemma check_all_acc r ag writes acc out : dict_wf writes →
  check_all r ag writes acc = Ok (inr out) →
  (∀ a e, (a, e) ∈ writes → (∃ rec, get_record r a = Some rec ∧
      cas_arbitrate rec ag (cae_expected_version e) = None ∧ dget out a = dget acc a) ∨
      (∃ d, member_conflict r ag a e d ∧ dget out a = Some d)) ∧
  (∀ a, a ∉ writes.*1 → dget out a = dget acc a).
Proof.
  revert acc. induction writes as [|[a e] writes IH]; intros acc Hwf Hc; simpl in *.
  { simplify_eq. split; [|done]. intros ?? []%elem_of_nil. }
  apply NoDup_cons in Hwf as [Ha Hwf].
  destruct (get_record r a) as [rec|] eqn:Er; [|done].
  destruct (cas_arbitrate rec ag _) as [[cur|reason]|] eqn:Ec; [done|..];
    (destruct (IH _ Hwf Hc) as [Hin Hout]; split;
      [|intros b Hb; rewrite not_elem_of_cons in Hb; destruct Hb as [Hb Hb'];
        rewrite Hout by done; by rewrite ?dget_dset_ne]).
  - intros b e' [Heq|Hb]%elem_of_cons; [simplify_eq|].
    + right. eexists. split; [by exists rec, reason|]. rewrite Hout by done. by rewrite dget_dset_eq.
    + destruct (Hin b e' Hb) as [(rec' & ? & ? & Hd)|?]; [left|by right].
      exists rec'. rewrite Hd. split_and!; [done..|]. rewrite dget_dset_ne; [done|].
      intros ->. apply Ha, list_elem_of_fmap. by exists (b, e').
  - intros b e' [Heq|Hb]%elem_of_cons; [simplify_eq|by apply Hin].
    left. exists rec. split_and!; [done..|]. by apply Hout.
Qed.

(** The collected dictionary names every failing member with its own conflict. *)
Lemma check_all_conflicts r ag writes out : dict_wf writes →
  check_all r ag writes [] = Ok (inr out) →
  ∀ a d, dget out a = Some d ↔ ∃ e, dget writes a = Some e ∧ member_conflict r ag a e d.
Proof.
  intros Hwf Hc a d. destruct (check_all_acc _ _ _ _ _ Hwf Hc) as [Hin Hout]. split.
  - intros Hd. destruct (decide (a ∈ writes.*1)) as [[e He]%dkey_Some|Hn].
    + exists e. split; [done|].
      destruct (Hin a e) as [(rec & _ & _ & Hd')|(d' & Hm & Hd')]; [by apply dget_Some_elem|..].
      * by rewrite Hd in Hd'.
      * by simplify_eq.
    + by rewrite (Hout a Hn) in Hd.
  - intros (e & He & rec & reason & Hr & Hcas & ->).
    destruct (Hin a e) as [(rec' & Hr' & Hc' & _)|(d' & (rec' & reason' & ? & ? & ->) & Hd')];
      [by apply dget_Some_elem|..]; by simplify_eq.
Qed.

Lemma check_all_admitted r ag writes : dict_wf writes →
  check_all r ag writes [] = Ok (inr []) → admitted r ag writes.
Proof.
  intros Hwf Hc a e Hin. destruct (check_all_acc _ _ _ _ _ Hwf Hc) as [Hin' _].
  destruct (Hin' a e Hin) as [(rec & ? & ? & _)|(d & _ & Hd)]; [eauto|done].
Qed.

Lemma admitted_check_all r ag writes : admitted r ag writes → check_all r ag writes [] = Ok (inr []).
Proof.
  induction writes as [|[a e] writes IH]; intros Ha; simpl; [done|].
  destruct (Ha a e) as (rec & -> & ->); [set_solver|]. apply IH. intros b e' Hb. apply Ha. set_solver.
Qed.

(** One member of the APPLY loop. *)
Lemma apply_member_run r ag acc a e rec : get_record r a = Some rec →
  ∃ r' now, apply_member ag acc (a, e) r =
    (Ok (mkMultiCommitResult (dset (mcr_versions acc) a (version rec + 1))
           (if decide (cas_peers rec ag = []) then mcr_invalidated acc
            else dset (mcr_invalidated acc) a (cas_peers rec ag).*1)), r') ∧
    at_rec a r (cas_final r now a ag rec (cae_content_hash e) (cae_size_tokens e) (cae_content e)) r'.
Proof.
  intros Hr.
  edestruct (triple_total _ _ _ _ r (triple_cas_content a r rec (version rec + 1) (cae_content e)))
    as (x & r1 & Hrun & [now ->] & Hat); [by apply at_rec_refl|naive_solver|].
  pose proof (triple_put_record a r rec
    (cas_final r now a ag rec (cae_content_hash e) (cae_size_tokens e) (cae_content e)) r1 Hat) as Hput.
  eexists _, now. split; [|exact Hput].
  unfold apply_member, mbind, proc_bind, require_record. rewrite Hr. unfold version in Hrun.
  by rewrite Hrun.
Qed.

(** What a committed batch leaves: each member at the record of its own win,
    everything else untouched. *)
Record batch_applied (ag : UUID) (writes : list (UUID * CommitAllEntry)) (r r' : Registry) : Prop := {
  ba_frame : frame r r';
  ba_keys : (records r').*1 = (records r).*1;
  ba_others : ∀ b, b ∉ writes.*1 → get_record r' b = get_record r b;
  ba_members : ∀ a e, (a, e) ∈ writes → ∃ rec now, get_record r a = Some rec ∧
    get_record r' a =
      Some (cas_final r now a ag rec (cae_content_hash e) (cae_size_tokens e) (cae_content e));
}.

Definition versions_of (r : Registry) (writes : list (UUID * CommitAllEntry)) (acc res : MultiCommitResult) : Prop :=
  mcr_versions res = foldl (λ d (w : UUID * CommitAllEntry),
    match get_record r w.1 with Some rec => dset d w.1 (version rec + 1) | None => d end)
    (mcr_versions acc) writes.

Lemma apply_all_run r ag writes acc : dict_wf writes → (∀ a, a ∈ writes.*1 → is_Some (get_record r a)) →
  ∃ res r', foldm (apply_member ag) writes acc r = (Ok res, r') ∧
    batch_applied ag writes r r' ∧ versions_of r writes acc res.
Proof.
  revert acc r. induction writes as [|[a e] writes IH]; intros acc r Hwf Hsome; cbn [foldm].
  { exists acc, r. split_and!; [done| |done]. split; [done..|]. intros ?? []%elem_of_nil. }
  apply dict_wf_cons in Hwf as [Ha Hwf].
  destruct (Hsome a) as [rec Hrec]; [set_solver|].
  destruct (apply_member_run r ag acc a e rec Hrec) as (r1 & now & Hrun & [F K O R]).
  unfold mbind, proc_bind. rewrite Hrun.
  match type of Hrun with _ = (Ok ?acc', _) =>
    destruct (IH acc' r1 Hwf) as (res & r2 & Hf & [F2 K2 O2 M2] & Hv) end.
  { intros b Hb. rewrite O by (intros ->; done). apply Hsome. set_solver. }
  exists res, r2. split_and!; [done|split|].
  - by trans r1.
  - congruence.
  - intros b Hb. simpl in Hb. rewrite not_elem_of_cons in Hb. rewrite O2 by naive_solver. apply O. naive_solver.
  - intros b e' [Heq|Hb]%elem_of_cons; [simplify_eq|].
    + exists rec, now. rewrite O2 by done. done.
    + destruct (M2 b e' Hb) as (recb & nowb & Hb1 & Hb2).
      assert (b ≠ a) as Hne by (intros ->; apply Ha, list_elem_of_fmap; by exists (a, e')).
      rewrite O in Hb1 by done. exists recb, nowb. rewrite Hb2. split; [done|]. f_equal. by apply cas_final_frame.
  - unfold versions_of in *. rewrite Hv. simpl. rewrite Hrec.
    apply foldl_ext_in. intros d [b e'] Hb. simpl. rewrite O; [done|].
    intros ->. apply Ha, list_elem_of_fmap. by exists (a, e').
Qed.

(** Registries with the same records and frame. *)
Record same_data (r r' : Registry) : Prop := {
  sd_frame : frame r r';
  sd_records : records r' = records r;
}.
#[export] Instance same_data_preorder : PreOrder same_data.
Proof.
  split; [by intros r; split|].
  intros r1 r2 r3 [F1 R1] [F2 R2]. split; [by trans r2|congruence].
Qed.

Lemma same_data_log r l n : same_data r (r <| log_calls := l |> <| seq_no := n |>).
Proof. by split. Qed.

Lemma same_data_record r r' a : same_data r r' → get_record r' a = get_record r a.
Proof. intros [_ R]. unfold get_record. by rewrite R. Qed.

Lemma same_data_note r a ag reason : same_data r (note_conflict a ag reason r).2.
Proof. by split. Qed.

Lemma at_rec_same a r0 rec r : dict_wf (records r0) → get_record r0 a = Some rec →
  at_rec a r0 rec r → same_data r0 r.
Proof.
  intros Hwf Hr [F K O R]. split; [done|]. apply dict_ext; [done..|].
  intros b. destruct (decide (b = a)) as [->|Hb]; [|by apply O]. unfold get_record in *. congruence.
Qed.

Lemma emit_all_same trigger tick es n r o r' : emit_all trigger tick es n r = (o, r') →
  same_data r r' ∧ match o with Ok _ => True | Raise e => e = CallbackError ∧ ¬ log_quiet r end.
Proof.
  intros He. destruct (emit_all_shape trigger tick es n r) as (l & m & Hs & Ho).
  rewrite He in Hs, Ho. cbn [fst snd] in *. subst r'. split; [apply same_data_log|done].
Qed.

Lemma note_all_same ag (l : list (UUID * ConflictDetail)) r :
  ∃ r', for_each l (λ kv, note_conflict kv.1 ag (cd_reason kv.2)) r = (Ok tt, r') ∧ same_data r r'.
Proof.
  revert r. induction l as [|x l IH]; intros r; cbn [for_each]; [by exists r|].
  destruct (IH (note_conflict x.1 ag (cd_reason x.2) r).2) as (r' & Hr & Hs).
  exists r'. split; [exact Hr|]. etrans; [apply same_data_note|exact Hs].
Qed.

Lemma batch_applied_same ag writes r r1 r' :
  same_data r r1 → batch_applied ag writes r1 r' → batch_applied ag writes r r'.
Proof.
  intros Hs [F K O M]. pose proof Hs as [F1 R1]. split.
  - by trans r1.
  - by rewrite K, R1.
  - intros b Hb. rewrite O by done. by apply same_data_record.
  - intros a e Ha. destruct (M a e Ha) as (rec & now & Hr & Hr'). exists rec, now.
    rewrite (same_data_record _ _ _ Hs) in Hr. rewrite Hr'. split; [done|]. f_equal.
    by apply cas_final_frame.
Qed.

Lemma admitted_run r r1 ag writes : dict_wf writes → same_data r r1 → admitted r ag writes →
  ∃ res r', foldm (apply_member ag) writes (mkMultiCommitResult [] []) r1 = (Ok res, r') ∧
    batch_applied ag writes r r' ∧ versions_of r writes (mkMultiCommitResult [] []) res.
Proof.
  intros Hwf Hsame Hadm.
  destruct (apply_all_run r1 ag writes (mkMultiCommitResult [] [])) as (res & r' & Hrun & Hb & Hv); [done| |].
  { intros a [e He]%dkey_Some. destruct (Hadm a e) as (rec & Hr & _); [by apply dget_Some_elem|].
    rewrite (same_data_record _ _ _ Hsame). eauto. }
  exists res, r'. split_and!; [done|by eapply batch_applied_same|].
  unfold versions_of in *. rewrite Hv. apply foldl_ext_in. intros d w _.
  by rewrite (same_data_record _ _ _ Hsame).
Qed.

(** Every outcome of [commit_all]: a win applies the whole batch, anything else
    leaves every record as it was. *)
Lemma commit_all_cases ag writes tick trigger r : dict_wf writes →
  match commit_all ag writes tick trigger r with
  | (Ok (MultiWin res), r') =>
    admitted r ag writes ∧ batch_applied ag writes r r' ∧
    versions_of r writes (mkMultiCommitResult [] []) res
  | (Ok (MultiConflict out), r') => out ≠ [] ∧ same_data r r' ∧
    ∀ a d, dget out a = Some d ↔ ∃ e, dget writes a = Some e ∧ member_conflict r ag a e d
  | (Ok (MultiCorruption _), r') => same_data r r'
  | (Raise e, r') => same_data r r' ∧ (e = CallbackError → ¬ log_quiet r)
  end.
Proof.
  intros Hwf. unfold commit_all. destruct writes as [|w0 ws] eqn:Ew; [by split|]. rewrite <-Ew in *.
  clear Ew w0 ws. unfold mbind, proc_bind, gets, of_outcome, id.
  destruct (check_all r ag writes []) as [[cur|[|kv out]]|e] eqn:Ec.
  - done.
  - destruct (emit_all _ _ _ _ r) as [[u|e] r1] eqn:Ee; apply emit_all_same in Ee as [Hsame Ho].
    2: { split; [done|]. intros _. apply Ho. }
    pose proof (check_all_admitted _ _ _ Hwf Ec) as Hadm.
    destruct (admitted_run r r1 ag writes Hwf Hsame Hadm) as (res & r' & -> & Hb & Hv). done.
  - destruct (note_all_same ag (kv :: out) r) as (r' & -> & Hs).
    split_and!; [done..|]. by apply check_all_conflicts.
  - split; [done|]. intros ->. exfalso. clear Hwf. revert Ec. generalize ([] : list (UUID * ConflictDetail)).
    induction writes as [|[a e] writes IH]; intros acc; simpl; [done|].
    repeat case_match; try done; apply IH.
Qed.

(** With a quiet log, an admitted batch wins. *)
Lemma commit_all_wins ag writes tick trigger r : writes ≠ [] → dict_wf writes → log_quiet r →
  admitted r ag writes → ∃ res r', commit_all ag writes tick trigger r = (Ok (MultiWin res), r').
Proof.
  intros Hne Hwf Hq Hadm. unfold commit_all, mbind, proc_bind, gets, of_outcome, id.
  destruct writes as [|w ws] eqn:Ew; [done|]. rewrite <-Ew in *.
  rewrite (admitted_check_all _ _ _ Hadm).
  destruct (emit_all _ _ _ _ r) as [[u|e] r1] eqn:Ee; apply emit_all_same in Ee as [Hsame Ho]; [|naive_solver].
  destruct (admitted_run r r1 ag writes Hwf Hsame Hadm) as (res & r' & -> & _). by eauto.
Qed.
