(* ===== verification/Service.v ===== *)
(** The coordinator service over a registry: [src/ccs/coordinator/service.py]
    without its session and checkpoint parts.

    Every public operation takes [registry.abort_guard()], which holds the
    registry lock from the first read to the last write: an operation is one
    atomic [RM] procedure.  The two sweeps take the lock once per
    (artifact, agent) pair; [expire_pair] and [reclaim_pair] are those atomic
    steps, and the sweeps fold them over the snapshot they read first.  [abort]
    is the state of the watchdog event when the lock is won; an exception
    leaves the mutations made before it in place, as in the code. *)
From S2P Require Import Prelude Core Hashing Retention Registry.

Open Scope Z_scope.
Open Scope string_scope.

(** ** Configuration *)
Record CrashRecoveryConfig := mkCrashRecovery {
  enabled : bool;
  heartbeat_timeout_ticks : Z;
  max_hold_ticks : Z;
}.
Definition CrashRecoveryConfig_default : CrashRecoveryConfig := mkCrashRecovery true 120 900.

(** [getattr(strategy, "ttl_ticks", None)]: absent or [None], an [int], or
    something else (which only warns). *)
Inductive ttl_attr : Type := TtlNone | TtlInt (ttl : Z) | TtlOther.

Definition validate_crash_recovery_config (crash_recovery : CrashRecoveryConfig) (ttl : ttl_attr)
    : outcome exn unit :=
  if negb (enabled crash_recovery) then Ok tt
  else match ttl with
       | TtlNone => Ok tt
       | TtlInt ttl =>
         if decide (max_hold_ticks crash_recovery <= ttl)
         then Raise (ValueError "crash_recovery composition violation") else Ok tt
       | TtlOther => Ok tt
       end.

(** ** Private helpers *)

(** [agent_state in {MESIState.EXCLUSIVE, MESIState.MODIFIED}]. *)
Definition in_m_or_e (s : option MESIState) : bool :=
  match s with Some s => m_or_e s | None => false end.

Definition require_artifact (a : UUID) : RM Artifact := λ r,
  match get_artifact r a with
  | Some artifact => (Ok artifact, r)
  | None => (Raise (CoherenceError "artifact_not_found"), r)
  end.

Definition validate_single_writer (a : UUID) : RM unit := λ r,
  (check_single_writer (get_state_map r a), r).

Definition invalidation_transient_for_state (s : MESIState) : option TransientState :=
  match s with
  | SHARED => Some SIA
  | EXCLUSIVE => Some EIA
  | MODIFIED => Some MSA
  | INVALID => None
  end.

(** ** Registration and reads *)

(** [artifact_id] is the [uuid4()] the [Artifact] dataclass mints. *)
Definition service_register_artifact (artifact_id : UUID) (name : string) (c : body)
    (initial_owner : option UUID) (size_tokens : option Z) (content_hash : option string)
    (depends_on : list UUID) : RM Artifact :=
  let a := mkArtifact artifact_id name 1 content_hash size_tokens depends_on in
  register_artifact a c ;;
  match initial_owner with
  | Some owner => set_agent_state (art_id a) owner EXCLUSIVE "register" 0 None
  | None => mret tt
  end ;;
  mret a.

(** The other agents holding a non-INVALID entry. *)
Definition other_holders (state_map : list (UUID * MESIState)) (ag : UUID) : list (UUID * MESIState) :=
  filter (λ kv : UUID * MESIState, kv.1 ≠ ag ∧ non_invalid kv.2 = true) state_map.

Definition fetch (request : FetchRequest) : RM FetchResponse :=
  let a := fq_artifact_id request in
  let ag := fq_requesting_agent_id request in
  let tick := fq_requested_at_tick request in
  artifact ← require_artifact a;
  content ← gets (λ r, get_content r a);
  match content with
  | None => raise (CoherenceError "artifact_content_missing")
  | Some content =>
    state_map ← gets (λ r, get_state_map r a);
    let others := other_holders state_map ag in
    let grant := if decide (others = []) then EXCLUSIVE else SHARED in
    set_agent_transient a ag (if decide (grant = EXCLUSIVE) then IED else ISG) tick ;;
    for_each others (λ kv,
      if m_or_e kv.2 then set_agent_state a kv.1 SHARED "fetch" tick None else mret tt) ;;
    set_agent_state a ag grant "fetch" tick None ;;
    clear_agent_transient a ag ;;
    validate_single_writer a ;;
    mret (mkFetchResponse a (art_version artifact) content grant)
  end.

Definition reject (reason : string) (a : UUID) (requested_version : Z) (current_version : option Z)
    (epoch : string) : VersionedContent + VersionedReadRejection :=
  inr (mkVersionedReadRejection reason a requested_version current_version epoch).

(** [read_at_version]; the clock is read only for a retained version under a
    retention policy. *)
Definition read_at_version (a : UUID) (version : Z) (expected_epoch : option string)
    : RM (VersionedContent + VersionedReadRejection) := λ r,
  if decide (version < 1) then (Raise (ValueError "read_at_version: version must be >= 1"), r) else
  let epoch := coordinator_epoch r in
  match get_artifact r a with
  | None => (Ok (reject UNKNOWN_ARTIFACT_REASON a version None epoch), r)
  | Some artifact =>
    let current := art_version artifact in
    let '(retention_enabled, policy) := retention_meta r in
    if negb retention_enabled
    then (Ok (reject RETENTION_OFF_REASON a version (Some current) epoch), r)
    else if (match expected_epoch with Some e => negb (String.eqb e epoch) | None => false end)
    then (Ok (reject EPOCH_MISMATCH_REASON a version (Some current) epoch), r)
    else if decide (version = current)
    then (Ok (reject CURRENT_VERSION_REASON a version (Some current) epoch), r)
    else if decide (current < version)
    then (Ok (reject FUTURE_VERSION_REASON a version (Some current) epoch), r)
    else match get_version_record r a version with
    | None => (Ok (reject NOT_RETAINED_REASON a version (Some current) epoch), r)
    | Some (content, captured_at) =>
      let served := Ok (inl (mkVersionedContent a version content captured_at epoch)) in
      match policy with
      | None => (served, r)
      | Some policy =>
        let now := wall_clock r (wall_reads r) in
        let r' := r <| wall_reads ::= S |> in
        if decide (version ∈ collectible_versions (VMapping [(version, captured_at)]) current policy now ∅)
        then (Ok (reject NOT_RETAINED_REASON a version (Some current) epoch), r')
        else (served, r')
      end
    end
  end.

(** ** Pessimistic writes *)

(** One iteration of the peer loop of [_write_impl] and [_commit_impl]. *)
Definition revoke_peer (a ag : UUID) (trigger : string) (tick new_version : Z)
    (signals : list InvalidationSignal) (peer : UUID * MESIState) : RM (list InvalidationSignal) :=
  match invalidation_transient_for_state peer.2 with
  | Some t => set_agent_transient a peer.1 t tick
  | None => mret tt
  end ;;
  set_agent_state a peer.1 INVALID trigger tick None ;;
  mret (signals ++ [mkSignal a new_version tick ag])%list.

Definition revoke_peers (a ag : UUID) (trigger : string) (tick new_version : Z)
    : RM (list InvalidationSignal) :=
  state_map ← gets (λ r, get_state_map r a);
  foldm (revoke_peer a ag trigger tick new_version) (other_holders state_map ag) [].

Definition write_impl (ag a : UUID) (tick : Z) : RM (list InvalidationSignal) :=
  artifact ← require_artifact a;
  set_agent_transient a ag IED tick ;;
  signals ← revoke_peers a ag "write" tick (art_version artifact);
  set_agent_state a ag EXCLUSIVE "write" tick None ;;
  clear_agent_transient a ag ;;
  validate_single_writer a ;;
  mret signals.

Definition write (ag a : UUID) (tick : Z) (abort : bool) : RM (list InvalidationSignal) :=
  abort_guard abort (write_impl ag a tick).

Definition upgrade (ag a : UUID) (tick : Z) : RM (list InvalidationSignal) := write ag a tick false.

Definition commit_impl (ag a : UUID) (c : string) (tick : Z) (content_hash : option string)
    (size_tokens : option Z) : RM (Artifact * list InvalidationSignal) :=
  artifact ← require_artifact a;
  agent_state ← gets (λ r, get_agent_state r a ag);
  if negb (in_m_or_e agent_state) then
    reclamation ← gets (λ r, get_last_reclamation r ag a);
    match reclamation with
    | Some _ => raise (CoherenceError "commit_not_allowed reclaimed_by")
    | None => raise (CoherenceError "commit_not_allowed")
    end
  else
    set_agent_transient a ag MWB tick ;;
    let next_version := art_version artifact + 1 in
    of_outcome (check_monotonic_version (art_version artifact) next_version) ;;
    let updated := mkArtifact (art_id artifact) (art_name artifact) next_version
      (match content_hash with Some h => Some h | None => art_content_hash artifact end)
      (match size_tokens with Some n => Some n | None => art_size_tokens artifact end)
      (art_depends_on artifact) in
    catch (set_artifact_and_content a updated (BStr c) (Some ag) (Some ag))
      (λ e, match e with
            | StaleReadGeneration => clear_agent_transient a ag ;; raise StaleReadGeneration
            | _ => raise e
            end) ;;
    signals ← revoke_peers a ag "commit" tick next_version;
    commit_hash ← of_outcome (match content_hash with
                              | Some h => Ok h
                              | None => compute_content_hash (BStr c)
                              end);
    set_agent_state a ag MODIFIED "commit" tick (Some commit_hash) ;;
    clear_agent_transient a ag ;;
    validate_single_writer a ;;
    mret (updated, signals).

Definition commit (ag a : UUID) (c : string) (tick : Z) (content_hash : option string)
    (size_tokens : option Z) (abort : bool) : RM (Artifact * list InvalidationSignal) :=
  abort_guard abort (commit_impl ag a c tick content_hash size_tokens).

(** ** Optimistic writes *)
Definition commit_cas_impl (ag a : UUID) (expected_version : Z) (content_hash : string) (tick : Z)
    (size_tokens : option Z) (c : option body)
    : RM (Artifact * list InvalidationSignal + ConflictDetail) :=
  artifact ← require_artifact a;
  transient ← gets (λ r, get_agent_transient r a ag);
  match transient with
  | Some _ => raise OccCallerTransientError
  | None =>
    agent_state ← gets (λ r, get_agent_state r a ag);
    if in_m_or_e agent_state
    then raise (CoherenceError "commit_cas_not_allowed reason=occ_is_shared_or_invalid_only")
    else
      result ← commit_cas a ag expected_version content_hash size_tokens c tick "commit_cas";
      match result with
      | CasCorruption _ => raise (CoherenceError "commit_cas_corruption")
      | CasConflict detail => mret (inr detail)
      | CasWin updated invalidated_ids =>
        of_outcome (check_monotonic_version (art_version artifact) (art_version updated)) ;;
        validate_single_writer a ;;
        mret (inl (updated,
          map (λ _ : UUID, mkSignal a (art_version updated) tick ag) invalidated_ids))
      end
  end.

Definition service_commit_cas (ag a : UUID) (expected_version : Z) (content_hash : string) (tick : Z)
    (size_tokens : option Z) (c : option body) (abort : bool)
    : RM (Artifact * list InvalidationSignal + ConflictDetail) :=
  abort_guard abort (commit_cas_impl ag a expected_version content_hash tick size_tokens c).

(** [MultiCommitConflict] is its per-artifact dictionary. *)
Definition commit_all_result : Type :=
  MultiCommitResult * list InvalidationSignal + list (UUID * ConflictDetail).

Definition commit_all_precheck (ag a : UUID) : RM unit :=
  _ ← require_artifact a;
  transient ← gets (λ r, get_agent_transient r a ag);
  match transient with
  | Some _ => raise OccCallerTransientError
  | None =>
    state ← gets (λ r, get_agent_state r a ag);
    if in_m_or_e state
    then raise (CoherenceError "commit_all_not_allowed reason=occ_is_shared_or_invalid_only")
    else mret tt
  end.

Definition commit_all_impl (ag : UUID) (writes : list (UUID * CommitAllEntry)) (tick : Z)
    : RM commit_all_result :=
  match writes with
  | [] => raise (CoherenceError "commit_all requires a non-empty write-set")
  | _ =>
    for_each writes (λ w, commit_all_precheck ag w.1) ;;
    result ← commit_all ag writes tick "commit_all";
    match result with
    | MultiCorruption _ => raise (CoherenceError "commit_all_corruption")
    | MultiConflict conflicts => mret (inr conflicts)
    | MultiWin result =>
      signals ← foldm (λ signals (v : UUID * Z),
        validate_single_writer v.1 ;;
        mret (signals ++ map (λ _ : UUID, mkSignal v.1 v.2 tick ag)
                (default [] (dget (mcr_invalidated result) v.1)))%list)
        (mcr_versions result) [];
      mret (inl (result, signals))
    end
  end.

Definition service_commit_all (ag : UUID) (writes : list (UUID * CommitAllEntry)) (tick : Z)
    (abort : bool) : RM commit_all_result :=
  abort_guard abort (commit_all_impl ag writes tick).

(** ** Revocation, deletion, heartbeats *)
Definition revoke_is_superseded (r : Registry) (ag a : UUID) (new_version : Z) (issuer : UUID) : bool :=
  if decide (issuer = ag) then false
  else if decide (get_agent_state r a ag = Some INVALID) then false
  else match last_observed_version_for r a ag with
       | Some observed => bool_decide (new_version <= observed)
       | None => false
       end.

Definition invalidate_impl (ag a : UUID) (new_version : Z) (issuer : UUID) (tick : Z)
    : RM (option InvalidationSignal) :=
  known ← gets (λ r, has_artifact r a);
  if negb known then mret None
  else
    superseded ← gets (λ r, revoke_is_superseded r ag a new_version issuer);
    if superseded : bool then mret None
    else
      set_agent_state a ag INVALID "invalidate" tick None ;;
      clear_agent_transient a ag ;;
      mret (Some (mkSignal a new_version tick issuer)).

Definition invalidate (ag a : UUID) (new_version : Z) (issuer : UUID) (tick : Z) (abort : bool)
    : RM (option InvalidationSignal) :=
  abort_guard abort (invalidate_impl ag a new_version issuer tick).

Definition delete (ag a : UUID) (tick : Z) : RM (list InvalidationSignal) :=
  known ← gets (λ r, has_artifact r a);
  if negb known then mret []
  else
    artifact ← require_artifact a;
    state_map ← gets (λ r, get_state_map r a);
    let signals := map (λ _ : UUID * MESIState, mkSignal a (art_version artifact) tick ag)
      (filter (λ kv : UUID * MESIState, non_invalid kv.2 = true) state_map) in
    remove_artifact a ;;
    mret signals.

Definition service_record_heartbeat (ag : UUID) (now_tick : Z) : RM unit :=
  if decide (now_tick < 0) then raise (ValueError "now_tick must be >= 0")
  else record_heartbeat ag now_tick.

(** ** Sweeps *)

(** The locked body of the transient sweep; the result is what it adds to
    [expired]. *)
Definition expire_pair (current_tick timeout_ticks : Z) (a ag : UUID) : RM Z :=
  transient ← gets (λ r, get_agent_transient r a ag);
  entered ← gets (λ r, get_transient_tick r a ag);
  match transient, entered with
  | Some _, Some entered =>
    if decide (current_tick - entered < timeout_ticks) then mret 0
    else
      set_agent_state a ag INVALID "timeout" current_tick None ;;
      clear_agent_transient a ag ;;
      mret 1
  | _, _ => mret 0
  end.

Definition enforce_transient_timeouts (current_tick timeout_ticks : Z) : RM Z :=
  if decide (timeout_ticks < 1) then raise (ValueError "timeout_ticks must be >= 1")
  else
    ids ← gets artifact_ids;
    foldm (λ expired a,
      agents ← gets (λ r, (get_transient_map r a).*1);
      foldm (λ expired ag, n ← expire_pair current_tick timeout_ticks a ag; mret (expired + n))
        agents expired) ids 0.

(** The reclaim decision: heartbeat first, then hold time. *)
Definition reclaim_trigger (r : Registry) (current_tick heartbeat_timeout max_hold : Z) (a ag : UUID)
    : option string :=
  let heartbeat_stale :=
    match last_heartbeat_tick r ag with
    | None => true
    | Some last_hb => bool_decide (heartbeat_timeout <= current_tick - last_hb)
    end in
  if heartbeat_stale then Some "reclaim_heartbeat"
  else match granted_at_tick r ag a with
       | None => None
       | Some granted_at =>
         if decide (max_hold <= current_tick - granted_at) then Some "reclaim_max_hold" else None
       end.

(** The locked body of the stable-grant sweep.  [on_reclaim] is a telemetry
    callback whose exceptions are logged and dropped; it is not modelled. *)
Definition reclaim_pair (current_tick heartbeat_timeout max_hold : Z) (a ag : UUID) : RM Z :=
  state ← gets (λ r, get_agent_state r a ag);
  if negb (in_m_or_e state) then mret 0
  else
    transient ← gets (λ r, get_agent_transient r a ag);
    match transient with
    | Some _ => mret 0
    | None =>
      trigger ← gets (λ r, reclaim_trigger r current_tick heartbeat_timeout max_hold a ag);
      match trigger with
      | None => mret 0
      | Some trigger =>
        set_agent_state a ag INVALID trigger current_tick None ;;
        record_last_reclamation ag a trigger current_tick ;;
        validate_single_writer a ;;
        mret 1
      end
    end.

(** The snapshot of write grants the stable sweep iterates over. *)
Definition grant_snapshot (r : Registry) : list (UUID * UUID) :=
  flat_map (λ a, map (λ kv : UUID * MESIState, (a, kv.1))
    (filter (λ kv : UUID * MESIState, m_or_e kv.2 = true) (get_state_map r a))) (artifact_ids r).

Definition enforce_stable_grant_timeouts (current_tick heartbeat_timeout max_hold : Z) : RM Z :=
  if decide (heartbeat_timeout < 1) then raise (ValueError "heartbeat_timeout_ticks must be >= 1")
  else if decide (max_hold < 1) then raise (ValueError "max_hold_ticks must be >= 1")
  else
    snapshot ← gets grant_snapshot;
    foldm (λ reclaimed p, n ← reclaim_pair current_tick heartbeat_timeout max_hold p.1 p.2;
                          mret (reclaimed + n)) snapshot 0.
