(* ===== verification/Checkpoints.v ===== *)
(** Workspace checkpoints of the coordinator service: the manifest operations
    and [register_workspace_restore] of [src/ccs/coordinator/service.py], over
    the in-memory registry (the [SqliteExtended] branch of
    [_resolve_workspace_member_artifact] belongs to the sqlite registry).

    Human-readable [detail] texts are left out of the results.  The [uuid4()] ids
    are explicit: [checkpoint_id] of a new manifest, and [mint path], the id drawn
    when the member [path] is registered for the first time in a call (the
    write-set has one entry per path, so one draw per path). *)
From S2P Require Import Prelude Core Registry Service.

Open Scope Z_scope.
Open Scope string_scope.

(** ** Closed vocabularies *)
Definition RESTORE_MEMBER_OUTCOMES : list string :=
  ["restored"; "converged"; "conflict"; "target_lost"; "forward_only_skipped"; "held_unconfirmed"].
Definition RESTORE_STATUSES : list string := ["none"; "in_progress"; "registered"; "concluded"].
Definition PIN_STATES : list string := ["unpinned"; "held"; "pin_unavailable"; "released"].
Definition RESTORE_TIERS : list string := ["restorable"; "restorable-unpinned"; "forward_only"].

(** [str.strip()] leaves nothing: every character is white space.  The string is
    UTF-8, so the Unicode white space beyond ASCII is matched by its bytes. *)
Definition ascii_space (n : N) : bool :=
  ((9 <=? n) && (n <=? 13) || (28 <=? n) && (n <=? 32))%N%bool.

Fixpoint blank_bytes (l : list N) : bool :=
  match l with
  | [] => true
  | b :: l' =>
    if ascii_space b then blank_bytes l'
    else match l' with
         | c :: l2 =>
           if ((b =? 194) && ((c =? 133) || (c =? 160)))%N%bool then blank_bytes l2
           else match l2 with
                | d :: l3 =>
                  if ((b =? 225) && (c =? 154) && (d =? 128)
                      || (b =? 226) && (c =? 128) &&
                         ((128 <=? d) && (d <=? 138) || (d =? 168) || (d =? 169) || (d =? 175))
                      || (b =? 226) && (c =? 129) && (d =? 159)
                      || (b =? 227) && (c =? 128) && (d =? 128))%N%bool
                  then blank_bytes l3 else false
                | [] => false
                end
         | [] => false
         end
  end.

Definition is_blank (s : string) : bool :=
  blank_bytes (map Ascii.N_of_ascii (String.list_ascii_of_string s)).

(** ** Manifests *)
Definition create_workspace_checkpoint (checkpoint_id name : string) (owner : option UUID)
    (members : list CheckpointMember) (window_min window_max tick : Z) (abort : bool)
    : RM CheckpointRecord :=
  if is_blank name then raise (ValueError "create_workspace_checkpoint requires a non-empty name")
  else match owner with
  | None => raise (ValueError "create_workspace_checkpoint requires an owner")
  | Some owner =>
    if decide (members = []) then raise (ValueError "create_workspace_checkpoint requires at least one member row")
    else if decide (window_max < window_min) then raise (ValueError "inverted capture window")
    else
      let record := mkCheckpoint checkpoint_id name (Some owner) tick tick window_min window_max
                      "none" None 0 in
      abort_guard abort (create_checkpoint record members) ;;
      mret record
  end.

Definition set_workspace_checkpoint_restore_status (id status : string) (updated_at : Z) (abort : bool)
    : RM unit :=
  if negb (bool_decide (status ∈ RESTORE_STATUSES)) then raise (ValueError "unknown restore status")
  else abort_guard abort (set_checkpoint_restore_status id status updated_at).

Definition set_workspace_checkpoint_member_restore (id path : string) (restore_outcome : option string)
    (deleted_at_restore : option Z) (abort : bool) : RM unit :=
  if (match restore_outcome with
      | Some o => negb (bool_decide (o ∈ RESTORE_MEMBER_OUTCOMES))
      | None => false
      end)
  then raise (ValueError "unknown restore outcome")
  else abort_guard abort (set_checkpoint_member_restore id path restore_outcome deleted_at_restore).

Definition set_workspace_checkpoint_member_pin (id path pin_state : string)
    (restore_tier : option string) (abort : bool) : RM unit :=
  if negb (bool_decide (pin_state ∈ PIN_STATES)) then raise (ValueError "unknown pin state")
  else if (match restore_tier with
           | Some t => negb (bool_decide (t ∈ RESTORE_TIERS))
           | None => false
           end)
  then raise (ValueError "unknown restore tier")
  else abort_guard abort (set_checkpoint_member_pin id path pin_state restore_tier).

Definition adjust_workspace_checkpoint_pin_refcount (id : string) (delta : Z) (abort : bool) : RM Z :=
  abort_guard abort (adjust_checkpoint_pin_refcount id delta).

(** ** Registering a restore *)
Record WorkspaceRestoreWrite := mkRestoreWrite {
  rw_member_path : string;
  rw_fingerprint : string;
}.

Inductive RegistrationStatus : Type :=
| WORKSPACE_REGISTRATION_COMMITTED
| WORKSPACE_REGISTRATION_EMPTY
| WORKSPACE_REGISTRATION_REFUSED.

Record WorkspaceRegistrationResult := mkRegistrationResult {
  wr_checkpoint_id : string;
  wr_status : RegistrationStatus;
  wr_versions : list (string * Z);
  wr_skipped : list string;
  wr_signals : list InvalidationSignal;
  wr_refused : list (string * ConflictDetail);
}.

(** The validation loop over the write-set. *)
Fixpoint validate_writes (writes : list WorkspaceRestoreWrite) (seen : list string) : outcome exn unit :=
  match writes with
  | [] => Ok tt
  | w :: writes' =>
    if is_blank (rw_member_path w) then Raise (ValueError "register_workspace_restore: blank member_path")
    else if is_blank (rw_fingerprint w)
    then Raise (ValueError "register_workspace_restore: member carries no fingerprint")
    else if bool_decide (rw_member_path w ∈ seen)
    then Raise (ValueError "register_workspace_restore: duplicate member_path")
    else validate_writes writes' (rw_member_path w :: seen)
  end.

(** The first artifact of that name, in registration order. *)
Definition find_by_name (r : Registry) (name : string) : option (UUID * Artifact) :=
  head (omap (λ a, art ← get_artifact r a;
                   if String.eqb (art_name art) name then Some (a, art) else None) (artifact_ids r)).

Definition resolve_workspace_member_artifact (mint : string → UUID) (path fingerprint : string) : RM UUID :=
  found ← gets (λ r, find_by_name r path);
  match found with
  | Some (a, _) => mret a
  | None =>
    register_artifact (mkArtifact (mint path) path 1 (Some fingerprint) None []) (BStr "") ;;
    mret (mint path)
  end.

Record registration_plan := mkPlan {
  rp_skipped : list string;
  rp_batch : list (UUID * CommitAllEntry);
  rp_path_by_artifact : list (UUID * string);
  rp_pre_versions : list (UUID * Z);
}.

Definition plan_write (mint : string → UUID) (p : registration_plan) (w : WorkspaceRestoreWrite)
    : RM registration_plan :=
  a ← resolve_workspace_member_artifact mint (rw_member_path w) (rw_fingerprint w);
  artifact ← gets (λ r, get_artifact r a);
  match artifact with
  | None => raise (CoherenceError "register_workspace_restore: artifact vanished mid-registration")
  | Some artifact =>
    if decide (art_content_hash artifact = Some (rw_fingerprint w))
    then mret (mkPlan (rp_skipped p ++ [rw_member_path w])%list (rp_batch p) (rp_path_by_artifact p)
                 (rp_pre_versions p))
    else mret (mkPlan (rp_skipped p)
                 (dset (rp_batch p) a
                    (mkCommitAllEntry (art_version artifact) (rw_fingerprint w) None None))
                 (dset (rp_path_by_artifact p) a (rw_member_path w))
                 (dset (rp_pre_versions p) a (art_version artifact)))
  end.

(** [path_by_artifact[art_id]]. *)
Definition path_of (p : registration_plan) (a : UUID) : outcome exn string :=
  match dget (rp_path_by_artifact p) a with
  | Some path => Ok path
  | None => Raise (KeyError "path_by_artifact")
  end.

Definition register_workspace_restore (mint : string → UUID) (checkpoint_id : string) (controller : UUID)
    (writes : list WorkspaceRestoreWrite) (tick : Z) (abort : bool) : RM WorkspaceRegistrationResult :=
  known ← gets (λ r, get_checkpoint r checkpoint_id);
  match known with
  | None => raise (CheckpointUnknown checkpoint_id)
  | Some _ =>
    of_outcome (validate_writes writes []) ;;
    if decide (length writes = 0%nat)
    then mret (mkRegistrationResult checkpoint_id WORKSPACE_REGISTRATION_EMPTY [] [] [] [])
    else
      plan ← foldm (plan_write mint) writes (mkPlan [] [] [] []);
      if decide (length (rp_batch plan) = 0%nat)
      then mret (mkRegistrationResult checkpoint_id WORKSPACE_REGISTRATION_EMPTY [] (rp_skipped plan) [] [])
      else
        out ← service_commit_all controller (rp_batch plan) tick abort;
        match out with
        | inr per_artifact =>
          refused ← foldm (λ d (kv : UUID * ConflictDetail),
                      path ← of_outcome (path_of plan kv.1); mret (dset d path kv.2)) per_artifact [];
          mret (mkRegistrationResult checkpoint_id WORKSPACE_REGISTRATION_REFUSED []
                  (rp_skipped plan) [] refused)
        | inl (result, signals) =>
          versions ← foldm (λ d (kv : UUID * Z),
            pre ← of_outcome (match dget (rp_pre_versions plan) kv.1 with
                              | Some v => Ok v
                              | None => Raise (KeyError "pre_versions")
                              end);
            of_outcome (check_monotonic_version pre kv.2) ;;
            path ← of_outcome (path_of plan kv.1);
            mret (dset d path kv.2)) (mcr_versions result) [];
          mret (mkRegistrationResult checkpoint_id WORKSPACE_REGISTRATION_COMMITTED versions
                  (rp_skipped plan) signals [])
        end
  end.

Definition workspace_member_registered (r : Registry) (path fingerprint : string) : bool :=
  match find_by_name r path with
  | Some (_, art) => bool_decide (art_content_hash art = Some fingerprint)
  | None => false
  end.
