(* ===== verification/ManifestFacts.v ===== *)
(** The invariant of the workspace-checkpoint manifests, and that each manifest
    operation keeps it. *)
From S2P Require Import Prelude Core Registry RegistryFacts Service Checkpoints.

Open Scope Z_scope.
Open Scope string_scope.

(** A manifest and its member rows, as stored. *)
Record manifest_ok (r : Registry) (id : string) (cp : CheckpointRecord) : Prop := {
  mf_id : cp_checkpoint_id cp = id;
  mf_owner : is_Some (cp_owner cp);
  mf_window : cp_window_min cp <= cp_window_max cp;
  mf_status : cp_restore_status cp ∈ RESTORE_STATUSES;
  mf_refcount : 0 <= cp_pin_refcount cp;
  mf_members : ∃ ms, dget (checkpoint_members r) id = Some ms ∧ ms ≠ [] ∧ dict_wf ms ∧
    ∀ p m, dget ms p = Some m → cm_member_path m = p;
}.

Definition manifests_ok (r : Registry) : Prop :=
  ∀ id cp, dget (checkpoints r) id = Some cp → manifest_ok r id cp.

Lemma manifests_ok_eq r r' : checkpoints r' = checkpoints r → checkpoint_members r' = checkpoint_members r →
  manifests_ok r → manifests_ok r'.
Proof.
  intros Hc Hm Hok id cp. rewrite Hc. intros Hid. destruct (Hok id cp Hid). split; try done. by rewrite Hm.
Qed.

(** Replacing the record of a stored manifest, or a member row. *)
Lemma manifests_ok_record r id cp' : manifests_ok r →
  (∀ cp, dget (checkpoints r) id = Some cp → manifest_ok r id cp → manifest_ok r id cp') →
  is_Some (dget (checkpoints r) id) →
  manifests_ok (r <| checkpoints ::= λ d, dset d id cp' |>).
Proof.
  intros Hok Hnew [cp Hcp] id1 cp1. simpl. rewrite dget_dset. case_decide as Hid; [subst id1|].
  - intros [= <-]. destruct (Hnew cp Hcp (Hok _ _ Hcp)). by split.
  - intros H1. destruct (Hok _ _ H1). by split.
Qed.

Lemma manifests_ok_member r id path f : manifests_ok r → (∀ m, cm_member_path (f m) = cm_member_path m) →
  manifests_ok (update_member id path f r).2.
Proof.
  intros Hok Hf. unfold update_member. set (ms0 := default [] (dget (checkpoint_members r) id)).
  destruct (dget ms0 path) as [m|] eqn:Em; [|done]. intros id1 cp1 H1. destruct (Hok _ _ H1) as [Hi ? ? ? ? (ms & Hms & Hne & Hwf & Hp)].
  split; try done. simpl. rewrite dget_dset. case_decide as Hid; [clear Hi; subst id1|by eauto].
  assert (ms0 = ms) as -> by (unfold ms0; by rewrite Hms).
  eexists. split_and!; [done| | |].
  - intros Hx. apply Hne. destruct ms as [|[p0 m0] ms]; [done|]. simpl in Hx. by destruct (decide (p0 = path)).
  - by apply dict_wf_dset.
  - intros p m1. rewrite dget_dset. case_decide; [subst p; intros [= <-]; rewrite Hf; by apply Hp|apply Hp].
Qed.

Lemma index_members_spec members d by_path : index_members members d = Ok by_path → dict_wf d →
  (∀ p m, dget d p = Some m → cm_member_path m = p) →
  dict_wf by_path ∧ (∀ p m, dget by_path p = Some m → cm_member_path m = p) ∧
  by_path.*2 = (d.*2 ++ members)%list.
Proof.
  revert d. induction members as [|m members IH]; intros d; simpl.
  { intros [= <-] Hwf Hp. by rewrite app_nil_r. }
  destruct (dmem d (cm_member_path m)) eqn:Em; [done|]. intros Hrun Hwf Hp.
  assert (dget d (cm_member_path m) = None) as Hn by (unfold dmem in Em; by destruct (dget d (cm_member_path m))).
  destruct (IH _ Hrun) as (? & ? & Hall); [by apply dict_wf_dset| |].
  - intros p m1. rewrite dget_dset. case_decide; [subst; by intros [= <-]|apply Hp].
  - split_and!; [done..|]. rewrite Hall, dset_absent by done. rewrite fmap_app, <-app_assoc. done.
Qed.

(** ** The operations *)
Lemma create_keeps_manifests id name owner members wmin wmax tick abort r : manifests_ok r →
  manifests_ok (create_workspace_checkpoint id name owner members wmin wmax tick abort r).2.
Proof.
  intros Hok. unfold create_workspace_checkpoint. destruct (is_blank name); [done|].
  destruct owner as [owner|]; [|done]. destruct (decide (members = [])) as [|Hne]; [done|].
  destruct (decide (wmax < wmin)) as [|Hw]; [done|]. unfold abort_guard. destruct abort; [done|].
  unfold create_checkpoint, mbind, proc_bind. unfold gets, of_outcome. cbn [cp_owner cp_checkpoint_id].
  destruct (dmem (checkpoints r) id) eqn:Ed; [done|].
  destruct (index_members members []) as [by_path|e] eqn:Ei; [|done]. simpl.
  destruct (index_members_spec _ _ _ Ei dict_wf_nil ltac:(done)) as (Hwf & Hp & Hall).
  intros id1 cp1. simpl. rewrite dget_dset. case_decide as Hid; [subst id1; intros [= <-]|].
  - split; simpl; [done|by eexists|lia|set_solver|lia|]. rewrite dget_dset_eq. eexists. split_and!; [done| |done..].
    intros ->. by destruct members.
  - intros H1. destruct (Hok _ _ H1). split; try done. simpl. by rewrite dget_dset_ne.
Qed.

Lemma status_keeps_manifests id status t abort r : manifests_ok r →
  manifests_ok (set_workspace_checkpoint_restore_status id status t abort r).2.
Proof.
  intros Hok. unfold set_workspace_checkpoint_restore_status, abort_guard. case_bool_decide as Hs; [|done].
  destruct abort; [done|]. unfold set_checkpoint_restore_status, mbind, proc_bind, require_checkpoint. simpl.
  destruct (dget (checkpoints r) id) as [cp|] eqn:Ec; [|done]. simpl. apply manifests_ok_record; [done| |by eexists].
  intros cp0. rewrite Ec. intros [= <-] []. by split.
Qed.

Lemma refcount_keeps_manifests id delta abort r : manifests_ok r →
  manifests_ok (adjust_workspace_checkpoint_pin_refcount id delta abort r).2.
Proof.
  intros Hok. unfold adjust_workspace_checkpoint_pin_refcount, abort_guard. destruct abort; [done|].
  unfold adjust_checkpoint_pin_refcount, mbind, proc_bind, require_checkpoint.
  destruct (dget (checkpoints r) id) as [cp|] eqn:Ec; [|done]. case_decide as Hd; [done|]. simpl.
  apply manifests_ok_record; [done| |by eexists]. intros cp0. rewrite Ec. intros [= <-] []. split; try done. simpl. lia.
Qed.

Lemma member_restore_keeps_manifests id path o d abort r : manifests_ok r →
  manifests_ok (set_workspace_checkpoint_member_restore id path o d abort r).2.
Proof.
  intros Hok. unfold set_workspace_checkpoint_member_restore, abort_guard, set_checkpoint_member_restore.
  destruct (match o with Some o => _ | None => false end); [done|]. destruct abort; [done|].
  by apply manifests_ok_member.
Qed.

Lemma member_pin_keeps_manifests id path p t abort r : manifests_ok r →
  manifests_ok (set_workspace_checkpoint_member_pin id path p t abort r).2.
Proof.
  intros Hok. unfold set_workspace_checkpoint_member_pin, abort_guard, set_checkpoint_member_pin.
  destruct (negb _); [done|]. destruct (match t with Some t => _ | None => false end); [done|].
  destruct abort; [done|]. by apply manifests_ok_member.
Qed.
