(* ===== verification/ServiceFacts.v ===== *)
(** Facts on the coordinator service: for each operation, the record it leaves on
    every path and the value it returns. *)
From S2P Require Import Prelude Core Hashing Retention Registry RegistryFacts CommitFacts Service.

Open Scope Z_scope.
Open Scope string_scope.

(** ** Steps *)
Section steps.
Context (a : UUID) (r0 : Registry).

Lemma at_record rec r : at_rec a r0 rec r → get_record r a = Some rec.
Proof. apply ar_rec. Qed.

Lemma at_artifact rec r : at_rec a r0 rec r → get_artifact r a = Some (artifact rec).
Proof. intros H. unfold get_artifact. by rewrite (at_record _ _ H). Qed.
Lemma at_content rec r : at_rec a r0 rec r → get_content r a = Some (content rec).
Proof. intros H. unfold get_content. by rewrite (at_record _ _ H). Qed.
Lemma at_state_map rec r : at_rec a r0 rec r → get_state_map r a = state_by_agent rec.
Proof. intros H. unfold get_state_map. by rewrite (at_record _ _ H). Qed.
Lemma at_agent_state rec r ag : at_rec a r0 rec r →
  get_agent_state r a ag = dget (state_by_agent rec) ag.
Proof. intros H. unfold get_agent_state. by rewrite (at_record _ _ H). Qed.
Lemma at_transient rec r ag : at_rec a r0 rec r →
  get_agent_transient r a ag = dget (transient_by_agent rec) ag.
Proof. intros H. unfold get_agent_transient. by rewrite (at_record _ _ H). Qed.
Lemma at_transient_tick rec r ag : at_rec a r0 rec r →
  get_transient_tick r a ag = dget (transient_tick_by_agent rec) ag.
Proof. intros H. unfold get_transient_tick. by rewrite (at_record _ _ H). Qed.

Lemma triple_require_artifact {B} rec (k : Artifact → RM B) Q X :
  triple (at_rec a r0 rec) (k (artifact rec)) Q X →
  triple (at_rec a r0 rec) (x ← require_artifact a; k x) Q X.
Proof.
  intros Hk r Hr. unfold mbind, proc_bind, require_artifact. rewrite (at_artifact _ _ Hr). by apply Hk.
Qed.

Lemma triple_validate {B} rec (k : RM B) Q X : rec_ok rec →
  triple (at_rec a r0 rec) k Q X →
  triple (at_rec a r0 rec) (validate_single_writer a ;; k) Q X.
Proof.
  intros [Hok _] Hk r Hr. unfold mbind, proc_bind, validate_single_writer.
  rewrite (at_state_map _ _ Hr).
  rewrite (proj2 (check_single_writer_spec _ (rok_states _ Hok))); [by apply Hk|].
  intros p q sp sq Hp Hq Hsp Hsq. apply (rok_excl _ Hok); unfold st.
  - by rewrite Hp.
  - rewrite Hq. by apply m_or_e_non_invalid.
Qed.
End steps.

Lemma in_m_or_e_st rec ag : in_m_or_e (dget (state_by_agent rec) ag) = m_or_e (st rec ag).
Proof. unfold st. by destruct (dget _ ag). Qed.

Lemma other_holders_peers rec ag : other_holders (state_by_agent rec) ag = cas_peers rec ag.
Proof. done. Qed.

(** Under the invariant the other holders are all shared copies, or one write grant. *)
Lemma other_holders_cases rec ag : rec_core rec →
  Forall (λ kv, m_or_e kv.2 = false) (cas_peers rec ag) ∨
  ∃ p s, cas_peers rec ag = [(p, s)] ∧ m_or_e s = true.
Proof.
  intros Hok. pose proof (rok_states _ Hok) as Hwf.
  destruct (decide (Forall (λ kv : UUID * MESIState, m_or_e kv.2 = false) (cas_peers rec ag)))
    as [|Hn]; [by left|right].
  apply not_Forall_Exists, Exists_exists in Hn as ([p s] & Hin & Hme); [|apply _].
  simpl in Hme. apply not_false_is_true in Hme. exists p, s. split; [|done].
  assert (∀ kv, kv ∈ cas_peers rec ag → kv = (p, s)) as Hall.
  { apply elem_cas_peers in Hin as (_ & Hp & _); [|done].
    intros [q t] (_ & Hq & Ht)%elem_cas_peers; [|done].
    assert (p = q) as <-; [|congruence]. apply (rok_excl _ Hok); unfold st; [by rewrite Hp|by rewrite Hq]. }
  assert (NoDup (cas_peers rec ag)) as Hnd.
  { eapply NoDup_fmap_1. by apply (dict_wf_filter _ (state_by_agent rec)). }
  destruct (cas_peers rec ag) as [|kv l]; [set_solver|].
  rewrite (Hall kv) by set_solver. f_equal. destruct l as [|kv' l]; [done|]. exfalso.
  apply NoDup_cons in Hnd as [Hk _]. apply Hk. rewrite (Hall kv), (Hall kv'); set_solver.
Qed.

(** ** [fetch] *)
Definition fetch_grant (rec : ArtifactRecord) (ag : UUID) : MESIState :=
  if decide (cas_peers rec ag = []) then EXCLUSIVE else SHARED.

(** The record a fetch leaves. *)
Definition fetch_rec (ag : UUID) (tick : Z) (rec : ArtifactRecord) : ArtifactRecord :=
  let grant := fetch_grant rec ag in
  let rec1 := with_transient ag (if decide (grant = EXCLUSIVE) then IED else ISG) tick rec in
  let rec2 := foldl (λ rec' kv, if m_or_e kv.2 then apply_transition kv.1 SHARED "fetch" tick rec' else rec')
                rec1 (cas_peers rec ag) in
  without_transient ag (apply_transition ag grant "fetch" tick rec2).

Lemma downgrade_skip tick rec l : Forall (λ kv : UUID * MESIState, m_or_e kv.2 = false) l →
  foldl (λ rec' kv, if m_or_e kv.2 then apply_transition kv.1 SHARED "fetch" tick rec' else rec') rec l = rec.
Proof. revert rec. induction l as [|kv l IH]; intros rec; simpl; [done|]. intros [-> ?]%Forall_cons. by apply IH. Qed.

Lemma for_each_skip a tick l : Forall (λ kv : UUID * MESIState, m_or_e kv.2 = false) l →
  ∀ r, for_each l (λ kv, if m_or_e kv.2 then set_agent_state a kv.1 SHARED "fetch" tick None else mret tt) r
    = (Ok tt, r).
Proof.
  induction l as [|kv l IH]; intros Hl r; [done|]. apply Forall_cons in Hl as [Hkv Hl].
  cbn [for_each]. unfold mbind, proc_bind. rewrite Hkv. by apply IH.
Qed.

Definition downgraded (ag : UUID) (tick : Z) (rec1 rec : ArtifactRecord) : ArtifactRecord :=
  foldl (λ rec' kv, if m_or_e kv.2 then apply_transition kv.1 SHARED "fetch" tick rec' else rec')
    rec1 (cas_peers rec ag).

(** The downgrade loop turns the write grant of another agent, if there is one, into
    a shared copy and touches nothing else of the states. *)
Lemma downgraded_cases ag tick rec rec1 : rec_ok rec →
  (∀ q, q ≠ ag → m_or_e (st rec q) = false) ∧ downgraded ag tick rec1 rec = rec1 ∨
  ∃ p, p ≠ ag ∧ m_or_e (st rec p) = true ∧ cas_peers rec ag = [(p, st rec p)] ∧
    downgraded ag tick rec1 rec = apply_transition p SHARED "fetch" tick rec1.
Proof.
  intros [Hok _]. pose proof (rok_states _ Hok) as Hwf. unfold downgraded.
  destruct (other_holders_cases rec ag Hok) as [Hall|(p & s & Heq & Hs)]; [left|right].
  - split; [|by apply downgrade_skip]. intros q Hq. apply not_true_is_false. intros Hme.
    assert (q ∈ (cas_peers rec ag).*1) as Hin.
    { apply elem_cas_peers_keys; [done|]. split; [done|by apply m_or_e_non_invalid]. }
    apply list_elem_of_fmap in Hin as ([q' s] & -> & Hin). rewrite Forall_forall in Hall.
    specialize (Hall _ Hin). apply elem_cas_peers in Hin as (_ & Hd & _); [|done].
    unfold st in Hme. simpl in *. rewrite Hd in Hme. simpl in Hme. congruence.
  - assert ((p, s) ∈ cas_peers rec ag) as Hin by (rewrite Heq; set_solver).
    apply elem_cas_peers in Hin as (Hp & Hd & _); [|done].
    assert (st rec p = s) as Hst by (unfold st; by rewrite Hd).
    exists p. rewrite Hst, Heq. simpl. by rewrite Hs.
Qed.

Lemma with_transient_st ag t tick rec p : st (with_transient ag t tick rec) p = st rec p.
Proof. done. Qed.

Lemma fetch_downgrade_legal p t ag tick rec : rec_ok rec → m_or_e (st rec p) = true →
  legal p SHARED (with_transient ag t tick rec).
Proof.
  intros [Hok _] Hp. split; [done|]. intros _ q Hq. rewrite with_transient_st.
  apply not_true_is_false. intros Hme. apply Hq.
  symmetry. apply (rok_excl _ Hok); [done|by apply m_or_e_non_invalid].
Qed.

(** The states after the downgrade loop. *)
Lemma downgraded_st ag t tick rec q : rec_ok rec → q ≠ ag →
  st (downgraded ag tick (with_transient ag t tick rec) rec) q =
  if non_invalid (st rec q) then SHARED else INVALID.
Proof.
  intros Hok Hq. destruct (downgraded_cases ag tick rec (with_transient ag t tick rec) Hok)
    as [[Hno ->]|(p & Hp & Hme & _ & ->)].
  - rewrite with_transient_st. specialize (Hno q Hq). by destruct (st rec q).
  - rewrite st_transition, with_transient_st. case_decide as Heq.
    + subst. by rewrite m_or_e_non_invalid.
    + destruct (non_invalid (st rec q)) eqn:En; [|by destruct (st rec q)].
      exfalso. apply Heq. by apply (rok_excl _ (rok_core _ Hok)).
Qed.

Lemma downgraded_ok ag t tick rec : rec_ok rec →
  rec_ok (downgraded ag tick (with_transient ag t tick rec) rec).
Proof.
  intros Hok. destruct (downgraded_cases ag tick rec (with_transient ag t tick rec) Hok)
    as [[_ ->]|(p & _ & Hme & _ & ->)]; [by apply with_transient_ok|].
  apply transition_keeps_ok; [by apply with_transient_ok|by apply fetch_downgrade_legal].
Qed.

Lemma downgraded_artifact ag tick rec1 rec : rec_ok rec →
  artifact (downgraded ag tick rec1 rec) = artifact rec1.
Proof.
  intros Hok. destruct (downgraded_cases ag tick rec rec1 Hok) as [[_ ->]|(p & _ & _ & _ & ->)]; [done|].
  apply transition_artifact.
Qed.

Lemma downgraded_evolves pins X ag t tick rec : rec_ok rec →
  rec_evolves pins X rec (downgraded ag tick (with_transient ag t tick rec) rec).
Proof.
  intros Hok. etrans; [apply (with_transient_evolves _ _ ag t tick)|].
  destruct (downgraded_cases ag tick rec (with_transient ag t tick rec) Hok)
    as [[_ ->]|(p & _ & Hme & _ & ->)]; [done|].
  apply transition_evolves. by rewrite held_captures_nothing.
Qed.

Lemma no_peers rec ag : rec_core rec → cas_peers rec ag = [] ↔ ∀ q, q ≠ ag → st rec q = INVALID.
Proof.
  intros Hok. pose proof (elem_cas_peers_keys rec ag) as Hin. split.
  - intros Heq q Hq. destruct (st rec q) eqn:Es; [..|done]; exfalso;
      (assert (q ∈ (cas_peers rec ag).*1) as Hq' by (apply Hin; [apply Hok|by rewrite Es]));
      rewrite Heq in Hq'; set_solver.
  - intros Hall. destruct (cas_peers rec ag) as [|[q s] l] eqn:Eq; [done|]. exfalso.
    destruct (proj1 (Hin q (rok_states _ Hok))) as [Hne Hs]; [set_solver|]. by rewrite Hall in Hs.
Qed.

Lemma fetch_final_legal ag t tick rec : rec_ok rec →
  legal ag (fetch_grant rec ag) (downgraded ag tick (with_transient ag t tick rec) rec).
Proof.
  intros Hok. unfold fetch_grant. split.
  - case_decide as Hp; [|done]. rewrite no_peers in Hp by apply Hok. intros _ q Hq.
    rewrite downgraded_st, Hp by done. done.
  - intros _ q Hq. rewrite downgraded_st by done. by destruct (non_invalid _).
Qed.

Lemma fetch_rec_ok ag tick rec : rec_ok rec → rec_ok (fetch_rec ag tick rec).
Proof.
  intros Hok. apply without_transient_ok.
  apply transition_keeps_ok; [by apply downgraded_ok|by apply fetch_final_legal].
Qed.

Lemma fetch_rec_evolves pins ag tick rec : rec_ok rec →
  rec_evolves pins (eq ag) rec (fetch_rec ag tick rec).
Proof.
  intros Hok. etrans; [|apply without_transient_evolves].
  etrans; [by eapply downgraded_evolves|]. by apply transition_evolves.
Qed.

Lemma triple_fetch a r0 rec ag tick : rec_ok rec → art_id (artifact rec) = a →
  triple (at_rec a r0 rec) (fetch (mkFetchRequest a ag tick))
    (λ res r, res = mkFetchResponse a (version rec) (content rec) (fetch_grant rec ag) ∧
              at_rec a r0 (fetch_rec ag tick rec) r)
    (exc_ok a r0 (rec_evolves (live_pins_for_artifact r0 a) (eq ag) rec)).
Proof.
  intros Hok Hid. unfold fetch. cbn [fq_artifact_id fq_requesting_agent_id fq_requested_at_tick].
  apply triple_require_artifact. eapply triple_gets; [intros r Hr; by apply (at_content a r0)|].
  cbv beta iota. eapply triple_gets; [intros r Hr; by apply (at_state_map a r0)|]. cbv beta zeta.
  rewrite other_holders_peers. fold (fetch_grant rec ag).
  set (t := if decide (fetch_grant rec ag = EXCLUSIVE) then IED else ISG).
  pose proof (downgraded_ok ag t tick rec Hok) as Hok2.
  pose proof (downgraded_evolves (live_pins_for_artifact r0 a) (eq ag) ag t tick rec Hok) as Hev.
  eapply triple_then; [apply triple_set_agent_transient|].
  eapply (triple_then_exc _ _ _ (at_rec a r0 (downgraded ag tick (with_transient ag t tick rec) rec))).
  { destruct (downgraded_cases ag tick rec (with_transient ag t tick rec) Hok)
      as [[Hno Heq]|(p & Hp & Hme & Hpeers & Heq)]; rewrite Heq.
    - intros r Hr. rewrite for_each_skip; [done|]. by apply peers_not_me; [apply Hok|].
    - rewrite Hpeers. cbn [for_each fst snd]. rewrite Hme. rewrite Heq in Hok2, Hev.
      eapply triple_then_exc; [apply triple_set_agent_state|by apply triple_ret]; [done| |done].
      by rewrite transition_artifact. }
  eapply triple_then_exc; [apply triple_set_agent_state|].
  { apply transition_keeps_ok; [done|by apply fetch_final_legal]. }
  { by rewrite transition_artifact, downgraded_artifact. }
  { etrans; [exact Hev|]. by apply transition_evolves. }
  eapply triple_then; [apply triple_clear_agent_transient|].
  apply triple_validate; [by apply (fetch_rec_ok ag tick rec)|]. by apply triple_ret.
Qed.

(** ** Revoking the peers *)
Definition revoke_rec (trigger : string) (tick : Z) (rec : ArtifactRecord) (kv : UUID * MESIState)
    : ArtifactRecord :=
  apply_transition kv.1 INVALID trigger tick
    (match invalidation_transient_for_state kv.2 with
     | Some t => with_transient kv.1 t tick rec
     | None => rec
     end).

Definition revoked (ag : UUID) (trigger : string) (tick : Z) (rec : ArtifactRecord) : ArtifactRecord :=
  foldl (revoke_rec trigger tick) rec (cas_peers rec ag).

Lemma revoke_rec_ok trigger tick rec kv : rec_ok rec → rec_ok (revoke_rec trigger tick rec kv).
Proof.
  intros Hok. apply transition_keeps_ok; [|apply legal_invalid].
  by destruct kv as [q []]; [apply with_transient_ok..|].
Qed.

Lemma revoke_rec_evolves pins X trigger tick rec kv :
  rec_evolves pins X rec (revoke_rec trigger tick rec kv).
Proof.
  etrans; [|apply transition_evolves; by rewrite invalid_captures_nothing].
  by destruct kv as [q []]; [apply with_transient_evolves..|].
Qed.

Lemma revoke_rec_artifact trigger tick rec kv : artifact (revoke_rec trigger tick rec kv) = artifact rec.
Proof. unfold revoke_rec. rewrite transition_artifact. by destruct kv as [q []]. Qed.

Lemma revoke_rec_st trigger tick rec kv p :
  st (revoke_rec trigger tick rec kv) p = if decide (kv.1 = p) then INVALID else st rec p.
Proof. unfold revoke_rec. rewrite st_transition. by destruct kv as [q []]. Qed.

(** The fields that revoking with a trigger that does not move the epoch keeps. *)
Lemma revoke_rec_keeps trigger tick rec kv : trigger ∉ EPOCH_BUMP_TRIGGERS →
  content (revoke_rec trigger tick rec kv) = content rec ∧
  owner_generation (revoke_rec trigger tick rec kv) = owner_generation rec ∧
  read_generation_by_agent (revoke_rec trigger tick rec kv) = read_generation_by_agent rec ∧
  version_history (revoke_rec trigger tick rec kv) = version_history rec ∧
  version_captured_at (revoke_rec trigger tick rec kv) = version_captured_at rec.
Proof.
  intros Ht. unfold revoke_rec.
  rewrite transition_content, transition_generation, transition_readgen, transition_history, transition_captured.
  unfold bumps_epoch, captures_claim. rewrite (bool_decide_eq_false_2 (trigger ∈ _)) by done.
  rewrite !andb_false_r. simpl. destruct kv as [q []]; simpl; rewrite Z.add_0_r; done.
Qed.

Section revoked.
Context (trigger : string) (tick : Z).

Lemma fold_revoke_ok l rec : rec_ok rec → rec_ok (foldl (revoke_rec trigger tick) rec l).
Proof. revert rec. induction l as [|kv l IH]; intros rec Hok; simpl; [done|]. by apply IH, revoke_rec_ok. Qed.

Lemma fold_revoke_evolves pins X l rec :
  rec_evolves pins X rec (foldl (revoke_rec trigger tick) rec l).
Proof.
  revert rec. induction l as [|kv l IH]; intros rec; simpl; [done|].
  etrans; [apply (revoke_rec_evolves _ _ trigger tick)|apply IH].
Qed.

Lemma fold_revoke_artifact l rec : artifact (foldl (revoke_rec trigger tick) rec l) = artifact rec.
Proof. revert rec. induction l as [|kv l IH]; intros rec; simpl; [done|]. by rewrite IH, revoke_rec_artifact. Qed.

Lemma fold_revoke_st l rec p :
  st (foldl (revoke_rec trigger tick) rec l) p = if decide (p ∈ l.*1) then INVALID else st rec p.
Proof.
  revert rec. induction l as [|kv l IH]; intros rec; cbn [foldl]; [done|].
  rewrite IH, revoke_rec_st. destruct kv. simpl. repeat case_decide; set_solver.
Qed.

Lemma fold_revoke_keeps l rec : trigger ∉ EPOCH_BUMP_TRIGGERS →
  let rec' := foldl (revoke_rec trigger tick) rec l in
  content rec' = content rec ∧ owner_generation rec' = owner_generation rec ∧
  read_generation_by_agent rec' = read_generation_by_agent rec ∧
  version_history rec' = version_history rec ∧ version_captured_at rec' = version_captured_at rec.
Proof.
  intros Ht. revert rec. induction l as [|kv l IH]; intros rec; cbn [foldl]; [done|].
  destruct (IH (revoke_rec trigger tick rec kv)) as (-> & -> & -> & -> & ->).
  by apply revoke_rec_keeps.
Qed.

Lemma revoked_st ag rec p : rec_core rec → p ≠ ag → st (revoked ag trigger tick rec) p = INVALID.
Proof.
  intros Hok Hp. unfold revoked. rewrite fold_revoke_st. case_decide as Hin; [done|].
  rewrite elem_cas_peers_keys in Hin by apply Hok.
  destruct (st rec p) eqn:Es; [..|done]; exfalso; by apply Hin.
Qed.

Lemma revoked_st_self ag rec : rec_core rec → st (revoked ag trigger tick rec) ag = st rec ag.
Proof.
  intros Hok. unfold revoked. rewrite fold_revoke_st, decide_False; [done|].
  rewrite elem_cas_peers_keys by apply Hok. naive_solver.
Qed.

Lemma triple_revoke_loop a r0 ag v l sigs rec0 rec X : rec_ok rec → art_id (artifact rec) = a →
  rec_evolves (live_pins_for_artifact r0 a) X rec0 rec →
  triple (at_rec a r0 rec) (foldm (revoke_peer a ag trigger tick v) l sigs)
    (λ res r, res = (sigs ++ replicate (length l) (mkSignal a v tick ag))%list ∧
              at_rec a r0 (foldl (revoke_rec trigger tick) rec l) r)
    (exc_ok a r0 (rec_evolves (live_pins_for_artifact r0 a) X rec0)).
Proof.
  revert sigs rec. induction l as [|kv l IH]; intros sigs rec Hok Hid Hev; cbn [foldm foldl length replicate].
  { apply triple_ret. intros r Hr. by rewrite app_nil_r. }
  eapply (triple_bind _ _ _ (λ s r, s = (sigs ++ [mkSignal a v tick ag])%list ∧
            at_rec a r0 (revoke_rec trigger tick rec kv) r)).
  - unfold revoke_peer.
    eapply (triple_then _ _ _ (at_rec a r0 (match invalidation_transient_for_state kv.2 with
       | Some t => with_transient kv.1 t tick rec | None => rec end))).
    { destruct (invalidation_transient_for_state kv.2);
        [apply triple_set_agent_transient|by apply triple_ret]. }
    eapply triple_then_exc; [apply triple_set_agent_state|by apply triple_ret].
    + by apply (revoke_rec_ok trigger tick rec kv).
    + rewrite <-Hid. f_equal. apply (revoke_rec_artifact trigger tick rec kv).
    + etrans; [exact Hev|]. apply (revoke_rec_evolves _ _ trigger tick rec kv).
  - intros s. apply triple_pure. intros ->.
    eapply triple_conseq; [apply IH|done| |done].
    + by apply revoke_rec_ok.
    + by rewrite revoke_rec_artifact.
    + etrans; [exact Hev|]. apply revoke_rec_evolves.
    + intros s r [-> Hr]. by rewrite <-app_assoc.
Qed.

Lemma triple_revoke_peers a r0 ag v rec0 rec X : rec_ok rec → art_id (artifact rec) = a →
  rec_evolves (live_pins_for_artifact r0 a) X rec0 rec →
  triple (at_rec a r0 rec) (revoke_peers a ag trigger tick v)
    (λ res r, res = replicate (length (cas_peers rec ag)) (mkSignal a v tick ag) ∧
              at_rec a r0 (revoked ag trigger tick rec) r)
    (exc_ok a r0 (rec_evolves (live_pins_for_artifact r0 a) X rec0)).
Proof.
  intros Hok Hid Hev. unfold revoke_peers.
  eapply triple_gets; [intros r Hr; by apply (at_state_map a r0)|]. cbv beta.
  rewrite other_holders_peers. by apply triple_revoke_loop.
Qed.

(** No peer to revoke: nothing happens. *)
Lemma triple_revoke_none a r0 ag v rec : cas_peers rec ag = [] →
  triple (at_rec a r0 rec) (revoke_peers a ag trigger tick v)
    (λ res r, res = [] ∧ at_rec a r0 rec r) (λ _ _, False).
Proof.
  intros Hn. unfold revoke_peers.
  eapply triple_gets; [intros r Hr; by apply (at_state_map a r0)|]. cbv beta.
  rewrite other_holders_peers, Hn. by apply triple_ret.
Qed.
End revoked.

(** ** [write] *)
Definition write_rec (ag : UUID) (tick : Z) (rec : ArtifactRecord) : ArtifactRecord :=
  without_transient ag (apply_transition ag EXCLUSIVE "write" tick
    (revoked ag "write" tick (with_transient ag IED tick rec))).

Lemma write_legal ag tick rec : rec_core rec → legal ag EXCLUSIVE (revoked ag "write" tick rec).
Proof.
  intros Hok. split; intros _ q Hq; by rewrite revoked_st.
Qed.

Lemma write_rec_ok ag tick rec : rec_ok rec → rec_ok (write_rec ag tick rec).
Proof.
  intros Hok. apply (with_transient_ok ag IED tick) in Hok.
  apply without_transient_ok, transition_keeps_ok; [by apply fold_revoke_ok|apply write_legal, Hok].
Qed.

Lemma write_rec_evolves pins ag tick rec : rec_evolves pins (eq ag) rec (write_rec ag tick rec).
Proof.
  etrans; [|apply without_transient_evolves]. etrans; [|by apply transition_evolves].
  etrans; [apply with_transient_evolves|apply fold_revoke_evolves].
Qed.

Lemma triple_write a r0 rec ag tick : rec_ok rec → art_id (artifact rec) = a →
  triple (at_rec a r0 rec) (write_impl ag a tick)
    (λ res r, res = replicate (length (cas_peers rec ag)) (mkSignal a (version rec) tick ag) ∧
              at_rec a r0 (write_rec ag tick rec) r)
    (exc_ok a r0 (rec_evolves (live_pins_for_artifact r0 a) (eq ag) rec)).
Proof.
  intros Hok Hid. unfold write_impl. pose proof (with_transient_ok ag IED tick rec Hok) as Hok1.
  apply triple_require_artifact. eapply triple_then; [apply triple_set_agent_transient|].
  eapply triple_bind; [apply triple_revoke_peers; [done..|apply with_transient_evolves]|].
  intros sigs. apply triple_pure. intros ->.
  pose proof (fold_revoke_ok "write" tick (cas_peers rec ag) _ Hok1) as Hok2.
  eapply triple_then_exc; [apply triple_set_agent_state|].
  - apply transition_keeps_ok; [done|apply write_legal, Hok1].
  - rewrite transition_artifact. unfold revoked. by rewrite fold_revoke_artifact.
  - etrans; [|by apply transition_evolves].
    etrans; [apply with_transient_evolves|apply fold_revoke_evolves].
  - eapply triple_then; [apply triple_clear_agent_transient|].
    apply triple_validate; [by apply (write_rec_ok ag tick rec)|]. by apply triple_ret.
Qed.

(** ** [commit] *)
Definition commit_updated (rec : ArtifactRecord) (content_hash : option string) (size_tokens : option Z)
    : Artifact :=
  let artifact := artifact rec in
  mkArtifact (art_id artifact) (art_name artifact) (art_version artifact + 1)
    (match content_hash with Some h => Some h | None => art_content_hash artifact end)
    (match size_tokens with Some n => Some n | None => art_size_tokens artifact end)
    (art_depends_on artifact).

Definition commit_stored (r : Registry) (now : Z) (ag : UUID) (rec : ArtifactRecord) (new : Artifact)
    (c : string) : ArtifactRecord :=
  (body_stored r now rec (art_version new) (Some (BStr c))) <| artifact := new |> <| last_writer := Some ag |>.

Definition commit_rec (r : Registry) (now : Z) (ag : UUID) (tick : Z) (rec : ArtifactRecord) (c : string)
    (h : option string) (sz : option Z) : ArtifactRecord :=
  without_transient ag (apply_transition ag MODIFIED "commit" tick
    (commit_stored r now ag (with_transient ag MWB tick rec) (commit_updated rec h sz) c)).

Lemma triple_store a r0 rec ag new c : fence_superseded rec ag = false →
  triple (at_rec a r0 rec) (set_artifact_and_content a new (BStr c) (Some ag) (Some ag))
    (λ _ r, ∃ now, at_rec a r0 (commit_stored r0 now ag rec new c) r) (λ _ _, False).
Proof.
  intros Hf. unfold set_artifact_and_content.
  eapply triple_bind; [apply triple_require_record|]. intros x. apply triple_pure. intros Hx. subst x.
  rewrite Hf. eapply (triple_gets _ _ _ (retain_versions r0)); [by intros r [[] _ _ _]|].
  eapply (triple_bind _ _ _ (λ x r, (∃ now, x <| artifact := new |> <| content := BStr c |>
      <| last_writer := Some ag |> = commit_stored r0 now ag rec new c) ∧ at_rec a r0 rec r)).
  - unfold commit_stored, body_stored. destruct (retain_versions r0).
    + eapply triple_conseq; [apply triple_capture|done| |done].
      intros x r [[now ->] Hr]. split; [exists now|done]. unfold captured_record.
      by destruct (retention_policy r0).
    + apply triple_ret. intros r Hr. split; [by exists 0|done].
  - intros x. apply triple_pure. intros [now Hx]. rewrite Hx.
    eapply triple_conseq; [apply triple_put_record|done| |done]. by exists now.
Qed.

Lemma holder_alone rec ag : rec_core rec → m_or_e (st rec ag) = true → cas_peers rec ag = [].
Proof.
  intros Hok Hme. apply no_peers; [done|]. intros q Hq.
  destruct (st rec q) eqn:Es; [..|done]; exfalso; apply Hq; symmetry;
    (apply (rok_excl _ Hok); [done|by rewrite Es]).
Qed.

(** A write grant is never behind the ownership epoch. *)
Lemma holder_not_fenced rec ag : rec_core rec → m_or_e (st rec ag) = true →
  fence_superseded rec ag = false.
Proof.
  intros Hok Hme. unfold fence_superseded. rewrite (rok_readgen _ Hok _ Hme).
  apply bool_decide_eq_false_2. lia.
Qed.

Section commit_stored.
Context (r : Registry) (now : Z) (ag : UUID) (rec : ArtifactRecord) (new : Artifact) (c : string).
Context (Hok : rec_core rec) (Hv : art_version new = version rec + 1).
Local Abbreviation rec' := (commit_stored r now ag rec new c).

Lemma commit_stored_st p : st rec' p = st rec p.
Proof. unfold st, commit_stored. simpl. by rewrite stored_states. Qed.

Lemma commit_stored_core : rec_core rec'.
Proof using Hok Hv.
  assert (version rec' = version rec + 1) as Hver by (unfold version; simpl; exact Hv).
  split.
  - simpl. rewrite stored_states. apply Hok.
  - intros p q. rewrite !commit_stored_st. apply Hok.
  - intros p v. rewrite Hver. simpl. rewrite stored_observed. intros Hp.
    pose proof (rok_observed_le _ Hok _ _ Hp). lia.
  - intros p. rewrite commit_stored_st. simpl. rewrite stored_readgen, stored_generation. apply Hok.
  - intros p g. simpl. rewrite stored_readgen, stored_generation. apply Hok.
  - intros p. rewrite commit_stored_st. simpl. rewrite stored_granted. apply Hok.
  - intros p. simpl. rewrite stored_transient, stored_transient_tick. apply Hok.
  - rewrite Hver. pose proof (rok_version _ Hok). lia.
  - simpl. apply stored_history_wf, Hok.
  - simpl. apply stored_history_keys, Hok.
  - rewrite Hver. simpl. rewrite Hv. apply stored_history_le. intros w Hw.
    pose proof (rok_history_le _ Hok w Hw). lia.
  - intros b. rewrite Hver. simpl. rewrite Hv. apply stored_history_current. intros w Hw.
    pose proof (rok_history_le _ Hok w Hw). lia.
Qed.

Lemma commit_stored_evolves X : art_id new = art_id (artifact rec) →
  rec_evolves (live_pins_for_artifact r (art_id (artifact rec))) X rec rec'.
Proof using Hv.
  intros Hid. assert (version rec' = version rec + 1) as Hver by (unfold version; simpl; exact Hv).
  split; [lia|lia|exact Hid|..].
  - simpl. rewrite stored_generation. lia.
  - intros p _. simpl. by rewrite stored_readgen.
  - intros w Hw Hle. simpl. apply stored_history_pinned; [lia|done].
  - intros w b Hle. simpl. intros [[? _]|?]%stored_history_inv; [lia|done].
Qed.
End commit_stored.

Lemma commit_rec_ok r now ag tick rec c h sz : rec_ok rec → m_or_e (st rec ag) = true →
  rec_ok (commit_rec r now ag tick rec c h sz) ∧
  rec_ok (apply_transition ag MODIFIED "commit" tick
    (commit_stored r now ag (with_transient ag MWB tick rec) (commit_updated rec h sz) c)).
Proof.
  intros Hok Hme. pose proof (holder_alone rec ag (rok_core _ Hok) Hme) as Halone.
  rewrite no_peers in Halone by apply Hok.
  assert (rec_ok (apply_transition ag MODIFIED "commit" tick
    (commit_stored r now ag (with_transient ag MWB tick rec) (commit_updated rec h sz) c))) as Hok2.
  { apply transition_ok.
    - apply commit_stored_core; [by apply (with_transient_ok ag MWB tick)|done].
    - intros p Hp. unfold fresh_copy. by rewrite commit_stored_st, with_transient_st, Halone.
    - split; intros _ q Hq; by rewrite commit_stored_st, with_transient_st, Halone. }
  split; [by apply without_transient_ok|done].
Qed.

Lemma commit_rec_evolves r now ag tick rec c h sz X : m_or_e (st rec ag) = true →
  rec_evolves (live_pins_for_artifact r (art_id (artifact rec))) X rec
    (apply_transition ag MODIFIED "commit" tick
      (commit_stored r now ag (with_transient ag MWB tick rec) (commit_updated rec h sz) c)).
Proof.
  intros Hme. etrans; [apply (with_transient_evolves _ _ ag MWB tick)|].
  etrans; [by apply (commit_stored_evolves r now ag (with_transient ag MWB tick rec) (commit_updated rec h sz) c)|].
  apply transition_evolves. rewrite held_captures_nothing; [done|].
  by rewrite commit_stored_st, with_transient_st.
Qed.

Lemma str_hashes c : ∃ h, compute_content_hash (BStr c) = Ok h.
Proof. unfold compute_content_hash. eauto. Qed.

Lemma monotonic_ok v w : v <= w → check_monotonic_version v w = Ok tt.
Proof. intros ?. unfold check_monotonic_version. by rewrite decide_False by lia. Qed.

Lemma triple_commit a r0 rec ag c tick h sz : rec_ok rec → art_id (artifact rec) = a →
  m_or_e (st rec ag) = true →
  triple (at_rec a r0 rec) (commit_impl ag a c tick h sz)
    (λ res r, res = (commit_updated rec h sz, []) ∧
              ∃ now, at_rec a r0 (commit_rec r0 now ag tick rec c h sz) r)
    (exc_ok a r0 (rec_evolves (live_pins_for_artifact r0 a) (λ _, False) rec)).
Proof.
  intros Hok Hid Hme. unfold commit_impl. apply triple_require_artifact.
  eapply triple_gets; [intros r Hr; by apply (at_agent_state a r0)|]. cbv beta.
  rewrite in_m_or_e_st, Hme. cbn [negb].
  eapply triple_then; [apply triple_set_agent_transient|]. cbv zeta.
  eapply triple_of_outcome; [apply monotonic_ok; lia|]. fold (commit_updated rec h sz).
  pose proof (holder_alone rec ag (rok_core _ Hok) Hme) as Halone.
  eapply (triple_then_exc _ _ _ (λ r, ∃ now, at_rec a r0
    (commit_stored r0 now ag (with_transient ag MWB tick rec) (commit_updated rec h sz) c) r)).
  { intros r Hr. pose proof (triple_store a r0 (with_transient ag MWB tick rec) ag
      (commit_updated rec h sz) c (holder_not_fenced rec ag (rok_core _ Hok) Hme) r Hr) as Hs.
    unfold catch. by destruct (set_artifact_and_content _ _ _ _ _ r) as [[]]. }
  apply triple_exists. intros now.
  destruct (commit_rec_ok r0 now ag tick rec c h sz Hok Hme) as [Hok3 Hok2].
  eapply triple_bind; [eapply triple_conseq; [apply triple_revoke_none|done|done|done]|].
  { etrans; [|exact Halone]. unfold cas_peers, commit_stored. simpl. by rewrite stored_states. }
  intros sigs. apply triple_pure. intros ->.
  destruct (str_hashes c) as [hc Hhc].
  eapply (triple_of_outcome _ _ _ (default hc h)); [by destruct h|].
  eapply triple_then_exc; [apply triple_set_agent_state|]; [done|by rewrite transition_artifact| |].
  { rewrite <-Hid. by apply commit_rec_evolves. }
  eapply triple_then; [apply triple_clear_agent_transient|].
  apply triple_validate; [exact Hok3|]. apply triple_ret. intros r Hr. split; [done|]. by exists now.
Qed.

(** Without a write grant, a commit is refused and nothing moves. *)
Lemma commit_refused a r rec ag c tick h sz : get_record r a = Some rec →
  m_or_e (st rec ag) = false →
  commit_impl ag a c tick h sz r =
    (Raise (CoherenceError (match get_last_reclamation r ag a with
                            | Some _ => "commit_not_allowed reclaimed_by"
                            | None => "commit_not_allowed"
                            end)), r).
Proof.
  intros Hr Hme. unfold commit_impl, mbind, proc_bind, require_artifact, gets.
  rewrite (at_artifact a r rec) by by apply at_rec_refl.
  rewrite (at_agent_state a r rec) by by apply at_rec_refl.
  rewrite in_m_or_e_st, Hme. simpl. by destruct (get_last_reclamation r ag a).
Qed.

(** ** [commit_cas] *)
Definition cas_result_ok (a ag : UUID) (r0 : Registry) (rec : ArtifactRecord) (expected : Z) (h : string)
    (tick : Z) (sz : option Z) (c : option body)
    (res : Artifact * list InvalidationSignal + ConflictDetail) (r : Registry) : Prop :=
  match cas_arbitrate rec ag expected with
  | Some (inl _) => False
  | Some (inr reason) => res = inr (mkConflict reason (version rec)) ∧ at_rec a r0 rec r
  | None => res = inl (cas_updated a rec h sz,
                       replicate (length (cas_peers rec ag)) (mkSignal a (version rec + 1) tick ag)) ∧
            ∃ now, at_rec a r0 (cas_final r0 now a ag rec h sz c) r
  end.

(** The exceptions of a [commit_cas] that passed its guards leave the record as it was. *)
Definition cas_exc (a : UUID) (r0 : Registry) (rec : ArtifactRecord) (expected : Z) (e : exn)
    (r : Registry) : Prop :=
  at_rec a r0 rec r ∧
  (e = CallbackError ∧ ¬ log_quiet r0 ∨
   e = CoherenceError "commit_cas_corruption" ∧ version rec < expected).

Lemma map_const_replicate {A B} (x : B) (l : list A) : map (λ _, x) l = replicate (length l) x.
Proof. induction l; simpl; congruence. Qed.

Lemma triple_service_cas a r0 rec ag expected h tick sz c : rec_ok rec → art_id (artifact rec) = a →
  m_or_e (st rec ag) = false → dget (transient_by_agent rec) ag = None →
  triple (at_rec a r0 rec) (commit_cas_impl ag a expected h tick sz c)
    (cas_result_ok a ag r0 rec expected h tick sz c) (cas_exc a r0 rec expected).
Proof.
  intros Hok Hid Hme Htr. unfold commit_cas_impl. apply triple_require_artifact.
  eapply triple_gets; [intros r Hr; by apply (at_transient a r0)|]. cbv beta. rewrite Htr.
  eapply triple_gets; [intros r Hr; by apply (at_agent_state a r0)|]. cbv beta.
  rewrite in_m_or_e_st, Hme.
  eapply triple_bind; [eapply triple_conseq; [apply triple_commit_cas|done|done|]|].
  { intros e r (-> & Hq & Hr). split; [done|by left]. }
  intros res. unfold cas_post, cas_result_ok.
  pose proof (cas_arbitrate_spec rec ag expected (rok_states _ (rok_core _ Hok))) as Hspec.
  destruct (cas_arbitrate rec ag expected) as [[cur|reason]|].
  - apply triple_pure. intros ->. apply triple_raise. intros r Hr. split; [done|]. right. naive_solver.
  - apply triple_pure. intros ->. by apply triple_ret.
  - apply triple_pure. intros ->. destruct Hspec as (-> & Hother & _).
    apply triple_exists. intros now.
    eapply triple_of_outcome; [apply monotonic_ok; simpl; unfold version; lia|].
    apply triple_validate.
    { by apply cas_final_ok; [apply Hok|..]. }
    apply triple_ret. intros r Hr. rewrite map_const_replicate, length_fmap. split; [done|by exists now].
Qed.

(** The two guards of the optimistic path refuse without moving anything. *)
Lemma cas_refused_transient a r rec ag expected h tick sz c t : get_record r a = Some rec →
  dget (transient_by_agent rec) ag = Some t →
  commit_cas_impl ag a expected h tick sz c r = (Raise OccCallerTransientError, r).
Proof.
  intros Hr Ht. unfold commit_cas_impl, mbind, proc_bind, require_artifact, gets.
  rewrite (at_artifact a r rec) by by apply at_rec_refl.
  rewrite (at_transient a r rec) by by apply at_rec_refl. by rewrite Ht.
Qed.

Lemma cas_refused_holder a r rec ag expected h tick sz c : get_record r a = Some rec →
  dget (transient_by_agent rec) ag = None → m_or_e (st rec ag) = true →
  commit_cas_impl ag a expected h tick sz c r =
    (Raise (CoherenceError "commit_cas_not_allowed reason=occ_is_shared_or_invalid_only"), r).
Proof.
  intros Hr Ht Hme. unfold commit_cas_impl, mbind, proc_bind, require_artifact, gets.
  rewrite (at_artifact a r rec) by by apply at_rec_refl.
  rewrite (at_transient a r rec) by by apply at_rec_refl. rewrite Ht.
  rewrite (at_agent_state a r rec) by by apply at_rec_refl. by rewrite in_m_or_e_st, Hme.
Qed.
