(* ===== verification/RevocationFacts.v ===== *)
(** Facts on revocation: [invalidate] and the per-pair steps of the two sweeps. *)
From S2P Require Import Prelude Core Retention Registry RegistryFacts CommitFacts Service ServiceFacts.

Open Scope Z_scope.
Open Scope string_scope.

(** ** [invalidate] *)

(** The supersession test, on the record. *)
Definition superseded (rec : ArtifactRecord) (ag : UUID) (new_version : Z) (issuer : UUID) : bool :=
  if decide (issuer = ag) then false
  else if decide (dget (state_by_agent rec) ag = Some INVALID) then false
  else match dget (last_observed_version_by_agent rec) ag with
       | Some observed => bool_decide (new_version <= observed)
       | None => false
       end.

Definition invalidate_rec (ag : UUID) (tick : Z) (rec : ArtifactRecord) : ArtifactRecord :=
  without_transient ag (apply_transition ag INVALID "invalidate" tick rec).

Lemma at_superseded a r0 rec r ag v issuer : at_rec a r0 rec r →
  revoke_is_superseded r ag a v issuer = superseded rec ag v issuer.
Proof.
  intros Hr. unfold revoke_is_superseded, superseded, last_observed_version_for.
  rewrite (at_agent_state a r0 rec) by done. by rewrite (at_record a r0 rec).
Qed.

Lemma invalidation_ok ag trigger tick rec : rec_ok rec →
  rec_ok (apply_transition ag INVALID trigger tick rec).
Proof. intros Hok. apply transition_keeps_ok; [done|apply legal_invalid]. Qed.

Lemma invalidation_evolves pins X ag trigger tick rec :
  rec_evolves pins X rec (apply_transition ag INVALID trigger tick rec).
Proof. apply transition_evolves. by rewrite invalid_captures_nothing. Qed.

Lemma triple_invalidation a r0 rec ag trigger tick X : rec_ok rec → art_id (artifact rec) = a →
  triple (at_rec a r0 rec) (set_agent_state a ag INVALID trigger tick None)
    (λ _, at_rec a r0 (apply_transition ag INVALID trigger tick rec))
    (exc_ok a r0 (rec_evolves (live_pins_for_artifact r0 a) X rec)).
Proof.
  intros Hok Hid. apply triple_set_agent_state; [by apply invalidation_ok|by rewrite transition_artifact|].
  apply invalidation_evolves.
Qed.

Lemma triple_invalidate a r0 rec ag v issuer tick : rec_ok rec → art_id (artifact rec) = a →
  triple (at_rec a r0 rec) (invalidate_impl ag a v issuer tick)
    (λ res r, if superseded rec ag v issuer then res = None ∧ at_rec a r0 rec r
              else res = Some (mkSignal a v tick issuer) ∧ at_rec a r0 (invalidate_rec ag tick rec) r)
    (exc_ok a r0 (rec_evolves (live_pins_for_artifact r0 a) (λ _, False) rec)).
Proof.
  intros Hok Hid. unfold invalidate_impl.
  eapply (triple_gets _ _ _ true).
  { intros r Hr. unfold has_artifact. apply dmem_true. exists rec. apply Hr. }
  cbn [negb]. eapply triple_gets; [intros r Hr; by apply (at_superseded a r0)|]. cbv beta.
  destruct (superseded rec ag v issuer); [by apply triple_ret|].
  eapply triple_then_exc; [by apply triple_invalidation|].
  eapply triple_then; [apply triple_clear_agent_transient|]. by apply triple_ret.
Qed.

(** ** The transient sweep *)
Definition expires (rec : ArtifactRecord) (current_tick timeout : Z) (ag : UUID) : bool :=
  match dget (transient_by_agent rec) ag, dget (transient_tick_by_agent rec) ag with
  | Some _, Some entered => bool_decide (timeout <= current_tick - entered)
  | _, _ => false
  end.

Definition expire_rec (ag : UUID) (tick : Z) (rec : ArtifactRecord) : ArtifactRecord :=
  without_transient ag (apply_transition ag INVALID "timeout" tick rec).

Lemma triple_expire a r0 rec current_tick timeout ag : rec_ok rec → art_id (artifact rec) = a →
  triple (at_rec a r0 rec) (expire_pair current_tick timeout a ag)
    (λ n r, if expires rec current_tick timeout ag
            then n = 1 ∧ at_rec a r0 (expire_rec ag current_tick rec) r
            else n = 0 ∧ at_rec a r0 rec r)
    (exc_ok a r0 (rec_evolves (live_pins_for_artifact r0 a) (λ _, False) rec)).
Proof.
  intros Hok Hid. unfold expire_pair, expires.
  eapply triple_gets; [intros r Hr; by apply (at_transient a r0)|]. cbv beta.
  eapply triple_gets; [intros r Hr; by apply (at_transient_tick a r0)|]. cbv beta.
  destruct (dget (transient_by_agent rec) ag), (dget (transient_tick_by_agent rec) ag) as [entered|];
    try by apply triple_ret.
  case_decide as Hlt; [rewrite bool_decide_false by lia; by apply triple_ret|].
  rewrite bool_decide_true by lia.
  eapply triple_then_exc; [by apply triple_invalidation|].
  eapply triple_then; [apply triple_clear_agent_transient|]. by apply triple_ret.
Qed.

(** ** The stable-grant sweep *)
Definition with_reclamation (ag : UUID) (trigger : string) (tick : Z) (rec : ArtifactRecord) :=
  rec <| last_reclamation_by_agent ::= λ d, dset d ag (trigger, tick) |>.

Definition reclaim_rec (ag : UUID) (trigger : string) (tick : Z) (rec : ArtifactRecord) : ArtifactRecord :=
  with_reclamation ag trigger tick (apply_transition ag INVALID trigger tick rec).

Lemma with_reclamation_ok ag trigger tick rec : rec_ok rec → rec_ok (with_reclamation ag trigger tick rec).
Proof. intros [[] Hf]. by split; [split|]. Qed.

(** The reclaim verdict: a settled write grant whose holder's heartbeat is stale, or
    that is held too long. *)
Definition reclaims (r : Registry) (rec : ArtifactRecord) (current_tick hb max_hold : Z) (a ag : UUID)
    : option string :=
  if m_or_e (st rec ag) then
    match dget (transient_by_agent rec) ag with
    | Some _ => None
    | None => reclaim_trigger r current_tick hb max_hold a ag
    end
  else None.

Lemma at_reclaim_trigger a r0 rec r current_tick hb max_hold ag : at_rec a r0 rec r →
  get_record r0 a = Some rec →
  reclaim_trigger r current_tick hb max_hold a ag = reclaim_trigger r0 current_tick hb max_hold a ag.
Proof.
  intros Hr H0. unfold reclaim_trigger, last_heartbeat_tick, granted_at_tick.
  by rewrite (fr_heartbeats _ _ (ar_frame _ _ _ _ Hr)), (ar_rec _ _ _ _ Hr), H0.
Qed.

Lemma triple_reclaim a r0 rec current_tick hb max_hold ag : rec_ok rec → art_id (artifact rec) = a →
  get_record r0 a = Some rec →
  triple (at_rec a r0 rec) (reclaim_pair current_tick hb max_hold a ag)
    (λ n r, match reclaims r0 rec current_tick hb max_hold a ag with
            | Some trigger => n = 1 ∧ at_rec a r0 (reclaim_rec ag trigger current_tick rec) r
            | None => n = 0 ∧ at_rec a r0 rec r
            end)
    (exc_ok a r0 (rec_evolves (live_pins_for_artifact r0 a) (λ _, False) rec)).
Proof.
  intros Hok Hid H0. unfold reclaim_pair, reclaims.
  eapply triple_gets; [intros r Hr; by apply (at_agent_state a r0)|]. cbv beta.
  rewrite in_m_or_e_st. destruct (m_or_e (st rec ag)); [|by apply triple_ret]. cbn [negb].
  eapply triple_gets; [intros r Hr; by apply (at_transient a r0)|]. cbv beta.
  destruct (dget (transient_by_agent rec) ag); [by apply triple_ret|].
  eapply triple_gets; [intros r Hr; by apply (at_reclaim_trigger a r0 rec)|]. cbv beta.
  destruct (reclaim_trigger _ _ _ _ _ _) as [trigger|]; [|by apply triple_ret].
  eapply triple_then_exc; [by apply triple_invalidation|].
  eapply triple_then.
  { apply (triple_update_record a r0 _ (with_reclamation ag trigger current_tick)). }
  apply triple_validate; [by apply with_reclamation_ok, invalidation_ok|]. by apply triple_ret.
Qed.
