(* ===== verification/Evolution.v ===== *)
(** How the registry evolves under the service operations.

    [good X r r'] says that [r'] is a state an operation may leave from [r]: the
    invariant is kept, no artifact appears or disappears, the configuration and the
    sessions are untouched, and every record evolves ([rec_evolves]) with new
    claims only for the agents in [X].  It is a preorder, so an operation made of
    steps, and any interleaving of operations, inherits it. *)
From S2P Require Import Prelude Core Retention Registry RegistryFacts CommitFacts Service ServiceFacts.
From S2P Require Import RevocationFacts Checkpoints ManifestFacts.

Open Scope Z_scope.
Open Scope string_scope.

(** Configuration, sessions and checkpoint manifests. *)
Record keeps (r r' : Registry) : Prop := {
  kp_state_log : state_log r' = state_log r;
  kp_epoch : coordinator_epoch r' = coordinator_epoch r;
  kp_retain : retain_versions r' = retain_versions r;
  kp_policy : retention_policy r' = retention_policy r;
  kp_pins : session_pins r' = session_pins r;
  kp_meta : session_meta r' = session_meta r;
  kp_manifests : manifests_ok r → manifests_ok r';
}.
#[export] Instance keeps_preorder : PreOrder keeps.
Proof.
  split; [by intros r; split|]. intros r1 r2 r3 [] []. split; [congruence..|auto].
Qed.

Lemma frame_keeps r r' : frame r r' → keeps r r'.
Proof. intros []. split; [done..|by apply manifests_ok_eq]. Qed.

Lemma keeps_eq r r' : state_log r' = state_log r →
  coordinator_epoch r' = coordinator_epoch r → retain_versions r' = retain_versions r →
  retention_policy r' = retention_policy r → session_pins r' = session_pins r → session_meta r' = session_meta r →
  checkpoints r' = checkpoints r → checkpoint_members r' = checkpoint_members r → keeps r r'.
Proof. intros. split; [done..|by apply manifests_ok_eq]. Qed.

Definition evolves (X : UUID → UUID → Prop) (r r' : Registry) : Prop :=
  ∀ a rec rec', get_record r a = Some rec → get_record r' a = Some rec' →
    rec_evolves (live_pins_for_artifact r a) (X a) rec rec'.

Record good (X : UUID → UUID → Prop) (r r' : Registry) : Prop := {
  gd_ok : reg_ok r → reg_ok r';
  gd_keys : (records r').*1 = (records r).*1;
  gd_keeps : keeps r r';
  gd_evolves : reg_ok r → evolves X r r';
}.

Lemma record_of_key r a : a ∈ (records r).*1 ↔ is_Some (get_record r a).
Proof.
  unfold get_record, is_Some. split; [apply dkey_Some|]. intros [rec Hr]. by eapply dget_Some_key.
Qed.

#[export] Instance good_preorder X : PreOrder (good X).
Proof.
  split.
  - intros r. split; [done..|]. intros _ a rec rec' H1 H2. simplify_eq. done.
  - intros r1 r2 r3 [O1 K1 P1 E1] [O2 K2 P2 E2]. split; [auto|congruence|by trans r2|].
    intros Hok a rec rec' H1 H3.
    destruct (get_record r2 a) as [rec2|] eqn:H2.
    + trans rec2; [by eapply E1|]. specialize (E2 (O1 Hok) a rec2 rec' H2 H3).
      unfold live_pins_for_artifact in *. by rewrite (kp_pins _ _ P1) in E2.
    + exfalso. assert (is_Some (get_record r2 a)) as [? ?]; [|congruence].
      apply record_of_key. rewrite K1. apply record_of_key. by exists rec.
Qed.

(** More claimants are allowed. *)
Lemma good_mono (X Y : UUID → UUID → Prop) r r' : (∀ a p, X a p → Y a p) → good X r r' → good Y r r'.
Proof.
  intros HXY [O K P E]. split; [done..|]. intros Hok a rec rec' H1 H2.
  destruct (E Hok a rec rec' H1 H2) as [V S I G C Pn T]. split; [done..| |done|done].
  intros p Hp. apply C. intros Hx. by apply Hp, HXY.
Qed.

Lemma at_rec_good a r rec rec' r' (X : UUID → Prop) :
  get_record r a = Some rec → at_rec a r rec' r' →
  (rec_ok rec → art_id (artifact rec) = a →
   rec_ok rec' ∧ rec_evolves (live_pins_for_artifact r a) X rec rec') →
  good (λ b, if decide (b = a) then X else λ _, False) r r'.
Proof.
  intros Hr Hat Hstep. split.
  - intros Hok. destruct Hstep as [Hok' Hev]; [by eapply reg_rec|by eapply reg_id|].
    eapply at_rec_reg_ok; [done..|]. rewrite (ev_id _ _ _ _ Hev). by eapply reg_id.
  - apply Hat.
  - apply frame_keeps, Hat.
  - intros Hok b recb recb' Hb Hb'. case_decide as Hd.
    + subst. rewrite (ar_rec _ _ _ _ Hat) in Hb'. simplify_eq.
      apply Hstep; [by eapply reg_rec|by eapply reg_id].
    + rewrite (ar_others _ _ _ _ Hat b Hd) in Hb'. by simplify_eq.
Qed.

(** ** Procedures *)
Definition steps {A} (X : UUID → UUID → Prop) (m : RM A) : Prop := ∀ r, reg_ok r → good X r (m r).2.

Lemma steps_pure {A} X (m : RM A) : (∀ r, (m r).2 = r) → steps X m.
Proof. intros Hm r _. by rewrite Hm. Qed.

Lemma steps_bind {A B} X (m : RM A) (k : A → RM B) :
  steps X m → (∀ x, steps X (k x)) → steps X (x ← m; k x).
Proof.
  intros Hm Hk r Hok. unfold mbind, proc_bind. specialize (Hm r Hok).
  destruct (m r) as [[x|e] r1]; simpl in *; [|done].
  trans r1; [done|]. apply Hk. by apply Hm.
Qed.

Lemma steps_foldm {A B} X (f : B → A → RM B) l b :
  (∀ b x, steps X (f b x)) → steps X (foldm f l b).
Proof.
  intros Hf. revert b. induction l as [|x l IH]; intros b; simpl; [by apply steps_pure|].
  apply steps_bind; auto.
Qed.

Lemma steps_for_each {A} X (f : A → RM unit) l : (∀ x, steps X (f x)) → steps X (for_each l f).
Proof.
  intros Hf. induction l as [|x l IH]; simpl; [by apply steps_pure|]. by apply steps_bind.
Qed.

Lemma steps_mono {A} (X Y : UUID → UUID → Prop) (m : RM A) :
  (∀ a p, X a p → Y a p) → steps X m → steps Y m.
Proof. intros HXY Hm r Hok. by eapply good_mono, Hm. Qed.

(** An operation on one artifact, from its triple. *)
Lemma steps_triple {A} a X (m : RM A) Q E :
  (∀ r, get_record r a = None → (m r).2 = r) →
  (∀ r rec, get_record r a = Some rec → rec_ok rec → art_id (artifact rec) = a →
    triple (at_rec a r rec) m (Q r rec) (E r rec) ∧
    (∀ x r', Q r rec x r' → ∃ rec', at_rec a r rec' r' ∧ rec_ok rec' ∧
       rec_evolves (live_pins_for_artifact r a) X rec rec') ∧
    (∀ e r', E r rec e r' → ∃ rec', at_rec a r rec' r' ∧ rec_ok rec' ∧
       rec_evolves (live_pins_for_artifact r a) X rec rec')) →
  steps (λ b, if decide (b = a) then X else λ _, False) m.
Proof.
  intros Hnone Hsome r Hok. destruct (get_record r a) as [rec|] eqn:Er; [|by rewrite Hnone].
  destruct (Hsome r rec Er) as (Ht & HQ & HE); [by eapply reg_rec|by eapply reg_id|].
  specialize (Ht r (at_rec_refl _ _ _ Er)).
  assert (∃ rec', at_rec a r rec' (m r).2 ∧ rec_ok rec' ∧
       rec_evolves (live_pins_for_artifact r a) X rec rec') as (rec' & Hat & Hok' & Hev).
  { destruct (m r) as [[x|e] r']; simpl; eauto. }
  by eapply at_rec_good.
Qed.

Lemma exc_ok_evolves a r rec X e r' :
  exc_ok a r (rec_evolves (live_pins_for_artifact r a) X rec) e r' →
  ∃ rec', at_rec a r rec' r' ∧ rec_ok rec' ∧ rec_evolves (live_pins_for_artifact r a) X rec rec'.
Proof. intros (_ & _ & rec' & ? & ? & _ & ?). eauto. Qed.

(** ** The operations *)

(** Only [ag] may take a claim, on [a]; nobody may. *)
Definition claimant (a ag : UUID) : UUID → UUID → Prop := λ b p, b = a ∧ p = ag.
Definition nobody : UUID → UUID → Prop := λ _ _, False.

Lemma nobody_le X a p : nobody a p → (X : UUID → UUID → Prop) a p.
Proof. done. Qed.

Lemma at_rec_nobody a r rec rec' r' : get_record r a = Some rec → at_rec a r rec' r' →
  rec_ok rec' → rec_evolves (live_pins_for_artifact r a) (λ _, False) rec rec' → good nobody r r'.
Proof.
  intros Hr Hat Hok Hev. apply (good_mono (λ b, if decide (b = a) then λ _, False else λ _, False)).
  - intros b p. by destruct (decide (b = a)).
  - by eapply at_rec_good.
Qed.

Lemma steps_nobody {A} a (m : RM A) :
  steps (λ b, if decide (b = a) then λ _, False else λ _, False) m → steps nobody m.
Proof. apply steps_mono. intros b p. by destruct (decide (b = a)). Qed.

Lemma get_artifact_None r a : get_record r a = None → get_artifact r a = None.
Proof. intros H. unfold get_artifact. by rewrite H. Qed.

Lemma require_artifact_None {B} r a (k : Artifact → RM B) : get_record r a = None →
  ((x ← require_artifact a; k x) r).2 = r.
Proof.
  intros H. unfold mbind, proc_bind, require_artifact. by rewrite (get_artifact_None _ _ H).
Qed.

Lemma fetch_steps q : steps (claimant (fq_artifact_id q) (fq_requesting_agent_id q)) (fetch q).
Proof.
  destruct q as [a ag tick]. simpl.
  eapply steps_mono; [|eapply (steps_triple a (eq ag))].
  - unfold claimant. intros b p. by case_decide; naive_solver.
  - intros r Hr. by apply require_artifact_None.
  - intros r rec Hr Hok Hid. split; [by apply triple_fetch|split; [|apply exc_ok_evolves]].
    intros x r' [_ Hat]. eexists. split_and!; [done|by apply fetch_rec_ok|by apply fetch_rec_evolves].
Qed.

Lemma write_steps ag a tick abort : steps (claimant a ag) (write ag a tick abort).
Proof.
  unfold write, abort_guard. destruct abort; [by apply steps_pure|].
  eapply steps_mono; [|eapply (steps_triple a (eq ag))].
  - unfold claimant. intros b p. by case_decide; naive_solver.
  - intros r Hr. by apply require_artifact_None.
  - intros r rec Hr Hok Hid. split; [by apply triple_write|split; [|apply exc_ok_evolves]].
    intros x r' [_ Hat]. eexists. split_and!; [done|by apply write_rec_ok|by apply write_rec_evolves].
Qed.

Lemma commit_steps ag a c tick h sz abort : steps nobody (commit ag a c tick h sz abort).
Proof.
  unfold commit, abort_guard. destruct abort; [by apply steps_pure|].
  intros r Hok. destruct (get_record r a) as [rec|] eqn:Er.
  2: { assert ((commit_impl ag a c tick h sz r).2 = r) as -> by by apply require_artifact_None. done. }
  destruct (m_or_e (st rec ag)) eqn:Eme; [|by rewrite (commit_refused a r rec)].
  pose proof (triple_commit a r rec ag c tick h sz (reg_rec _ Hok _ _ Er) (reg_id _ Hok _ _ Er) Eme
    r (at_rec_refl _ _ _ Er)) as Ht.
  assert (∃ rec', at_rec a r rec' (commit_impl ag a c tick h sz r).2 ∧ rec_ok rec' ∧
       rec_evolves (live_pins_for_artifact r a) (λ _, False) rec rec') as (rec' & Hat & Hok' & Hev).
  { destruct (commit_impl ag a c tick h sz r) as [[x|e] r']; simpl; [|by eapply exc_ok_evolves].
    destruct Ht as (_ & now & Hat). eexists. split_and!; [done| |].
    - apply commit_rec_ok; [by eapply reg_rec|done].
    - etrans; [|apply without_transient_evolves]. rewrite <-(reg_id _ Hok _ _ Er).
      by apply commit_rec_evolves. }
  by eapply at_rec_nobody.
Qed.

Lemma commit_cas_steps ag a v h tick sz c abort : steps nobody (service_commit_cas ag a v h tick sz c abort).
Proof.
  unfold service_commit_cas, abort_guard. destruct abort; [by apply steps_pure|].
  intros r Hok. destruct (get_record r a) as [rec|] eqn:Er.
  2: { assert ((commit_cas_impl ag a v h tick sz c r).2 = r) as -> by by apply require_artifact_None. done. }
  destruct (dget (transient_by_agent rec) ag) eqn:Et; [by erewrite (cas_refused_transient a r rec)|].
  destruct (m_or_e (st rec ag)) eqn:Eme; [by rewrite (cas_refused_holder a r rec)|].
  pose proof (reg_rec _ Hok _ _ Er) as Hrok.
  pose proof (triple_service_cas a r rec ag v h tick sz c Hrok (reg_id _ Hok _ _ Er) Eme Et
    r (at_rec_refl _ _ _ Er)) as Ht.
  assert (∃ rec', at_rec a r rec' (commit_cas_impl ag a v h tick sz c r).2 ∧ rec_ok rec' ∧
       rec_evolves (live_pins_for_artifact r a) (λ _, False) rec rec') as (rec' & Hat & Hok' & Hev).
  { destruct (commit_cas_impl ag a v h tick sz c r) as [[x|e] r']; simpl.
    2: { exists rec. destruct Ht. by split_and!. }
    unfold cas_result_ok in Ht.
    pose proof (cas_arbitrate_spec rec ag v (rok_states _ (rok_core _ Hrok))) as Hs.
    destruct (cas_arbitrate rec ag v) as [[cur|reason]|]; [done| |].
    - exists rec. destruct Ht. by split_and!.
    - destruct Ht as (_ & now & Hat), Hs as (_ & Hother & _). eexists.
      split_and!; [done|apply cas_final_ok; [apply Hrok|done..]|].
      apply cas_final_evolves; [apply Hrok|done|by eapply reg_id]. }
  by eapply at_rec_nobody.
Qed.

Lemma invalidate_steps ag a v issuer tick abort : steps nobody (invalidate ag a v issuer tick abort).
Proof.
  unfold invalidate, abort_guard. destruct abort; [by apply steps_pure|].
  eapply (steps_nobody a), (steps_triple a (λ _, False)).
  - intros r Hr. unfold invalidate_impl, mbind, proc_bind, gets, has_artifact, dmem.
    unfold get_record in Hr. by rewrite Hr.
  - intros r rec Hr Hok Hid. split; [by apply triple_invalidate|split; [|apply exc_ok_evolves]].
    intros x r'. destruct (superseded _ _ _ _); intros [_ Hat]; eexists; (split_and!; [done|..]); try done.
    + by apply without_transient_ok, invalidation_ok.
    + etrans; [apply invalidation_evolves|apply without_transient_evolves].
Qed.

Lemma expire_steps tick timeout a ag : steps nobody (expire_pair tick timeout a ag).
Proof.
  eapply (steps_nobody a), (steps_triple a (λ _, False)).
  - intros r Hr. unfold expire_pair, mbind, proc_bind, gets, get_agent_transient. by rewrite Hr.
  - intros r rec Hr Hok Hid. split; [by apply triple_expire|split; [|apply exc_ok_evolves]].
    intros x r'. destruct (expires _ _ _ _); intros [_ Hat]; eexists; (split_and!; [done|..]); try done.
    + by apply without_transient_ok, invalidation_ok.
    + etrans; [apply invalidation_evolves|apply without_transient_evolves].
Qed.

Lemma reclaim_steps tick hb hold a ag : steps nobody (reclaim_pair tick hb hold a ag).
Proof.
  eapply (steps_nobody a), (steps_triple a (λ _, False)).
  - intros r Hr. unfold reclaim_pair, mbind, proc_bind, gets, get_agent_state. by rewrite Hr.
  - intros r rec Hr Hok Hid. split; [by apply triple_reclaim|split; [|apply exc_ok_evolves]].
    intros x r'. destruct (reclaims _ _ _ _ _ _) as [t|]; intros [_ Hat]; eexists; (split_and!; [done|..]); try done.
    + by apply with_reclamation_ok, invalidation_ok.
    + etrans; [apply (invalidation_evolves _ _ ag t tick)|]. by split.
Qed.

Lemma transient_sweep_steps tick timeout : steps nobody (enforce_transient_timeouts tick timeout).
Proof.
  unfold enforce_transient_timeouts. case_decide; [by apply steps_pure|].
  apply steps_bind; [by apply steps_pure|]. intros ids. apply steps_foldm. intros n a.
  apply steps_bind; [by apply steps_pure|]. intros agents. apply steps_foldm. intros m ag.
  apply steps_bind; [apply expire_steps|]. intros k. by apply steps_pure.
Qed.

Lemma stable_sweep_steps tick hb hold : steps nobody (enforce_stable_grant_timeouts tick hb hold).
Proof.
  unfold enforce_stable_grant_timeouts. do 2 (case_decide; [by apply steps_pure|]).
  apply steps_bind; [by apply steps_pure|]. intros snapshot. apply steps_foldm. intros n p.
  apply steps_bind; [apply reclaim_steps|]. intros k. by apply steps_pure.
Qed.

(** Operations that leave the records, the configuration and the sessions alone. *)
Lemma records_same_good X r r' : records r' = records r → keeps r r' → good X r r'.
Proof.
  intros Hr Hk. assert (∀ a, get_record r' a = get_record r a) as Hg
    by (intros a; unfold get_record; by rewrite Hr).
  split; [|by rewrite Hr|done|].
  - intros [W I R]. split; [by rewrite Hr|..]; intros a rec; rewrite Hg; eauto.
  - intros _ a rec rec'. rewrite Hg. intros ??. by simplify_eq.
Qed.

Lemma untouched_good X r r' : records r' = records r → state_log r' = state_log r →
  coordinator_epoch r' = coordinator_epoch r → retain_versions r' = retain_versions r →
  retention_policy r' = retention_policy r → session_pins r' = session_pins r → session_meta r' = session_meta r →
  checkpoints r' = checkpoints r → checkpoint_members r' = checkpoint_members r → good X r r'.
Proof. intros. apply records_same_good; [done|by apply keeps_eq]. Qed.

Lemma same_data_good X r r' : same_data r r' → good X r r'.
Proof. intros [F R]. by apply records_same_good, frame_keeps. Qed.

Lemma heartbeat_steps X ag tick : steps X (service_record_heartbeat ag tick).
Proof.
  intros r _. unfold service_record_heartbeat, record_heartbeat. repeat case_match; by apply untouched_good.
Qed.

Lemma read_at_version_steps X a v epoch : steps X (read_at_version a v epoch).
Proof.
  intros r _. unfold read_at_version. repeat case_match; by apply untouched_good.
Qed.

(** ** [commit_all] *)
Lemma precheck_run ag a r : (commit_all_precheck ag a r).2 = r ∧
  ∀ u, (commit_all_precheck ag a r).1 = Ok u → ∃ rec, get_record r a = Some rec ∧
    dget (transient_by_agent rec) ag = None ∧ m_or_e (st rec ag) = false.
Proof.
  unfold commit_all_precheck, mbind, proc_bind, require_artifact, gets.
  destruct (get_record r a) as [rec|] eqn:Er; [|by rewrite get_artifact_None].
  rewrite (at_artifact a r rec), (at_transient a r rec) by by apply at_rec_refl.
  destruct (dget (transient_by_agent rec) ag) eqn:Et; [done|].
  rewrite (at_agent_state a r rec), in_m_or_e_st by by apply at_rec_refl.
  destruct (m_or_e (st rec ag)) eqn:Em; [done|]. split; [done|]. intros u _. exists rec. done.
Qed.

Lemma prechecks_run ag writes r :
  (for_each writes (λ w : UUID * CommitAllEntry, commit_all_precheck ag w.1) r).2 = r ∧
  ∀ u, (for_each writes (λ w : UUID * CommitAllEntry, commit_all_precheck ag w.1) r).1 = Ok u →
    ∀ a e, (a, e) ∈ writes → ∃ rec, get_record r a = Some rec ∧
      dget (transient_by_agent rec) ag = None ∧ m_or_e (st rec ag) = false.
Proof.
  induction writes as [|[a e] writes IH]; cbn [for_each].
  { split; [done|]. intros u _ a e []%elem_of_nil. }
  unfold mbind, proc_bind. destruct (precheck_run ag a r) as [Hr Hok]. cbn [fst].
  destruct (commit_all_precheck ag a r) as [[u1|e1] r1]; simpl in Hr; subst r1; [|done].
  split; [apply IH|]. intros u Hu b eb [Heq|Hb]%elem_of_cons.
  - simplify_eq. by apply (Hok u1).
  - by eapply (proj2 IH u Hu).
Qed.

Lemma batch_applied_good ag writes r r' : reg_ok r → dict_wf writes → admitted r ag writes →
  (∀ a e, (a, e) ∈ writes → ∃ rec, get_record r a = Some rec ∧ m_or_e (st rec ag) = false) →
  batch_applied ag writes r r' → good nobody r r'.
Proof.
  intros Hok Hwf Hadm Hfree [F K O M].
  assert (∀ a rec rec', get_record r a = Some rec → get_record r' a = Some rec' →
    rec_ok rec' ∧ rec_evolves (live_pins_for_artifact r a) (λ _, False) rec rec') as Hstep.
  { intros a rec rec' Hr Hr'. pose proof (reg_rec _ Hok _ _ Hr) as Hrok.
    destruct (decide (a ∈ writes.*1)) as [[e He]%dkey_Some|Hn].
    2: { rewrite O in Hr' by done. by simplify_eq. }
    apply dget_Some_elem in He.
    destruct (M a e He) as (rec1 & now & Hr1 & Hr1'), (Hadm a e He) as (rec2 & Hr2 & Hcas),
      (Hfree a e He) as (rec3 & Hr3 & Hme). simplify_eq.
    pose proof (cas_arbitrate_spec rec ag (cae_expected_version e) (rok_states _ (rok_core _ Hrok))) as Hs.
    rewrite Hcas in Hs. destruct Hs as (_ & Hother & _). split.
    - apply cas_final_ok; [apply Hrok|done..].
    - apply cas_final_evolves; [apply Hrok|done|by eapply reg_id]. }
  split; [|done|by apply frame_keeps|intros _ a rec rec' Hr Hr'; by apply Hstep].
  intros _. split; [unfold dict_wf; rewrite K; apply Hok|..]; intros a rec' Hr';
    (assert (is_Some (get_record r a)) as [rec Hr];
      [apply record_of_key; rewrite <-K; apply record_of_key; by exists rec'|]);
    destruct (Hstep a rec rec' Hr Hr') as [Hok' Hev]; [|done].
  rewrite (ev_id _ _ _ _ Hev). by eapply reg_id.
Qed.

Lemma commit_all_steps ag writes tick abort : dict_wf writes →
  steps nobody (service_commit_all ag writes tick abort).
Proof.
  intros Hwf. unfold service_commit_all, abort_guard. destruct abort; [by apply steps_pure|].
  intros r Hok. unfold commit_all_impl. destruct writes as [|w0 ws] eqn:Ew; [done|]. rewrite <-Ew in *. clear Ew.
  unfold mbind at 1, proc_bind at 1.
  destruct (prechecks_run ag writes r) as [Hr Hpre].
  destruct (for_each writes _ r) as [[u|e] r1]; simpl in Hr; subst r1; [|done].
  specialize (Hpre u eq_refl). unfold mbind at 1, proc_bind at 1.
  pose proof (commit_all_cases ag writes tick "commit_all" r Hwf) as Hc.
  destruct (commit_all ag writes tick "commit_all" r) as [[[res|out|cur]|e] r1]; simpl.
  - destruct Hc as (Hadm & Hb & _). trans r1.
    + eapply batch_applied_good; [done..| |done]. intros a e Ha.
      destruct (Hpre a e Ha) as (rec & ? & _ & ?). eauto.
    + assert (reg_ok r1) as Hok1.
      { eapply (gd_ok nobody r), Hok. eapply batch_applied_good; [done..| |done]. intros a e Ha.
        destruct (Hpre a e Ha) as (rec & ? & _ & ?). eauto. }
      apply (steps_bind nobody (foldm _ _ _)); [|by intros; apply steps_pure|done].
      apply steps_foldm. intros b x. by apply steps_bind; [apply steps_pure|intros; apply steps_pure].
  - apply same_data_good, Hc.
  - apply same_data_good, Hc.
  - apply same_data_good, Hc.
Qed.

(** ** Registration and deletion *)

(** [r'] differs from [r] at most in the presence or record of [a]. *)
Record only_at (a : UUID) (r r' : Registry) : Prop := {
  oa_ok : reg_ok r';
  oa_keeps : keeps r r';
  oa_others : ∀ b, b ≠ a → get_record r' b = get_record r b;
}.

Lemma captured_ok policy pins now rec c : rec_ok rec → content rec = c →
  rec_ok (captured_record policy pins now rec (version rec) c).
Proof.
  intros [Hok Hf] Hcur.
  pose proof (captured_wf policy pins now rec (version rec) c (rok_history_wf _ Hok)) as Hwf.
  pose proof (captured_keys policy pins now rec (version rec) c (rok_history_keys _ Hok)) as Hkeys.
  assert (∀ w, w ∈ (version_history (captured_record policy pins now rec (version rec) c)).*1 →
    w <= version rec) as Hle.
  { intros w [b Hb]%dkey_Some. rewrite captured_history in Hb. repeat case_decide; [lia|done|].
    eapply (rok_history_le _ Hok). by eapply dget_Some_key. }
  assert (dget (version_history (captured_record policy pins now rec (version rec) c)) (version rec) = Some c) as Hc
    by (rewrite captured_history; by rewrite decide_True).
  destruct (captured_shape policy pins now rec (version rec) c) as (h & t & Heq).
  rewrite Heq in *. destruct Hok. split; [split|]; try done.
  intros b Hb. change (dget h (version rec) = Some b) in Hb. change (dget h (version rec) = Some c) in Hc.
  change (content rec = b). congruence.
Qed.

Lemma register_artifact_only a c r : reg_ok r → get_record r (art_id a) = None → 1 <= art_version a →
  ∃ r' rec, register_artifact a c r = (Ok tt, r') ∧ only_at (art_id a) r r' ∧
    get_record r' (art_id a) = Some rec ∧ artifact rec = a ∧ content rec = c ∧
    state_by_agent rec = [] ∧ owner_generation rec = 0 ∧ last_reclamation_by_agent rec = [] ∧
    records r' = dset (records r) (art_id a) rec.
Proof.
  intros Hok Hn Hv. pose proof (fresh_record_ok a c Hv) as Hfresh.
  set (rec := if retain_versions r
              then captured_record (retention_policy r) (live_pins_for_artifact r (art_id a))
                     (wall_clock r (wall_reads r)) (fresh_record a c) (art_version a) c
              else fresh_record a c).
  assert (rec_ok rec ∧ artifact rec = a ∧ content rec = c ∧ state_by_agent rec = [] ∧
          owner_generation rec = 0 ∧ last_reclamation_by_agent rec = []) as (Hrok & Hart & Hc & Hst & Hg & Hl).
  { unfold rec. destruct (retain_versions r); [|done].
    split; [by apply (captured_ok _ _ _ (fresh_record a c))|].
    by destruct (captured_shape (retention_policy r) (live_pins_for_artifact r (art_id a))
      (wall_clock r (wall_reads r)) (fresh_record a c) (art_version a) c) as (h & t & ->). }
  set (r1 := if retain_versions r then r <| wall_reads ::= S |> else r).
  exists (r1 <| records ::= λ d, dset d (art_id a) rec |>), rec. split.
  { unfold register_artifact, mbind, proc_bind, gets, put_record, modify, r1, rec.
    by destruct (retain_versions r). }
  assert (records r1 = records r ∧ keeps r r1) as [Hrec Hk]
    by (unfold r1; destruct (retain_versions r); (split; [done|by apply keeps_eq])).
  assert (∀ b, get_record (r1 <| records ::= λ d, dset d (art_id a) rec |>) b =
    if decide (art_id a = b) then Some rec else get_record r b) as Hget.
  { intros b. unfold get_record. simpl. by rewrite dget_dset, Hrec. }
  split_and!; [|rewrite Hget; by rewrite decide_True|done..|simpl; by rewrite Hrec]. split.
  - split.
    + simpl. rewrite Hrec. apply dict_wf_dset, Hok.
    + intros b recb. rewrite Hget. case_decide as Hb; [intros [= <-]; by rewrite Hart|apply Hok].
    + intros b recb. rewrite Hget. case_decide; [by intros [= <-]|apply Hok].
  - trans r1; [done|by apply keeps_eq].
  - intros b Hb. rewrite Hget. by rewrite decide_False by congruence.
Qed.

Lemma register_only id name c owner sz h deps r : reg_ok r → get_record r id = None →
  only_at id r (service_register_artifact id name c owner sz h deps r).2.
Proof.
  intros Hok Hn. unfold service_register_artifact, mbind, proc_bind.
  set (a := mkArtifact id name 1 h sz deps).
  destruct (register_artifact_only a c r Hok Hn) as (r1 & rec & -> & Honly & Hr & Hart & _ & Hst & _); [done|].
  destruct owner as [o|]; [|done]. destruct Honly as [Hok1 Hk1 Ho1].
  assert (rec_ok rec) as Hrok by by eapply reg_rec.
  assert (legal o EXCLUSIVE rec) as Hl.
  { split; intros _ q _; unfold st; by rewrite Hst. }
  pose proof (triple_set_agent_state id r1 rec o EXCLUSIVE "register" 0 None (λ _, True)
    (transition_keeps_ok _ _ _ _ _ Hrok Hl)) as Ht.
  rewrite transition_artifact, Hart in Ht. specialize (Ht eq_refl I r1 (at_rec_refl _ _ _ Hr)).
  assert (∃ rec', at_rec id r1 rec' (set_agent_state id o EXCLUSIVE "register" 0 None r1).2 ∧ rec_ok rec' ∧
    art_id (artifact rec') = id) as (rec' & Hat & Hok' & Hid').
  { destruct (set_agent_state _ _ _ _ _ _ r1) as [[u|e] r2]; simpl.
    - eexists. split_and!; [done|by apply transition_keeps_ok|]. by rewrite transition_artifact, Hart.
    - destruct Ht as (_ & _ & rec' & ? & ? & ? & _). eauto. }
  assert (only_at id r (set_agent_state id o EXCLUSIVE "register" 0 None r1).2) as Hfin.
  { split.
    - by eapply at_rec_reg_ok.
    - trans r1; [done|]. apply frame_keeps, Hat.
    - intros b Hb. rewrite (ar_others _ _ _ _ Hat) by done. by apply Ho1. }
  unfold a. simpl. by destruct (set_agent_state _ _ _ _ _ _ r1) as [[u|e] r2].
Qed.

Lemma delete_only ag a tick r : reg_ok r → only_at a r (delete ag a tick r).2.
Proof.
  intros Hok. unfold delete, mbind, proc_bind, gets, require_artifact, remove_artifact, modify.
  assert (only_at a r r) as Hrefl by by split.
  destruct (has_artifact r a); [|done]. simpl. destruct (get_artifact r a); [|done]. simpl. split.
  - destruct Hok as [W I R]. split; simpl; [by apply dict_wf_dpop|..]; intros b rec;
      unfold get_record; simpl; rewrite dget_dpop; case_decide; naive_solver.
  - by apply keeps_eq.
  - intros b Hb. unfold get_record. simpl. by rewrite dget_dpop_ne.
Qed.
