(* ===== verification/Sessions.v ===== *)
(** Snapshot sessions of the coordinator service: [begin_session],
    [session_read], [session_commit], [session_commit_all], the effect gate,
    session heartbeats, the liveness sweep and the reaped-token tombstone of
    [src/ccs/coordinator/service.py].

    [Service] is the [CoordinatorService] object: the registry it owns and its
    session maps.  Registry operations run on the [registry] field ([on_registry]).
    Three inputs the code draws from outside are explicit: the session token that
    [secrets.token_urlsafe] mints, the callbacks of the effect gate (arbitrary
    procedures on the service, so what they do includes anything other agents do
    meanwhile), and the iteration order of a Python [set] in the sweep. *)
From S2P Require Import Prelude Core Hashing Retention Registry Service.

Open Scope Z_scope.
Open Scope string_scope.

(** ** Configuration and state *)
Record SessionCapsConfig := mkSessionCaps {
  max_sessions : Z;
  max_read_set_cardinality : Z;
  absolute_age_ticks : Z;
}.
Definition SessionCapsConfig_default : SessionCapsConfig := mkSessionCaps 256 64 3600.

Definition SessionCapsConfig_init (sessions cardinality age : Z) : outcome exn SessionCapsConfig :=
  if decide (sessions < 1) then Raise (ValueError "max_sessions must be >= 1")
  else if decide (cardinality < 1) then Raise (ValueError "max_read_set_cardinality must be >= 1")
  else if decide (age < 1) then Raise (ValueError "absolute_age_ticks must be >= 1")
  else Ok (mkSessionCaps sessions cardinality age).

Definition SESSION_TOKEN_LEN : nat := 43.
Definition REAPED_TOMBSTONE_CAP : nat := 4096.
Definition NIL_UUID : UUID := 0%N.

(** The URL-safe base64 alphabet: letters, digits, [-] and [_]. *)
Definition in_token_alphabet (ch : Ascii.ascii) : bool :=
  let n := Ascii.N_of_ascii ch in
  ((97 <=? n) && (n <=? 122) || (65 <=? n) && (n <=? 90) || (48 <=? n) && (n <=? 57)
   || (n =? 45) || (n =? 95))%N%bool.

(** On a UTF-8 byte string the byte length is the character length whenever
    every character is in the alphabet, so the conjunction is the code's. *)
Definition looks_like_session_token (token : string) : bool :=
  Nat.eqb (String.length token) SESSION_TOKEN_LEN
  && forallb in_token_alphabet (String.list_ascii_of_string token).

Record Service := mkService {
  registry : Registry;
  session_caps : SessionCapsConfig;
  session_owners : list (string * UUID);
  session_created : list (string * Z);
  session_heartbeats : list (string * Z);
  reaped_tombstone : list string;
}.
#[export] Instance eta_Service : Settable Service :=
  rec_pure mkService <*> registry <*> session_caps <*> session_owners <*> session_created
    <*> session_heartbeats <*> reaped_tombstone.

Definition SM (A : Type) : Type := proc exn Service A.

Definition service_init (r : Registry) (caps : option SessionCapsConfig) : Service :=
  mkService r (default SessionCapsConfig_default caps) [] [] [] [].

Definition on_registry {A} (m : RM A) : SM A := zoom registry (λ r s, s <| registry := r |>) m.

(** ** Opening a session *)
Definition begin_session (read_set : list UUID) (owner : UUID) (created_at_tick : Z) (token : string)
    : SM (SnapshotSession + VersionedReadRejection) :=
  epoch ← gets (λ s, coordinator_epoch (registry s));
  caps ← gets session_caps;
  let n := Z.of_nat (length read_set) in
  if decide (max_read_set_cardinality caps < n) then
    mret (inr (mkVersionedReadRejection SESSION_READ_SET_TOO_LARGE_REASON NIL_UUID n
                 (Some (max_read_set_cardinality caps)) epoch))
  else
    live_sessions ← gets (λ s, session_count (registry s));
    if decide (max_sessions caps <= live_sessions) then
      mret (inr (mkVersionedReadRejection SESSION_CAP_EXCEEDED_REASON NIL_UUID live_sessions
                   (Some (max_sessions caps)) epoch))
    else
      modify (λ s, s <| session_owners ::= λ d, dset d token owner |>) ;;
      result ← on_registry (capture_version_vector read_set token (Some owner) (Some created_at_tick));
      match result with
      | inr rejection =>
        modify (λ s, s <| session_owners ::= λ d, dpop d token |>) ;;
        mret (inr rejection)
      | inl cut =>
        modify (λ s, s <| session_heartbeats ::= λ d, dset d token created_at_tick |>
                       <| session_created ::= λ d, dset d token created_at_tick |>) ;;
        meta ← gets (λ s, retention_meta (registry s));
        epoch ← gets (λ s, coordinator_epoch (registry s));
        mret (inl (mkSnapshotSession token cut epoch meta.1))
      end.

(** [_validate_session_owner]: the in-memory owner map first, then the
    registry's durable mirror.  [hmac.compare_digest] on the two ids' bytes is
    equality of the ids. *)
Definition validate_session_owner (token : string) (caller : UUID) (cut : option (list (UUID * Z)))
    : SM unit := λ s,
  let bound_owner :=
    match dget (session_owners s) token with
    | Some o => Some o
    | None => fst <$> get_session_meta (registry s) token
    end in
  match bound_owner with
  | None => match cut with
            | Some _ => (Raise (SessionInvalidated "session has pins but no owner-binding"), s)
            | None => (Ok tt, s)
            end
  | Some o => if decide (o = caller) then (Ok tt, s)
              else (Raise (SessionInvalidated "session owner mismatch"), s)
  end.

Definition classify_no_cut_reason (s : Service) (token : string) : string :=
  if bool_decide (token ∈ reaped_tombstone s) then SESSION_INVALIDATED_REASON
  else if looks_like_session_token token then SESSION_INVALIDATED_REASON
  else SESSION_NOT_FOUND_REASON.

(** ** Reading at the cut *)
Inductive SessionRead : Type :=
| ReadServed (c : VersionedContent)
| ReadDeferred (d : DataPlaneDeferredRead)
| ReadRejected (rej : SessionRejection).

(** The read below the owner check.  [time.time()] is drawn only for the
    self-check of the age allowance, whose [assert] is kept. *)
Definition serve_pinned (a : UUID) (pinned : Z) (epoch : string) : RM SessionRead := λ r,
  let artifact := get_artifact r a in
  let current := art_version <$> artifact in
  let pinned_hash :=
    match artifact with
    | Some art => if decide (art_version art = pinned) then art_content_hash art else None
    | None => None
    end in
  let deferred := ReadDeferred (mkDeferredRead a pinned pinned_hash epoch) in
  let '(retain, policy) := retention_meta r in
  if negb retain then (Ok deferred, r)
  else match get_version_record r a pinned with
  | None => (Ok deferred, r)
  | Some (content, captured_at) =>
    let served := ReadServed (mkVersionedContent a pinned content captured_at epoch) in
    match policy, current with
    | Some policy, Some current =>
      let now := wall_clock r (wall_reads r) in
      let r' := r <| wall_reads ::= S |> in
      if decide (pinned ∈ collectible_versions (VMapping [(pinned, captured_at)]) current policy now {[pinned]})
      then (Raise (AssertionError "pinned version unexpectedly collectible despite self-exemption"), r')
      else (Ok served, r')
    | _, _ => (Ok served, r)
    end
  end.

Definition session_read (token : string) (a caller : UUID) : SM SessionRead :=
  epoch ← gets (λ s, coordinator_epoch (registry s));
  cut ← gets (λ s, get_session_cut (registry s) token);
  validate_session_owner token caller cut ;;
  match cut with
  | None =>
    reason ← gets (λ s, classify_no_cut_reason s token);
    mret (ReadRejected (mkSessionRejection reason a epoch))
  | Some cut =>
    match dget cut a with
    | None => mret (ReadRejected (mkSessionRejection SESSION_ARTIFACT_NOT_IN_CUT_REASON a epoch))
    | Some pinned => on_registry (serve_pinned a pinned epoch)
    end
  end.

(** ** Committing at the cut *)
Definition session_committer_id (token : string) : UUID := uuid5 NAMESPACE_URL token.

Inductive SessionCommit (A : Type) : Type :=
| CommitWin (win : A)
| CommitConflict (detail : ConflictDetail)
| CommitRejected (rej : SessionRejection).
#[global] Arguments CommitWin {A} win.
#[global] Arguments CommitConflict {A} detail.
#[global] Arguments CommitRejected {A} rej.

Definition session_commit (token : string) (a : UUID) (c : body) (caller : UUID)
    (size_tokens : option Z) (tick : Z) (abort : bool)
    : SM (SessionCommit (Artifact * list InvalidationSignal)) :=
  epoch ← gets (λ s, coordinator_epoch (registry s));
  cut ← gets (λ s, get_session_cut (registry s) token);
  validate_session_owner token caller cut ;;
  match cut with
  | None =>
    reason ← gets (λ s, classify_no_cut_reason s token);
    mret (CommitRejected (mkSessionRejection reason a epoch))
  | Some cut =>
    match dget cut a with
    | None => mret (CommitRejected (mkSessionRejection SESSION_ARTIFACT_NOT_IN_CUT_REASON a epoch))
    | Some expected_version =>
      content_hash ← of_outcome (compute_content_hash c);
      result ← on_registry (service_commit_cas (session_committer_id token) a expected_version
                 content_hash tick size_tokens (Some c) abort);
      mret (match result with inl win => CommitWin win | inr detail => CommitConflict detail end)
    end
  end.

(** The first member of a write-set that the cut does not pin. *)
Fixpoint first_not_in_cut {A} (cut : list (UUID * Z)) (writes : list (UUID * A)) : option UUID :=
  match writes with
  | [] => None
  | (a, _) :: writes' => if dmem cut a then first_not_in_cut cut writes' else Some a
  end.

Fixpoint session_batch (cut : list (UUID * Z)) (writes : list (UUID * (body * option Z)))
    : outcome exn (list (UUID * CommitAllEntry)) :=
  match writes with
  | [] => Ok []
  | (a, (c, size_tokens)) :: writes' =>
    match dget cut a, compute_content_hash c with
    | None, _ => Raise (KeyError "cut")
    | _, Raise e => Raise e
    | Some v, Ok h =>
      match session_batch cut writes' with
      | Ok rest => Ok ((a, mkCommitAllEntry v h size_tokens (Some c)) :: rest)
      | Raise e => Raise e
      end
    end
  end.

Definition session_commit_all (token : string) (writes : list (UUID * (body * option Z)))
    (caller : UUID) (tick : Z) (abort : bool)
    : SM (commit_all_result + SessionRejection) :=
  match writes with
  | [] => raise (CoherenceError "session_commit_all requires a non-empty write-set")
  | (first, _) :: _ =>
    epoch ← gets (λ s, coordinator_epoch (registry s));
    cut ← gets (λ s, get_session_cut (registry s) token);
    validate_session_owner token caller cut ;;
    match cut with
    | None =>
      reason ← gets (λ s, classify_no_cut_reason s token);
      mret (inr (mkSessionRejection reason first epoch))
    | Some cut =>
      match first_not_in_cut cut writes with
      | Some a => mret (inr (mkSessionRejection SESSION_ARTIFACT_NOT_IN_CUT_REASON a epoch))
      | None =>
        batch ← of_outcome (session_batch cut writes);
        result ← on_registry (service_commit_all (session_committer_id token) batch tick abort);
        mret (inl result)
      end
    end
  end.

(** ** Session lifetime *)
Definition drop_session_state (token : string) : SM unit :=
  on_registry (release_session token) ;;
  modify (λ s, s <| session_heartbeats ::= λ d, dpop d token |>
                 <| session_owners ::= λ d, dpop d token |>
                 <| session_created ::= λ d, dpop d token |>).

(** The [while] loop of the tombstone: drop the oldest entries beyond the cap. *)
Fixpoint evict (cap : nat) (l : list string) : list string :=
  match l with
  | [] => []
  | _ :: l' => if decide (cap < length l)%nat then evict cap l' else l
  end.

(** An [OrderedDict] used as an ordered set: assignment then [move_to_end]. *)
Definition tombstone_token (token : string) : SM unit :=
  modify (λ s, s <| reaped_tombstone ::= λ l,
    evict REAPED_TOMBSTONE_CAP (filter (λ t : string, t ≠ token) l ++ [token])%list |>).

Definition reap_session (token : string) : SM unit :=
  drop_session_state token ;; tombstone_token token.

Definition record_session_heartbeat (token : string) (owner : UUID) (now_tick : Z) : SM bool := λ s,
  if decide (now_tick < 0) then (Raise (ValueError "now_tick must be >= 0"), s) else
  let beat (s : Service) :=
    match dget (session_heartbeats s) token with
    | Some prev => if decide (prev < now_tick)
                   then s <| session_heartbeats ::= λ d, dset d token now_tick |> else s
    | None => s <| session_heartbeats ::= λ d, dset d token now_tick |>
    end in
  match dget (session_owners s) token with
  | Some bound_owner =>
    if decide (bound_owner = owner) then (Ok true, beat s) else (Ok false, s)
  | None =>
    match get_session_meta (registry s) token with
    | None => (Ok false, s)
    | Some (bound_owner, created) =>
      if decide (bound_owner = owner)
      then (Ok true, beat (s <| session_owners ::= λ d, dset d token bound_owner |>
                             <| session_created ::= λ d, dset d token created |>))
      else (Ok false, s)
    end
  end.

(** The reap decision of the sweep for one token; [durable] is the mirror read
    once before the loop. *)
Definition session_expired (s : Service) (durable : list (string * (UUID * Z)))
    (current_tick heartbeat_timeout : Z) (token : string) : bool :=
  let '(stale, created) :=
    if dmem (session_owners s) token then
      (match dget (session_heartbeats s) token with
       | None => true
       | Some last_hb => bool_decide (heartbeat_timeout <= current_tick - last_hb)
       end, dget (session_created s) token)
    else (false, snd <$> dget durable token) in
  let over_age :=
    match created with
    | None => true
    | Some created => bool_decide (absolute_age_ticks (session_caps s) <= current_tick - created)
    end in
  stale || over_age.

Definition sweep_tokens (s : Service) : gset string :=
  list_to_set ((session_owners s).*1) ∪ list_to_set ((all_session_meta (registry s)).*1).

Definition enforce_session_liveness (set_order : gset string → list string)
    (current_tick heartbeat_timeout : Z) : SM Z :=
  if decide (heartbeat_timeout < 1) then raise (ValueError "heartbeat_timeout_ticks must be >= 1")
  else
    durable ← gets (λ s, all_session_meta (registry s));
    tokens ← gets (λ s, set_order (sweep_tokens s));
    foldm (λ reaped token,
      expired ← gets (λ s, session_expired s durable current_tick heartbeat_timeout token);
      if expired : bool then reap_session token ;; mret (reaped + 1) else mret reaped) tokens 0.

(** ** The effect gate *)
Record EffectHeld := mkEffectHeld {
  eh_moved : list (UUID * (Z * option Z));
  eh_coordinator_epoch : string;
  eh_conflict : option ConflictDetail;
}.

(** [SessionView.read]. *)
Definition view_read (token : string) (owner a : UUID) : SM (VersionedContent + DataPlaneDeferredRead) :=
  result ← session_read token a owner;
  match result with
  | ReadServed c => mret (inl c)
  | ReadDeferred d => mret (inr d)
  | ReadRejected rej =>
    if String.eqb (sr_reason rej) SESSION_ARTIFACT_NOT_IN_CUT_REASON
    then raise (CoherenceError "effect_gate decide read an un-pinned artifact")
    else raise (SessionInvalidated "effect_gate decide read failed closed")
  end.

Definition revalidate_cut (r : Registry) (cut : list (UUID * Z)) : list (UUID * (Z * option Z)) :=
  foldl (λ moved (kv : UUID * Z),
    let current := art_version <$> get_artifact r kv.1 in
    if decide (current = Some kv.2) then moved else dset moved kv.1 (kv.2, current)) [] cut.

Section effect_gate.
Context {D R : Type}.

Record EffectFired := mkEffectFired {
  ef_revalidated_cut : list (UUID * Z);
  ef_coordinator_epoch : string;
  ef_commit : option (Artifact * list InvalidationSignal);
  ef_result : option R;
}.

(** [effect=] and [commit=]: the two keyword arguments. *)
Definition effect_gate_escaping (session : SnapshotSession) (effect : D → SM R) (decision : D)
    : SM (EffectFired + EffectHeld) :=
  moved ← gets (λ s, revalidate_cut (registry s) (ss_cut session));
  if decide (moved = []) then
    result ← effect decision;
    mret (inl (mkEffectFired (ss_cut session) (ss_coordinator_epoch session) None (Some result)))
  else mret (inr (mkEffectHeld moved (ss_coordinator_epoch session) None)).

Definition effect_gate_atomic (session : SnapshotSession) (owner a : UUID) (c : body) (tick : Z)
    : SM (EffectFired + EffectHeld) :=
  moved ← gets (λ s, revalidate_cut (registry s) (ss_cut session));
  if dmem moved a then mret (inr (mkEffectHeld moved (ss_coordinator_epoch session) None))
  else
    outcome ← session_commit (ss_session_token session) a c owner None tick false;
    match outcome with
    | CommitRejected _ => raise (SessionInvalidated "effect_gate atomic commit failed closed")
    | CommitConflict detail =>
      post ← gets (λ s, revalidate_cut (registry s) (ss_cut session));
      mret (inr (mkEffectHeld post (ss_coordinator_epoch session) (Some detail)))
    | CommitWin win =>
      mret (inl (mkEffectFired (ss_cut session) (ss_coordinator_epoch session) (Some win) None))
    end.

Definition effect_gate (read_set : list UUID) (owner : UUID)
    (decide_cb : (UUID → SM (VersionedContent + DataPlaneDeferredRead)) → SM D)
    (effect : option (D → SM R)) (commit : option (UUID * body))
    (created_at_tick issued_at_tick : Z) (release_on_exit : bool) (token : string)
    : SM (EffectFired + EffectHeld) :=
  match effect, commit with
  | Some _, Some _ | None, None => raise (ValueError "effect_gate requires exactly one of effect= or commit=")
  | _, _ =>
    session ← begin_session read_set owner created_at_tick token;
    match session with
    | inr _ => raise (SessionInvalidated "effect_gate could not pin the read-set")
    | inl session =>
      finally
        (decision ← decide_cb (view_read (ss_session_token session) owner);
         match commit, effect with
         | Some (a, c), _ => effect_gate_atomic session owner a c issued_at_tick
         | None, Some effect => effect_gate_escaping session effect decision
         | None, None => raise (AssertionError "effect is not None")
         end)
        (λ s, if release_on_exit then (drop_session_state (ss_session_token session) s).2 else s)
    end
  end.
End effect_gate.
#[global] Arguments EffectFired R : clear implicits.
