(* ===== verification/SessionFacts.v ===== *)
(** Facts on snapshot sessions: the cut a session captures, the owner check, the
    session invariant and what each session operation does to it. *)
From S2P Require Import Prelude Core Hashing Retention Registry RegistryFacts CommitFacts Service.
From S2P Require Import ServiceFacts RevocationFacts ManifestFacts Evolution Sessions.

Open Scope Z_scope.
Open Scope string_scope.

(** ** Capturing a cut *)
Definition current_version (r : Registry) (a : UUID) : option Z := version <$> get_record r a.

Lemma get_artifact_version r a : art_version <$> get_artifact r a = current_version r a.
Proof. unfold get_artifact, current_version. by destruct (get_record r a). Qed.

Lemma capture_cut_acc r ids cut missing :
  capture_cut r ids cut missing =
    ((capture_cut r ids cut []).1, (missing ++ filter (λ a, get_record r a = None) ids)%list).
Proof.
  revert cut missing. induction ids as [|a ids IH]; intros cut missing; cbn [capture_cut].
  - by rewrite app_nil_r.
  - rewrite filter_cons. destruct (get_record r a) as [rec|] eqn:Er.
    + rewrite decide_False by done. apply IH.
    + rewrite decide_True by done. rewrite IH, (IH _ ([] ++ [a])%list), <-app_assoc. done.
Qed.

Lemma capture_cut_missing r ids : (capture_cut r ids [] []).2 = filter (λ a, get_record r a = None) ids.
Proof. by rewrite capture_cut_acc. Qed.

Lemma capture_cut_lookup r ids cut missing a :
  dget (capture_cut r ids cut missing).1 a =
    if decide (a ∈ ids ∧ is_Some (get_record r a)) then current_version r a else dget cut a.
Proof.
  revert cut missing. induction ids as [|b ids IH]; intros cut missing; cbn [capture_cut].
  - rewrite decide_False; [done|]. intros [[]%elem_of_nil _].
  - destruct (get_record r b) as [rec|] eqn:Eb; rewrite IH; clear IH.
    + rewrite dget_dset. unfold current_version, version.
      destruct (decide (a = b)) as [->|Hne].
      * rewrite Eb. repeat case_decide; naive_solver set_solver.
      * repeat case_decide; simplify_eq/=; naive_solver set_solver.
    + apply decide_ext. rewrite elem_of_cons. split; [naive_solver|].
      intros [[->|?] [? ?]]; [congruence|]. split; [done|]. by eexists.
Qed.

Lemma capture_cut_wf r ids cut missing : dict_wf cut → dict_wf (capture_cut r ids cut missing).1.
Proof.
  revert cut missing. induction ids as [|b ids IH]; intros cut missing Hc; cbn [capture_cut]; [done|].
  destruct (get_record r b); apply IH; [by apply dict_wf_dset|done].
Qed.

(** ** The session invariant *)
Record sess_ok (s : Service) : Prop := {
  so_pins_wf : dict_wf (session_pins (registry s));
  so_meta_wf : dict_wf (session_meta (registry s));
  (** a token has pins exactly when it has an owner binding *)
  so_keys : ∀ t, is_Some (dget (session_pins (registry s)) t) ↔ is_Some (dget (session_meta (registry s)) t);
  (** the in-memory maps agree with the registry's mirror *)
  so_owners : ∀ t o, dget (session_owners s) t = Some o →
    ∃ c, dget (session_meta (registry s)) t = Some (o, c);
  so_created : ∀ t c, dget (session_created s) t = Some c →
    ∃ o, dget (session_meta (registry s)) t = Some (o, c);
  so_born : ∀ t, is_Some (dget (session_owners s) t) → is_Some (dget (session_created s) t);
  so_cap : session_count (registry s) <= Z.max 0 (max_sessions (session_caps s));
  so_tombstone : (length (reaped_tombstone s) <= REAPED_TOMBSTONE_CAP)%nat;
  (** a pin names a version that exists *)
  so_cut : ∀ t cut a v, dget (session_pins (registry s)) t = Some cut → dget cut a = Some v →
    ∀ rec, get_record (registry s) a = Some rec → v <= version rec;
}.

Record sys_ok (s : Service) : Prop := {
  sy_reg : reg_ok (registry s);
  sy_sess : sess_ok s;
  sy_manifests : manifests_ok (registry s);
}.

(** A session that is live in both registries is the same session. *)
Record same_sessions (r r' : Registry) : Prop := {
  sn_cut : ∀ t cut cut', dget (session_pins r) t = Some cut → dget (session_pins r') t = Some cut' → cut' = cut;
  sn_meta : ∀ t m m', dget (session_meta r) t = Some m → dget (session_meta r') t = Some m' → m' = m;
}.

Lemma same_sessions_eq r r' : session_pins r' = session_pins r → session_meta r' = session_meta r →
  same_sessions r r'.
Proof. intros Hp Hm. split; intros t x x'; rewrite ?Hp, ?Hm; congruence. Qed.

(** What one operation does to the registry: [X] may take claims, [D] is removed. *)
Record advances (X : UUID → UUID → Prop) (D : UUID → Prop) (r r' : Registry) : Prop := {
  ad_log : state_log r' = state_log r;
  ad_epoch : coordinator_epoch r' = coordinator_epoch r;
  ad_retain : retain_versions r' = retain_versions r;
  ad_policy : retention_policy r' = retention_policy r;
  ad_evolves : evolves X r r';
  ad_present : ∀ a, ¬ D a → is_Some (get_record r a) → is_Some (get_record r' a);
  ad_sessions : same_sessions r r';
}.

Lemma good_advances X r r' : reg_ok r → good X r r' → advances X (λ _, False) r r'.
Proof.
  intros Hok [O K [] E]. split; [done..|by apply E| |by apply same_sessions_eq].
  intros a _ Ha. apply record_of_key. rewrite K. by apply record_of_key.
Qed.

Lemma same_records_advances X D r r' : records r' = records r → state_log r' = state_log r →
  coordinator_epoch r' = coordinator_epoch r → retain_versions r' = retain_versions r →
  retention_policy r' = retention_policy r → same_sessions r r' → advances X D r r'.
Proof.
  intros Hr ?????. assert (∀ a, get_record r' a = get_record r a) as Hg
    by (intros a; unfold get_record; by rewrite Hr).
  split; [done..| | |done].
  - intros a rec rec'. rewrite Hg. intros ??. by simplify_eq.
  - intros a _. by rewrite Hg.
Qed.

Lemma same_records_ok r r' : records r' = records r → reg_ok r → reg_ok r'.
Proof.
  intros Hr [W I R]. assert (∀ a, get_record r' a = get_record r a) as Hg
    by (intros a; unfold get_record; by rewrite Hr).
  split; [by rewrite Hr|..]; intros a rec; rewrite Hg; eauto.
Qed.

(** ** Operations that run on the registry *)
Lemma on_registry_state {A} (m : RM A) s : (on_registry m s).2 = s <| registry := (m (registry s)).2 |>.
Proof. unfold on_registry, zoom. by destruct (m (registry s)). Qed.

Lemma good_sess_ok X s r' : sys_ok s → good X (registry s) r' → sess_ok (s <| registry := r' |>).
Proof.
  intros [Hreg [P M K O C B Cap T Cut] _] [_ Gk Gkeep Gev].
  pose proof (kp_pins _ _ Gkeep) as Hp. pose proof (kp_meta _ _ Gkeep) as Hm.
  split; simpl; rewrite ?Hp, ?Hm; try done.
  - unfold session_count. by rewrite Hm.
  - intros t cut a v Ht Hv rec' Hrec'.
    assert (is_Some (get_record (registry s) a)) as [rec Hrec].
    { apply record_of_key. rewrite <-Gk. apply record_of_key. by exists rec'. }
    pose proof (ev_version _ _ _ _ (Gev Hreg a rec rec' Hrec Hrec')).
    pose proof (Cut t cut a v Ht Hv rec Hrec). lia.
Qed.

Lemma on_registry_good {A} X (m : RM A) s : steps X m → sys_ok s →
  sys_ok (on_registry m s).2 ∧ advances X (λ _, False) (registry s) (registry (on_registry m s).2).
Proof.
  intros Hm Hs. rewrite on_registry_state. pose proof (Hm (registry s) (sy_reg _ Hs)) as Hg. split.
  - split; [by eapply gd_ok, Hs|by eapply good_sess_ok|]. apply (kp_manifests _ _ (gd_keeps _ _ _ Hg)), Hs.
  - apply good_advances; [apply Hs|done].
Qed.

(** ** Reads and commits at the cut *)
Lemma serve_pinned_steps X a v epoch : steps X (serve_pinned a v epoch).
Proof. intros r _. unfold serve_pinned. repeat case_match; by apply untouched_good. Qed.

Lemma validate_owner_state token caller cut s : (validate_session_owner token caller cut s).2 = s.
Proof. unfold validate_session_owner. by repeat case_match. Qed.

(** A session operation that checks the owner and then, possibly, runs one registry
    operation. *)
Definition at_most_one_step (X : UUID → UUID → Prop) (s s' : Service) : Prop :=
  s' = s ∨ ∃ r', good X (registry s) r' ∧ s' = s <| registry := r' |>.

Lemma at_most_one_ok X s s' : sys_ok s → at_most_one_step X s s' →
  sys_ok s' ∧ advances X (λ _, False) (registry s) (registry s').
Proof.
  intros Hs [->|(r' & Hg & ->)].
  - split; [done|]. by apply good_advances; [apply Hs|].
  - split; [split; [by eapply gd_ok, Hs|by eapply good_sess_ok|apply (kp_manifests _ _ (gd_keeps _ _ _ Hg)), Hs]|].
    apply good_advances; [apply Hs|done].
Qed.

Lemma session_read_step token a caller s : sys_ok s →
  at_most_one_step nobody s (session_read token a caller s).2.
Proof.
  intros Hs. unfold session_read, mbind, proc_bind, gets.
  pose proof (validate_owner_state token caller (get_session_cut (registry s) token) s) as Hv.
  destruct (validate_session_owner _ _ _ s) as [[u|e] s1]; simpl in Hv; subst s1; [|by left].
  destruct (get_session_cut (registry s) token) as [cut|]; [|by left].
  destruct (dget cut a) as [v|]; [|by left]. right. rewrite on_registry_state. eexists. split; [|done].
  by apply serve_pinned_steps, Hs.
Qed.

Lemma session_commit_step token a c caller sz tick abort s : sys_ok s →
  at_most_one_step nobody s (session_commit token a c caller sz tick abort s).2.
Proof.
  intros Hs. unfold session_commit, mbind, proc_bind, gets, of_outcome.
  pose proof (validate_owner_state token caller (get_session_cut (registry s) token) s) as Hv.
  destruct (validate_session_owner _ _ _ s) as [[u|e] s1]; simpl in Hv; subst s1; [|by left].
  destruct (get_session_cut (registry s) token) as [cut|]; [|by left].
  destruct (dget cut a) as [v|]; [|by left].
  destruct (compute_content_hash c) as [h|e]; [|by left]. right.
  pose proof (commit_cas_steps (session_committer_id token) a v h tick sz (Some c) abort (registry s) (sy_reg _ Hs)) as Hg.
  eexists. split; [exact Hg|]. unfold on_registry, zoom.
  by destruct (service_commit_cas _ _ _ _ _ _ _ _ (registry s)) as [[]].
Qed.

Lemma session_batch_keys cut writes batch : session_batch cut writes = Ok batch → batch.*1 = writes.*1.
Proof.
  revert batch. induction writes as [|[a [c sz]] writes IH]; intros batch; simpl; [by intros; simplify_eq|].
  destruct (dget cut a); [|done]. destruct (compute_content_hash c); [|done].
  destruct (session_batch cut writes); [|done]. intros ?. simplify_eq/=. f_equal. by apply IH.
Qed.

Lemma session_commit_all_step token writes caller tick abort s : sys_ok s → dict_wf writes →
  at_most_one_step nobody s (session_commit_all token writes caller tick abort s).2.
Proof.
  intros Hs Hwf. unfold session_commit_all, mbind, proc_bind, gets, of_outcome.
  destruct writes as [|[a0 w0] ws] eqn:Ew; [by left|]. rewrite <-Ew in *.
  pose proof (validate_owner_state token caller (get_session_cut (registry s) token) s) as Hv.
  destruct (validate_session_owner _ _ _ s) as [[u|e] s1]; simpl in Hv; subst s1; [|by left].
  destruct (get_session_cut (registry s) token) as [cut|]; [|by left].
  destruct (first_not_in_cut cut writes); [by left|].
  destruct (session_batch cut writes) as [batch|] eqn:Eb; [|by left]. right.
  apply session_batch_keys in Eb.
  pose proof (commit_all_steps (session_committer_id token) batch tick abort) as Hc.
  eexists. split; [apply Hc; [unfold dict_wf; by rewrite Eb|apply Hs]|]. unfold on_registry, zoom.
  by destruct (service_commit_all _ _ _ _ (registry s)) as [[]].
Qed.

(** ** Opening a session *)
Definition opened (s : Service) (token : string) (owner : UUID) (tick : Z) (cut : list (UUID * Z)) : Service :=
  s <| registry ::= λ r, r <| session_pins ::= λ d, dset d token cut |>
                           <| session_meta ::= λ d, dset d token (owner, tick) |> |>
    <| session_owners ::= λ d, dset d token owner |>
    <| session_heartbeats ::= λ d, dset d token tick |>
    <| session_created ::= λ d, dset d token tick |>.

Definition cut_of (r : Registry) (ids : list UUID) : list (UUID * Z) := (capture_cut r ids [] []).1.

Lemma dpop_dset_absent {K V} `{EqDecision K} (d : list (K * V)) k v :
  dget d k = None → dpop (dset d k v) k = d.
Proof.
  induction d as [|[k1 v1] d IH]; simpl; [by rewrite decide_True|].
  case_decide; [done|]. intros Hd. simpl. rewrite decide_False by done. f_equal. auto.
Qed.

Lemma retention_meta_fst r : (retention_meta r).1 = retain_versions r.
Proof. unfold retention_meta. by destruct (retain_versions r). Qed.

(** Every branch of [begin_session], for a token that is not in use. *)
Lemma begin_session_run read_set owner tick token s : dget (session_owners s) token = None →
  let epoch := coordinator_epoch (registry s) in
  let caps := session_caps s in
  begin_session read_set owner tick token s =
    if decide (max_read_set_cardinality caps < Z.of_nat (length read_set)) then
      (Ok (inr (mkVersionedReadRejection SESSION_READ_SET_TOO_LARGE_REASON NIL_UUID
                  (Z.of_nat (length read_set)) (Some (max_read_set_cardinality caps)) epoch)), s)
    else if decide (max_sessions caps <= session_count (registry s)) then
      (Ok (inr (mkVersionedReadRejection SESSION_CAP_EXCEEDED_REASON NIL_UUID
                  (session_count (registry s)) (Some (max_sessions caps)) epoch)), s)
    else match filter (λ a, get_record (registry s) a = None) read_set with
    | m :: missing =>
      (Ok (inr (mkVersionedReadRejection UNKNOWN_ARTIFACT_REASON (foldl N.min m missing) 0 None epoch)), s)
    | [] =>
      (Ok (inl (mkSnapshotSession token (cut_of (registry s) read_set) epoch (retain_versions (registry s)))),
       opened s token owner tick (cut_of (registry s) read_set))
    end.
Proof.
  intros Hfresh. cbv zeta. unfold begin_session, mbind, proc_bind, gets, modify. simpl.
  case_decide; [done|]. case_decide; [done|].
  unfold on_registry, zoom, capture_version_vector. simpl.
  pose proof (capture_cut_missing (registry s) read_set) as Hm. unfold cut_of.
  destruct (capture_cut (registry s) read_set [] []) as [cut missing]. simpl in Hm. subst missing.
  destruct (filter _ read_set) as [|m missing]; simpl.
  - by rewrite retention_meta_fst.
  - rewrite dpop_dset_absent by done. by destruct s.
Qed.

Lemma meta_fresh_owner s token : sess_ok s → dget (session_meta (registry s)) token = None →
  dget (session_owners s) token = None.
Proof.
  intros Hs Hm. destruct (dget (session_owners s) token) as [o|] eqn:Eo; [|done].
  destruct (so_owners _ Hs _ _ Eo). congruence.
Qed.

Lemma length_dset {K V} `{EqDecision K} (d : list (K * V)) k v :
  dget d k = None → length (dset d k v) = S (length d).
Proof. intros Hd. rewrite dset_absent by done. rewrite length_app. simpl. lia. Qed.

Lemma opened_ok s token owner tick ids : sys_ok s → dget (session_meta (registry s)) token = None →
  session_count (registry s) < max_sessions (session_caps s) →
  sys_ok (opened s token owner tick (cut_of (registry s) ids)).
Proof.
  intros [Hreg Hs Hmf] Hm Hcap. split; [by apply (same_records_ok (registry s))| |by apply (manifests_ok_eq (registry s))].
  destruct Hs as [P M K O C B Cap T Cut]. split; simpl.
  - by apply dict_wf_dset.
  - by apply dict_wf_dset.
  - intros t. rewrite !dget_dset. case_decide; [naive_solver|apply K].
  - intros t o. rewrite !dget_dset. case_decide; [naive_solver|apply O].
  - intros t c. rewrite !dget_dset. case_decide; [naive_solver|apply C].
  - intros t. rewrite !dget_dset. case_decide; [by eexists|apply B].
  - unfold session_count in *. simpl. rewrite length_dset by done. lia.
  - done.
  - intros t cut a v. rewrite dget_dset. case_decide as Hd; [|by apply Cut]. intros [= <-] Hv rec Hrec.
    unfold cut_of in Hv. rewrite capture_cut_lookup in Hv. case_decide; [|done].
    unfold current_version in Hv. change (get_record (registry s) a = Some rec) in Hrec.
    rewrite Hrec in Hv. simplify_eq/=. lia.
Qed.

Lemma begin_session_ok read_set owner tick token s : sys_ok s →
  dget (session_meta (registry s)) token = None →
  let s' := (begin_session read_set owner tick token s).2 in
  sys_ok s' ∧ records (registry s') = records (registry s) ∧
  (s' = s ∨ s' = opened s token owner tick (cut_of (registry s) read_set)).
Proof.
  intros Hs Hm. cbv zeta. rewrite begin_session_run by by apply meta_fresh_owner, Hm; apply Hs.
  repeat case_decide; simpl; [by eauto..|].
  destruct (filter _ read_set); simpl; [|by eauto].
  split_and!; [|done|by right]. apply opened_ok; [done..|lia].
Qed.

(** ** Closing sessions *)
Definition dropped (token : string) (s : Service) : Service :=
  s <| registry ::= λ r, r <| session_pins ::= λ d, dpop d token |>
                           <| session_meta ::= λ d, dpop d token |> |>
    <| session_heartbeats ::= λ d, dpop d token |>
    <| session_owners ::= λ d, dpop d token |>
    <| session_created ::= λ d, dpop d token |>.

Lemma drop_run token s : drop_session_state token s = (Ok tt, dropped token s).
Proof. done. Qed.

Lemma length_dpop {K V} `{EqDecision K} (d : list (K * V)) k : (length (dpop d k) <= length d)%nat.
Proof. induction d as [|[k1 v1] d IH]; simpl; [done|]. case_decide; simpl; lia. Qed.

Lemma dropped_ok token s : sys_ok s → sys_ok (dropped token s).
Proof.
  intros [Hreg [P M K O C B Cap T Cut] Hmf].
  split; [by apply (same_records_ok (registry s))| |by apply (manifests_ok_eq (registry s))]. split; simpl.
  - by apply dict_wf_dpop.
  - by apply dict_wf_dpop.
  - intros t. rewrite !dget_dpop. case_decide; [|apply K]. split; by intros [? ?].
  - intros t o. rewrite !dget_dpop. case_decide; [done|apply O].
  - intros t c. rewrite !dget_dpop. case_decide; [done|apply C].
  - intros t. rewrite !dget_dpop. case_decide; [by intros [??]|apply B].
  - unfold session_count in *. simpl. pose proof (length_dpop (session_meta (registry s)) token). lia.
  - done.
  - intros t cut a v. rewrite dget_dpop. case_decide; [done|]. apply Cut.
Qed.

Lemma evict_bound cap l : (length (evict cap l) <= cap)%nat.
Proof. induction l as [|t l IH]; simpl; [lia|]. case_decide; simpl in *; lia. Qed.

Lemma evict_suffix cap l : ∃ l', l = (l' ++ evict cap l)%list.
Proof.
  induction l as [|t l [l' IH]]; cbn [evict]; [by exists []|].
  case_decide; [|by exists []]. exists (t :: l'). by rewrite IH at 1.
Qed.

Definition reaped (token : string) (s : Service) : Service :=
  dropped token s <| reaped_tombstone ::= λ l,
    evict REAPED_TOMBSTONE_CAP (filter (λ t : string, t ≠ token) l ++ [token])%list |>.

Lemma reap_run token s : reap_session token s = (Ok tt, reaped token s).
Proof. done. Qed.

Lemma reaped_ok token s : sys_ok s → sys_ok (reaped token s).
Proof.
  intros Hs. apply (dropped_ok token) in Hs as [Hreg [P M K O C B Cap T Cut] Hmf].
  split; [done| |done]. split; try done. apply evict_bound.
Qed.

(** ** Heartbeats and the sweep *)
Lemma heartbeat_ok token owner tick s : sys_ok s →
  sys_ok (record_session_heartbeat token owner tick s).2 ∧
  registry (record_session_heartbeat token owner tick s).2 = registry s.
Proof.
  intros Hs. unfold record_session_heartbeat, get_session_meta.
  repeat (case_match; simpl; try done); (split; [|done]); destruct Hs as [Hreg [P M K O C B Cap T Cut] Hmf];
    (split; [done| |done]); split; simpl; try done.
  all: try (intros t; rewrite !dget_dset; destruct (decide (token = t)); [by eexists|by apply B]).
  all: intros t x; rewrite dget_dset; destruct (decide (token = t)); [subst t; intros [= <-]|]; by eauto.
Qed.

(** The sweep as a function: which tokens it visits, and what it leaves. *)
Definition sweep_step (durable : list (string * (UUID * Z))) (tick hb : Z) (acc : Service * Z) (token : string)
    : Service * Z :=
  if session_expired acc.1 durable tick hb token then (reaped token acc.1, acc.2 + 1) else acc.

Lemma sweep_fold durable tick hb tokens s n :
  foldm (λ n token,
      expired ← gets (λ s, session_expired s durable tick hb token);
      if expired : bool then reap_session token ;; mret (n + 1) else mret n) tokens n s =
  let acc := foldl (sweep_step durable tick hb) (s, n) tokens in (Ok acc.2, acc.1).
Proof.
  revert s n. induction tokens as [|t tokens IH]; intros s n; [done|].
  cbn [foldm foldl]. etrans; [apply (bind_Ok _ _ _ (sweep_step durable tick hb (s, n) t).2
    (sweep_step durable tick hb (s, n) t).1)|].
  { unfold sweep_step, mbind, proc_bind, gets. cbn [fst snd]. by destruct (session_expired s durable tick hb t). }
  rewrite IH. by destruct (sweep_step durable tick hb (s, n) t).
Qed.

Lemma sweep_run order tick hb s : 1 <= hb →
  enforce_session_liveness order tick hb s =
  let acc := foldl (sweep_step (session_meta (registry s)) tick hb) (s, 0) (order (sweep_tokens s)) in
  (Ok acc.2, acc.1).
Proof.
  intros Hhb. unfold enforce_session_liveness. rewrite decide_False by lia.
  unfold mbind at 1, proc_bind at 1, gets at 1. unfold mbind at 1, proc_bind at 1, gets at 1. apply sweep_fold.
Qed.

Lemma dropped_sessions token s s' : same_sessions (registry s) (registry s') →
  same_sessions (registry s) (registry (dropped token s')).
Proof.
  intros [Hc Hm]. split; simpl; intros t x x' Hx; rewrite dget_dpop; case_decide; [done|by apply Hc|done|by apply Hm].
Qed.

Lemma opened_sessions s token owner tick cut : sess_ok s → dget (session_meta (registry s)) token = None →
  same_sessions (registry s) (registry (opened s token owner tick cut)).
Proof.
  intros Hs Hn. assert (dget (session_pins (registry s)) token = None) as Hp.
  { destruct (dget (session_pins (registry s)) token) eqn:Ep; [|done].
    destruct (proj1 (so_keys _ Hs token)) as [m Hm]; [by rewrite Ep|congruence]. }
  split; simpl; intros t x x' Hx; rewrite dget_dset; case_decide; simplify_eq; congruence.
Qed.

Lemma sweep_fold_ok durable tick hb tokens s n : sys_ok s →
  let s' := (foldl (sweep_step durable tick hb) (s, n) tokens).1 in
  sys_ok s' ∧ records (registry s') = records (registry s) ∧
  state_log (registry s') = state_log (registry s) ∧
  coordinator_epoch (registry s') = coordinator_epoch (registry s) ∧
  retain_versions (registry s') = retain_versions (registry s) ∧
  retention_policy (registry s') = retention_policy (registry s).
Proof.
  cbv zeta. revert s n. induction tokens as [|t tokens IH]; intros s n Hs; [done|]. cbn [foldl].
  destruct (sweep_step durable tick hb (s, n) t) as [s1 n1] eqn:Es. unfold sweep_step in Es. cbn [fst snd] in Es.
  destruct (session_expired s durable tick hb t); simplify_eq; [|by apply IH].
  by apply (IH (reaped t s) (n + 1)), reaped_ok.
Qed.

Lemma sweep_fold_sessions durable tick hb tokens s0 s n : same_sessions (registry s0) (registry s) →
  same_sessions (registry s0) (registry (foldl (sweep_step durable tick hb) (s, n) tokens).1).
Proof.
  revert s n. induction tokens as [|t tokens IH]; intros s n Hs; [done|]. cbn [foldl].
  destruct (sweep_step durable tick hb (s, n) t) as [s1 n1] eqn:Es. unfold sweep_step in Es. cbn [fst snd] in Es.
  destruct (session_expired s durable tick hb t); simplify_eq; [|by apply IH].
  by apply (IH (reaped t s)), (dropped_sessions t s0 s).
Qed.
