(* ===== verification/System.v ===== *)
(** The coordinator as a transition system.

    An [op] is one call of the service (or one locked step of a sweep), [run_op]
    runs it on the service state whatever its outcome, and [reachable] closes the
    initial states under the operations: the order of the calls of all agents and
    of the background sweeps is arbitrary.  [admissible] holds what an operation
    takes from outside: [uuid4] and token draws do not repeat a live value, and a
    [Mapping] argument has distinct keys. *)
From S2P Require Import Prelude Core Hashing Retention Registry RegistryFacts CommitFacts Service.
From S2P Require Import ServiceFacts RevocationFacts Evolution Sessions SessionFacts Checkpoints ManifestFacts.

Open Scope Z_scope.
Open Scope string_scope.

Inductive op : Type :=
| OpRegister (id : UUID) (name : string) (c : body) (owner : option UUID) (sz : option Z)
    (h : option string) (deps : list UUID)
| OpFetch (q : FetchRequest)
| OpReadAt (a : UUID) (v : Z) (epoch : option string)
| OpWrite (ag a : UUID) (tick : Z) (abort : bool)
| OpCommit (ag a : UUID) (c : string) (tick : Z) (h : option string) (sz : option Z) (abort : bool)
| OpCommitCas (ag a : UUID) (v : Z) (h : string) (tick : Z) (sz : option Z) (c : option body) (abort : bool)
| OpCommitAll (ag : UUID) (writes : list (UUID * CommitAllEntry)) (tick : Z) (abort : bool)
| OpInvalidate (ag a : UUID) (v : Z) (issuer : UUID) (tick : Z) (abort : bool)
| OpDelete (ag a : UUID) (tick : Z)
| OpHeartbeat (ag : UUID) (tick : Z)
| OpExpire (tick timeout : Z) (a ag : UUID)
| OpReclaim (tick hb hold : Z) (a ag : UUID)
| OpBeginSession (read_set : list UUID) (owner : UUID) (tick : Z) (token : string)
| OpSessionRead (token : string) (a caller : UUID)
| OpSessionCommit (token : string) (a : UUID) (c : body) (caller : UUID) (sz : option Z) (tick : Z) (abort : bool)
| OpSessionCommitAll (token : string) (writes : list (UUID * (body * option Z))) (caller : UUID) (tick : Z)
    (abort : bool)
| OpDropSession (token : string)
| OpSessionHeartbeat (token : string) (owner : UUID) (tick : Z)
| OpSessionSweep (order : gset string → list string) (tick hb : Z)
| OpCreateCheckpoint (id name : string) (owner : option UUID) (members : list CheckpointMember)
    (window_min window_max tick : Z) (abort : bool)
| OpSetRestoreStatus (id status : string) (updated_at : Z) (abort : bool)
| OpSetMemberRestore (id path : string) (restore_outcome : option string) (deleted_at : option Z) (abort : bool)
| OpSetMemberPin (id path pin_state : string) (tier : option string) (abort : bool)
| OpAdjustRefcount (id : string) (delta : Z) (abort : bool).

Definition ignore {A} (m : SM A) : SM unit := m ;; mret tt.

Definition op_proc (o : op) : SM unit :=
  match o with
  | OpRegister id name c owner sz h deps =>
    ignore (on_registry (service_register_artifact id name c owner sz h deps))
  | OpFetch q => ignore (on_registry (fetch q))
  | OpReadAt a v epoch => ignore (on_registry (read_at_version a v epoch))
  | OpWrite ag a tick abort => ignore (on_registry (write ag a tick abort))
  | OpCommit ag a c tick h sz abort => ignore (on_registry (commit ag a c tick h sz abort))
  | OpCommitCas ag a v h tick sz c abort => ignore (on_registry (service_commit_cas ag a v h tick sz c abort))
  | OpCommitAll ag writes tick abort => ignore (on_registry (service_commit_all ag writes tick abort))
  | OpInvalidate ag a v issuer tick abort => ignore (on_registry (invalidate ag a v issuer tick abort))
  | OpDelete ag a tick => ignore (on_registry (delete ag a tick))
  | OpHeartbeat ag tick => ignore (on_registry (service_record_heartbeat ag tick))
  | OpExpire tick timeout a ag => ignore (on_registry (expire_pair tick timeout a ag))
  | OpReclaim tick hb hold a ag => ignore (on_registry (reclaim_pair tick hb hold a ag))
  | OpBeginSession read_set owner tick token => ignore (begin_session read_set owner tick token)
  | OpSessionRead token a caller => ignore (session_read token a caller)
  | OpSessionCommit token a c caller sz tick abort => ignore (session_commit token a c caller sz tick abort)
  | OpSessionCommitAll token writes caller tick abort =>
    ignore (session_commit_all token writes caller tick abort)
  | OpDropSession token => ignore (drop_session_state token)
  | OpSessionHeartbeat token owner tick => ignore (record_session_heartbeat token owner tick)
  | OpSessionSweep order tick hb => ignore (enforce_session_liveness order tick hb)
  | OpCreateCheckpoint id name owner members wmin wmax tick abort =>
    ignore (on_registry (create_workspace_checkpoint id name owner members wmin wmax tick abort))
  | OpSetRestoreStatus id status updated_at abort =>
    ignore (on_registry (set_workspace_checkpoint_restore_status id status updated_at abort))
  | OpSetMemberRestore id path out deleted_at abort =>
    ignore (on_registry (set_workspace_checkpoint_member_restore id path out deleted_at abort))
  | OpSetMemberPin id path pin_state tier abort =>
    ignore (on_registry (set_workspace_checkpoint_member_pin id path pin_state tier abort))
  | OpAdjustRefcount id delta abort =>
    ignore (on_registry (adjust_workspace_checkpoint_pin_refcount id delta abort))
  end.

Definition run_op (o : op) (s : Service) : Service := (op_proc o s).2.

(** What an operation takes from outside. *)
Definition admissible (o : op) (s : Service) : Prop :=
  match o with
  | OpRegister id _ _ _ _ _ _ =>
    get_record (registry s) id = None ∧
    ∀ token cut, dget (session_pins (registry s)) token = Some cut → dget cut id = None
  | OpCommitAll _ writes _ _ => dict_wf writes
  | OpSessionCommitAll _ writes _ _ _ => dict_wf writes
  | OpBeginSession _ _ _ token => dget (session_meta (registry s)) token = None
  | _ => True
  end.

(** The agents that may take a new claim on an artifact, and the artifact removed. *)
Definition claims (o : op) : UUID → UUID → Prop :=
  match o with
  | OpFetch q => claimant (fq_artifact_id q) (fq_requesting_agent_id q)
  | OpWrite ag a _ _ => claimant a ag
  | _ => nobody
  end.

Definition deletes (o : op) (a : UUID) : Prop :=
  match o with OpDelete _ b _ => a = b | _ => False end.

Inductive reachable : Service → Prop :=
| reach_init sink names instance retain policy mi me clock r caps :
    registry_init sink names instance retain policy mi me clock = Ok r →
    reachable (service_init r caps)
| reach_step s o : reachable s → admissible o s → reachable (run_op o s).

(** ** Every operation keeps the invariant and advances the registry *)
Lemma ignore_state {A} (m : SM A) s : (ignore m s).2 = (m s).2.
Proof. unfold ignore, mbind, proc_bind. by destruct (m s) as [[]]. Qed.

Ltac checkpoint_cases :=
  unfold create_workspace_checkpoint, set_workspace_checkpoint_restore_status,
    set_workspace_checkpoint_member_restore, set_workspace_checkpoint_member_pin,
    adjust_workspace_checkpoint_pin_refcount, abort_guard, create_checkpoint, set_checkpoint_restore_status,
    set_checkpoint_member_restore, set_checkpoint_member_pin, adjust_checkpoint_pin_refcount,
    require_checkpoint, update_member, mbind, proc_bind, gets, of_outcome, modify, raise, mret, proc_ret;
  by repeat (case_match; simpl in *; simplify_eq; try done).

Lemma checkpoint_steps X :
  (∀ id name owner members wmin wmax tick abort,
     steps X (create_workspace_checkpoint id name owner members wmin wmax tick abort)) ∧
  (∀ id status t abort, steps X (set_workspace_checkpoint_restore_status id status t abort)) ∧
  (∀ id path o d abort, steps X (set_workspace_checkpoint_member_restore id path o d abort)) ∧
  (∀ id path p t abort, steps X (set_workspace_checkpoint_member_pin id path p t abort)) ∧
  (∀ id delta abort, steps X (adjust_workspace_checkpoint_pin_refcount id delta abort)).
Proof.
  split_and!; intros; intros r _; apply records_same_good;
    [checkpoint_cases|split; [checkpoint_cases..|]|checkpoint_cases|split; [checkpoint_cases..|]|
     checkpoint_cases|split; [checkpoint_cases..|]|checkpoint_cases|split; [checkpoint_cases..|]|
     checkpoint_cases|split; [checkpoint_cases..|]].
  - apply create_keeps_manifests.
  - apply status_keeps_manifests.
  - apply member_restore_keeps_manifests.
  - apply member_pin_keeps_manifests.
  - apply refcount_keeps_manifests.
Qed.

Lemma delete_ok ag a tick s : sys_ok s →
  sys_ok (on_registry (delete ag a tick) s).2 ∧
  advances nobody (eq a) (registry s) (registry (on_registry (delete ag a tick) s).2).
Proof.
  intros [Hreg [P M K O C B Cap T Cut] Hmf]. rewrite on_registry_state.
  pose proof (delete_only ag a tick (registry s) Hreg) as [Hok [] Hothers].
  set (r' := (delete ag a tick (registry s)).2) in *.
  assert (∀ b rec, get_record r' b = Some rec → get_record (registry s) b = Some rec) as Hsub.
  { intros b rec. destruct (decide (b = a)) as [->|]; [|by rewrite Hothers].
    subst r'. unfold delete, mbind, proc_bind, gets, require_artifact, remove_artifact, modify.
    destruct (has_artifact _ _); [|done]. simpl. destruct (get_artifact _ _); [|done]. simpl.
    unfold get_record. simpl. by rewrite dget_dpop_eq. }
  split; [split; [done| |by apply kp_manifests]; split; simpl; rewrite ?kp_pins, ?kp_meta; try done|].
  - unfold session_count. by rewrite kp_meta.
  - intros t cut b v Ht Hv rec Hrec. by eapply Cut; [..|apply Hsub].
  - split; simpl; try done.
    + intros b rec rec' Hb Hb'. apply Hsub in Hb'. by simplify_eq.
    + intros b Hb. by rewrite Hothers by naive_solver.
    + by apply same_sessions_eq.
Qed.

Lemma register_ok id name c owner sz h deps s : sys_ok s →
  get_record (registry s) id = None →
  (∀ token cut, dget (session_pins (registry s)) token = Some cut → dget cut id = None) →
  let s' := (on_registry (service_register_artifact id name c owner sz h deps) s).2 in
  sys_ok s' ∧ advances nobody (λ _, False) (registry s) (registry s').
Proof.
  intros [Hreg [P M K O C B Cap T Cut] Hmf] Hn Hpins. cbv zeta. rewrite on_registry_state.
  pose proof (register_only id name c owner sz h deps (registry s) Hreg Hn) as [Hok [] Hothers].
  set (r' := (service_register_artifact _ _ _ _ _ _ _ (registry s)).2) in *.
  split; [split; [done| |by apply kp_manifests]; split; simpl; rewrite ?kp_pins, ?kp_meta; try done|].
  - unfold session_count. by rewrite kp_meta.
  - intros t cut b v Ht Hv rec Hrec. destruct (decide (b = id)) as [->|Hb].
    + by rewrite (Hpins t cut Ht) in Hv.
    + rewrite Hothers in Hrec by done. by eapply Cut.
  - split; simpl; try done.
    + intros b rec rec' Hb Hb'. destruct (decide (b = id)) as [->|Hne]; [congruence|].
      rewrite Hothers in Hb' by done. by simplify_eq.
    + intros b _ [rec Hb]. destruct (decide (b = id)) as [->|Hne]; [congruence|]. rewrite Hothers by done. eauto.
    + by apply same_sessions_eq.
Qed.

Theorem run_op_ok o s : sys_ok s → admissible o s →
  sys_ok (run_op o s) ∧ advances (claims o) (deletes o) (registry s) (registry (run_op o s)).
Proof.
  intros Hs Ha. unfold run_op. destruct o; cbn [op_proc claims deletes admissible] in *; rewrite ignore_state.
  - destruct Ha. by apply register_ok.
  - by apply on_registry_good, Hs; apply fetch_steps.
  - by apply on_registry_good, Hs; apply read_at_version_steps.
  - by apply on_registry_good, Hs; apply write_steps.
  - by apply on_registry_good, Hs; apply commit_steps.
  - by apply on_registry_good, Hs; apply commit_cas_steps.
  - by apply on_registry_good, Hs; apply commit_all_steps.
  - by apply on_registry_good, Hs; apply invalidate_steps.
  - destruct (delete_ok ag a tick s Hs) as [? [? ? ? ? ? Hp ?]]. split; [done|]. split; try done.
    intros b Hb. apply Hp. naive_solver.
  - by apply on_registry_good, Hs; apply heartbeat_steps.
  - by apply on_registry_good, Hs; apply expire_steps.
  - by apply on_registry_good, Hs; apply reclaim_steps.
  - destruct (begin_session_ok read_set owner tick token s Hs Ha) as (? & Hr & Hor).
    split; [done|]. apply same_records_advances; [done|by destruct Hor as [-> | ->]..|].
    destruct Hor as [-> | ->]; [by apply same_sessions_eq|]. by apply opened_sessions; [apply Hs|].
  - by apply at_most_one_ok, session_read_step.
  - by apply at_most_one_ok, session_commit_step.
  - by apply at_most_one_ok, session_commit_all_step.
  - split; [by apply dropped_ok|]. apply same_records_advances; [done..|].
    by apply (dropped_sessions token s s), same_sessions_eq.
  - destruct (heartbeat_ok token owner tick s Hs) as [? ->]. split; [done|]. by apply same_records_advances, same_sessions_eq.
  - destruct (decide (hb < 1)) as [Hhb|Hhb].
    { unfold enforce_session_liveness. rewrite decide_True by done. split; [done|].
      by apply same_records_advances, same_sessions_eq. }
    rewrite sweep_run by lia. cbv zeta. cbn [snd].
    destruct (sweep_fold_ok (session_meta (registry s)) tick hb (order (sweep_tokens s)) s 0 Hs)
      as (? & ? & ? & ? & ? & ?).
    split; [done|]. apply same_records_advances; [done..|]. by apply sweep_fold_sessions, same_sessions_eq.
  - by apply on_registry_good, Hs; apply checkpoint_steps.
  - by apply on_registry_good, Hs; apply checkpoint_steps.
  - by apply on_registry_good, Hs; apply checkpoint_steps.
  - by apply on_registry_good, Hs; apply checkpoint_steps.
  - by apply on_registry_good, Hs; apply checkpoint_steps.
Qed.

Lemma init_ok sink names instance retain policy mi me clock r caps :
  registry_init sink names instance retain policy mi me clock = Ok r → sys_ok (service_init r caps).
Proof.
  unfold registry_init. intros Hr. assert (records r = [] ∧ session_pins r = [] ∧ session_meta r = [] ∧
    checkpoints r = []) as (Hrec & Hp & Hm & Hc) by (by repeat case_match; simplify_eq).
  split; [split|split|intros id cp; simpl; by rewrite Hc]; unfold get_record; simpl; rewrite ?Hrec, ?Hp, ?Hm; simpl; try done.
  - apply dict_wf_nil.
  - apply dict_wf_nil.
  - apply dict_wf_nil.
  - unfold session_count. rewrite Hm. simpl. lia.
  - unfold REAPED_TOMBSTONE_CAP. lia.
Qed.

Lemma reachable_ok s : reachable s → sys_ok s.
Proof. induction 1; [by eapply init_ok|]. by apply run_op_ok. Qed.
