(* ===== verification/Safety.v ===== *)
(** Safety of the coordinator over arbitrary runs: coherence of the copies, version
    monotonicity, no lost update, no stale apply, no zombie revocation. *)
From S2P Require Import Prelude Core Hashing Retention Registry RegistryFacts CommitFacts Service.
From S2P Require Import ServiceFacts RevocationFacts Evolution Sessions SessionFacts Checkpoints System.

Open Scope Z_scope.
Open Scope string_scope.

(** ** Runs *)
Fixpoint run (ops : list op) (s : Service) : Service :=
  match ops with
  | [] => s
  | o :: ops' => run ops' (run_op o s)
  end.

Fixpoint admissible_run (ops : list op) (s : Service) : Prop :=
  match ops with
  | [] => True
  | o :: ops' => admissible o s ∧ admissible_run ops' (run_op o s)
  end.

Lemma run_reachable ops s : reachable s → admissible_run ops s → reachable (run ops s).
Proof.
  revert s. induction ops as [|o ops IH]; intros s Hs; simpl; [done|].
  intros [Ho Hops]. apply IH; [by apply reach_step|done].
Qed.

Lemma rec_evolves_weaken pins (X Y : UUID → Prop) rec rec' : (∀ p, X p → Y p) →
  rec_evolves pins X rec rec' → rec_evolves ∅ Y rec rec'.
Proof.
  intros HXY [V S I G C P T]. split; [done..| | |done].
  - intros p Hp. apply C. intros Hx. by apply Hp, HXY.
  - intros w Hw. set_solver.
Qed.

(** A record along a run that does not delete its artifact. *)
Lemma get_of_record r a rec : get_record r a = Some rec →
  get_artifact r a = Some (artifact rec) ∧ get_content r a = Some (content rec).
Proof. unfold get_artifact, get_content. by intros ->. Qed.

Lemma run_evolves ops s a rec : sys_ok s → admissible_run ops s →
  Forall (λ o, ¬ deletes o a) ops → get_record (registry s) a = Some rec →
  ∃ rec', get_record (registry (run ops s)) a = Some rec' ∧
    rec_evolves ∅ (λ p, Exists (λ o, claims o a p) ops) rec rec'.
Proof.
  revert s rec. induction ops as [|o ops IH]; intros s rec Hs; simpl.
  { intros _ _ Hr. exists rec. by split. }
  intros [Ho Hops] [Hd Hds]%Forall_cons Hr.
  destruct (run_op_ok o s Hs Ho) as [Hs1 Had].
  destruct (ad_present _ _ _ _ Had a Hd) as [rec1 Hr1]; [by exists rec|].
  destruct (IH _ rec1 Hs1 Hops Hds Hr1) as (rec' & Hr' & Hev).
  exists rec'. split; [done|]. trans rec1.
  - eapply rec_evolves_weaken; [|by eapply ad_evolves]. intros p Hp. by left.
  - eapply rec_evolves_weaken, Hev. intros p Hp. by right.
Qed.

(** ** Coherence of the copies *)

(** The state map of an artifact is coherent: the single-writer check passes, a
    write grant excludes any other valid copy, and a valid copy was obtained at the
    current version. *)
Definition coherent (r : Registry) (a : UUID) : Prop :=
  check_single_writer (get_state_map r a) = Ok tt ∧
  (∀ p q sp sq, get_agent_state r a p = Some sp → get_agent_state r a q = Some sq →
     m_or_e sp = true → p ≠ q → sq = INVALID) ∧
  (∀ p s art, get_agent_state r a p = Some s → s ≠ INVALID → get_artifact r a = Some art →
     last_observed_version_for r a p = Some (art_version art)).

Lemma rec_ok_coherent r a rec : get_record r a = Some rec → rec_ok rec → coherent r a.
Proof.
  intros Hr [Hc Hf]. unfold coherent, get_state_map, get_agent_state, get_artifact, last_observed_version_for.
  rewrite Hr. simpl. split_and!.
  - apply check_single_writer_spec; [apply Hc|]. intros p q sp sq Hp Hq Hsp Hsq.
    apply (rok_excl _ Hc); unfold st; [by rewrite Hp|]. rewrite Hq. by apply m_or_e_non_invalid.
  - intros p q sp sq Hp Hq Hsp Hne. destruct (non_invalid sq) eqn:En; [|by destruct sq].
    exfalso. apply Hne, (rok_excl _ Hc); unfold st; [by rewrite Hp|by rewrite Hq].
  - intros p s art Hp Hs [= <-]. apply (Hf p). unfold st. rewrite Hp. by apply non_invalid_spec.
Qed.

Lemma reg_ok_coherent r a : reg_ok r → coherent r a.
Proof.
  intros Hreg. destruct (get_record r a) as [rec|] eqn:Er; [by eapply rec_ok_coherent, reg_rec|].
  unfold coherent, get_state_map, get_agent_state, last_observed_version_for. by rewrite Er.
Qed.

Lemma sys_ok_coherent s a : sys_ok s → coherent (registry s) a.
Proof. intros [Hreg _]. by apply reg_ok_coherent. Qed.

(** C1: in every state the coordinator can reach, whatever the interleaving of
    calls and sweeps and whatever the state log does, the copies of every artifact
    are coherent: one write grant at most, excluding every other valid copy, and
    no agent holds a valid copy of an old version. *)
Theorem coherence_reachable s a : reachable s → coherent (registry s) a.
Proof. intros Hs. by apply sys_ok_coherent, reachable_ok. Qed.

(** ** A concrete system for the examples

    Two artifacts (1 and 2), retention of the last two versions, a state log that
    never raises. *)
Module Demo.
Definition r0 : Registry :=
  mkRegistry [] [] (Some (λ _ _, false)) [] None "inst" "epoch" 0 true
    (Some (mkPolicy (Some 2) None)) [] [] [] [] [] (λ n, Z.of_nat n) 0.
Definition s0 : Service := service_init r0 None.

Definition setup : list op :=
  [ OpRegister 1 "plan.md" (BStr "v1") None None (Some "h1") [];
    OpRegister 2 "code.py" (BStr "w1") None None (Some "g1") [] ].
Definition s1 : Service := run setup s0.

Lemma init_reachable : reachable s0.
Proof.
  apply (reach_init (Some (λ _ _, false)) None (Some "inst") true (Some (mkPolicy (Some 2) None))
    "inst" "epoch" (λ n, Z.of_nat n)). reflexivity.
Qed.

Lemma s1_reachable : reachable s1.
Proof.
  apply run_reachable; [apply init_reachable|]. simpl. by split_and!.
Qed.

Lemma s1_ok : sys_ok s1.
Proof. apply reachable_ok, s1_reachable. Qed.

Lemma fetches_reachable (qs : list FetchRequest) s : reachable s → reachable (run (map OpFetch qs) s).
Proof. revert s. induction qs as [|q qs IH]; intros s Hs; simpl; [done|]. apply IH. by apply reach_step. Qed.

(** Agent 7 holds the write grant of artifact 1. *)
Definition held : Service := run [OpFetch (mkFetchRequest 1 7 3)] s1.
Definition held_rec : ArtifactRecord :=
  Eval vm_compute in default (fresh_record (mkArtifact 1 "" 1 None None []) (BStr "")) (get_record (registry held) 1).

Definition s1_rec : ArtifactRecord :=
  Eval vm_compute in default (fresh_record (mkArtifact 1 "" 1 None None []) (BStr "")) (get_record (registry s1) 1).

Lemma s1_quiet : log_quiet (registry s1).
Proof. by intros sink [= <-]. Qed.

Lemma held_reachable : reachable held.
Proof. apply run_reachable; [apply s1_reachable|by repeat split]. Qed.

Lemma held_quiet : log_quiet (registry held).
Proof. by intros sink [= <-]. Qed.
End Demo.

Lemma coherence_reachable_witness :
  let s := run (map OpFetch [mkFetchRequest 1 7 0; mkFetchRequest 1 8 1]) Demo.s1 in
  get_agent_state (registry s) 1 7 = Some SHARED ∧ get_agent_state (registry s) 1 8 = Some SHARED ∧
  coherent (registry s) 1.
Proof.
  split_and!; [by vm_compute..|]. apply coherence_reachable, Demo.fetches_reachable, Demo.s1_reachable.
Defined.

(** ** Versions *)

(** C23: along any run that does not delete an artifact, its version never goes
    down, and as long as the version is the same so are its metadata and its body:
    no operation rewrites a version in place. *)
Theorem version_monotone ops s a art c : reachable s → admissible_run ops s →
  Forall (λ o, ¬ deletes o a) ops →
  get_artifact (registry s) a = Some art → get_content (registry s) a = Some c →
  ∃ art' c', get_artifact (registry (run ops s)) a = Some art' ∧
    get_content (registry (run ops s)) a = Some c' ∧
    art_version art <= art_version art' ∧
    (art_version art' = art_version art → art' = art ∧ c' = c).
Proof.
  intros Hs Hops Hd. unfold get_artifact, get_content.
  destruct (get_record (registry s) a) as [rec|] eqn:Er; [|done]. simpl. intros [= <-] [= <-].
  destruct (run_evolves ops s a rec (reachable_ok _ Hs) Hops Hd Er) as (rec' & Hr' & Hev).
  exists (artifact rec'), (content rec'). rewrite Hr'. split_and!; [done..|apply Hev|apply (ev_same _ _ _ _ Hev)].
Qed.

Lemma version_monotone_witness :
  let ops := [OpWrite 7 1 3 false; OpCommit 7 1 "v2" 4 None None false] in
  get_artifact (registry (run ops Demo.s1)) 1 = Some (mkArtifact 1 "plan.md" 2 (Some "h1") None []) ∧
  ∃ art' c', get_artifact (registry (run ops Demo.s1)) 1 = Some art' ∧
    get_content (registry (run ops Demo.s1)) 1 = Some c' ∧
    1 <= art_version art' ∧
    (art_version art' = 1 → art' = mkArtifact 1 "plan.md" 1 (Some "h1") None [] ∧ c' = BStr "v1").
Proof.
  split; [by vm_compute|].
  apply (version_monotone _ Demo.s1 1 (mkArtifact 1 "plan.md" 1 (Some "h1") None []) (BStr "v1")).
  - apply Demo.s1_reachable.
  - by repeat split.
  - repeat constructor; by intros [].
  - by vm_compute.
  - by vm_compute.
Defined.

(** ** Optimistic commits *)

(** A [commit_cas] call that returned a win. *)
Definition cas_wins (o : outcome exn (Artifact * list InvalidationSignal + ConflictDetail)) : bool :=
  match o with Ok (inl _) => true | _ => false end.

(** A [commit_cas] that returns passed its guards. *)
Lemma cas_ok_inv ag a v h tick sz c abort r res r' : reg_ok r →
  service_commit_cas ag a v h tick sz c abort r = (Ok res, r') →
  ∃ rec, get_record r a = Some rec ∧ dget (transient_by_agent rec) ag = None ∧ m_or_e (st rec ag) = false ∧
    cas_result_ok a ag r rec v h tick sz c res r'.
Proof.
  intros Hok. unfold service_commit_cas, abort_guard. destruct abort; [done|]. intros Hrun.
  destruct (get_record r a) as [rec|] eqn:Er.
  2: { unfold commit_cas_impl, mbind, proc_bind, require_artifact in Hrun.
       by rewrite (get_artifact_None _ _ Er) in Hrun. }
  destruct (dget (transient_by_agent rec) ag) eqn:Et; [by erewrite (cas_refused_transient a r rec) in Hrun|].
  destruct (m_or_e (st rec ag)) eqn:Em; [by rewrite (cas_refused_holder a r rec) in Hrun|].
  pose proof (triple_service_cas a r rec ag v h tick sz c (reg_rec _ Hok _ _ Er) (reg_id _ Hok _ _ Er) Em Et
    r (at_rec_refl _ _ _ Er)) as Ht. rewrite Hrun in Ht. by exists rec.
Qed.

(** What a winning [commit_cas] tells: the expected version was current, and the
    registry holds its artifact at the next version. *)
Lemma cas_win_inv ag a v h tick sz c abort r res r' : reg_ok r →
  service_commit_cas ag a v h tick sz c abort r = (Ok (inl res), r') →
  ∃ rec, get_record r a = Some rec ∧ cas_arbitrate rec ag v = None ∧
    dget (transient_by_agent rec) ag = None ∧ m_or_e (st rec ag) = false ∧
    res = (cas_updated a rec h sz,
           replicate (length (cas_peers rec ag)) (mkSignal a (version rec + 1) tick ag)) ∧
    ∃ now, at_rec a r (cas_final r now a ag rec h sz c) r'.
Proof.
  intros Hok Hrun. destruct (cas_ok_inv _ _ _ _ _ _ _ _ _ _ _ Hok Hrun) as (rec & Hr & Htr & Hme & Hres).
  unfold cas_result_ok in Hres. exists rec. destruct (cas_arbitrate rec ag v) as [[]|] eqn:Ec; [naive_solver..|].
  destruct Hres as [? ?]. simplify_eq. by split_and!.
Qed.

(** A losing one moves no record. *)
Lemma cas_conflict_inv ag a v h tick sz c abort r d r' : reg_ok r →
  service_commit_cas ag a v h tick sz c abort r = (Ok (inr d), r') → ∀ b, get_record r' b = get_record r b.
Proof.
  intros Hok Hrun b. destruct (cas_ok_inv _ _ _ _ _ _ _ _ _ _ _ Hok Hrun) as (rec & Hr & _ & _ & Hres).
  unfold cas_result_ok in Hres. destruct (cas_arbitrate rec ag v) as [[]|]; [done| |naive_solver].
  destruct Hres as [_ Hat]. destruct (decide (b = a)) as [->|Hb].
  - by rewrite Hr, (ar_rec _ _ _ _ Hat).
  - by apply (ar_others _ _ _ _ Hat).
Qed.

(** It names the current version, and it lost for one of three reasons. *)
Lemma cas_lost_inv ag a v h tick sz c r d r' : reg_ok r →
  service_commit_cas ag a v h tick sz c false r = (Ok (inr d), r') →
  ∃ rec, get_record r a = Some rec ∧ version rec = cd_current_version d ∧
    (v < cd_current_version d ∨ (∃ q, q ≠ ag ∧ m_or_e (st rec q) = true) ∨ fence_superseded rec ag = true).
Proof.
  intros Hok Hrun. destruct (cas_ok_inv _ _ _ _ _ _ _ _ _ _ _ Hok Hrun) as (rec & Hr & _ & _ & Hres).
  pose proof (cas_arbitrate_spec rec ag v (rok_states _ (rok_core _ (reg_rec _ Hok _ _ Hr)))) as Hs.
  unfold cas_result_ok in Hres. exists rec. split; [done|]. destruct (cas_arbitrate rec ag v) as [[?|reason]|]; [done| |naive_solver].
  destruct Hres as [[= ->] _]. simpl. split; [done|]. destruct reason; naive_solver.
Qed.

Lemma cas_mismatch_loses ag a v h tick sz c abort r rec : reg_ok r → get_record r a = Some rec →
  v ≠ version rec → cas_wins (service_commit_cas ag a v h tick sz c abort r).1 = false.
Proof.
  intros Hok Hr Hv. destruct (service_commit_cas _ _ _ _ _ _ _ _ r) as [[[res|d]|e] r'] eqn:E; simpl; try done.
  exfalso. destruct (cas_win_inv _ _ _ _ _ _ _ _ _ _ _ Hok E) as (rec' & Hr' & Hc & _). simplify_eq.
  pose proof (cas_arbitrate_spec rec ag v (rok_states _ (rok_core _ (reg_rec _ Hok _ _ Hr)))) as Hs.
  rewrite Hc in Hs. naive_solver.
Qed.

(** C2 (no lost update): once a [commit_cas] has won at an expected version, no
    later [commit_cas] at that version wins, of any agent, however the calls
    interleave, while the artifact is not deleted. *)
Theorem no_lost_update ag1 ag2 a v h1 h2 t1 t2 sz1 sz2 c1 c2 ab1 ab2 ops s :
  reachable s → cas_wins (service_commit_cas ag1 a v h1 t1 sz1 c1 ab1 (registry s)).1 = true →
  let o := OpCommitCas ag1 a v h1 t1 sz1 c1 ab1 in
  admissible_run ops (run_op o s) → Forall (λ o, ¬ deletes o a) ops →
  cas_wins (service_commit_cas ag2 a v h2 t2 sz2 c2 ab2 (registry (run ops (run_op o s)))).1 = false.
Proof.
  intros Hs Hwin o Hops Hd. pose proof (reachable_ok _ Hs) as Hok.
  destruct (service_commit_cas ag1 a v h1 t1 sz1 c1 ab1 (registry s)) as [[[res|]|] r1] eqn:E; try done.
  destruct (cas_win_inv _ _ _ _ _ _ _ _ _ _ _ (sy_reg _ Hok) E) as (rec & Hr & Hc & _ & _ & _ & now & Hat).
  pose proof (cas_arbitrate_spec rec ag1 v (rok_states _ (rok_core _ (reg_rec _ (sy_reg _ Hok) _ _ Hr)))) as Hspec.
  rewrite Hc in Hspec. destruct Hspec as (-> & Hother & _).
  destruct (run_op_ok o s Hok I) as [Hok1 _].
  assert (registry (run_op o s) = r1) as Hr1.
  { unfold run_op, o. cbn [op_proc]. rewrite ignore_state, on_registry_state, E. done. }
  rewrite <-Hr1 in Hat.
  destruct (run_evolves ops _ a _ Hok1 Hops Hd (ar_rec _ _ _ _ Hat)) as (rec' & Hr' & Hev).
  assert (reachable (run ops (run_op o s))) as Hfin by (apply run_reachable; [by apply reach_step|done]).
  eapply cas_mismatch_loses; [apply reachable_ok, Hfin|exact Hr'|].
  pose proof (ev_version _ _ _ _ Hev). rewrite cas_final_version in * by
    (done || apply (rok_states _ (rok_core _ (reg_rec _ (sy_reg _ Hok) _ _ Hr)))). lia.
Qed.

Lemma no_lost_update_witness :
  let o := OpCommitCas 7 1 1 "h2" 3 None (Some (BStr "v2")) false in
  cas_wins (service_commit_cas 7 1 1 "h2" 3 None (Some (BStr "v2")) false (registry Demo.s1)).1 = true ∧
  cas_wins (service_commit_cas 8 1 1 "h3" 5 None (Some (BStr "x")) false
    (registry (run [OpFetch (mkFetchRequest 1 8 4)] (run_op o Demo.s1)))).1 = false.
Proof.
  split; [by vm_compute|].
  apply (no_lost_update 7 8 1 1 "h2" "h3" 3 5 None None (Some (BStr "v2")) (Some (BStr "x")) false false
           [OpFetch (mkFetchRequest 1 8 4)] Demo.s1).
  - apply Demo.s1_reachable.
  - by vm_compute.
  - by repeat split.
  - repeat constructor; by intros [].
Defined.

(** ** The read-generation fence *)

(** The claim of [ag] on [a] has been superseded by a revocation. *)
Definition fenced (r : Registry) (a ag : UUID) : Prop :=
  ∃ rec, get_record r a = Some rec ∧ fence_superseded rec ag = true.

Lemma fence_evolves (X : UUID → Prop) pins rec rec' ag : ¬ X ag → rec_evolves pins X rec rec' →
  fence_superseded rec ag = true → fence_superseded rec' ag = true.
Proof.
  intros Hx [_ _ _ G C _ _]. unfold fence_superseded. rewrite C by done.
  destruct (dget (read_generation_by_agent rec) ag); [|done].
  rewrite !bool_decide_eq_true. lia.
Qed.

Lemma fenced_commit_refused ag a c tick h sz abort r : reg_ok r → fenced r a ag →
  ∃ e, commit ag a c tick h sz abort r = (Raise e, r).
Proof.
  intros Hok (rec & Hr & Hf). unfold commit, abort_guard. destruct abort; [by eexists|].
  rewrite (commit_refused a r rec); [by eexists|done|].
  destruct (m_or_e (st rec ag)) eqn:Em; [|done].
  by rewrite (holder_not_fenced rec ag (rok_core _ (reg_rec _ Hok _ _ Hr)) Em) in Hf.
Qed.

Lemma fenced_cas_loses ag a v h tick sz c abort r : reg_ok r → fenced r a ag →
  cas_wins (service_commit_cas ag a v h tick sz c abort r).1 = false.
Proof.
  intros Hok (rec & Hr & Hf).
  destruct (service_commit_cas _ _ _ _ _ _ _ _ r) as [[[res|d]|e] r'] eqn:E; simpl; try done.
  destruct (cas_win_inv _ _ _ _ _ _ _ _ _ _ _ Hok E) as (rec' & Hr' & Hc & _). simplify_eq.
  pose proof (cas_arbitrate_spec rec ag v (rok_states _ (rok_core _ (reg_rec _ Hok _ _ Hr)))) as Hs.
  rewrite Hc in Hs. naive_solver.
Qed.

(** C20 (no stale apply): an agent whose claim on an artifact was superseded by a
    revocation stays fenced through any run in which it does not claim the
    artifact again, and every late write of it is refused: [commit_cas] does not
    win and [commit] raises leaving the registry as it was. *)
Theorem no_stale_apply ops s a ag : reachable s → fenced (registry s) a ag → admissible_run ops s →
  Forall (λ o, ¬ deletes o a ∧ ¬ claims o a ag) ops →
  let r := registry (run ops s) in
  fenced r a ag ∧
  (∀ v h tick sz c abort, cas_wins (service_commit_cas ag a v h tick sz c abort r).1 = false) ∧
  (∀ c tick h sz abort, ∃ e, commit ag a c tick h sz abort r = (Raise e, r)).
Proof.
  intros Hs (rec & Hr & Hf) Hops Hall. cbv zeta.
  apply Forall_and in Hall as [Hd Hc].
  assert (reg_ok (registry (run ops s))) as Hok by (apply reachable_ok; by apply run_reachable).
  assert (fenced (registry (run ops s)) a ag) as Hfen.
  { destruct (run_evolves ops s a rec (reachable_ok _ Hs) Hops Hd Hr) as (rec' & Hr' & Hev).
    exists rec'. split; [done|]. eapply fence_evolves, Hf; [|exact Hev].
    intros Hex. apply Exists_exists in Hex as (o & Ho & Hcl). rewrite Forall_forall in Hc. by apply (Hc o). }
  split_and!; [done|..].
  - intros. by apply fenced_cas_loses.
  - intros. by apply fenced_commit_refused.
Qed.

(** Agent 7 takes a grant, is reclaimed for its missing heartbeat, and agent 8
    reads; the late commits of 7 are refused. *)
Lemma no_stale_apply_witness :
  let s := run [OpWrite 7 1 1 false; OpReclaim 500 120 900 1 7] Demo.s1 in
  let ops := [OpFetch (mkFetchRequest 1 8 501)] in
  let r := registry (run ops s) in
  fenced r 1 7 ∧
  (∀ v h tick sz c abort, cas_wins (service_commit_cas 7 1 v h tick sz c abort r).1 = false) ∧
  (∀ c tick h sz abort, ∃ e, commit 7 1 c tick h sz abort r = (Raise e, r)).
Proof.
  apply (no_stale_apply [OpFetch (mkFetchRequest 1 8 501)]
           (run [OpWrite 7 1 1 false; OpReclaim 500 120 900 1 7] Demo.s1) 1 7).
  - apply run_reachable; [apply Demo.s1_reachable|by repeat split].
  - eexists. split; [by vm_compute|by vm_compute].
  - by repeat split.
  - apply Forall_singleton. split; [by intros []|]. intros [_ Hag]. discriminate Hag.
Defined.

(** The fence of the pessimistic path never fires: under the coordinator's lock
    an agent that passes the grant check of [commit] holds the current ownership
    epoch, so [StaleReadGeneration] is never raised. *)
Theorem commit_never_stale ag a c tick h sz abort s : reachable s →
  (commit ag a c tick h sz abort (registry s)).1 ≠ Raise StaleReadGeneration.
Proof.
  intros Hs. pose proof (sy_reg _ (reachable_ok _ Hs)) as Hok. unfold commit, abort_guard. destruct abort; [done|].
  destruct (get_record (registry s) a) as [rec|] eqn:Er.
  2: { unfold commit_impl, mbind, proc_bind, require_artifact. by rewrite (get_artifact_None _ _ Er). }
  destruct (m_or_e (st rec ag)) eqn:Em; [|by rewrite (commit_refused a _ rec)].
  pose proof (triple_commit a _ rec ag c tick h sz (reg_rec _ Hok _ _ Er) (reg_id _ Hok _ _ Er) Em
    _ (at_rec_refl _ _ _ Er)) as Ht.
  destruct (commit_impl ag a c tick h sz (registry s)) as [[x|e] r']; [done|].
  destruct Ht as [-> _]. done.
Qed.

Lemma commit_never_stale_witness :
  (commit 7 1 "x" 3 None None false (registry Demo.s1)).1 ≠ Raise StaleReadGeneration.
Proof. apply commit_never_stale, Demo.s1_reachable. Defined.

(** ** Revocation *)

(** No zombie revocation: a revocation of a valid copy that another agent
    issued for a version the artifact has already reached is ignored, whatever the
    log does: it returns nothing and leaves the registry as it was. *)
Theorem zombie_revocation_ignored ag a v issuer tick s rec : reachable s →
  get_record (registry s) a = Some rec → issuer ≠ ag → st rec ag ≠ INVALID → v <= version rec →
  invalidate ag a v issuer tick false (registry s) = (Ok None, registry s).
Proof.
  intros Hs Hr Hi Hst Hv. pose proof (reg_rec _ (sy_reg _ (reachable_ok _ Hs)) _ _ Hr) as [_ Hf].
  unfold invalidate, abort_guard, invalidate_impl, mbind, proc_bind, gets, has_artifact.
  rewrite (proj2 (dmem_true _ _)); [|by exists rec]. cbn [negb].
  rewrite (at_superseded a _ rec) by by apply at_rec_refl. unfold superseded.
  rewrite decide_False by done. rewrite decide_False; [|unfold st in Hst; by intros He; rewrite He in Hst].
  rewrite (Hf ag) by by apply non_invalid_spec. by rewrite bool_decide_true.
Qed.

Lemma zombie_revocation_ignored_witness :
  get_agent_state (registry Demo.held) 1 7 = Some EXCLUSIVE ∧
  invalidate 7 1 1 8 4 false (registry Demo.held) = (Ok None, registry Demo.held).
Proof.
  split; [by vm_compute|]. apply (zombie_revocation_ignored 7 1 1 8 4 Demo.held Demo.held_rec).
  - apply Demo.held_reachable.
  - by vm_compute.
  - done.
  - by vm_compute.
  - by vm_compute.
Defined.

(** A release by the holder itself, or a revocation for a version the holder has
    not observed, takes effect: the copy becomes INVALID, the pending transition is
    cleared, the other agents and the version stay, and taking away a write grant
    opens a new ownership epoch, which fences the old holder. *)
Theorem revocation_applies ag a v issuer tick s rec : reachable s → log_quiet (registry s) →
  get_record (registry s) a = Some rec → issuer = ag ∨ version rec < v →
  ∃ r' rec', invalidate ag a v issuer tick false (registry s) = (Ok (Some (mkSignal a v tick issuer)), r') ∧
    get_record r' a = Some rec' ∧ st rec' ag = INVALID ∧ dget (transient_by_agent rec') ag = None ∧
    version rec' = version rec ∧ (∀ q, q ≠ ag → st rec' q = st rec q) ∧
    owner_generation rec' = owner_generation rec + (if m_or_e (st rec ag) then 1 else 0) ∧
    (m_or_e (st rec ag) = true → fenced r' a ag).
Proof.
  intros Hs Hq Hr Hor. pose proof (sy_reg _ (reachable_ok _ Hs)) as Hok.
  pose proof (reg_rec _ Hok _ _ Hr) as Hrok. pose proof (reg_id _ Hok _ _ Hr) as Hid.
  assert (superseded rec ag v issuer = false) as Hsup.
  { unfold superseded. destruct Hor as [->|Hv]; [by rewrite decide_True|].
    repeat case_decide; try done. destruct (dget (last_observed_version_by_agent rec) ag) as [w|] eqn:Ew; [|done].
    pose proof (rok_observed_le _ (rok_core _ Hrok) _ _ Ew). apply bool_decide_eq_false_2. lia. }
  destruct (triple_total _ _ _ _ (registry s) (triple_invalidate a (registry s) rec ag v issuer tick Hrok Hid)
    (at_rec_refl _ _ _ Hr)) as (res & r' & Hrun & Hpost); [by intros e r' (_ & Hn & _)|].
  rewrite Hsup in Hpost. destruct Hpost as [-> Hat].
  assert (owner_generation (invalidate_rec ag tick rec) =
    owner_generation rec + (if m_or_e (st rec ag) then 1 else 0)) as Hgen.
  { unfold invalidate_rec. simpl. rewrite transition_generation. by destruct (m_or_e (st rec ag)) eqn:E;
      unfold bumps_epoch; rewrite E. }
  exists r', (invalidate_rec ag tick rec). split_and!; [done|apply Hat|..].
  - change (st (apply_transition ag INVALID "invalidate" tick rec) ag = INVALID). rewrite st_transition. by rewrite decide_True.
  - apply dget_dpop_eq.
  - apply version_transition.
  - intros q Hne. change (st (apply_transition ag INVALID "invalidate" tick rec) q = st rec q).
    rewrite st_transition. by rewrite decide_False by congruence.
  - done.
  - intros Hme. exists (invalidate_rec ag tick rec). split; [apply Hat|]. unfold fence_superseded.
    rewrite Hgen, Hme. unfold invalidate_rec. simpl. rewrite transition_readgen, invalid_captures_nothing.
    rewrite (rok_readgen _ (rok_core _ Hrok) _ Hme). apply bool_decide_eq_true_2. lia.
Qed.

Lemma revocation_applies_witness :
  log_quiet (registry Demo.held) ∧ m_or_e (st Demo.held_rec 7%N) = true ∧
  ∃ r' rec', invalidate 7 1 1 7 4 false (registry Demo.held) = (Ok (Some (mkSignal 1 1 4 7)), r') ∧
    get_record r' 1%N = Some rec' ∧ st rec' 7%N = INVALID ∧ dget (transient_by_agent rec') 7%N = None ∧
    version rec' = version Demo.held_rec ∧ (∀ q, q ≠ 7%N → st rec' q = st Demo.held_rec q) ∧
    owner_generation rec' = owner_generation Demo.held_rec + (if m_or_e (st Demo.held_rec 7%N) then 1 else 0) ∧
    (m_or_e (st Demo.held_rec 7%N) = true → fenced r' 1 7).
Proof.
  split_and!; [apply Demo.held_quiet|by vm_compute|].
  apply (revocation_applies 7 1 1 7 4 Demo.held Demo.held_rec).
  - apply Demo.held_reachable.
  - apply Demo.held_quiet.
  - by vm_compute.
  - by left.
Defined.
