(* ===== verification/Operations.v ===== *)
(** Functional behaviour of the coordinator operations on every branch, from any
    reachable state. *)
From S2P Require Import Prelude Core Hashing Retention Registry RegistryFacts CommitFacts Service.
From S2P Require Import ServiceFacts RevocationFacts Evolution Sessions SessionFacts Checkpoints System Safety.

Open Scope Z_scope.
Open Scope string_scope.

(** ** Record-level consequences *)
Lemma fetch_no_bump ag s rec : bumps_epoch ag s "fetch" rec = false.
Proof. unfold bumps_epoch. by rewrite andb_false_r. Qed.

Section fetch_rec.
Context (ag : UUID) (tick : Z) (rec : ArtifactRecord) (Hok : rec_ok rec).
Local Abbreviation rec' := (fetch_rec ag tick rec).
Local Abbreviation t := (if decide (fetch_grant rec ag = EXCLUSIVE) then IED else ISG).
Local Abbreviation rec2 := (downgraded ag tick (with_transient ag t tick rec) rec).

Lemma fetch_rec_unfold : rec' = without_transient ag (apply_transition ag (fetch_grant rec ag) "fetch" tick rec2).
Proof. done. Qed.

Lemma fetch_rec_st p :
  st rec' p = if decide (ag = p) then fetch_grant rec ag
              else if non_invalid (st rec p) then SHARED else INVALID.
Proof using Hok.
  change (st rec' p) with (st (apply_transition ag (fetch_grant rec ag) "fetch" tick rec2) p).
  rewrite st_transition. case_decide as Hp; [done|]. by apply downgraded_st.
Qed.

Lemma fetch_rec_artifact : artifact rec' = artifact rec.
Proof using Hok.
  change (artifact rec') with (artifact (apply_transition ag (fetch_grant rec ag) "fetch" tick rec2)).
  by rewrite transition_artifact, downgraded_artifact.
Qed.

Lemma downgraded_generation : owner_generation rec2 = owner_generation rec.
Proof using Hok.
  destruct (downgraded_cases ag tick rec (with_transient ag t tick rec) Hok) as [[_ ->]|(p & _ & _ & _ & ->)]; [done|].
  rewrite transition_generation, fetch_no_bump. simpl. lia.
Qed.

Lemma downgraded_content : content rec2 = content rec.
Proof using Hok.
  destruct (downgraded_cases ag tick rec (with_transient ag t tick rec) Hok) as [[_ ->]|(p & _ & _ & _ & ->)]; [done|].
  by rewrite transition_content.
Qed.

Lemma fetch_rec_generation : owner_generation rec' = owner_generation rec.
Proof using Hok.
  change (owner_generation rec') with
    (owner_generation (apply_transition ag (fetch_grant rec ag) "fetch" tick rec2)).
  rewrite transition_generation, fetch_no_bump, downgraded_generation. lia.
Qed.

Lemma fetch_rec_content : content rec' = content rec.
Proof using Hok.
  change (content rec') with (content (apply_transition ag (fetch_grant rec ag) "fetch" tick rec2)).
  by rewrite transition_content, downgraded_content.
Qed.

(** The reader holds a claim of the current epoch. *)
Lemma fetch_rec_claim : dget (read_generation_by_agent rec') ag = Some (owner_generation rec').
Proof using Hok.
  change (dget (read_generation_by_agent (apply_transition ag (fetch_grant rec ag) "fetch" tick rec2)) ag =
    Some (owner_generation (apply_transition ag (fetch_grant rec ag) "fetch" tick rec2))).
  rewrite transition_readgen. destruct (captures_claim ag (fetch_grant rec ag) "fetch" rec2) eqn:Ec.
  { by rewrite dget_dset_eq. }
  assert (m_or_e (st rec2 ag) = true) as Hme.
  { unfold captures_claim in Ec. destruct (m_or_e (st rec2 ag)); [done|]. exfalso.
    unfold fetch_grant in Ec. by destruct (decide (cas_peers rec ag = [])). }
  rewrite (rok_readgen _ (rok_core _ (downgraded_ok ag t tick rec Hok)) _ Hme).
  rewrite transition_generation, fetch_no_bump. f_equal. lia.
Qed.
End fetch_rec.

Lemma fetch_grant_exclusive rec ag : rec_core rec →
  fetch_grant rec ag = EXCLUSIVE ↔ ∀ q, q ≠ ag → st rec q = INVALID.
Proof. intros Hok. unfold fetch_grant. case_decide as H; rewrite no_peers in H by done; naive_solver. Qed.

Lemma fetch_grant_cases rec ag : fetch_grant rec ag = EXCLUSIVE ∨ fetch_grant rec ag = SHARED.
Proof. unfold fetch_grant. case_decide; naive_solver. Qed.

(** A fetch of a registered artifact returns its current version and body; the
    grant is EXCLUSIVE exactly when nobody else holds a valid copy, and SHARED
    otherwise; every other valid copy is downgraded to SHARED and nothing else moves:
    the version, the body, the ownership epoch and the other artifacts stay, and
    the reader now holds a claim of the current epoch.  An unknown artifact is
    refused without a change. *)
Theorem fetch_spec a ag tick s : reachable s → log_quiet (registry s) →
  let q := mkFetchRequest a ag tick in
  (get_record (registry s) a = None →
     fetch q (registry s) = (Raise (CoherenceError "artifact_not_found"), registry s)) ∧
  (∀ rec, get_record (registry s) a = Some rec → ∃ grant r' rec',
     fetch q (registry s) = (Ok (mkFetchResponse a (version rec) (content rec) grant), r') ∧
     (grant = EXCLUSIVE ↔ ∀ p, p ≠ ag → st rec p = INVALID) ∧ (grant = EXCLUSIVE ∨ grant = SHARED) ∧
     get_record r' a = Some rec' ∧ (∀ b, b ≠ a → get_record r' b = get_record (registry s) b) ∧
     st rec' ag = grant ∧
     (∀ p, p ≠ ag → st rec' p = if non_invalid (st rec p) then SHARED else INVALID) ∧
     artifact rec' = artifact rec ∧ content rec' = content rec ∧
     owner_generation rec' = owner_generation rec ∧
     dget (read_generation_by_agent rec') ag = Some (owner_generation rec)).
Proof.
  intros Hs Hq. cbv zeta. pose proof (sy_reg _ (reachable_ok _ Hs)) as Hok. split.
  - intros Hn. unfold fetch, mbind, proc_bind, require_artifact. simpl. by rewrite (get_artifact_None _ _ Hn).
  - intros rec Hr. pose proof (reg_rec _ Hok _ _ Hr) as Hrok.
    destruct (triple_total _ _ _ _ (registry s)
      (triple_fetch a (registry s) rec ag tick Hrok (reg_id _ Hok _ _ Hr)) (at_rec_refl _ _ _ Hr))
      as (res & r' & Hrun & -> & Hat); [by intros e r' (_ & Hn & _)|].
    exists (fetch_grant rec ag), r', (fetch_rec ag tick rec). rewrite Hrun. split_and!; [done|..].
    + by apply fetch_grant_exclusive, Hrok.
    + apply fetch_grant_cases.
    + apply Hat.
    + apply Hat.
    + rewrite fetch_rec_st by done. by rewrite decide_True.
    + intros p Hp. rewrite fetch_rec_st by done. by rewrite decide_False by congruence.
    + by apply fetch_rec_artifact.
    + by apply fetch_rec_content.
    + by apply fetch_rec_generation.
    + rewrite fetch_rec_claim by done. f_equal. by apply fetch_rec_generation.
Qed.

(** Agent 8 reads what agent 7 holds: both end SHARED. *)
Lemma fetch_spec_witness :
  get_agent_state (fetch (mkFetchRequest 1 8 5) (registry Demo.held)).2 1 7 = Some SHARED ∧
  ∃ grant r' rec',
     fetch (mkFetchRequest 1 8 5) (registry Demo.held) =
       (Ok (mkFetchResponse 1 (version Demo.held_rec) (content Demo.held_rec) grant), r') ∧
     (grant = EXCLUSIVE ↔ ∀ p, p ≠ 8%N → st Demo.held_rec p = INVALID) ∧ (grant = EXCLUSIVE ∨ grant = SHARED) ∧
     get_record r' 1%N = Some rec' ∧ (∀ b, b ≠ 1%N → get_record r' b = get_record (registry Demo.held) b) ∧
     st rec' 8%N = grant ∧
     (∀ p, p ≠ 8%N → st rec' p = if non_invalid (st Demo.held_rec p) then SHARED else INVALID) ∧
     artifact rec' = artifact Demo.held_rec ∧ content rec' = content Demo.held_rec ∧
     owner_generation rec' = owner_generation Demo.held_rec ∧
     dget (read_generation_by_agent rec') 8%N = Some (owner_generation Demo.held_rec).
Proof.
  split; [by vm_compute|].
  apply (fetch_spec 1 8 5 Demo.held Demo.held_reachable Demo.held_quiet). by vm_compute.
Defined.

(** ** Pessimistic writes *)
Lemma write_no_bump ag s rec : bumps_epoch ag s "write" rec = false.
Proof. unfold bumps_epoch. by rewrite andb_false_r. Qed.

Lemma write_rec_st ag tick rec p : rec_ok rec →
  st (write_rec ag tick rec) p = if decide (ag = p) then EXCLUSIVE else INVALID.
Proof.
  intros Hok. pose proof (with_transient_ok ag IED tick rec Hok) as Hok1.
  change (st (apply_transition ag EXCLUSIVE "write" tick
    (revoked ag "write" tick (with_transient ag IED tick rec))) p = if decide (ag = p) then EXCLUSIVE else INVALID).
  rewrite st_transition. case_decide as Hp; [done|]. apply revoked_st; [apply Hok1|congruence].
Qed.

Lemma write_rec_keeps ag tick rec : rec_ok rec →
  artifact (write_rec ag tick rec) = artifact rec ∧ content (write_rec ag tick rec) = content rec ∧
  owner_generation (write_rec ag tick rec) = owner_generation rec.
Proof.
  intros Hok. set (rec1 := revoked ag "write" tick (with_transient ag IED tick rec)).
  destruct (fold_revoke_keeps "write" tick (cas_peers rec ag) (with_transient ag IED tick rec))
    as (Hc & Hg & _ & _ & _); [by vm_compute; repeat (apply not_elem_of_cons; split; [done|]); set_solver|].
  change (artifact (apply_transition ag EXCLUSIVE "write" tick rec1) = artifact rec ∧
    content (apply_transition ag EXCLUSIVE "write" tick rec1) = content rec ∧
    owner_generation (apply_transition ag EXCLUSIVE "write" tick rec1) = owner_generation rec).
  rewrite transition_artifact, transition_content, transition_generation, write_no_bump. split_and!.
  - apply (fold_revoke_artifact "write" tick (cas_peers rec ag) (with_transient ag IED tick rec)).
  - exact Hc.
  - rewrite Z.add_0_r. exact Hg.
Qed.

(** [write] on a registered artifact makes the caller its only holder, with an
    EXCLUSIVE grant; it signals each revoked copy once, at the current version, and
    moves neither the version, the body, the epoch nor another artifact. *)
Theorem write_spec ag a tick s rec : reachable s → log_quiet (registry s) →
  get_record (registry s) a = Some rec →
  ∃ signals r' rec', write ag a tick false (registry s) = (Ok signals, r') ∧
    get_record r' a = Some rec' ∧ (∀ b, b ≠ a → get_record r' b = get_record (registry s) b) ∧
    st rec' ag = EXCLUSIVE ∧ (∀ p, p ≠ ag → st rec' p = INVALID) ∧
    signals = map (λ _, mkSignal a (version rec) tick ag)
                (filter (λ p, p ≠ ag) (valid_holders (registry s) a)) ∧
    artifact rec' = artifact rec ∧ content rec' = content rec ∧ owner_generation rec' = owner_generation rec.
Proof.
  intros Hs Hq Hr. pose proof (sy_reg _ (reachable_ok _ Hs)) as Hok. pose proof (reg_rec _ Hok _ _ Hr) as Hrok.
  destruct (triple_total _ _ _ _ (registry s)
    (triple_write a (registry s) rec ag tick Hrok (reg_id _ Hok _ _ Hr)) (at_rec_refl _ _ _ Hr))
    as (res & r' & Hrun & -> & Hat); [by intros e r' (_ & Hn & _)|].
  destruct (write_rec_keeps ag tick rec Hrok) as (? & ? & ?).
  exists (replicate (length (cas_peers rec ag)) (mkSignal a (version rec) tick ag)), r', (write_rec ag tick rec).
  split_and!; [exact Hrun|apply Hat|apply Hat|..]; try done.
  - rewrite write_rec_st by done. by rewrite decide_True.
  - intros p Hp. rewrite write_rec_st by done. by rewrite decide_False by congruence.
  - rewrite map_const_replicate. f_equal. unfold valid_holders. rewrite (at_state_map a (registry s) rec)
      by by apply at_rec_refl. unfold cas_peers.
    rewrite <-(length_fmap fst). f_equal. induction (state_by_agent rec) as [|[p sp] d IH]; [done|].
    rewrite !filter_cons. simpl. repeat case_decide; simpl; rewrite ?filter_cons; repeat case_decide;
      simpl; try naive_solver; try by f_equal.
Qed.

Lemma write_spec_witness :
  ∃ signals r' rec', write 8 1 6 false (registry Demo.held) = (Ok signals, r') ∧
    get_record r' 1%N = Some rec' ∧ (∀ b, b ≠ 1%N → get_record r' b = get_record (registry Demo.held) b) ∧
    st rec' 8%N = EXCLUSIVE ∧ (∀ p, p ≠ 8%N → st rec' p = INVALID) ∧
    signals = map (λ _, mkSignal 1 (version Demo.held_rec) 6 8)
                (filter (λ p, p ≠ 8%N) (valid_holders (registry Demo.held) 1)) ∧
    artifact rec' = artifact Demo.held_rec ∧ content rec' = content Demo.held_rec ∧
    owner_generation rec' = owner_generation Demo.held_rec.
Proof.
  apply (write_spec 8 1 6 Demo.held Demo.held_rec Demo.held_reachable Demo.held_quiet). by vm_compute.
Defined.

(** The record a pessimistic commit leaves. *)
Lemma commit_rec_facts r now ag tick rec c h sz : rec_ok rec → m_or_e (st rec ag) = true →
  let rec' := commit_rec r now ag tick rec c h sz in
  artifact rec' = commit_updated rec h sz ∧ version rec' = version rec + 1 ∧ content rec' = BStr c ∧
  last_writer rec' = Some ag ∧ st rec' ag = MODIFIED ∧ (∀ p, p ≠ ag → st rec' p = INVALID) ∧
  dget (last_observed_version_by_agent rec') ag = Some (version rec + 1) ∧
  (retain_versions r = true → dget (version_history rec') (version rec + 1) = Some (BStr c)).
Proof.
  intros Hrok Hme rec'.
  pose proof (holder_alone rec ag (rok_core _ Hrok) Hme) as Halone. rewrite no_peers in Halone by apply Hrok.
  set (stored := commit_stored r now ag (with_transient ag MWB tick rec) (commit_updated rec h sz) c) in *.
  assert (∀ p, st rec' p = if decide (ag = p) then MODIFIED else st rec p) as Hst.
  { intros p. change (st rec' p) with (st (apply_transition ag MODIFIED "commit" tick stored) p).
    rewrite st_transition. case_decide; [done|]. apply (commit_stored_st _ _ _ (with_transient ag MWB tick rec)). }
  split_and!.
  - apply (transition_artifact ag MODIFIED "commit" tick stored).
  - apply (version_transition ag MODIFIED "commit" tick stored).
  - change (content (apply_transition ag MODIFIED "commit" tick stored) = BStr c).
    rewrite transition_content. apply (stored_content _ _ _ _ (Some (BStr c))).
  - apply (transition_writer ag MODIFIED "commit" tick stored).
  - rewrite Hst. by rewrite decide_True.
  - intros p Hp. rewrite Hst, decide_False by congruence. by apply Halone.
  - change (dget (last_observed_version_by_agent (apply_transition ag MODIFIED "commit" tick stored)) ag =
      Some (version rec + 1)). rewrite transition_observed. simpl. by rewrite dget_dset_eq.
  - intros Hret. change (dget (version_history (apply_transition ag MODIFIED "commit" tick stored))
      (version rec + 1) = Some (BStr c)). rewrite transition_history. by apply stored_captures.
Qed.

(** A pessimistic commit that returns. *)
Lemma commit_ok_inv ag a c tick h sz abort r u sg r' : reg_ok r →
  commit ag a c tick h sz abort r = (Ok (u, sg), r') →
  ∃ rec now, get_record r a = Some rec ∧ m_or_e (st rec ag) = true ∧ u = commit_updated rec h sz ∧ sg = [] ∧
    at_rec a r (commit_rec r now ag tick rec c h sz) r'.
Proof.
  intros Hok. unfold commit, abort_guard. destruct abort; [done|]. intros Hrun.
  destruct (get_record r a) as [rec|] eqn:Er.
  2: { unfold commit_impl, mbind, proc_bind, require_artifact in Hrun. by rewrite (get_artifact_None _ _ Er) in Hrun. }
  destruct (m_or_e (st rec ag)) eqn:Em; [|by rewrite (commit_refused a r rec) in Hrun].
  pose proof (triple_commit a r rec ag c tick h sz (reg_rec _ Hok _ _ Er) (reg_id _ Hok _ _ Er) Em
    r (at_rec_refl _ _ _ Er)) as Ht. rewrite Hrun in Ht. destruct Ht as [[= -> ->] [now Hat]]. by exists rec, now.
Qed.

(** [commit] by the holder of the write grant stores the body as the next
    version: metadata as passed or as before, state MODIFIED, the only valid copy,
    observed at the new version, and captured in the history when versions are
    retained.  Without the grant it raises and nothing moves. *)
Theorem commit_spec ag a c tick h sz s rec : reachable s → log_quiet (registry s) →
  get_record (registry s) a = Some rec →
  (m_or_e (st rec ag) = false →
    ∃ msg, commit ag a c tick h sz false (registry s) = (Raise (CoherenceError msg), registry s)) ∧
  (m_or_e (st rec ag) = true → ∃ r' rec',
    commit ag a c tick h sz false (registry s) = (Ok (commit_updated rec h sz, []), r') ∧
    get_record r' a = Some rec' ∧ (∀ b, b ≠ a → get_record r' b = get_record (registry s) b) ∧
    artifact rec' = commit_updated rec h sz ∧ version rec' = version rec + 1 ∧ content rec' = BStr c ∧
    last_writer rec' = Some ag ∧ st rec' ag = MODIFIED ∧ (∀ p, p ≠ ag → st rec' p = INVALID) ∧
    dget (last_observed_version_by_agent rec') ag = Some (version rec + 1) ∧
    (retain_versions (registry s) = true → dget (version_history rec') (version rec + 1) = Some (BStr c))).
Proof.
  intros Hs Hq Hr. pose proof (sy_reg _ (reachable_ok _ Hs)) as Hok. pose proof (reg_rec _ Hok _ _ Hr) as Hrok.
  split; intros Hme.
  { eexists. unfold commit, abort_guard. by rewrite (commit_refused a (registry s) rec). }
  destruct (triple_total _ _ _ _ (registry s)
    (triple_commit a (registry s) rec ag c tick h sz Hrok (reg_id _ Hok _ _ Hr) Hme) (at_rec_refl _ _ _ Hr))
    as (res & r' & Hrun & -> & now & Hat); [by intros e r' (_ & Hn & _)|].
  exists r', (commit_rec (registry s) now ag tick rec c h sz). split_and!; [done|apply Hat|apply Hat|..];
    by apply commit_rec_facts.
Qed.

Lemma commit_spec_witness : ∃ r' rec',
  commit 7 1 "v2" 5 None None false (registry Demo.held) = (Ok (commit_updated Demo.held_rec None None, []), r') ∧
  get_record r' 1%N = Some rec' ∧ (∀ b, b ≠ 1%N → get_record r' b = get_record (registry Demo.held) b) ∧
  artifact rec' = commit_updated Demo.held_rec None None ∧ version rec' = version Demo.held_rec + 1 ∧
  content rec' = BStr "v2" ∧ last_writer rec' = Some 7%N ∧ st rec' 7%N = MODIFIED ∧
  (∀ p, p ≠ 7%N → st rec' p = INVALID) ∧
  dget (last_observed_version_by_agent rec') 7%N = Some (version Demo.held_rec + 1) ∧
  (retain_versions (registry Demo.held) = true →
     dget (version_history rec') (version Demo.held_rec + 1) = Some (BStr "v2")).
Proof.
  apply (commit_spec 7 1 "v2" 5 None None Demo.held Demo.held_rec Demo.held_reachable Demo.held_quiet).
  - by vm_compute.
  - by vm_compute.
Defined.

(** ** Optimistic writes *)

(** The decision table of [commit_cas]. *)
Lemma cas_table ag a v h tick sz c s rec : sys_ok s → log_quiet (registry s) →
  get_record (registry s) a = Some rec → dget (transient_by_agent rec) ag = None →
  m_or_e (st rec ag) = false →
  let '(o, r') := service_commit_cas ag a v h tick sz c false (registry s) in
  match o with
  | Ok (inl (updated, signals)) =>
    (v = version rec ∧ (∀ q, q ≠ ag → m_or_e (st rec q) = false) ∧ fence_superseded rec ag = false) ∧
    updated = cas_updated a rec h sz ∧
    signals = replicate (length (cas_peers rec ag)) (mkSignal a (v + 1) tick ag) ∧
    ∃ rec', get_record r' a = Some rec' ∧ artifact rec' = updated ∧ version rec' = v + 1 ∧
      content rec' = default (content rec) c ∧ st rec' ag = SHARED ∧ (∀ p, p ≠ ag → st rec' p = INVALID) ∧
      dget (last_observed_version_by_agent rec') ag = Some (v + 1) ∧
      (∀ b, b ≠ a → get_record r' b = get_record (registry s) b)
  | Ok (inr detail) =>
    same_data (registry s) r' ∧ cd_current_version detail = version rec ∧
    match cd_reason detail with
    | version_mismatch => v < version rec
    | other_holder => v = version rec ∧ ∃ q, q ≠ ag ∧ m_or_e (st rec q) = true
    | stale_read_generation => v = version rec ∧ (∀ q, q ≠ ag → m_or_e (st rec q) = false) ∧
                               fence_superseded rec ag = true
    end
  | Raise e => e = CoherenceError "commit_cas_corruption" ∧ version rec < v ∧ same_data (registry s) r'
  end.
Proof.
  intros Hs Hq Hr Htr Hme. pose proof (sy_reg _ Hs) as Hok.
  pose proof (reg_rec _ Hok _ _ Hr) as Hrok. pose proof (rok_states _ (rok_core _ Hrok)) as Hwf.
  pose proof (triple_service_cas a (registry s) rec ag v h tick sz c Hrok (reg_id _ Hok _ _ Hr) Hme Htr
    (registry s) (at_rec_refl _ _ _ Hr)) as Ht.
  pose proof (cas_arbitrate_spec rec ag v Hwf) as Hspec.
  assert (∀ r', at_rec a (registry s) rec r' → same_data (registry s) r') as Hsame
    by (intros r'; apply at_rec_same; [apply Hok|done]).
  unfold service_commit_cas, abort_guard, cas_result_ok in *.
  destruct (commit_cas_impl ag a v h tick sz c (registry s)) as [[[[updated signals]|d]|e] r'].
  - destruct (cas_arbitrate rec ag v) as [[cur|reason]|]; [naive_solver..|].
    destruct Ht as [[= -> ->] (now & Hat)], Hspec as (-> & Hother & Hf). split_and!; [done..|].
    eexists. split_and!; [apply Hat|..].
    + by apply cas_final_artifact.
    + by apply cas_final_version.
    + by apply cas_final_content.
    + rewrite cas_final_st by done. by rewrite decide_True.
    + intros p Hp. rewrite cas_final_st by done. by rewrite decide_False.
    + destruct (cas_final_shape (registry s) now a ag rec h sz c Hwf Hother) as (d & -> & _). simpl.
      by rewrite dget_dset_eq.
    + apply Hat.
  - destruct (cas_arbitrate rec ag v) as [[cur|reason]|]; [done| |naive_solver].
    destruct Ht as [[= ->] Hat]. by split_and!; [apply Hsame|..].
  - destruct Ht as [Hat [[-> Hn]|[-> Hv]]]; [done|]. by split_and!; [..|apply Hsame].
Qed.

(** C24: the decision table of [commit_cas], for a caller with no pending transition
    and no write grant, with a state log that does not raise and no abort signalled.  It wins exactly when the expected version is the current
    one, no other agent holds a write grant and the caller's claim, if it has one,
    is of the current epoch: then the version moves by one, the caller alone holds a
    SHARED copy observed at the new version, every other copy is INVALID and
    signalled once, and the body, if given, is stored.  Otherwise it reports the
    first failing leg, or corruption for a version from the future, and no record
    moves. *)
Theorem commit_cas_spec ag a v h tick sz c s rec : reachable s → log_quiet (registry s) →
  get_record (registry s) a = Some rec → dget (transient_by_agent rec) ag = None →
  m_or_e (st rec ag) = false →
  let '(o, r') := service_commit_cas ag a v h tick sz c false (registry s) in
  match o with
  | Ok (inl (updated, signals)) =>
    (v = version rec ∧ (∀ q, q ≠ ag → m_or_e (st rec q) = false) ∧ fence_superseded rec ag = false) ∧
    updated = cas_updated a rec h sz ∧
    signals = replicate (length (cas_peers rec ag)) (mkSignal a (v + 1) tick ag) ∧
    ∃ rec', get_record r' a = Some rec' ∧ artifact rec' = updated ∧ version rec' = v + 1 ∧
      content rec' = default (content rec) c ∧ st rec' ag = SHARED ∧ (∀ p, p ≠ ag → st rec' p = INVALID) ∧
      dget (last_observed_version_by_agent rec') ag = Some (v + 1) ∧
      (∀ b, b ≠ a → get_record r' b = get_record (registry s) b)
  | Ok (inr detail) =>
    same_data (registry s) r' ∧ cd_current_version detail = version rec ∧
    match cd_reason detail with
    | version_mismatch => v < version rec
    | other_holder => v = version rec ∧ ∃ q, q ≠ ag ∧ m_or_e (st rec q) = true
    | stale_read_generation => v = version rec ∧ (∀ q, q ≠ ag → m_or_e (st rec q) = false) ∧
                               fence_superseded rec ag = true
    end
  | Raise e => e = CoherenceError "commit_cas_corruption" ∧ version rec < v ∧ same_data (registry s) r'
  end.
Proof. intros Hs. apply cas_table, reachable_ok, Hs. Qed.

(** Agent 8 holds a shared copy; agent 9 commits optimistically at version 1. *)
Lemma commit_cas_spec_witness :
  cas_wins (service_commit_cas 9 1 1 "h2" 9 None (Some (BStr "v2")) false (registry Demo.s1)).1 = true ∧
  let rec := Demo.s1_rec in
  let '(o, r') := service_commit_cas 9 1 1 "h2" 9 None (Some (BStr "v2")) false (registry Demo.s1) in
  match o with
  | Ok (inl (updated, signals)) =>
    (1 = version rec ∧ (∀ q, q ≠ 9%N → m_or_e (st rec q) = false) ∧ fence_superseded rec 9 = false) ∧
    updated = cas_updated 1 rec "h2" None ∧
    signals = replicate (length (cas_peers rec 9)) (mkSignal 1 (1 + 1) 9 9) ∧
    ∃ rec', get_record r' 1%N = Some rec' ∧ artifact rec' = updated ∧ version rec' = 1 + 1 ∧
      content rec' = default (content rec) (Some (BStr "v2")) ∧ st rec' 9%N = SHARED ∧
      (∀ p, p ≠ 9%N → st rec' p = INVALID) ∧
      dget (last_observed_version_by_agent rec') 9%N = Some (1 + 1) ∧
      (∀ b, b ≠ 1%N → get_record r' b = get_record (registry Demo.s1) b)
  | Ok (inr detail) =>
    same_data (registry Demo.s1) r' ∧ cd_current_version detail = version rec ∧
    match cd_reason detail with
    | version_mismatch => 1 < version rec
    | other_holder => 1 = version rec ∧ ∃ q, q ≠ 9%N ∧ m_or_e (st rec q) = true
    | stale_read_generation => 1 = version rec ∧ (∀ q, q ≠ 9%N → m_or_e (st rec q) = false) ∧
                               fence_superseded rec 9 = true
    end
  | Raise e => e = CoherenceError "commit_cas_corruption" ∧ version rec < 1 ∧ same_data (registry Demo.s1) r'
  end.
Proof.
  split; [by vm_compute|].
  apply (commit_cas_spec 9 1 1 "h2" 9 None (Some (BStr "v2")) Demo.s1 Demo.s1_rec).
  - apply Demo.s1_reachable.
  - apply Demo.s1_quiet.
  - by vm_compute.
  - by vm_compute.
  - by vm_compute.
Defined.

(** ** Atomic batches *)
Lemma versions_lookup r writes d a : dict_wf writes →
  dget (foldl (λ d (w : UUID * CommitAllEntry),
    match get_record r w.1 with Some rec => dset d w.1 (version rec + 1) | None => d end) d writes) a =
  if decide (a ∈ writes.*1 ∧ is_Some (get_record r a)) then (λ rec, version rec + 1) <$> get_record r a
  else dget d a.
Proof.
  revert d. induction writes as [|[b e] writes IH]; intros d Hwf; cbn [foldl].
  { rewrite decide_False; [done|]. intros [[]%elem_of_nil _]. }
  apply dict_wf_cons in Hwf as [Hb Hwf]. rewrite IH by done. cbn [fst].
  change (((b, e) :: writes).*1) with (b :: writes.*1).
  destruct (decide (a = b)) as [->|Hne].
  - rewrite decide_False by naive_solver. destruct (get_record r b) as [rec|] eqn:Er.
    + rewrite dget_dset_eq, decide_True by (split; [set_solver|eauto]). done.
    + rewrite decide_False; [done|]. by intros [_ [? ?]].
  - assert (dget (match get_record r b with Some rec => dset d b (version rec + 1) | None => d end) a = dget d a) as ->.
    { destruct (get_record r b); [|done]. by rewrite dget_dset_ne. }
    apply decide_ext. rewrite elem_of_cons. naive_solver.
Qed.

Lemma signals_run ag tick (res : MultiCommitResult) l sigs r : reg_ok r →
  ∃ out, foldm (λ signals (v : UUID * Z),
        validate_single_writer v.1 ;;
        mret (signals ++ map (λ _ : UUID, mkSignal v.1 v.2 tick ag)
                (default [] (dget (mcr_invalidated res) v.1)))%list) l sigs r = (Ok out, r).
Proof.
  intros Hok. revert sigs. induction l as [|[a v] l IH]; intros sigs; [by eexists|]. cbn [foldm].
  assert (check_single_writer (get_state_map r a) = Ok tt) as Hc.
  { destruct (get_record r a) as [rec|] eqn:Er; [by eapply (rec_ok_coherent r a rec Er), reg_rec|].
    unfold get_state_map. by rewrite Er. }
  unfold mbind at 1, proc_bind at 1. unfold mbind at 1, proc_bind at 1. unfold validate_single_writer at 1.
  cbn [fst]. rewrite Hc. apply IH.
Qed.

(** What [commit_all_impl] does after its checks. *)
Lemma commit_all_impl_run ag writes tick r : reg_ok r → dict_wf writes →
  let '(o, r') := commit_all_impl ag writes tick r in
  match o with
  | Ok (inl (res, signals)) => writes ≠ [] ∧ admitted r ag writes ∧ batch_applied ag writes r r' ∧
      versions_of r writes (mkMultiCommitResult [] []) res
  | Ok (inr out) => out ≠ [] ∧ same_data r r' ∧
      ∀ a d, dget out a = Some d ↔ ∃ e, dget writes a = Some e ∧ member_conflict r ag a e d
  | Raise _ => same_data r r'
  end.
Proof.
  intros Hok Hwf. unfold commit_all_impl. destruct writes as [|w0 ws] eqn:Ew; [done|].
  assert (writes ≠ []) as Hne by (by rewrite Ew). rewrite <-Ew in *. clear Ew.
  unfold mbind at 1, proc_bind at 1. destruct (prechecks_run ag writes r) as [Hr Hpre].
  destruct (for_each writes _ r) as [[u|e] r1]; simpl in Hr; subst r1; [|done].
  specialize (Hpre u eq_refl). unfold mbind at 1, proc_bind at 1.
  pose proof (commit_all_cases ag writes tick "commit_all" r Hwf) as Hc.
  destruct (commit_all ag writes tick "commit_all" r) as [[[res|out|cur]|e] r1]; [|naive_solver..].
  destruct Hc as (Hadm & Hb & Hv).
  assert (reg_ok r1) as Hok1.
  { eapply (gd_ok nobody r), Hok. eapply batch_applied_good; [done..| |done]. intros a e Ha.
    destruct (Hpre a e Ha) as (rec & ? & _ & ?). eauto. }
  destruct (signals_run ag tick res (mcr_versions res) [] r1 Hok1) as [out Hout].
  unfold mbind at 1, proc_bind at 1. rewrite Hout. by split_and!.
Qed.

(** C21 (all or nothing): a [commit_all] that returns a result has moved every member
    of the batch from its expected version to the next one, with the caller the only
    holder and the new version reported, and has touched nothing else; any other
    outcome, an exception of the log or an abort included, leaves every record as it
    was. *)
Theorem commit_all_atomic ag writes tick abort s : reachable s → dict_wf writes →
  let '(o, r') := service_commit_all ag writes tick abort (registry s) in
  match o with
  | Ok (inl (res, _)) =>
    (∀ a e, (a, e) ∈ writes → ∃ rec rec',
      get_record (registry s) a = Some rec ∧ get_record r' a = Some rec' ∧
      cae_expected_version e = version rec ∧ version rec' = version rec + 1 ∧
      artifact rec' = cas_updated a rec (cae_content_hash e) (cae_size_tokens e) ∧
      content rec' = default (content rec) (cae_content e) ∧
      st rec' ag = SHARED ∧ (∀ p, p ≠ ag → st rec' p = INVALID) ∧
      dget (mcr_versions res) a = Some (version rec + 1)) ∧
    (∀ b, b ∉ writes.*1 → get_record r' b = get_record (registry s) b ∧ dget (mcr_versions res) b = None)
  | _ => records r' = records (registry s)
  end.
Proof.
  intros Hs Hwf. pose proof (sy_reg _ (reachable_ok _ Hs)) as Hok.
  unfold service_commit_all, abort_guard. destruct abort; [done|].
  pose proof (commit_all_impl_run ag writes tick (registry s) Hok Hwf) as Hrun.
  destruct (commit_all_impl ag writes tick (registry s)) as [[[[res sigs]|out]|e] r']; [|apply Hrun..].
  destruct Hrun as (_ & Hadm & [F K O M] & Hv). unfold versions_of in Hv. simpl in Hv. split.
  - intros a e Ha. destruct (M a e Ha) as (rec & now & Hr & Hr'), (Hadm a e Ha) as (rec2 & Hr2 & Hc). simplify_eq.
    pose proof (rok_states _ (rok_core _ (reg_rec _ Hok _ _ Hr))) as Hst.
    pose proof (cas_arbitrate_spec rec ag (cae_expected_version e) Hst) as Hspec.
    rewrite Hc in Hspec. destruct Hspec as (He & Hother & _).
    eexists rec, _. split_and!; [done|exact Hr'|done|..].
    + by apply cas_final_version.
    + by apply cas_final_artifact.
    + by apply cas_final_content.
    + rewrite cas_final_st by done. by rewrite decide_True.
    + intros p Hp. rewrite cas_final_st by done. by rewrite decide_False.
    + rewrite Hv, versions_lookup by done. rewrite decide_True; [by rewrite Hr|].
      split; [apply list_elem_of_fmap; by exists (a, e)|by eauto].
  - intros b Hb. split; [by apply O|]. rewrite Hv, versions_lookup by done. rewrite decide_False; naive_solver.
Qed.

Definition demo_batch : list (UUID * CommitAllEntry) :=
  [(1%N, mkCommitAllEntry 1 "h2" None (Some (BStr "v2"))); (2%N, mkCommitAllEntry 1 "g2" None None)].

Lemma demo_batch_wf : dict_wf demo_batch.
Proof. apply (bool_decide_unpack _). by vm_compute. Qed.

Lemma commit_all_atomic_witness :
  match (service_commit_all 9 demo_batch 4 false (registry Demo.s1)).1 with Ok (inl _) => true | _ => false end = true ∧
  let '(o, r') := service_commit_all 9 demo_batch 4 false (registry Demo.s1) in
  match o with
  | Ok (inl (res, _)) =>
    (∀ a e, (a, e) ∈ demo_batch → ∃ rec rec',
      get_record (registry Demo.s1) a = Some rec ∧ get_record r' a = Some rec' ∧
      cae_expected_version e = version rec ∧ version rec' = version rec + 1 ∧
      artifact rec' = cas_updated a rec (cae_content_hash e) (cae_size_tokens e) ∧
      content rec' = default (content rec) (cae_content e) ∧
      st rec' 9%N = SHARED ∧ (∀ p, p ≠ 9%N → st rec' p = INVALID) ∧
      dget (mcr_versions res) a = Some (version rec + 1)) ∧
    (∀ b, b ∉ demo_batch.*1 →
      get_record r' b = get_record (registry Demo.s1) b ∧ dget (mcr_versions res) b = None)
  | _ => records r' = records (registry Demo.s1)
  end.
Proof.
  split; [by vm_compute|].
  apply (commit_all_atomic 9 demo_batch 4 false Demo.s1 Demo.s1_reachable demo_batch_wf).
Defined.

(** A refused batch names exactly its failing members, each with the reason and
    current version its own arbitration gives; and a non-empty batch whose members
    all pass their guards and arbitration is never refused. *)
Theorem commit_all_verdict ag writes tick s : reachable s → log_quiet (registry s) → dict_wf writes →
  (∀ out r', service_commit_all ag writes tick false (registry s) = (Ok (inr out), r') →
    out ≠ [] ∧
    ∀ a d, dget out a = Some d ↔ ∃ e rec reason, dget writes a = Some e ∧
      get_record (registry s) a = Some rec ∧
      cas_arbitrate rec ag (cae_expected_version e) = Some (inr reason) ∧ d = mkConflict reason (version rec)) ∧
  (writes ≠ [] →
   (∀ a e, (a, e) ∈ writes → ∃ rec, get_record (registry s) a = Some rec ∧
      dget (transient_by_agent rec) ag = None ∧ m_or_e (st rec ag) = false ∧
      cas_arbitrate rec ag (cae_expected_version e) = None) →
   ∃ res sigs r', service_commit_all ag writes tick false (registry s) = (Ok (inl (res, sigs)), r')).
Proof.
  intros Hs Hq Hwf. pose proof (sy_reg _ (reachable_ok _ Hs)) as Hok.
  unfold service_commit_all, abort_guard. split.
  - intros out r' Hrun. pose proof (commit_all_impl_run ag writes tick (registry s) Hok Hwf) as Hpost.
    rewrite Hrun in Hpost. destruct Hpost as (Hne & _ & Hiff). split; [done|]. intros a d. rewrite Hiff.
    unfold member_conflict. naive_solver.
  - intros Hne Hall. unfold commit_all_impl. destruct writes as [|w ws] eqn:Ew; [done|]. rewrite <-Ew in *.
    assert (for_each writes (λ w, commit_all_precheck ag w.1) (registry s) = (Ok tt, registry s)) as Hpre.
    { clear -Hall. induction writes as [|[a e] writes IH]; [done|]. cbn [for_each fst].
      destruct (Hall a e) as (rec & Hr & Ht & Hm & _); [set_solver|].
      unfold mbind at 1, proc_bind at 1, commit_all_precheck at 1, mbind, proc_bind, require_artifact, gets.
      rewrite (at_artifact a _ rec), (at_transient a _ rec), Ht by by apply at_rec_refl.
      rewrite (at_agent_state a _ rec), in_m_or_e_st, Hm by by apply at_rec_refl. apply IH. set_solver. }
    unfold mbind at 1, proc_bind at 1. rewrite Hpre. unfold mbind at 1, proc_bind at 1.
    assert (admitted (registry s) ag writes) as Hadm.
    { intros a e Ha. destruct (Hall a e Ha) as (rec & ? & _ & _ & ?). eauto. }
    pose proof (commit_all_cases ag writes tick "commit_all" (registry s) Hwf) as Hc.
    destruct (commit_all_wins ag writes tick "commit_all" (registry s)) as (res & r1 & Hwin); [done..|].
    rewrite Hwin in *. destruct Hc as (_ & Hb & _).
    assert (reg_ok r1) as Hok1.
    { eapply (gd_ok nobody (registry s)), Hok. eapply batch_applied_good; [done..| |done]. intros a e Ha.
      destruct (Hall a e Ha) as (rec & ? & _ & ? & _). eauto. }
    destruct (signals_run ag tick res (mcr_versions res) [] r1 Hok1) as [out Hout].
    unfold mbind at 1, proc_bind at 1. rewrite Hout. by eexists _, _, _.
Qed.

(** Artifact 1 is held by agent 7: the batch of agent 9 is refused for that member
    alone. *)
Lemma commit_all_verdict_witness :
  (∀ out r', service_commit_all 9 demo_batch 4 false (registry Demo.held) = (Ok (inr out), r') →
    out ≠ [] ∧
    ∀ a d, dget out a = Some d ↔ ∃ e rec reason, dget demo_batch a = Some e ∧
      get_record (registry Demo.held) a = Some rec ∧
      cas_arbitrate rec 9 (cae_expected_version e) = Some (inr reason) ∧ d = mkConflict reason (version rec)) ∧
  (service_commit_all 9 demo_batch 4 false (registry Demo.held)).1 =
    Ok (inr [(1%N, mkConflict other_holder 1)]).
Proof.
  split; [|by vm_compute].
  apply (commit_all_verdict 9 demo_batch 4 Demo.held Demo.held_reachable Demo.held_quiet demo_batch_wf).
Defined.
