(* ===== verification/Sweeps.v ===== *)
(** The crash-recovery sweeps and the heartbeats. *)
From S2P Require Import Prelude Core Hashing Retention Registry RegistryFacts CommitFacts Service.
From S2P Require Import ServiceFacts RevocationFacts Evolution Sessions SessionFacts Checkpoints System Safety.

Open Scope Z_scope.
Open Scope string_scope.

(** ** The snapshot of write grants *)
Lemma holder_unique rec : rec_core rec →
  filter (λ kv : UUID * MESIState, m_or_e kv.2 = true) (state_by_agent rec) = [] ∨
  ∃ p s, filter (λ kv : UUID * MESIState, m_or_e kv.2 = true) (state_by_agent rec) = [(p, s)].
Proof.
  intros Hok. pose proof (rok_states _ Hok) as Hwf.
  pose proof (dict_wf_filter (λ kv : UUID * MESIState, m_or_e kv.2 = true) _ Hwf) as Hnd.
  assert (∀ p s, (p, s) ∈ filter (λ kv : UUID * MESIState, m_or_e kv.2 = true) (state_by_agent rec) →
    m_or_e (st rec p) = true) as Hin.
  { intros p s [Hs Hp]%list_elem_of_filter. unfold st. by rewrite (dget_elem _ _ _ Hwf Hp). }
  destruct (filter _ _) as [|[p s] [|[q t] l]]; [by left|by eauto|]. exfalso.
  apply dict_wf_cons in Hnd as [Hn _]. apply Hn. simpl.
  rewrite (rok_excl _ Hok p q); [set_solver|apply (Hin p s); set_solver|].
  apply m_or_e_non_invalid, (Hin q t). set_solver.
Qed.

Lemma NoDup_flat_map_key {A B} (f : A → list (A * B)) l : NoDup l →
  (∀ a, a ∈ l → f a = [] ∨ ∃ b, f a = [(a, b)]) → NoDup (flat_map f l).*1.
Proof.
  induction l as [|a l IH]; intros Hnd Hf; cbn [flat_map]; [constructor|].
  apply NoDup_cons in Hnd as [Ha Hnd]. rewrite fmap_app.
  assert (∀ x, x ∈ (flat_map f l).*1 → x ∈ l) as Hsub.
  { intros x ([a1 b1] & -> & Hx)%list_elem_of_fmap. apply list_elem_of_In, in_flat_map in Hx as (y & Hy & Hx).
    apply list_elem_of_In in Hy, Hx. destruct (Hf y) as [Hy'|[b Hy']]; [set_solver|..]; rewrite Hy' in Hx; set_solver. }
  destruct (Hf a) as [Ea|[b Ea]]; [set_solver|..]; rewrite Ea; simpl.
  - apply IH; [done|]. intros x Hx. apply Hf. set_solver.
  - apply NoDup_cons. split; [naive_solver|]. apply IH; [done|]. intros x Hx. apply Hf. set_solver.
Qed.

Lemma grant_snapshot_nodup r : reg_ok r → NoDup (grant_snapshot r).*1.
Proof.
  intros Hok. apply NoDup_flat_map_key; [apply Hok|]. intros a _. unfold get_state_map.
  destruct (get_record r a) as [rec|] eqn:Er; [|by left].
  destruct (holder_unique rec (rok_core _ (reg_rec _ Hok _ _ Er))) as [->|(p & s & ->)]; simpl; eauto.
Qed.

Lemma elem_grant_snapshot r a ag : reg_ok r →
  (a, ag) ∈ grant_snapshot r ↔ ∃ rec, get_record r a = Some rec ∧ m_or_e (st rec ag) = true.
Proof.
  intros Hok. unfold grant_snapshot. rewrite list_elem_of_In, in_flat_map.
  setoid_rewrite <-list_elem_of_In. setoid_rewrite list_elem_of_fmap. unfold get_state_map. split.
  - intros (b & Hb & [q s] & [= -> ->] & [Hs Hin]%list_elem_of_filter).
    destruct (get_record r b) as [rec|] eqn:Er; [|set_solver]. exists rec. split; [done|].
    unfold st. by rewrite (dget_elem _ _ _ (rok_states _ (rok_core _ (reg_rec _ Hok _ _ Er))) Hin).
  - intros (rec & Hr & Hme). exists a. split.
    + apply list_elem_of_fmap, record_of_key. eauto.
    + unfold st in Hme. destruct (dget (state_by_agent rec) ag) as [s|] eqn:Es; [|done].
      exists (ag, s). rewrite Hr. split; [done|]. apply list_elem_of_filter. split; [done|by apply dget_Some_elem].
Qed.

(** ** The stable-grant sweep *)
Section sweep.
Context (tick hb hold : Z).

Definition swept (r : Registry) (a ag : UUID) (rec : ArtifactRecord) : ArtifactRecord :=
  match reclaims r rec tick hb hold a ag with
  | Some trigger => reclaim_rec ag trigger tick rec
  | None => rec
  end.

Definition swept_count (r : Registry) (p : UUID * UUID) : Z :=
  match get_record r p.1 with
  | Some rec => match reclaims r rec tick hb hold p.1 p.2 with Some _ => 1 | None => 0 end
  | None => 0
  end.

Lemma reclaims_frame r r' rec a ag : frame r r' → get_record r a = Some rec → get_record r' a = Some rec →
  reclaims r' rec tick hb hold a ag = reclaims r rec tick hb hold a ag.
Proof.
  intros F Hr Hr'. unfold reclaims, reclaim_trigger, last_heartbeat_tick, granted_at_tick.
  by rewrite (fr_heartbeats _ _ F), Hr, Hr'.
Qed.

Lemma quiet_frame r r' : frame r r' → log_quiet r → log_quiet r'.
Proof. intros F Hq sink Hs. apply Hq. by rewrite <-(fr_state_log _ _ F). Qed.

Lemma reclaim_pair_run r a ag rec : reg_ok r → log_quiet r → get_record r a = Some rec →
  ∃ r', reclaim_pair tick hb hold a ag r = (Ok (swept_count r (a, ag)), r') ∧ at_rec a r (swept r a ag rec) r' ∧ reg_ok r'.
Proof.
  intros Hok Hq Hr. pose proof (reg_rec _ Hok _ _ Hr) as Hrok.
  pose proof (reclaim_steps tick hb hold a ag r Hok) as Hg.
  destruct (triple_total _ _ _ _ r (triple_reclaim a r rec tick hb hold ag Hrok (reg_id _ Hok _ _ Hr) Hr)
    (at_rec_refl _ _ _ Hr)) as (n & r' & Hrun & Hpost); [by intros e r' (_ & Hn & _)|].
  exists r'. unfold swept_count, swept. simpl. rewrite Hr, Hrun in *. simpl in Hg.
  assert (reg_ok r') by (by eapply gd_ok).
  destruct (reclaims r rec tick hb hold a ag); destruct Hpost as [-> ?]; done.
Qed.

Lemma sweep_pairs l r n : reg_ok r → log_quiet r → NoDup l.*1 →
  (∀ a ag, (a, ag) ∈ l → is_Some (get_record r a)) →
  ∃ r', foldm (λ n (p : UUID * UUID), k ← reclaim_pair tick hb hold p.1 p.2; mret (n + k)) l n r =
      (Ok (foldl (λ n p, n + swept_count r p) n l), r') ∧
    frame r r' ∧ reg_ok r' ∧ (∀ a, a ∉ l.*1 → get_record r' a = get_record r a) ∧
    (∀ a ag rec, (a, ag) ∈ l → get_record r a = Some rec → get_record r' a = Some (swept r a ag rec)).
Proof.
  revert r n. induction l as [|[a ag] l IH]; intros r n Hok Hq Hnd Hsome; cbn [foldm foldl].
  { exists r. split_and!; try done. intros ??? []%elem_of_nil. }
  change (((a, ag) :: l).*1) with (a :: l.*1) in *. apply NoDup_cons in Hnd as [Ha Hnd].
  destruct (Hsome a ag) as [rec Hr]; [set_solver|].
  destruct (reclaim_pair_run r a ag rec Hok Hq Hr) as (r1 & Hrun & Hat & Hok1).
  unfold mbind at 1, proc_bind at 1. unfold mbind at 1, proc_bind at 1. cbn [fst snd]. rewrite Hrun.
  pose proof (ar_frame _ _ _ _ Hat) as F1.
  assert (∀ b, b ∈ l.*1 → get_record r1 b = get_record r b) as Hrest.
  { intros b Hb. apply Hat. congruence. }
  destruct (IH r1 (n + swept_count r (a, ag))) as (r' & Hf & F' & Hok' & Ho & Hm).
  { done. } { by eapply quiet_frame. } { done. }
  { intros b bg Hb. rewrite Hrest by (apply list_elem_of_fmap; by exists (b, bg)). apply (Hsome b bg). set_solver. }
  exists r'. split_and!; [|by trans r1|done|..].
  - etrans; [exact Hf|]. f_equal. f_equal. apply foldl_ext_in. intros m [b bg] Hb. f_equal.
    unfold swept_count. simpl. rewrite Hrest by (apply list_elem_of_fmap; by exists (b, bg)).
    destruct (get_record r b) as [recb|] eqn:Eb; [|done]. rewrite (reclaims_frame r); [done..|].
    rewrite Hrest; [done|]. apply list_elem_of_fmap. by exists (b, bg).
  - intros b Hb. apply not_elem_of_cons in Hb as [Hb Hb']. rewrite Ho by done. by apply Hat.
  - intros b bg recb [[= -> ->]|Hb]%elem_of_cons Hrb.
    + simplify_eq. rewrite Ho by done. apply Hat.
    + assert (b ∈ l.*1) as Hbl by (apply list_elem_of_fmap; by exists (b, bg)).
      rewrite (Hm b bg recb Hb) by by rewrite Hrest. f_equal. unfold swept.
      rewrite (reclaims_frame r); [done..|by rewrite Hrest].
Qed.
End sweep.

(** When a write grant is due for reclamation: it is settled, and its holder has not
    been heard of for [hb] ticks (or never), or has held it for [hold] ticks. *)
Definition reclaimable (r : Registry) (rec : ArtifactRecord) (tick hb hold : Z) (ag : UUID) : Prop :=
  m_or_e (st rec ag) = true ∧ dget (transient_by_agent rec) ag = None ∧
  ((∀ t, dget (heartbeat_by_agent r) ag = Some t → hb <= tick - t) ∨
   (∃ t, dget (granted_at_tick_by_agent rec) ag = Some t ∧ hold <= tick - t)).

Lemma reclaims_reclaimable r rec tick hb hold a ag : get_record r a = Some rec →
  match reclaims r rec tick hb hold a ag with
  | Some trigger => reclaimable r rec tick hb hold ag ∧ trigger ∈ RECLAIM_TRIGGERS
  | None => ¬ reclaimable r rec tick hb hold ag
  end.
Proof.
  intros Hr. unfold reclaims, reclaimable, reclaim_trigger, last_heartbeat_tick, granted_at_tick. rewrite Hr. simpl.
  destruct (m_or_e (st rec ag)); [|naive_solver].
  destruct (dget (transient_by_agent rec) ag); [naive_solver|].
  destruct (dget (heartbeat_by_agent r) ag) as [t|]; [case_bool_decide as Hhb|].
  - split; [split_and!; [done..|left; naive_solver]|set_solver].
  - destruct (dget (granted_at_tick_by_agent rec) ag) as [g|]; [case_decide|].
    + split; [split_and!; [done..|right; naive_solver]|set_solver].
    + intros (_ & _ & [H1|(? & [= <-] & ?)]); [|done]. specialize (H1 t eq_refl). done.
    + intros (_ & _ & [H1|(? & ? & ?)]); [|done]. specialize (H1 t eq_refl). done.
  - split; [split_and!; [done..|left; naive_solver]|set_solver].
Qed.

Lemma reclaim_rec_fences ag trigger tick rec : rec_ok rec → m_or_e (st rec ag) = true →
  trigger ∈ RECLAIM_TRIGGERS → fence_superseded (reclaim_rec ag trigger tick rec) ag = true.
Proof.
  intros Hok Hme Ht. unfold fence_superseded, reclaim_rec, with_reclamation. simpl.
  rewrite transition_readgen, invalid_captures_nothing, transition_generation.
  rewrite (rok_readgen _ (rok_core _ Hok) _ Hme). unfold bumps_epoch. rewrite Hme.
  rewrite (bool_decide_true (trigger ∈ EPOCH_BUMP_TRIGGERS)) by (apply elem_of_app; by left).
  apply bool_decide_eq_true_2. simpl. lia.
Qed.

(** One stable-grant sweep reclaims exactly the write grants that are due when it
    starts.  A reclaimed copy is INVALID, its holder is fenced and finds the trigger
    and tick in its reclamation slot; every other copy, and every version and body,
    is as before. *)
Theorem stable_sweep_spec tick hb hold s : reachable s → log_quiet (registry s) → 1 <= hb → 1 <= hold →
  ∃ n r', enforce_stable_grant_timeouts tick hb hold (registry s) = (Ok n, r') ∧
    ∀ a rec, get_record (registry s) a = Some rec → ∃ rec', get_record r' a = Some rec' ∧
      artifact rec' = artifact rec ∧ content rec' = content rec ∧
      ∀ ag, (reclaimable (registry s) rec tick hb hold ag →
               st rec' ag = INVALID ∧ fence_superseded rec' ag = true ∧
               ∃ trigger, trigger ∈ RECLAIM_TRIGGERS ∧
                 dget (last_reclamation_by_agent rec') ag = Some (trigger, tick)) ∧
            (¬ reclaimable (registry s) rec tick hb hold ag → st rec' ag = st rec ag).
Proof.
  intros Hs Hq Hhb Hhold. pose proof (sy_reg _ (reachable_ok _ Hs)) as Hok.
  unfold enforce_stable_grant_timeouts. rewrite !decide_False by lia.
  unfold mbind at 1, proc_bind at 1. unfold gets at 1.
  destruct (sweep_pairs tick hb hold (grant_snapshot (registry s)) (registry s) 0) as (r' & Hrun & _ & _ & Ho & Hm);
    [done..|by apply grant_snapshot_nodup| |].
  { intros a ag (rec & Hr & _)%elem_grant_snapshot; [|done]. eauto. }
  eexists _, r'. split; [exact Hrun|]. intros a rec Hr. pose proof (reg_rec _ Hok _ _ Hr) as Hrok.
  destruct (decide (a ∈ (grant_snapshot (registry s)).*1)) as [Hin|Hn].
  - apply list_elem_of_fmap in Hin as ([a' h] & -> & Hin). simpl in *. rename a' into a.
    pose proof Hin as (rec1 & Hr1 & Hme)%elem_grant_snapshot; [|done]. simplify_eq.
    rewrite (Hm a h rec Hin Hr). eexists. split; [done|]. unfold swept.
    pose proof (reclaims_reclaimable (registry s) rec tick hb hold a h Hr) as Hrec.
    assert (∀ ag, ag ≠ h → ¬ reclaimable (registry s) rec tick hb hold ag) as Hothers.
    { intros ag Hne (Hag & _). apply Hne, (rok_excl _ (rok_core _ Hrok)); [done|by apply m_or_e_non_invalid]. }
    destruct (reclaims _ _ _ _ _ _ _) as [trigger|].
    + destruct Hrec as [Hdue Htr]. split; [apply transition_artifact|split; [apply transition_content|]].
      intros ag. change (st (reclaim_rec h trigger tick rec) ag) with
        (st (apply_transition h INVALID trigger tick rec) ag). rewrite st_transition.
      destruct (decide (h = ag)) as [<-|Hne]; [|split; [intros Hd; by apply Hothers in Hd|done]].
      split; [|done]. intros _. split_and!; [done|by apply reclaim_rec_fences|].
      exists trigger. split; [done|]. apply dget_dset_eq.
    + split_and!; [done..|]. intros ag. split; [|done].
      destruct (decide (ag = h)) as [->|Hne]; [done|]. intros Hd. by apply Hothers in Hd.
  - rewrite Ho by done. exists rec. split_and!; [done..|]. intros ag. split; [|done]. intros (Hme & _). exfalso. apply Hn.
    apply list_elem_of_fmap. exists (a, ag). split; [done|]. apply elem_grant_snapshot; [done|]. eauto.
Qed.

(** Agent 7 holds artifact 1 and never beat: the sweep at tick 500 reclaims it. *)
Lemma stable_sweep_spec_witness :
  (enforce_stable_grant_timeouts 500 120 900 (registry Demo.held)).1 = Ok 1 ∧
  ∃ n r', enforce_stable_grant_timeouts 500 120 900 (registry Demo.held) = (Ok n, r') ∧
    ∀ a rec, get_record (registry Demo.held) a = Some rec → ∃ rec', get_record r' a = Some rec' ∧
      artifact rec' = artifact rec ∧ content rec' = content rec ∧
      ∀ ag, (reclaimable (registry Demo.held) rec 500 120 900 ag →
               st rec' ag = INVALID ∧ fence_superseded rec' ag = true ∧
               ∃ trigger, trigger ∈ RECLAIM_TRIGGERS ∧
                 dget (last_reclamation_by_agent rec') ag = Some (trigger, 500)) ∧
            (¬ reclaimable (registry Demo.held) rec 500 120 900 ag → st rec' ag = st rec ag).
Proof.
  split; [by vm_compute|].
  apply (stable_sweep_spec 500 120 900 Demo.held Demo.held_reachable Demo.held_quiet); lia.
Defined.

(** ** Heartbeats *)

(** A heartbeat never moves an agent's last-seen tick back: after any sequence of
    heartbeats the slot holds the largest tick received, and the sweep's staleness
    test sees that one. *)
Theorem heartbeat_max ag (ticks : list Z) r : Forall (λ t, 0 <= t) ticks → ticks ≠ [] →
  dget (heartbeat_by_agent r) ag = None →
  ∃ r', for_each ticks (λ t, service_record_heartbeat ag t) r = (Ok tt, r') ∧
    ∃ m, last_heartbeat_tick r' ag = Some m ∧ m ∈ ticks ∧ Forall (λ t, t <= m) ticks.
Proof.
  intros Hpos Hne Hn.
  assert (∀ ticks r m0, Forall (λ t, 0 <= t) ticks → dget (heartbeat_by_agent r) ag = Some m0 →
    ∃ r', for_each ticks (λ t, service_record_heartbeat ag t) r = (Ok tt, r') ∧
      ∃ m, last_heartbeat_tick r' ag = Some m ∧ m ∈ m0 :: ticks ∧ Forall (λ t, t <= m) (m0 :: ticks)) as Haux.
  { clear. induction ticks as [|t ticks IH]; intros r m0 Hpos Hm; cbn [for_each].
    { exists r. split; [done|]. exists m0. split_and!; [done|set_solver|by repeat constructor; lia]. }
    apply Forall_cons in Hpos as [Ht Hpos]. unfold mbind, proc_bind, service_record_heartbeat at 1, record_heartbeat.
    rewrite decide_False by lia. rewrite Hm. case_decide as Hlt.
    - destruct (IH (r <| heartbeat_by_agent ::= λ d, dset d ag t |>) t Hpos) as (r' & Hr & m & Hl & Hin & Hall).
      { simpl. by rewrite dget_dset_eq. }
      exists r'. split; [exact Hr|]. exists m. apply Forall_cons in Hall as [? ?].
      split_and!; [done|set_solver|]. repeat (apply Forall_cons; split); [lia|lia|done].
    - destruct (IH r m0 Hpos Hm) as (r' & Hr & m & Hl & Hin & Hall).
      exists r'. split; [exact Hr|]. exists m. apply Forall_cons in Hall as [? ?].
      split_and!; [done|set_solver|]. repeat (apply Forall_cons; split); [lia|lia|done]. }
  destruct ticks as [|t ticks]; [done|]. apply Forall_cons in Hpos as [Ht Hpos]. cbn [for_each].
  unfold mbind, proc_bind, service_record_heartbeat at 1, record_heartbeat. rewrite decide_False by lia. rewrite Hn.
  apply (Haux ticks _ t Hpos). simpl. by rewrite dget_dset_eq.
Qed.

Lemma heartbeat_max_witness :
  ∃ r', for_each [3; 9; 4] (λ t, service_record_heartbeat 7 t) Demo.r0 = (Ok tt, r') ∧
    ∃ m, last_heartbeat_tick r' 7 = Some m ∧ m ∈ [3; 9; 4] ∧ Forall (λ t, t <= m) [3; 9; 4].
Proof. apply (heartbeat_max 7 [3; 9; 4] Demo.r0); [by repeat constructor|done|done]. Defined.
