(* ===== verification/History.v ===== *)
(** What the coordinator remembers: retained versions, their bound, the content hash
    of a version, and the workspace-checkpoint manifests. *)
From S2P Require Import Prelude Core Hashing Retention Registry RegistryFacts CommitFacts Service.
From S2P Require Import ServiceFacts RevocationFacts Evolution Sessions SessionFacts Checkpoints ManifestFacts System.
From S2P Require Import Safety Operations.
From stdpp Require Import sorting.

Open Scope Z_scope.
Open Scope string_scope.

(** ** Historical reads *)
Lemma read_at_version_served a v epoch r vc r' : read_at_version a v epoch r = (Ok (inl vc), r') →
  ∃ art, get_artifact r a = Some art ∧ v < art_version art ∧ vc_version vc = v ∧
    get_version_record r a v = Some (vc_content vc, vc_captured_at vc).
Proof.
  unfold read_at_version, reject. intros Hrun. case_decide; [done|].
  destruct (get_artifact r a) as [art|] eqn:Ea; [|done]. destruct (retention_meta r) as [retain policy].
  destruct (negb retain); [done|]. destruct (match epoch with Some e => _ | None => false end); [done|].
  case_decide; [done|]. case_decide; [done|]. destruct (get_version_record r a v) as [[c t]|]; [|done].
  exists art. destruct policy; [case_decide; [done|]|]; injection Hrun as <- <-; split_and!; done || lia.
Qed.

(** C31 (history is truthful): if [read_at_version] serves the version that was current
    at some point of a run, the body it serves is the body that was current then, and
    the artifact has moved on: commits, sessions and collection in between never
    rewrite a retained version. *)
Theorem historical_read_truthful ops s a art c epoch vc r' : reachable s → admissible_run ops s →
  Forall (λ o, ¬ deletes o a) ops →
  get_artifact (registry s) a = Some art → get_content (registry s) a = Some c →
  read_at_version a (art_version art) epoch (registry (run ops s)) = (Ok (inl vc), r') →
  vc_content vc = c ∧
  ∃ art', get_artifact (registry (run ops s)) a = Some art' ∧ art_version art < art_version art'.
Proof.
  intros Hs Hops Hd. unfold get_artifact at 1, get_content.
  destruct (get_record (registry s) a) as [rec|] eqn:Er; [|done]. simpl. intros [= <-] [= <-] Hread.
  destruct (read_at_version_served _ _ _ _ _ _ Hread) as (art' & Hart' & Hlt & _ & Hver).
  split; [|by exists art'].
  destruct (run_evolves ops s a rec (reachable_ok _ Hs) Hops Hd Er) as (rec' & Hr' & Hev).
  unfold get_version_record in Hver. rewrite Hr' in Hver. simpl in Hver.
  destruct (dget (version_history rec') (art_version (artifact rec))) as [b|] eqn:Eb; [|done]. simpl in Hver.
  destruct (dget (version_captured_at rec') (art_version (artifact rec))); [|done]. simpl in Hver.
  injection Hver as <- _. apply (ev_history _ _ _ _ Hev) in Eb; [|unfold version; lia]. symmetry.
  by apply (rok_history_current _ (rok_core _ (reg_rec _ (sy_reg _ (reachable_ok _ Hs)) _ _ Er))).
Qed.

Lemma historical_read_truthful_witness :
  let ops := [OpCommitCas 7 1 1 "h2" 6 None (Some (BStr "v2")) false] in
  ∃ vc r', read_at_version 1 1 None (registry (run ops Demo.s1)) = (Ok (inl vc), r') ∧ vc_content vc = BStr "v1".
Proof.
  cbv zeta. set (ops := [OpCommitCas 7 1 1 "h2" 6 None (Some (BStr "v2")) false]).
  assert (∃ vc r', read_at_version 1 1 None (registry (run ops Demo.s1)) = (Ok (inl vc), r')) as (vc & r' & Hrun)
    by (eexists _, _; vm_compute; reflexivity).
  exists vc, r'. split; [done|].
  apply (historical_read_truthful ops Demo.s1 1 (mkArtifact 1 "plan.md" 1 (Some "h1") None []) (BStr "v1") None vc r').
  - apply Demo.s1_reachable.
  - by repeat split.
  - repeat constructor; by intros [].
  - by vm_compute.
  - by vm_compute.
  - exact Hrun.
Defined.

(** ** The retention bound *)

(** A version stays on both axes of the policy: with the new version it is one of the
    [k] newest, and it is not too old. *)
Record within (policy : RetentionPolicy) (now : Z) (rec : ArtifactRecord) (w : Z) : Prop := {
  within_count : ∀ k, max_versions policy = Some k → (S (length (newer w (version_history rec).*1)) < Z.to_nat k)%nat;
  within_age : ∀ t c, max_age_seconds policy = Some t → (w, c) ∈ version_captured_at rec → now - t <= c;
}.

Lemma newer_captured v now rec w : NoDup (version_captured_at rec).*1 → (∀ x, x ∈ (version_captured_at rec).*1 → x < v) → w < v →
  newer_count (VMapping (dset (version_captured_at rec) v now)) w = S (length (newer w (version_captured_at rec).*1)).
Proof.
  intros Hnd Hlt Hw. unfold newer_count, arg_versions.
  assert (dget (version_captured_at rec) v = None) as Hv.
  { destruct (dget (version_captured_at rec) v) eqn:E; [|done]. apply dget_Some_key, Hlt in E. lia. }
  rewrite (dset_absent _ _ _ Hv), fmap_app. simpl.
  assert (NoDup ((version_captured_at rec).*1 ++ [v])) as Hnd'.
  { apply NoDup_app. split_and!; [done| |apply NoDup_singleton]. intros x Hx ->%list_elem_of_singleton. apply Hlt in Hx. lia. }
  unfold newer. rewrite (elements_list_to_set (C := gset Z) _ Hnd'), filter_app, filter_cons_True by done. simpl.
  rewrite length_app. simpl. lia.
Qed.

Lemma captured_date policy pins now rec v c :
  dget (version_captured_at (captured_record (Some policy) pins now rec v c)) v = Some now.
Proof.
  unfold captured_record, drop_versions. simpl. rewrite dget_drop, decide_False; [apply dget_dset_eq|apply current_not_collectible].
Qed.

(** Which versions a capture leaves. *)
Lemma captured_exact policy pins now rec v c w : dict_wf (version_history rec) →
  (version_history rec).*1 = (version_captured_at rec).*1 → (∀ x, x ∈ (version_history rec).*1 → x < v) →
  w ∈ (version_history (captured_record (Some policy) pins now rec v c)).*1 ↔
  w = v ∨ (w ∈ (version_history rec).*1 ∧ (w ∈ pins ∨ within policy now rec w)).
Proof.
  intros Hwf Hkeys Hlt. unfold captured_record, drop_versions. cbn [version_history version_captured_at]. simpl.
  rewrite dkeys_drop, list_elem_of_filter, dkeys_dset, collectible_spec. cbn [arg_versions].
  rewrite elem_of_list_to_set, dkeys_dset, <-Hkeys. destruct (decide (w = v)) as [->|Hne]; [naive_solver|].
  destruct (decide (w ∈ (version_history rec).*1)) as [Hin|]; [|naive_solver].
  assert (newer_count (VMapping (dset (version_captured_at rec) v now)) w = S (length (newer w (version_history rec).*1))) as Hn.
  { rewrite newer_captured; rewrite <-?Hkeys; [done|apply Hwf|done|by apply Hlt]. }
  rewrite Hn. destruct (decide (w ∈ pins)) as [|Hp]; [naive_solver|]. split.
  - intros [Hd _]. right. split; [done|]. right. split.
    + intros k Hk. destruct (decide (S (length (newer w (version_history rec).*1)) < Z.to_nat k)%nat) as [|]; [done|].
      exfalso. apply Hd. split_and!; [by right|done..|]. left. exists k. split; [done|lia].
    + intros t cap Ht Hcap. destruct (decide (now - t <= cap)) as [|]; [done|]. exfalso. apply Hd. split_and!; [by right|done..|].
      right. exists t, (dset (version_captured_at rec) v now), cap. split; [done|]. split; [done|]. split; [|lia].
      apply dget_Some_elem. rewrite dget_dset_ne by done. apply dget_elem; [|done]. unfold dict_wf. by rewrite <-Hkeys.
  - intros [?|[_ [?|[Hc Ha]]]]; [done..|]. split; [|by right]. intros (_ & _ & _ & [(k & Hk & Hle)|(t & d & cap & Ht & [= <-] & Hcap & Hlt')]).
    + specialize (Hc k Hk). lia.
    + apply dget_elem in Hcap; [|apply dict_wf_dset; unfold dict_wf; by rewrite <-Hkeys]. rewrite dget_dset_ne in Hcap by done.
      apply dget_Some_elem in Hcap. specialize (Ha t cap Ht Hcap). lia.
Qed.

(** C32 (the retention rule is exact): with versions retained under a policy, a pessimistic
    commit keeps, besides the new version, exactly the retained versions that a live
    session pins or that the policy admits: fewer than [k - 1] retained versions are newer
    (so that [k] stay with the new one), and the capture is not older than the age
    allowed, by the clock reading that dates the new version.  A pinned version keeps its
    body. *)
Theorem history_bounded ag a c tick h sz abort s policy u sg r' rec : reachable s →
  retain_versions (registry s) = true → retention_policy (registry s) = Some policy → get_record (registry s) a = Some rec →
  commit ag a c tick h sz abort (registry s) = (Ok (u, sg), r') →
  let pins := live_pins_for_artifact (registry s) a in
  ∃ rec' now, get_record r' a = Some rec' ∧ dget (version_captured_at rec') (art_version u) = Some now ∧
    (∀ w, w ∈ (version_history rec').*1 ↔
      w = art_version u ∨ (w ∈ (version_history rec).*1 ∧ (w ∈ pins ∨ within policy now rec w))) ∧
    ∀ w, w ∈ pins → w <= version rec → dget (version_history rec') w = dget (version_history rec) w.
Proof.
  intros Hs Hret Hpol Hr Hrun. pose proof (sy_reg _ (reachable_ok _ Hs)) as Hok.
  destruct (commit_ok_inv _ _ _ _ _ _ _ _ _ _ _ Hok Hrun) as (rec1 & now & Hr1 & Hme & -> & _ & Hat). simplify_eq.
  pose proof (reg_rec _ Hok _ _ Hr) as Hrok. pose proof (reg_id _ Hok _ _ Hr) as Hid.
  eexists _, now. split; [exact (ar_rec _ _ _ _ Hat)|]. split_and!.
  - change (version_captured_at (commit_rec (registry s) now ag tick rec c h sz)) with
      (version_captured_at (apply_transition ag MODIFIED "commit" tick
        (commit_stored (registry s) now ag (with_transient ag MWB tick rec) (commit_updated rec h sz) c))).
    rewrite transition_captured. unfold commit_stored, body_stored. rewrite Hret, Hpol. apply captured_date.
  - intros w. change (version_history (commit_rec (registry s) now ag tick rec c h sz)) with
      (version_history (apply_transition ag MODIFIED "commit" tick
        (commit_stored (registry s) now ag (with_transient ag MWB tick rec) (commit_updated rec h sz) c))).
    rewrite transition_history. unfold commit_stored, body_stored. rewrite Hret, Hpol, <-Hid.
    etrans; [apply captured_exact; [apply Hrok..|]; intros x Hx%(rok_history_le _ (rok_core _ Hrok)); change (x < version rec + 1); change (x <= version rec) in Hx; lia|].
    assert (within policy now ((with_transient ag MWB tick rec) <| content := BStr c |>) w ↔ within policy now rec w) as Hw
      by (split; intros []; by split).
    by rewrite Hw.
  - intros w Hw Hle. apply (ev_pinned _ _ _ _ (commit_rec_evolves (registry s) now ag tick rec c h sz (λ _, False) Hme)); [|done].
    by rewrite Hid.
Qed.

Lemma history_bounded_witness : ∃ u sg r' rec',
  commit 7 1 "v2" 5 None None false (registry Demo.held) = (Ok (u, sg), r') ∧
  get_record r' 1%N = Some rec' ∧ art_version u ∈ (version_history rec').*1.
Proof.
  assert (∃ u sg r', commit 7 1 "v2" 5 None None false (registry Demo.held) = (Ok (u, sg), r'))
    as (u & sg & r' & Hrun) by (eexists _, _, _; vm_compute; reflexivity).
  destruct (history_bounded 7 1 "v2" 5 None None false Demo.held (mkPolicy (Some 2) None) u sg r' Demo.held_rec
    Demo.held_reachable) as (rec' & now & Hr' & _ & Hb & _); [reflexivity|reflexivity|by vm_compute|exact Hrun|].
  exists u, sg, r', rec'. split; [exact Hrun|]. split; [exact Hr'|]. apply Hb. by left.
Defined.

(** ** The content hash of a version *)

(** C35: a pessimistic commit without a caller-supplied hash keeps the hash of the
    version it replaces: the artifact moves to the next version with the new body and
    the old body's hash. *)
Theorem commit_without_hash_is_stale ag a c tick sz abort s u sg r' : reachable s →
  commit ag a c tick None sz abort (registry s) = (Ok (u, sg), r') →
  ∃ art, get_artifact (registry s) a = Some art ∧ get_artifact r' a = Some u ∧
    get_content r' a = Some (BStr c) ∧ art_version u = art_version art + 1 ∧
    art_content_hash u = art_content_hash art.
Proof.
  intros Hs Hrun. pose proof (sy_reg _ (reachable_ok _ Hs)) as Hok.
  destruct (commit_ok_inv _ _ _ _ _ _ _ _ _ _ _ Hok Hrun) as (rec & now & Hr & Hme & -> & _ & Hat).
  destruct (commit_rec_facts (registry s) now ag tick rec c None sz (reg_rec _ Hok _ _ Hr) Hme) as (Ha & _ & Hc & _).
  exists (artifact rec). unfold get_artifact, get_content. rewrite Hr, (ar_rec _ _ _ _ Hat). cbn [fmap option_fmap option_map].
  by rewrite Ha, Hc.
Qed.

(** Artifact 1 of the example was registered with hash [h1]; after the commit of a new
    body the coordinator still reports [h1], so a restore to the old body looks done. *)
Lemma commit_without_hash_is_stale_witness : ∃ u sg r',
  commit 7 1 "v2" 5 None None false (registry Demo.held) = (Ok (u, sg), r') ∧
  art_content_hash u = Some "h1" ∧ workspace_member_registered r' "plan.md" "h1" = true.
Proof.
  assert (∃ u sg r', commit 7 1 "v2" 5 None None false (registry Demo.held) = (Ok (u, sg), r') ∧
    workspace_member_registered r' "plan.md" "h1" = true)
    as (u & sg & r' & Hrun & Hreg) by (eexists _, _, _; split; [vm_compute; reflexivity|by vm_compute]).
  destruct (commit_without_hash_is_stale 7 1 "v2" 5 None false Demo.held u sg r' Demo.held_reachable Hrun)
    as (art & Hart & _ & _ & _ & Hh).
  exists u, sg, r'. split_and!; [done| |done]. rewrite Hh. vm_compute in Hart. by injection Hart as <-.
Defined.

(** ** Checkpoint manifests *)

(** In every reachable state each stored checkpoint has an owner, a capture window
    that is not inverted, a restore status of the closed vocabulary, a pin count that
    is not negative, and at least one member row, one row per member path. *)
Theorem manifests_reachable s id cp : reachable s → get_checkpoint (registry s) id = Some cp →
  cp_checkpoint_id cp = id ∧ is_Some (cp_owner cp) ∧ cp_window_min cp <= cp_window_max cp ∧
  cp_restore_status cp ∈ RESTORE_STATUSES ∧ 0 <= cp_pin_refcount cp ∧
  ∃ ms, dget (checkpoint_members (registry s)) id = Some ms ∧ ms ≠ [] ∧ dict_wf ms ∧
    ∀ p m, dget ms p = Some m → cm_member_path m = p.
Proof. intros Hs Hcp. by destruct (sy_manifests _ (reachable_ok _ Hs) id cp Hcp). Qed.

Definition demo_members : list CheckpointMember :=
  [ mkMember "b.md" (Some 2%N) None (Some "g1") 5 false false "arbitrated" "restorable" "unpinned" None None;
    mkMember "a.md" (Some 1%N) None (Some "h1") 5 false false "arbitrated" "restorable" "unpinned" None None ].

Definition demo_checkpoint : Service :=
  run [OpCreateCheckpoint "cp" "nightly" (Some 7%N) demo_members 4 6 6 false; OpAdjustRefcount "cp" 2 false;
       OpAdjustRefcount "cp" (-3) false] Demo.s1.

Lemma manifests_reachable_witness : ∃ cp,
  get_checkpoint (registry demo_checkpoint) "cp" = Some cp ∧ cp_pin_refcount cp = 2 ∧ 0 <= cp_pin_refcount cp.
Proof.
  assert (∃ cp, get_checkpoint (registry demo_checkpoint) "cp" = Some cp ∧ cp_pin_refcount cp = 2)
    as (cp & Hcp & Hn) by (eexists; split; [vm_compute; reflexivity|done]).
  exists cp. split_and!; [done..|]. apply (manifests_reachable demo_checkpoint "cp" cp); [|done].
  apply run_reachable; [apply Demo.s1_reachable|by repeat split].
Defined.


#[local] Instance path_le_total : Total path_le.
Proof. intros [p ?] [q ?]. unfold path_le. simpl. apply String.leb_total. Qed.

Definition member_le (m1 m2 : CheckpointMember) : Prop :=
  String.leb (cm_member_path m1) (cm_member_path m2) = true.

Lemma sorted_members (l : list (string * CheckpointMember)) :
  Forall (λ kv, cm_member_path kv.2 = kv.1) l → Sorted path_le l → Sorted member_le l.*2.
Proof.
  induction l as [|[p m] l IH]; intros Hp Hs; simpl; [constructor|].
  apply Forall_cons in Hp as [Hp1 Hp]. apply Sorted_inv in Hs as [Hs Hhd]. constructor; [by apply IH|].
  destruct l as [|[q m'] l]; constructor. apply Forall_cons in Hp as [Hq _]. apply HdRel_inv in Hhd.
  unfold path_le, member_le in *. simpl in *. by rewrite Hp1, Hq.
Qed.

(** Create, then get: a created checkpoint is read back as created, with the
    given member rows in path order; the call adds that manifest and nothing else. *)
Theorem create_checkpoint_roundtrip id name owner members wmin wmax tick abort r cp r' :
  create_workspace_checkpoint id name owner members wmin wmax tick abort r = (Ok cp, r') →
  get_checkpoint r' id = Some cp ∧ cp_name cp = name ∧ cp_owner cp = owner ∧ cp_restore_status cp = "none" ∧
  get_checkpoint_members r' id ≡ₚ members ∧ Sorted member_le (get_checkpoint_members r' id) ∧
  records r' = records r ∧
  ∀ id', id' ≠ id → get_checkpoint r' id' = get_checkpoint r id' ∧
                    get_checkpoint_members r' id' = get_checkpoint_members r id'.
Proof.
  unfold create_workspace_checkpoint. destruct (is_blank name); [done|]. destruct owner as [owner|]; [|done].
  case_decide; [done|]. case_decide; [done|]. unfold abort_guard. destruct abort; [done|].
  unfold create_checkpoint, mbind, proc_bind. unfold gets, of_outcome. cbn [cp_owner cp_checkpoint_id].
  destruct (dmem (checkpoints r) id); [done|].
  destruct (index_members members []) as [by_path|e] eqn:Ei; [|done]. intros Hrun.
  destruct (index_members_spec _ _ _ Ei dict_wf_nil ltac:(done)) as (Hwf & Hp & Hall).
  simpl in Hrun. injection Hrun as <- <-. unfold get_checkpoint, get_checkpoint_members. simpl.
  rewrite !dget_dset_eq. cbn [default].
  assert (sorting.merge_sort path_le by_path ≡ₚ by_path) as Hperm by apply merge_sort_Permutation.
  split_and!; [done..| | |done|].
  - rewrite Hperm, Hall. done.
  - apply sorted_members; [|apply Sorted_merge_sort, _]. rewrite Hperm. apply Forall_forall.
    intros [p m] Hin. simpl. apply Hp. by apply dget_elem.
  - intros id' Hne. by rewrite !dget_dset_ne by done.
Qed.

Lemma create_checkpoint_roundtrip_witness : ∃ cp r',
  create_workspace_checkpoint "cp" "nightly" (Some 7%N) demo_members 4 6 6 false (registry Demo.s1) = (Ok cp, r') ∧
  get_checkpoint r' "cp" = Some cp ∧ map cm_member_path (get_checkpoint_members r' "cp") = ["a.md"; "b.md"] ∧
  get_checkpoint_members r' "cp" ≡ₚ demo_members.
Proof.
  assert (∃ cp r', create_workspace_checkpoint "cp" "nightly" (Some 7%N) demo_members 4 6 6 false (registry Demo.s1) =
    (Ok cp, r') ∧ map cm_member_path (get_checkpoint_members r' "cp") = ["a.md"; "b.md"])
    as (cp & r' & Hrun & Hpaths) by (eexists _, _; split; [vm_compute; reflexivity|by vm_compute]).
  destruct (create_checkpoint_roundtrip "cp" "nightly" (Some 7%N) demo_members 4 6 6 false (registry Demo.s1) cp r' Hrun)
    as (Hget & _ & _ & _ & Hperm & _).
  exists cp, r'. split; [exact Hrun|]. split; [exact Hget|]. split; [exact Hpaths|exact Hperm].
Defined.
