(* ===== verification/SessionSafety.v ===== *)
(** Snapshot sessions over arbitrary runs: a session reads the cut it opened with,
    commits only at that cut, is private to its owner, and ends when the liveness
    sweep says so.  The effect gate fires an effect only on an unmoved cut. *)
From S2P Require Import Prelude Core Hashing Retention Registry RegistryFacts CommitFacts Service.
From S2P Require Import ServiceFacts RevocationFacts Evolution Sessions SessionFacts Checkpoints System.
From S2P Require Import Safety Operations.

Open Scope Z_scope.
Open Scope string_scope.

(** ** Live sessions along a run *)

(** The session is live in every state of the run. *)
Fixpoint live_run (token : string) (ops : list op) (s : Service) : Prop :=
  is_Some (get_session_cut (registry s) token) ∧
  match ops with
  | [] => True
  | o :: ops' => live_run token ops' (run_op o s)
  end.

Lemma elem_live_pins r a v token cut : dget (session_pins r) token = Some cut → dget cut a = Some v →
  v ∈ live_pins_for_artifact r a.
Proof.
  intros Ht Hv. unfold live_pins_for_artifact. apply elem_of_list_to_set, list_elem_of_omap.
  exists (token, cut). split; [by apply dget_Some_elem|done].
Qed.

(** What a live session keeps along a run: its cut, its owner, the retention
    settings, and what is retained of the versions it pins. *)
Record session_kept (token : string) (a : UUID) (v : Z) (s s' : Service) : Prop := {
  sk_cut : get_session_cut (registry s') token = get_session_cut (registry s) token;
  sk_meta : get_session_meta (registry s') token = get_session_meta (registry s) token;
  sk_epoch : coordinator_epoch (registry s') = coordinator_epoch (registry s);
  sk_retain : retain_versions (registry s') = retain_versions (registry s);
  sk_version : get_version_record (registry s') a v = get_version_record (registry s) a v;
  sk_present : is_Some (get_record (registry s') a);
}.

Lemma step_kept token a v cut o s : sys_ok s → admissible o s → ¬ deletes o a →
  get_session_cut (registry s) token = Some cut → dget cut a = Some v →
  is_Some (get_session_cut (registry (run_op o s)) token) → is_Some (get_record (registry s) a) →
  session_kept token a v s (run_op o s).
Proof.
  intros Hs Ha Hd Hcut Hv [cut' Hcut'] [rec Hr]. destruct (run_op_ok o s Hs Ha) as [Hs' Had].
  pose proof (sn_cut _ _ (ad_sessions _ _ _ _ Had) _ _ _ Hcut Hcut') as ->.
  destruct (ad_present _ _ _ _ Had a Hd) as [rec' Hr']; [by exists rec|].
  destruct (proj1 (so_keys _ (sy_sess _ Hs) token)) as [m Hm]; [by exists cut|].
  destruct (proj1 (so_keys _ (sy_sess _ Hs') token)) as [m' Hm']; [by exists cut|].
  pose proof (sn_meta _ _ (ad_sessions _ _ _ _ Had) _ _ _ Hm Hm') as ->.
  pose proof (so_cut _ (sy_sess _ Hs) _ _ _ _ Hcut Hv _ Hr) as Hle.
  destruct (ev_pinned _ _ _ _ (ad_evolves _ _ _ _ Had _ _ _ Hr Hr') v) as [Hh Ht];
    [by eapply elem_live_pins|done|].
  split; [congruence| |apply Had..| |by exists rec'].
  - unfold get_session_meta. congruence.
  - unfold get_version_record. rewrite Hr, Hr'. simpl. by rewrite Hh, Ht.
Qed.

Lemma run_kept token a v cut ops s : sys_ok s → admissible_run ops s → Forall (λ o, ¬ deletes o a) ops →
  live_run token ops s → get_session_cut (registry s) token = Some cut → dget cut a = Some v →
  is_Some (get_record (registry s) a) →
  sys_ok (run ops s) ∧ session_kept token a v s (run ops s).
Proof.
  intros Hs. revert s Hs. induction ops as [|o ops IH]; intros s Hs; simpl.
  { intros _ _ _ _ _ ?. by split. }
  intros [Ho Hops] [Hd Hds]%Forall_cons [_ Hlive] Hcut Hv Hr.
  assert (is_Some (get_session_cut (registry (run_op o s)) token)) as Hl1 by (by destruct ops; destruct Hlive).
  destruct (step_kept token a v cut o s Hs Ho Hd Hcut Hv Hl1 Hr) as [K1 K2 K3 K4 K5 K6].
  destruct (IH (run_op o s)) as [? [J1 J2 J3 J4 J5 J6]]; [by apply run_op_ok|done..|congruence|done|done|].
  split; [done|]. split; congruence.
Qed.

(** ** The owner check *)
Lemma validate_owner_live token caller cut s o t : sess_ok s →
  get_session_cut (registry s) token = Some cut → get_session_meta (registry s) token = Some (o, t) →
  validate_session_owner token caller (Some cut) s =
    (if decide (o = caller) then Ok tt else Raise (SessionInvalidated "session owner mismatch"), s).
Proof.
  intros Hs Hcut Hm. unfold validate_session_owner.
  assert (match dget (session_owners s) token with
          | Some o => Some o
          | None => fst <$> get_session_meta (registry s) token
          end = Some o) as ->.
  { destruct (dget (session_owners s) token) as [o'|] eqn:Eo; [|by rewrite Hm].
    destruct (so_owners _ Hs _ _ Eo) as [c Hc]. unfold get_session_meta in Hm. congruence. }
  by case_decide.
Qed.

Lemma pinned_never_collectible v t cur policy now :
  v ∉ collectible_versions (VMapping [(v, t)]) cur policy now {[v]}.
Proof. apply exempt_not_collectible. set_solver. Qed.

(** A read at the cut, when the body is retained. *)
Lemma serve_pinned_served a v epoch r c t : retain_versions r = true → get_version_record r a v = Some (c, t) →
  ∃ r', serve_pinned a v epoch r = (Ok (ReadServed (mkVersionedContent a v c t epoch)), r') ∧
    records r' = records r.
Proof.
  intros Hret Hv. unfold serve_pinned, retention_meta. rewrite Hret. simpl. rewrite Hv.
  destruct (retention_policy r) as [p|], (art_version <$> get_artifact r a) as [cur|]; try by eexists.
  rewrite decide_False by apply pinned_never_collectible. by eexists.
Qed.

(** ** Opening *)
Lemma filter_none_all r (ids : list UUID) : filter (λ a, get_record r a = None) ids = [] →
  ∀ a, a ∈ ids → is_Some (get_record r a).
Proof.
  intros Hf a Ha. destruct (get_record r a) as [rec|] eqn:Er; [done|].
  assert (a ∈ filter (λ a, get_record r a = None) ids) by (by apply list_elem_of_filter).
  rewrite Hf in *. by apply not_elem_of_nil in H.
Qed.

Lemma cut_of_lookup r ids a : (∀ b, b ∈ ids → is_Some (get_record r b)) →
  dget (cut_of r ids) a = if decide (a ∈ ids) then current_version r a else None.
Proof. intros Hall. unfold cut_of. rewrite capture_cut_lookup. repeat case_decide; naive_solver. Qed.

(** What a successful [begin_session] tells. *)
Lemma begin_session_inv read_set owner tick token s ss s1 :
  sess_ok s → dget (session_meta (registry s)) token = None →
  begin_session read_set owner tick token s = (Ok (inl ss), s1) →
  ss = mkSnapshotSession token (cut_of (registry s) read_set) (coordinator_epoch (registry s))
         (retain_versions (registry s)) ∧
  s1 = opened s token owner tick (cut_of (registry s) read_set) ∧
  (∀ a, a ∈ read_set → is_Some (get_record (registry s) a)) ∧
  session_count (registry s) < max_sessions (session_caps s).
Proof.
  intros Hs Hm. rewrite begin_session_run by by apply meta_fresh_owner.
  repeat case_decide; try done. destruct (filter _ read_set) eqn:Ef; [|done].
  intros [= <- <-]. split_and!; [done..|by apply filter_none_all|lia].
Qed.

Lemma foldl_min_spec (l : list N) m : foldl N.min m l ∈ m :: l ∧ ∀ x, x ∈ m :: l → (foldl N.min m l <= x)%N.
Proof.
  revert m. induction l as [|y l IH]; intros m; simpl.
  { split; [set_solver|]. intros x ->%list_elem_of_singleton. done. }
  destruct (IH (N.min m y)) as [Hin Hle]. split.
  - apply elem_of_cons in Hin as [->|?]; [|set_solver]. destruct (N.min_spec m y) as [[_ ->]|[_ ->]]; set_solver.
  - pose proof (Hle (N.min m y) ltac:(set_solver)) as H1.
    intros x Hx. apply elem_of_cons in Hx as [->|[->|Hx]%elem_of_cons]; [lia..|]. apply Hle. set_solver.
Qed.

(** Opening a session.  With a fresh token it succeeds exactly when the read set
    and the number of live sessions are within their caps and every artifact is
    known; the cut pins every artifact of the read set, and no other, at its current
    version, it is stored under the token with the owner, and no record moves.
    Otherwise a rejection names the failing cap or the smallest unknown artifact and
    the service is unchanged. *)
Theorem begin_session_spec read_set owner tick token s : reachable s →
  dget (session_meta (registry s)) token = None →
  let '(o, s') := begin_session read_set owner tick token s in
  records (registry s') = records (registry s) ∧
  match o with
  | Ok (inl ss) =>
    (Z.of_nat (length read_set) <= max_read_set_cardinality (session_caps s) ∧
     session_count (registry s) < max_sessions (session_caps s) ∧
     ∀ a, a ∈ read_set → is_Some (get_record (registry s) a)) ∧
    ss_session_token ss = token ∧
    (∀ a, dget (ss_cut ss) a = if decide (a ∈ read_set) then current_version (registry s) a else None) ∧
    get_session_cut (registry s') token = Some (ss_cut ss) ∧
    get_session_meta (registry s') token = Some (owner, tick)
  | Ok (inr rej) =>
    s' = s ∧
    (vr_reason rej = SESSION_READ_SET_TOO_LARGE_REASON ∧
       max_read_set_cardinality (session_caps s) < Z.of_nat (length read_set) ∨
     vr_reason rej = SESSION_CAP_EXCEEDED_REASON ∧
       max_sessions (session_caps s) <= session_count (registry s) ∨
     vr_reason rej = UNKNOWN_ARTIFACT_REASON ∧ vr_artifact_id rej ∈ read_set ∧
       get_record (registry s) (vr_artifact_id rej) = None ∧
       ∀ a, a ∈ read_set → get_record (registry s) a = None → (vr_artifact_id rej <= a)%N)
  | Raise _ => False
  end.
Proof.
  intros Hs Hm. rewrite begin_session_run by (apply meta_fresh_owner; [apply reachable_ok, Hs|done]).
  case_decide; [by eauto 10|]. case_decide; [by eauto 10|].
  destruct (filter _ read_set) as [|m missing] eqn:Ef.
  - split; [done|]. pose proof (filter_none_all _ _ Ef) as Hall. split_and!; [lia..|done|done| | |].
    + intros a. by apply cut_of_lookup.
    + simpl. apply dget_dset_eq.
    + unfold get_session_meta. simpl. apply dget_dset_eq.
  - split; [done|]. split; [done|]. right; right. split; [done|]. simpl.
    destruct (foldl_min_spec missing m) as [Hin Hle].
    assert (foldl N.min m missing ∈ filter (λ a, get_record (registry s) a = None) read_set) as Hf by by rewrite Ef.
    apply list_elem_of_filter in Hf as [? ?]. split_and!; [done..|]. intros a Ha Hn.
    apply Hle. rewrite <-Ef. by apply list_elem_of_filter.
Qed.

Lemma begin_session_spec_witness :
  dget (session_meta (registry Demo.s1)) "tok" = None ∧
  let '(o, s') := begin_session [2%N; 1%N] 7 5 "tok" Demo.s1 in
  records (registry s') = records (registry Demo.s1) ∧
  match o with
  | Ok (inl ss) =>
    (Z.of_nat 2 <= max_read_set_cardinality (session_caps Demo.s1) ∧
     session_count (registry Demo.s1) < max_sessions (session_caps Demo.s1) ∧
     ∀ a, a ∈ [2%N; 1%N] → is_Some (get_record (registry Demo.s1) a)) ∧
    ss_session_token ss = "tok" ∧
    (∀ a, dget (ss_cut ss) a = if decide (a ∈ [2%N; 1%N]) then current_version (registry Demo.s1) a else None) ∧
    get_session_cut (registry s') "tok" = Some (ss_cut ss) ∧
    get_session_meta (registry s') "tok" = Some (7%N, 5)
  | _ => False
  end.
Proof.
  split; [done|]. pose proof (begin_session_spec [2%N; 1%N] 7 5 "tok" Demo.s1 Demo.s1_reachable eq_refl) as H.
  vm_compute (begin_session _ _ _ _ _) in H |- *. exact H.
Defined.

(** ** Reading at the cut *)

(** The body retained of a version, if retention keeps one. *)
Definition retained_body (r : Registry) (a : UUID) (v : Z) : option (body * Z) :=
  if retain_versions r then get_version_record r a v else None.

(** The hash a read without a retained body offers: that of the pinned version, while
    it is still the current one. *)
Definition offered_hash (r : Registry) (art : Artifact) : option string :=
  if decide (current_version r (art_id art) = Some (art_version art)) then art_content_hash art else None.

Lemma retained_current r a rec c t : reg_ok r → get_record r a = Some rec →
  retained_body r a (version rec) = Some (c, t) → content rec = c.
Proof.
  intros Hok Hr. unfold retained_body, get_version_record. destruct (retain_versions r); [|done]. rewrite Hr. simpl.
  destruct (dget (version_history rec) (version rec)) as [c'|] eqn:E; [|done]. simpl.
  destruct (dget (version_captured_at rec) (version rec)); [|done]. intros [= -> _].
  by apply (rok_history_current _ (rok_core _ (reg_rec _ Hok _ _ Hr))).
Qed.

Lemma serve_pinned_deferred a epoch r art art' : retained_body r a (art_version art) = None →
  get_artifact r a = Some art' → art_id art = a → (art_version art' = art_version art → art' = art) →
  serve_pinned a (art_version art) epoch r =
    (Ok (ReadDeferred (mkDeferredRead a (art_version art) (offered_hash r art) epoch)), r).
Proof.
  intros Hnone Hart Hid Hsame. unfold offered_hash. rewrite Hid, <-get_artifact_version.
  unfold serve_pinned, retention_meta, retained_body in *. rewrite Hart. simpl.
  assert ((if decide (art_version art' = art_version art) then art_content_hash art' else None) =
          (if decide (Some (art_version art') = Some (art_version art)) then art_content_hash art else None)) as ->
    by (repeat case_decide; try congruence; rewrite Hsame by done; done).
  destruct (retain_versions r); simpl; [by rewrite Hnone|done].
Qed.

(** C22 (snapshot isolation of reads): after a session opens, whatever the other
    agents commit, delete or collect and whatever the state log does, a read of a
    pinned artifact by the owner answers at the version that was current when the
    session opened, as long as the session is live and the artifact exists.  If the
    body of that version was retained then (retention on, and the version published
    with a body), the read serves that body, which is the one that was current.
    Otherwise (in particular without retention, the default) the read is deferred to
    the data plane: it still names the pinned version, with its hash while that
    version is the current one and no hash once it has moved on. *)
Theorem snapshot_read_stable read_set owner tick token s ss s1 ops a v :
  reachable s → dget (session_meta (registry s)) token = None →
  begin_session read_set owner tick token s = (Ok (inl ss), s1) →
  admissible_run ops s1 → Forall (λ o, ¬ deletes o a) ops → live_run token ops s1 →
  dget (ss_cut ss) a = Some v →
  ∃ art s2, get_artifact (registry s) a = Some art ∧ art_version art = v ∧
    (∀ c t, retained_body (registry s) a v = Some (c, t) → get_content (registry s) a = Some c) ∧
    session_read token a owner (run ops s1) =
      (Ok match retained_body (registry s) a v with
          | Some (c, t) => ReadServed (mkVersionedContent a v c t (coordinator_epoch (registry s)))
          | None => ReadDeferred (mkDeferredRead a v (offered_hash (registry (run ops s1)) art)
                                    (coordinator_epoch (registry s)))
          end, s2).
Proof.
  intros Hs Hm Hbegin Hops Hd Hlive Hv. pose proof (reachable_ok _ Hs) as Hok.
  destruct (begin_session_inv _ _ _ _ _ _ _ (sy_sess _ Hok) Hm Hbegin) as (-> & -> & Hall & Hcap). simpl in Hv.
  pose proof Hv as Hcur. rewrite cut_of_lookup in Hcur by done. case_decide as Ha; [|done].
  destruct (Hall a Ha) as [rec Hr]. unfold current_version in Hcur. rewrite Hr in Hcur. injection Hcur as Hcur.
  set (cut := cut_of (registry s) read_set) in *. set (s1 := opened s token owner tick cut) in *.
  assert (get_session_cut (registry s1) token = Some cut) as Hcut by apply dget_dset_eq.
  assert (get_session_meta (registry s1) token = Some (owner, tick)) as Hmeta
    by (unfold get_session_meta; simpl; apply dget_dset_eq).
  assert (sys_ok s1) as Hok1 by by apply opened_ok.
  destruct (run_kept token a v cut ops s1) as [Hok' [K1 K2 K3 K4 K5 _]]; [done..|by exists rec|].
  destruct (run_evolves ops s1 a rec Hok1 Hops Hd Hr) as (rec' & Hr' & Hev).
  exists (artifact rec). unfold session_read, mbind, proc_bind. unfold gets. rewrite K1, Hcut.
  rewrite (validate_owner_live token owner cut _ owner tick (sy_sess _ Hok')) by congruence.
  rewrite decide_True, Hv by done. unfold on_registry, zoom. rewrite K3. subst v.
  assert (retained_body (registry (run ops s1)) a (version rec) = retained_body (registry s) a (version rec)) as Hkept
    by (unfold retained_body; by rewrite K4, K5).
  destruct (retained_body (registry s) a (version rec)) as [[c t]|] eqn:Eb.
  - unfold retained_body in Hkept. destruct (retain_versions (registry (run ops s1))) eqn:Er; [|done].
    destruct (serve_pinned_served a (version rec) (coordinator_epoch (registry s1)) _ c t Er Hkept) as (r' & -> & _).
    eexists. split_and!; [by apply get_of_record|done| |done]. intros c' t' [= <- <-].
    rewrite (proj2 (get_of_record _ _ _ Hr)). f_equal.
    eapply retained_current; [apply (sy_reg _ Hok)|exact Hr|exact Eb].
  - rewrite (serve_pinned_deferred a _ _ (artifact rec) (artifact rec')); [|done|by apply get_of_record| |].
    + eexists. by split_and!; [apply get_of_record|..].
    + by apply (reg_id _ (sy_reg _ Hok)).
    + intros E. by apply (ev_same _ _ _ _ Hev).
Qed.

(** A session on artifact 1 opens at version 1; agents 7 and 8 commit versions 2 to 4
    and the count bound of 2 collects version 2, while the session still reads 1. *)
Lemma snapshot_read_stable_witness :
  let s1 := (begin_session [1%N] 9 5 "tok" Demo.s1).2 in
  let ops := [OpCommitCas 7 1 1 "h2" 6 None (Some (BStr "v2")) false;
              OpCommitCas 8 1 2 "h3" 7 None (Some (BStr "v3")) false;
              OpCommitCas 8 1 3 "h4" 8 None (Some (BStr "v4")) false] in
  get_version_record (registry (run ops s1)) 1 2 = None ∧
  retained_body (registry Demo.s1) 1 1 = Some (BStr "v1", 0) ∧
  ∃ art s2, get_artifact (registry Demo.s1) 1 = Some art ∧ art_version art = 1 ∧
    (∀ c t, retained_body (registry Demo.s1) 1 1 = Some (c, t) → get_content (registry Demo.s1) 1 = Some c) ∧
    session_read "tok" 1 9 (run ops s1) =
      (Ok match retained_body (registry Demo.s1) 1 1 with
          | Some (c, t) => ReadServed (mkVersionedContent 1 1 c t (coordinator_epoch (registry Demo.s1)))
          | None => ReadDeferred (mkDeferredRead 1 1 (offered_hash (registry (run ops s1)) art)
                                    (coordinator_epoch (registry Demo.s1)))
          end, s2).
Proof.
  cbv zeta. split_and!; [by vm_compute..|].
  apply (snapshot_read_stable [1%N] 9 5 "tok" Demo.s1 (mkSnapshotSession "tok" [(1%N, 1)] "epoch" true)
           (begin_session [1%N] 9 5 "tok" Demo.s1).2 _ 1 1 Demo.s1_reachable eq_refl).
  - vm_compute. reflexivity.
  - by repeat split.
  - repeat constructor; by intros [].
  - repeat split; by eexists.
  - reflexivity.
Defined.

(** ** Committing at the cut *)

(** A commit of a pinned artifact by the owner is a [commit_cas] at the pin. *)
Lemma session_commit_run token a c caller sz tick abort s cut v t h : sess_ok s →
  get_session_cut (registry s) token = Some cut → get_session_meta (registry s) token = Some (caller, t) →
  dget cut a = Some v → compute_content_hash c = Ok h →
  session_commit token a c caller sz tick abort s =
    let '(o, r') := service_commit_cas (session_committer_id token) a v h tick sz (Some c) abort (registry s) in
    (match o with
     | Ok (inl win) => Ok (CommitWin win)
     | Ok (inr d) => Ok (CommitConflict d)
     | Raise e => Raise e
     end, s <| registry := r' |>).
Proof.
  intros Hs Hcut Hm Hv Hh. unfold session_commit, mbind, proc_bind. unfold gets. rewrite Hcut.
  rewrite (validate_owner_live token caller cut s caller t Hs Hcut Hm), decide_True by done.
  rewrite Hv. unfold of_outcome. rewrite Hh. unfold on_registry, zoom.
  by destruct (service_commit_cas _ _ _ _ _ _ _ _ (registry s)) as [[[]|] r'].
Qed.

(** A session commit publishes only over the version the session read.  With a
    state log that does not raise and a committer id that no agent uses, it wins
    exactly when the pinned version is still current and no agent holds a write
    grant; the next version then carries the body and its hash.  If the artifact
    moved it is a version mismatch that names the current version and nothing moves;
    it never reports corruption. *)
Theorem session_commit_spec token a c caller sz tick s cut v t h rec : reachable s → log_quiet (registry s) →
  get_session_cut (registry s) token = Some cut → get_session_meta (registry s) token = Some (caller, t) →
  dget cut a = Some v → compute_content_hash c = Ok h → get_record (registry s) a = Some rec →
  let me := session_committer_id token in
  dget (transient_by_agent rec) me = None → m_or_e (st rec me) = false → fence_superseded rec me = false →
  let '(o, s') := session_commit token a c caller sz tick false s in
  match o with
  | Ok (CommitWin (updated, signals)) =>
    version rec = v ∧ (∀ q, m_or_e (st rec q) = false) ∧
    art_version updated = v + 1 ∧ art_content_hash updated = Some h ∧
    get_artifact (registry s') a = Some updated ∧ get_content (registry s') a = Some c ∧
    (∀ p, p ≠ me → default INVALID (get_agent_state (registry s') a p) = INVALID)
  | Ok (CommitConflict d) =>
    same_data (registry s) (registry s') ∧ cd_current_version d = version rec ∧
    (if decide (version rec = v) then cd_reason d = other_holder ∧ ∃ q, m_or_e (st rec q) = true
     else cd_reason d = version_mismatch)
  | _ => False
  end.
Proof.
  intros Hs Hq Hcut Hm Hv Hh Hr me Htr Hme Hf. pose proof (reachable_ok _ Hs) as Hok.
  pose proof (so_cut _ (sy_sess _ Hok) _ _ _ _ Hcut Hv _ Hr) as Hle.
  pose proof (sy_reg _ Hok) as Hreg. pose proof (reg_rec _ Hreg _ _ Hr) as Hrok.
  rewrite (session_commit_run token a c caller sz tick false s cut v t h (sy_sess _ Hok) Hcut Hm Hv Hh). fold me.
  pose proof (cas_table me a v h tick sz (Some c) s rec Hok Hq Hr Htr Hme) as Htab.
  destruct (service_commit_cas me a v h tick sz (Some c) false (registry s)) as [[[[updated signals]|d]|e] r'].
  - destruct Htab as ((-> & Hother & _) & -> & _ & rec' & Hr' & Hart & Hver & Hc & Hst & Hpeers & _).
    unfold get_artifact, get_content, get_agent_state. simpl. rewrite Hr'. simpl.
    split_and!; [done| |done|done|by f_equal|by f_equal|by intros p Hp; apply Hpeers].
    intros q. destruct (decide (q = me)) as [->|Hne]; auto.
  - destruct Htab as (Hsame & Hcur & Hreason). split_and!; [done..|].
    destruct (cd_reason d); case_decide; try lia; try done; destruct Hreason as [? Hx]; try congruence.
    + destruct Hx as (q & _ & ?). eauto.
    + destruct Hx. congruence.
  - destruct Htab as (_ & ? & _). lia.
Qed.

(** Artifacts 1 and 2 pinned at version 1 by agent 9 under [tok], by agent 8 under [kot]. *)
Definition demo_open : Service :=
  run [OpBeginSession [1%N; 2%N] 9 5 "tok"; OpBeginSession [1%N; 2%N] 8 5 "kot"] Demo.s1.

Lemma demo_open_reachable : reachable demo_open.
Proof. apply run_reachable; [apply Demo.s1_reachable|by repeat split]. Qed.

Lemma demo_open_quiet : log_quiet (registry demo_open).
Proof. by intros sink [= <-]. Qed.

Definition demo_hash : string :=
  Eval vm_compute in match compute_content_hash (BStr "v2") with Ok h => h | Raise _ => "" end.

Lemma session_commit_spec_witness : ∃ updated signals s',
  session_commit "tok" 1 (BStr "v2") 9 None 6 false demo_open = (Ok (CommitWin (updated, signals)), s') ∧
  art_version updated = 2 ∧ art_content_hash updated = Some demo_hash ∧
  get_content (registry s') 1 = Some (BStr "v2").
Proof.
  pose proof (session_commit_spec "tok" 1 (BStr "v2") 9 None 6 demo_open [(1%N, 1); (2%N, 1)] 1 5 demo_hash
    Demo.s1_rec demo_open_reachable demo_open_quiet eq_refl eq_refl eq_refl ltac:(by vm_compute)
    ltac:(by vm_compute) ltac:(by vm_compute) ltac:(by vm_compute) ltac:(by vm_compute)) as H.
  assert (∃ updated signals s', session_commit "tok" 1 (BStr "v2") 9 None 6 false demo_open =
    (Ok (CommitWin (updated, signals)), s')) as (updated & signals & s' & Heq)
    by (eexists _, _, _; vm_compute; reflexivity).
  rewrite Heq in H. destruct H as (_ & _ & ? & ? & _ & ? & _). exists updated, signals, s'. done.
Defined.

(** A session commit that returned a win. *)
Definition session_wins {A} (o : outcome exn (SessionCommit A)) : bool :=
  match o with Ok (CommitWin _) => true | _ => false end.

Lemma session_win_inv token a c caller sz tick abort s : sys_ok s →
  session_wins (session_commit token a c caller sz tick abort s).1 = true →
  ∃ cut v rec, get_session_cut (registry s) token = Some cut ∧ dget cut a = Some v ∧
    get_record (registry s) a = Some rec ∧ version rec = v ∧
    ∃ rec', get_record (registry (session_commit token a c caller sz tick abort s).2) a = Some rec' ∧
      version rec' = v + 1.
Proof.
  intros Hs. unfold session_commit, mbind, proc_bind. unfold gets.
  pose proof (validate_owner_state token caller (get_session_cut (registry s) token) s) as Hv.
  destruct (validate_session_owner _ _ _ s) as [[u|e] s1]; simpl in Hv; subst s1; [|done].
  destruct (get_session_cut (registry s) token) as [cut|]; [|done].
  destruct (dget cut a) as [v|] eqn:Ev; [|done]. unfold of_outcome.
  destruct (compute_content_hash c) as [h|]; [|done]. unfold on_registry, zoom.
  destruct (service_commit_cas _ _ _ _ _ _ _ _ (registry s)) as [[[res|d]|e] r'] eqn:Ec; try done. intros _.
  destruct (cas_win_inv _ _ _ _ _ _ _ _ _ _ _ (sy_reg _ Hs) Ec) as (rec & Hr & Harb & _ & _ & _ & now & Hat).
  pose proof (rok_states _ (rok_core _ (reg_rec _ (sy_reg _ Hs) _ _ Hr))) as Hwf.
  pose proof (cas_arbitrate_spec rec (session_committer_id token) v Hwf) as Hspec. rewrite Harb in Hspec.
  destruct Hspec as (-> & Hother & _).
  exists cut, (version rec), rec. split_and!; [done..|]. eexists. split; [exact (ar_rec _ _ _ _ Hat)|].
  by apply cas_final_version.
Qed.

Lemma session_conflict_inv token a c caller sz tick abort s d s' : sys_ok s →
  session_commit token a c caller sz tick abort s = (Ok (CommitConflict d), s') →
  ∀ b, get_record (registry s') b = get_record (registry s) b.
Proof.
  intros Hs Ec b. unfold session_commit, mbind, proc_bind in Ec. unfold gets in Ec.
  pose proof (validate_owner_state token caller (get_session_cut (registry s) token) s) as Hv.
  destruct (validate_session_owner _ _ _ s) as [[u|e] s4]; simpl in Hv; subst s4; [|done].
  destruct (get_session_cut (registry s) token) as [cut|]; [|done].
  destruct (dget cut a) as [v|]; [|done]. unfold of_outcome in Ec.
  destruct (compute_content_hash c) as [h|]; [|done]. unfold on_registry, zoom in Ec.
  destruct (service_commit_cas _ _ _ _ _ _ _ _ (registry s)) as [[[res|d3]|e] r'] eqn:Ecas; [done| |done].
  pose proof (cas_conflict_inv _ _ _ _ _ _ _ _ _ _ _ (sy_reg _ Hs) Ecas b) as Hc.
  injection Ec as <- <-. exact Hc.
Qed.

(** C25 (first committer wins): of two sessions that pinned an artifact at the same
    version, once one has committed it the other cannot, whatever happens in
    between and whoever owns them. *)
Theorem session_first_committer_wins tok1 tok2 a c1 c2 o1 o2 sz1 sz2 t1 t2 ab1 ab2 ops s cut1 cut2 v :
  reachable s → get_session_cut (registry s) tok1 = Some cut1 → dget cut1 a = Some v →
  session_wins (session_commit tok1 a c1 o1 sz1 t1 ab1 s).1 = true →
  let s1 := run_op (OpSessionCommit tok1 a c1 o1 sz1 t1 ab1) s in
  admissible_run ops s1 → Forall (λ o, ¬ deletes o a) ops →
  get_session_cut (registry (run ops s1)) tok2 = Some cut2 → dget cut2 a = Some v →
  session_wins (session_commit tok2 a c2 o2 sz2 t2 ab2 (run ops s1)).1 = false.
Proof.
  intros Hs Hcut1 Hv1 Hwin s1 Hops Hd Hcut2 Hv2. pose proof (reachable_ok _ Hs) as Hok.
  destruct (session_win_inv _ _ _ _ _ _ _ _ Hok Hwin) as (cut & w & rec & Hcut & Hw & Hr & Hver & rec' & Hr' & Hver').
  simplify_eq. destruct (run_op_ok (OpSessionCommit tok1 a c1 o1 sz1 t1 ab1) s Hok I) as [Hok1 _].
  assert (get_record (registry s1) a = Some rec') as Hs1.
  { unfold s1, run_op. cbn [op_proc]. by rewrite ignore_state. }
  destruct (run_evolves ops s1 a rec' Hok1 Hops Hd Hs1) as (rec2 & Hr2 & Hev).
  assert (reachable (run ops s1)) as Hfin by (apply run_reachable; [by apply reach_step|done]).
  destruct (session_wins (session_commit tok2 _ _ _ _ _ _ _).1) eqn:Ew; [|done]. exfalso.
  destruct (session_win_inv _ _ _ _ _ _ _ _ (reachable_ok _ Hfin) Ew) as (? & ? & ? & ? & ? & ? & ? & _).
  simplify_eq. pose proof (ev_version _ _ _ _ Hev). lia.
Qed.

Lemma session_first_committer_wins_witness :
  session_wins (session_commit "tok" 1 (BStr "v2") 9 None 6 false demo_open).1 = true ∧
  session_wins (session_commit "kot" 1 (BStr "x2") 8 None 7 false
    (run [] (run_op (OpSessionCommit "tok" 1 (BStr "v2") 9 None 6 false) demo_open))).1 = false.
Proof.
  split; [by vm_compute|].
  apply (session_first_committer_wins "tok" "kot" 1 (BStr "v2") (BStr "x2") 9 8 None None 6 7 false false []
           demo_open [(1%N, 1); (2%N, 1)] [(1%N, 1); (2%N, 1)] 1 demo_open_reachable).
  - reflexivity.
  - reflexivity.
  - by vm_compute.
  - done.
  - constructor.
  - by vm_compute.
  - reflexivity.
Defined.

(** ** Ownership *)

(** C30: a live session is usable by its owner only.  For any other caller a read, a
    commit and a batch commit raise [SessionInvalidated], a heartbeat is refused, and
    in each case the service is unchanged: no read, no conflict count, no
    registration of interest. *)
Theorem session_owner_isolation token caller owner t cut a c sz tick abort w ws s : reachable s →
  get_session_cut (registry s) token = Some cut → get_session_meta (registry s) token = Some (owner, t) →
  caller ≠ owner →
  let denied := SessionInvalidated "session owner mismatch" in
  session_read token a caller s = (Raise denied, s) ∧
  session_commit token a c caller sz tick abort s = (Raise denied, s) ∧
  session_commit_all token (w :: ws) caller tick abort s = (Raise denied, s) ∧
  (0 <= tick → record_session_heartbeat token caller tick s = (Ok false, s)).
Proof.
  intros Hs Hcut Hm Hne denied. pose proof (sy_sess _ (reachable_ok _ Hs)) as Hok.
  pose proof (validate_owner_live token caller cut s owner t Hok Hcut Hm) as Hval.
  rewrite decide_False in Hval by congruence. split_and!.
  - unfold session_read, mbind, proc_bind. unfold gets. by rewrite Hcut, Hval.
  - unfold session_commit, mbind, proc_bind. unfold gets. by rewrite Hcut, Hval.
  - unfold session_commit_all, mbind, proc_bind. unfold gets. destruct w. by rewrite Hcut, Hval.
  - intros Ht. unfold record_session_heartbeat. rewrite decide_False by lia.
    destruct (dget (session_owners s) token) as [o|] eqn:Eo.
    + destruct (so_owners _ Hok _ _ Eo) as [x Hx]. unfold get_session_meta in Hm.
      rewrite decide_False; [done|congruence].
    + rewrite Hm. by rewrite decide_False by congruence.
Qed.

Lemma session_owner_isolation_witness :
  session_read "tok" 1 8 demo_open = (Raise (SessionInvalidated "session owner mismatch"), demo_open) ∧
  session_commit "tok" 1 (BStr "x") 8 None 6 false demo_open =
    (Raise (SessionInvalidated "session owner mismatch"), demo_open) ∧
  session_commit_all "tok" [(1%N, (BStr "x", None))] 8 6 false demo_open =
    (Raise (SessionInvalidated "session owner mismatch"), demo_open) ∧
  (0 <= 6 → record_session_heartbeat "tok" 8 6 demo_open = (Ok false, demo_open)).
Proof.
  apply (session_owner_isolation "tok" 8 9 5 [(1%N, 1); (2%N, 1)] 1 (BStr "x") None 6 false _ [] demo_open
           demo_open_reachable eq_refl eq_refl). done.
Defined.

(** ** Bookkeeping *)

(** In every reachable state the session tables are consistent and bounded: at
    most [max_sessions] live sessions, at most 4096 remembered reaped tokens, a cut
    for a token exactly when it has an owner, in-memory owners and creation ticks
    that agree with the registry's, and cuts that pin versions already published. *)
Theorem session_tables_consistent s : reachable s →
  session_count (registry s) <= Z.max 0 (max_sessions (session_caps s)) ∧
  (length (reaped_tombstone s) <= REAPED_TOMBSTONE_CAP)%nat ∧
  (∀ t, is_Some (get_session_cut (registry s) t) ↔ is_Some (get_session_meta (registry s) t)) ∧
  (∀ t o, dget (session_owners s) t = Some o → ∃ c, get_session_meta (registry s) t = Some (o, c)) ∧
  (∀ t c, dget (session_created s) t = Some c → ∃ o, get_session_meta (registry s) t = Some (o, c)) ∧
  (∀ t cut a v art, get_session_cut (registry s) t = Some cut → dget cut a = Some v →
     get_artifact (registry s) a = Some art → v <= art_version art).
Proof.
  intros Hs. destruct (sy_sess _ (reachable_ok _ Hs)) as [P M K O C B Cap T Cut]. split_and!; try done.
  intros t cut a v art Hcut Hv. unfold get_artifact. destruct (get_record (registry s) a) as [rec|] eqn:Er; [|done].
  intros [= <-]. by apply (Cut t cut a v Hcut Hv rec).
Qed.

Lemma session_tables_consistent_witness :
  session_count (registry demo_open) = 2 ∧ session_count (registry demo_open) <= Z.max 0 256.
Proof. split; [done|]. apply (session_tables_consistent demo_open demo_open_reachable). Defined.

(** ** The liveness sweep *)

(** When a session is due: it is known in memory and has not been heard of for [hb]
    ticks, or it is older than the absolute age, heartbeats or not. *)
Definition session_due (s : Service) (tick hb : Z) (token : string) : Prop :=
  ∃ o created, get_session_meta (registry s) token = Some (o, created) ∧
    ((is_Some (dget (session_owners s) token) ∧
      ∀ last, dget (session_heartbeats s) token = Some last → hb <= tick - last) ∨
     absolute_age_ticks (session_caps s) <= tick - created).

Lemma session_expired_due s tick hb token : sess_ok s → is_Some (get_session_meta (registry s) token) →
  session_expired s (all_session_meta (registry s)) tick hb token = true ↔ session_due s tick hb token.
Proof.
  intros Hs [[o created] Hm]. unfold session_expired, session_due, all_session_meta.
  destruct (dmem (session_owners s) token) eqn:Eo.
  - apply dmem_true in Eo as [o' Ho]. destruct (so_born _ Hs token) as [c Hc]; [by exists o'|].
    destruct (so_created _ Hs _ _ Hc) as [o2 Hm2]. unfold get_session_meta in Hm. simplify_eq.
    rewrite Hc, Ho. rewrite orb_true_iff, bool_decide_eq_true. split.
    + intros [Hst|Hage]; exists o, created; (split; [done|]); [left|by right]. split; [by eexists|].
      intros last Hl. rewrite Hl in Hst. by apply bool_decide_eq_true in Hst.
    + intros (? & ? & Heq & [[_ Hst]|Hage]); unfold get_session_meta in Heq; simplify_eq; [left|by right].
      destruct (dget (session_heartbeats s) token); [|done]. apply bool_decide_eq_true. by apply Hst.
  - assert (dget (session_owners s) token = None) as Ho.
    { destruct (dget (session_owners s) token) eqn:E; [|done]. unfold dmem in Eo. by rewrite E in Eo. }
    unfold get_session_meta in *. rewrite Hm, Ho. simpl. rewrite bool_decide_eq_true. split.
    + intros Hage. exists o, created. split; [done|by right].
    + intros (? & ? & Heq & [[[? ?] _]|Hage]); by simplify_eq.
Qed.

Lemma expired_reaped durable tick hb t t' s : t ≠ t' →
  session_expired (reaped t' s) durable tick hb t = session_expired s durable tick hb t.
Proof.
  intros Hne. unfold session_expired, dmem. simpl. rewrite !dget_dpop. repeat case_decide; congruence.
Qed.

(** What a pass over distinct tokens leaves, and how many it reaps. *)
Lemma sweep_fold_spec durable tick hb tokens s n : NoDup tokens →
  let due t := session_expired s durable tick hb t in
  let '(s', n') := foldl (sweep_step durable tick hb) (s, n) tokens in
  n' = n + Z.of_nat (length (List.filter due tokens)) ∧
  (∀ t, get_session_cut (registry s') t =
     if decide (t ∈ tokens ∧ due t = true) then None else get_session_cut (registry s) t).
Proof.
  cbv zeta. revert s n. induction tokens as [|t tokens IH]; intros s n Hnd.
  { split; [simpl; lia|]. intros t. rewrite decide_False; [done|]. intros [[]%elem_of_nil _]. }
  apply NoDup_cons in Hnd as [Hni Hnd]. cbn [foldl List.filter].
  unfold sweep_step at 2. cbn [fst snd]. destruct (session_expired s durable tick hb t) eqn:Et.
  - specialize (IH (reaped t s) (n + 1) Hnd).
    assert (∀ u, u ∈ tokens → session_expired (reaped t s) durable tick hb u = session_expired s durable tick hb u)
      as Hsame by (intros u Hu; apply expired_reaped; by intros ->).
    destruct (foldl _ _ tokens) as [s' n']. destruct IH as [-> Hcut]. split.
    + rewrite (filter_ext_in _ (λ u, session_expired s durable tick hb u)) by (intros u Hu; apply Hsame; by apply list_elem_of_In).
      cbn [length]. lia.
    + intros u. rewrite Hcut. unfold get_session_cut at 1. simpl. rewrite dget_dpop.
      destruct (decide (u ∈ tokens)) as [Hu|Hu].
      * rewrite Hsame by done. repeat case_decide; naive_solver set_solver.
      * repeat case_decide; naive_solver set_solver.
  - specialize (IH s n Hnd). destruct (foldl _ _ tokens) as [s' n']. destruct IH as [-> Hcut]. split; [done|].
    intros u. rewrite Hcut. apply decide_ext. split; [set_solver|].
    intros [[->|?]%elem_of_cons ?]; [congruence|done].
Qed.

Lemma length_dpop_present {K V} `{EqDecision K} (d : list (K * V)) k v :
  dict_wf d → dget d k = Some v → S (length (dpop d k)) = length d.
Proof.
  induction d as [|[k1 v1] d IH]; simpl; [done|]. intros [Hni Hd]%dict_wf_cons. case_decide as Hk; intros Hv.
  - subst k1. by rewrite dpop_absent by by apply dget_None.
  - simpl. by rewrite IH.
Qed.

Lemma sweep_fold_count durable tick hb tokens s n : NoDup tokens →
  dict_wf (session_meta (registry s)) → (∀ t, t ∈ tokens → is_Some (get_session_meta (registry s) t)) →
  let '(s', n') := foldl (sweep_step durable tick hb) (s, n) tokens in
  n' + session_count (registry s') = n + session_count (registry s).
Proof.
  revert s n. induction tokens as [|t tokens IH]; intros s n Hnd Hwf Hall; [done|].
  apply NoDup_cons in Hnd as [Hni Hnd]. cbn [foldl]. unfold sweep_step at 2. cbn [fst snd].
  destruct (session_expired s durable tick hb t); [|apply IH; [done..|]; intros u Hu; apply Hall; set_solver].
  specialize (IH (reaped t s) (n + 1) Hnd). destruct (foldl _ _ tokens) as [s' n'].
  destruct (Hall t) as [m Hm]; [set_solver|]. rewrite IH.
  - unfold session_count. simpl. pose proof (length_dpop_present (session_meta (registry s)) t m Hwf Hm). lia.
  - by apply dict_wf_dpop.
  - intros u Hu. unfold get_session_meta. simpl. rewrite dget_dpop_ne by (intros ->; done). apply Hall. set_solver.
Qed.

Lemma sweep_token_live s t : sess_ok s → t ∈ sweep_tokens s ↔ is_Some (get_session_meta (registry s) t).
Proof.
  intros Hs. unfold sweep_tokens, all_session_meta, get_session_meta. rewrite elem_of_union, !elem_of_list_to_set. split.
  - intros [[o Ho]%dkey_Some|[m Hm]%dkey_Some]; [|by exists m].
    destruct (so_owners _ Hs _ _ Ho) as [c Hc]. by exists (o, c).
  - intros [m Hm]. right. by eapply dget_Some_key.
Qed.

(** The liveness sweep ends exactly the sessions that are due when it starts,
    in whatever order Python iterates the token set: a session that misses its
    heartbeats or outlives the absolute age loses its pins and its binding, every
    other one keeps its cut, no artifact record moves, and the count returned is the
    number of sessions that ended. *)
Theorem session_sweep_exact order tick hb s : reachable s → 1 <= hb →
  (∀ X : gset string, order X ≡ₚ elements X) →
  ∃ n s', enforce_session_liveness order tick hb s = (Ok n, s') ∧
    records (registry s') = records (registry s) ∧
    n = session_count (registry s) - session_count (registry s') ∧
    ∀ token, (session_due s tick hb token →
                get_session_cut (registry s') token = None ∧ get_session_meta (registry s') token = None) ∧
             (¬ session_due s tick hb token →
                get_session_cut (registry s') token = get_session_cut (registry s) token).
Proof.
  intros Hs Hhb Hord. pose proof (reachable_ok _ Hs) as Hok. pose proof (sy_sess _ Hok) as Hss.
  rewrite sweep_run by done. cbv zeta. set (toks := order (sweep_tokens s)).
  assert (NoDup toks) as Hnd by (unfold toks; rewrite Hord; apply NoDup_elements).
  assert (∀ t, t ∈ toks ↔ is_Some (get_session_meta (registry s) t)) as Hin.
  { intros t. unfold toks. rewrite Hord, elem_of_elements. by apply sweep_token_live. }
  change (session_meta (registry s)) with (all_session_meta (registry s)).
  pose proof (sweep_fold_ok (all_session_meta (registry s)) tick hb toks s 0 Hok) as (Hok' & Hrec & _).
  pose proof (sweep_fold_spec (all_session_meta (registry s)) tick hb toks s 0 Hnd) as Hspec.
  pose proof (sweep_fold_count (all_session_meta (registry s)) tick hb toks s 0 Hnd (so_meta_wf _ Hss)
    (λ t, proj1 (Hin t))) as Hcount.
  cbv zeta in Hspec. destruct (foldl _ (s, 0) toks) as [s' n'] eqn:Ef. destruct Hspec as [_ Hcut]. simpl in Hok', Hrec.
  exists n', s'. split_and!; [done|done|lia|]. intros t. split.
  - intros Hdue. assert (get_session_cut (registry s') t = None) as Hn.
    { rewrite Hcut, decide_True; [done|]. pose proof Hdue as (o & c & Hm & _). split; [apply Hin; by eexists|].
      apply session_expired_due; [done|by eexists|done]. }
    split; [done|]. destruct (get_session_meta (registry s') t) as [m|] eqn:Em; [|done].
    destruct (proj2 (so_keys _ (sy_sess _ Hok') t)) as [x Hx]; [by exists m|]. unfold get_session_cut in Hn. congruence.
  - intros Hnot. rewrite Hcut, decide_False; [done|]. intros [Hi He]. apply Hnot.
    apply session_expired_due; [done|by apply Hin|done].
Qed.

(** At tick 70 agent 9's session, last heard of at tick 60, stays; agent 8's ends. *)
Lemma session_sweep_exact_witness :
  let s := run [OpSessionHeartbeat "tok" 9 60] demo_open in
  (enforce_session_liveness elements 70 30 s).1 = Ok 1 ∧
  ∃ n s', enforce_session_liveness elements 70 30 s = (Ok n, s') ∧
    records (registry s') = records (registry s) ∧
    n = session_count (registry s) - session_count (registry s') ∧
    ∀ token, (session_due s 70 30 token →
                get_session_cut (registry s') token = None ∧ get_session_meta (registry s') token = None) ∧
             (¬ session_due s 70 30 token →
                get_session_cut (registry s') token = get_session_cut (registry s) token).
Proof.
  split; [by vm_compute|]. apply (session_sweep_exact elements 70 30).
  - apply run_reachable; [apply demo_open_reachable|by repeat split].
  - lia.
  - done.
Defined.
