(* ===== verification/Effects.v ===== *)
(** The effect gate: an escaping effect runs only on an unmoved cut, an atomic effect
    commits only over the pinned version of its target. *)
From S2P Require Import Prelude Core Hashing Retention Registry RegistryFacts CommitFacts Service.
From S2P Require Import ServiceFacts RevocationFacts Evolution Sessions SessionFacts Checkpoints System.
From S2P Require Import Safety Operations SessionSafety.

Open Scope Z_scope.
Open Scope string_scope.

(** ** Revalidation of a cut *)
Lemma revalidate_fold r cut acc a : dict_wf cut →
  dget (foldl (λ moved (kv : UUID * Z),
          let current := art_version <$> get_artifact r kv.1 in
          if decide (current = Some kv.2) then moved else dset moved kv.1 (kv.2, current)) acc cut) a =
  match dget cut a with
  | Some v => if decide (current_version r a = Some v) then dget acc a else Some (v, current_version r a)
  | None => dget acc a
  end.
Proof.
  revert acc. induction cut as [|[b w] cut IH]; intros acc Hwf; [done|].
  apply dict_wf_cons in Hwf as [Hni Hwf]. cbn [foldl dget]. cbv zeta. simpl fst. simpl snd.
  rewrite get_artifact_version, (IH _ Hwf). destruct (decide (b = a)) as [->|Hne].
  - rewrite (proj2 (dget_None cut a)) by done. destruct (decide (current_version r a = Some w)); [done|].
    by rewrite dget_dset_eq.
  - destruct (decide (current_version r b = Some w)); [done|]. by rewrite dget_dset_ne by done.
Qed.

Lemma revalidate_lookup r cut a : dict_wf cut →
  dget (revalidate_cut r cut) a =
  match dget cut a with
  | Some v => if decide (current_version r a = Some v) then None else Some (v, current_version r a)
  | None => None
  end.
Proof. intros Hwf. unfold revalidate_cut. by rewrite revalidate_fold. Qed.


(** ** Escaping effects *)
Section escaping.
Context {D R : Type} (read_set : list UUID) (owner : UUID) (tick issued : Z) (token : string) (release : bool).
Context (decide_cb : (UUID → SM (VersionedContent + DataPlaneDeferredRead)) → SM D) (eff : D → SM R).


(** What [release_on_exit] does at the end. *)
Definition on_exit (s : Service) : Service := if release then dropped token s else s.

Lemma effect_gate_decided s ss s1 d s2 commit effect : ss_session_token ss = token →
  begin_session read_set owner tick token s = (Ok (inl ss), s1) →
  decide_cb (view_read token owner) s1 = (Ok d, s2) →
  (effect = Some eff ∧ commit = None ∨ effect = None ∧ is_Some commit) →
  effect_gate read_set owner decide_cb effect commit tick issued release token s =
    let '(o, s') := match commit with
                    | Some (a, c) => effect_gate_atomic ss owner a c issued s2
                    | None => effect_gate_escaping ss eff d s2
                    end in (o, on_exit s').
Proof.
  intros Htok Hbegin Hdec [[-> ->]|[-> [[a c] ->]]]; cbv beta iota delta [effect_gate];
    unfold mbind at 1, proc_bind at 1; rewrite Hbegin; unfold finally, mbind at 1, proc_bind at 1;
    rewrite Htok, Hdec; unfold on_exit; [destruct (effect_gate_escaping ss eff d s2)|];
    [|destruct (effect_gate_atomic ss owner a c issued s2)]; by destruct release.
Qed.

End escaping.

(** ** Atomic effects *)

Lemma on_exit_record token release s b : get_record (registry (on_exit token release s)) b = get_record (registry s) b.
Proof. unfold on_exit. by destruct release. Qed.

(** The atomic gate publishes only over the version the decision saw.  If it
    fires, the target is in the read set, its version when the commit ran is the one
    pinned when the session opened, and the next version is published by that same
    call, so no other writer got in between.  If it holds, no artifact moved. *)
Theorem effect_gate_atomic_spec {D R : Type} read_set owner (cb : (UUID → SM (VersionedContent + DataPlaneDeferredRead)) → SM D)
    a c tick issued release token s ss s1 d s2 : reachable s →
  dget (session_meta (registry s)) token = None →
  begin_session read_set owner tick token s = (Ok (inl ss), s1) → cb (view_read token owner) s1 = (Ok d, s2) →
  reachable s2 → get_session_cut (registry s2) token = Some (ss_cut ss) →
  let '(o, s') := effect_gate (R := R) read_set owner cb None (Some (a, c)) tick issued release token s in
  match o with
  | Ok (inl fired) =>
    a ∈ read_set ∧ is_Some (ef_commit fired) ∧
    ∃ v, current_version (registry s) a = Some v ∧ current_version (registry s2) a = Some v ∧
      current_version (registry s') a = Some (v + 1)
  | Ok (inr held) => ∀ b, get_record (registry s') b = get_record (registry s2) b
  | Raise _ => True
  end.
Proof.
  intros Hs Hm Hbegin Hdec Hs2 Hlive. pose proof (reachable_ok _ Hs) as Hok. pose proof (reachable_ok _ Hs2) as Hok2.
  destruct (begin_session_inv _ _ _ _ _ _ _ (sy_sess _ Hok) Hm Hbegin) as (-> & Hs1 & Hall & _).
  set (cut := cut_of (registry s) read_set) in *.
  rewrite (effect_gate_decided read_set owner tick issued token release cb (λ _, raise CallbackError) _ _ _ _ _
    (Some (a, c)) None (eq_refl : ss_session_token (mkSnapshotSession token _ _ _) = token) Hbegin Hdec) by (right; eauto).
  unfold effect_gate_atomic, mbind, proc_bind. unfold gets. cbn [ss_cut ss_coordinator_epoch ss_session_token].
  pose proof (on_exit_record token release) as Hx.
  destruct (dmem (revalidate_cut (registry s2) cut) a); [intros b; apply Hx|].
  destruct (session_commit token a c owner None issued false s2) as [[[win|d2|rej]|e] s3] eqn:Ec; [..|done|done].
  - pose proof (session_win_inv token a c owner None issued false s2 Hok2) as Hwin. rewrite Ec in Hwin. simpl in Hwin.
    destruct (Hwin eq_refl) as (cut' & v & rec & Hcut' & Hv & Hr & <- & rec' & Hr' & Hver'). simpl in Hlive. simplify_eq.
    unfold cut in Hv. rewrite cut_of_lookup in Hv by done. case_decide; [|done].
    split_and!; [done|by eexists|]. exists (version rec). unfold current_version at 2 3. rewrite Hx, Hr, Hr'. simpl.
    split_and!; [done..|]. by rewrite Hver'.
  - intros b. simpl. rewrite Hx. by eapply session_conflict_inv.
Qed.

(** A session commit on an unmoved target with no write grant wins, and moves the
    target alone. *)
Lemma session_commit_lands token a c caller tick s cut t h rec : reachable s → log_quiet (registry s) →
  get_session_cut (registry s) token = Some cut → get_session_meta (registry s) token = Some (caller, t) →
  dget cut a = Some (version rec) → compute_content_hash c = Ok h → get_record (registry s) a = Some rec →
  dget (transient_by_agent rec) (session_committer_id token) = None →
  fence_superseded rec (session_committer_id token) = false → (∀ q, m_or_e (st rec q) = false) →
  ∃ updated signals s', session_commit token a c caller None tick false s = (Ok (CommitWin (updated, signals)), s') ∧
    get_artifact (registry s') a = Some updated ∧ art_version updated = version rec + 1 ∧
    art_content_hash updated = Some h ∧ get_content (registry s') a = Some c ∧
    ∀ b, b ≠ a → get_record (registry s') b = get_record (registry s) b.
Proof.
  intros Hs Hq Hcut Hm Hv Hh Hr Htr Hf Hno. pose proof (reachable_ok _ Hs) as Hok.
  pose proof (session_commit_spec token a c caller None tick s cut _ t h rec Hs Hq Hcut Hm Hv Hh Hr Htr (Hno _) Hf) as Hspec.
  rewrite (session_commit_run token a c caller None tick false s cut _ t h (sy_sess _ Hok) Hcut Hm Hv Hh) in *.
  destruct (service_commit_cas _ _ _ _ _ _ _ _ (registry s)) as [[[[u sg]|d]|e] r'] eqn:Ec; [|exfalso|done].
  - destruct (cas_win_inv _ _ _ _ _ _ _ _ _ _ _ (sy_reg _ Hok) Ec) as (rec0 & _ & _ & _ & _ & _ & t0 & Hat).
    destruct Hspec as (_ & _ & Hver & Hhash & Hart & Hc & _). exists u, sg, (s <| registry := r' |>).
    split_and!; [done..|]. intros b Hb. simpl. by apply (ar_others _ _ _ _ Hat).
  - destruct Hspec as (_ & _ & Hreason). rewrite decide_True in Hreason by done. destruct Hreason as (_ & q & Hx).
    by rewrite Hno in Hx.
Qed.

(** C37 (write skew of the atomic gate): the atomic gate looks at its target only.
    Take a decision that returned, a live session, content that can be hashed, a state
    log that does not raise, a committer id no agent uses and no write grant on the
    target.  If the target is
    still at its pinned version the gate fires and publishes the next one, whatever
    happened to the other artifacts of the read set: they are left as they are, and
    the verdict's revalidated cut names every one of them at the version pinned when
    the session opened, moved or not.  If the target moved the gate holds. *)
Theorem atomic_gate_write_skew {D R : Type} read_set owner (cb : (UUID → SM (VersionedContent + DataPlaneDeferredRead)) → SM D)
    a c tick issued release token s ss s1 d s2 t h v rec : reachable s →
  dget (session_meta (registry s)) token = None →
  begin_session read_set owner tick token s = (Ok (inl ss), s1) → cb (view_read token owner) s1 = (Ok d, s2) →
  reachable s2 → log_quiet (registry s2) → get_session_cut (registry s2) token = Some (ss_cut ss) →
  get_session_meta (registry s2) token = Some (owner, t) → compute_content_hash c = Ok h →
  a ∈ read_set → current_version (registry s) a = Some v → get_record (registry s2) a = Some rec →
  dget (transient_by_agent rec) (session_committer_id token) = None →
  fence_superseded rec (session_committer_id token) = false → (∀ q, m_or_e (st rec q) = false) →
  let '(o, s') := effect_gate (R := R) read_set owner cb None (Some (a, c)) tick issued release token s in
  (∀ b, b ≠ a → get_record (registry s') b = get_record (registry s2) b) ∧
  match o with
  | Ok (inl fired) =>
    version rec = v ∧ current_version (registry s') a = Some (v + 1) ∧ get_content (registry s') a = Some c ∧
    ∀ b, dget (ef_revalidated_cut fired) b = if decide (b ∈ read_set) then current_version (registry s) b else None
  | Ok (inr held) => version rec ≠ v ∧ dget (eh_moved held) a = Some (v, Some (version rec))
  | Raise _ => False
  end.
Proof.
  intros Hs Hm Hbegin Hdec Hs2 Hq Hlive Hmeta Hh Ha Hv Hr Htr Hf Hno. pose proof (reachable_ok _ Hs) as Hok.
  destruct (begin_session_inv _ _ _ _ _ _ _ (sy_sess _ Hok) Hm Hbegin) as (-> & Hs1 & Hall & _).
  set (cut := cut_of (registry s) read_set) in *.
  assert (dict_wf cut) as Hwf by (apply capture_cut_wf, dict_wf_nil).
  assert (dget cut a = Some v) as Hpin by (unfold cut; by rewrite cut_of_lookup, decide_True by done).
  rewrite (effect_gate_decided read_set owner tick issued token release cb (λ _, raise CallbackError) _ _ _ _ _
    (Some (a, c)) None (eq_refl : ss_session_token (mkSnapshotSession token _ _ _) = token) Hbegin Hdec) by (right; eauto).
  unfold effect_gate_atomic, mbind, proc_bind. unfold gets. cbn [ss_cut ss_coordinator_epoch ss_session_token].
  pose proof (on_exit_record token release) as Hx.
  assert (dget (revalidate_cut (registry s2) cut) a =
          if decide (version rec = v) then None else Some (v, Some (version rec))) as Hmoved.
  { rewrite revalidate_lookup, Hpin by done. unfold current_version. rewrite Hr. simpl.
    repeat case_decide; congruence. }
  unfold dmem. rewrite Hmoved. case_decide as E.
  - subst v. destruct (session_commit_lands token a c owner issued s2 cut t h rec)
      as (u & sg & s3 & -> & Hart & Hver & _ & Hc & Hothers); [done..|].
    cbn [fst snd]. split; [intros b Hb; by rewrite Hx, Hothers|].
    split_and!; [done| | |intros b; by apply cut_of_lookup].
    + rewrite <-get_artifact_version. unfold get_artifact. rewrite Hx. unfold get_artifact in Hart.
      rewrite Hart. simpl. by f_equal.
    + unfold get_content. by rewrite Hx.
  - split; [intros b _; apply Hx|]. by split.
Qed.

(** ** Examples *)

(** Another agent commits artifact [a] while the decision is taken. *)
Definition drift (a : UUID) : (UUID → SM (VersionedContent + DataPlaneDeferredRead)) → SM unit := λ _,
  ignore (on_registry (service_commit_cas 7 a 1 "g2" 6 None (Some (BStr "w2")) false)).

Definition no_drift : (UUID → SM (VersionedContent + DataPlaneDeferredRead)) → SM unit := λ view,
  ignore (view 1%N).

Definition demo_session : SnapshotSession := mkSnapshotSession "tok" [(1%N, 1); (2%N, 1)] "epoch" true.


Lemma effect_gate_atomic_spec_witness : ∃ fired s',
  effect_gate (R := unit) [1%N; 2%N] 9 no_drift None (Some (1%N, BStr "v2")) 5 6 true "tok" Demo.s1 =
    (Ok (inl fired), s') ∧ current_version (registry s') 1 = Some 2.
Proof.
  pose proof (effect_gate_atomic_spec (D := unit) (R := unit) [1%N; 2%N] 9 no_drift 1 (BStr "v2") 5 6 true "tok"
    Demo.s1 demo_session (begin_session [1%N; 2%N] 9 5 "tok" Demo.s1).2 tt
    (run [OpBeginSession [1%N; 2%N] 9 5 "tok"; OpSessionRead "tok" 1 9] Demo.s1)
    Demo.s1_reachable eq_refl ltac:(vm_compute; reflexivity) ltac:(vm_compute; reflexivity)
    ltac:(apply run_reachable; [apply Demo.s1_reachable|by repeat split]) ltac:(by vm_compute)) as H.
  assert (∃ f s', effect_gate (R := unit) [1%N; 2%N] 9 no_drift None (Some (1%N, BStr "v2")) 5 6 true "tok" Demo.s1 =
    (Ok (inl f), s')) as (f & s' & Heq) by (eexists _, _; vm_compute; reflexivity).
  rewrite Heq in H. destruct H as (_ & _ & v & Hv & _ & Hv'). vm_compute in Hv. simplify_eq. by exists f, s'.
Defined.

(** Artifact 2 of the read set moves to version 2 while the decision is taken; the gate
    still commits artifact 1, and its verdict reports artifact 2 at version 1. *)
Lemma atomic_gate_write_skew_witness : ∃ fired s',
  effect_gate (R := unit) [1%N; 2%N] 9 (drift 2) None (Some (1%N, BStr "v2")) 5 6 true "tok" Demo.s1 =
    (Ok (inl fired), s') ∧
  dget (ef_revalidated_cut fired) 2%N = Some 1 ∧ current_version (registry s') 2 = Some 2 ∧
  current_version (registry s') 1 = Some 2.
Proof.
  pose proof (atomic_gate_write_skew (D := unit) (R := unit) [1%N; 2%N] 9 (drift 2) 1 (BStr "v2") 5 6 true "tok"
    Demo.s1 demo_session (begin_session [1%N; 2%N] 9 5 "tok" Demo.s1).2 tt
    (run [OpBeginSession [1%N; 2%N] 9 5 "tok"; OpCommitCas 7 2 1 "g2" 6 None (Some (BStr "w2")) false] Demo.s1)
    5 demo_hash 1 Demo.s1_rec
    Demo.s1_reachable eq_refl ltac:(vm_compute; reflexivity) ltac:(vm_compute; reflexivity)
    ltac:(apply run_reachable; [apply Demo.s1_reachable|by repeat split]) ltac:(by intros sink [= <-])
    ltac:(by vm_compute) ltac:(by vm_compute) ltac:(by vm_compute) ltac:(by left) ltac:(by vm_compute)
    ltac:(by vm_compute) ltac:(by vm_compute) ltac:(by vm_compute) ltac:(done)) as H.
  assert (∃ f s', effect_gate (R := unit) [1%N; 2%N] 9 (drift 2) None (Some (1%N, BStr "v2")) 5 6 true "tok" Demo.s1 =
    (Ok (inl f), s')) as (f & s' & Heq) by (eexists _, _; vm_compute; reflexivity).
  rewrite Heq in H. destruct H as (Hothers & _ & Ha & _ & Hcut). exists f, s'. split_and!; [exact Heq| | |exact Ha].
  - rewrite Hcut. by vm_compute.
  - unfold current_version. rewrite Hothers by done. by vm_compute.
Defined.
