(* ===== verification/Strategies.v ===== *)
(** Synchronization strategies: the policy interface [SyncStrategy] of
    [src/ccs/strategies/base.py] as a type class, one instance per strategy class,
    the factory of [selector.py], and the laws the runtime relies on.

    [StrategyLaws] states what a strategy promises to the agent runtime.  The
    theorems of the runtime are proved against it; every strategy but the
    benchmark-only blind cache has an instance. *)
From S2P Require Import Prelude Core Checkpoints.

Open Scope Z_scope.
Open Scope string_scope.

(** ** The interface *)
Class SyncStrategy (T : Type) := {
  strategy_name : T → string;
  invalidates_peers_on_commit : T → bool;
  max_cas_retries : T → Z;
  cas_backoff_ticks : T → Z → Z;
  broadcasts_content_on_commit : T → bool;
  broadcasts_every_tick : T → bool;
  staleness_bound : T → option Z;
  requires_refresh : T → ArtifactCacheEntry → Z → bool;
  on_read : T → ArtifactCacheEntry → Z → ArtifactCacheEntry;
  on_fetch : T → UUID → Z → MESIState → Z → ArtifactCacheEntry;
}.

(** The defaults of the base class. *)
Module Base.
Definition invalidates_peers_on_commit : bool := true.
Definition max_cas_retries : Z := 3.
Definition cas_backoff_ticks (attempt : Z) : Z :=
  if decide (attempt <= 0) then 0 else Z.min (Z.shiftl 1 (attempt - 1)) 16.
Definition broadcasts_content_on_commit : bool := false.
Definition broadcasts_every_tick : bool := false.
Definition staleness_bound : option Z := None.
Definition new_entry (a : UUID) (version : Z) (state : MESIState) (now_tick : Z) : ArtifactCacheEntry :=
  mkEntry a state version 0 now_tick None None None.
Definition touch (entry : ArtifactCacheEntry) : ArtifactCacheEntry :=
  entry <| ce_access_count ::= λ n, n + 1 |>.
Definition stale_if_invalid (entry : ArtifactCacheEntry) : bool := bool_decide (ce_state entry = INVALID).
End Base.

(** ** The strategies *)
Inductive LazyStrategy := mkLazy.
#[export] Instance lazy_strategy : SyncStrategy LazyStrategy := {|
  strategy_name _ := "lazy";
  invalidates_peers_on_commit _ := Base.invalidates_peers_on_commit;
  max_cas_retries _ := Base.max_cas_retries;
  cas_backoff_ticks _ := Base.cas_backoff_ticks;
  broadcasts_content_on_commit _ := Base.broadcasts_content_on_commit;
  broadcasts_every_tick _ := Base.broadcasts_every_tick;
  staleness_bound _ := Base.staleness_bound;
  requires_refresh _ entry _ := Base.stale_if_invalid entry;
  on_read _ entry _ := Base.touch entry;
  on_fetch _ a version state now_tick := Base.new_entry a version state now_tick;
|}.

Inductive EagerStrategy := mkEager.
#[export] Instance eager_strategy : SyncStrategy EagerStrategy := {|
  strategy_name _ := "eager";
  invalidates_peers_on_commit _ := false;
  max_cas_retries _ := Base.max_cas_retries;
  cas_backoff_ticks _ := Base.cas_backoff_ticks;
  broadcasts_content_on_commit _ := true;
  broadcasts_every_tick _ := Base.broadcasts_every_tick;
  staleness_bound _ := Some 0;
  requires_refresh _ entry _ := Base.stale_if_invalid entry;
  on_read _ entry _ := Base.touch entry;
  on_fetch _ a version state now_tick := Base.new_entry a version state now_tick;
|}.

Inductive BroadcastStrategy := mkBroadcast.
#[export] Instance broadcast_strategy : SyncStrategy BroadcastStrategy := {|
  strategy_name _ := "broadcast";
  invalidates_peers_on_commit _ := false;
  max_cas_retries _ := Base.max_cas_retries;
  cas_backoff_ticks _ := Base.cas_backoff_ticks;
  broadcasts_content_on_commit _ := true;
  broadcasts_every_tick _ := true;
  staleness_bound _ := Some 0;
  requires_refresh _ entry _ := Base.stale_if_invalid entry;
  on_read _ entry _ := Base.touch entry;
  on_fetch _ a version state now_tick := Base.new_entry a version state now_tick;
|}.

Inductive BlindCacheStrategy := mkBlind.
#[export] Instance blind_strategy : SyncStrategy BlindCacheStrategy := {|
  strategy_name _ := "blind";
  invalidates_peers_on_commit _ := Base.invalidates_peers_on_commit;
  max_cas_retries _ := Base.max_cas_retries;
  cas_backoff_ticks _ := Base.cas_backoff_ticks;
  broadcasts_content_on_commit _ := Base.broadcasts_content_on_commit;
  broadcasts_every_tick _ := Base.broadcasts_every_tick;
  staleness_bound _ := Base.staleness_bound;
  requires_refresh _ _ _ := false;
  on_read _ entry _ := Base.touch entry;
  on_fetch _ a version state now_tick := Base.new_entry a version state now_tick;
|}.

Record LeaseStrategy := mkLease { ttl_ticks : Z }.
Definition LeaseStrategy_init (ttl : Z) : outcome exn LeaseStrategy :=
  if decide (ttl < 1) then Raise (ValueError "ttl_ticks must be >= 1") else Ok (mkLease ttl).
#[export] Instance lease_strategy : SyncStrategy LeaseStrategy := {|
  strategy_name _ := "lease";
  invalidates_peers_on_commit _ := Base.invalidates_peers_on_commit;
  max_cas_retries _ := Base.max_cas_retries;
  cas_backoff_ticks _ := Base.cas_backoff_ticks;
  broadcasts_content_on_commit _ := Base.broadcasts_content_on_commit;
  broadcasts_every_tick _ := Base.broadcasts_every_tick;
  staleness_bound t := Some (ttl_ticks t);
  requires_refresh _ entry now_tick :=
    if Base.stale_if_invalid entry then true
    else match ce_expires_at_tick entry with
         | None => true
         | Some expires => bool_decide (expires <= now_tick)
         end;
  on_read t entry now_tick :=
    let expires := default (now_tick + ttl_ticks t) (ce_expires_at_tick entry) in
    (Base.touch entry) <| ce_expires_at_tick := Some expires |>;
  on_fetch t a version state now_tick :=
    (Base.new_entry a version state now_tick) <| ce_expires_at_tick := Some (now_tick + ttl_ticks t) |>;
|}.

Record AccessCountStrategy := mkAccessCount { max_accesses : Z }.
Definition AccessCountStrategy_init (n : Z) : outcome exn AccessCountStrategy :=
  if decide (n < 1) then Raise (ValueError "max_accesses must be >= 1") else Ok (mkAccessCount n).
#[export] Instance access_count_strategy : SyncStrategy AccessCountStrategy := {|
  strategy_name _ := "access_count";
  invalidates_peers_on_commit _ := Base.invalidates_peers_on_commit;
  max_cas_retries _ := Base.max_cas_retries;
  cas_backoff_ticks _ := Base.cas_backoff_ticks;
  broadcasts_content_on_commit _ := Base.broadcasts_content_on_commit;
  broadcasts_every_tick _ := Base.broadcasts_every_tick;
  staleness_bound t := Some (max_accesses t);
  requires_refresh t entry _ :=
    if Base.stale_if_invalid entry then true
    else bool_decide (max_accesses t <= ce_access_count entry);
  on_read _ entry _ := Base.touch entry;
  on_fetch _ a version state now_tick := Base.new_entry a version state now_tick;
|}.

(** ** The factory *)

(** [str.strip().lower()], on UTF-8 bytes.  White space is stripped as
    [Checkpoints.blank_bytes] recognises it; lowering maps the ASCII capitals, which
    decides equality with the ASCII names the factory knows (no non-ASCII character
    lowers to a letter of those names). *)
Fixpoint rstrip_bytes (l : list N) : list N :=
  match l with
  | [] => []
  | b :: l' => if blank_bytes l then [] else b :: rstrip_bytes l'
  end.

Fixpoint lstrip_bytes (l : list N) : list N :=
  match l with
  | [] => []
  | b :: l' =>
    if blank_bytes [b] then lstrip_bytes l'
    else match l' with
         | c :: l2 =>
           if blank_bytes [b; c] then lstrip_bytes l2
           else match l2 with
                | d :: l3 => if blank_bytes [b; c; d] then lstrip_bytes l3 else l
                | [] => l
                end
         | [] => l
         end
  end.

Definition lower_byte (b : N) : N := if decide (65 <= b <= 90)%N then (b + 32)%N else b.

Definition normalize (s : string) : string :=
  String.string_of_list_ascii
    (map Ascii.ascii_of_N
       (map lower_byte (rstrip_bytes (lstrip_bytes
          (map Ascii.N_of_ascii (String.list_ascii_of_string s)))))).

Inductive Strategy : Type :=
| BlindS (s : BlindCacheStrategy)
| BroadcastS (s : BroadcastStrategy)
| EagerS (s : EagerStrategy)
| LazyS (s : LazyStrategy)
| LeaseS (s : LeaseStrategy)
| AccessCountS (s : AccessCountStrategy).

(** Method dispatch on the object [build_strategy] returns. *)
#[export] Instance any_strategy : SyncStrategy Strategy :=
  let dispatch {A : Type} (f : ∀ T, SyncStrategy T → T → A) (s : Strategy) : A :=
    match s with
    | BlindS s => f _ _ s | BroadcastS s => f _ _ s | EagerS s => f _ _ s
    | LazyS s => f _ _ s | LeaseS s => f _ _ s | AccessCountS s => f _ _ s
    end in
  {|
    strategy_name := dispatch (λ T _ s, strategy_name s);
    invalidates_peers_on_commit := dispatch (λ T _ s, invalidates_peers_on_commit s);
    max_cas_retries := dispatch (λ T _ s, max_cas_retries s);
    cas_backoff_ticks := dispatch (λ T _ s, cas_backoff_ticks s);
    broadcasts_content_on_commit := dispatch (λ T _ s, broadcasts_content_on_commit s);
    broadcasts_every_tick := dispatch (λ T _ s, broadcasts_every_tick s);
    staleness_bound := dispatch (λ T _ s, staleness_bound s);
    requires_refresh := dispatch (λ T _ s, requires_refresh s);
    on_read := dispatch (λ T _ s, on_read s);
    on_fetch := dispatch (λ T _ s, on_fetch s);
  |}.

Definition select_strategy_name_for_role (role : string) (role_overrides : option (list (string * string)))
    (default_name : string) : string :=
  match role_overrides with
  | Some d => match dget d role with Some name => name | None => default_name end
  | None => default_name
  end.

Definition build_strategy (name : string) (lease_ttl_ticks access_count_max_accesses : Z) : outcome exn Strategy :=
  let normalized := normalize name in
  if String.eqb normalized "blind" then Ok (BlindS mkBlind)
  else if String.eqb normalized "broadcast" then Ok (BroadcastS mkBroadcast)
  else if String.eqb normalized "eager" then Ok (EagerS mkEager)
  else if String.eqb normalized "lazy" then Ok (LazyS mkLazy)
  else if String.eqb normalized "lease" then
    match LeaseStrategy_init lease_ttl_ticks with Ok s => Ok (LeaseS s) | Raise e => Raise e end
  else if bool_decide (normalized ∈ ["access_count"; "access-count"; "accesscount"]) then
    match AccessCountStrategy_init access_count_max_accesses with
    | Ok s => Ok (AccessCountS s)
    | Raise e => Raise e
    end
  else Raise (ValueError "unknown strategy").

(** ** What a strategy promises to the runtime *)
Class StrategyLaws (T : Type) `{SyncStrategy T} := {
  (** the values the constructor accepts *)
  strategy_ok : T → Prop;
  law_fetch t a v s now :
    ce_artifact_id (on_fetch t a v s now) = a ∧ ce_state (on_fetch t a v s now) = s ∧
    ce_local_version (on_fetch t a v s now) = v ∧ ce_access_count (on_fetch t a v s now) = 0 ∧
    ce_acquired_at_tick (on_fetch t a v s now) = now;
  law_read t e now :
    ce_artifact_id (on_read t e now) = ce_artifact_id e ∧ ce_state (on_read t e now) = ce_state e ∧
    ce_local_version (on_read t e now) = ce_local_version e ∧
    ce_acquired_at_tick (on_read t e now) = ce_acquired_at_tick e ∧
    ce_access_count (on_read t e now) = ce_access_count e + 1;
  (** an invalidated copy is never served *)
  law_invalid t e now : ce_state e = INVALID → requires_refresh t e now = true;
  (** a copy just fetched is usable *)
  law_fresh t a v s now : strategy_ok t → s ≠ INVALID → requires_refresh t (on_fetch t a v s now) now = false;
  law_retries t : 0 <= max_cas_retries t;
}.

#[export] Instance lazy_laws : StrategyLaws LazyStrategy.
Proof.
  refine {| strategy_ok := λ _, True |}; [done|done| |intros; by apply bool_decide_eq_false_2|done].
  intros t e now He. by apply bool_decide_eq_true_2.
Defined.

#[export] Instance eager_laws : StrategyLaws EagerStrategy.
Proof.
  refine {| strategy_ok := λ _, True |}; [done|done| |intros; by apply bool_decide_eq_false_2|done].
  intros t e now He. by apply bool_decide_eq_true_2.
Defined.

#[export] Instance broadcast_laws : StrategyLaws BroadcastStrategy.
Proof.
  refine {| strategy_ok := λ _, True |}; [done|done| |intros; by apply bool_decide_eq_false_2|done].
  intros t e now He. by apply bool_decide_eq_true_2.
Defined.

#[export] Instance lease_laws : StrategyLaws LeaseStrategy.
Proof.
  refine {| strategy_ok := λ t, 1 <= ttl_ticks t |}; [done|done| | |done].
  - intros t e now He. simpl. unfold Base.stale_if_invalid. by rewrite bool_decide_eq_true_2.
  - intros t a v s now Ht Hs. simpl. unfold Base.stale_if_invalid. simpl.
    rewrite bool_decide_eq_false_2 by done. apply bool_decide_eq_false_2. lia.
Defined.

#[export] Instance access_count_laws : StrategyLaws AccessCountStrategy.
Proof.
  refine {| strategy_ok := λ t, 1 <= max_accesses t |}; [done|done| | |done].
  - intros t e now He. simpl. unfold Base.stale_if_invalid. by rewrite bool_decide_eq_true_2.
  - intros t a v s now Ht Hs. simpl. unfold Base.stale_if_invalid. simpl.
    rewrite bool_decide_eq_false_2 by done. apply bool_decide_eq_false_2. lia.
Defined.

(** ** Staleness *)

(** Reads served from the cache at the given ticks, until one needs a refresh. *)
Fixpoint local_reads {T} `{SyncStrategy T} (t : T) (e : ArtifactCacheEntry) (ticks : list Z)
    : option ArtifactCacheEntry :=
  match ticks with
  | [] => Some e
  | now :: ticks' => if requires_refresh t e now then None else local_reads t (on_read t e now) ticks'
  end.

Lemma local_reads_kept {T} `{StrategyLaws T} (t : T) e ticks e' : local_reads t e ticks = Some e' →
  ce_state e' = ce_state e ∧ ce_local_version e' = ce_local_version e ∧
  (ce_state e = INVALID → ticks = []) ∧ ce_access_count e' = ce_access_count e + Z.of_nat (length ticks).
Proof.
  revert e. induction ticks as [|now ticks IH]; intros e; simpl; [intros [= <-]; split_and!; [done..|lia]|].
  destruct (requires_refresh t e now) eqn:Er; [done|]. intros Hl.
  destruct (IH _ Hl) as (H1 & H2 & _ & H3). destruct (law_read t e now) as (_ & L1 & L2 & _ & L3).
  split_and!; [congruence..| |lia]. intros He. by rewrite (law_invalid t e now He) in Er.
Qed.

Lemma lease_reads_bounded t e ticks e' expires : ce_expires_at_tick e = Some expires →
  local_reads (T := LeaseStrategy) t e ticks = Some e' → Forall (λ now, now < expires) ticks.
Proof.
  revert e. induction ticks as [|now ticks IH]; intros e Hx; simpl; [done|].
  destruct (Base.stale_if_invalid e); [done|]. rewrite Hx. case_bool_decide; [done|]. intros Hl.
  apply Forall_cons. split; [lia|]. by eapply IH, Hl.
Qed.

Lemma access_reads_bounded t e ticks e' : ce_access_count e <= max_accesses t →
  local_reads (T := AccessCountStrategy) t e ticks = Some e' →
  ce_access_count e + Z.of_nat (length ticks) <= max_accesses t.
Proof.
  revert e. induction ticks as [|now ticks IH]; intros e Hc; simpl; [lia|].
  destruct (Base.stale_if_invalid e); [done|]. case_bool_decide; [done|]. intros Hl.
  apply IH in Hl; simpl in *; lia.
Qed.

(** A strategy the factory makes, other than the blind cache, obeys the laws. *)
Lemma local_reads_dispatch (s : Strategy) e ticks :
  local_reads s e ticks =
  match s with
  | BlindS t => local_reads t e ticks | BroadcastS t => local_reads t e ticks
  | EagerS t => local_reads t e ticks | LazyS t => local_reads t e ticks
  | LeaseS t => local_reads t e ticks | AccessCountS t => local_reads t e ticks
  end.
Proof.
  destruct s; revert e; induction ticks as [|now ticks IH]; intros e; simpl; try done.
  all: by rewrite IH.
Qed.

Lemma build_strategy_param name ttl n s : build_strategy name ttl n = Ok s →
  match s with LeaseS t => t = mkLease ttl ∧ 1 <= ttl | AccessCountS t => t = mkAccessCount n ∧ 1 <= n | _ => True end.
Proof.
  unfold build_strategy, LeaseStrategy_init, AccessCountStrategy_init.
  repeat case_match; intros; simplify_eq; try done; split; done || lia.
Qed.

(** Bounded staleness: reads served from the cache between two fetches all see
    the version and the state that were fetched, and the strategy bounds them: a lease
    serves only before the fetch tick plus its time to live, an access-count strategy
    serves at most its number of accesses, and no strategy but the blind cache serves
    an invalidated copy. *)
Theorem local_reads_bounded name ttl n s a v st0 t0 ticks e : build_strategy name ttl n = Ok s →
  local_reads s (on_fetch s a v st0 t0) ticks = Some e →
  match s with
  | BlindS _ => True
  | _ => ce_local_version e = v ∧ ce_state e = st0 ∧ (st0 = INVALID → ticks = [])
  end ∧
  match s with
  | LeaseS _ => Forall (λ now, now < t0 + ttl) ticks
  | AccessCountS _ => Z.of_nat (length ticks) <= n
  | _ => True
  end.
Proof.
  intros Hb Hl. pose proof (build_strategy_param _ _ _ _ Hb) as Hp. rewrite local_reads_dispatch in Hl.
  destruct s as [t|t|t|t|t|t]; [done|..]; (split; [by apply local_reads_kept in Hl as (? & ? & ? & _)|]); try done.
  - destruct Hp as [-> _]. by eapply lease_reads_bounded, Hl.
  - destruct Hp as [-> Hn]. apply access_reads_bounded in Hl; simpl in *; lia.
Qed.

Lemma local_reads_bounded_witness :
  Forall (λ now, now < 10 + 5) [11; 14] ∧
  local_reads (LeaseS (mkLease 5)) (on_fetch (LeaseS (mkLease 5)) 1%N 3 SHARED 10) [11; 15] = None.
Proof.
  split; [|done].
  apply (local_reads_bounded " Lease" 5 100 (LeaseS (mkLease 5)) 1%N 3 SHARED 10 [11; 14]
           (mkEntry 1%N SHARED 3 2 10 (Some 15) None None)); by vm_compute.
Defined.

(** ** Retry schedule *)

(** The backoff before a retry is 0 for the first one, then doubles up to a cap
    of 16: it is bounded, never negative and never shrinks. *)
Theorem cas_backoff_schedule (s : Strategy) attempt :
  0 <= cas_backoff_ticks s attempt <= 16 ∧
  (attempt <= 0 → cas_backoff_ticks s attempt = 0) ∧
  (1 <= attempt → cas_backoff_ticks s attempt = Z.min (2 ^ (attempt - 1)) 16) ∧
  cas_backoff_ticks s attempt <= cas_backoff_ticks s (attempt + 1).
Proof.
  assert (∀ x, cas_backoff_ticks s x = Base.cas_backoff_ticks x) as Hs by by destruct s.
  rewrite !Hs. unfold Base.cas_backoff_ticks.
  assert (∀ x, 0 <= x → Z.shiftl 1 x = 2 ^ x) as Hsh by (intros x Hx; rewrite Z.shiftl_mul_pow2; lia).
  split_and!.
  - case_decide; [lia|]. rewrite Hsh by lia. pose proof (Z.pow_pos_nonneg 2 (attempt - 1)). lia.
  - case_decide; lia.
  - intros. by rewrite decide_True.
  - intros. rewrite decide_False, Hsh by lia. done.
  - repeat case_decide; try lia; rewrite ?Hsh by lia.
    + replace (attempt + 1 - 1) with attempt by lia. pose proof (Z.pow_nonneg 2 attempt). lia.
    + pose proof (Z.pow_le_mono_r 2 (attempt - 1) (attempt + 1 - 1)). lia.
Qed.
