(* ===== verification/Runtime.v ===== *)
(** The agent side: the local cache of [src/ccs/agent/cache.py] and the protocol
    participant of [src/ccs/agent/runtime.py].

    [Node] is what one runtime works on: the coordinator's registry, shared with
    every other agent, and the agent's own cache, content map and audit counter.
    The strategy is any type with a [SyncStrategy] instance.  The audit callback may
    raise; like the registry's state log it is a function of the calls made so far. *)
From S2P Require Import Prelude Core Hashing Retention Registry Service Strategies.

Open Scope Z_scope.
Open Scope string_scope.

(** ** The cache *)
Module Cache.
Definition t : Type := list (UUID * ArtifactCacheEntry).

Definition invalidated (invalidated_version : option Z) (entry : ArtifactCacheEntry) : ArtifactCacheEntry :=
  let next_version := match invalidated_version with
                      | Some v => Z.min (ce_local_version entry) v
                      | None => ce_local_version entry
                      end in
  entry <| ce_state := INVALID |> <| ce_local_version := Z.max next_version 0 |>.

Definition invalidate (a : UUID) (invalidated_version : option Z) (issued_at_tick : Z) (c : t) : t :=
  match dget c a with
  | None => dset c a (mkEntry a INVALID (Z.max (default 0 invalidated_version) 0) 0 issued_at_tick None None None)
  | Some entry => dset c a (invalidated invalidated_version entry)
  end.

Definition invalidate_all (invalidated_version : option Z) (c : t) : t :=
  foldl (λ d (kv : UUID * ArtifactCacheEntry), dset d kv.1 (invalidated invalidated_version kv.2)) c c.

Definition has_valid (c : t) (a : UUID) : bool :=
  match dget c a with Some entry => negb (bool_decide (ce_state entry = INVALID)) | None => false end.
End Cache.

(** ** The node *)
Record AuditEntry := mkAudit {
  au_tick : Z;
  au_agent_id : UUID;
  au_agent_name : option string;
  au_artifact_id : UUID;
  au_version : option Z;
  au_content_hash : option string;
  au_source : string;
  au_outcome : string;
  au_sequence_number : Z;
  au_instance_id : option string;
}.

Record Node := mkNode {
  node_registry : Registry;
  cache : Cache.t;
  content_by_artifact : list (UUID * body);
  audit_seq : Z;
  audit_calls : list (AuditEntry * bool);
}.
#[export] Instance eta_Node : Settable Node :=
  rec_pure mkNode <*> node_registry <*> cache <*> content_by_artifact <*> audit_seq <*> audit_calls.

Definition NM (A : Type) : Type := proc exn Node A.

Definition on_coordinator {A} (m : RM A) : NM A := zoom node_registry (λ r n, n <| node_registry := r |>) m.

Section runtime.
Context {T : Type} `{SyncStrategy T}.
(** [self.agent_id], [self.strategy], the audit callback and the names it logs. *)
Context (me : UUID) (strategy : T).
Context (content_audit_log : option (list (AuditEntry * bool) → AuditEntry → bool)).
Context (agent_name instance_name : option string).

Definition cache_put (a : UUID) (entry : ArtifactCacheEntry) : NM unit :=
  modify (λ n, n <| cache ::= λ c, dset c a entry |>).

Definition emit_audit (a : UUID) (version : option Z) (h : option string) (source outcome_name : string)
    (now_tick : Z) : NM unit := λ n,
  match content_audit_log with
  | None => (Ok tt, n)
  | Some sink =>
    let entry := mkAudit now_tick me agent_name a version h source outcome_name (audit_seq n + 1) instance_name in
    let raises := sink (audit_calls n) entry in
    let n := n <| audit_calls ::= λ l, (l ++ [(entry, negb raises)])%list |> in
    if raises then (Raise CallbackError, n) else (Ok tt, n <| audit_seq ::= λ s, s + 1 |>)
  end.

(** [_record_content_view]; every caller passes a version and a body. *)
Definition record_content_view (a : UUID) (version : Z) (c : body) (source : string) (now_tick : Z)
    : NM (option string) :=
  when (negb (String.eqb source "cache_hit")) (modify (λ n, n <| content_by_artifact ::= λ d, dset d a c |>)) ;;
  if decide (version = 0) then
    emit_audit a None None source "empty" now_tick ;; mret None
  else
    h ← of_outcome (compute_content_hash c);
    emit_audit a (Some version) (Some h) source "content" now_tick ;; mret (Some h).

(** [_fetch]. *)
Definition fetch_through (a : UUID) (now_tick : Z) : NM FetchResponse :=
  response ← on_coordinator (fetch (mkFetchRequest a me now_tick));
  cache_put a (on_fetch strategy a (fr_version response) (fr_state_grant response) now_tick) ;;
  _ ← record_content_view a (fr_version response) (fr_content response) "fetch" now_tick;
  mret response.

Definition needs_fetch (n : Node) (a : UUID) (now_tick : Z) : bool :=
  match dget (cache n) a with
  | None => true
  | Some entry => requires_refresh strategy entry now_tick
  end.

Definition read (a : UUID) (now_tick : Z) : NM FetchResponse :=
  cached ← gets (λ n, dget (cache n) a);
  match cached with
  | None => fetch_through a now_tick
  | Some entry =>
    if requires_refresh strategy entry now_tick then fetch_through a now_tick
    else
      let touched := on_read strategy entry now_tick in
      cache_put a touched ;;
      cached_content ← gets (λ n, default (BStr "") (dget (content_by_artifact n) a));
      _ ← record_content_view a (ce_local_version touched) cached_content "cache_hit" now_tick;
      mret (mkFetchResponse a (ce_local_version touched) cached_content (ce_state touched))
  end.

(** [_resolve_content_hash], and the same guard at the top of [write]. *)
Definition resolve_content_hash (c : string) (provided : option string) : outcome exn string :=
  match compute_content_hash (BStr c) with
  | Raise e => Raise e
  | Ok computed =>
    match provided with
    | Some h => if String.eqb h computed then Ok computed else Raise (ValueError "content_hash mismatch")
    | None => Ok computed
    end
  end.

Definition refresh_if_needed (a : UUID) (now_tick : Z) : NM unit :=
  stale ← gets (λ n, needs_fetch n a now_tick);
  if stale : bool then _ ← fetch_through a now_tick; mret tt else mret tt.

Definition runtime_write (a : UUID) (c : string) (now_tick : Z) (content_hash : option string)
    (size_tokens : option Z) : NM (Artifact * list InvalidationSignal) :=
  (match content_hash with
   | Some _ => _ ← of_outcome (resolve_content_hash c content_hash); mret tt
   | None => mret tt
   end) ;;
  refresh_if_needed a now_tick ;;
  write_signals ← on_coordinator (write me a now_tick false);
  committed ← on_coordinator (commit me a c now_tick content_hash size_tokens false);
  let '(updated, commit_signals) := committed in
  cache_put a (on_fetch strategy a (art_version updated) MODIFIED now_tick) ;;
  _ ← record_content_view a (art_version updated) (BStr c) "write" now_tick;
  mret (updated, (write_signals ++ commit_signals)%list).

(** The optimistic write.  [make_content] is the caller's producer; it runs on the
    node, so other agents' calls between the read and the commit are part of it. *)
Section write_cas.
Context (a : UUID) (make_content : ArtifactCacheEntry → NM (string * option string)) (now_tick : Z).

Definition fresh_entry : NM ArtifactCacheEntry :=
  cached ← gets (λ n, dget (cache n) a);
  match cached with
  | Some entry => mret entry
  | None =>
    _ ← fetch_through a now_tick;
    cached ← gets (λ n, dget (cache n) a);
    match cached with
    | Some entry => mret entry
    | None => raise (AssertionError "entry is not None")
    end
  end.

(** One attempt: a win, or the current version of the conflict. *)
Definition cas_attempt : NM ((Artifact * list InvalidationSignal) + Z) :=
  entry ← fresh_entry;
  made ← make_content entry;
  let '(c, provided_hash) := made in
  content_hash ← of_outcome (resolve_content_hash c provided_hash);
  result ← on_coordinator (service_commit_cas me a (ce_local_version entry) content_hash now_tick None
             (Some (BStr c)) false);
  match result with
  | inr detail => _ ← fetch_through a now_tick; mret (inr (cd_current_version detail))
  | inl (updated, signals) =>
    cache_put a (on_fetch strategy a (art_version updated) SHARED now_tick) ;;
    _ ← record_content_view a (art_version updated) (BStr c) "write_cas" now_tick;
    mret (inl (updated, signals))
  end.

(** [for attempt in range(max_attempts)]: [left] attempts remain. *)
Fixpoint cas_loop (left : nat) (last_current_version : Z) : NM (Artifact * list InvalidationSignal) :=
  match left with
  | O => raise (CasRetriesExhausted a (max_cas_retries strategy + 1) last_current_version)
  | S left' =>
    result ← cas_attempt;
    match result with
    | inl win => mret win
    | inr current_version => cas_loop left' current_version
    end
  end.

Definition write_cas : NM (Artifact * list InvalidationSignal) :=
  refresh_if_needed a now_tick ;;
  cas_loop (Z.to_nat (max_cas_retries strategy + 1)) (-1).
End write_cas.

Definition invalidate_all_cache (invalidated_version : option Z) : NM unit :=
  modify (λ n, n <| cache ::= Cache.invalidate_all invalidated_version |>).

Definition handle_invalidation (signal : InvalidationSignal) : NM unit :=
  verdict ← on_coordinator (invalidate me (sig_artifact_id signal) (sig_new_version signal)
              (sig_issuer_agent_id signal) (sig_issued_at_tick signal) false);
  known ← gets (λ n, has_artifact (node_registry n) (sig_artifact_id signal));
  if (match verdict with None => true | Some _ => false end) && known then mret tt
  else modify (λ n, n <| cache ::= Cache.invalidate (sig_artifact_id signal)
                                     (Some (Z.max (sig_new_version signal - 1) 0)) (sig_issued_at_tick signal) |>).

(** [handle_update], one lock hold. *)
Definition handle_update (a : UUID) (version : Z) (c : string) (now_tick : Z) (writer_agent_id : option UUID)
    : NM unit :=
  artifact ← gets (λ n, get_artifact (node_registry n) a);
  match artifact with
  | None => mret tt
  | Some artifact =>
    state ← gets (λ n, get_agent_state (node_registry n) a me);
    if bool_decide (version < art_version artifact) || in_m_or_e state then
      on_coordinator (clear_agent_transient a me) ;;
      match writer_agent_id with
      | Some w => on_coordinator (clear_agent_transient a w)
      | None => mret tt
      end
    else
      cache_put a (on_fetch strategy a version SHARED now_tick) ;;
      _ ← record_content_view a version (BStr c) "broadcast" now_tick;
      on_coordinator (set_agent_state a me SHARED "update" now_tick None) ;;
      on_coordinator (clear_agent_transient a me) ;;
      match writer_agent_id with
      | Some w =>
        on_coordinator (set_agent_state a w SHARED "update" now_tick None) ;;
        on_coordinator (clear_agent_transient a w)
      | None => mret tt
      end
  end.

Definition runtime_content (n : Node) (a : UUID) : option body := dget (content_by_artifact n) a.
End runtime.
