(* ===== verification/Agents.v ===== *)
(** The agent runtime against the coordinator: an agent reads what it wrote, an
    optimistic write replaces exactly the version its content was made from, and a
    local copy follows the coordinator's verdict on an invalidation.  The theorems
    hold for any strategy that obeys [StrategyLaws]. *)
From S2P Require Import Prelude Core Hashing Retention Registry RegistryFacts CommitFacts Service.
From S2P Require Import ServiceFacts RevocationFacts Evolution Sessions SessionFacts Checkpoints System.
From S2P Require Import Safety Operations Strategies Runtime.

Open Scope Z_scope.
Open Scope string_scope.

Lemma on_coordinator_inv {A} (m : RM A) n o n' : on_coordinator m n = (o, n') →
  ∃ r', m (node_registry n) = (o, r') ∧ n' = n <| node_registry := r' |>.
Proof. unfold on_coordinator, zoom. destruct (m (node_registry n)) as [o' r']. intros [= <- <-]. eauto. Qed.

Section agent.
Context {T : Type} `{Hlaws : StrategyLaws T}.
Context (me : UUID) (strategy : T).
Context (audit : option (list (AuditEntry * bool) → AuditEntry → bool)).
Context (aname iname : option string).

(** The audit callback does not raise. *)
Definition audit_quiet : Prop := ∀ sink, audit = Some sink → ∀ calls e, sink calls e = false.

Local Abbreviation view := (record_content_view me audit aname iname).
Local Abbreviation fetch_thru := (fetch_through me strategy audit aname iname).
Local Abbreviation refresh := (refresh_if_needed me strategy audit aname iname).

Definition not_exhausted (e : exn) : Prop := ∀ x k v, e ≠ CasRetriesExhausted x k v.

(** ** Content views *)
Lemma emit_audit_frame a v h src out now n n' o : emit_audit me audit aname iname a v h src out now n = (o, n') →
  node_registry n' = node_registry n ∧ cache n' = cache n ∧ content_by_artifact n' = content_by_artifact n ∧
  (audit_quiet → o = Ok tt) ∧ (∀ e, o = Raise e → e = CallbackError).
Proof.
  unfold emit_audit, audit_quiet. destruct audit as [sink|]; [|by intros [= <- <-]].
  destruct (sink (audit_calls n) _) eqn:Es; intros [= <- <-]; split_and!; try done; [|by intros e [= <-]].
  intros Hq. by rewrite Hq in Es.
Qed.

Lemma view_frame a v c src now n n' o : view a v c src now n = (o, n') →
  node_registry n' = node_registry n ∧ cache n' = cache n ∧
  (content_by_artifact n' =
     if String.eqb src "cache_hit" then content_by_artifact n else dset (content_by_artifact n) a c) ∧
  (audit_quiet → ∀ s, c = BStr s → ∃ x, o = Ok x) ∧
  (∀ e, o = Raise e → not_exhausted e).
Proof.
  unfold record_content_view. intros Hrun. apply bind_inv in Hrun as [(u & n1 & Hw & Hrun)|(e & Hw & _)].
  2: { unfold when in Hw. by destruct (negb _). }
  assert (node_registry n1 = node_registry n ∧ cache n1 = cache n ∧
    content_by_artifact n1 =
      if String.eqb src "cache_hit" then content_by_artifact n else dset (content_by_artifact n) a c) as (R1 & C1 & D1).
  { unfold when, modify in Hw. destruct (String.eqb src "cache_hit"); simpl in Hw; by injection Hw as <- <-. }
  rewrite <-R1, <-C1, <-D1. clear R1 C1 D1 Hw.
  case_decide.
  - apply bind_inv in Hrun as [(u' & n2 & Hem & [= <- <-])|(e & Hem & ->)];
      apply emit_audit_frame in Hem as (-> & -> & -> & Hq & He); (split_and!; try done); [by eauto|..].
    + intros Hqu. by specialize (Hq Hqu).
    + intros e' [= <-]. by rewrite (He e eq_refl).
  - apply bind_inv in Hrun as [(h & n2 & Hh & Hrun)|(e & Hh & ->)]; unfold of_outcome in Hh.
    2: { injection Hh as Hh <-. split_and!; [done..| |].
         - by intros _ s ->.
         - intros e' [= <-]. unfold compute_content_hash in Hh. by destruct c; simplify_eq. }
    injection Hh as Hh <-. apply bind_inv in Hrun as [(u' & n3 & Hem & [= <- <-])|(e & Hem & ->)];
      apply emit_audit_frame in Hem as (-> & -> & -> & Hq & He); (split_and!; try done); [by eauto|..].
    + intros Hqu. by specialize (Hq Hqu).
    + intros e' [= <-]. by rewrite (He e eq_refl).
Qed.

(** ** Fetches *)
Lemma fetch_through_ok a now n : reg_ok (node_registry n) → reg_ok (node_registry (fetch_thru a now n).2).
Proof.
  intros Hok. unfold fetch_through, mbind at 1, proc_bind at 1.
  destruct (on_coordinator _ n) as [[resp|e] n1] eqn:Ef; apply on_coordinator_inv in Ef as (r1 & Hf & ->).
  all: pose proof (fetch_steps (mkFetchRequest a me now) _ Hok) as Hg; rewrite Hf in Hg; simpl in Hg.
  - unfold mbind at 1, proc_bind at 1. simpl. unfold mbind, proc_bind.
    destruct (view _ _ _ _ _ _) as [[h|e] n2] eqn:Ev; apply view_frame in Ev as (Hr & _); simpl; rewrite Hr; simpl;
      by apply Hg.
  - simpl. by apply Hg.
Qed.

Lemma refresh_ok a now n o n' : reg_ok (node_registry n) → refresh a now n = (o, n') → reg_ok (node_registry n').
Proof.
  intros Hok. unfold refresh_if_needed, mbind, proc_bind. unfold gets. destruct (needs_fetch strategy n a now).
  - pose proof (fetch_through_ok a now n Hok) as Hf. destruct (fetch_thru a now n) as [[x|e] n1];
      intros [= <- <-]; exact Hf.
  - by intros [= <- <-].
Qed.

Lemma get_agent_state_st r a rec p s : get_record r a = Some rec → st rec p = s → s ≠ INVALID →
  get_agent_state r a p = Some s.
Proof.
  unfold get_agent_state, st. intros -> Hs Hne. simpl. destruct (dget (state_by_agent rec) p); simpl in Hs; congruence.
Qed.

Lemma put_content n f : content_by_artifact (n <| cache ::= f |>) = content_by_artifact n.
Proof. done. Qed.

(** ** Pessimistic writes *)
Lemma runtime_write_inv a c now h sz n u sg n' : reg_ok (node_registry n) →
  runtime_write me strategy audit aname iname a c now h sz n = (Ok (u, sg), n') →
  ∃ rec, get_record (node_registry n') a = Some rec ∧ artifact rec = u ∧ content rec = BStr c ∧
    st rec me = MODIFIED ∧
    dget (cache n') a = Some (on_fetch strategy a (art_version u) MODIFIED now) ∧
    dget (content_by_artifact n') a = Some (BStr c).
Proof.
  intros Hok Hrun. unfold runtime_write in Hrun.
  apply bind_inv in Hrun as [(u0 & n0 & E0 & Hrun)|(? & _ & ?)]; [|done].
  assert (n0 = n) as ->.
  { destruct h as [h|]; [|by injection E0]. unfold mbind, proc_bind, of_outcome in E0.
    destruct (resolve_content_hash c (Some h)); [|done]. by injection E0. }
  apply bind_inv in Hrun as [(u1 & n1 & E1 & Hrun)|(? & _ & ?)]; [|done]. apply refresh_ok in E1; [|done].
  apply bind_inv in Hrun as [(ws & n2 & E2 & Hrun)|(? & _ & ?)]; [|done].
  apply on_coordinator_inv in E2 as (r2 & E2 & ->).
  pose proof (gd_ok _ _ _ (write_steps me a now false _ E1)) as E3. rewrite E2 in E3. specialize (E3 E1). simpl in E3.
  apply bind_inv in Hrun as [([u' sg'] & n3 & E4 & Hrun)|(? & _ & ?)]; [|done].
  apply on_coordinator_inv in E4 as (r3 & E4 & ->). cbn [node_registry set_field] in E4.
  change (commit me a c now h sz false r2 = (Ok (u', sg'), r3)) in E4.
  destruct (commit_ok_inv _ _ _ _ _ _ _ _ _ _ _ E3 E4) as (rec & t & Hr & Hme & -> & -> & Hat).
  destruct (commit_rec_facts r2 t me now rec c h sz (reg_rec _ E3 _ _ Hr) Hme) as (Fa & _ & Fc & _ & Fs & _).
  apply bind_inv in Hrun as [(u4 & n4 & [= <- <-] & Hrun)|(? & _ & ?)]; [|done].
  apply bind_inv in Hrun as [(v & n5 & E5 & Hrun)|(? & _ & ?)]; [|done].
  injection Hrun as <- _ <-. apply view_frame in E5 as (-> & -> & -> & _). simpl.
  eexists. split_and!; [exact (ar_rec _ _ _ _ Hat)|done..| |]; apply dget_dset_eq.
Qed.

(** C27 (read your writes): after a write returns, the coordinator has its version
    and body with the writer as MODIFIED holder, and a read by the same agent at the
    same tick returns that version and body from the cache, without a call to the
    coordinator.  The audit callback does not raise and the strategy has the values its
    constructor accepts. *)
Theorem read_your_writes a c now h sz n u sg n' : reg_ok (node_registry n) → audit_quiet → strategy_ok strategy →
  runtime_write me strategy audit aname iname a c now h sz n = (Ok (u, sg), n') →
  get_artifact (node_registry n') a = Some u ∧ get_content (node_registry n') a = Some (BStr c) ∧
  get_agent_state (node_registry n') a me = Some MODIFIED ∧
  ∃ n2, read me strategy audit aname iname a now n' =
      (Ok (mkFetchResponse a (art_version u) (BStr c) MODIFIED), n2) ∧
    node_registry n2 = node_registry n'.
Proof.
  intros Hok Hq Hst Hrun.
  destruct (runtime_write_inv _ _ _ _ _ _ _ _ _ Hok Hrun) as (rec & Hr & Ha & Hc & Hme & Hcache & Hbody).
  split_and!.
  - unfold get_artifact. rewrite Hr. simpl. by rewrite Ha.
  - unfold get_content. rewrite Hr. simpl. by rewrite Hc.
  - by eapply get_agent_state_st.
  - unfold read, mbind at 1, proc_bind at 1. unfold gets at 1. rewrite Hcache.
    rewrite law_fresh by done. unfold mbind at 1, proc_bind at 1, cache_put, modify.
    unfold mbind at 1, proc_bind at 1. unfold gets at 1. rewrite put_content, Hbody.
    destruct (law_read strategy (on_fetch strategy a (art_version u) MODIFIED now) now) as (_ & Ls & Lv & _).
    destruct (law_fetch strategy a (art_version u) MODIFIED now) as (_ & Fs & Fv & _).
    rewrite Lv, Ls, Fs, Fv. unfold mbind, proc_bind.
    match goal with |- context [record_content_view ?m ?au ?an ?i ?x ?v ?b ?s ?t ?node] =>
      destruct (record_content_view m au an i x v b s t node) as [o n2] eqn:Ev end.
    apply view_frame in Ev as (Hreg & _ & _ & Hok2 & _). destruct (Hok2 Hq c eq_refl) as [x ->]. by exists n2.
Qed.

(** ** Fetches that return, and the exceptions of the calls *)
Lemma fetch_inv a now r o r' : reg_ok r → fetch (mkFetchRequest a me now) r = (o, r') →
  match o with
  | Ok resp => ∃ rec rec', get_record r a = Some rec ∧ get_record r' a = Some rec' ∧ fr_version resp = version rec ∧
                 artifact rec' = artifact rec
  | Raise e => e = CallbackError ∨ e = CoherenceError "artifact_not_found"
  end.
Proof.
  intros Hok Hrun. destruct (get_record r a) as [rec|] eqn:Er.
  2: { unfold fetch, mbind, proc_bind, require_artifact in Hrun. simpl in Hrun.
       rewrite (get_artifact_None _ _ Er) in Hrun. injection Hrun as <- <-. by right. }
  pose proof (triple_fetch a r rec me now (reg_rec _ Hok _ _ Er) (reg_id _ Hok _ _ Er) r (at_rec_refl _ _ _ Er)) as Ht.
  rewrite Hrun in Ht. destruct o as [resp|e].
  - destruct Ht as [-> Hat]. exists rec, (fetch_rec me now rec). split_and!; [done|apply Hat|done|].
    by apply fetch_rec_artifact, (reg_rec _ Hok _ _ Er).
  - destruct Ht as [-> _]. by left.
Qed.

Lemma cas_exn a v h now sz c abort r e r' : reg_ok r →
  service_commit_cas me a v h now sz c abort r = (Raise e, r') → not_exhausted e.
Proof.
  intros Hok. unfold service_commit_cas, abort_guard. destruct abort; [by intros [= <- _]|]. intros Hrun.
  destruct (get_record r a) as [rec|] eqn:Er.
  2: { unfold commit_cas_impl, mbind, proc_bind, require_artifact in Hrun.
       rewrite (get_artifact_None _ _ Er) in Hrun. by injection Hrun as <- _. }
  destruct (dget (transient_by_agent rec) me) eqn:Et.
  { erewrite (cas_refused_transient a r rec) in Hrun by done. by injection Hrun as <- _. }
  destruct (m_or_e (st rec me)) eqn:Em; [rewrite (cas_refused_holder a r rec) in Hrun by done; by injection Hrun as <- _|].
  pose proof (triple_service_cas a r rec me v h now sz c (reg_rec _ Hok _ _ Er) (reg_id _ Hok _ _ Er) Em Et
    r (at_rec_refl _ _ _ Er)) as Ht. rewrite Hrun in Ht. destruct Ht as [_ [[-> _]|[-> _]]]; done.
Qed.

(** A fetch through the cache leaves the cache at the coordinator's version. *)
Lemma fetch_through_inv a now n o n' : reg_ok (node_registry n) → fetch_thru a now n = (o, n') →
  reg_ok (node_registry n') ∧
  match o with
  | Ok _ => ∃ rec e, get_record (node_registry n') a = Some rec ∧ dget (cache n') a = Some e ∧
              ce_local_version e = version rec
  | Raise e => not_exhausted e
  end.
Proof.
  intros Hok Hrun. pose proof (fetch_through_ok a now n Hok) as Hok'. rewrite Hrun in Hok'. split; [done|].
  unfold fetch_through in Hrun. apply bind_inv in Hrun as [(resp & n1 & Ef & Hrun)|(e & Ef & ->)].
  2: { apply on_coordinator_inv in Ef as (r1 & Ef & _). by destruct (fetch_inv _ _ _ _ _ Hok Ef) as [-> | ->]. }
  apply on_coordinator_inv in Ef as (r1 & Ef & ->).
  destruct (fetch_inv _ _ _ _ _ Hok Ef) as (rec & rec' & Hr & Hr' & Hv & Ha).
  apply bind_inv in Hrun as [(u & n2 & [= <- <-] & Hrun)|(e & [=] & _)].
  apply bind_inv in Hrun as [(h & n3 & Ev & [= <- <-])|(e & Ev & ->)].
  - apply view_frame in Ev as (-> & -> & _). simpl. exists rec'. eexists. split_and!; [done|apply dget_dset_eq|].
    destruct (law_fetch strategy a (fr_version resp) (fr_state_grant resp) now) as (_ & _ & -> & _).
    rewrite Hv. unfold version. by rewrite Ha.
  - apply view_frame in Ev as (_ & _ & _ & _ & He). by apply He.
Qed.

(** ** Optimistic writes *)
Section cas.
Context (a : UUID) (make : ArtifactCacheEntry → NM (string * option string)) (now : Z).

(** The producer, and whatever other agents do while it runs, keeps the registry
    well formed; it does not raise the terminal exception of the retry loop. *)
Context (Hmake : ∀ e n, reg_ok (node_registry n) → reg_ok (node_registry (make e n).2)).
Context (Hraise : ∀ e n x n', reg_ok (node_registry n) → make e n = (Raise x, n') → not_exhausted x).

Local Abbreviation attempt := (cas_attempt me strategy audit aname iname a make now).

(** A body made from [entry] replaced exactly the version of [entry]. *)
Definition replaced (u : Artifact) (n' : Node) : Prop :=
  ∃ entry n1 c h n2, make entry n1 = (Ok (c, h), n2) ∧
    art_version <$> get_artifact (node_registry n2) a = Some (ce_local_version entry) ∧
    art_version u = ce_local_version entry + 1 ∧
    get_artifact (node_registry n') a = Some u ∧ get_content (node_registry n') a = Some (BStr c) ∧
    get_agent_state (node_registry n') a me = Some SHARED ∧
    dget (cache n') a = Some (on_fetch strategy a (art_version u) SHARED now).

(** The cache is at the coordinator's version. *)
Definition refreshed (n : Node) : Prop :=
  ∃ e, dget (cache n) a = Some e ∧ art_version <$> get_artifact (node_registry n) a = Some (ce_local_version e).

(** One attempt that lost: its producer made a body from the entry in the cache, and
    the coordinator, at version [v] by then, refused it: the version had moved, a peer
    held a write grant, or the writer's read was superseded.  The attempt left the
    cache at the coordinator's version. *)
Definition lost (v : Z) (n n' : Node) : Prop :=
  attempt n = (Ok (inr v), n') ∧ refreshed n' ∧
  ∃ entry n1 c h n2 rec, fresh_entry me strategy audit aname iname a now n = (Ok entry, n1) ∧
    make entry n1 = (Ok (c, h), n2) ∧ get_record (node_registry n2) a = Some rec ∧ version rec = v ∧
    (ce_local_version entry < v ∨ (∃ q, q ≠ me ∧ m_or_e (st rec q) = true) ∨ fence_superseded rec me = true).

(** Attempts that lost one after the other, with the version each met. *)
Inductive lost_run : list Z → Node → Node → Prop :=
  | lost_none n : lost_run [] n n
  | lost_then v vs n n1 n2 : lost v n n1 → lost_run vs n1 n2 → lost_run (v :: vs) n n2.

Lemma fresh_entry_inv n o n' : reg_ok (node_registry n) →
  fresh_entry me strategy audit aname iname a now n = (o, n') →
  reg_ok (node_registry n') ∧ (∀ e, o = Raise e → not_exhausted e).
Proof.
  intros Hok. unfold fresh_entry. intros Hrun.
  apply bind_inv in Hrun as [(cached & n1 & [= <- <-] & Hrun)|(e & [=] & _)].
  destruct (dget (cache n) a); [by injection Hrun as <- <-|].
  apply bind_inv in Hrun as [(x & n2 & Ef & Hrun)|(e & Ef & ->)]; apply fetch_through_inv in Ef as [Hok' Hp]; try done.
  - apply bind_inv in Hrun as [(cached & n3 & [= <- <-] & Hrun)|(e & [=] & _)].
    destruct (dget (cache n2) a); injection Hrun as <- <-; (split; [done|]); [done|by intros e [= <-]].
  - split; [done|]. by intros ? [= <-].
Qed.

Lemma cas_attempt_inv n o n' : reg_ok (node_registry n) → attempt n = (o, n') →
  match o with
  | Ok (inl (u, _)) => replaced u n'
  | Ok (inr v) => reg_ok (node_registry n') ∧ lost v n n'
  | Raise e => not_exhausted e
  end.
Proof using Hlaws Hmake Hraise.
  intros Hok Hat. pose proof Hat as Hrun. unfold cas_attempt in Hrun.
  apply bind_inv in Hrun as [(entry & n1 & E1 & Hrun)|(e & E1 & ->)];
    pose proof (fresh_entry_inv _ _ _ Hok E1) as [Hok1 He1]; [|by apply He1].
  apply bind_inv in Hrun as [([c h] & n2 & E2 & Hrun)|(e & E2 & ->)]; [|by eapply Hraise, E2].
  pose proof (Hmake entry n1 Hok1) as Hok2. rewrite E2 in Hok2. simpl in Hok2.
  apply bind_inv in Hrun as [(hash & n3 & E3 & Hrun)|(e & E3 & ->)]; unfold of_outcome in E3; injection E3 as E3 <-.
  2: { unfold resolve_content_hash, compute_content_hash in E3. repeat case_match; by simplify_eq. }
  apply bind_inv in Hrun as [([[u sg]|d] & n4 & E4 & Hrun)|(e & E4 & ->)];
    apply on_coordinator_inv in E4 as (r4 & E4 & ->).
  3: by eapply cas_exn.
  - destruct (cas_win_inv _ _ _ _ _ _ _ _ _ _ _ Hok2 E4) as (rec & Hr & Harb & _ & _ & [= -> ->] & t & Hnow).
    pose proof (rok_states _ (rok_core _ (reg_rec _ Hok2 _ _ Hr))) as Hwf.
    pose proof (cas_arbitrate_spec rec me (ce_local_version entry) Hwf) as Hspec. rewrite Harb in Hspec.
    destruct Hspec as (Hv & Hother & _).
    apply bind_inv in Hrun as [(x & n5 & [= <- <-] & Hrun)|(e & [=] & _)].
    apply bind_inv in Hrun as [(x5 & n6 & E6 & Hrun)|(e & E6 & ->)]; apply view_frame in E6 as (Fr & Fc & _ & _ & Fe);
      [|by apply Fe]. injection Hrun as <- <-.
    change (node_registry n6 = r4) in Fr. exists entry, n1, c, h, n2. rewrite Fr, Fc. destruct (get_of_record _ _ _ (ar_rec _ _ _ _ Hnow)) as [-> ->].
    rewrite cas_final_artifact, cas_final_content by done. destruct (get_of_record _ _ _ Hr) as [-> _].
    unfold version in Hv. split_and!; [done|simpl; by f_equal|simpl; by rewrite Hv|done|done| |].
    + eapply get_agent_state_st; [exact (ar_rec _ _ _ _ Hnow)| |done]. rewrite cas_final_st by done. by rewrite decide_True.
    + apply dget_dset_eq.
  - pose proof (gd_ok _ _ _ (commit_cas_steps me a (ce_local_version entry) hash now None (Some (BStr c)) false _ Hok2)) as Hok4.
    rewrite E4 in Hok4. destruct (cas_lost_inv _ _ _ _ _ _ _ _ _ _ Hok2 E4) as (rec & Hr & Hv & Hwhy).
    apply bind_inv in Hrun as [(x & n5 & E5 & Hrun)|(e & E5 & ->)]; apply fetch_through_inv in E5 as [Hok5 Hp];
      [|by apply Hok4|done|by apply Hok4].
    injection Hrun as <- <-. split; [done|]. split_and!; [done| |by exists entry, n1, c, h, n2, rec].
    destruct Hp as (rec' & e & Hr' & Hc & Hv'). exists e. split; [done|].
    rewrite get_artifact_version. unfold current_version. rewrite Hr'. simpl. by f_equal.
Qed.

Lemma cas_loop_inv left seen n o n' : reg_ok (node_registry n) →
  cas_loop me strategy audit aname iname a make now left seen n = (o, n') →
  match o with
  | Ok (u, _) => replaced u n'
  | Raise e => not_exhausted e ∨
      ∃ vs, e = CasRetriesExhausted a (max_cas_retries strategy + 1) (default seen (last vs)) ∧
            length vs = left ∧ lost_run vs n n' ∧ (left ≠ 0%nat → refreshed n')
  end.
Proof using Hlaws Hmake Hraise.
  revert seen n. induction left as [|left IH]; intros seen n Hok Hrun; cbn [cas_loop] in Hrun.
  { injection Hrun as <- <-. right. exists []. by split_and!; [..|constructor|]. }
  apply bind_inv in Hrun as [([win|cur] & n1 & E1 & Hrun)|(e & E1 & ->)];
    pose proof (cas_attempt_inv _ _ _ Hok E1) as Hinv.
  - destruct win as [u sg]. by injection Hrun as <- <-.
  - destruct Hinv as [Hok1 Hlost]. specialize (IH _ _ Hok1 Hrun). destruct o as [[u sg]|e]; [done|].
    destruct IH as [?|(vs & -> & Hlen & Hvs & Hv)]; [by left|]. right. exists (cur :: vs).
    split_and!; [by rewrite last_cons; destruct (last vs)|by simpl; rewrite Hlen|by econstructor|]. intros _.
    destruct left as [|left]; [|by apply Hv]. destruct vs; [|done]. inversion Hvs; subst. apply Hlost.
  - by left.
Qed.

(** C28 (an optimistic write replaces what it read): a [write_cas] that returns
    published, in one step, a body its producer made from a cache entry at version [v]
    while [v] was the coordinator's current version, as version [v + 1]; the writer
    ends as a SHARED holder on both sides.  What other agents did before or during the
    producer's run is arbitrary, as long as the registry stays well formed; the producer
    does not raise the terminal exception of the retry loop. *)
Theorem write_cas_replaces_what_it_read n u sg n' : reg_ok (node_registry n) →
  write_cas me strategy audit aname iname a make now n = (Ok (u, sg), n') →
  ∃ entry n1 c h n2, make entry n1 = (Ok (c, h), n2) ∧
    art_version <$> get_artifact (node_registry n2) a = Some (ce_local_version entry) ∧
    art_version u = ce_local_version entry + 1 ∧
    get_artifact (node_registry n') a = Some u ∧ get_content (node_registry n') a = Some (BStr c) ∧
    get_agent_state (node_registry n') a me = Some SHARED ∧
    dget (cache n') a = Some (on_fetch strategy a (art_version u) SHARED now).
Proof using Hlaws Hmake Hraise.
  intros Hok Hrun. unfold write_cas in Hrun.
  apply bind_inv in Hrun as [(x & n1 & E1 & Hrun)|(e & _ & [=])]. apply refresh_ok in E1; [|done].
  by apply cas_loop_inv in Hrun.
Qed.

(** C34 (bounded retries): a [write_cas] that ends in [CasRetriesExhausted] refreshed
    the cache if it had to and then made exactly [max_cas_retries + 1] attempts, one
    after the other, each of which ran the producer once and lost to the coordinator:
    the version had moved past the entry it was made from, a peer held a write grant,
    or the writer's read was superseded.  The exception names this artifact, that
    number of attempts and the version the last one met; and the cache ends at the
    coordinator's current version, so no unconfirmed write is cached.  The producer, and
    what others do while it runs, leaves the registry well formed, and it does not raise
    this exception itself. *)
Theorem write_cas_exhausted n x k v n' : reg_ok (node_registry n) →
  write_cas me strategy audit aname iname a make now n = (Raise (CasRetriesExhausted x k v), n') →
  x = a ∧ k = max_cas_retries strategy + 1 ∧
  (∃ n0 vs, refresh_if_needed me strategy audit aname iname a now n = (Ok tt, n0) ∧
     lost_run vs n0 n' ∧ Z.of_nat (length vs) = k ∧ last vs = Some v) ∧
  ∃ e, dget (cache n') a = Some e ∧
       art_version <$> get_artifact (node_registry n') a = Some (ce_local_version e).
Proof using Hlaws Hmake Hraise.
  intros Hok Hrun. unfold write_cas in Hrun.
  apply bind_inv in Hrun as [(y & n1 & E1 & Hrun)|(e & E1 & [= <-])].
  - pose proof (refresh_ok _ _ _ _ _ Hok E1) as Hok1. pose proof (law_retries strategy) as Hk. destruct y.
    destruct (cas_loop_inv _ _ _ _ _ Hok1 Hrun) as [He|(vs & [= -> -> ->] & Hlen & Hvs & Href)]; [by destruct (He x k v)|].
    split_and!; [done..| |apply Href; lia]. exists n1, vs. split_and!; [done..|lia|].
    destruct (last vs) eqn:E; [done|]. apply last_None in E as ->. simpl in Hlen. lia.
  - exfalso. unfold refresh_if_needed in E1. apply bind_inv in E1 as [(b & n1 & [= <- <-] & E1)|(e & [=] & _)].
    destruct (needs_fetch strategy n a now); [|done]. apply bind_inv in E1 as [(r & n2 & _ & [=])|(e & E1 & [= <-])].
    apply fetch_through_inv in E1 as [_ He]; [|done]. by destruct (He x k v).
Qed.
End cas.
End agent.

(** ** Examples *)
Definition demo_node (r : Registry) : Node := mkNode r [] [] 0 [].

Lemma no_audit_quiet : audit_quiet None.
Proof. by intros sink [=]. Qed.

Lemma read_your_writes_witness : ∃ u n',
  runtime_write 7 mkLazy None None None 1 "v2" 3 None None (demo_node (registry Demo.s1)) = (Ok (u, []), n') ∧
  get_artifact (node_registry n') 1 = Some u ∧ get_content (node_registry n') 1 = Some (BStr "v2") ∧
  get_agent_state (node_registry n') 1 7 = Some MODIFIED ∧
  ∃ n2, read 7 mkLazy None None None 1 3 n' = (Ok (mkFetchResponse 1 (art_version u) (BStr "v2") MODIFIED), n2) ∧
    node_registry n2 = node_registry n'.
Proof.
  assert (∃ u n', runtime_write 7 mkLazy None None None 1 "v2" 3 None None (demo_node (registry Demo.s1)) =
    (Ok (u, []), n')) as (u & n' & Heq) by (eexists _, _; vm_compute; reflexivity).
  exists u, n'. split; [exact Heq|].
  apply (read_your_writes 7 mkLazy None None None 1 "v2" 3 None None (demo_node (registry Demo.s1)) u [] n').
  - apply (sy_reg _ Demo.s1_ok).
  - apply no_audit_quiet.
  - done.
  - exact Heq.
Defined.

(** A producer with no side effect. *)
Definition make_v2 : ArtifactCacheEntry → NM (string * option string) := λ _, mret ("v2", None).

(** Agent 9 writes optimistically while agent 7 holds a copy. *)
Lemma write_cas_replaces_what_it_read_witness : ∃ u sg n',
  write_cas 9 mkLazy None None None 1 make_v2 5 (demo_node (registry Demo.held)) = (Ok (u, sg), n') ∧
  ∃ entry n1 c h n2, make_v2 entry n1 = (Ok (c, h), n2) ∧
    art_version <$> get_artifact (node_registry n2) 1 = Some (ce_local_version entry) ∧
    art_version u = ce_local_version entry + 1 ∧
    get_artifact (node_registry n') 1 = Some u ∧ get_content (node_registry n') 1 = Some (BStr c) ∧
    get_agent_state (node_registry n') 1 9 = Some SHARED ∧
    dget (cache n') 1%N = Some (on_fetch mkLazy 1%N (art_version u) SHARED 5).
Proof.
  assert (∃ u sg n', write_cas 9 mkLazy None None None 1 make_v2 5 (demo_node (registry Demo.held)) =
    (Ok (u, sg), n')) as (u & sg & n' & Heq) by (eexists _, _, _; vm_compute; reflexivity).
  exists u, sg, n'. split; [exact Heq|].
  apply (write_cas_replaces_what_it_read 9 mkLazy None None None 1 make_v2 5) with (n := demo_node (registry Demo.held)) (sg := sg).
  - done.
  - by intros e n x n2 _ [=].
  - apply (sy_reg _ (reachable_ok _ Demo.held_reachable)).
  - exact Heq.
Defined.

(** A producer during which agent 8 commits first, every time. *)
Definition make_raced : ArtifactCacheEntry → NM (string * option string) := λ e,
  _ ← on_coordinator (service_commit_cas 8 1 (ce_local_version e) "x" 5 None (Some (BStr "x")) false);
  mret ("v2", None).

Lemma write_cas_exhausted_witness : ∃ n',
  write_cas 9 mkLazy None None None 1 make_raced 5 (demo_node (registry Demo.held)) =
    (Raise (CasRetriesExhausted 1 4 5), n') ∧
  1%N = 1%N ∧ 4 = max_cas_retries mkLazy + 1 ∧
  (∃ n0 vs, refresh_if_needed 9 mkLazy None None None 1 5 (demo_node (registry Demo.held)) = (Ok tt, n0) ∧
     lost_run 9 mkLazy None None None 1 make_raced 5 vs n0 n' ∧ Z.of_nat (length vs) = 4 ∧ last vs = Some 5) ∧
  ∃ e, dget (cache n') 1%N = Some e ∧
       art_version <$> get_artifact (node_registry n') 1 = Some (ce_local_version e).
Proof.
  assert (∃ n', write_cas 9 mkLazy None None None 1 make_raced 5 (demo_node (registry Demo.held)) =
    (Raise (CasRetriesExhausted 1 4 5), n')) as (n' & Heq) by (eexists _; vm_compute; reflexivity).
  exists n'. split; [exact Heq|].
  apply (write_cas_exhausted 9 mkLazy None None None 1 make_raced 5) with (n := demo_node (registry Demo.held)) (v := 5).
  - intros e n Hok. unfold make_raced, mbind, proc_bind, on_coordinator, zoom.
    pose proof (commit_cas_steps 8 1 (ce_local_version e) "x" 5 None (Some (BStr "x")) false (node_registry n) Hok) as Hg.
    destruct (service_commit_cas _ _ _ _ _ _ _ _ (node_registry n)) as [[?|?] r']; simpl; by apply Hg.
  - intros e n x n2 Hok Hrun. unfold make_raced in Hrun.
    apply bind_inv in Hrun as [(y & n3 & _ & [=])|(x' & Hc & [= ->])].
    apply on_coordinator_inv in Hc as (r' & Hc & _). by eapply cas_exn.
  - apply (sy_reg _ (reachable_ok _ Demo.held_reachable)).
  - exact Heq.
Defined.

(** ** Invalidations *)

(** The cache follows the coordinator: after an invalidation signal is handled,
    either the coordinator declined it for a known artifact and both the registry and
    the local cache are as before, or the local copy is INVALID, at a version before
    the announced one, and the coordinator has no valid copy of the agent either. *)
Theorem handle_invalidation_follows me signal n n' : reg_ok (node_registry n) →
  handle_invalidation me signal n = (Ok tt, n') →
  let a := sig_artifact_id signal in
  (n' = n ∧ revoke_is_superseded (node_registry n) me a (sig_new_version signal) (sig_issuer_agent_id signal) = true) ∨
  (Cache.has_valid (cache n') a = false ∧
   (∃ e, dget (cache n') a = Some e ∧ ce_local_version e <= Z.max (sig_new_version signal - 1) 0) ∧
   default INVALID (get_agent_state (node_registry n') a me) = INVALID).
Proof.
  intros Hok Hrun a. unfold handle_invalidation in Hrun. fold a in Hrun.
  apply bind_inv in Hrun as [(verdict & n1 & Ei & Hrun)|(e & _ & [=])]. apply on_coordinator_inv in Ei as (r1 & Ei & ->).
  apply bind_inv in Hrun as [(known & n2 & [= <- <-] & Hrun)|(e & [=] & _)].
  assert (∀ c v t, Cache.has_valid (Cache.invalidate a (Some (Z.max v 0)) t c) a = false ∧
    ∃ e, dget (Cache.invalidate a (Some (Z.max v 0)) t c) a = Some e ∧ ce_local_version e <= Z.max v 0) as Hcache.
  { intros c v t. unfold Cache.has_valid, Cache.invalidate. destruct (dget c a); rewrite dget_dset_eq;
      (split; [done|]); eexists; (split; [done|]); simpl; lia. }
  change (invalidate_impl me a (sig_new_version signal) (sig_issuer_agent_id signal) (sig_issued_at_tick signal)
    (node_registry n) = (Ok verdict, r1)) in Ei.
  destruct (get_record (node_registry n) a) as [rec|] eqn:Er.
  - assert (has_artifact (node_registry n) a = true) as Hknown by (apply dmem_true; by exists rec).
    destruct (revoke_is_superseded (node_registry n) me a (sig_new_version signal) (sig_issuer_agent_id signal)) eqn:Es.
    + left. split; [|done]. unfold invalidate_impl, mbind, proc_bind in Ei. unfold gets in Ei.
      rewrite Hknown in Ei. cbn [negb] in Ei. rewrite Es in Ei. injection Ei as <- <-.
      change (node_registry (n <| node_registry := node_registry n |>)) with (node_registry n) in Hrun.
      rewrite Hknown in Hrun. injection Hrun as <-. by destruct n.
    + right. pose proof (triple_invalidate a (node_registry n) rec me (sig_new_version signal)
        (sig_issuer_agent_id signal) (sig_issued_at_tick signal) (reg_rec _ Hok _ _ Er) (reg_id _ Hok _ _ Er)
        _ (at_rec_refl _ _ _ Er)) as Ht.
      rewrite Ei in Ht. rewrite <-(at_superseded a (node_registry n) rec (node_registry n)) in Ht by by apply at_rec_refl.
      rewrite Es in Ht. destruct Ht as [-> Hat]. injection Hrun as <-.
      destruct (Hcache (cache n) (sig_new_version signal - 1) (sig_issued_at_tick signal)) as [Hv He].
      split_and!; [exact Hv|exact He|]. simpl. unfold get_agent_state. rewrite (ar_rec _ _ _ _ Hat). simpl.
      fold (st (apply_transition me INVALID "invalidate" (sig_issued_at_tick signal) rec) me).
      rewrite st_transition. by rewrite decide_True.
  - right. assert (has_artifact (node_registry n) a = false) as Hunknown.
    { unfold has_artifact, dmem. unfold get_record in Er. by rewrite Er. }
    unfold invalidate_impl, mbind, proc_bind in Ei. unfold gets in Ei. rewrite Hunknown in Ei.
    injection Ei as <- <-. change (node_registry (n <| node_registry := node_registry n |>)) with (node_registry n) in Hrun.
    rewrite Hunknown in Hrun. injection Hrun as <-.
    destruct (Hcache (cache n) (sig_new_version signal - 1) (sig_issued_at_tick signal)) as [Hv He].
    split_and!; [exact Hv|exact He|]. unfold get_agent_state. simpl. by rewrite Er.
Qed.

(** Agent 7's grant is revoked for version 2: its copy goes on both sides. *)
Lemma handle_invalidation_follows_witness : ∃ n',
  handle_invalidation 7 (mkSignal 1 2 9 8) (demo_node (registry Demo.held)) = (Ok tt, n') ∧
  ((n' = demo_node (registry Demo.held) ∧
    revoke_is_superseded (node_registry (demo_node (registry Demo.held))) 7 1 2 8 = true) ∨
   (Cache.has_valid (cache n') 1 = false ∧
    (∃ e, dget (cache n') 1%N = Some e ∧ ce_local_version e <= Z.max (2 - 1) 0) ∧
    default INVALID (get_agent_state (node_registry n') 1 7) = INVALID)).
Proof.
  assert (∃ n', handle_invalidation 7 (mkSignal 1 2 9 8) (demo_node (registry Demo.held)) = (Ok tt, n'))
    as (n' & Heq) by (eexists _; vm_compute; reflexivity).
  exists n'. split; [exact Heq|].
  pose proof (handle_invalidation_follows 7 (mkSignal 1 2 9 8) (demo_node (registry Demo.held)) n'
    (sy_reg _ (reachable_ok _ Demo.held_reachable)) Heq) as Hf.
  cbv zeta in Hf. cbn [sig_artifact_id sig_new_version sig_issuer_agent_id] in Hf. exact Hf.
Defined.

(** ** Behaviours that differ from the documentation *)

(** A lone optimistic writer cannot write.  With no other holder its own fetch is
    granted EXCLUSIVE, and the optimistic commit refuses an EXCLUSIVE caller. *)
Theorem lone_write_cas_refused : ∃ n',
  write_cas 9 mkLazy None None None 1 make_v2 5 (demo_node (registry Demo.s1)) =
    (Raise (CoherenceError "commit_cas_not_allowed reason=occ_is_shared_or_invalid_only"), n') ∧
  get_agent_state (node_registry n') 1 9 = Some EXCLUSIVE ∧
  art_version <$> get_artifact (node_registry n') 1 = Some 1.
Proof. eexists _. split; [vm_compute; reflexivity|by vm_compute]. Qed.

(** A late content broadcast breaks write exclusivity.  Agent 7 commits version 2
    over agent 8's copy, agent 9 then acquires the write grant, and the broadcast of
    version 2 reaches agent 8: agents 8 and 7 become SHARED while 9 holds EXCLUSIVE. *)
Theorem late_update_breaks_exclusivity :
  let s := run [OpFetch (mkFetchRequest 1 8 1); OpWrite 7 1 2 false; OpCommit 7 1 "v2" 3 None None false;
                OpWrite 9 1 4 false] Demo.s1 in
  let n' := (handle_update 8 mkEager None None None 1 2 "v2" 5 (Some 7%N) (demo_node (registry s))).2 in
  coherent (registry s) 1 ∧
  get_agent_state (node_registry n') 1 9 = Some EXCLUSIVE ∧
  get_agent_state (node_registry n') 1 8 = Some SHARED ∧ get_agent_state (node_registry n') 1 7 = Some SHARED ∧
  ¬ coherent (node_registry n') 1.
Proof.
  cbv zeta. split_and!; [|by vm_compute..|].
  - apply sys_ok_coherent, reachable_ok, run_reachable; [apply Demo.s1_reachable|by repeat split].
  - intros (_ & Hexcl & _). specialize (Hexcl 9%N 8%N EXCLUSIVE SHARED).
    by discriminate Hexcl.
Qed.
