(* ===== verification/Adapter.v ===== *)
(** The adapter core, [src/ccs/adapters/base.py], with the event bus of
    [src/ccs/bus/event_bus.py]: one coordinator, the runtimes of the registered
    agents and the synchronous fan-out of their signals.

    [Adapter] is the [CoherenceAdapterCore] object with everything it owns.  A binding
    holds the mutable part of its runtime; running a runtime method loads that part
    and the shared registry into a [Node] and stores them back ([on_runtime]).  The
    bus maps an agent id to the name of the binding whose bound methods were
    subscribed.  Calls are made from one thread; the producer of [write_cas] is a
    function of the cache entry. *)
From S2P Require Import Prelude Core Hashing Retention Registry Service Strategies Runtime.
From stdpp Require Import sorting.

Open Scope Z_scope.
Open Scope string_scope.

(** ** State *)
Record ArtifactUpdateEvent := mkUpdateEvent {
  ue_artifact_id : UUID;
  ue_version : Z;
  ue_content : string;
  ue_issued_at_tick : Z;
  ue_issuer_agent_id : UUID;
}.

Record AgentBinding := mkBinding {
  ab_name : string;
  ab_agent_id : UUID;
  ab_cache : Cache.t;
  ab_content : list (UUID * body);
  (** the runtime's own audit counter, unused when the adapter shares one *)
  ab_audit_seq : Z;
}.
#[export] Instance eta_AgentBinding : Settable AgentBinding :=
  rec_pure mkBinding <*> ab_name <*> ab_agent_id <*> ab_cache <*> ab_content <*> ab_audit_seq.

Record Adapter := mkAdapter {
  ad_registry : Registry;
  ad_audit_seq : option Z;
  ad_audit_calls : list (AuditEntry * bool);
  ad_agents : list (string * AgentBinding);
  ad_invalidation_handlers : list (UUID * string);
  ad_update_handlers : list (UUID * string);
  ad_last_sweep_tick : option Z;
  ad_first_reclamation_emitted : bool;
}.
#[export] Instance eta_Adapter : Settable Adapter :=
  rec_pure mkAdapter <*> ad_registry <*> ad_audit_seq <*> ad_audit_calls <*> ad_agents
    <*> ad_invalidation_handlers <*> ad_update_handlers <*> ad_last_sweep_tick <*> ad_first_reclamation_emitted.

Definition AM (A : Type) : Type := proc exn Adapter A.

Definition on_service {A} (m : RM A) : AM A := zoom ad_registry (λ r ad, ad <| ad_registry := r |>) m.

(** [uuid5(NAMESPACE_URL, f"ccs-agent:{name}")]. *)
Definition agent_uuid (name : string) : UUID := uuid5 NAMESPACE_URL ("ccs-agent:" ++ name)%string.

Definition binding (name : string) : AM AgentBinding := λ ad,
  match dget (ad_agents ad) name with
  | Some b => (Ok b, ad)
  | None => (Raise (KeyError "unknown_agent"), ad)
  end.

(** The runtime of a binding, and the write-back after one of its methods ran. *)
Definition load (ad : Adapter) (b : AgentBinding) : Node :=
  mkNode (ad_registry ad) (ab_cache b) (ab_content b) (default (ab_audit_seq b) (ad_audit_seq ad))
    (ad_audit_calls ad).

Definition store (b : AgentBinding) (n : Node) (ad : Adapter) : Adapter :=
  let b := b <| ab_cache := cache n |> <| ab_content := content_by_artifact n |> in
  let ad := ad <| ad_registry := node_registry n |> <| ad_audit_calls := audit_calls n |> in
  match ad_audit_seq ad with
  | Some _ => ad <| ad_audit_seq := Some (audit_seq n) |> <| ad_agents ::= λ d, dset d (ab_name b) b |>
  | None => ad <| ad_agents ::= λ d, dset d (ab_name b) (b <| ab_audit_seq := audit_seq n |>) |>
  end.

Definition on_runtime {A} (b : AgentBinding) (m : NM A) : AM A := λ ad,
  let '(o, n) := m (load ad b) in (o, store b n ad).

Section adapter.
Context {T : Type} `{SyncStrategy T}.
(** [self.strategy], [self._crash_recovery], the audit callback and [instance_id]. *)
Context (strategy : T) (crash_recovery : CrashRecoveryConfig).
Context (content_audit_log : option (list (AuditEntry * bool) → AuditEntry → bool)).
Context (instance : option string).

(** ** The event bus *)
Definition subscribe (ag : UUID) (name : string) : AM unit :=
  modify (λ ad, ad <| ad_invalidation_handlers ::= λ d, dset d ag name |>
                   <| ad_update_handlers ::= λ d, dset d ag name |>).

Definition unsubscribe (ag : UUID) : AM unit :=
  modify (λ ad, ad <| ad_invalidation_handlers ::= λ d, dpop d ag |>
                   <| ad_update_handlers ::= λ d, dpop d ag |>).

Definition subscribers (ad : Adapter) : list UUID :=
  merge_sort N.le (ad_invalidation_handlers ad).*1.

Definition publish_invalidation (signal : InvalidationSignal) (recipients : list UUID) : AM Z :=
  foldm (λ delivered recipient,
    handler ← gets (λ ad, dget (ad_invalidation_handlers ad) recipient);
    match handler with
    | None => mret delivered
    | Some name =>
      b ← binding name;
      on_runtime b (handle_invalidation (ab_agent_id b) signal) ;;
      mret (delivered + 1)
    end) recipients 0.

Definition publish_update (event : ArtifactUpdateEvent) (recipients : list UUID) : AM Z :=
  foldm (λ delivered recipient,
    handler ← gets (λ ad, dget (ad_update_handlers ad) recipient);
    match handler with
    | None => mret delivered
    | Some name =>
      b ← binding name;
      on_runtime b (handle_update (ab_agent_id b) strategy content_audit_log (Some (ab_name b)) instance
        (ue_artifact_id event) (ue_version event) (ue_content event) (ue_issued_at_tick event)
        (Some (ue_issuer_agent_id event))) ;;
      mret (delivered + 1)
    end) recipients 0.

(** ** Registration *)
Definition heartbeat_if_enabled (ag : UUID) (now_tick : Z) : AM unit :=
  when (enabled crash_recovery) (on_service (service_record_heartbeat ag now_tick)).

Definition register_agent (name : string) (now_tick : Z) : AM UUID :=
  existing ← gets (λ ad, dget (ad_agents ad) name);
  match existing with
  | Some b => mret (ab_agent_id b)
  | None =>
    let agent_id := agent_uuid name in
    modify (λ ad, ad <| ad_registry ::= λ r, r <| agent_names ::= fmap (λ d, dset d agent_id name) |> |>) ;;
    subscribe agent_id name ;;
    modify (λ ad, ad <| ad_agents ::= λ d, dset d name (mkBinding name agent_id [] [] 0) |>) ;;
    heartbeat_if_enabled agent_id now_tick ;;
    mret agent_id
  end.

Definition adapter_register_artifact (minted : UUID) (name content : string) (size_tokens : option Z) : AM Artifact :=
  on_service (service_register_artifact minted name (BStr content) None size_tokens None []).

Definition agent_names_snapshot (ad : Adapter) : list (UUID * string) :=
  default [] (agent_names (ad_registry ad)).

Definition artifact_names_snapshot (ad : Adapter) : list (UUID * string) :=
  foldl (λ d a, match get_artifact (ad_registry ad) a with
                | Some meta => dset d a (art_name meta)
                | None => d
                end) [] (artifact_ids (ad_registry ad)).

(** ** The rate-limited sweep *)
Definition sweep_gated (last : option Z) (now_tick : Z) : bool :=
  match last with
  | Some last => bool_decide (now_tick - last < heartbeat_timeout_ticks crash_recovery / 2)
  | None => false
  end.

Definition maybe_sweep (now_tick : Z) : AM unit := λ ad,
  if negb (enabled crash_recovery) then (Ok tt, ad)
  else if sweep_gated (ad_last_sweep_tick ad) now_tick then (Ok tt, ad)
  else
    let ad := ad <| ad_last_sweep_tick := Some (match ad_last_sweep_tick ad with
                                                | None => now_tick
                                                | Some last => Z.max last now_tick
                                                end) |> in
    match on_service (enforce_stable_grant_timeouts now_tick (heartbeat_timeout_ticks crash_recovery)
                        (max_hold_ticks crash_recovery)) ad with
    | (Raise _, ad) => (Ok tt, ad)
    | (Ok reclaimed, ad) =>
      (Ok tt, if bool_decide (reclaimed ≠ 0) && negb (ad_first_reclamation_emitted ad)
              then ad <| ad_first_reclamation_emitted := true |> else ad)
    end.

(** ** Reads and writes

    The second lookup reads the state of the same runtime object, after the sweep. *)
Definition adapter_read (agent_name : string) (a : UUID) (now_tick : Z) : AM FetchResponse :=
  b ← binding agent_name;
  heartbeat_if_enabled (ab_agent_id b) now_tick ;;
  maybe_sweep now_tick ;;
  b ← binding agent_name;
  on_runtime b (read (ab_agent_id b) strategy content_audit_log (Some (ab_name b)) instance a now_tick).

Definition peers_of (ad : Adapter) (writer : UUID) : list UUID :=
  filter (λ ag : UUID, ag ≠ writer) (map (λ kv : string * AgentBinding, ab_agent_id kv.2) (ad_agents ad)).

(** What [write] and [write_cas] do once the runtime has committed; [content] is the
    expression the update event carries. *)
Definition publish (writer : UUID) (a : UUID) (updated : Artifact) (content : AM string)
    (signals : list InvalidationSignal) (now_tick : Z) : AM Artifact :=
  peers ← gets (λ ad, peers_of ad writer);
  for_each signals (λ signal, _ ← publish_invalidation signal peers; mret tt) ;;
  when (broadcasts_content_on_commit strategy)
    (c ← content; _ ← publish_update (mkUpdateEvent a (art_version updated) c now_tick writer) peers; mret tt) ;;
  mret updated.

Definition adapter_write (agent_name : string) (a : UUID) (content : string) (now_tick : Z) : AM Artifact :=
  writer ← binding agent_name;
  heartbeat_if_enabled (ab_agent_id writer) now_tick ;;
  maybe_sweep now_tick ;;
  writer ← binding agent_name;
  committed ← on_runtime writer (runtime_write (ab_agent_id writer) strategy content_audit_log
                (Some (ab_name writer)) instance a content now_tick None None);
  publish (ab_agent_id writer) a committed.1 (mret content) committed.2 now_tick.

(** [self.content(...)]: the body cached by one runtime. *)
Definition adapter_content (agent_name : string) (a : UUID) : AM (option body) :=
  b ← binding agent_name; mret (dget (ab_content b) a).

(** [content or ""], as the update event carries it. *)
Definition text_of (c : option body) : string :=
  match c with Some (BStr s) => s | _ => "" end.

Definition adapter_write_cas (agent_name : string) (a : UUID)
    (make_content : ArtifactCacheEntry → outcome exn (string * option string)) (now_tick : Z) : AM Artifact :=
  writer ← binding agent_name;
  heartbeat_if_enabled (ab_agent_id writer) now_tick ;;
  maybe_sweep now_tick ;;
  writer ← binding agent_name;
  committed ← on_runtime writer (Runtime.write_cas (ab_agent_id writer) strategy content_audit_log
                (Some (ab_name writer)) instance a (λ e, of_outcome (make_content e)) now_tick);
  publish (ab_agent_id writer) a committed.1 (c ← adapter_content agent_name a; mret (text_of c))
    committed.2 now_tick.

(** ** Heartbeats, recovery, identities *)
Definition adapter_heartbeat (agent_name : string) (now_tick : Z) : AM unit :=
  if negb (enabled crash_recovery) then mret tt
  else b ← binding agent_name; on_service (service_record_heartbeat (ab_agent_id b) now_tick).

Definition recover (agent_name : string) (now_tick : Z) : AM unit :=
  b ← binding agent_name;
  on_runtime b (invalidate_all_cache None) ;;
  heartbeat_if_enabled (ab_agent_id b) now_tick.

Definition adapter_agent_names (ad : Adapter) : list string :=
  merge_sort String.le (ad_agents ad).*1.

Definition agent_id_for (name : string) : AM UUID := b ← binding name; mret (ab_agent_id b).
End adapter.

(** ** Construction *)

(** [ttl_ticks], for the composition rule. *)
Definition ttl_of (s : Strategy) : ttl_attr :=
  match s with LeaseS l => TtlInt (ttl_ticks l) | _ => TtlNone end.

(** [__init__]: the strategy, the configuration and the empty adapter. *)
Definition adapter_init (strategy_name : string) (lease_ttl_ticks access_count_max_accesses : Z)
    (sink : option (list (LogEntry * bool) → LogEntry → bool)) (instance : option string)
    (shared_audit_seq : option Z) (retain : bool) (crash_recovery : option CrashRecoveryConfig)
    (minted_instance minted_epoch : string) (clock : nat → Z)
    : outcome exn (Strategy * CrashRecoveryConfig * Adapter) :=
  let crash_recovery := default CrashRecoveryConfig_default crash_recovery in
  match registry_init sink (Some []) instance retain None minted_instance minted_epoch clock with
  | Raise e => Raise e
  | Ok r =>
    match build_strategy strategy_name lease_ttl_ticks access_count_max_accesses with
    | Raise e => Raise e
    | Ok s =>
      match validate_crash_recovery_config crash_recovery (ttl_of s) with
      | Raise e => Raise e
      | Ok _ => Ok (s, crash_recovery, mkAdapter r shared_audit_seq [] [] [] [] None false)
      end
    end
  end.
