(* ===== verification/CopyFacts.v ===== *)
(** What a coordinator operation does to the copies of the other agents: it keeps them
    ([copy_same]), or it revokes them and every holder is marked INVALID and so can be
    notified ([copy_revoked]).  A sweep may also reclaim a copy silently, leaving its
    trace in the reclamation slot. *)
From S2P Require Import Prelude Core Hashing Retention Registry RegistryFacts CommitFacts Service.
From S2P Require Import ServiceFacts RevocationFacts Evolution Sessions SessionFacts Checkpoints System.
From S2P Require Import Safety Operations.

Open Scope Z_scope.
Open Scope string_scope.

Definition valid (rec : ArtifactRecord) (p : UUID) : Prop := non_invalid (st rec p) = true.
Definition reclaimed (rec : ArtifactRecord) (p : UUID) : Prop := is_Some (dget (last_reclamation_by_agent rec) p).

(** The copy of [p] is untouched. *)
Record copy_same (p : UUID) (rec rec' : ArtifactRecord) : Prop := {
  cs_version : version rec' = version rec;
  cs_content : content rec' = content rec;
  cs_valid : valid rec' p ↔ valid rec p;
  cs_slot : reclaimed rec' p ↔ reclaimed rec p;
}.

#[export] Instance copy_same_preorder p : PreOrder (copy_same p).
Proof.
  split; [done|]. intros x y z [V1 C1 S1 R1] [V2 C2 S2 R2].
  split; [congruence|congruence|by rewrite S2|by rewrite R2].
Qed.

(** The copy of [p], if it was valid, is gone, and the state map says so. *)
Record copy_revoked (p : UUID) (rec rec' : ArtifactRecord) : Prop := {
  cv_gone : ¬ valid rec' p;
  cv_notice : valid rec p → dget (state_by_agent rec') p = Some INVALID;
  cv_slot : reclaimed rec' p ↔ reclaimed rec p;
}.

Lemma same_then_revoked p x y z : copy_same p x y → copy_revoked p y z → copy_revoked p x z.
Proof. intros [_ _ S R] [G N R2]. split; [done|naive_solver|by rewrite R2]. Qed.

(** ** Slots *)
Lemma transition_slot ag s trigger tick rec p :
  reclaimed (apply_transition ag s trigger tick rec) p ↔
  reclaimed rec p ∧ ¬ (m_or_e s && negb (m_or_e (st rec ag)) = true ∧ p = ag).
Proof.
  unfold reclaimed. rewrite transition_reclamation. destruct (m_or_e s && negb (m_or_e (st rec ag))) eqn:E.
  - rewrite dget_dpop. case_decide as Hp; [subst; split; [by intros [? ?]|naive_solver]|]. naive_solver.
  - naive_solver.
Qed.

Lemma transition_slot_other ag s trigger tick rec p : p ≠ ag →
  reclaimed (apply_transition ag s trigger tick rec) p ↔ reclaimed rec p.
Proof. rewrite transition_slot. naive_solver. Qed.

Lemma transition_slot_passive ag s trigger tick rec p : m_or_e s = false →
  reclaimed (apply_transition ag s trigger tick rec) p ↔ reclaimed rec p.
Proof. intros Hs. rewrite transition_slot, Hs. naive_solver. Qed.

Lemma transition_same ag s trigger tick rec p : p ≠ ag → copy_same p rec (apply_transition ag s trigger tick rec).
Proof.
  intros Hp. split.
  - apply version_transition.
  - apply transition_content.
  - unfold valid. rewrite st_transition. by rewrite decide_False by congruence.
  - by apply transition_slot_other.
Qed.

(** ** Fetch *)
Lemma fetch_slot ag tick rec p : rec_ok rec →
  reclaimed (fetch_rec ag tick rec) p ↔
  reclaimed rec p ∧ ¬ (m_or_e (fetch_grant rec ag) && negb (m_or_e (st rec ag)) = true ∧ p = ag).
Proof.
  intros Hok. rewrite fetch_rec_unfold.
  set (t := if decide (fetch_grant rec ag = EXCLUSIVE) then IED else ISG).
  change (reclaimed (apply_transition ag (fetch_grant rec ag) "fetch" tick
    (downgraded ag tick (with_transient ag t tick rec) rec)) p ↔
    reclaimed rec p ∧ ¬ (m_or_e (fetch_grant rec ag) && negb (m_or_e (st rec ag)) = true ∧ p = ag)).
  rewrite transition_slot.
  destruct (downgraded_cases ag tick rec (with_transient ag t tick rec) Hok) as [[_ ->]|(q & Hq & _ & _ & ->)]; [done|].
  rewrite transition_slot_passive by done. rewrite st_transition, decide_False by done. done.
Qed.

Lemma fetch_copy ag tick rec p : rec_ok rec → p ≠ ag → copy_same p rec (fetch_rec ag tick rec).
Proof.
  intros Hok Hp. split.
  - unfold version. by rewrite fetch_rec_artifact.
  - by apply fetch_rec_content.
  - unfold valid. rewrite fetch_rec_st, decide_False by congruence. by destruct (st rec p).
  - rewrite fetch_slot by done. naive_solver.
Qed.

Lemma fetch_self ag tick rec : rec_ok rec → valid (fetch_rec ag tick rec) ag.
Proof.
  intros Hok. unfold valid. rewrite fetch_rec_st, decide_True by done.
  by destruct (fetch_grant_cases rec ag) as [-> | ->].
Qed.

(** ** Revocation loops leave a trace in the state map *)
Lemma fold_revoke_notice trigger tick l rec p :
  p ∈ l.*1 ∨ dget (state_by_agent rec) p = Some INVALID →
  dget (state_by_agent (foldl (revoke_rec trigger tick) rec l)) p = Some INVALID.
Proof.
  revert rec. induction l as [|kv l IH]; intros rec; simpl; [rewrite elem_of_nil; naive_solver|].
  intros Hp. apply IH. unfold revoke_rec. rewrite transition_states. destruct (decide (kv.1 = p)) as [->|Hne].
  - right. apply dget_dset_eq.
  - rewrite dget_dset, decide_False by done. rewrite elem_of_cons in Hp.
    destruct Hp as [[->|?]|Hp]; [done|by left|]. right. by destruct (invalidation_transient_for_state kv.2).
Qed.

Lemma fold_revoke_slot trigger tick l rec p :
  reclaimed (foldl (revoke_rec trigger tick) rec l) p ↔ reclaimed rec p.
Proof.
  revert rec. induction l as [|kv l IH]; intros rec; simpl; [done|]. rewrite IH. unfold revoke_rec.
  rewrite transition_slot_passive by done. by destruct (invalidation_transient_for_state kv.2).
Qed.

Lemma write_copy ag tick rec p : rec_ok rec → p ≠ ag → copy_revoked p rec (write_rec ag tick rec).
Proof.
  intros Hok Hp. split.
  - unfold valid. rewrite write_rec_st by done. by rewrite decide_False by congruence.
  - intros Hv. unfold write_rec.
    set (x := with_transient ag IED tick rec).
    change (dget (state_by_agent (apply_transition ag EXCLUSIVE "write" tick (revoked ag "write" tick x))) p = Some INVALID).
    rewrite transition_states, dget_dset, decide_False by congruence. unfold revoked.
    apply fold_revoke_notice. left. change (p ∈ (cas_peers rec ag).*1).
    apply elem_cas_peers_keys; [apply Hok|]. by split.
  - unfold write_rec.
    change (reclaimed (apply_transition ag EXCLUSIVE "write" tick (revoked ag "write" tick (with_transient ag IED tick rec))) p
      ↔ reclaimed rec p).
    rewrite transition_slot_other by done. unfold revoked. by rewrite fold_revoke_slot.
Qed.

(** ** Commit *)
Lemma stored_slots r now rec v c : last_reclamation_by_agent (body_stored r now rec v c) = last_reclamation_by_agent rec.
Proof. by destruct (stored_shape r now rec v c) as (b & h & t & ->). Qed.

Lemma commit_copy r now ag tick rec c h sz p : p ≠ ag →
  dget (state_by_agent (commit_rec r now ag tick rec c h sz)) p = dget (state_by_agent rec) p ∧
  (reclaimed (commit_rec r now ag tick rec c h sz) p ↔ reclaimed rec p).
Proof.
  intros Hp. unfold commit_rec.
  set (x := commit_stored r now ag (with_transient ag MWB tick rec) (commit_updated rec h sz) c).
  change (dget (state_by_agent (apply_transition ag MODIFIED "commit" tick x)) p = dget (state_by_agent rec) p ∧
    (reclaimed (apply_transition ag MODIFIED "commit" tick x) p ↔ reclaimed rec p)).
  rewrite transition_states, dget_dset, decide_False by congruence. rewrite transition_slot_other by done.
  unfold x, commit_stored. set (y := body_stored _ _ _ _ _).
  change (dget (state_by_agent y) p = dget (state_by_agent rec) p ∧ (reclaimed y p ↔ reclaimed rec p)).
  unfold y, reclaimed. by rewrite stored_states, stored_slots.
Qed.

Lemma write_commit_copy r now ag tick tick' rec c h sz p : rec_ok rec → p ≠ ag →
  copy_revoked p rec (commit_rec r now ag tick' (write_rec ag tick rec) c h sz).
Proof.
  intros Hok Hp. destruct (write_copy ag tick rec p Hok Hp) as [G N S].
  destruct (commit_copy r now ag tick' (write_rec ag tick rec) c h sz p Hp) as [E S'].
  split.
  - unfold valid, st. rewrite E. exact G.
  - intros Hv. rewrite E. by apply N.
  - by rewrite S'.
Qed.

(** No operation of an agent invents a reclamation. *)
Lemma write_slot ag tick rec p : reclaimed (write_rec ag tick rec) p → reclaimed rec p.
Proof.
  change (reclaimed (apply_transition ag EXCLUSIVE "write" tick (revoked ag "write" tick (with_transient ag IED tick rec))) p
    → reclaimed rec p).
  rewrite transition_slot. unfold revoked. rewrite fold_revoke_slot. by intros [? _].
Qed.

Lemma commit_slot r now ag tick rec c h sz p : reclaimed (commit_rec r now ag tick rec c h sz) p → reclaimed rec p.
Proof.
  set (y := body_stored r now (with_transient ag MWB tick rec) (art_version (commit_updated rec h sz)) (Some (BStr c))).
  change (reclaimed (apply_transition ag MODIFIED "commit" tick
    (y <| artifact := commit_updated rec h sz |> <| last_writer := Some ag |>)) p → reclaimed rec p).
  rewrite transition_slot. intros [Hs _]. change (reclaimed y p) in Hs. unfold reclaimed, y in Hs.
  by rewrite stored_slots in Hs.
Qed.

(** ** Optimistic commit *)
Lemma fold_invalidate_notice l rec p :
  p ∈ l.*1 ∨ dget (state_by_agent rec) p = Some INVALID →
  dget (state_by_agent (foldl invalidate_peer rec l)) p = Some INVALID.
Proof.
  revert rec. induction l as [|kv l IH]; intros rec; simpl; [rewrite elem_of_nil; naive_solver|].
  intros Hp. apply IH. assert (state_by_agent (invalidate_peer rec kv) = dset (state_by_agent rec) kv.1 INVALID) as ->.
  { unfold invalidate_peer. by destruct (m_or_e kv.2). }
  rewrite dget_dset. case_decide; [by right|]. rewrite elem_of_cons in Hp. naive_solver.
Qed.

Lemma cas_slot r now a ag rec h sz c p : rec_ok rec → (∀ q, q ≠ ag → m_or_e (st rec q) = false) →
  reclaimed (cas_final r now a ag rec h sz c) p ↔ reclaimed rec p.
Proof.
  intros Hok Hother. unfold reclaimed.
  destruct (cas_final_shape r now a ag rec h sz c (rok_states _ (rok_core _ Hok)) Hother) as (d & -> & _).
  change (is_Some (dget (last_reclamation_by_agent (body_stored r now rec (version rec + 1) c)) p) ↔
    is_Some (dget (last_reclamation_by_agent rec) p)). by rewrite stored_slots.
Qed.

Lemma cas_copy r now a ag rec h sz c p : rec_ok rec → (∀ q, q ≠ ag → m_or_e (st rec q) = false) → p ≠ ag →
  copy_revoked p rec (cas_final r now a ag rec h sz c).
Proof.
  intros Hok Hother Hp. pose proof (rok_states _ (rok_core _ Hok)) as Hwf. split.
  - unfold valid. rewrite cas_final_st by done. by rewrite decide_False.
  - intros Hv. unfold cas_final, cas_apply.
    set (x := body_stored _ _ _ _ _).
    change (dget (dset (state_by_agent (foldl invalidate_peer (x <| artifact := cas_updated a rec h sz |>
      <| last_writer := Some ag |>) (cas_peers rec ag))) ag SHARED) p = Some INVALID).
    rewrite dget_dset, decide_False by congruence. apply fold_invalidate_notice. left.
    apply elem_cas_peers_keys; [done|]. by split.
  - by apply cas_slot.
Qed.

(** ** Revocation and sweep of one copy *)
Lemma invalidate_copy ag tick rec p : p ≠ ag → copy_same p rec (invalidate_rec ag tick rec).
Proof. intros Hp. by destruct (transition_same ag INVALID "invalidate" tick rec p Hp). Qed.

Lemma invalidate_slot ag tick rec p : reclaimed (invalidate_rec ag tick rec) p ↔ reclaimed rec p.
Proof.
  change (reclaimed (apply_transition ag INVALID "invalidate" tick rec) p ↔ reclaimed rec p).
  by apply transition_slot_passive.
Qed.

(** The sweep may take the copy away, but not silently. *)
Record copy_swept (p : UUID) (rec rec' : ArtifactRecord) : Prop := {
  cw_version : version rec' = version rec;
  cw_content : content rec' = content rec;
  cw_valid : valid rec' p → valid rec p;
  cw_trace : valid rec p ∨ reclaimed rec p → valid rec' p ∨ reclaimed rec' p;
}.

#[export] Instance copy_swept_preorder p : PreOrder (copy_swept p).
Proof.
  split; [by split|]. intros x y z [V1 C1 S1 R1] [V2 C2 S2 R2]. split; [congruence|congruence|naive_solver|naive_solver].
Qed.

Lemma same_swept p rec rec' : copy_same p rec rec' → copy_swept p rec rec'.
Proof. intros [V C S R]. split; [done|done|by apply S|rewrite S, R; done]. Qed.

Lemma reclaim_copy ag trigger tick rec p : copy_swept p rec (reclaim_rec ag trigger tick rec).
Proof.
  destruct (decide (p = ag)) as [->|Hp].
  - split.
    + apply (version_transition ag INVALID trigger tick rec).
    + apply (transition_content ag INVALID trigger tick rec).
    + unfold valid. change (non_invalid (st (apply_transition ag INVALID trigger tick rec) ag) = true → non_invalid (st rec ag) = true).
      rewrite st_transition. by rewrite decide_True.
    + intros _. right. unfold reclaimed. simpl. rewrite dget_dset_eq. by eexists.
  - apply same_swept. etrans; [apply (transition_same ag INVALID trigger tick rec p Hp)|].
    split; [done|done|done|]. unfold reclaimed, reclaim_rec. simpl. rewrite dget_dset, decide_False by congruence. done.
Qed.

(** ** A content broadcast: the recipient and the writer become SHARED *)
Lemma dset_comm {K V} `{EqDecision K} (d : list (K * V)) k1 k2 (v1 v2 : V) : k1 ≠ k2 → is_Some (dget d k2) →
  dset (dset d k1 v1) k2 v2 = dset (dset d k2 v2) k1 v1.
Proof.
  intros Hne. induction d as [|[k v] d IH]; simpl; [by intros [? ?]|]. intros Hs.
  destruct (decide (k = k1)) as [E1|H1]; destruct (decide (k = k2)) as [E2|H2]; simplify_eq; simpl;
    repeat case_decide; simplify_eq; try done.
  by rewrite IH.
Qed.

Definition update_rec (me w : UUID) (tick : Z) (rec : ArtifactRecord) : ArtifactRecord :=
  without_transient w (apply_transition w SHARED "update" tick
    (without_transient me (apply_transition me SHARED "update" tick rec))).

Lemma update_shape ag tick rec : ∃ g,
  apply_transition ag SHARED "update" tick rec = rec <| state_by_agent ::= λ d, dset d ag SHARED |>
    <| granted_at_tick_by_agent := g |>
    <| last_observed_version_by_agent ::= λ d, dset d ag (art_version (artifact rec)) |> ∧
  (g = if m_or_e (st rec ag) then dpop (granted_at_tick_by_agent rec) ag else granted_at_tick_by_agent rec).
Proof.
  eexists. split; [|reflexivity]. unfold apply_transition, st. destruct rec. simpl.
  by destruct (m_or_e (default INVALID (dget state_by_agent ag))).
Qed.

(** The order of the two transitions does not matter to the record. *)
Lemma update_comm me w tick rec : me ≠ w → m_or_e (st rec me) = false →
  is_Some (dget (state_by_agent rec) w) → is_Some (dget (last_observed_version_by_agent rec) w) →
  apply_transition w SHARED "update" tick (apply_transition me SHARED "update" tick rec) =
  apply_transition me SHARED "update" tick (apply_transition w SHARED "update" tick rec).
Proof.
  intros Hne Hme Hs Ho.
  assert (m_or_e (st (apply_transition w SHARED "update" tick rec) me) = false) as Hme2.
  { rewrite st_transition. by rewrite decide_False by congruence. }
  assert (m_or_e (st (apply_transition me SHARED "update" tick rec) w) = m_or_e (st rec w)) as Hw2.
  { rewrite st_transition. by rewrite decide_False by congruence. }
  destruct (update_shape me tick rec) as (g1 & E1 & G1). rewrite Hme in G1.
  destruct (update_shape w tick rec) as (g2 & E2 & G2).
  destruct (update_shape w tick (apply_transition me SHARED "update" tick rec)) as (g3 & E3 & G3). rewrite Hw2 in G3.
  destruct (update_shape me tick (apply_transition w SHARED "update" tick rec)) as (g4 & E4 & G4). rewrite Hme2 in G4.
  rewrite E3, E4. rewrite E1 in G3. rewrite E2 in G4. rewrite G3, G4, E1, E2, G1, G2. destruct rec. cbv -[dset dpop m_or_e st]. simpl in *.
  rewrite (dset_comm _ me w), (dset_comm _ me w) by done. done.
Qed.

Lemma transition_without ag s trigger tick q rec :
  apply_transition ag s trigger tick (without_transient q rec) = without_transient q (apply_transition ag s trigger tick rec).
Proof.
  unfold apply_transition, without_transient. destruct rec. simpl.
  destruct (m_or_e s), (m_or_e (default INVALID (dget state_by_agent ag))), (non_invalid s),
    (bool_decide (trigger ∈ EPOCH_BUMP_TRIGGERS)), (bool_decide (trigger ∈ CLAIM_CAPTURE_TRIGGERS)); reflexivity.
Qed.

Section update.
Context (me w : UUID) (tick : Z) (rec : ArtifactRecord).
Context (Hok : rec_ok rec) (Hne : me ≠ w) (Hw : valid rec w) (Hall : ∀ q, q ≠ w → m_or_e (st rec q) = false).

Lemma update_rec_ok : rec_ok (update_rec me w tick rec).
Proof using Hok Hne Hw Hall.
  unfold update_rec. apply without_transient_ok. rewrite transition_without. apply without_transient_ok.
  rewrite update_comm; [|done|by apply Hall| |].
  - assert (rec_ok (apply_transition w SHARED "update" tick rec)) as H1.
    { apply transition_keeps_ok; [done|]. by split. }
    apply transition_keeps_ok; [done|]. split; [done|]. intros _ q Hq. rewrite st_transition.
    case_decide; [done|]. by apply Hall.
  - unfold valid, st in Hw. destruct (dget (state_by_agent rec) w); [by eexists|done].
  - rewrite (rok_fresh _ Hok w) by done. by eexists.
Qed.

Lemma update_rec_st p :
  st (update_rec me w tick rec) p = if decide (p = me ∨ p = w) then SHARED else st rec p.
Proof. clear Hok Hne Hw Hall.
  change (st (apply_transition w SHARED "update" tick (without_transient me (apply_transition me SHARED "update" tick rec))) p =
    if decide (p = me ∨ p = w) then SHARED else st rec p).
  rewrite st_transition. repeat case_decide; try naive_solver;
  change (st (without_transient me (apply_transition me SHARED "update" tick rec)) p) with
    (st (apply_transition me SHARED "update" tick rec) p); rewrite st_transition; case_decide; naive_solver.
Qed.

Lemma update_rec_artifact : artifact (update_rec me w tick rec) = artifact rec.
Proof. clear Hok Hne Hw Hall.
  change (artifact (apply_transition w SHARED "update" tick (without_transient me (apply_transition me SHARED "update" tick rec))) =
    artifact rec).
  rewrite transition_artifact. apply (transition_artifact me SHARED "update" tick rec).
Qed.

Lemma update_rec_content : content (update_rec me w tick rec) = content rec.
Proof. clear Hok Hne Hw Hall.
  change (content (apply_transition w SHARED "update" tick (without_transient me (apply_transition me SHARED "update" tick rec))) =
    content rec).
  rewrite transition_content. apply (transition_content me SHARED "update" tick rec).
Qed.

Lemma update_rec_slot p : reclaimed (update_rec me w tick rec) p ↔ reclaimed rec p.
Proof. clear Hok Hne Hw Hall.
  change (reclaimed (apply_transition w SHARED "update" tick (without_transient me (apply_transition me SHARED "update" tick rec))) p ↔
    reclaimed rec p).
  rewrite transition_slot_passive by done. apply (transition_slot_passive me SHARED "update" tick rec). done.
Qed.

Lemma update_copy p : p ≠ me → copy_same p rec (update_rec me w tick rec).
Proof using Hw.
  intros Hp. split.
  - unfold version. by rewrite update_rec_artifact.
  - apply update_rec_content.
  - unfold valid. rewrite update_rec_st. case_decide as Hc; [|done]. destruct Hc as [->| ->]; [done|].
    split; [intros _; exact Hw|done].
  - apply update_rec_slot.
Qed.

Lemma update_self : valid (update_rec me w tick rec) me.
Proof. clear Hok Hne Hw Hall. unfold valid. rewrite update_rec_st. rewrite decide_True by naive_solver. done. Qed.
End update.
