(* ===== verification/Copies.v ===== *)
(** One agent runtime and the copies of all agents.

    Under a state log and an audit log that do not raise, each runtime method either
    settles the agent's own copy and leaves the copies of the others alone
    ([settled]), or publishes a new version and revokes the copies of the others
    ([published]). *)
From S2P Require Import Prelude Core Hashing Retention Registry RegistryFacts CommitFacts Service.
From S2P Require Import ServiceFacts RevocationFacts Evolution Sessions SessionFacts Checkpoints System.
From S2P Require Import Safety Operations Strategies Runtime Agents CopyFacts.

Open Scope Z_scope.
Open Scope string_scope.

(** ** States of the coordinator an adapter works on *)
Record calm (r : Registry) : Prop := {
  ca_ok : reg_ok r;
  ca_quiet : log_quiet r;
  (** bodies are text, never bytes *)
  ca_text : ∀ a rec, get_record r a = Some rec → ∃ s, content rec = BStr s;
}.

(** The abstract content of the coordinator: version and body of each artifact. *)
Definition current (r : Registry) (a : UUID) : option (Z * body) :=
  (λ rec, (version rec, content rec)) <$> get_record r a.

Lemma calm_at a r rec rec' r' : calm r → get_record r a = Some rec → at_rec a r rec' r' → rec_ok rec' →
  art_id (artifact rec') = a → (∃ s, content rec' = BStr s) → calm r'.
Proof.
  intros [Hok Hq Ht] Hr Hat Hrec Hid Hs. split.
  - by eapply at_rec_reg_ok.
  - by apply (at_rec_quiet _ _ _ _ Hat).
  - intros b x Hx. destruct (decide (b = a)) as [->|Hb].
    + rewrite (ar_rec _ _ _ _ Hat) in Hx. by simplify_eq.
    + rewrite (ar_others _ _ _ _ Hat) in Hx by done. by eapply Ht.
Qed.

(** A valid cache entry is the current version, unless the copy was reclaimed. *)
Definition copy_ok (r : Registry) (p : UUID) (c : Cache.t) (d : list (UUID * body)) (a : UUID) : Prop :=
  ∀ e, dget c a = Some e → ce_state e ≠ INVALID → ∃ rec, get_record r a = Some rec ∧
    (valid rec p → ce_local_version e = version rec ∧ dget d a = Some (content rec)) ∧
    (valid rec p ∨ reclaimed rec p).

(** The same, while notices to the revoked holders of [a] are under way. *)
Definition copy_pending (r : Registry) (p : UUID) (c : Cache.t) (d : list (UUID * body)) (a : UUID) : Prop :=
  ∀ e, dget c a = Some e → ce_state e ≠ INVALID → ∃ rec, get_record r a = Some rec ∧ ¬ valid rec p ∧
    (dget (state_by_agent rec) p = Some INVALID ∨ reclaimed rec p).

Lemma copy_ok_swept r r' p c d a rec rec' : get_record r a = Some rec → get_record r' a = Some rec' →
  copy_swept p rec rec' → copy_ok r p c d a → copy_ok r' p c d a.
Proof.
  intros Hr Hr' [V C S T] Hok e He Hne. destruct (Hok e He Hne) as (x & Hx & Hv & Ho). simplify_eq.
  exists rec'. split; [done|]. rewrite V, C. naive_solver.
Qed.

Lemma copy_ok_same r r' p c d a : get_record r' a = get_record r a → copy_ok r p c d a → copy_ok r' p c d a.
Proof. intros E. unfold copy_ok. by rewrite E. Qed.

Lemma copy_ok_revoked r r' p c d a rec rec' : get_record r a = Some rec → get_record r' a = Some rec' →
  copy_revoked p rec rec' → copy_ok r p c d a → copy_pending r' p c d a.
Proof.
  intros Hr Hr' [G N S] Hok e He Hne. destruct (Hok e He Hne) as (x & Hx & _ & Ho). simplify_eq.
  exists rec'. split_and!; [done|done|]. rewrite S. naive_solver.
Qed.

(** Without a valid copy elsewhere there is nobody to notify. *)
Lemma copy_ok_unheld r r' p c d a rec rec' : get_record r a = Some rec → get_record r' a = Some rec' →
  copy_revoked p rec rec' → ¬ valid rec p → copy_ok r p c d a → copy_ok r' p c d a.
Proof.
  intros Hr Hr' [G N S] Hnv Hok e He Hne. destruct (Hok e He Hne) as (x & Hx & _ & Ho). simplify_eq.
  exists rec'. rewrite S. naive_solver.
Qed.

(** ** Runtime methods *)
Section node.
Context {T : Type} `{Hlaws : StrategyLaws T}.
Context (me : UUID) (strategy : T).
Context (audit : option (list (AuditEntry * bool) → AuditEntry → bool)).
Context (aname iname : option string) (Haudit : audit_quiet audit).

Local Abbreviation view := (record_content_view me audit aname iname).
Local Abbreviation fetch_thru := (fetch_through me strategy audit aname iname).
Local Abbreviation refresh := (refresh_if_needed me strategy audit aname iname).

(** The agent has a current copy on both sides. *)
Definition holds (n : Node) (a : UUID) : Prop :=
  ∃ rec e, get_record (node_registry n) a = Some rec ∧ valid rec me ∧ dget (cache n) a = Some e ∧
    ce_local_version e = version rec ∧ dget (content_by_artifact n) a = Some (content rec).

Definition texts (d : list (UUID * body)) : Prop := ∀ a c, dget d a = Some c → ∃ s, c = BStr s.

Record my_copies (n : Node) : Prop := {
  mc_ok : ∀ a, copy_ok (node_registry n) me (cache n) (content_by_artifact n) a;
  mc_text : texts (content_by_artifact n);
}.

Lemma holds_ok n a : holds n a → copy_ok (node_registry n) me (cache n) (content_by_artifact n) a.
Proof. intros (rec & e & Hr & Hv & He & Hl & Hc) e' He' _. simplify_eq. exists rec. naive_solver. Qed.

Record settled (a : UUID) (n n' : Node) : Prop := {
  se_calm : calm (node_registry n');
  se_log : state_log (node_registry n') = state_log (node_registry n);
  se_keys : (records (node_registry n')).*1 = (records (node_registry n)).*1;
  se_others : ∀ b, b ≠ a → get_record (node_registry n') b = get_record (node_registry n) b;
  se_rec : ∀ rec, get_record (node_registry n) a = Some rec → ∃ rec', get_record (node_registry n') a = Some rec' ∧
    version rec' = version rec ∧ content rec' = content rec ∧
    (∀ p, p ≠ me → copy_same p rec rec') ∧ (∀ p, reclaimed rec' p → reclaimed rec p);
  se_mine : my_copies n → my_copies n';
}.

Lemma settled_refl a n : calm (node_registry n) → settled a n n.
Proof. intros Hc. split; try done. intros rec Hr. exists rec. by split_and!. Qed.

Lemma settled_trans a n1 n2 n3 : settled a n1 n2 → settled a n2 n3 → settled a n1 n3.
Proof.
  intros [C1 L1 K1 O1 R1 M1] [C2 L2 K2 O2 R2 M2]. split; [done|congruence|congruence| | |by eauto].
  - intros b Hb. by rewrite O2, O1.
  - intros rec Hr. destruct (R1 _ Hr) as (x & Hx & Vx & Cx & Sx & Ux). destruct (R2 _ Hx) as (y & Hy & Vy & Cy & Sy & Uy).
    exists y. split_and!; [done|congruence|congruence| |by eauto]. intros p Hp. etrans; [by apply Sx|by apply Sy].
Qed.

Lemma record_domain r r' a : (records r').*1 = (records r).*1 → get_record r a = None → get_record r' a = None.
Proof.
  intros E Hn. destruct (get_record r' a) as [x|] eqn:Ex; [|done]. exfalso.
  assert (is_Some (get_record r a)) as [? ?]; [|congruence]. apply record_of_key. rewrite <-E. apply record_of_key. by exists x.
Qed.

Lemma settled_current a n n' b : settled a n n' → current (node_registry n') b = current (node_registry n) b.
Proof.
  intros S. unfold current. destruct (decide (b = a)) as [->|Hb]; [|by rewrite (se_others _ _ _ S)].
  destruct (get_record (node_registry n) a) as [rec|] eqn:Er.
  - destruct (se_rec _ _ _ S _ Er) as (rec' & -> & V & C & _). simpl. by rewrite V, C.
  - by rewrite (record_domain _ _ _ (se_keys _ _ _ S) Er).
Qed.

(** *** Fetch *)
Lemma calm_fetch a now r rec : calm r → get_record r a = Some rec →
  ∃ r', fetch (mkFetchRequest a me now) r = (Ok (mkFetchResponse a (version rec) (content rec) (fetch_grant rec me)), r') ∧
    at_rec a r (fetch_rec me now rec) r'.
Proof.
  intros [Hok Hq _] Hr.
  pose proof (triple_fetch a r rec me now (reg_rec _ Hok _ _ Hr) (reg_id _ Hok _ _ Hr) r (at_rec_refl _ _ _ Hr)) as Ht.
  destruct (fetch (mkFetchRequest a me now) r) as [[resp|e] r']; [|by destruct Ht as (_ & Hn & _)].
  destruct Ht as [-> Hat]. by exists r'.
Qed.

Lemma fetch_unknown a now r : get_record r a = None →
  fetch (mkFetchRequest a me now) r = (Raise (CoherenceError "artifact_not_found"), r).
Proof.
  intros Hr. unfold fetch, mbind, proc_bind, require_artifact. simpl. by rewrite (get_artifact_None _ _ Hr).
Qed.

Lemma view_text a v s src now n : ∃ x n', view a v (BStr s) src now n = (Ok x, n') ∧
  node_registry n' = node_registry n ∧ cache n' = cache n ∧
  content_by_artifact n' = if String.eqb src "cache_hit" then content_by_artifact n else dset (content_by_artifact n) a (BStr s).
Proof using Haudit.
  destruct (view a v (BStr s) src now n) as [o n'] eqn:Ev. apply view_frame in Ev as (R & C & D & Ho & _).
  destruct (Ho Haudit s eq_refl) as [x ->]. by exists x, n'.
Qed.

Lemma dset_other {V} (d : list (UUID * V)) a b (v : V) : b ≠ a → dget (dset d a v) b = dget d b.
Proof. intros Hb. by rewrite dget_dset, decide_False by congruence. Qed.

(** The copies of the agent for the artifacts other than the one it touched. *)
Lemma my_copies_at n n' a : my_copies n → holds n' a →
  (∀ b, b ≠ a → get_record (node_registry n') b = get_record (node_registry n) b) →
  (∀ b, b ≠ a → dget (cache n') b = dget (cache n) b) →
  (∃ s, content_by_artifact n' = dset (content_by_artifact n) a (BStr s)) → my_copies n'.
Proof.
  intros [Hm Ht] Hh Hr Hc [s Hd]. split.
  - intros b. destruct (decide (b = a)) as [->|Hb]; [by apply holds_ok|].
    intros e He Hne. rewrite Hc in He by done. destruct (Hm b e He Hne) as (rec & Hrec & H1 & H2).
    exists rec. rewrite Hr, Hd, dset_other by done. done.
  - intros b c. rewrite Hd, dget_dset. case_decide; [|apply Ht]. intros [= <-]. by exists s.
Qed.

Lemma fetch_through_settles a now n : calm (node_registry n) →
  match get_record (node_registry n) a with
  | None => fetch_thru a now n = (Raise (CoherenceError "artifact_not_found"), n)
  | Some rec => ∃ n', fetch_thru a now n = (Ok (mkFetchResponse a (version rec) (content rec) (fetch_grant rec me)), n') ∧
                  settled a n n' ∧ holds n' a
  end.
Proof using Hlaws Haudit.
  intros Hc. destruct (get_record (node_registry n) a) as [rec|] eqn:Er.
  2: { unfold fetch_through, mbind, proc_bind, on_coordinator, zoom. rewrite fetch_unknown by done. by destruct n. }
  destruct (calm_fetch a now _ rec Hc Er) as (r' & Hf & Hat).
  pose proof (reg_rec _ (ca_ok _ Hc) _ _ Er) as Hrok. destruct (ca_text _ Hc _ _ Er) as [s Hs].
  destruct (fetch_thru a now n) as [o n'] eqn:Hrun. unfold fetch_through in Hrun.
  apply bind_inv in Hrun as [(resp & n1 & E1 & Hrun)|(e & E1 & _)];
    apply on_coordinator_inv in E1 as (r1 & E1 & ->); rewrite Hf in E1; simplify_eq.
  apply bind_inv in Hrun as [(x1 & n2 & [= <- <-] & Hrun)|(e & [=] & _)]. cbn [fr_version fr_state_grant fr_content] in Hrun.
  rewrite Hs in Hrun.
  apply bind_inv in Hrun as [(x2 & n3 & E3 & [= <- <-])|(e & E3 & _)]; apply view_frame in E3 as (R & C & D & Ho & _);
    [|by destruct (Ho Haudit s eq_refl)].
  rewrite Hs. exists n3. split; [done|]. rename n3 into n'.
  assert (holds n' a) as Hh.
  { exists (fetch_rec me now rec). eexists. rewrite R, C, D. split_and!.
    - apply Hat.
    - by apply fetch_self.
    - apply dget_dset_eq.
    - destruct (law_fetch strategy a (version rec) (fetch_grant rec me) now) as (_ & _ & -> & _).
      unfold version. by rewrite fetch_rec_artifact.
    - rewrite fetch_rec_content by done. rewrite Hs. apply dget_dset_eq. }
  split; [|done].
  assert (version (fetch_rec me now rec) = version rec) as Hver by (unfold version; by rewrite fetch_rec_artifact).
  split.
  - rewrite R. eapply calm_at; [done|done|done|by apply fetch_rec_ok| |].
    + rewrite fetch_rec_artifact by done. by apply (reg_id _ (ca_ok _ Hc)).
    + rewrite fetch_rec_content by done. by exists s.
  - rewrite R. apply Hat.
  - rewrite R. apply Hat.
  - intros b Hb. rewrite R. by apply Hat.
  - intros x Hx. rewrite R. simplify_eq. exists (fetch_rec me now rec). split_and!; [apply Hat|done|by apply fetch_rec_content| |].
    + intros p Hp. by apply fetch_copy.
    + intros p. rewrite fetch_slot by done. naive_solver.
  - intros Hm. eapply my_copies_at; [done|done|..].
    + intros b Hb. rewrite R. by apply Hat.
    + intros b Hb. rewrite C. by apply dset_other.
    + rewrite D. by exists s.
Qed.

Lemma refresh_settles a now n o n' : calm (node_registry n) → refresh a now n = (o, n') →
  settled a n n' ∧
  match o with
  | Ok _ => is_Some (dget (cache n') a)
  | Raise e => e = CoherenceError "artifact_not_found" ∧ get_record (node_registry n) a = None
  end.
Proof using Hlaws Haudit.
  intros Hc Hrun. unfold refresh_if_needed in Hrun.
  apply bind_inv in Hrun as [(stale & n1 & [= <- <-] & Hrun)|(e & [=] & _)].
  destruct (needs_fetch strategy n a now) eqn:En.
  2: { injection Hrun as <- <-. split; [by apply settled_refl|]. unfold needs_fetch in En.
       destruct (dget (cache n) a) as [e|]; [by exists e|done]. }
  pose proof (fetch_through_settles a now n Hc) as Hf. destruct (get_record (node_registry n) a) as [rec|] eqn:Er.
  - destruct Hf as (n1 & Hf & Hs & (rec1 & e & _ & _ & He & _)).
    rewrite (bind_Ok _ _ _ _ _ Hf) in Hrun. injection Hrun as <- <-. split; [done|by exists e].
  - rewrite (bind_Raise _ _ _ _ _ Hf) in Hrun. injection Hrun as <- <-. by split; [apply settled_refl|].
Qed.

(** A state change that leaves every record as it was. *)
Lemma settled_at n a rec r' : calm (node_registry n) → get_record (node_registry n) a = Some rec →
  at_rec a (node_registry n) rec r' → settled a n (n <| node_registry := r' |>).
Proof.
  intros Hc Hr Hat. assert (∀ b, get_record r' b = get_record (node_registry n) b) as Hsame.
  { intros b. destruct (decide (b = a)) as [->|Hb]; [by rewrite Hr; apply Hat|by apply Hat]. }
  split; simpl.
  - eapply calm_at; [done|done|done|by apply (reg_rec _ (ca_ok _ Hc) _ _ Hr)|by apply (reg_id _ (ca_ok _ Hc))|].
    by eapply ca_text.
  - apply Hat.
  - apply Hat.
  - intros b _. apply Hsame.
  - intros x Hx. simplify_eq. exists rec. by split_and!; [apply Hat|..].
  - intros [Hm Ht]. split; [|done]. intros b. simpl. eapply copy_ok_same; [apply Hsame|apply Hm].
Qed.

Lemma settled_id n a : calm (node_registry n) → settled a n (n <| node_registry := node_registry n |>).
Proof. intros Hc. destruct n. by apply settled_refl. Qed.

(** *** Read *)

(** The cache entry, if it can be served, is the current version. *)
Definition entry_current (n : Node) (a : UUID) (rec : ArtifactRecord) : Prop :=
  ∀ e, dget (cache n) a = Some e → ce_state e ≠ INVALID →
    ce_local_version e = version rec ∧ dget (content_by_artifact n) a = Some (content rec).

(** A read that needs no refresh answers from the cache and asks nobody. *)
Lemma cached_read a now n e : texts (content_by_artifact n) → dget (cache n) a = Some e →
  requires_refresh strategy e now = false →
  ∃ n', Runtime.read me strategy audit aname iname a now n =
      (Ok (mkFetchResponse a (ce_local_version e) (default (BStr "") (dget (content_by_artifact n) a)) (ce_state e)), n') ∧
    node_registry n' = node_registry n ∧ cache n' = dset (cache n) a (on_read strategy e now) ∧
    content_by_artifact n' = content_by_artifact n.
Proof using Hlaws Haudit.
  intros Ht Ee Ereq. destruct (law_read strategy e now) as (_ & Ls & Lv & _).
  unfold Runtime.read, mbind at 1, proc_bind at 1. unfold gets at 1. rewrite Ee, Ereq.
  unfold mbind at 1, proc_bind at 1, cache_put, modify. unfold mbind at 1, proc_bind at 1. unfold gets at 1.
  rewrite put_content. rewrite Lv, Ls.
  assert (∃ s, default (BStr "") (dget (content_by_artifact n) a) = BStr s) as [s ->].
  { destruct (dget (content_by_artifact n) a) as [c|] eqn:Ec; [by apply (Ht a)|by exists ""]. }
  unfold mbind, proc_bind.
  match goal with |- context [view a ?v (BStr s) ?x now ?node] => destruct (view_text a v s x now node) as (h & n' & -> & R & C & D) end.
  exists n'. by split_and!.
Qed.

Lemma read_settles a now n : calm (node_registry n) → my_copies n →
  match get_record (node_registry n) a with
  | None => Runtime.read me strategy audit aname iname a now n = (Raise (CoherenceError "artifact_not_found"), n)
  | Some rec => ∃ resp n', Runtime.read me strategy audit aname iname a now n = (Ok resp, n') ∧ settled a n n' ∧
      fr_artifact_id resp = a ∧ (entry_current n a rec → fr_version resp = version rec ∧ fr_content resp = content rec)
  end.
Proof using Hlaws Haudit.
  intros Hc [Hm Ht]. pose proof (fetch_through_settles a now n Hc) as Hf.
  assert (match get_record (node_registry n) a with
    | None => fetch_thru a now n = (Raise (CoherenceError "artifact_not_found"), n)
    | Some rec => ∃ resp n', fetch_thru a now n = (Ok resp, n') ∧ settled a n n' ∧ fr_artifact_id resp = a ∧
        (entry_current n a rec → fr_version resp = version rec ∧ fr_content resp = content rec)
    end) as Hfetch.
  { destruct (get_record (node_registry n) a) as [rec|]; [|done]. destruct Hf as (n1 & Hf & Hs & _).
    eexists _, n1. split; [exact Hf|]. split; [exact Hs|]. by simpl. }
  destruct (dget (cache n) a) as [e|] eqn:Ee.
  2: { assert (Runtime.read me strategy audit aname iname a now n = fetch_thru a now n) as ->; [|exact Hfetch].
       unfold Runtime.read, mbind, proc_bind. unfold gets at 1. by rewrite Ee. }
  destruct (requires_refresh strategy e now) eqn:Ereq.
  { assert (Runtime.read me strategy audit aname iname a now n = fetch_thru a now n) as ->; [|exact Hfetch].
    unfold Runtime.read, mbind, proc_bind. unfold gets at 1. by rewrite Ee, Ereq. }
  assert (ce_state e ≠ INVALID) as Hne by (intros Hi; rewrite law_invalid in Ereq; congruence).
  destruct (Hm a e Ee Hne) as (rec & Hr & Hcur & Hor). rewrite Hr in *.
  destruct (law_read strategy e now) as (_ & _ & Lv & _).
  destruct (cached_read a now n e Ht Ee Ereq) as (n' & Hrun & R & C & D).
  eexists _, n'. split; [exact Hrun|]. split; [|split; [done|]].
  - split; rewrite ?R, ?C, ?D; try done.
    + intros x Hx. simplify_eq. exists rec. by split_and!.
    + intros _. split; rewrite ?R, ?C, ?D; [|done]. intros b e' He' Hne'.
      destruct (decide (b = a)) as [->|Hb].
      * rewrite dget_dset_eq in He'. simplify_eq. exists rec. by rewrite Lv.
      * rewrite dset_other in He' by done. by apply Hm.
  - simpl. intros Hv. destruct (Hv e Ee Hne) as [-> Hcc]. by rewrite Hcc.
Qed.

(** *** Publishing a version *)
Record published (a : UUID) (c : string) (u : Artifact) (sg : list InvalidationSignal) (n n' : Node) : Prop := {
  pb_calm : calm (node_registry n');
  pb_log : state_log (node_registry n') = state_log (node_registry n);
  pb_keys : (records (node_registry n')).*1 = (records (node_registry n)).*1;
  pb_others : ∀ b, b ≠ a → get_record (node_registry n') b = get_record (node_registry n) b;
  pb_rec : ∃ rec rec', get_record (node_registry n) a = Some rec ∧ get_record (node_registry n') a = Some rec' ∧
    artifact rec' = u ∧ version rec' = version rec + 1 ∧ content rec' = BStr c ∧
    (∀ p, p ≠ me → copy_revoked p rec rec') ∧ (∀ p, reclaimed rec' p → reclaimed rec p) ∧
    (sg = [] → ∀ p, p ≠ me → ¬ valid rec p);
  pb_signals : Forall (λ s, sig_artifact_id s = a) sg;
  pb_holds : holds n' a;
  pb_mine : my_copies n → my_copies n';
}.

(** The registry has moved to [rec']; the cache and the content map are updated. *)
Lemma published_at a c u sg now state n n2 n' rec rec' r' x : calm (node_registry n) →
  get_record (node_registry n) a = Some rec → at_rec a (node_registry n) rec' r' →
  rec_ok rec' → art_id (artifact rec') = a → artifact rec' = u → version rec' = version rec + 1 →
  content rec' = BStr c → valid rec' me → state ≠ INVALID →
  (∀ p, p ≠ me → copy_revoked p rec rec') → (∀ p, reclaimed rec' p → reclaimed rec p) →
  (sg = [] → ∀ p, p ≠ me → ¬ valid rec p) → Forall (λ s, sig_artifact_id s = a) sg →
  cache_put a (on_fetch strategy a (art_version u) state now) (n <| node_registry := r' |>) = (Ok x, n2) →
  node_registry n' = node_registry n2 → cache n' = cache n2 →
  content_by_artifact n' = dset (content_by_artifact n2) a (BStr c) → published a c u sg n n'.
Proof using Hlaws.
  intros Hc Hr Hat Hok Hid Hu Hver Hcont Hval Hstate Hrev Hslot Hnone Hsg Hput R C D.
  injection Hput as _ <-. change (node_registry n' = r') in R.
  assert (holds n' a) as Hh.
  { exists rec'. eexists. rewrite R, C, D. split_and!; [apply Hat|done|apply dget_dset_eq| |].
    - destruct (law_fetch strategy a (art_version u) state now) as (_ & _ & -> & _). by rewrite <-Hu.
    - rewrite Hcont. apply dget_dset_eq. }
  split; rewrite ?R; try done; try apply Hat.
  - eapply calm_at; [done|done|done|done|done|by exists c].
  - exists rec, rec'. split_and!; try done. apply Hat.
  - intros Hm. eapply my_copies_at; [done|done|..].
    + intros b Hb. rewrite R. by apply Hat.
    + intros b Hb. rewrite C. by apply dset_other.
    + exists c. by rewrite D.
Qed.

Lemma settled_published a c u sg n n1 n' : settled a n n1 → published a c u sg n1 n' → published a c u sg n n'.
Proof.
  intros S [C L K O (rec & rec' & Hr & Hr' & Hu & Hv & Hc & Hrev & Hslot & Hnone) G H1 M].
  destruct (get_record (node_registry n) a) as [rec0|] eqn:Er0.
  2: { exfalso. assert (get_record (node_registry n1) a = None); [|congruence]. by apply (record_domain _ _ _ (se_keys _ _ _ S)). }
  destruct (se_rec _ _ _ S _ Er0) as (x & Hx & Vx & Cx & Sx & Ux). assert (x = rec) as -> by congruence.
  split; [done|by rewrite L, (se_log _ _ _ S)|by rewrite K, (se_keys _ _ _ S)| | |done|done|].
  - intros b Hb. by rewrite O, (se_others _ _ _ S).
  - exists rec0, rec'. split_and!; [done|done|done|congruence|done| |by eauto|].
    + intros p Hp. eapply same_then_revoked; [by apply Sx|by apply Hrev].
    + intros Hsg p Hp Hv0. apply (Hnone Hsg p Hp). by apply (cs_valid _ _ _ (Sx p Hp)).
  - intros Hm. by apply M, (se_mine _ _ _ S).
Qed.

Lemma calm_write a now r rec : calm r → get_record r a = Some rec →
  ∃ r', write me a now false r =
      (Ok (replicate (length (cas_peers rec me)) (mkSignal a (version rec) now me)), r') ∧
    at_rec a r (write_rec me now rec) r'.
Proof.
  intros [Hok Hq _] Hr.
  pose proof (triple_write a r rec me now (reg_rec _ Hok _ _ Hr) (reg_id _ Hok _ _ Hr) r (at_rec_refl _ _ _ Hr)) as Ht.
  unfold write, abort_guard. destruct (write_impl me a now r) as [[res|e] r']; [|by destruct Ht as (_ & Hn & _)].
  destruct Ht as [-> Hat]. by exists r'.
Qed.

Lemma write_unknown a now r : get_record r a = None →
  write me a now false r = (Raise (CoherenceError "artifact_not_found"), r).
Proof.
  intros Hr. unfold write, abort_guard, write_impl, mbind, proc_bind, require_artifact.
  by rewrite (get_artifact_None _ _ Hr).
Qed.

Lemma calm_commit a c now r rec : calm r → get_record r a = Some rec → m_or_e (st rec me) = true →
  ∃ r' t, commit me a c now None None false r = (Ok (commit_updated rec None None, []), r') ∧
    at_rec a r (commit_rec r t me now rec c None None) r'.
Proof.
  intros [Hok Hq _] Hr Hme.
  pose proof (triple_commit a r rec me c now None None (reg_rec _ Hok _ _ Hr) (reg_id _ Hok _ _ Hr) Hme
    r (at_rec_refl _ _ _ Hr)) as Ht.
  unfold commit, abort_guard. destruct (commit_impl me a c now None None r) as [[res|e] r']; [|by destruct Ht as (_ & Hn & _)].
  destruct Ht as [-> [t Hat]]. by exists r', t.
Qed.

(** A pending revocation of somebody's copy means there is one. *)
Lemma no_signal_no_copy rec p : rec_ok rec → cas_peers rec me = [] → p ≠ me → ¬ valid rec p.
Proof.
  intros Hok Hn Hp Hv. assert (p ∈ (cas_peers rec me).*1) as Hin.
  { apply elem_cas_peers_keys; [apply Hok|done]. }
  rewrite Hn in Hin. by apply elem_of_nil in Hin.
Qed.

Lemma refresh_known a now n o n' : calm (node_registry n) → my_copies n → refresh a now n = (o, n') →
  get_record (node_registry n) a = None → o = Raise (CoherenceError "artifact_not_found") ∧ n' = n.
Proof using Hlaws Haudit.
  intros Hc [Hm _] Hrun Hn. unfold refresh_if_needed in Hrun.
  apply bind_inv in Hrun as [(stale & n1 & [= <- <-] & Hrun)|(e & [=] & _)].
  pose proof (fetch_through_settles a now n Hc) as Hf. rewrite Hn in Hf.
  destruct (needs_fetch strategy n a now) eqn:En.
  - rewrite (bind_Raise _ _ _ _ _ Hf) in Hrun. by injection Hrun as <- <-.
  - exfalso. unfold needs_fetch in En. destruct (dget (cache n) a) as [e|] eqn:Ee; [|done].
    assert (ce_state e ≠ INVALID) as Hne by (intros Hi; rewrite law_invalid in En; congruence).
    destruct (Hm a e Ee Hne) as (rec & Hr & _). congruence.
Qed.

Lemma runtime_write_publishes a c now n : calm (node_registry n) → my_copies n →
  match get_record (node_registry n) a with
  | None => runtime_write me strategy audit aname iname a c now None None n =
              (Raise (CoherenceError "artifact_not_found"), n)
  | Some _ => ∃ u sg n', runtime_write me strategy audit aname iname a c now None None n = (Ok (u, sg), n') ∧
                published a c u sg n n'
  end.
Proof using Hlaws Haudit.
  intros Hc Hm. destruct (refresh a now n) as [o1 n1] eqn:E1.
  destruct (get_record (node_registry n) a) as [rec0|] eqn:Er0.
  2: { destruct (refresh_known _ _ _ _ _ Hc Hm E1 Er0) as [-> ->].
       apply (bind_run _ _ n tt n); [done|]. exact (bind_Raise _ _ _ _ _ E1). }
  destruct (refresh_settles _ _ _ _ _ Hc E1) as [S1 H1]. destruct o1 as [x1|e1]; [|by destruct H1; congruence].
  destruct (se_rec _ _ _ S1 _ Er0) as (rec & Hr & _). pose proof (se_calm _ _ _ S1) as Hc1.
  pose proof (reg_rec _ (ca_ok _ Hc1) _ _ Hr) as Hok.
  destruct (calm_write a now _ rec Hc1 Hr) as (r2 & E2 & Hat2).
  destruct (write_rec_keeps me now rec Hok) as (Wa & Wc & _).
  assert (calm r2) as Hc2.
  { eapply calm_at; [done|done|done|by apply write_rec_ok| |].
    - rewrite Wa. by apply (reg_id _ (ca_ok _ Hc1)).
    - rewrite Wc. by eapply ca_text. }
  assert (m_or_e (st (write_rec me now rec) me) = true) as Hme by (rewrite write_rec_st by done; by rewrite decide_True).
  destruct (calm_commit a c now r2 _ Hc2 (ar_rec _ _ _ _ Hat2) Hme) as (r3 & t & E3 & Hat3).
  set (rec' := commit_rec r2 t me now (write_rec me now rec) c None None) in *.
  destruct (commit_rec_facts r2 t me now (write_rec me now rec) c None None (write_rec_ok _ _ _ Hok) Hme)
    as (Fa & Fv & Fcont & _ & Fst & _). fold rec' in Fa, Fv, Fcont, Fst.
  destruct (commit_rec_ok r2 t me now (write_rec me now rec) c None None (write_rec_ok _ _ _ Hok) Hme) as [Frok _].
  set (u := commit_updated (write_rec me now rec) None None) in *.
  set (sg := replicate (length (cas_peers rec me)) (mkSignal a (version rec) now me)) in *.
  destruct (cache_put a (on_fetch strategy a (art_version u) MODIFIED now) (n1 <| node_registry := r3 |>)) as [o4 n4] eqn:E4.
  assert (o4 = Ok tt) as -> by (by injection E4).
  destruct (view_text a (art_version u) c "write" now n4) as (h & n' & E5 & R & C & D).
  exists u, (sg ++ [])%list, n'. split; [|apply (settled_published _ _ _ _ _ n1); [done|]].
  - unfold runtime_write. apply (bind_run _ _ n tt n); [done|]. apply (bind_run _ _ _ _ _ _ E1).
    apply (bind_run _ _ n1 sg (n1 <| node_registry := r2 |>)); [unfold on_coordinator, zoom; by rewrite E2|].
    apply (bind_run _ _ (n1 <| node_registry := r2 |>) (u, []) (n1 <| node_registry := r3 |>));
      [unfold on_coordinator, zoom; change (node_registry (n1 <| node_registry := r2 |>)) with r2; by rewrite E3|].
    apply (bind_run _ _ _ _ _ _ E4). by apply (bind_run _ _ _ _ _ _ E5).
  - rewrite app_nil_r. assert (version (write_rec me now rec) = version rec) as Hver by (unfold version; by rewrite Wa).
    eapply (published_at a c u sg now MODIFIED n1 n4 n' rec rec' r3); try done.
    + by eapply at_rec_trans.
    + rewrite Fa. change (art_id (artifact (write_rec me now rec)) = a). rewrite Wa. by apply (reg_id _ (ca_ok _ Hc1)).
    + by rewrite Fv, Hver.
    + unfold valid. by rewrite Fst.
    + intros p Hp. by apply write_commit_copy.
    + intros p Hp. by eapply write_slot, commit_slot.
    + intros Hsg p Hp. apply no_signal_no_copy; [done| |done]. unfold sg in Hsg.
      by destruct (cas_peers rec me).
    + unfold sg. by apply Forall_replicate.
Qed.

(** *** Optimistic writes with a producer that only reads the entry *)
Lemma cas_call a v h now c n o r' : calm (node_registry n) →
  service_commit_cas me a v h now None (Some (BStr c)) false (node_registry n) = (o, r') →
  match o with
  | Ok (inl (u, sg)) => ∃ rec t, get_record (node_registry n) a = Some rec ∧ v = version rec ∧
      m_or_e (st rec me) = false ∧ (∀ q, q ≠ me → m_or_e (st rec q) = false) ∧ u = cas_updated a rec h None ∧
      sg = replicate (length (cas_peers rec me)) (mkSignal a (version rec + 1) now me) ∧
      at_rec a (node_registry n) (cas_final (node_registry n) t a me rec h None (Some (BStr c))) r'
  | _ => settled a n (n <| node_registry := r' |>)
  end.
Proof.
  intros Hc Hrun. pose proof (ca_ok _ Hc) as Hok. destruct o as [[[u sg]|d]|e].
  - destruct (cas_win_inv _ _ _ _ _ _ _ _ _ _ _ Hok Hrun) as (rec & Hr & Harb & _ & Hme & [= -> ->] & t & Hat).
    pose proof (cas_arbitrate_spec rec me v (rok_states _ (rok_core _ (reg_rec _ Hok _ _ Hr)))) as Hspec.
    rewrite Harb in Hspec. destruct Hspec as (-> & Hother & _). exists rec, t. by split_and!.
  - destruct (cas_ok_inv _ _ _ _ _ _ _ _ _ _ _ Hok Hrun) as (rec & Hr & _ & _ & Hres).
    eapply settled_at; [done|exact Hr|]. unfold cas_result_ok in Hres.
    destruct (cas_arbitrate rec me v) as [[]|]; [done|by destruct Hres|by destruct Hres as [? _]].
  - unfold service_commit_cas, abort_guard in Hrun. destruct (get_record (node_registry n) a) as [rec|] eqn:Er.
    2: { unfold commit_cas_impl, mbind, proc_bind, require_artifact in Hrun.
         rewrite (get_artifact_None _ _ Er) in Hrun. injection Hrun as _ <-. by apply settled_id. }
    destruct (dget (transient_by_agent rec) me) eqn:Et.
    { erewrite (cas_refused_transient a _ rec) in Hrun by done. injection Hrun as _ <-. by apply settled_id. }
    destruct (m_or_e (st rec me)) eqn:Em.
    { rewrite (cas_refused_holder a _ rec) in Hrun by done. injection Hrun as _ <-. by apply settled_id. }
    pose proof (triple_service_cas a _ rec me v h now None (Some (BStr c)) (reg_rec _ Hok _ _ Er) (reg_id _ Hok _ _ Er) Em Et
      _ (at_rec_refl _ _ _ Er)) as Ht. rewrite Hrun in Ht. destruct Ht as [Hat _]. by eapply settled_at.
Qed.

Section pure_cas.
Context (a : UUID) (make : ArtifactCacheEntry → outcome exn (string * option string)) (now : Z).
Local Abbreviation attempt := (cas_attempt me strategy audit aname iname a (λ e, of_outcome (make e)) now).

(** A win: the body was made from an entry at the version it replaces. *)
Definition won (n : Node) (u : Artifact) (sg : list InvalidationSignal) (n' : Node) : Prop :=
  ∃ e c h, make e = Ok (c, h) ∧ art_version u = ce_local_version e + 1 ∧ published a c u sg n n'.

Lemma won_settled n n1 u sg n' : settled a n n1 → won n1 u sg n' → won n u sg n'.
Proof.
  intros S (e & c & h & Hm & Hv & Hp). exists e, c, h. split_and!; [done|done|]. by eapply settled_published.
Qed.

Lemma fresh_entry_settles n o n' : calm (node_registry n) →
  fresh_entry me strategy audit aname iname a now n = (o, n') → settled a n n'.
Proof using Hlaws Haudit.
  intros Hc Hrun. unfold fresh_entry in Hrun.
  apply bind_inv in Hrun as [(cached & n1 & [= <- <-] & Hrun)|(e & [=] & _)].
  destruct (dget (cache n) a); [injection Hrun as <- <-; by apply settled_refl|].
  pose proof (fetch_through_settles a now n Hc) as Hf. destruct (get_record (node_registry n) a).
  - destruct Hf as (n1 & Hf & S & _). apply bind_inv in Hrun as [(x & n2 & E & Hrun)|(e & E & _)]; [|congruence].
    assert (n2 = n1) as -> by congruence.
    apply bind_inv in Hrun as [(y & n3 & [= <- <-] & Hrun)|(e & [=] & _)].
    destruct (dget (cache n1) a); by injection Hrun as <- <-.
  - apply bind_inv in Hrun as [(x & n2 & E & Hrun)|(e & E & _)]; [congruence|].
    assert (n' = n) as -> by congruence. by apply settled_refl.
Qed.

Lemma cas_attempt_cases n o n' : calm (node_registry n) → attempt n = (o, n') →
  match o with
  | Ok (inl (u, sg)) => won n u sg n'
  | _ => settled a n n'
  end.
Proof using Hlaws Haudit.
  intros Hc Hrun. unfold cas_attempt in Hrun.
  apply bind_inv in Hrun as [(entry & n1 & E1 & Hrun)|(e & E1 & ->)];
    apply fresh_entry_settles in E1 as S1; [|done..]. pose proof (se_calm _ _ _ S1) as Hc1.
  apply bind_inv in Hrun as [([c h] & n2 & [= Em <-] & Hrun)|(e & [= Em <-] & ->)]; [|done].
  apply bind_inv in Hrun as [(hash & n3 & [= Eh <-] & Hrun)|(e & [= Eh <-] & ->)]; [|done].
  apply bind_inv in Hrun as [(res & n4 & E4 & Hrun)|(e & E4 & ->)]; apply on_coordinator_inv in E4 as (r4 & E4 & ->);
    pose proof (cas_call _ _ _ _ _ _ _ _ Hc1 E4) as Hcall; [|by eapply settled_trans].
  destruct res as [[u sg]|d].
  - destruct Hcall as (rec & t & Hr & Hv & Hme & Hother & Hu & Hsg & Hat).
    pose proof (reg_rec _ (ca_ok _ Hc1) _ _ Hr) as Hok. pose proof (rok_states _ (rok_core _ Hok)) as Hwf.
    apply bind_inv in Hrun as [(x5 & n5 & E5 & Hrun)|(e & [=] & _)].
    destruct (view_text a (art_version u) c "write_cas" now n5) as (h6 & n6 & E6 & R & C & D).
    rewrite (bind_Ok _ _ _ _ _ E6) in Hrun. injection Hrun as <- <-. exists entry, c, h. split_and!; [done| |].
    + rewrite Hu. simpl. by rewrite Hv.
    + eapply settled_published; [exact S1|]. eapply (published_at a c u sg now SHARED n1 n5 n6 rec _ r4 x5); try done.
      * by apply cas_final_ok.
      * by rewrite cas_final_artifact.
      * by rewrite cas_final_artifact, Hu.
      * by apply cas_final_version.
      * by rewrite cas_final_content.
      * unfold valid. rewrite cas_final_st by done. by rewrite decide_True.
      * intros p Hp. by apply cas_copy.
      * intros p. rewrite cas_slot by done. done.
      * intros Hn p Hp. apply no_signal_no_copy; [done| |done]. rewrite Hsg in Hn. by destruct (cas_peers rec me).
      * rewrite Hsg. by apply Forall_replicate.
  - pose proof (se_calm _ _ _ Hcall) as Hc4. pose proof (fetch_through_settles a now _ Hc4) as Hf.
    assert (settled a n (n1 <| node_registry := r4 |>)) as S4 by by eapply settled_trans.
    destruct (get_record (node_registry (n1 <| node_registry := r4 |>)) a).
    + destruct Hf as (n5 & Hf & S5 & _). rewrite (bind_Ok _ _ _ _ _ Hf) in Hrun. injection Hrun as <- <-.
      by eapply settled_trans.
    + rewrite (bind_Raise _ _ _ _ _ Hf) in Hrun. by injection Hrun as <- <-.
Qed.

Lemma cas_loop_cases left last n o n' : calm (node_registry n) →
  cas_loop me strategy audit aname iname a (λ e, of_outcome (make e)) now left last n = (o, n') →
  match o with Ok (u, sg) => won n u sg n' | Raise _ => settled a n n' end.
Proof using Hlaws Haudit.
  revert last n. induction left as [|left IH]; intros last n Hc Hrun; cbn [cas_loop] in Hrun.
  { injection Hrun as <- <-. by apply settled_refl. }
  apply bind_inv in Hrun as [([win|cur] & n1 & E1 & Hrun)|(e & E1 & ->)];
    apply (cas_attempt_cases _ _ _ Hc) in E1.
  - destruct win as [u sg]. by injection Hrun as <- <-.
  - specialize (IH _ _ (se_calm _ _ _ E1) Hrun). destruct o as [[u sg]|e].
    + eapply won_settled; [exact E1|exact IH].
    + eapply settled_trans; [exact E1|exact IH].
  - done.
Qed.

Lemma write_cas_cases n o n' : calm (node_registry n) →
  Runtime.write_cas me strategy audit aname iname a (λ e, of_outcome (make e)) now n = (o, n') →
  match o with Ok (u, sg) => won n u sg n' | Raise _ => settled a n n' end.
Proof using Hlaws Haudit.
  intros Hc Hrun. unfold Runtime.write_cas in Hrun.
  apply bind_inv in Hrun as [(x & n1 & E1 & Hrun)|(e & E1 & ->)]; apply refresh_settles in E1 as [S1 _]; try done.
  apply cas_loop_cases in Hrun; [|by eapply se_calm]. destruct o as [[u sg]|e]; [by eapply won_settled|by eapply settled_trans].
Qed.
End pure_cas.

(** *** Handlers of the event bus *)

(** What a handler of this agent leaves of an artifact's record. *)
Record handled (a : UUID) (n n' : Node) : Prop := {
  hd_calm : calm (node_registry n');
  hd_log : state_log (node_registry n') = state_log (node_registry n);
  hd_keys : (records (node_registry n')).*1 = (records (node_registry n)).*1;
  hd_others : ∀ b, b ≠ a → get_record (node_registry n') b = get_record (node_registry n) b;
  hd_mine : my_copies n';
}.

Lemma invalidated_entry a c v t b e : dget (Cache.invalidate a v t c) b = Some e → ce_state e ≠ INVALID →
  b ≠ a ∧ dget c b = Some e.
Proof.
  unfold Cache.invalidate. intros He Hne. destruct (decide (b = a)) as [->|Hb].
  - exfalso. destruct (dget c a); rewrite dget_dset_eq in He; by simplify_eq.
  - split; [done|]. destruct (dget c a); by rewrite dset_other in He.
Qed.

Lemma invalidation_handled signal n rec : calm (node_registry n) →
  get_record (node_registry n) (sig_artifact_id signal) = Some rec → ¬ valid rec me →
  copy_pending (node_registry n) me (cache n) (content_by_artifact n) (sig_artifact_id signal) →
  (∀ b, b ≠ sig_artifact_id signal → copy_ok (node_registry n) me (cache n) (content_by_artifact n) b) →
  texts (content_by_artifact n) →
  ∃ n' rec', handle_invalidation me signal n = (Ok tt, n') ∧ handled (sig_artifact_id signal) n n' ∧
    get_record (node_registry n') (sig_artifact_id signal) = Some rec' ∧
    (∀ p, copy_same p rec rec') ∧
    (∀ p, dget (state_by_agent rec) p = Some INVALID → dget (state_by_agent rec') p = Some INVALID) ∧
    (∀ p, m_or_e (st rec' p) = m_or_e (st rec p)).
Proof.
  set (a := sig_artifact_id signal). intros Hc Hr Hnv Hpend Hoth Htext. pose proof (ca_ok _ Hc) as Hok.
  destruct (handle_invalidation me signal n) as [o n'] eqn:Hrun. unfold handle_invalidation in Hrun. fold a in Hrun.
  pose proof (triple_invalidate a (node_registry n) rec me (sig_new_version signal) (sig_issuer_agent_id signal)
    (sig_issued_at_tick signal) (reg_rec _ Hok _ _ Hr) (reg_id _ Hok _ _ Hr) _ (at_rec_refl _ _ _ Hr)) as Ht.
  apply bind_inv in Hrun as [(verdict & n1 & Ei & Hrun)|(e & Ei & _)]; apply on_coordinator_inv in Ei as (r1 & Ei & ->);
    unfold invalidate, abort_guard in Ei; rewrite Ei in Ht; [|exfalso; destruct Ht as (_ & Hn & _); by apply Hn, Hc].
  apply bind_inv in Hrun as [(known & n2 & [= <- <-] & Hrun)|(e & [=] & _)].
  assert (has_artifact r1 a = true) as Hknown.
  { apply dmem_true. destruct (superseded rec me _ _); destruct Ht as [_ Hat]; eexists; apply Hat. }
  change (node_registry (n <| node_registry := r1 |>)) with r1 in Hrun. rewrite Hknown, andb_true_r in Hrun.
  destruct (superseded rec me _ _) eqn:Es; destruct Ht as [-> Hat]; injection Hrun as <- <-.
  - pose proof (settled_at n a rec r1 Hc Hr Hat) as S. exists (n <| node_registry := r1 |>), rec.
    split; [done|]. split_and!; [|apply Hat|done|done|done]. split; [apply S|apply S|apply S|apply S|].
    apply (se_mine _ _ _ S). split; [|done]. intros b. destruct (decide (b = a)) as [->|Hb]; [|by apply Hoth].
    intros e He Hne. destruct (Hpend e He Hne) as (x & Hx & _ & [Hs|Hs]); simplify_eq.
    + exfalso. unfold superseded in Es. rewrite (decide_True (P := _ = Some INVALID)) in Es by done. by case_decide.
    + exists rec. by split_and!; [|intros ?|right].
  - set (rec' := invalidate_rec me (sig_issued_at_tick signal) rec) in *. eexists _, rec'. split; [done|].
    assert (∀ p, st rec' p = if decide (me = p) then INVALID else st rec p) as Hst
      by apply (st_transition me INVALID "invalidate" (sig_issued_at_tick signal) rec).
    assert (∀ p, copy_same p rec rec') as Hsame.
    { intros p. destruct (decide (p = me)) as [->|Hp]; [|by apply invalidate_copy]. split.
      - apply (version_transition me INVALID "invalidate" (sig_issued_at_tick signal) rec).
      - apply (transition_content me INVALID "invalidate" (sig_issued_at_tick signal) rec).
      - unfold valid at 1. rewrite Hst, decide_True by done. split; [done|]. by intros ?%Hnv.
      - apply invalidate_slot. }
    split_and!; [|apply Hat|done| |].
    + split; simpl; [|apply Hat..|].
      * eapply calm_at; [done|done|exact Hat| | |].
        -- apply without_transient_ok, invalidation_ok. by eapply (reg_rec _ Hok).
        -- change (art_id (artifact (apply_transition me INVALID "invalidate" (sig_issued_at_tick signal) rec)) = a).
           rewrite transition_artifact. by apply (reg_id _ Hok).
        -- rewrite (cs_content _ _ _ (Hsame me)). by eapply ca_text.
      * split; [|done]. intros b e He Hne. simpl in He. apply invalidated_entry in He as [Hb He]; [|done].
        destruct (Hoth b Hb e He Hne) as (x & Hx & Hy). exists x. split; [|done]. simpl.
        by rewrite (ar_others _ _ _ _ Hat).
    + intros p Hp. change (dget (state_by_agent (apply_transition me INVALID "invalidate" (sig_issued_at_tick signal) rec)) p
        = Some INVALID). rewrite transition_states, dget_dset. by case_decide.
    + intros p. rewrite Hst. case_decide; [subst|done]. unfold valid in Hnv. by destruct (st rec p).
Qed.

Lemma set_agent_state_quiet a p state trigger tick h r0 rec r : log_quiet r0 → at_rec a r0 rec r →
  ∃ r', set_agent_state a p state trigger tick h r = (Ok tt, r') ∧
    at_rec a r0 (apply_transition p state trigger tick rec) r'.
Proof.
  intros Hq Hat.
  assert (triple (at_rec a r0 rec) (set_agent_state a p state trigger tick h)
    (λ _, at_rec a r0 (apply_transition p state trigger tick rec)) (λ _ _, False)) as Ht.
  { unfold set_agent_state. eapply triple_bind; [apply triple_require_record|]. intros x.
    intros s [Hx Hs]. subst x. eapply (triple_bind (at_rec a r0 rec)); [apply triple_put_record| |exact Hs]. intros u.
    eapply triple_bind; [apply (triple_emit _ _ (apply_transition p state trigger tick rec)); by intros|].
    intros u' s' Hs'. exact Hs'. }
  specialize (Ht r Hat). destruct (set_agent_state a p state trigger tick h r) as [[[]|e] r']; [|done]. by exists r'.
Qed.

Lemma clear_transient_run a p r0 rec r : at_rec a r0 rec r →
  ∃ r', clear_agent_transient a p r = (Ok tt, r') ∧ at_rec a r0 (without_transient p rec) r'.
Proof.
  intros Hat. pose proof (triple_clear_agent_transient a r0 rec p r Hat) as Ht.
  destruct (clear_agent_transient a p r) as [[[]|e] r']; [|done]. by exists r'.
Qed.

Lemma update_handled a c now w n rec : calm (node_registry n) → get_record (node_registry n) a = Some rec →
  content rec = BStr c → me ≠ w → valid rec w → (∀ q, q ≠ w → m_or_e (st rec q) = false) → my_copies n →
  ∃ n' rec', handle_update me strategy audit aname iname a (version rec) c now (Some w) n = (Ok tt, n') ∧
    handled a n n' ∧ get_record (node_registry n') a = Some rec' ∧ valid rec' w ∧
    (∀ q, q ≠ w → m_or_e (st rec' q) = false) ∧ version rec' = version rec ∧ content rec' = content rec ∧
    (∀ p, p ≠ me → copy_same p rec rec') ∧ (∀ p, reclaimed rec' p → reclaimed rec p).
Proof using Hlaws Haudit.
  intros Hc Hr Hcont Hne Hw Hall Hm. pose proof (ca_ok _ Hc) as Hok. pose proof (reg_rec _ Hok _ _ Hr) as Hrok.
  set (r := node_registry n) in *. set (rec' := update_rec me w now rec).
  set (n1 := (n <| cache ::= λ d, dset d a (on_fetch strategy a (version rec) SHARED now) |>)).
  destruct (view_text a (version rec) c "broadcast" now n1) as (h & n2 & E2 & R & C & D).
  change (node_registry n2 = r) in R.
  destruct (set_agent_state_quiet a me SHARED "update" now None r rec r (ca_quiet _ Hc) (at_rec_refl _ _ _ Hr)) as (r3 & E3 & A3).
  destruct (clear_transient_run a me r _ r3 A3) as (r4 & E4 & A4).
  destruct (set_agent_state_quiet a w SHARED "update" now None r _ r4 (ca_quiet _ Hc) A4) as (r5 & E5 & A5).
  destruct (clear_transient_run a w r _ r5 A5) as (r6 & E6 & A6).
  change (at_rec a r rec' r6) in A6. exists (n2 <| node_registry := r6 |>), rec'.
  assert (holds (n2 <| node_registry := r6 |>) a) as Hh.
  { exists rec', (on_fetch strategy a (version rec) SHARED now). split_and!.
    - apply A6.
    - apply update_self.
    - change (dget (cache n2) a = Some (on_fetch strategy a (version rec) SHARED now)). rewrite C. apply dget_dset_eq.
    - destruct (law_fetch strategy a (version rec) SHARED now) as (_ & _ & -> & _). unfold version, rec'. by rewrite update_rec_artifact.
    - change (dget (content_by_artifact n2) a = Some (content rec')). unfold rec'. rewrite D, update_rec_content, Hcont.
      apply dget_dset_eq. }
  split_and!; [| |apply A6| | | | | |].
  - unfold handle_update. apply (bind_run _ _ n (Some (artifact rec)) n).
    { unfold gets, get_artifact. fold r. by rewrite Hr. }
    apply (bind_run _ _ n (dget (state_by_agent rec) me) n).
    { unfold gets, get_agent_state. fold r. by rewrite Hr. }
    rewrite bool_decide_eq_false_2 by (unfold version; lia). rewrite in_m_or_e_st, Hall by done. simpl orb.
    apply (bind_run _ _ n tt n1); [done|]. apply (bind_run _ _ _ _ _ _ E2).
    apply (bind_run _ _ n2 tt (n2 <| node_registry := r3 |>)); [unfold on_coordinator, zoom; rewrite R; by rewrite E3|].
    apply (bind_run _ _ _ tt (n2 <| node_registry := r4 |>));
      [unfold on_coordinator, zoom; change (node_registry (n2 <| node_registry := r3 |>)) with r3; by rewrite E4|].
    apply (bind_run _ _ _ tt (n2 <| node_registry := r5 |>));
      [unfold on_coordinator, zoom; change (node_registry (n2 <| node_registry := r4 |>)) with r4; by rewrite E5|].
    unfold on_coordinator, zoom. change (node_registry (n2 <| node_registry := r5 |>)) with r5. by rewrite E6.
  - split; simpl; [|apply A6..|].
    + eapply calm_at; [done|done|exact A6|by apply update_rec_ok| |].
      * unfold rec'. rewrite update_rec_artifact. by apply (reg_id _ Hok).
      * unfold rec'. rewrite update_rec_content. by exists c.
    + eapply (my_copies_at n); [done|done|..]; simpl.
      * intros b Hb. by apply A6.
      * intros b Hb. rewrite C. by apply dset_other.
      * exists c. by rewrite D.
  - unfold valid, rec'. rewrite update_rec_st. by rewrite decide_True by naive_solver.
  - intros q Hq. unfold rec'. rewrite update_rec_st. case_decide; [done|by apply Hall].
  - unfold version, rec'. by rewrite update_rec_artifact.
  - apply update_rec_content.
  - intros p Hp. by apply update_copy.
  - intros p Hp. by apply (update_rec_slot me w now rec p).
Qed.
End node.
