(* ===== verification/Cluster.v ===== *)
(** The adapter as a whole: a cluster of caching agents behaves as one versioned store.

    [cluster_ok] says that every valid cache entry of every registered agent is the
    coordinator's current version and body, unless the copy was reclaimed by the
    crash-recovery sweep.  Every adapter call keeps it, so reads are current
    ([adapter_refines_store]); a reclaimed copy is the exception, and it is real
    ([stale_only_if_reclaimed]). *)
From S2P Require Import Prelude Core Hashing Retention Registry RegistryFacts CommitFacts Service.
From S2P Require Import ServiceFacts RevocationFacts Evolution Sessions SessionFacts Checkpoints System.
From S2P Require Import Safety Operations Strategies Runtime Agents Adapter CopyFacts Copies.

Open Scope Z_scope.
Open Scope string_scope.

(** ** Registry steps that move no copy, and sweeps *)
Lemma calm_ext r r' : records r' = records r → state_log r' = state_log r → calm r → calm r'.
Proof.
  intros Hr Hl [[W I R] Q T]. unfold get_record in *. split; [split|..]; unfold get_record, log_quiet; rewrite ?Hr, ?Hl; done.
Qed.

Record swept (r r' : Registry) : Prop := {
  sw_calm : calm r';
  sw_keys : (records r').*1 = (records r).*1;
  sw_rec : ∀ a rec, get_record r a = Some rec → ∃ rec', get_record r' a = Some rec' ∧ ∀ p, copy_swept p rec rec';
}.

Lemma swept_refl r : calm r → swept r r.
Proof. intros Hc. split; [done|done|]. intros a rec Hr. by exists rec. Qed.

Lemma swept_trans r1 r2 r3 : swept r1 r2 → swept r2 r3 → swept r1 r3.
Proof.
  intros [C1 K1 R1] [C2 K2 R2]. split; [done|congruence|]. intros a rec Hr.
  destruct (R1 _ _ Hr) as (x & Hx & Sx). destruct (R2 _ _ Hx) as (y & Hy & Sy). exists y. split; [done|].
  intros p. by trans x.
Qed.

Lemma swept_current r r' a : swept r r' → current r' a = current r a.
Proof.
  intros S. unfold current. destruct (get_record r a) as [rec|] eqn:Er.
  - destruct (sw_rec _ _ S _ _ Er) as (rec' & -> & Hs). simpl. by rewrite (cw_version _ _ _ (Hs 0%N)), (cw_content _ _ _ (Hs 0%N)).
  - by rewrite (record_domain _ _ _ (sw_keys _ _ S) Er).
Qed.

Lemma swept_copy r r' p c d a : swept r r' → copy_ok r p c d a → copy_ok r' p c d a.
Proof.
  intros S Hok e He Hne. destruct (Hok e He Hne) as (rec & Hr & _).
  destruct (sw_rec _ _ S _ _ Hr) as (rec' & Hr' & Hs).
  exact (copy_ok_swept r r' p c d a rec rec' Hr Hr' (Hs p) Hok e He Hne).
Qed.

Lemma reclaim_swept now hb hold a ag r : calm r → ∃ k r', reclaim_pair now hb hold a ag r = (Ok k, r') ∧ swept r r'.
Proof.
  intros Hc. destruct (get_record r a) as [rec|] eqn:Er.
  2: { exists 0, r. split; [|by apply swept_refl]. unfold reclaim_pair, mbind, proc_bind. unfold gets.
       unfold get_agent_state. by rewrite Er. }
  pose proof (ca_ok _ Hc) as Hok. pose proof (reg_rec _ Hok _ _ Er) as Hrok.
  pose proof (triple_reclaim a r rec now hb hold ag Hrok (reg_id _ Hok _ _ Er) Er r (at_rec_refl _ _ _ Er)) as Ht.
  destruct (reclaim_pair now hb hold a ag r) as [[k|e] r']; [|exfalso; destruct Ht as (_ & Hn & _); by apply Hn, Hc].
  exists k, r'. split; [done|]. destruct (reclaims r rec now hb hold a ag) as [trigger|]; destruct Ht as [_ Hat].
  - split.
    + eapply calm_at; [done|done|exact Hat| | |].
      * apply with_reclamation_ok, invalidation_ok. done.
      * change (art_id (artifact (apply_transition ag INVALID trigger now rec)) = a). rewrite transition_artifact.
        by apply (reg_id _ Hok).
      * rewrite (cw_content _ _ _ (reclaim_copy ag trigger now rec ag)). by eapply ca_text.
    + apply Hat.
    + intros b x Hx. destruct (decide (b = a)) as [->|Hb].
      * assert (x = rec) as -> by congruence. exists (reclaim_rec ag trigger now rec). split; [apply Hat|]. intros p. apply reclaim_copy.
      * exists x. split; [|done]. by rewrite (ar_others _ _ _ _ Hat).
  - split; [|apply Hat|].
    + eapply calm_at; [done|done|exact Hat|done|by apply (reg_id _ Hok)|by eapply ca_text].
    + intros b x Hx. exists x. split; [|done]. destruct (decide (b = a)) as [->|Hb].
      * assert (x = rec) as -> by congruence. apply Hat.
      * by rewrite (ar_others _ _ _ _ Hat).
Qed.

Lemma sweep_swept now hb hold r : calm r → ∃ o r', enforce_stable_grant_timeouts now hb hold r = (o, r') ∧ swept r r'.
Proof.
  intros Hc. unfold enforce_stable_grant_timeouts. case_decide; [eexists _, r; split; [done|by apply swept_refl]|].
  case_decide; [eexists _, r; split; [done|by apply swept_refl]|].
  unfold mbind at 1, proc_bind at 1. unfold gets at 1. generalize (grant_snapshot r). intros l. generalize 0.
  revert r Hc. induction l as [|x l IH]; intros r Hc k; simpl; [eexists _, r; split; [done|by apply swept_refl]|].
  destruct (reclaim_swept now hb hold x.1 x.2 r Hc) as (k1 & r1 & E1 & S1).
  destruct (IH r1 (sw_calm _ _ S1) (k + k1)) as (o & r2 & E2 & S2). exists o, r2. split; [|by eapply swept_trans].
  apply (bind_run _ _ r (k + k1) r1); [by apply (bind_run _ _ _ _ _ _ E1)|exact E2].
Qed.

(** ** The invariant *)
Section cluster.
Context {T : Type} `{Hlaws : StrategyLaws T}.
Context (strategy : T) (crash : CrashRecoveryConfig).
Context (audit : option (list (AuditEntry * bool) → AuditEntry → bool)).
Context (instance : option string) (Haudit : audit_quiet audit).

Definition binding_ok (r : Registry) (b : AgentBinding) : Prop :=
  (∀ a, copy_ok r (ab_agent_id b) (ab_cache b) (ab_content b) a) ∧ texts (ab_content b).

Record wired (ad : Adapter) : Prop := {
  wi_wf : dict_wf (ad_agents ad);
  wi_name : ∀ name b, dget (ad_agents ad) name = Some b → ab_name b = name;
  wi_ids : ∀ n1 n2 b1 b2, dget (ad_agents ad) n1 = Some b1 → dget (ad_agents ad) n2 = Some b2 →
    ab_agent_id b1 = ab_agent_id b2 → n1 = n2;
  wi_invalidation : ∀ name b, dget (ad_agents ad) name = Some b →
    dget (ad_invalidation_handlers ad) (ab_agent_id b) = Some name;
  wi_update : ∀ name b, dget (ad_agents ad) name = Some b →
    dget (ad_update_handlers ad) (ab_agent_id b) = Some name;
}.

(** Without crash recovery nothing is ever reclaimed. *)
Definition unswept (r : Registry) : Prop :=
  enabled crash = false → ∀ a rec p, get_record r a = Some rec → ¬ reclaimed rec p.

Record cluster_ok (ad : Adapter) : Prop := {
  cl_calm : calm (ad_registry ad);
  cl_wired : wired ad;
  cl_copies : ∀ name b, dget (ad_agents ad) name = Some b → binding_ok (ad_registry ad) b;
  cl_unswept : unswept (ad_registry ad);
}.

(** ** Loading and storing a runtime *)
Definition same_identity (b b' : AgentBinding) : Prop := ab_name b' = ab_name b ∧ ab_agent_id b' = ab_agent_id b.

Lemma store_shape b n ad : ∃ b', same_identity b b' ∧ ab_cache b' = cache n ∧ ab_content b' = content_by_artifact n ∧
  ad_agents (store b n ad) = dset (ad_agents ad) (ab_name b) b' ∧
  ad_registry (store b n ad) = node_registry n ∧
  ad_invalidation_handlers (store b n ad) = ad_invalidation_handlers ad ∧
  ad_update_handlers (store b n ad) = ad_update_handlers ad.
Proof. unfold store. destruct ad as [r [s|] c ags ih uh l f]; simpl; eexists; split_and!; try reflexivity; by split. Qed.

Lemma store_wired b n ad : wired ad → dget (ad_agents ad) (ab_name b) = Some b → wired (store b n ad).
Proof.
  intros [W N I H1 H2] Hb. destruct (store_shape b n ad) as (b' & [Hn Hi] & _ & _ & Ea & _ & Eh & Eu).
  assert (∀ name x, dget (ad_agents (store b n ad)) name = Some x → ∃ y, dget (ad_agents ad) name = Some y ∧ same_identity y x) as Hx.
  { intros name x. rewrite Ea, dget_dset. case_decide as Hd; [|intros Hx; by exists x].
    intros [= <-]. subst name. exists b. by split. }
  split.
  - rewrite Ea. by apply dict_wf_dset.
  - intros name x Hd. destruct (Hx _ _ Hd) as (y & Hy & [-> _]). by apply N.
  - intros n1 n2 x1 x2 D1 D2 E. destruct (Hx _ _ D1) as (y1 & Y1 & [_ E1]), (Hx _ _ D2) as (y2 & Y2 & [_ E2]).
    eapply I; [done|done|congruence].
  - intros name x Hd. destruct (Hx _ _ Hd) as (y & Hy & [_ ->]). rewrite Eh. by apply H1.
  - intros name x Hd. destruct (Hx _ _ Hd) as (y & Hy & [_ ->]). rewrite Eu. by apply H2.
Qed.

(** The bindings after a store: the runtime that ran, and the others. *)
Lemma store_binding b n ad name x : wired ad → dget (ad_agents ad) (ab_name b) = Some b →
  dget (ad_agents (store b n ad)) name = Some x →
  (name = ab_name b ∧ ab_agent_id x = ab_agent_id b ∧ ab_cache x = cache n ∧ ab_content x = content_by_artifact n) ∨
  (name ≠ ab_name b ∧ dget (ad_agents ad) name = Some x ∧ ab_agent_id x ≠ ab_agent_id b).
Proof.
  intros W Hb. destruct (store_shape b n ad) as (b' & [Hn Hi] & Hc & Hd & Ea & _). rewrite Ea, dget_dset.
  case_decide as Hk; [intros [= <-]; left; by subst|]. intros Hx. right. split_and!; [done|done|]. intros E.
  by apply Hk, eq_sym, (wi_ids _ W name (ab_name b) x b).
Qed.

Lemma load_copies ad b : binding_ok (ad_registry ad) b ↔ my_copies (ab_agent_id b) (load ad b).
Proof. split; [intros [H1 H2]; by split|intros [H1 H2]; by split]. Qed.

(** A runtime that settles its own copy keeps the cluster in order. *)
Lemma cluster_settled ad name b a n' : cluster_ok ad → dget (ad_agents ad) name = Some b →
  settled (ab_agent_id b) a (load ad b) n' →
  cluster_ok (store b n' ad) ∧ ∀ x, current (ad_registry (store b n' ad)) x = current (ad_registry ad) x.
Proof.
  intros [Hc W Hcp Hu] Hb S. assert (ab_name b = name) as Hname by by apply (wi_name _ W). subst name.
  destruct (store_shape b n' ad) as (b' & _ & _ & _ & _ & Er & _). split.
  2: { intros x. rewrite Er. apply (settled_current _ _ _ _ x S). }
  split; rewrite ?Er; [apply S|by apply store_wired| |].
  - intros name x Hx. destruct (store_binding _ _ _ _ _ W Hb Hx) as [(-> & Ei & Ec & Ed)|(Hne & Hx' & Hid)].
    + destruct (se_mine _ _ _ _ S) as [M1 M2]; [by apply load_copies, (Hcp _ _ Hb)|].
      split; [|by rewrite Ed]. intros y. rewrite Ei, Ec, Ed. apply M1.
    + destruct (Hcp _ _ Hx') as [M1 M2]. split; [|done]. intros y. destruct (decide (y = a)) as [->|Hy].
      * destruct (get_record (ad_registry ad) a) as [rec|] eqn:Eg.
        -- destruct (se_rec _ _ _ _ S rec Eg) as (rec' & Hr' & _ & _ & Hs & _).
           eapply copy_ok_swept; [exact Eg|exact Hr'|by apply same_swept, Hs|apply M1].
        -- eapply copy_ok_same; [|apply M1]. rewrite Eg. by apply (record_domain _ _ _ (se_keys _ _ _ _ S)).
      * eapply copy_ok_same; [by apply (se_others _ _ _ _ S)|apply M1].
  - intros Hen y rec p Hr Hrec. destruct (decide (y = a)) as [->|Hy].
    + destruct (get_record (ad_registry ad) a) as [rec0|] eqn:Eg.
      * destruct (se_rec _ _ _ _ S rec0 Eg) as (rec' & Hr' & _ & _ & _ & Hs). simplify_eq. by eapply Hu, Hs.
      * assert (get_record (node_registry n') a = None) by by apply (record_domain _ _ _ (se_keys _ _ _ _ S)). congruence.
    + rewrite (se_others _ _ _ _ S) in Hr by done. by eapply Hu.
Qed.

(** ** Delivering the notices of a new version *)
Definition registered (ad : Adapter) (p : UUID) : Prop :=
  ∃ name b, dget (ad_agents ad) name = Some b ∧ ab_agent_id b = p.

Lemma store_registered b n ad p : wired ad → dget (ad_agents ad) (ab_name b) = Some b →
  registered (store b n ad) p ↔ registered ad p.
Proof.
  intros W Hb. destruct (store_shape b n ad) as (b' & [Hn Hi] & _ & _ & Ea & _). split.
  - intros (name & x & Hx & Hp). destruct (store_binding _ _ _ _ _ W Hb Hx) as [(-> & Ei & _)|(_ & Hx' & _)].
    + exists (ab_name b), b. split; [done|congruence].
    + by exists name, x.
  - intros (name & x & Hx & Hp). destruct (decide (name = ab_name b)) as [->|Hne].
    + exists (ab_name b), b'. rewrite Ea, dget_dset_eq. split; [done|]. congruence.
    + exists name, x. by rewrite Ea, dget_dset, decide_False by congruence.
Qed.

(** The runtime of the writer is not touched by what the others do. *)
Definition writer_kept (w : UUID) (ad ad' : Adapter) : Prop :=
  ∀ name b, dget (ad_agents ad) name = Some b → ab_agent_id b = w → dget (ad_agents ad') name = Some b.

Lemma writer_kept_trans w ad1 ad2 ad3 : writer_kept w ad1 ad2 → writer_kept w ad2 ad3 → writer_kept w ad1 ad3.
Proof. unfold writer_kept. eauto. Qed.

Lemma store_writer_kept w b n ad : wired ad → dget (ad_agents ad) (ab_name b) = Some b → ab_agent_id b ≠ w →
  writer_kept w ad (store b n ad).
Proof.
  intros W Hb Hw name x Hx Hxw. destruct (store_shape b n ad) as (b' & _ & _ & _ & -> & _).
  rewrite dget_dset, decide_False; [done|]. intros <-. congruence.
Qed.

(** The writer has published; the other copies of the artifact are revoked, and
    their holders are being told. *)
Record revoking (w a : UUID) (ad : Adapter) : Prop := {
  rv_calm : calm (ad_registry ad);
  rv_wired : wired ad;
  rv_unswept : unswept (ad_registry ad);
  rv_rec : ∃ rec, get_record (ad_registry ad) a = Some rec ∧ valid rec w ∧ ∀ q, q ≠ w → ¬ valid rec q;
  rv_writer : ∀ name b, dget (ad_agents ad) name = Some b → ab_agent_id b = w → binding_ok (ad_registry ad) b;
  rv_peers : ∀ name b, dget (ad_agents ad) name = Some b → ab_agent_id b ≠ w →
    (∀ x, x ≠ a → copy_ok (ad_registry ad) (ab_agent_id b) (ab_cache b) (ab_content b) x) ∧ texts (ab_content b) ∧
    copy_pending (ad_registry ad) (ab_agent_id b) (ab_cache b) (ab_content b) a;
}.

Definition notified (D : UUID → Prop) (a : UUID) (ad : Adapter) : Prop :=
  ∀ name b, dget (ad_agents ad) name = Some b → D (ab_agent_id b) →
    copy_ok (ad_registry ad) (ab_agent_id b) (ab_cache b) (ab_content b) a.

Lemma revoked_pending r p c d a rec : get_record r a = Some rec → ¬ valid rec p → copy_ok r p c d a → copy_pending r p c d a.
Proof.
  intros Hr Hn Hok e He Hne. destruct (Hok e He Hne) as (x & Hx & _ & Ho).
  assert (x = rec) as -> by congruence. exists rec. naive_solver.
Qed.

Lemma deliver_one w a signal ad name b D : revoking w a ad → notified D a ad →
  dget (ad_agents ad) name = Some b → ab_agent_id b ≠ w → sig_artifact_id signal = a →
  ∃ n', handle_invalidation (ab_agent_id b) signal (load ad b) = (Ok tt, n') ∧
    revoking w a (store b n' ad) ∧ notified (λ p, D p ∨ p = ab_agent_id b) a (store b n' ad) ∧
    (∀ p, registered (store b n' ad) p ↔ registered ad p) ∧ writer_kept w ad (store b n' ad) ∧
    (∀ x, current (ad_registry (store b n' ad)) x = current (ad_registry ad) x).
Proof.
  intros [Hc W Hu (rec & Hr & Hvw & Hnv) Hwr Hpe] HD Hb Hid <-. set (a := sig_artifact_id signal) in *.
  assert (ab_name b = name) as Hname by by apply (wi_name _ W). subst name. destruct (Hpe _ _ Hb Hid) as (P1 & P2 & P3).
  destruct (invalidation_handled (ab_agent_id b) signal (load ad b) rec Hc Hr (Hnv _ Hid) P3 P1 P2)
    as (n' & rec' & Hrun & [C L K O [M1 M2]] & Hr' & Hsame & Hstate & _). fold a in K, O, Hr'.
  exists n'. destruct (store_shape b n' ad) as (b' & _ & _ & _ & _ & Er & _).
  assert (∀ q, valid rec' q ↔ valid rec q) as Hval by (intros q; apply (Hsame q)).
  split_and!; [done|split; rewrite ?Er| | |by apply store_writer_kept|].
  - done.
  - by apply store_wired.
  - intros Hen y x p Hy Hx. destruct (decide (y = a)) as [->|Hne].
    + assert (x = rec') as -> by congruence. apply (Hu Hen a rec p Hr). by apply (cs_slot _ _ _ (Hsame p)).
    + rewrite O in Hy by done. by eapply Hu.
  - exists rec'. split_and!; [done|by apply Hval|]. intros q Hq. rewrite Hval. by apply Hnv.
  - intros nm x Hx Hxw. destruct (store_binding _ _ _ _ _ W Hb Hx) as [(_ & Ei & _)|(_ & Hx' & _)]; [congruence|].
    destruct (Hwr _ _ Hx' Hxw) as [N1 N2]. split; [|done]. intros y. destruct (decide (y = a)) as [->|Hne].
    + eapply copy_ok_swept; [exact Hr|exact Hr'|apply same_swept, Hsame|apply N1].
    + eapply copy_ok_same; [by apply O|apply N1].
  - intros nm x Hx Hxw. destruct (store_binding _ _ _ _ _ W Hb Hx) as [(_ & Ei & Ec & Ed)|(_ & Hx' & _)].
    + rewrite Ei, Ec, Ed. split_and!; [intros y _; apply M1|done|].
      eapply revoked_pending; [exact Hr'|rewrite Hval; by apply Hnv|apply M1].
    + destruct (Hpe _ _ Hx' Hxw) as (N1 & N2 & N3). split_and!; [|done|].
      * intros y Hy. eapply copy_ok_same; [by apply O|by apply N1].
      * intros e He Hne. destruct (N3 e He Hne) as (z & Hz & Hzv & Hzs). assert (z = rec) as -> by congruence.
        exists rec'. split_and!; [done|by rewrite Hval|]. destruct Hzs as [?|?]; [left; by apply Hstate|right].
        by apply (cs_slot _ _ _ (Hsame (ab_agent_id x))).
  - intros nm x Hx Hxd. rewrite Er. destruct (store_binding _ _ _ _ _ W Hb Hx) as [(_ & Ei & Ec & Ed)|(_ & Hx' & Hne)].
    + rewrite Ei, Ec, Ed. apply M1.
    + eapply copy_ok_swept; [exact Hr|exact Hr'|apply same_swept, Hsame|]. eapply HD; [done|]. by destruct Hxd.
  - intros p. by apply store_registered.
  - intros y. rewrite Er. unfold current. destruct (decide (y = a)) as [->|Hne]; [|by rewrite O].
    rewrite Hr', Hr. simpl. by rewrite (cs_version _ _ _ (Hsame w)), (cs_content _ _ _ (Hsame w)).
Qed.

Lemma binding_run name b ad : dget (ad_agents ad) name = Some b → binding name ad = (Ok b, ad).
Proof. intros Hb. unfold binding. by rewrite Hb. Qed.

Lemma publish_invalidation_run w a signal l ad D : revoking w a ad → notified D a ad → sig_artifact_id signal = a →
  Forall (λ p, registered ad p ∧ p ≠ w) l →
  ∃ k ad', publish_invalidation signal l ad = (Ok k, ad') ∧
    revoking w a ad' ∧ notified (λ p, D p ∨ p ∈ l) a ad' ∧ (∀ p, registered ad' p ↔ registered ad p) ∧
    writer_kept w ad ad' ∧ (∀ x, current (ad_registry ad') x = current (ad_registry ad) x).
Proof.
  intros Hrv HD Hsig. unfold publish_invalidation. generalize 0. revert ad D Hrv HD.
  induction l as [|p l IH]; intros ad D Hrv HD k Hl.
  { exists k, ad. split_and!; [done|done| |done|by intros ? ?|done].
    intros nm x Hx [Hd|Hd%elem_of_nil]; [by eapply HD|done]. }
  apply Forall_cons in Hl as [[(name & b & Hb & Hp) Hpw] Hl]. subst p.
  destruct (deliver_one w a signal ad name b D Hrv HD Hb Hpw Hsig) as (n' & Hrun & Hrv' & HD' & Hreg & Hwk & Hcur).
  destruct (IH (store b n' ad) _ Hrv' HD' (k + 1)) as (k' & ad' & Hrun' & Hrv2 & HD2 & Hreg2 & Hwk2 & Hcur2).
  { eapply Forall_impl; [done|]. intros q [? ?]. by rewrite Hreg. }
  exists k', ad'. split_and!; [|done| |by intros; rewrite Hreg2|by eauto using writer_kept_trans|by intros; rewrite Hcur2].
  - apply (bind_run _ _ ad (k + 1) (store b n' ad)); [|exact Hrun'].
    apply (bind_run _ _ ad (Some name) ad).
    { unfold gets. by rewrite (wi_invalidation _ (rv_wired _ _ _ Hrv) _ _ Hb). }
    apply (bind_run _ _ ad b ad); [by apply binding_run|].
    apply (bind_run _ _ ad tt (store b n' ad)); [|done]. unfold on_runtime. by rewrite Hrun.
  - intros nm x Hx Hd. apply (HD2 nm x Hx). destruct Hd as [Hd|Hd]; [by left; left|]. apply elem_of_cons in Hd as [Hd|Hd];
      [left; by right|by right].
Qed.

(** ** Broadcasting the content *)
Record announced (w a : UUID) (v : Z) (c : string) (ad : Adapter) : Prop := {
  an_ok : cluster_ok ad;
  an_rec : ∃ rec, get_record (ad_registry ad) a = Some rec ∧ version rec = v ∧ content rec = BStr c ∧
    valid rec w ∧ ∀ q, q ≠ w → m_or_e (st rec q) = false;
}.

Lemma update_one w a v c now ad name b : announced w a v c ad → dget (ad_agents ad) name = Some b → ab_agent_id b ≠ w →
  ∃ n', handle_update (ab_agent_id b) strategy audit (Some (ab_name b)) instance a v c now (Some w) (load ad b) = (Ok tt, n') ∧
    announced w a v c (store b n' ad) ∧ (∀ p, registered (store b n' ad) p ↔ registered ad p) ∧
    writer_kept w ad (store b n' ad) ∧ (∀ x, current (ad_registry (store b n' ad)) x = current (ad_registry ad) x).
Proof using Hlaws Haudit.
  intros [[Hc W Hcp Hu] (rec & Hr & <- & Hcont & Hvw & Hall)] Hb Hid.
  assert (ab_name b = name) as Hname by by apply (wi_name _ W). subst name.
  destruct (update_handled (ab_agent_id b) strategy audit (Some (ab_name b)) instance Haudit a c now w (load ad b) rec
    Hc Hr Hcont Hid Hvw Hall) as (n' & rec' & Hrun & [C L K O [M1 M2]] & Hr' & Hvw' & Hall' & Hv' & Hc' & Hsame & Hslot).
  { by apply load_copies, (Hcp _ _ Hb). }
  exists n'. destruct (store_shape b n' ad) as (b' & _ & _ & _ & _ & Er & _).
  split_and!; [done|split; [split|]; rewrite ?Er| |by apply store_writer_kept|].
  - done.
  - by apply store_wired.
  - intros nm x Hx. destruct (store_binding _ _ _ _ _ W Hb Hx) as [(_ & Ei & Ec & Ed)|(_ & Hx' & Hne)].
    + split; [|by rewrite Ed]. intros y. rewrite Ei, Ec, Ed. apply M1.
    + destruct (Hcp _ _ Hx') as [N1 N2]. split; [|done]. intros y. destruct (decide (y = a)) as [->|Hy].
      * eapply copy_ok_swept; [exact Hr|exact Hr'|by apply same_swept, Hsame|apply N1].
      * eapply copy_ok_same; [by apply O|apply N1].
  - intros Hen y x p Hy Hx. destruct (decide (y = a)) as [->|Hne].
    + assert (x = rec') as -> by congruence. apply (Hu Hen a rec p Hr). by apply Hslot.
    + rewrite O in Hy by done. by eapply Hu.
  - exists rec'. split_and!; [done|done|congruence|done|done].
  - intros p. by apply store_registered.
  - intros y. rewrite Er. unfold current. destruct (decide (y = a)) as [->|Hne]; [|by rewrite O].
    rewrite Hr', Hr. simpl. by rewrite Hv', Hc'.
Qed.

Lemma publish_update_run w a v c now l ad : announced w a v c ad → Forall (λ p, registered ad p ∧ p ≠ w) l →
  ∃ k ad', publish_update strategy audit instance (mkUpdateEvent a v c now w) l ad = (Ok k, ad') ∧
    announced w a v c ad' ∧ (∀ p, registered ad' p ↔ registered ad p) ∧
    (∀ x, current (ad_registry ad') x = current (ad_registry ad) x).
Proof using Hlaws Haudit.
  intros Han. unfold publish_update. generalize 0. revert ad Han.
  induction l as [|p l IH]; intros ad Han k Hl; [by exists k, ad|].
  apply Forall_cons in Hl as [[(name & b & Hb & Hp) Hpw] Hl]. subst p.
  destruct (update_one w a v c now ad name b Han Hb Hpw) as (n' & Hrun & Han' & Hreg & Hwk & Hcur).
  destruct (IH (store b n' ad) Han' (k + 1)) as (k' & ad' & Hrun' & Han2 & Hreg2 & Hcur2).
  { eapply Forall_impl; [done|]. intros q [? ?]. by rewrite Hreg. }
  exists k', ad'. split_and!; [|done|by intros; rewrite Hreg2|by intros; rewrite Hcur2].
  apply (bind_run _ _ ad (k + 1) (store b n' ad)); [|exact Hrun'].
  apply (bind_run _ _ ad (Some name) ad).
  { unfold gets. by rewrite (wi_update _ (cl_wired _ (an_ok _ _ _ _ _ Han)) _ _ Hb). }
  apply (bind_run _ _ ad b ad); [by apply binding_run|].
  apply (bind_run _ _ ad tt (store b n' ad)); [|done]. unfold on_runtime. cbn [ue_artifact_id ue_version ue_content ue_issued_at_tick ue_issuer_agent_id].
  by rewrite Hrun.
Qed.

(** ** All the events of a write *)
Lemma elem_peers ad w p : dict_wf (ad_agents ad) → p ∈ peers_of ad w ↔ registered ad p ∧ p ≠ w.
Proof.
  intros Hwf. unfold peers_of. rewrite list_elem_of_filter, list_elem_of_fmap. split.
  - intros (Hp & [name b] & -> & Hin). split; [|done]. exists name, b. split; [by apply dget_elem|done].
  - intros [(name & b & Hb & Hp) Hw]. split; [done|]. exists (name, b). split; [done|]. by apply dict_elem_iff.
Qed.

Lemma publish_signals_run w a sg peers ad D : revoking w a ad → notified D a ad → Forall (λ s, sig_artifact_id s = a) sg →
  Forall (λ p, registered ad p ∧ p ≠ w) peers →
  ∃ ad', for_each sg (λ signal, _ ← publish_invalidation signal peers; mret tt) ad = (Ok tt, ad') ∧
    revoking w a ad' ∧ notified (λ p, D p ∨ sg ≠ [] ∧ p ∈ peers) a ad' ∧ (∀ p, registered ad' p ↔ registered ad p) ∧
    writer_kept w ad ad' ∧ (∀ x, current (ad_registry ad') x = current (ad_registry ad) x).
Proof.
  revert ad D. induction sg as [|s sg IH]; intros ad D Hrv HD Hsg Hpeers.
  { exists ad. split_and!; [done|done| |done|by intros ? ?|done]. intros nm x Hx [Hd|[? _]]; [by eapply HD|done]. }
  apply Forall_cons in Hsg as [Hs Hsg].
  destruct (publish_invalidation_run w a s peers ad D Hrv HD Hs Hpeers) as (k & ad1 & E1 & Hrv1 & HD1 & Hreg1 & Hwk1 & Hcur1).
  destruct (IH ad1 _ Hrv1 HD1 Hsg) as (ad2 & E2 & Hrv2 & HD2 & Hreg2 & Hwk2 & Hcur2).
  { eapply Forall_impl; [done|]. intros q [? ?]. by rewrite Hreg1. }
  exists ad2. split_and!; [|done| |by intros; rewrite Hreg2|by eapply writer_kept_trans|by intros; rewrite Hcur2].
  - apply (bind_run _ _ ad tt ad1); [by apply (bind_run _ _ _ _ _ _ E1)|exact E2].
  - intros nm x Hx Hd. apply (HD2 nm x Hx). left. naive_solver.
Qed.

Lemma revoking_settled w a v c ad : revoking w a ad → notified (λ p, registered ad p ∧ p ≠ w) a ad →
  current (ad_registry ad) a = Some (v, BStr c) → announced w a v c ad.
Proof.
  intros [Hc W Hu (rec & Hr & Hvw & Hnv) Hwr Hpe] HD Hcur. split; [split|].
  - done.
  - done.
  - intros name b Hb. destruct (decide (ab_agent_id b = w)) as [Hw|Hw]; [by eapply Hwr|].
    destruct (Hpe _ _ Hb Hw) as (P1 & P2 & _). split; [|done]. intros x. destruct (decide (x = a)) as [->|Hx]; [|by apply P1].
    eapply HD; [done|]. split; [|done]. by exists name, b.
  - done.
  - exists rec. unfold current in Hcur. rewrite Hr in Hcur. simplify_eq/=. split_and!; try done.
    intros q Hq. specialize (Hnv q Hq). unfold valid in Hnv. by destruct (st rec q).
Qed.

Lemma publish_run w a u c body_of sg now ad : revoking w a ad → (sg = [] → notified (λ _, True) a ad) →
  Forall (λ s, sig_artifact_id s = a) sg → current (ad_registry ad) a = Some (art_version u, BStr c) →
  (∀ ad2, writer_kept w ad ad2 → body_of ad2 = (Ok c, ad2)) →
  ∃ ad', publish strategy audit instance w a u body_of sg now ad = (Ok u, ad') ∧ cluster_ok ad' ∧
    (∀ x, current (ad_registry ad') x = current (ad_registry ad) x).
Proof using Hlaws Haudit.
  intros Hrv Hnone Hsg Hcur Hbody. pose proof (rv_wired _ _ _ Hrv) as W.
  assert (Forall (λ p, registered ad p ∧ p ≠ w) (peers_of ad w)) as Hpeers.
  { apply Forall_forall. intros p Hp. by apply elem_peers in Hp; [|apply W]. }
  assert (∃ D, notified D a ad ∧ ∀ p, registered ad p ∧ p ≠ w → D p ∨ sg ≠ [] ∧ p ∈ peers_of ad w) as (D & HD & HDall).
  { destruct (decide (sg = [])) as [->|Hne].
    - exists (λ _, True). split; [by apply Hnone|by left].
    - exists (λ _, False). split; [by intros ? ? ? []|]. intros p Hp. right. split; [done|]. by apply elem_peers; [apply W|]. }
  destruct (publish_signals_run w a sg (peers_of ad w) ad D Hrv HD Hsg Hpeers) as (ad1 & E1 & Hrv1 & HD1 & Hreg1 & Hwk1 & Hcur1).
  assert (announced w a (art_version u) c ad1) as Han.
  { apply revoking_settled; [done| |by rewrite Hcur1]. intros nm x Hx Hd. apply (HD1 nm x Hx), HDall. by rewrite <-Hreg1. }
  destruct (broadcasts_content_on_commit strategy) eqn:Eb.
  - destruct (publish_update_run w a (art_version u) c now (peers_of ad w) ad1 Han) as (k & ad2 & E2 & Han2 & Hreg2 & Hcur2).
    { eapply Forall_impl; [done|]. intros q [? ?]. by rewrite Hreg1. }
    exists ad2. split_and!; [|apply Han2|by intros; rewrite Hcur2].
    apply (bind_run _ _ ad (peers_of ad w) ad); [done|]. apply (bind_run _ _ _ _ _ _ E1).
    apply (bind_run _ _ ad1 tt ad2); [|done]. rewrite Eb. unfold when.
    apply (bind_run _ _ ad1 c ad1); [by apply Hbody|]. by apply (bind_run _ _ _ _ _ _ E2).
  - exists ad1. split_and!; [|apply Han|done].
    apply (bind_run _ _ ad (peers_of ad w) ad); [done|]. apply (bind_run _ _ _ _ _ _ E1).
    apply (bind_run _ _ ad1 tt ad1); [|done]. by rewrite Eb.
Qed.

(** The state in which a runtime leaves the cluster when it has published. *)
Lemma published_revoking ad name b a c u sg n' : cluster_ok ad → dget (ad_agents ad) name = Some b →
  published (ab_agent_id b) a c u sg (load ad b) n' →
  revoking (ab_agent_id b) a (store b n' ad) ∧ (sg = [] → notified (λ _, True) a (store b n' ad)).
Proof.
  intros [Hc W Hcp Hu] Hb [PC PL PK PO (rec & rec' & Hr & Hr' & _ & _ & _ & Hrev & Hslot & Hnone) _ Hh Hm].
  assert (ab_name b = name) as Hname by by apply (wi_name _ W). subst name. change (get_record (ad_registry ad) a = Some rec) in Hr.
  destruct (store_shape b n' ad) as (b' & _ & _ & _ & _ & Er & _).
  assert (my_copies (ab_agent_id b) n') as [M1 M2] by by apply Hm, load_copies, (Hcp _ _ Hb).
  split; [split; rewrite ?Er|].
  - done.
  - by apply store_wired.
  - intros Hen y x p Hy Hx. destruct (decide (y = a)) as [->|Hne].
    + assert (x = rec') as -> by congruence. apply (Hu Hen a rec p Hr). by apply Hslot.
    + rewrite PO in Hy by done. by eapply Hu.
  - exists rec'. split_and!; [done| |]; [|intros q Hq; by apply (cv_gone _ _ _ (Hrev q Hq))].
    destruct Hh as (x & e & Hx & Hv & _). by assert (x = rec') as -> by congruence.
  - intros nm x Hx Hxw. destruct (store_binding _ _ _ _ _ W Hb Hx) as [(_ & Ei & Ec & Ed)|(_ & _ & Hne)]; [|done].
    split; [|by rewrite Ed]. intros y. rewrite Ei, Ec, Ed. apply M1.
  - intros nm x Hx Hxw. destruct (store_binding _ _ _ _ _ W Hb Hx) as [(_ & Ei & _)|(_ & Hx' & Hne)]; [done|].
    destruct (Hcp _ _ Hx') as [N1 N2]. split_and!; [|done|].
    + intros y Hy. eapply copy_ok_same; [by apply PO|apply N1].
    + eapply copy_ok_revoked; [exact Hr|exact Hr'|by apply Hrev|apply N1].
  - intros Hsg nm x Hx _. rewrite Er. destruct (store_binding _ _ _ _ _ W Hb Hx) as [(_ & Ei & Ec & Ed)|(_ & Hx' & Hne)].
    + rewrite Ei, Ec, Ed. apply M1.
    + destruct (Hcp _ _ Hx') as [N1 N2]. eapply copy_ok_unheld; [exact Hr|exact Hr'|by apply Hrev|by apply Hnone|apply N1].
Qed.

(** ** Heartbeats and the sweep in front of a call *)
Lemma cluster_ext ad ad' : ad_agents ad' = ad_agents ad → ad_invalidation_handlers ad' = ad_invalidation_handlers ad →
  ad_update_handlers ad' = ad_update_handlers ad → swept (ad_registry ad) (ad_registry ad') →
  (enabled crash = false → records (ad_registry ad') = records (ad_registry ad)) →
  cluster_ok ad → cluster_ok ad'.
Proof.
  intros Ea Eh Eu S Hrec [Hc [W1 W2 W3 W4 W5] Hcp Hu]. split; [apply S|split; rewrite ?Ea, ?Eh, ?Eu; done| |].
  - intros name b. rewrite Ea. intros Hb. destruct (Hcp _ _ Hb) as [M1 M2]. split; [|done]. intros a. by eapply swept_copy, M1.
  - intros Hen a rec p. unfold get_record. rewrite Hrec by done. by apply Hu.
Qed.

Record ready_state (ad ad' : Adapter) : Prop := {
  rs_ok : cluster_ok ad';
  rs_agents : ad_agents ad' = ad_agents ad;
  rs_swept : swept (ad_registry ad) (ad_registry ad');
}.

Lemma heartbeat_ready ag now ad : cluster_ok ad → ∃ o ad', heartbeat_if_enabled crash ag now ad = (o, ad') ∧
  ready_state ad ad' ∧ ((enabled crash = true → 0 <= now) → o = Ok tt).
Proof.
  intros Hok. unfold heartbeat_if_enabled, when. destruct (enabled crash) eqn:Een.
  2: { exists (Ok tt), ad. split_and!; [done| |done]. split; [done|done|apply swept_refl, Hok]. }
  assert (∃ o h, service_record_heartbeat ag now (ad_registry ad) = (o, (ad_registry ad) <| heartbeat_by_agent := h |>) ∧
    (0 <= now → o = Ok tt)) as (o & h & Hrun & Ho).
  { unfold service_record_heartbeat. case_decide.
    - eexists _, (heartbeat_by_agent (ad_registry ad)). split; [by destruct (ad_registry ad)|lia].
    - unfold record_heartbeat. destruct (dget (heartbeat_by_agent (ad_registry ad)) ag); [case_decide|].
      + by eexists _, _.
      + exists (Ok tt), (heartbeat_by_agent (ad_registry ad)). split; [by destruct (ad_registry ad)|done].
      + by eexists _, _. }
  eexists o, _. split_and!; [unfold on_service, zoom; by rewrite Hrun| |naive_solver].
  assert (swept (ad_registry ad) ((ad_registry ad) <| heartbeat_by_agent := h |>)) as S.
  { split; [by apply (calm_ext (ad_registry ad)), Hok|done|]. intros a rec Hr. by exists rec. }
  split; [|done|exact S]. by apply (cluster_ext ad).
Qed.

Lemma sweep_ready now ad : cluster_ok ad → ∃ ad', maybe_sweep crash now ad = (Ok tt, ad') ∧ ready_state ad ad'.
Proof.
  intros Hok. unfold maybe_sweep. destruct (enabled crash) eqn:Een; simpl.
  2: { exists ad. split; [done|]. split; [done|done|apply swept_refl, Hok]. }
  destruct (sweep_gated crash (ad_last_sweep_tick ad) now).
  { exists ad. split; [done|]. split; [done|done|apply swept_refl, Hok]. }
  destruct (sweep_swept now (heartbeat_timeout_ticks crash) (max_hold_ticks crash) (ad_registry ad) (cl_calm _ Hok))
    as (o & r' & Hrun & S).
  unfold on_service, zoom. simpl. rewrite Hrun. destruct o as [k|e]; eexists; (split; [done|]).
  - split; [|by case_match|by case_match]. eapply cluster_ext; [..|done]; try (by case_match). by rewrite Een.
  - split; [|done|done]. eapply cluster_ext; [..|done]; [done|done|done|exact S|by rewrite Een].
Qed.

Lemma envelope_ready ag now ad : cluster_ok ad → (enabled crash = true → 0 <= now) →
  ∃ ad1 ad2, heartbeat_if_enabled crash ag now ad = (Ok tt, ad1) ∧ maybe_sweep crash now ad1 = (Ok tt, ad2) ∧
    ready_state ad ad2.
Proof.
  intros Hok Hnow. destruct (heartbeat_ready ag now ad Hok) as (o & ad1 & E1 & [R1 A1 S1] & Ho). rewrite Ho in E1 by done.
  destruct (sweep_ready now ad1 R1) as (ad2 & E2 & [R2 A2 S2]). exists ad1, ad2. split_and!; [done|done|].
  split; [done|congruence|by eapply swept_trans].
Qed.
End cluster.
