(* ===== verification/VersionedStore.v ===== *)
(** The adapter refines a versioned store.

    The abstract store maps an artifact to its version and body: a read returns them,
    a write moves to the next version.  [call] has one constructor per adapter method;
    [store_step] is what the abstract store does for it.  The refinement covers every
    strategy that obeys [StrategyLaws], broadcasting or not. *)
From S2P Require Import Prelude Core Hashing Retention Registry RegistryFacts CommitFacts Service.
From S2P Require Import ServiceFacts RevocationFacts Evolution Sessions SessionFacts Checkpoints System.
From S2P Require Import Safety Operations Strategies Runtime Agents Adapter CopyFacts Copies Cluster.

Open Scope Z_scope.
Open Scope string_scope.

(** ** Calls *)
Inductive call : Type :=
| CRegisterAgent (name : string) (now : Z)
| CRegisterArtifact (minted : UUID) (name content : string) (sz : option Z)
| CRead (name : string) (a : UUID) (now : Z)
| CWrite (name : string) (a : UUID) (content : string) (now : Z)
| CWriteCas (name : string) (a : UUID) (make : ArtifactCacheEntry → outcome exn (string * option string)) (now : Z)
| CHeartbeat (name : string) (now : Z)
| CRecover (name : string) (now : Z).

Inductive reply : Type :=
| RUnit
| RAgent (id : UUID)
| RArtifact (art : Artifact)
| RRead (resp : FetchResponse).

(** ** The abstract store *)
Definition vstore : Type := UUID → option (Z * body).
Definition vset (s : vstore) (a : UUID) (x : Z * body) : vstore := λ b, if decide (b = a) then Some x else s b.
Definition vsame (s s' : vstore) : Prop := ∀ a, s' a = s a.

Definition not_found : exn := CoherenceError "artifact_not_found".

Definition store_step (c : call) (s s' : vstore) (o : outcome exn reply) : Prop :=
  match c with
  | CRegisterAgent _ _ => vsame s s' ∧ ∃ id, o = Ok (RAgent id)
  | CRegisterArtifact minted _ content _ =>
    vsame (vset s minted (1, BStr content)) s' ∧ ∃ u, o = Ok (RArtifact u) ∧ art_id u = minted ∧ art_version u = 1
  | CRead _ a _ => vsame s s' ∧
    match s a with
    | Some (v, b) => ∃ grant, o = Ok (RRead (mkFetchResponse a v b grant))
    | None => o = Raise not_found
    end
  | CWrite _ a content _ =>
    match s a with
    | Some (v, _) => vsame (vset s a (v + 1, BStr content)) s' ∧ ∃ u, o = Ok (RArtifact u) ∧ art_version u = v + 1
    | None => vsame s s' ∧ o = Raise not_found
    end
  | CWriteCas _ a make _ =>
    (vsame s s' ∧ ∃ e, o = Raise e) ∨
    ∃ v b e content h u, s a = Some (v, b) ∧ ce_local_version e = v ∧ make e = Ok (content, h) ∧
      vsame (vset s a (v + 1, BStr content)) s' ∧ o = Ok (RArtifact u) ∧ art_version u = v + 1
  | CHeartbeat _ _ | CRecover _ _ => vsame s s' ∧ o = Ok RUnit
  end.

(** A trace of calls and answers of the abstract store. *)
Inductive store_run : list (call * outcome exn reply) → vstore → vstore → Prop :=
| run_nil s s' : vsame s s' → store_run [] s s'
| run_cons c o t s s1 s2 : store_step c s s1 o → store_run t s1 s2 → store_run ((c, o) :: t) s s2.

Section refinement.
Context {T : Type} `{Hlaws : StrategyLaws T}.
Context (strategy : T) (crash : CrashRecoveryConfig).
Context (audit : option (list (AuditEntry * bool) → AuditEntry → bool)).
Context (instance : option string) (Haudit : audit_quiet audit).

Definition call_proc (c : call) : AM reply :=
  match c with
  | CRegisterAgent name now => id ← register_agent crash name now; mret (RAgent id)
  | CRegisterArtifact minted name content sz =>
    u ← adapter_register_artifact minted name content sz; mret (RArtifact u)
  | CRead name a now => resp ← adapter_read strategy crash audit instance name a now; mret (RRead resp)
  | CWrite name a content now => u ← adapter_write strategy crash audit instance name a content now; mret (RArtifact u)
  | CWriteCas name a make now => u ← adapter_write_cas strategy crash audit instance name a make now; mret (RArtifact u)
  | CHeartbeat name now => adapter_heartbeat crash name now ;; mret RUnit
  | CRecover name now => recover crash name now ;; mret RUnit
  end.

(** What a call takes from outside: [uuid4] draws are fresh and the name-based agent
    ids of different names differ. *)
Definition call_admissible (c : call) (ad : Adapter) : Prop :=
  match c with
  | CRegisterAgent name _ => ∀ name' b, dget (ad_agents ad) name' = Some b → ab_agent_id b = agent_uuid name → name' = name
  | CRegisterArtifact minted _ _ _ => get_record (ad_registry ad) minted = None
  | _ => True
  end.

(** Calls that pass the argument checks: a registered agent, a tick that is not
    negative when heartbeats are recorded. *)
Definition call_ready (c : call) (ad : Adapter) : Prop :=
  match c with
  | CRegisterAgent _ now => enabled crash = true → 0 <= now
  | CRegisterArtifact _ _ _ _ => True
  | CRead name _ now | CWrite name _ _ now | CWriteCas name _ _ now | CHeartbeat name now | CRecover name now =>
    is_Some (dget (ad_agents ad) name) ∧ (enabled crash = true → 0 <= now)
  end.

(** The copy a read may serve was not reclaimed behind the reader's back. *)
Definition reader_fresh (c : call) (ad : Adapter) : Prop :=
  match c with
  | CRead name a _ => ∀ b rec, dget (ad_agents ad) name = Some b → get_record (ad_registry ad) a = Some rec →
      valid rec (ab_agent_id b) ∨ ¬ reclaimed rec (ab_agent_id b)
  | _ => True
  end.

Definition abs (ad : Adapter) : vstore := current (ad_registry ad).

Inductive cluster_reachable : Adapter → Prop :=
| cr_init sink inst retain mi me clock r seq :
    registry_init sink (Some []) inst retain None mi me clock = Ok r →
    (∀ f, sink = Some f → ∀ calls e, f calls e = false) →
    cluster_reachable (mkAdapter r seq [] [] [] [] None false)
| cr_step ad c : cluster_reachable ad → call_admissible c ad → cluster_reachable (call_proc c ad).2.

(** ** Each call *)
Local Abbreviation ok := (cluster_ok crash).

Lemma ready_abs ad ad' : ready_state crash ad ad' → vsame (abs ad) (abs ad').
Proof. intros [_ _ S] a. by apply swept_current. Qed.

(** The common frame of the three data calls. *)
Lemma enveloped {A} name (k : AgentBinding → AM A) now ad : ok ad →
  let m := (b ← binding name; heartbeat_if_enabled crash (ab_agent_id b) now ;; maybe_sweep crash now ;;
            b ← binding name; k b) in
  (∃ e ad', m ad = (Raise e, ad') ∧ ok ad' ∧ vsame (abs ad) (abs ad') ∧
    ¬ (is_Some (dget (ad_agents ad) name) ∧ (enabled crash = true → 0 <= now))) ∨
  (∃ b ad', m ad = k b ad' ∧ dget (ad_agents ad) name = Some b ∧ dget (ad_agents ad') name = Some b ∧
    ready_state crash ad ad').
Proof.
  intros Hok m. destruct (dget (ad_agents ad) name) as [b|] eqn:Eb.
  2: { left. eexists _, ad. split_and!; [|done|done|by intros [[? [=]] _]].
       apply bind_Raise. unfold binding. by rewrite Eb. }
  destruct (heartbeat_ready crash (ab_agent_id b) now ad Hok) as (o & ad1 & E1 & R1 & Ho). destruct o as [[]|e].
  - right. destruct (sweep_ready crash now ad1 (rs_ok _ _ _ R1)) as (ad2 & E2 & R2).
    assert (dget (ad_agents ad2) name = Some b) as Eb2 by (by rewrite (rs_agents _ _ _ R2), (rs_agents _ _ _ R1)).
    exists b, ad2. split_and!; [|done|done|].
    + apply (bind_run _ _ ad b ad); [by apply binding_run|]. apply (bind_run _ _ _ _ _ _ E1).
      apply (bind_run _ _ _ _ _ _ E2). by apply (bind_run _ _ ad2 b ad2); [apply binding_run|].
    + split; [apply R2|by rewrite (rs_agents _ _ _ R2), (rs_agents _ _ _ R1)|].
      eapply swept_trans; [apply R1|apply R2].
  - left. exists e, ad1. split_and!; [|apply R1|by apply ready_abs|].
    + apply (bind_run _ _ ad b ad); [by apply binding_run|]. exact (bind_Raise _ _ _ _ _ E1).
    + intros [_ Hnow]. by specialize (Ho Hnow).
Qed.

Lemma on_runtime_run {A} b (m : NM A) ad o n' : m (load ad b) = (o, n') → on_runtime b m ad = (o, store b n' ad).
Proof. unfold on_runtime. by intros ->. Qed.

Lemma entry_current_swept r r' b a rec rec' : get_record r a = Some rec → binding_ok r b →
  valid rec (ab_agent_id b) ∨ ¬ reclaimed rec (ab_agent_id b) → get_record r' a = Some rec' →
  version rec' = version rec → content rec' = content rec →
  ∀ e, dget (ab_cache b) a = Some e → ce_state e ≠ INVALID →
    ce_local_version e = version rec' ∧ dget (ab_content b) a = Some (content rec').
Proof.
  intros Hr [Hcp _] Hf Hr' -> -> e He Hne. destruct (Hcp a e He Hne) as (x & Hx & Hv & Ho).
  assert (x = rec) as -> by congruence. apply Hv. tauto.
Qed.

(** The current entry of an artifact, and its record. *)
Lemma abs_record ad a v c : abs ad a = Some (v, c) ↔
  ∃ rec, get_record (ad_registry ad) a = Some rec ∧ version rec = v ∧ content rec = c.
Proof.
  unfold abs, current. destruct (get_record (ad_registry ad) a); simpl; naive_solver.
Qed.

Lemma abs_none ad a : abs ad a = None ↔ get_record (ad_registry ad) a = None.
Proof. unfold abs, current. by destruct (get_record (ad_registry ad) a). Qed.

Lemma read_call name a now ad : ok ad →
  let x := adapter_read strategy crash audit instance name a now ad in
  ok x.2 ∧ vsame (abs ad) (abs x.2) ∧
  (call_ready (CRead name a now) ad → reader_fresh (CRead name a now) ad →
   match abs ad a with
   | Some (v, c) => ∃ grant, x.1 = Ok (mkFetchResponse a v c grant)
   | None => x.1 = Raise not_found
   end).
Proof using Hlaws Haudit.
  intros Hok x. destruct (enveloped name (λ b, on_runtime b (Runtime.read (ab_agent_id b) strategy audit
    (Some (ab_name b)) instance a now)) now ad Hok) as [(e & ad' & E & Hok' & Hs & Hn)|(b & ad' & E & Hb & Hb' & R)].
  { change (adapter_read strategy crash audit instance name a now ad = (Raise e, ad')) in E. unfold x. rewrite E.
    split_and!; [done|done|]. intros Hr. by destruct Hn. }
  change (adapter_read strategy crash audit instance name a now ad = on_runtime b (Runtime.read (ab_agent_id b) strategy audit
    (Some (ab_name b)) instance a now) ad') in E. unfold x. rewrite E. pose proof (ready_abs _ _ R) as Hs.
  pose proof (rs_ok _ _ _ R) as Hok'.
  assert (my_copies (ab_agent_id b) (load ad' b)) as Hmine by by apply load_copies, (cl_copies _ _ Hok' _ _ Hb').
  pose proof (read_settles (ab_agent_id b) strategy audit (Some (ab_name b)) instance Haudit a now (load ad' b)
    (cl_calm _ _ Hok') Hmine) as Hread. change (node_registry (load ad' b)) with (ad_registry ad') in Hread.
  destruct (get_record (ad_registry ad') a) as [rec|] eqn:Er.
  - destruct Hread as (resp & n' & Hrun & Hset & Hid & Hcur).
    rewrite (on_runtime_run _ _ _ _ _ Hrun). destruct (cluster_settled crash ad' name b a n' Hok' Hb' Hset) as [Hok2 Hc2].
    simpl. split_and!; [done|intros y; etrans; [apply Hc2|apply Hs]|]. intros _ Hf.
    destruct (get_record (ad_registry ad) a) as [rec0|] eqn:Er0.
    2: { exfalso. assert (get_record (ad_registry ad') a = None); [|congruence].
         by apply (record_domain _ _ _ (sw_keys _ _ (rs_swept _ _ _ R))). }
    destruct (sw_rec _ _ (rs_swept _ _ _ R) _ _ Er0) as (rec1 & Hr1 & Hsw). assert (rec1 = rec) as -> by congruence.
    pose proof (cw_version _ _ _ (Hsw 0%N)) as Hv. pose proof (cw_content _ _ _ (Hsw 0%N)) as Hc.
    assert (abs ad a = Some (version rec0, content rec0)) as -> by (apply abs_record; by exists rec0).
    destruct Hcur as [H1 H2].
    { exact (entry_current_swept _ _ b a rec0 rec Er0 (cl_copies _ _ Hok _ _ Hb) (Hf b rec0 Hb eq_refl) Er Hv Hc). }
    exists (fr_state_grant resp). f_equal. destruct resp; simpl in *. congruence.
  - rewrite (on_runtime_run _ _ _ _ _ Hread).
    destruct (cluster_settled crash ad' name b a (load ad' b) Hok' Hb') as [Hok2 Hc2]; [apply settled_refl, Hok'|].
    simpl. split_and!; [done|intros y; etrans; [apply Hc2|apply Hs]|]. intros _ _.
    assert (abs ad a = None) as ->; [|done]. rewrite <-Hs. by apply abs_none.
Qed.

(** A runtime has published: the events go out and the store has the new version. *)
Lemma publish_step name b a c u sg now body_of ad n' : ok ad → dget (ad_agents ad) name = Some b →
  published (ab_agent_id b) a c u sg (load ad b) n' →
  (∀ ad2, writer_kept (ab_agent_id b) (store b n' ad) ad2 → body_of ad2 = (Ok c, ad2)) →
  ∃ ad', publish strategy audit instance (ab_agent_id b) a u body_of sg now (store b n' ad) = (Ok u, ad') ∧ ok ad' ∧
    ∃ v c0, abs ad a = Some (v, c0) ∧ art_version u = v + 1 ∧ vsame (vset (abs ad) a (v + 1, BStr c)) (abs ad').
Proof using Hlaws Haudit.
  intros Hok Hb Hpub Hbody. destruct (published_revoking crash ad name b a c u sg n' Hok Hb Hpub) as [Hrv Hnone].
  destruct Hpub as [PC PL PK PO (rec & rec' & Hr & Hr' & Hu & Hv & Hcont & _) PS _ _].
  destruct (store_shape b n' ad) as (b' & _ & _ & _ & _ & Er & _).
  change (get_record (ad_registry ad) a = Some rec) in Hr.
  assert (art_version u = version rec + 1) as Hver by (rewrite <-Hv; unfold version; by rewrite Hu).
  destruct (publish_run strategy crash audit instance Haudit (ab_agent_id b) a u c body_of sg now (store b n' ad) Hrv Hnone PS)
    as (ad' & E & Hok' & Hcur); [|done|].
  { rewrite Er. unfold current. rewrite Hr'. simpl. by rewrite Hv, Hcont, Hver. }
  exists ad'. split_and!; [done|done|]. exists (version rec), (content rec). split_and!; [|done|].
  - apply abs_record. by exists rec.
  - intros y. unfold vset, abs. rewrite Hcur, Er. unfold current. case_decide as Hy.
    + subst y. rewrite Hr'. simpl. by rewrite Hv, Hcont.
    + by rewrite PO.
Qed.

Lemma write_call name a c now ad : ok ad →
  let x := adapter_write strategy crash audit instance name a c now ad in
  ok x.2 ∧ (call_ready (CWrite name a c now) ad →
   match abs ad a with
   | Some (v, _) => vsame (vset (abs ad) a (v + 1, BStr c)) (abs x.2) ∧ ∃ u, x.1 = Ok u ∧ art_version u = v + 1
   | None => vsame (abs ad) (abs x.2) ∧ x.1 = Raise not_found
   end).
Proof using Hlaws Haudit.
  intros Hok x.
  set (k := λ b, (committed ← on_runtime b (runtime_write (ab_agent_id b) strategy audit (Some (ab_name b)) instance a c now None None);
    publish strategy audit instance (ab_agent_id b) a committed.1 (mret c) committed.2 now) : AM Artifact).
  destruct (enveloped name k now ad Hok) as [(e & ad' & E & Hok' & Hs & Hn)|(b & ad' & E & Hb & Hb' & R)];
    change (x = (Raise e, ad')) in E || change (x = k b ad') in E; rewrite E; clear E.
  { split; [done|]. intros Hr. by destruct Hn. }
  pose proof (ready_abs _ _ R) as Hs. pose proof (rs_ok _ _ _ R) as Hok'.
  assert (my_copies (ab_agent_id b) (load ad' b)) as Hmine by by apply load_copies, (cl_copies _ _ Hok' _ _ Hb').
  pose proof (runtime_write_publishes (ab_agent_id b) strategy audit (Some (ab_name b)) instance Haudit a c now (load ad' b)
    (cl_calm _ _ Hok') Hmine) as Hw. change (node_registry (load ad' b)) with (ad_registry ad') in Hw.
  destruct (get_record (ad_registry ad') a) as [rec|] eqn:Er.
  - destruct Hw as (u & sg & n' & Hrun & Hpub).
    destruct (publish_step name b a c u sg now (mret c : AM string) ad' n' Hok' Hb' Hpub) as (ad2 & E2 & Hok2 & v & c0 & Ha & Hu & Hv); [done|].
    assert (k b ad' = (Ok u, ad2)) as ->.
    { apply (bind_run _ _ ad' (u, sg) (store b n' ad')); [by apply on_runtime_run|exact E2]. }
    split; [done|]. intros _. rewrite <-Hs, Ha. split; [|by exists u]. intros y. rewrite Hv. unfold vset. case_decide; [done|apply Hs].
  - destruct (cluster_settled crash ad' name b a (load ad' b) Hok' Hb') as [Hok2 Hc2]; [apply settled_refl, Hok'|].
    assert (k b ad' = (Raise not_found, store b (load ad' b) ad')) as ->.
    { apply bind_Raise. by apply on_runtime_run. }
    split; [done|]. intros _. assert (abs ad a = None) as -> by (rewrite <-Hs; by apply abs_none).
    split; [intros y; etrans; [apply Hc2|apply Hs]|done].
Qed.

Lemma write_cas_call name a make now ad : ok ad →
  let x := adapter_write_cas strategy crash audit instance name a make now ad in
  ok x.2 ∧
  ((vsame (abs ad) (abs x.2) ∧ ∃ e, x.1 = Raise e) ∨
   ∃ v b e c h u, abs ad a = Some (v, b) ∧ ce_local_version e = v ∧ make e = Ok (c, h) ∧
     vsame (vset (abs ad) a (v + 1, BStr c)) (abs x.2) ∧ x.1 = Ok u ∧ art_version u = v + 1).
Proof using Hlaws Haudit.
  intros Hok x.
  set (k := λ b, (committed ← on_runtime b (Runtime.write_cas (ab_agent_id b) strategy audit (Some (ab_name b)) instance a
      (λ e, of_outcome (make e)) now);
    publish strategy audit instance (ab_agent_id b) a committed.1 (c ← adapter_content name a; mret (text_of c))
      committed.2 now) : AM Artifact).
  destruct (enveloped name k now ad Hok) as [(e & ad' & E & Hok' & Hs & Hn)|(b & ad' & E & Hb & Hb' & R)];
    change (x = (Raise e, ad')) in E || change (x = k b ad') in E; rewrite E; clear E.
  { split; [done|]. left. split; [done|by exists e]. }
  pose proof (ready_abs _ _ R) as Hs. pose proof (rs_ok _ _ _ R) as Hok'.
  destruct (Runtime.write_cas (ab_agent_id b) strategy audit (Some (ab_name b)) instance a (λ e, of_outcome (make e)) now
    (load ad' b)) as [o n'] eqn:Hrun.
  pose proof (write_cas_cases (ab_agent_id b) strategy audit (Some (ab_name b)) instance Haudit a make now (load ad' b) o n'
    (cl_calm _ _ Hok') Hrun) as Hw. destruct o as [[u sg]|e].
  - destruct Hw as (e & c & h & Hmk & Hue & Hpub). pose proof Hpub as Hpub0.
    destruct (publish_step name b a c u sg now (c ← adapter_content name a; mret (text_of c) : AM string) ad' n' Hok' Hb' Hpub)
      as (ad2 & E2 & Hok2 & v & c0 & Ha & Hu & Hv).
    { intros ad2 Hk. destruct (store_shape b n' ad') as (b' & [Hn Hi] & _ & Hco & Ea & _).
      assert (ab_name b = name) as Hname by by apply (wi_name _ (cl_wired _ _ Hok')).
      assert (dget (ad_agents ad2) name = Some b') as Hb2.
      { apply Hk; [|done]. rewrite Ea, Hname. apply dget_dset_eq. }
      apply (bind_run _ _ ad2 (Some (BStr c)) ad2); [|done].
      apply (bind_run _ _ ad2 b' ad2); [by apply binding_run|]. rewrite Hco.
      destruct Hpub0 as [_ _ _ _ (rec & rec' & _ & Hr' & _ & _ & Hcont & _) _ (y & z & Hy & _ & _ & _ & ->) _].
      assert (y = rec') as -> by congruence. by rewrite Hcont. }
    assert (k b ad' = (Ok u, ad2)) as ->.
    { apply (bind_run _ _ ad' (u, sg) (store b n' ad')); [by apply on_runtime_run|exact E2]. }
    split; [done|]. right. exists v, c0, e, c, h, u. rewrite <-Hs, Ha. split_and!; [done|lia|done| |done|done].
    intros y. rewrite Hv. unfold vset. case_decide; [done|apply Hs].
  - destruct (cluster_settled crash ad' name b a n' Hok' Hb' Hw) as [Hok2 Hc2].
    assert (k b ad' = (Raise e, store b n' ad')) as ->.
    { apply bind_Raise. by apply on_runtime_run. }
    split; [done|]. left. split; [intros y; etrans; [apply Hc2|apply Hs]|by exists e].
Qed.

Lemma register_agent_call name now ad : ok ad → call_admissible (CRegisterAgent name now) ad →
  let x := register_agent crash name now ad in
  ok x.2 ∧ vsame (abs ad) (abs x.2) ∧ (call_ready (CRegisterAgent name now) ad → ∃ id, x.1 = Ok id).
Proof.
  intros Hok Hadm x. destruct (dget (ad_agents ad) name) as [b|] eqn:Eb.
  { assert (x = (Ok (ab_agent_id b), ad)) as ->; [|split_and!; [done|done|by eauto]].
    apply (bind_run _ _ ad (Some b) ad); [unfold gets; by rewrite Eb|done]. }
  set (id := agent_uuid name).
  set (ad1 := ad <| ad_registry ::= λ r, r <| agent_names ::= fmap (λ d, dset d id name) |> |>
    <| ad_invalidation_handlers ::= λ d, dset d id name |> <| ad_update_handlers ::= λ d, dset d id name |>
    <| ad_agents ::= λ d, dset d name (mkBinding name id [] [] 0) |>).
  assert (∀ nm b, dget (ad_agents ad) nm = Some b → ab_agent_id b ≠ id ∧ nm ≠ name) as Hnew.
  { intros nm b Hb. assert (nm ≠ name) as Hne by (intros ->; congruence). split; [|done]. intros Hid. by apply Hne, (Hadm nm b). }
  assert (ok ad1) as Hok1.
  { destruct Hok as [Hc [W1 W2 W3 W4 W5] Hcp Hu]. split.
    - by apply (calm_ext (ad_registry ad)).
    - assert (∀ nm b, dget (ad_agents ad1) nm = Some b →
        (nm = name ∧ b = mkBinding name id [] [] 0) ∨ (nm ≠ name ∧ dget (ad_agents ad) nm = Some b)) as Hc1.
      { intros nm b. simpl. rewrite dget_dset. case_decide; naive_solver. }
      split.
      + simpl. by apply dict_wf_dset.
      + intros nm b Hb. destruct (Hc1 _ _ Hb) as [[-> ->]|[_ ?]]; [done|by apply W2].
      + intros n1 n2 b1 b2 H1 H2 E. destruct (Hc1 _ _ H1) as [[-> ->]|[_ D1]], (Hc1 _ _ H2) as [[-> ->]|[_ D2]]; [done|..].
        * by destruct (Hnew _ _ D2).
        * by destruct (Hnew _ _ D1).
        * by eapply W3.
      + intros nm b Hb. simpl. rewrite dget_dset. destruct (Hc1 _ _ Hb) as [[-> ->]|[_ D]]; [by rewrite decide_True|].
        destruct (Hnew _ _ D). rewrite decide_False by congruence. by apply W4.
      + intros nm b Hb. simpl. rewrite dget_dset. destruct (Hc1 _ _ Hb) as [[-> ->]|[_ D]]; [by rewrite decide_True|].
        destruct (Hnew _ _ D). rewrite decide_False by congruence. by apply W5.
    - intros nm b. simpl. rewrite dget_dset. case_decide; [|apply Hcp]. intros [= <-]. by split.
    - exact Hu. }
  destruct (heartbeat_ready crash id now ad1 Hok1) as (o & ad2 & E2 & R2 & Ho).
  assert (x = match o with Ok _ => (Ok id, ad2) | Raise e => (Raise e, ad2) end) as ->.
  { apply (bind_run _ _ ad None ad); [unfold gets; by rewrite Eb|].
    eapply bind_run; [done|]. eapply bind_run; [done|]. eapply bind_run; [done|].
    destruct o as [[]|e]; [by apply (bind_run _ _ _ _ _ _ E2)|exact (bind_Raise _ _ _ _ _ E2)]. }
  assert (vsame (abs ad) (abs ad2)) as Hs by exact (ready_abs _ _ R2).
  split_and!; [destruct o; apply R2|by destruct o|]. intros Hr. rewrite (Ho Hr). by eexists.
Qed.

Lemma heartbeat_call name now ad : ok ad →
  let x := adapter_heartbeat crash name now ad in
  ok x.2 ∧ vsame (abs ad) (abs x.2) ∧ (call_ready (CHeartbeat name now) ad → x.1 = Ok tt).
Proof.
  intros Hok x. destruct (enabled crash) eqn:Een.
  2: { assert (x = (Ok tt, ad)) as ->; [|by split_and!]. unfold x, adapter_heartbeat. by rewrite Een. }
  destruct (dget (ad_agents ad) name) as [b|] eqn:Eb.
  - destruct (heartbeat_ready crash (ab_agent_id b) now ad Hok) as (o & ad1 & E1 & R1 & Ho).
    assert (x = (o, ad1)) as ->.
    { unfold x, adapter_heartbeat. rewrite Een. apply (bind_run _ _ ad b ad); [by apply binding_run|].
      unfold heartbeat_if_enabled, when in E1. by rewrite Een in E1. }
    split_and!; [apply R1|by apply ready_abs|]. intros [_ Hnow]. by apply Ho.
  - assert (x = (Raise (KeyError "unknown_agent"), ad)) as ->.
    { unfold x, adapter_heartbeat. rewrite Een. apply bind_Raise. unfold binding. by rewrite Eb. }
    split_and!; [done|done|]. intros [[? ?] _]. congruence.
Qed.

Lemma invalidate_all_entry v c a e : dget (Cache.invalidate_all v c) a = Some e → ce_state e = INVALID.
Proof.
  unfold Cache.invalidate_all.
  assert (∀ l d,
    dget (foldl (λ d (kv : UUID * ArtifactCacheEntry), dset d kv.1 (Cache.invalidated v kv.2)) d l) a = Some e →
    ce_state e = INVALID ∨ ((a ∉ l.*1) ∧ dget d a = Some e)) as Hfold.
  { induction l as [|[k x] l IH]; intros d; simpl; [intros Hd; right; split; [by apply not_elem_of_nil|done]|].
    intros Hd. destruct (IH _ Hd) as [?|[Hn Hg]]; [by left|]. rewrite dget_dset in Hg. case_decide as Hk.
    - left. by simplify_eq.
    - right. split; [|done]. rewrite not_elem_of_cons. split; [naive_solver|done]. }
  intros Hd. destruct (Hfold c c Hd) as [?|[Hn Hg]]; [done|]. exfalso. apply dget_Some_key in Hg. done.
Qed.

Lemma recover_call name now ad : ok ad →
  let x := recover crash name now ad in
  ok x.2 ∧ vsame (abs ad) (abs x.2) ∧ (call_ready (CRecover name now) ad → x.1 = Ok tt).
Proof.
  intros Hok x. destruct (dget (ad_agents ad) name) as [b|] eqn:Eb.
  2: { assert (x = (Raise (KeyError "unknown_agent"), ad)) as ->.
       { apply bind_Raise. unfold binding. by rewrite Eb. }
       split_and!; [done|done|]. intros [[? ?] _]. congruence. }
  set (n' := (load ad b) <| cache ::= Cache.invalidate_all None |>).
  assert (settled (ab_agent_id b) 0 (load ad b) n') as S.
  { split; [apply Hok|done|done|done|intros rec Hr; by exists rec; split_and!|]. intros [_ Ht]. split; [|exact Ht].
    intros a e He Hne. by apply invalidate_all_entry in He. }
  destruct (cluster_settled crash ad name b 0 n' Hok Eb S) as [Hok1 Hc1].
  destruct (heartbeat_ready crash (ab_agent_id b) now _ Hok1) as (o & ad2 & E2 & R2 & Ho).
  assert (x = (o, ad2)) as ->.
  { apply (bind_run _ _ ad b ad); [by apply binding_run|]. by apply (bind_run _ _ ad tt (store b n' ad)). }
  split_and!; [apply R2|intros y; etrans; [by apply ready_abs|apply Hc1]|]. intros [_ Hnow]. by apply Ho.
Qed.

Lemma register_artifact_call minted name c sz ad : ok ad → get_record (ad_registry ad) minted = None →
  let x := adapter_register_artifact minted name c sz ad in
  ok x.2 ∧ vsame (vset (abs ad) minted (1, BStr c)) (abs x.2) ∧ ∃ u, x.1 = Ok u ∧ art_id u = minted ∧ art_version u = 1.
Proof.
  intros Hok Hn x. set (art := mkArtifact minted name 1 None sz []). pose proof Hok as [[Hrok Hq Ht] W Hcp Hu].
  destruct (register_artifact_only art (BStr c) (ad_registry ad) Hrok Hn) as
    (r' & rec & Hrun & [Hok' Hk Ho] & Hr & Ha & Hc & _ & _ & Hl & _); [done|].
  change (art_id art) with minted in *.
  assert (x = (Ok art, ad <| ad_registry := r' |>)) as ->.
  { unfold x, adapter_register_artifact, on_service, zoom.
    assert (service_register_artifact minted name (BStr c) None sz None [] (ad_registry ad) = (Ok art, r')) as ->; [|done].
    apply (bind_run _ _ _ _ _ _ Hrun). by apply (bind_run _ _ r' tt r'). }
  split_and!; [|intros y|by eexists].
  - split.
    + split; [done| |].
      * intros sink. simpl. rewrite (kp_state_log _ _ Hk). apply Hq.
      * intros a x0 Hx. simpl in Hx. destruct (decide (a = minted)) as [->|Hne].
        -- assert (x0 = rec) as -> by congruence. by exists c.
        -- rewrite Ho in Hx by done. by eapply Ht.
    + by destruct W.
    + intros nm b Hb. simpl in Hb. destruct (Hcp _ _ Hb) as [M1 M2]. split; [|done]. intros a.
      destruct (decide (a = minted)) as [->|Hne].
      * intros e He Hne. destruct (M1 minted e He Hne) as (y & Hy & _). congruence.
      * eapply copy_ok_same; [by apply Ho|apply M1].
    + intros Hen a y p Hy. simpl in Hy. destruct (decide (a = minted)) as [->|Hne].
      * assert (y = rec) as -> by congruence. unfold reclaimed. rewrite Hl. by intros [? ?].
      * rewrite Ho in Hy by done. by eapply Hu.
  - unfold vset, abs, current. simpl. case_decide as Hy; [subst; rewrite Hr; simpl|by rewrite Ho].
    unfold version. by rewrite Ha, Hc.
Qed.

(** ** The whole *)
Lemma call_keeps c ad : ok ad → call_admissible c ad → ok (call_proc c ad).2.
Proof using Hlaws Haudit.
  intros Hok Hadm. assert (∀ A B (m : AM A) (f : A → B), ok (m ad).2 → ok ((x ← m; mret (f x)) ad).2) as Hret.
  { intros A B m f. unfold mbind, proc_bind. by destruct (m ad) as [[?|?] ?]. }
  destruct c; apply Hret.
  - by apply register_agent_call.
  - by apply register_artifact_call.
  - by apply read_call.
  - by apply write_call.
  - by apply write_cas_call.
  - by apply heartbeat_call.
  - by apply recover_call.
Qed.

Lemma cluster_reachable_ok ad : cluster_reachable ad → ok ad.
Proof using Hlaws Haudit.
  induction 1 as [sink inst retain mi me clock r seq Hr Hq|ad c _ IH Hadm]; [|by apply call_keeps].
  assert (r = mkRegistry [] [] sink [] (Some []) (default mi inst) me 0 retain None [] [] [] [] [] clock 0) as ->.
  { unfold registry_init in Hr. destruct sink, inst; by simplify_eq. }
  split.
  - split; [split; [constructor|done|done]| |done]. intros f Hf. by apply Hq.
  - split; [constructor|done|done|done|done].
  - done.
  - done.
Qed.

Lemma call_refines c ad : ok ad → call_admissible c ad → call_ready c ad → reader_fresh c ad →
  store_step c (abs ad) (abs (call_proc c ad).2) (call_proc c ad).1.
Proof using Hlaws Haudit.
  intros Hok Hadm Hready Hfresh.
  assert (∀ A B (m : AM A) (f : A → B), ((x ← m; mret (f x)) ad) =
    (match (m ad).1 with Ok x => Ok (f x) | Raise e => Raise e end, (m ad).2)) as Hret.
  { intros A B m f. unfold mbind, proc_bind. by destruct (m ad) as [[?|?] ?]. }
  destruct c as [name now|minted name c sz|name a now|name a c now|name a make now|name now|name now]; unfold call_proc; rewrite Hret;
    cbn [store_step fst snd].
  - destruct (register_agent_call name now ad Hok Hadm) as (_ & Hs & Ho). destruct (Ho Hready) as [id ->]. by eauto.
  - destruct (register_artifact_call minted name c sz ad Hok Hadm) as (_ & Hs & u & -> & ? & ?). by eauto.
  - destruct (read_call name a now ad Hok) as (_ & Hs & Ho). split; [done|]. specialize (Ho Hready Hfresh).
    destruct (abs ad a) as [[v b]|]; [destruct Ho as [g ->]; by exists g|by rewrite Ho].
  - destruct (write_call name a c now ad Hok) as (_ & Ho). specialize (Ho Hready).
    destruct (abs ad a) as [[v b]|]; [destruct Ho as (? & u & -> & ?); by eauto|by destruct Ho as [? ->]].
  - destruct (write_cas_call name a make now ad Hok) as (_ & [(Hs & e & ->)|(v & b & e & c & h & u & ? & ? & ? & ? & -> & ?)]).
    + left. by eauto.
    + right. by exists v, b, e, c, h, u.
  - destruct (heartbeat_call name now ad Hok) as (_ & Hs & Ho). by rewrite (Ho Hready).
  - destruct (recover_call name now ad Hok) as (_ & Hs & Ho). by rewrite (Ho Hready).
Qed.

Lemma unswept_reader_fresh c ad : ok ad → enabled crash = false → reader_fresh c ad.
Proof. intros Hok Hen. destruct c; try done. intros b rec _ Hr. right. by apply (cl_unswept _ _ Hok Hen a). Qed.

(** ** Sequences of calls *)
Fixpoint run_calls (cs : list call) (ad : Adapter) : list (call * outcome exn reply) * Adapter :=
  match cs with
  | [] => ([], ad)
  | c :: cs' => let '(o, ad1) := call_proc c ad in let '(t, ad2) := run_calls cs' ad1 in ((c, o) :: t, ad2)
  end.

Fixpoint calls_ok (cs : list call) (ad : Adapter) : Prop :=
  match cs with
  | [] => True
  | c :: cs' => (call_admissible c ad ∧ call_ready c ad ∧ (enabled crash = false ∨ reader_fresh c ad)) ∧
                calls_ok cs' (call_proc c ad).2
  end.

Lemma run_refines cs ad : ok ad → calls_ok cs ad → store_run (run_calls cs ad).1 (abs ad) (abs (run_calls cs ad).2).
Proof using Hlaws Haudit.
  revert ad. induction cs as [|c cs IH]; intros ad Hok Hcs; simpl; [by constructor|].
  destruct Hcs as [(Hadm & Hready & Hfresh) Hcs]. assert (reader_fresh c ad) as Hf.
  { destruct Hfresh as [Hen|?]; [by apply unswept_reader_fresh|done]. }
  pose proof (call_refines c ad Hok Hadm Hready Hf) as Hstep. pose proof (call_keeps c ad Hok Hadm) as Hok1.
  destruct (call_proc c ad) as [o ad1]. simpl in *. specialize (IH ad1 Hok1 Hcs).
  destruct (run_calls cs ad1) as [t ad2]. simpl in *. by econstructor.
Qed.

(** The conditions of a sequence, decided by running it. *)
Definition call_check (c : call) (ad : Adapter) : bool :=
  let ready name (now : Z) := dmem (ad_agents ad) name && (negb (enabled crash) || (0 <=? now)%Z) in
  match c with
  | CRegisterAgent name now =>
    forallb (λ kb, bool_decide (ab_agent_id kb.2 ≠ agent_uuid name) || bool_decide (kb.1 = name)) (ad_agents ad) &&
    (negb (enabled crash) || (0 <=? now)%Z)
  | CRegisterArtifact minted _ _ _ => bool_decide (get_record (ad_registry ad) minted = None)
  | CRead name a now => ready name now &&
    match dget (ad_agents ad) name, get_record (ad_registry ad) a with
    | Some b, Some rec => non_invalid (st rec (ab_agent_id b)) || negb (dmem (last_reclamation_by_agent rec) (ab_agent_id b))
    | _, _ => true
    end
  | CWrite name _ _ now | CWriteCas name _ _ now | CHeartbeat name now | CRecover name now => ready name now
  end.
Fixpoint calls_check (cs : list call) (ad : Adapter) : bool :=
  match cs with [] => true | c :: cs' => call_check c ad && calls_check cs' (call_proc c ad).2 end.

Lemma ready_check ad name now : dmem (ad_agents ad) name && (negb (enabled crash) || (0 <=? now)%Z) = true →
  is_Some (dget (ad_agents ad) name) ∧ (enabled crash = true → 0 <= now).
Proof.
  intros [Hm Hn]%andb_prop. split; [unfold dmem in Hm; by destruct (dget (ad_agents ad) name)|].
  intros He. rewrite He in Hn. simpl in Hn. lia.
Qed.

Lemma call_check_sound c ad : call_check c ad = true → call_admissible c ad ∧ call_ready c ad ∧ reader_fresh c ad.
Proof.
  destruct c; simpl; intros Hk; try (split; [done|split; [by apply ready_check|done]]).
  - apply andb_prop in Hk as [Hf Hn]. split_and!; [|intros He; rewrite He in Hn; simpl in Hn; lia|done].
    intros name' b Hb Hid. rewrite forallb_forall in Hf. specialize (Hf (name', b)).
    apply dget_Some_elem, list_elem_of_In in Hb. apply Hf, orb_prop in Hb as [Hb|Hb]; by apply bool_decide_eq_true in Hb.
  - by split_and!; [apply bool_decide_eq_true in Hk|..].
  - apply andb_prop in Hk as [Hr Hk]. split; [done|split; [by apply ready_check|]]. intros b rec Hb Hrec.
    rewrite Hb, Hrec in Hk. apply orb_prop in Hk as [Hk|Hk]; [by left|right]. unfold dmem, reclaimed in *.
    destruct (dget (last_reclamation_by_agent rec) _); [done|by intros [? ?]].
Qed.

Lemma calls_check_sound cs ad : calls_check cs ad = true → calls_ok cs ad.
Proof.
  revert ad. induction cs as [|c cs IH]; intros ad; simpl; [done|]. intros [Hc Hcs]%andb_prop.
  destruct (call_check_sound _ _ Hc) as (? & ? & ?). split; [by split_and!; [..|right]|by apply IH].
Qed.

Lemma run_calls_reachable cs ad : cluster_reachable ad → calls_check cs ad = true → cluster_reachable (run_calls cs ad).2.
Proof.
  revert ad. induction cs as [|c cs IH]; intros ad Hr; simpl; [done|]. intros [Hc Hcs]%andb_prop.
  assert (cluster_reachable (call_proc c ad).2) as Hr1 by (apply cr_step; [done|by apply call_check_sound]).
  destruct (call_proc c ad) as [o ad1]. specialize (IH ad1 Hr1 Hcs). by destruct (run_calls cs ad1).
Qed.

(** C3 (a cluster is one store): any sequence of adapter calls, by any agents, under any
    lawful strategy, answers as a single versioned store does: a read returns the last
    version written and its body, a write moves to the next version, an optimistic
    write replaces the version its content was made from or changes nothing, and
    registrations, heartbeats and recoveries change no content.  Side conditions: the
    state-log and audit callbacks do not raise; calls run one after the other; the
    calling agents are registered, ticks are not negative when heartbeats are recorded,
    drawn artifact ids are fresh and different agent names have different ids; with
    crash recovery on, the reads are of copies that were not reclaimed. *)
Theorem adapter_refines_store cs ad : cluster_reachable ad → calls_ok cs ad →
  store_run (run_calls cs ad).1 (abs ad) (abs (run_calls cs ad).2).
Proof using Hlaws Haudit. intros Hr. by apply run_refines, cluster_reachable_ok. Qed.

(** In every state the adapter can reach, with state-log and audit callbacks that
    do not raise, fresh artifact ids and distinct agent ids, the copies of every
    artifact are coherent, also under strategies that broadcast the content: delivered
    synchronously, an update never meets another write grant. *)
Theorem adapter_coherent ad a : cluster_reachable ad → coherent (ad_registry ad) a.
Proof using Hlaws Haudit. intros Hr. by apply reg_ok_coherent, (cl_calm _ _ (cluster_reachable_ok ad Hr)). Qed.

(** C39 (staleness of cached reads): under any lawful strategy and whatever calls came
    before, a read whose cache entry needs no refresh answers that entry and its body
    and moves nothing in the store: the coordinator is not asked.  What it answers is
    the current version and body, unless the sweep of the crash recovery reclaimed the
    reader's copy: the cache is not told of a reclamation, so the agent may go on
    reading a version the coordinator has left behind.  State log and audit callback
    do not raise. *)
Theorem stale_only_if_reclaimed ad name b a e now : cluster_reachable ad →
  dget (ad_agents ad) name = Some b → (enabled crash = true → 0 <= now) →
  dget (ab_cache b) a = Some e → requires_refresh strategy e now = false →
  ∃ ad' rec, call_proc (CRead name a now) ad =
      (Ok (RRead (mkFetchResponse a (ce_local_version e) (default (BStr "") (dget (ab_content b) a)) (ce_state e))), ad') ∧
    vsame (abs ad) (abs ad') ∧ get_record (ad_registry ad) a = Some rec ∧
    ((ce_local_version e = version rec ∧ dget (ab_content b) a = Some (content rec)) ∨
     (¬ valid rec (ab_agent_id b) ∧ reclaimed rec (ab_agent_id b))).
Proof using Hlaws Haudit.
  intros Hreach Hb Hnow He Hq. pose proof (cluster_reachable_ok ad Hreach) as Hok.
  destruct (cl_copies _ _ Hok _ _ Hb) as [Hcp Ht].
  assert (ce_state e ≠ INVALID) as Hne by (intros Hi; rewrite law_invalid in Hq; congruence).
  destruct (Hcp a e He Hne) as (rec & Hr & Hcur & Hor).
  destruct (read_call name a now ad Hok) as (_ & Hsame & _).
  destruct (enveloped name (λ b, on_runtime b (Runtime.read (ab_agent_id b) strategy audit
    (Some (ab_name b)) instance a now)) now ad Hok) as [(x & ad1 & _ & _ & _ & Hn)|(b1 & ad1 & E & Hb1 & _ & _)];
    [by destruct Hn|].
  assert (b1 = b) as -> by congruence.
  destruct (cached_read (ab_agent_id b) strategy audit (Some (ab_name b)) instance Haudit a now (load ad1 b) e Ht He Hq)
    as (n' & Hrun & _).
  change (adapter_read strategy crash audit instance name a now ad = on_runtime b (Runtime.read (ab_agent_id b) strategy audit
    (Some (ab_name b)) instance a now) ad1) in E. rewrite (on_runtime_run _ _ _ _ _ Hrun) in E.
  rewrite E in Hsame. eexists _, rec. split_and!; [by apply (bind_run _ _ _ _ _ _ E)|done|done|].
  destruct Hor as [Hv|Hrc]; [left; by apply Hcur|]. destruct (decide (non_invalid (st rec (ab_agent_id b)) = true)) as [Hv|Hv];
    [left; by apply Hcur|by right].
Qed.
End refinement.

(** ** A concrete cluster *)
Module Pair.
Definition x : UUID := 7.
Definition start : Adapter :=
  mkAdapter (mkRegistry [] [] None [] (Some []) "i" "e" 0 false None [] [] [] [] [] (λ _, 0) 0) None [] [] [] [] None false.
Definition enrol : list call :=
  [CRegisterAgent "A" 0; CRegisterAgent "B" 0; CRegisterArtifact x "x" "v1" None].
Definition exchange : list call := enrol ++
  [CRead "B" x 1; CWrite "A" x "v2" 2; CRead "B" x 3; CWriteCas "B" x (λ _, Ok ("v3", None)) 4; CRead "A" x 5].
(** [A] writes, stays alive by heartbeats until its grant is too old, and [B] writes. *)
Definition long_hold : list call := enrol ++
  CWrite "A" x "v2" 1 :: map (λ k, CHeartbeat "A" (100 * Z.of_nat k)) (seq 1 10) ++ [CWrite "B" x "v3" 1000].

Definition run_lazy (cs : list call) : list (call * outcome exn reply) * Adapter :=
  run_calls mkLazy CrashRecoveryConfig_default None None cs start.

Lemma start_reachable (s : LazyStrategy) crash audit inst : cluster_reachable s crash audit inst start.
Proof. by apply (cr_init _ _ _ _ None (Some "i") false "i" "e" (λ _, 0)). Qed.
Lemma no_audit : audit_quiet None.
Proof. done. Qed.
End Pair.

(** The exchange runs under the default configuration and ends with [A] reading
    version 3, which [B] wrote. *)
Lemma adapter_refines_store_witness :
  store_run (Pair.run_lazy Pair.exchange).1 (abs Pair.start) (abs (Pair.run_lazy Pair.exchange).2) ∧
  snd <$> last (Pair.run_lazy Pair.exchange).1 = Some (Ok (RRead (mkFetchResponse Pair.x 3 (BStr "v3") SHARED))).
Proof.
  split; [|vm_compute; reflexivity].
  apply (adapter_refines_store mkLazy CrashRecoveryConfig_default None None Pair.no_audit); [apply Pair.start_reachable|].
  apply calls_check_sound. vm_compute. reflexivity.
Defined.

Lemma adapter_coherent_witness : coherent (ad_registry (Pair.run_lazy Pair.exchange).2) Pair.x.
Proof.
  apply (adapter_coherent mkLazy CrashRecoveryConfig_default None None Pair.no_audit), run_calls_reachable;
    [apply Pair.start_reachable|vm_compute; reflexivity].
Defined.

(** [A] of [long_hold] lost its grant to the sweep and reads version 2, as MODIFIED,
    after [B] wrote version 3. *)
Lemma stale_only_if_reclaimed_witness : ∃ b e ad' rec,
  dget (ad_agents (Pair.run_lazy Pair.long_hold).2) "A" = Some b ∧ dget (ab_cache b) Pair.x = Some e ∧
  call_proc mkLazy CrashRecoveryConfig_default None None (CRead "A" Pair.x 1001) (Pair.run_lazy Pair.long_hold).2 =
    (Ok (RRead (mkFetchResponse Pair.x 2 (BStr "v2") MODIFIED)), ad') ∧
  abs ad' Pair.x = Some (3, BStr "v3") ∧
  get_record (ad_registry (Pair.run_lazy Pair.long_hold).2) Pair.x = Some rec ∧
  ((2 = version rec ∧ Some (BStr "v2") = Some (content rec)) ∨
   (¬ valid rec (ab_agent_id b) ∧ reclaimed rec (ab_agent_id b))).
Proof.
  assert (cluster_reachable mkLazy CrashRecoveryConfig_default None None (Pair.run_lazy Pair.long_hold).2) as Hr
    by (apply run_calls_reachable; [apply Pair.start_reachable|vm_compute; reflexivity]).
  assert (∃ b e, dget (ad_agents (Pair.run_lazy Pair.long_hold).2) "A" = Some b ∧ dget (ab_cache b) Pair.x = Some e ∧
    dget (ab_content b) Pair.x = Some (BStr "v2") ∧ ce_local_version e = 2 ∧ ce_state e = MODIFIED ∧
    requires_refresh mkLazy e 1001 = false) as (b & e & Hb & He & Hc & Hv & Hs & Hq)
    by (do 2 eexists; split_and!; vm_compute; reflexivity).
  destruct (stale_only_if_reclaimed mkLazy CrashRecoveryConfig_default None None Pair.no_audit
    (Pair.run_lazy Pair.long_hold).2 "A" b Pair.x e 1001 Hr Hb ltac:(done) He Hq) as (ad' & rec & Hrun & Hsame & Hrec & Hwhy).
  rewrite Hv, Hc, Hs in *. exists b, e, ad', rec. split_and!; [exact Hb|exact He|exact Hrun| |exact Hrec|exact Hwhy].
  rewrite Hsame. vm_compute. reflexivity.
Defined.
