(* ===== verification/SqliteRegistry.v ===== *)
(** The durable artifact registry: [src/ccs/coordinator/sqlite_registry.py].

    [Db] holds one finite map per table of the schema, keyed by the table's primary
    key; [Handle] is the registry object with its connection.  A method is a procedure
    on the handle, a transaction restores [db] on every exception.  What the code
    leaves to the engine is left open here: [scan] is the order in which a SELECT
    without ORDER BY returns its rows, [h_busy] says which BEGIN or COMMIT is refused
    with SQLITE_BUSY.  Ids and enum names are stored as themselves, not as the hex
    and name strings the columns hold; schema creation and migration are in
    [Migration]. *)
From S2P Require Import Prelude Core Retention Registry.
From Stdlib Require Import Ascii.

Open Scope Z_scope.
Open Scope string_scope.

(** ** Tables *)
Record ArtRow := mkArtRow {
  ar_name : string;
  ar_version : Z;
  ar_owner_generation : Z;
  ar_content_hash : string;
  ar_size_tokens : option Z;
  ar_last_writer_id : option UUID;
  ar_updated_at : Z;
}.
#[export] Instance eta_ArtRow : Settable ArtRow :=
  rec_pure mkArtRow <*> ar_name <*> ar_version <*> ar_owner_generation <*> ar_content_hash
    <*> ar_size_tokens <*> ar_last_writer_id <*> ar_updated_at.

Record StateRow := mkStateRow {
  sr_state : MESIState;
  sr_transient_state : option TransientState;
  sr_transient_tick : option Z;
  sr_granted_at_tick : option Z;
  sr_last_reclaim_trigger : option string;
  sr_last_reclaim_tick : option Z;
  sr_read_generation : option Z;
  sr_last_observed_version : option Z;
}.
#[export] Instance eta_StateRow : Settable StateRow :=
  rec_pure mkStateRow <*> sr_state <*> sr_transient_state <*> sr_transient_tick <*> sr_granted_at_tick
    <*> sr_last_reclaim_trigger <*> sr_last_reclaim_tick <*> sr_read_generation <*> sr_last_observed_version.

#[export] Instance conflict_reason_countable : Countable ConflictReason.
Proof.
  refine (inj_countable' (λ r, match r with version_mismatch => 0%nat | other_holder => 1%nat
                                          | stale_read_generation => 2%nat end)
            (λ n, match n with O => version_mismatch | S O => other_holder | _ => stale_read_generation end) _).
  by intros [].
Defined.

(** The tables.  An INTEGER column of SQLite holds 64 bits and the driver raises
    [OverflowError] beyond; the integers here are unbounded, so that is not modelled. *)
Record Db := mkDb {
  artifacts : gmap UUID ArtRow;
  agent_states : gmap (UUID * UUID) StateRow;
  heartbeats : gmap UUID Z;
  artifact_versions : gmap (UUID * Z) (body * Z);
  pins_table : gmap (string * UUID) Z;
  meta_table : gmap string (UUID * Z);
  checkpoints_table : gmap string CheckpointRecord;
  members_table : gmap (string * string) CheckpointMember;
  pending_notices : gmap (UUID * UUID) (UUID * Z);
  conflict_counters : gmap (UUID * UUID * ConflictReason) Z;
  (** [registry_meta]: the identities and the retention keys *)
  meta_instance_id : string;
  meta_epoch : string;
  meta_retention : option (bool * option Z * option Z);
}.
#[export] Instance eta_Db : Settable Db :=
  rec_pure mkDb <*> artifacts <*> agent_states <*> heartbeats <*> artifact_versions <*> pins_table
    <*> meta_table <*> checkpoints_table <*> members_table <*> pending_notices <*> conflict_counters
    <*> meta_instance_id <*> meta_epoch <*> meta_retention.

Definition empty_db (instance epoch : string) : Db := mkDb ∅ ∅ ∅ ∅ ∅ ∅ ∅ ∅ ∅ ∅ instance epoch None.

(** ** The handle

    [stored_seq] is the row [sequence_number] of [registry_meta], part of the store as
    [db] is.  [seq_incremented] is the local counter of the logging methods: how many
    sequence numbers the running call has reserved. *)
Record Handle := mkHandle {
  db : Db;
  stored_seq : Z;
  h_seq : Z;
  seq_incremented : Z;
  h_state_log : option (list (LogEntry * bool) → LogEntry → bool);
  h_log_calls : list (LogEntry * bool);
  h_agent_names : option (list (UUID * string));
  h_instance_id : string;
  h_epoch : string;
  h_retain : bool;
  h_policy : option RetentionPolicy;
  h_read_only : bool;
  h_clock : nat → Z;
  h_reads : nat;
  h_busy : nat → bool;
  h_locks : nat;
}.
#[export] Instance eta_Handle : Settable Handle :=
  rec_pure mkHandle <*> db <*> stored_seq <*> h_seq <*> seq_incremented <*> h_state_log <*> h_log_calls <*> h_agent_names
    <*> h_instance_id <*> h_epoch <*> h_retain <*> h_policy <*> h_read_only <*> h_clock <*> h_reads
    <*> h_busy <*> h_locks.

Definition HM (A : Type) : Type := proc exn Handle A.

(** ** Statements and transactions *)
Definition guard_writable : HM unit := λ s,
  if h_read_only s then (Raise ReadOnlyMutationError, s) else (Ok tt, s).

Definition time_time : HM Z := λ s, (Ok (h_clock s (h_reads s)), s <| h_reads ::= S |>).

(** BEGIN IMMEDIATE and COMMIT each acquire a lock and may find the database busy. *)
Definition acquire : HM unit := λ s,
  (if h_busy s (h_locks s) then Raise (OperationalError "database is locked") else Ok tt, s <| h_locks ::= S |>).

Definition on_db (f : Db → Db) : HM unit := modify (λ s, s <| db ::= f |>).
Definition select {A} (f : Db → A) : HM A := gets (λ s, f (db s)).

(** BEGIN IMMEDIATE; the body; COMMIT.  Every exception after BEGIN rolls back. *)
Definition transaction {A} (m : HM A) : HM A := λ s,
  match acquire s with
  | (Raise e, s) => (Raise e, s)
  | (Ok _, s0) =>
    match (x ← m; acquire ;; mret x) s0 with
    | (Ok x, s1) => (Ok x, s1)
    | (Raise e, s1) => (Raise e, s1 <| db := db s0 |> <| stored_seq := stored_seq s0 |>)
    end
  end.

(** The same with the bookkeeping of the reserved sequence numbers. *)
Definition logged_transaction {A} (m : HM A) : HM A := λ s,
  match transaction m (s <| seq_incremented := 0 |>) with
  | (Ok x, s) => (Ok x, s <| seq_incremented := 0 |>)
  | (Raise e, s) => (Raise e, s <| h_seq ::= λ n, n - seq_incremented s |> <| seq_incremented := 0 |>)
  end.

Definition select_artifact (a : UUID) : HM ArtRow := λ s,
  match artifacts (db s) !! a with
  | Some row => (Ok row, s)
  | None => (Raise (KeyError "artifact"), s)
  end.

Definition update_artifact (a : UUID) (f : ArtRow → ArtRow) : HM unit := on_db (λ d, d <| artifacts ::= alter f a |>).
Definition update_state (k : UUID * UUID) (f : StateRow → StateRow) : HM unit :=
  on_db (λ d, d <| agent_states ::= alter f k |>).

(** INSERT: the primary key, the UNIQUE name and the foreign key. *)
Definition name_taken (d : Db) (a : UUID) (name : string) : bool :=
  existsb (λ kr : UUID * ArtRow, bool_decide (kr.1 ≠ a) && bool_decide (ar_name kr.2 = name)) (map_to_list (artifacts d)).
Definition insert_artifact (a : UUID) (row : ArtRow) : HM unit := λ s,
  if bool_decide (is_Some (artifacts (db s) !! a)) || name_taken (db s) a (ar_name row)
  then (Raise (IntegrityError "UNIQUE constraint failed"), s)
  else on_db (λ d, d <| artifacts ::= <[a := row]> |>) s.
Definition references (a : UUID) : HM unit := λ s,
  if bool_decide (is_Some (artifacts (db s) !! a)) then (Ok tt, s)
  else (Raise (IntegrityError "FOREIGN KEY constraint failed"), s).
Definition insert_state (k : UUID * UUID) (row : StateRow) : HM unit :=
  references k.1 ;;
  dup ← select (λ d, bool_decide (is_Some (agent_states d !! k)));
  if dup : bool then raise (IntegrityError "UNIQUE constraint failed")
  else on_db (λ d, d <| agent_states ::= <[k := row]> |>).

(** An UPDATE that sets the name of a row that exists. *)
Definition rename_free (a : UUID) (name : string) : HM unit := λ s,
  if bool_decide (is_Some (artifacts (db s) !! a)) && name_taken (db s) a name
  then (Raise (IntegrityError "UNIQUE constraint failed"), s) else (Ok tt, s).

(** A state row as the transient upsert creates it. *)
Definition blank_state (state : MESIState) : StateRow := mkStateRow state None None None None None None None.

(** ** Reads by primary key *)
Definition row_artifact (a : UUID) (row : ArtRow) : Artifact :=
  mkArtifact a (ar_name row) (ar_version row)
    (if bool_decide (ar_content_hash row = "") then None else Some (ar_content_hash row))
    (ar_size_tokens row) [].

Definition sql_has_artifact (d : Db) (a : UUID) : bool := bool_decide (is_Some (artifacts d !! a)).
Definition fetch_artifact_row (d : Db) (a : UUID) : option (Artifact * option UUID) :=
  row ← artifacts d !! a; Some (row_artifact a row, ar_last_writer_id row).
Definition sql_get_artifact (d : Db) (a : UUID) : option Artifact := fst <$> fetch_artifact_row d a.
(** No body is kept: [b""] for a known artifact. *)
Definition sql_get_content (d : Db) (a : UUID) : option body :=
  if sql_has_artifact d a then Some (BBytes "") else None.
Definition sql_get_owner_generation (d : Db) (a : UUID) : outcome exn Z :=
  match artifacts d !! a with
  | Some row => Ok (ar_owner_generation row)
  | None => Raise (KeyError "artifact")
  end.
Definition sql_get_artifact_and_generation (d : Db) (a : UUID) : option (Artifact * Z) :=
  row ← artifacts d !! a; Some (row_artifact a row, ar_owner_generation row).
Definition sql_get_read_generation (d : Db) (a ag : UUID) : option Z :=
  row ← agent_states d !! (a, ag); sr_read_generation row.
Definition sql_last_observed_version_for (d : Db) (a ag : UUID) : option Z :=
  row ← agent_states d !! (a, ag); sr_last_observed_version row.
Definition sql_get_content_at_version (d : Db) (a : UUID) (v : Z) : option body :=
  fst <$> artifact_versions d !! (a, v).
Definition sql_get_version_record (d : Db) (a : UUID) (v : Z) : option (body * Z) := artifact_versions d !! (a, v).
Definition sql_get_agent_state (d : Db) (a ag : UUID) : option MESIState :=
  sr_state <$> agent_states d !! (a, ag).
Definition sql_get_agent_transient (d : Db) (a ag : UUID) : option TransientState :=
  row ← agent_states d !! (a, ag); sr_transient_state row.
Definition sql_get_transient_tick (d : Db) (a ag : UUID) : option Z :=
  row ← agent_states d !! (a, ag); sr_transient_tick row.
Definition sql_last_heartbeat_tick (d : Db) (ag : UUID) : option Z := heartbeats d !! ag.
(** The two reclamation columns are written and cleared together. *)
Definition sql_get_last_reclamation (d : Db) (ag a : UUID) : option ReclamationSlot :=
  row ← agent_states d !! (a, ag);
  trigger ← sr_last_reclaim_trigger row;
  Some (trigger, default 0 (sr_last_reclaim_tick row)).
Definition sql_granted_at_tick (d : Db) (ag a : UUID) : option Z :=
  row ← agent_states d !! (a, ag); sr_granted_at_tick row.
Definition sql_get_session_meta (d : Db) (token : string) : option (UUID * Z) := meta_table d !! token.
Definition sql_session_count (d : Db) : Z := Z.of_nat (size (meta_table d)).
Definition sql_get_checkpoint (d : Db) (id : string) : option CheckpointRecord := checkpoints_table d !! id.
Definition last_writer_for (d : Db) (a : UUID) : option UUID := row ← artifacts d !! a; ar_last_writer_id row.
Definition get_artifact_updated_at (d : Db) (a : UUID) : option Z := ar_updated_at <$> artifacts d !! a.
Definition peek_preemption_notice (d : Db) (ag a : UUID) : option (UUID * Z) := pending_notices d !! (ag, a).

(** ** Queries that return several rows *)
Section queries.
Context (scan : ∀ {A}, list A → list A).
Arguments scan {A}.

Definition sql_artifact_ids (d : Db) : list UUID := (scan (map_to_list (artifacts d))).*1.

(** [WHERE artifact_id = ? AND P]: the agent and its row. *)
Definition state_rows (d : Db) (a : UUID) (P : UUID → StateRow → bool) : list (UUID * StateRow) :=
  scan (omap (λ kr : (UUID * UUID) * StateRow,
    if bool_decide (kr.1.1 = a) && P kr.1.2 kr.2 then Some (kr.1.2, kr.2) else None) (map_to_list (agent_states d))).

Definition sql_get_state_map (d : Db) (a : UUID) : list (UUID * MESIState) :=
  map (λ pr : UUID * StateRow, (pr.1, sr_state pr.2)) (state_rows d a (λ _ _, true)).
Definition sql_get_transient_map (d : Db) (a : UUID) : list (UUID * TransientState) :=
  omap (λ pr : UUID * StateRow, t ← sr_transient_state pr.2; Some (pr.1, t))
    (state_rows d a (λ _ row, bool_decide (is_Some (sr_transient_state row)))).
Definition sql_valid_holders (d : Db) (a : UUID) : list UUID :=
  (state_rows d a (λ _ row, non_invalid (sr_state row))).*1.

Definition sql_get_session_cut (d : Db) (token : string) : option (list (UUID * Z)) :=
  match scan (omap (λ kv : (string * UUID) * Z, if bool_decide (kv.1.1 = token) then Some (kv.1.2, kv.2) else None)
                (map_to_list (pins_table d))) with
  | [] => None
  | rows => Some rows
  end.
Definition sql_all_session_meta (d : Db) : list (string * (UUID * Z)) := scan (map_to_list (meta_table d)).
Definition sql_conflict_outcome_totals (d : Db) : list ((UUID * UUID * ConflictReason) * Z) :=
  scan (map_to_list (conflict_counters d)).

(** ORDER BY sorts; the primary keys make the order total. *)
Definition sql_list_checkpoints (d : Db) : list CheckpointRecord :=
  sorting.merge_sort checkpoint_le (scan (map_to_list (checkpoints_table d))).*2.
Definition sql_get_checkpoint_members (d : Db) (id : string) : list CheckpointMember :=
  (sorting.merge_sort path_le
     (scan (omap (λ kr : (string * string) * CheckpointMember,
        if bool_decide (kr.1.1 = id) then Some (kr.1.2, kr.2) else None) (map_to_list (members_table d))))).*2.

Definition lookup_artifact_id_by_name (d : Db) (name : string) : option UUID :=
  fst <$> head (scan (filter (λ kr : UUID * ArtRow, ar_name kr.2 = name) (map_to_list (artifacts d)))).

Definition artifacts_held_by_agent (d : Db) (ag : UUID) (states : list MESIState) : list UUID :=
  match states with
  | [] => []
  | _ => scan (omap (λ kr : (UUID * UUID) * StateRow,
           if bool_decide (kr.1.2 = ag) && bool_decide (sr_state kr.2 ∈ states) then Some kr.1.1 else None)
           (map_to_list (agent_states d)))
  end.

(** [status_snapshot]: names and versions of all artifacts, and the state maps, of all
    agents or of the given ones. *)
Definition status_snapshot (d : Db) (agent_ids : option (list UUID))
    : list (UUID * (string * Z)) * list (UUID * list (UUID * MESIState)) :=
  let arts := map (λ kr : UUID * ArtRow, (kr.1, (ar_name kr.2, ar_version kr.2))) (scan (map_to_list (artifacts d))) in
  let state_rows := match agent_ids with
                    | None => scan (map_to_list (agent_states d))
                    | Some [] => []
                    | Some ids => scan (filter (λ kr : (UUID * UUID) * StateRow, kr.1.2 ∈ ids) (map_to_list (agent_states d)))
                    end in
  (arts, foldl (λ acc kr, match dget acc kr.1.1 with
                          | Some m => dset acc kr.1.1 (dset m kr.1.2 (sr_state kr.2))
                          | None => acc
                          end) (map (λ ar, (ar.1, [])) arts) state_rows).

(** ** Retention capture *)
Definition live_pins_for_artifact_sql (d : Db) (a : UUID) : gset Z :=
  list_to_set (omap (λ kv : (string * UUID) * Z, if bool_decide (kv.1.2 = a) then Some kv.2 else None)
                 (scan (map_to_list (pins_table d)))).

Definition version_rows (d : Db) (a : UUID) : list (Z * Z) :=
  scan (omap (λ kv : (UUID * Z) * (body * Z), if bool_decide (kv.1.1 = a) then Some (kv.1.2, kv.2.2) else None)
          (map_to_list (artifact_versions d))).

(** [INSERT OR REPLACE], then the collection of the rows the policy gives up. *)
Definition capture_version_sql (a : UUID) (version : Z) (c : body) : HM unit :=
  captured_at ← time_time;
  references a ;;
  on_db (λ d, d <| artifact_versions ::= <[(a, version) := (c, captured_at)]> |>) ;;
  policy ← gets h_policy;
  match policy with
  | None => mret tt
  | Some policy =>
    dropped ← select (λ d, collectible_versions (VMapping (version_rows d a)) version policy captured_at
                             (live_pins_for_artifact_sql d a));
    for_each (elements dropped) (λ v, on_db (λ d, d <| artifact_versions ::= delete (a, v) |>))
  end.

(** ** The state log *)

(** [_emit_state_log], inside the caller's transaction: the number is reserved, given
    back when the callback raises, and persisted otherwise. *)
Definition sql_emit_state_log (a ag : UUID) (from to : MESIState) (trigger : string) (tick version : Z)
    (content_hash : option string) : HM unit := λ s,
  match h_state_log s with
  | None => (Ok tt, s)
  | Some sink =>
    let entry := mkLogEntry tick a ag (names ← h_agent_names s; dget names ag) from to trigger version content_hash
                   (h_seq s + 1) (h_instance_id s) in
    let raises := sink (h_log_calls s) entry in
    let s' := s <| h_log_calls ::= λ l, (l ++ [(entry, negb raises)])%list |> in
    if raises then (Raise CallbackError, s')
    else (Ok tt, s' <| h_seq := h_seq s + 1 |> <| seq_incremented ::= λ n, n + 1 |>
                    <| stored_seq := h_seq s + 1 |>)
  end.

(** ** Artifacts *)
Definition sql_register_artifact (a : Artifact) (c : body) : HM unit :=
  guard_writable ;;
  transaction (
    now ← time_time;
    insert_artifact (art_id a)
      (mkArtRow (art_name a) (art_version a) 0 (default "" (art_content_hash a)) (art_size_tokens a) None now) ;;
    retain ← gets h_retain;
    when retain (capture_version_sql (art_id a) (art_version a) c)).

(** The fence leg of the pessimistic commit: a NULL or missing claim is admitted. *)
Definition sql_fence_check (a ag : UUID) : HM unit :=
  claim ← select (λ d, sql_get_read_generation d a ag);
  match claim with
  | None => mret tt
  | Some read_gen =>
    row ← select_artifact a;
    if bool_decide (read_gen < ar_owner_generation row) then raise StaleReadGeneration else mret tt
  end.

Definition sql_set_artifact_and_content (a : UUID) (new : Artifact) (c : body)
    (writer fence_agent_id : option UUID) : HM unit :=
  guard_writable ;;
  transaction (
    match fence_agent_id with Some ag => sql_fence_check a ag | None => mret tt end ;;
    now ← time_time;
    rename_free a (art_name new) ;;
    update_artifact a (λ row, row <| ar_name := art_name new |> <| ar_version := art_version new |>
      <| ar_content_hash := default "" (art_content_hash new) |> <| ar_size_tokens := art_size_tokens new |>
      <| ar_last_writer_id := writer |> <| ar_updated_at := now |>) ;;
    retain ← gets h_retain;
    when retain (capture_version_sql a (art_version new) c)).

(** The foreign keys cascade to the states, the history and the notices. *)
Definition sql_remove_artifact (a : UUID) : HM unit :=
  guard_writable ;;
  transaction (on_db (λ d, d
    <| artifacts ::= delete a |>
    <| agent_states ::= filter (λ kr : (UUID * UUID) * StateRow, kr.1.1 ≠ a) |>
    <| artifact_versions ::= filter (λ kr : (UUID * Z) * (body * Z), kr.1.1 ≠ a) |>
    <| pending_notices ::= filter (λ kr : (UUID * UUID) * (UUID * Z), kr.1.2 ≠ a) |>)).

(** ** Grants *)
Definition sql_set_agent_state (a ag : UUID) (state : MESIState) (trigger : string) (tick : Z)
    (content_hash : option string) : HM unit :=
  guard_writable ;;
  logged_transaction (
    prior ← select (λ d, agent_states d !! (a, ag));
    let from_state := default INVALID (sr_state <$> prior) in
    let prior_granted_at := prior ≫= sr_granted_at_tick in
    let new_in_me := m_or_e state in
    let prev_in_me := m_or_e from_state in
    let granted_at := if new_in_me && negb prev_in_me then Some tick
                      else if new_in_me && prev_in_me then prior_granted_at
                      else if prev_in_me then None
                      else prior_granted_at in
    let clear_reclaim := new_in_me && negb prev_in_me in
    art ← select_artifact a;
    let version := ar_version art in
    when (prev_in_me && negb new_in_me && bool_decide (trigger ∈ EPOCH_BUMP_TRIGGERS))
      (update_artifact a (λ row, row <| ar_owner_generation ::= λ g, g + 1 |>)) ;;
    let observe := non_invalid state in
    match prior with
    | None => insert_state (a, ag) ((blank_state state) <| sr_granted_at_tick := granted_at |>
                <| sr_last_observed_version := if observe then Some version else None |>)
    | Some _ => update_state (a, ag) (λ row,
        let row := row <| sr_state := state |> <| sr_granted_at_tick := granted_at |> in
        let row := if clear_reclaim
                   then row <| sr_last_reclaim_trigger := None |> <| sr_last_reclaim_tick := None |> else row in
        if observe then row <| sr_last_observed_version := Some version |> else row)
    end ;;
    when ((new_in_me && negb prev_in_me) ||
          (bool_decide (trigger ∈ CLAIM_CAPTURE_TRIGGERS) && non_invalid state && negb prev_in_me))
      (on_db (λ d, d <| agent_states ::= alter (λ row,
         row <| sr_read_generation := ar_owner_generation <$> artifacts d !! a |>) (a, ag) |>)) ;;
    sql_emit_state_log a ag from_state state trigger tick version content_hash).

(** [INSERT ... ON CONFLICT DO UPDATE]; the new row of an unknown agent is INVALID. *)
Definition sql_set_agent_transient (a ag : UUID) (t : TransientState) (entered_tick : Z) : HM unit :=
  guard_writable ;;
  transaction (
    references a ;;
    on_db (λ d, d <| agent_states ::= λ m,
      <[(a, ag) := (default (blank_state INVALID) (m !! (a, ag)))
                     <| sr_transient_state := Some t |> <| sr_transient_tick := Some entered_tick |>]> m |>)).

Definition sql_clear_agent_transient (a ag : UUID) : HM unit :=
  guard_writable ;;
  transaction (update_state (a, ag) (λ row, row <| sr_transient_state := None |> <| sr_transient_tick := None |>)).

Definition sql_record_heartbeat (ag : UUID) (now_tick : Z) : HM unit :=
  guard_writable ;;
  transaction (on_db (λ d, d <| heartbeats ::= λ m,
    <[ag := match m !! ag with Some last => Z.max last now_tick | None => now_tick end]> m |>)).

(** UPDATE only: no row, no slot. *)
Definition sql_record_last_reclamation (ag a : UUID) (trigger : string) (tick : Z) : HM unit :=
  guard_writable ;;
  transaction (update_state (a, ag) (λ row, row <| sr_last_reclaim_trigger := Some trigger |>
                                                <| sr_last_reclaim_tick := Some tick |>)).

(** ** Optimistic commit *)
Definition count_conflict_in_txn (a ag : UUID) (reason : ConflictReason) : HM unit :=
  on_db (λ d, d <| conflict_counters ::= λ m, <[(a, ag, reason) := default 0 (m !! (a, ag, reason)) + 1]> m |>).

(** The legs of the discrimination: version, other holder, fence.  [None] is a win. *)
Definition sql_arbitrate (d : Db) (a ag : UUID) (current expected_version : Z) : option (Z + ConflictReason) :=
  if decide (current < expected_version) then Some (inl current)
  else if decide (expected_version < current) then Some (inr version_mismatch)
  else match state_rows d a (λ p row, bool_decide (p ≠ ag) && m_or_e (sr_state row)) with
  | _ :: _ => Some (inr other_holder)
  | [] =>
    match sql_get_read_generation d a ag, artifacts d !! a with
    | Some read_gen, Some art =>
      if bool_decide (read_gen < ar_owner_generation art) then Some (inr stale_read_generation) else None
    | _, _ => None
    end
  end.

Definition invalidate_peer_row (a : UUID) (trigger : string) (tick next_version : Z) (peer : UUID * StateRow) : HM unit :=
  let '(p, row) := peer in
  update_state (a, p) (λ r, r <| sr_state := INVALID |>
    <| sr_granted_at_tick := if m_or_e (sr_state row) then None else sr_granted_at_tick row |>) ;;
  sql_emit_state_log a p (sr_state row) INVALID trigger tick next_version None.

(** The WIN block: the artifact row, the peers, the committer, the capture. *)
Definition sql_cas_apply (a ag : UUID) (current : Z) (content_hash : string) (size_tokens : option Z) (c : option body)
    (tick : Z) (trigger : string) : HM (list UUID) :=
  let next_version := current + 1 in
  now ← time_time;
  update_artifact a (λ row, row <| ar_version := next_version |> <| ar_content_hash := content_hash |>
    <| ar_size_tokens := size_tokens |> <| ar_last_writer_id := Some ag |> <| ar_updated_at := now |>) ;;
  peers ← select (λ d, state_rows d a (λ p row, bool_decide (p ≠ ag) && non_invalid (sr_state row)));
  for_each peers (invalidate_peer_row a trigger tick next_version) ;;
  committer ← select (λ d, agent_states d !! (a, ag));
  match committer with
  | None => insert_state (a, ag) ((blank_state SHARED) <| sr_last_observed_version := Some next_version |>)
  | Some row => update_state (a, ag) (λ r, r <| sr_state := SHARED |> <| sr_granted_at_tick := sr_granted_at_tick row |>
                  <| sr_last_observed_version := Some next_version |>)
  end ;;
  sql_emit_state_log a ag (default INVALID (sr_state <$> committer)) SHARED trigger tick next_version (Some content_hash) ;;
  retain ← gets h_retain;
  match c with
  | Some c => when retain (capture_version_sql a next_version c)
  | None => mret tt
  end ;;
  mret peers.*1.

Definition sql_commit_cas (a ag : UUID) (expected_version : Z) (content_hash : string) (size_tokens : option Z)
    (c : option body) (tick : Z) (trigger : string) : HM CasResult :=
  guard_writable ;;
  result ← logged_transaction (
    art ← select_artifact a;
    let current := ar_version art in
    verdict ← select (λ d, sql_arbitrate d a ag current expected_version);
    match verdict with
    | Some (inl current) => mret (CasCorruption current)
    | Some (inr reason) => count_conflict_in_txn a ag reason ;; mret (CasConflict (mkConflict reason current))
    | None =>
      let size := match size_tokens with Some n => Some n | None => ar_size_tokens art end in
      invalidated ← sql_cas_apply a ag current content_hash size c tick trigger;
      mret (CasWin (mkArtifact a "" (current + 1) (Some content_hash) size []) invalidated)
    end);
  match result with
  | CasWin updated invalidated =>
    row ← select_artifact a;
    mret (CasWin (updated <| art_name := ar_name row |>) invalidated)
  | _ => mret result
  end.

(** ** Atomic multi-artifact publish *)
Fixpoint sql_check_all (d : Db) (ag : UUID) (writes : list (UUID * CommitAllEntry))
    (conflicts : list (UUID * ConflictDetail)) : outcome exn (Z + list (UUID * ConflictDetail)) :=
  match writes with
  | [] => Ok (inr conflicts)
  | (a, entry) :: writes' =>
    match artifacts d !! a with
    | None => Raise (KeyError "artifact")
    | Some art =>
      match sql_arbitrate d a ag (ar_version art) (cae_expected_version entry) with
      | Some (inl current) => Ok (inl current)
      | Some (inr reason) => sql_check_all d ag writes' (dset conflicts a (mkConflict reason (ar_version art)))
      | None => sql_check_all d ag writes' conflicts
      end
    end
  end.

(** [current_by], read in the CHECK loop. *)
Definition current_by (d : Db) (writes : list (UUID * CommitAllEntry)) : list (UUID * (Z * option Z)) :=
  foldl (λ acc w, match artifacts d !! w.1 with
                  | Some art => dset acc w.1 (ar_version art, ar_size_tokens art)
                  | None => acc
                  end) [] writes.

Definition sql_apply_member (ag : UUID) (current : list (UUID * (Z * option Z))) (tick : Z) (trigger : string)
    (acc : MultiCommitResult) (w : UUID * CommitAllEntry) : HM MultiCommitResult :=
  let '(a, entry) := w in
  let '(current_version, current_size) := default (0, None) (dget current a) in
  let size := match cae_size_tokens entry with Some n => Some n | None => current_size end in
  peers ← sql_cas_apply a ag current_version (cae_content_hash entry) size (cae_content entry) tick trigger;
  mret (mkMultiCommitResult (dset (mcr_versions acc) a (current_version + 1))
          (if decide (peers = []) then mcr_invalidated acc else dset (mcr_invalidated acc) a peers)).

Definition sql_commit_all (ag : UUID) (writes : list (UUID * CommitAllEntry)) (tick : Z) (trigger : string)
    : HM MultiCasResult :=
  match writes with
  | [] => raise (ValueError "commit_all requires a non-empty write-set")
  | _ =>
    guard_writable ;;
    logged_transaction (
      d ← select id;
      checked ← of_outcome (sql_check_all d ag writes []);
      match checked with
      | inl current => mret (MultiCorruption current)
      | inr ((_ :: _) as conflicts) =>
        for_each conflicts (λ kv, count_conflict_in_txn kv.1 ag (cd_reason kv.2)) ;;
        mret (MultiConflict conflicts)
      | inr [] =>
        result ← foldm (sql_apply_member ag (current_by d writes) tick trigger) writes (mkMultiCommitResult [] []);
        mret (MultiWin result)
      end)
  end.

(** ** Snapshot sessions *)
Fixpoint sql_capture_cut (d : Db) (ids : list UUID) (cut : list (UUID * Z)) (missing : list UUID)
    : list (UUID * Z) * list UUID :=
  match ids with
  | [] => (cut, missing)
  | a :: ids' =>
    match artifacts d !! a with
    | None => sql_capture_cut d ids' cut (missing ++ [a])%list
    | Some art => sql_capture_cut d ids' (dset cut a (ar_version art)) missing
    end
  end.

Definition sql_capture_version_vector (ids : list UUID) (token : string) (owner : option UUID)
    (created_at_tick : option Z) : HM (list (UUID * Z) + VersionedReadRejection) :=
  guard_writable ;;
  transaction (
    cm ← select (λ d, sql_capture_cut d ids [] []);
    match cm with
    | (_, m :: missing) =>
      epoch ← gets h_epoch;
      mret (inr (mkVersionedReadRejection UNKNOWN_ARTIFACT_REASON (foldl N.min m missing) 0 None epoch))
    | (cut, []) =>
      for_each cut (λ av, on_db (λ d, d <| pins_table ::= <[(token, av.1) := av.2]> |>)) ;;
      match owner with
      | Some o => on_db (λ d, d <| meta_table ::= <[token := (o, default 0 created_at_tick)]> |>)
      | None => mret tt
      end ;;
      mret (inl cut)
    end).

Definition sql_release_session (token : string) : HM unit :=
  guard_writable ;;
  transaction (on_db (λ d, d <| pins_table ::= filter (λ kv : (string * UUID) * Z, kv.1.1 ≠ token) |>
                             <| meta_table ::= delete token |>)).

(** ** Workspace-checkpoint manifests *)
Definition insert_member (id : string) (m : CheckpointMember) : HM unit :=
  dup ← select (λ d, bool_decide (is_Some (members_table d !! (id, cm_member_path m))));
  if dup : bool then raise (IntegrityError "UNIQUE constraint failed")
  else on_db (λ d, d <| members_table ::= <[(id, cm_member_path m) := m]> |>).

Definition sql_create_checkpoint (cp : CheckpointRecord) (members : list CheckpointMember) : HM unit :=
  guard_writable ;;
  match cp_owner cp with
  | None => raise (ValueError "create_checkpoint requires an owner")
  | Some _ =>
    catch (transaction (
      dup ← select (λ d, bool_decide (is_Some (checkpoints_table d !! cp_checkpoint_id cp)));
      if dup : bool then raise (IntegrityError "UNIQUE constraint failed")
      else
        on_db (λ d, d <| checkpoints_table ::= <[cp_checkpoint_id cp := cp]> |>) ;;
        for_each members (insert_member (cp_checkpoint_id cp))))
      (λ e, match e with
            | IntegrityError _ => raise (ValueError "create_checkpoint: duplicate checkpoint_id or duplicate member path")
            | e => raise e
            end)
  end.

(** An UPDATE that must hit one row. *)
Definition update_checkpoint (id : string) (f : CheckpointRecord → CheckpointRecord) : HM unit :=
  guard_writable ;;
  transaction (
    hit ← select (λ d, checkpoints_table d !! id);
    match hit with
    | None => raise (KeyError "checkpoint")
    | Some cp => on_db (λ d, d <| checkpoints_table ::= <[id := f cp]> |>)
    end).
Definition update_member_row (id path : string) (f : CheckpointMember → CheckpointMember) : HM unit :=
  guard_writable ;;
  transaction (
    hit ← select (λ d, members_table d !! (id, path));
    match hit with
    | None => raise (KeyError "member")
    | Some m => on_db (λ d, d <| members_table ::= <[(id, path) := f m]> |>)
    end).

Definition sql_set_checkpoint_restore_status (id status : string) (updated_at : Z) : HM unit :=
  update_checkpoint id (λ cp, cp <| cp_restore_status := status |> <| cp_restore_updated_at := Some updated_at |>).
Definition sql_set_checkpoint_member_restore (id path : string) (restore_outcome : option string)
    (deleted_at_restore : option Z) : HM unit :=
  update_member_row id path (λ m, m <| cm_restore_outcome := restore_outcome |>
                                    <| cm_deleted_at_restore := deleted_at_restore |>).
Definition sql_set_checkpoint_member_pin (id path pin_state : string) (restore_tier : option string) : HM unit :=
  update_member_row id path (λ m, m <| cm_pin_state := pin_state |>
                                    <| cm_restore_tier := default (cm_restore_tier m) restore_tier |>).
Definition sql_adjust_checkpoint_pin_refcount (id : string) (delta : Z) : HM Z :=
  guard_writable ;;
  transaction (
    hit ← select (λ d, checkpoints_table d !! id);
    match hit with
    | None => raise (KeyError "checkpoint")
    | Some cp =>
      let new_count := cp_pin_refcount cp + delta in
      if decide (new_count < 0) then raise (ValueError "pin refcount would go negative")
      else on_db (λ d, d <| checkpoints_table ::= <[id := cp <| cp_pin_refcount := new_count |>]> |>) ;; mret new_count
    end).

(** ** First observation *)

(** [resolve_or_register]; [minted] is the [uuid4()] draw. *)
Definition resolve_or_register (minted : UUID) (path content_hash : string) : HM UUID :=
  guard_writable ;;
  catch (transaction (
    found ← select (λ d, lookup_artifact_id_by_name d path);
    match found with
    | Some a => mret a
    | None =>
      now ← time_time;
      insert_artifact minted (mkArtRow path 1 0 content_hash None None now) ;;
      mret minted
    end))
    (λ e, match e with
          | IntegrityError _ =>
            found ← select (λ d, lookup_artifact_id_by_name d path);
            match found with
            | Some a => mret a
            | None => raise (RuntimeError "resolve_or_register: lost INSERT race")
            end
          | e => raise e
          end).

(** ** Preemption notices *)
Definition record_preemption_notice (victim a preempter : UUID) (at_ : Z) : HM unit :=
  guard_writable ;;
  transaction (
    references a ;;
    on_db (λ d, d <| pending_notices ::= λ m,
      match m !! (victim, a) with
      | Some (_, ts) => if bool_decide (ts < at_) then <[(victim, a) := (preempter, at_)]> m else m
      | None => <[(victim, a) := (preempter, at_)]> m
      end |>)).

Definition pop_pending_notices (ag : UUID) : HM (list (UUID * UUID * Z)) :=
  guard_writable ;;
  transaction (
    rows ← select (λ d, scan (omap (λ kv : (UUID * UUID) * (UUID * Z),
      if bool_decide (kv.1.1 = ag) then Some (kv.1.2, kv.2.1, kv.2.2) else None) (map_to_list (pending_notices d))));
    on_db (λ d, d <| pending_notices ::= filter (λ kv : (UUID * UUID) * (UUID * Z), kv.1.1 ≠ ag) |>) ;;
    mret rows).

Definition pop_preemption_notice (ag a : UUID) : HM (option (UUID * Z)) :=
  guard_writable ;;
  transaction (
    row ← select (λ d, pending_notices d !! (ag, a));
    on_db (λ d, d <| pending_notices ::= delete (ag, a) |>) ;;
    mret row).

Definition evict_stale_notices (max_age_sec : Z) (now_unix : option Z) : HM Z :=
  now ← match now_unix with Some t => mret t | None => time_time end;
  guard_writable ;;
  transaction (
    let cutoff := now - max_age_sec in
    deleted ← select (λ d, Z.of_nat (size (filter (λ kv : (UUID * UUID) * (UUID * Z), kv.2.2 < cutoff) (pending_notices d))));
    on_db (λ d, d <| pending_notices ::= filter (λ kv : (UUID * UUID) * (UUID * Z), ¬ kv.2.2 < cutoff) |>) ;;
    mret deleted).

(** ** Artifacts under a directory *)

(** [s.rstrip("/")]. *)
Fixpoint rstrip_slash (s : string) : string :=
  match s with
  | "" => ""
  | String c s' => let t := rstrip_slash s' in
                   if bool_decide (t = "" ∧ c = "/"%char) then "" else String c t
  end.

(** [s.replace(c, "\\" + c)]. *)
Fixpoint escape_char (c : ascii) (s : string) : string :=
  match s with
  | "" => ""
  | String x s' => if bool_decide (x = c) then String "\" (String x (escape_char c s')) else String x (escape_char c s')
  end.
Definition escape_like (s : string) : string := escape_char "_" (escape_char "%" (escape_char "\" s)).

(** [X LIKE Y ESCAPE '\']: [%] matches any text, [_] one character, letters match
    whatever their case. *)
Definition ascii_lower (c : ascii) : ascii :=
  let n := N_of_ascii c in if bool_decide (65 <= n <= 90)%N then ascii_of_N (n + 32) else c.
Fixpoint like (pattern text : string) {struct pattern} : bool :=
  match pattern with
  | "" => bool_decide (text = "")
  | String c pattern' =>
    if bool_decide (c = "%"%char) then
      (fix any (t : string) : bool :=
         like pattern' t || match t with "" => false | String _ t' => any t' end) text
    else if bool_decide (c = "\"%char) then
      match pattern', text with
      | String c' pattern'', String x text' => bool_decide (ascii_lower c' = ascii_lower x) && like pattern'' text'
      | _, _ => false
      end
    else match text with
         | "" => false
         | String x text' =>
           (bool_decide (c = "_"%char) || bool_decide (ascii_lower c = ascii_lower x)) && like pattern' text'
         end
  end.

Definition artifact_names_under_prefix (d : Db) (prefix : string) : list string :=
  let names := map (λ kr : UUID * ArtRow, ar_name kr.2) (map_to_list (artifacts d)) in
  if bool_decide (prefix ∈ [""; "."; "./"]) then scan names
  else
    let pattern := escape_like (rstrip_slash prefix ++ "/") ++ "%" in
    scan (elements (list_to_set (filter (λ n, like pattern n = true) names) ∪
                    list_to_set (filter (λ n, n = rstrip_slash prefix) names) : gset string)).
End queries.

(** ** Opening a store *)

(** [_persist_retention_policy]: the writer stores its own policy; an equal persisted
    one is left alone. *)
Definition desired_retention (retain : bool) (policy : option RetentionPolicy) : bool * option Z * option Z :=
  (retain, policy ≫= max_versions, policy ≫= max_age_seconds).
Definition persist_retention_policy : HM unit :=
  desired ← gets (λ s, desired_retention (h_retain s) (h_policy s));
  persisted ← select meta_retention;
  if decide (persisted = Some desired) then mret tt
  else transaction (on_db (λ d, d <| meta_retention := Some desired |>)).

(** [_load_retention_meta]. *)
Definition load_retention_meta (d : Db) : bool * option RetentionPolicy :=
  match meta_retention d with
  | Some (true, None, None) => (true, None)
  | Some (true, k, t) => (true, Some (mkPolicy k t))
  | _ => (false, None)
  end.

(** A writer's constructor on a database that is at the current schema:
    [_rehydrate_meta], then the retention keys.  Creating and chmod-ing the files and the
    PRAGMAs (WAL, busy timeout, foreign keys) touch no table; the counters table that
    [_ensure_conflict_counters_table] creates when it is missing is the empty map here. *)
Definition rehydrate_meta (instance_id_override : option string) (d : Db) : string :=
  match instance_id_override with
  | Some i => if bool_decide (i = "") then meta_instance_id d else i
  | None => meta_instance_id d
  end.
Definition sql_open (d : Db) (stored : Z) (sink : option (list (LogEntry * bool) → LogEntry → bool)) 
    (names : option (list (UUID * string))) (instance : option string)
    (retain : bool) (policy : option RetentionPolicy) (clock : nat → Z) (busy : nat → bool)
    : outcome exn Handle :=
  match sink, instance with
  | Some _, None => Raise (ValueError "instance_id must be provided when state_log is set")
  | _, _ =>
    let s := mkHandle d stored stored 0 sink [] names (rehydrate_meta instance d) (meta_epoch d) retain policy
               false clock 0 busy 0 in
    match persist_retention_policy s with
    | (Ok _, s) => Ok s
    | (Raise e, _) => Raise e
    end
  end.
