(* ===== verification/SqliteFacts.v ===== *)
(** Facts about the durable registry: what a method may do to the store when it fails,
    and the constraints of the schema that every method keeps.

    [rop] names the state-changing methods both registries have; [sql_run] and
    [mem_run] run one of them on either side and return what the caller sees. *)
From S2P Require Import Prelude Core Retention Registry SqliteRegistry.

Open Scope Z_scope.
Open Scope string_scope.

(** ** The common methods *)
Inductive rop : Type :=
| RRegister (a : Artifact) (c : body)
| RSetContent (a : UUID) (new : Artifact) (c : body) (writer fence : option UUID)
| RRemove (a : UUID)
| RSetState (a ag : UUID) (state : MESIState) (trigger : string) (tick : Z) (h : option string)
| RSetTransient (a ag : UUID) (t : TransientState) (tick : Z)
| RClearTransient (a ag : UUID)
| RHeartbeat (ag : UUID) (tick : Z)
| RReclamation (ag a : UUID) (trigger : string) (tick : Z)
| RCas (a ag : UUID) (expected : Z) (h : string) (size : option Z) (c : option body) (tick : Z) (trigger : string)
| RAll (ag : UUID) (writes : list (UUID * CommitAllEntry)) (tick : Z) (trigger : string)
| RCapture (ids : list UUID) (token : string) (owner : option UUID) (tick : option Z)
| RRelease (token : string)
| RCheckpoint (cp : CheckpointRecord) (members : list CheckpointMember)
| RStatus (id status : string) (at_ : Z)
| RMemberRestore (id path : string) (outcome : option string) (deleted : option Z)
| RMemberPin (id path state : string) (tier : option string)
| RRefcount (id : string) (delta : Z).

Inductive robs : Type :=
| ObsUnit
| ObsCas (res : CasResult)
| ObsMulti (res : MultiCasResult)
| ObsCut (res : list (UUID * Z) + VersionedReadRejection)
| ObsInt (n : Z).

Definition mem_run (o : rop) : RM robs :=
  match o with
  | RRegister a c => register_artifact a c ;; mret ObsUnit
  | RSetContent a new c w f => set_artifact_and_content a new c w f ;; mret ObsUnit
  | RRemove a => remove_artifact a ;; mret ObsUnit
  | RSetState a ag st tr tick h => set_agent_state a ag st tr tick h ;; mret ObsUnit
  | RSetTransient a ag t tick => set_agent_transient a ag t tick ;; mret ObsUnit
  | RClearTransient a ag => clear_agent_transient a ag ;; mret ObsUnit
  | RHeartbeat ag tick => record_heartbeat ag tick ;; mret ObsUnit
  | RReclamation ag a tr tick => record_last_reclamation ag a tr tick ;; mret ObsUnit
  | RCas a ag e h sz c tick tr => x ← commit_cas a ag e h sz c tick tr; mret (ObsCas x)
  | RAll ag ws tick tr => x ← commit_all ag ws tick tr; mret (ObsMulti x)
  | RCapture ids tok o t => x ← capture_version_vector ids tok o t; mret (ObsCut x)
  | RRelease tok => release_session tok ;; mret ObsUnit
  | RCheckpoint cp ms => create_checkpoint cp ms ;; mret ObsUnit
  | RStatus id st t => set_checkpoint_restore_status id st t ;; mret ObsUnit
  | RMemberRestore id p o d => set_checkpoint_member_restore id p o d ;; mret ObsUnit
  | RMemberPin id p st t => set_checkpoint_member_pin id p st t ;; mret ObsUnit
  | RRefcount id delta => x ← adjust_checkpoint_pin_refcount id delta; mret (ObsInt x)
  end.

Definition sql_run (scan : ∀ A, list A → list A) (o : rop) : HM robs :=
  match o with
  | RRegister a c => sql_register_artifact scan a c ;; mret ObsUnit
  | RSetContent a new c w f => sql_set_artifact_and_content scan a new c w f ;; mret ObsUnit
  | RRemove a => sql_remove_artifact a ;; mret ObsUnit
  | RSetState a ag st tr tick h => sql_set_agent_state a ag st tr tick h ;; mret ObsUnit
  | RSetTransient a ag t tick => sql_set_agent_transient a ag t tick ;; mret ObsUnit
  | RClearTransient a ag => sql_clear_agent_transient a ag ;; mret ObsUnit
  | RHeartbeat ag tick => sql_record_heartbeat ag tick ;; mret ObsUnit
  | RReclamation ag a tr tick => sql_record_last_reclamation ag a tr tick ;; mret ObsUnit
  | RCas a ag e h sz c tick tr => x ← sql_commit_cas scan a ag e h sz c tick tr; mret (ObsCas x)
  | RAll ag ws tick tr => x ← sql_commit_all scan ag ws tick tr; mret (ObsMulti x)
  | RCapture ids tok o t => x ← sql_capture_version_vector ids tok o t; mret (ObsCut x)
  | RRelease tok => sql_release_session tok ;; mret ObsUnit
  | RCheckpoint cp ms => sql_create_checkpoint cp ms ;; mret ObsUnit
  | RStatus id st t => sql_set_checkpoint_restore_status id st t ;; mret ObsUnit
  | RMemberRestore id p o d => sql_set_checkpoint_member_restore id p o d ;; mret ObsUnit
  | RMemberPin id p st t => sql_set_checkpoint_member_pin id p st t ;; mret ObsUnit
  | RRefcount id delta => x ← sql_adjust_checkpoint_pin_refcount id delta; mret (ObsInt x)
  end.

(** ** Sequence numbers *)
Section facts.
Context (scan : ∀ A, list A → list A).

(** The numbers reserved so far stay accounted for, and the persisted number stays in
    step with the handle's. *)
Definition seq_step (s s' : Handle) : Prop :=
  h_seq s' - seq_incremented s' = h_seq s - seq_incremented s ∧ (h_seq s = stored_seq s → h_seq s' = stored_seq s').
#[local] Instance seq_step_preorder : PreOrder seq_step.
Proof. split; [by intros s|]. intros s1 s2 s3 [H1 H2] [H3 H4]. split; [lia|auto]. Qed.

Definition seq_same (s s' : Handle) : Prop :=
  h_seq s' = h_seq s ∧ seq_incremented s' = seq_incremented s ∧ stored_seq s' = stored_seq s.
#[local] Instance seq_same_preorder : PreOrder seq_same.
Proof. split; [by intros s|]. intros s1 s2 s3 (? & ? & ?) (? & ? & ?). split_and!; congruence. Qed.
#[local] Instance seq_same_step : subrelation seq_same seq_step.
Proof. intros s s' (H1 & H2 & H3). split; [lia|congruence]. Qed.

Lemma same_step {A} (m : HM A) : respects seq_same m → respects seq_step m.
Proof. intros H s. apply seq_same_step, H. Qed.

Lemma seq_emit a ag from to tr tick v h : respects seq_step (sql_emit_state_log a ag from to tr tick v h).
Proof.
  intros s. unfold sql_emit_state_log. destruct (h_state_log s) as [sink|]; [|done].
  destruct (sink _ _); simpl; [done|]. split; simpl; lia.
Qed.

Lemma seq_references a : respects seq_same (references a).
Proof. intros s. unfold references. by case_bool_decide. Qed.
Lemma seq_insert_artifact a row : respects seq_same (insert_artifact a row).
Proof. intros s. unfold insert_artifact. by destruct (_ || _). Qed.
Lemma seq_rename_free a n : respects seq_same (rename_free a n).
Proof. intros s. unfold rename_free. by destruct (_ && _). Qed.
Lemma seq_select_artifact a : respects seq_same (select_artifact a).
Proof. intros s. unfold select_artifact. by destruct (_ !! _). Qed.
Lemma seq_on_db f : respects seq_same (on_db f).
Proof. by intros s. Qed.

Ltac seq_leaf :=
  first [ apply seq_references | apply seq_insert_artifact | apply seq_rename_free | apply seq_select_artifact | apply seq_on_db
        | by intros ? ].

Lemma seq_insert_state k row : respects seq_same (insert_state k row).
Proof. unfold insert_state. respects_tac seq_leaf. Qed.
Lemma seq_capture a v c : respects seq_same (capture_version_sql scan a v c).
Proof. unfold capture_version_sql. respects_tac seq_leaf. Qed.

Lemma seq_invalidate_peer a tr tick v peer : respects seq_step (invalidate_peer_row a tr tick v peer).
Proof.
  destruct peer as [p row]. apply respects_bind; [apply _|apply same_step, seq_on_db|intros _; apply seq_emit].
Qed.
Lemma seq_cas_apply a ag cur h sz c tick tr : respects seq_step (sql_cas_apply scan a ag cur h sz c tick tr).
Proof.
  unfold sql_cas_apply. respects_tac ltac:(first [apply seq_emit | apply seq_invalidate_peer
    | apply same_step; first [seq_leaf | apply seq_insert_state | apply seq_capture]]).
Qed.

(** ** Failure atomicity of the methods *)
Definition atomic {A} (m : HM A) : Prop := ∀ s,
  (h_seq s = stored_seq s → h_seq (m s).2 = stored_seq (m s).2) ∧
  ∀ e, (m s).1 = Raise e → db (m s).2 = db s ∧ h_seq (m s).2 = h_seq s ∧ stored_seq (m s).2 = stored_seq s.

Lemma transaction_cases {A} (m : HM A) (R : relation Handle) `{!PreOrder R} s : respects R m → (∀ s, R s (s <| h_locks ::= S |>)) →
  match transaction m s with
  | (Ok x, s') => R s s'
  | (Raise e, s') => db s' = db s ∧ stored_seq s' = stored_seq s ∧ ∃ s1, R s s1 ∧ h_seq s' = h_seq s1 ∧ seq_incremented s' = seq_incremented s1
  end.
Proof.
  intros Hm Hl. unfold transaction. destruct (acquire s) as [[[]|e] s0] eqn:E0; injection E0 as _ <-.
  - assert (respects R (x ← m; acquire ;; mret x)) as Hb.
    { apply respects_bind; [done|done|intros x]. apply respects_bind; [done|by intros s'|]. intros _. by apply respects_pure. }
    specialize (Hb (s <| h_locks ::= S |>)). destruct ((x ← m; acquire ;; mret x) _) as [[x|e] s1]; simpl in *.
    + etrans; [apply Hl|done].
    + split_and!; [done|done|]. exists s1. split; [etrans; [apply Hl|done]|done].
  - simpl. split_and!; [done|done|]. exists s. by split.
Qed.

Lemma atomic_txn {A} (m : HM A) : respects seq_same m → atomic (transaction m).
Proof.
  intros Hm s. pose proof (transaction_cases m seq_same s Hm ltac:(done)) as Ht.
  destruct (transaction m s) as [[x|e] s']; simpl.
  - destruct Ht as (H1 & H2 & H3). split; [congruence|done].
  - destruct Ht as (H1 & H2 & s1 & (H3 & _ & _) & H4 & _). split; [congruence|]. intros _ _. split_and!; congruence.
Qed.

Lemma atomic_logged {A} (m : HM A) : respects seq_step m → atomic (logged_transaction m).
Proof.
  intros Hm s. unfold logged_transaction.
  pose proof (transaction_cases m seq_step (s <| seq_incremented := 0 |>) Hm ltac:(done)) as Ht.
  destruct (transaction m _) as [[x|e] s']; simpl in *.
  - destruct Ht as [H1 H2]. split; [exact H2|done].
  - destruct Ht as (H1 & H2 & s1 & [H3 _] & H4 & H5). simpl in *. assert (h_seq s' - seq_incremented s' = h_seq s) as -> by lia.
    split; [congruence|]. intros _ _. by split_and!.
Qed.

Lemma guard_run {A} (m : HM A) s :
  (guard_writable ;; m) s = if h_read_only s then (Raise ReadOnlyMutationError, s) else m s.
Proof. unfold guard_writable, mbind, proc_bind. by destruct (h_read_only s). Qed.
Lemma atomic_guard {A} (m : HM A) : atomic m → atomic (guard_writable ;; m).
Proof. intros Hm s. rewrite guard_run. destruct (h_read_only s); [by split|apply Hm]. Qed.
Lemma atomic_bind {A B} (m : HM A) (k : A → HM B) : atomic m →
  (∀ s x s', m s = (Ok x, s') → ∃ y, k x s' = (Ok y, s')) → atomic (x ← m; k x).
Proof.
  intros Hm Hk s. specialize (Hm s). specialize (Hk s). unfold mbind, proc_bind. destruct (m s) as [[x|e] s']; simpl in *.
  - destruct (Hk x s' eq_refl) as [y ->]. split; [apply Hm|done].
  - split; [apply Hm|]. intros e' [= <-]. by apply (proj2 Hm e).
Qed.
Lemma atomic_ret {A B} (m : HM A) (f : A → B) : atomic m → atomic (x ← m; mret (f x)).
Proof. intros Hm. apply atomic_bind; [done|]. intros s x s' _. by exists (f x). Qed.
Lemma atomic_catch {A} (m : HM A) (h : exn → exn) : atomic m → atomic (catch m (λ e, raise (h e))).
Proof.
  intros Hm s. specialize (Hm s). unfold catch, raise. destruct (m s) as [[x|e] s']; simpl in *; [done|].
  destruct Hm as [H1 H2]. split; [done|]. intros _ _. by apply (H2 e).
Qed.

(** The artifact a commit has just won exists. *)
Definition keeps_artifact (a : UUID) (s s' : Handle) : Prop :=
  is_Some (artifacts (db s) !! a) → is_Some (artifacts (db s') !! a).
#[local] Instance keeps_artifact_preorder a : PreOrder (keeps_artifact a).
Proof. unfold keeps_artifact. split; [by intros s ?|]. intros s1 s2 s3 H1 H2 H. auto. Qed.

Lemma keeps_cas_apply a ag cur h sz c tick tr : respects (keeps_artifact a) (sql_cas_apply scan a ag cur h sz c tick tr).
Proof.
  assert (∀ x tr tick v h f t, respects (keeps_artifact a) (sql_emit_state_log a x f t tr tick v h)) as Hemit.
  { intros. intros s. unfold sql_emit_state_log. unfold keeps_artifact. destruct (h_state_log s) as [sink|]; [|done]. by destruct (sink _ _). }
  unfold sql_cas_apply, invalidate_peer_row, insert_state, capture_version_sql.
  respects_tac ltac:(first
    [ apply Hemit
    | intros ?; unfold keeps_artifact; cbn; rewrite ?lookup_alter_eq, ?fmap_is_Some; by intros ?
    | intros ?; unfold keeps_artifact, references; by case_bool_decide ]).
Qed.

Lemma cas_win_exists m a s updated invalidated s' :
  (∀ s, respects (keeps_artifact a) (m s)) →
  logged_transaction (art ← select_artifact a; m art) s = (Ok (CasWin updated invalidated), s') → is_Some (artifacts (db s') !! a).
Proof.
  intros Hm. unfold logged_transaction, transaction. destruct (acquire _) as [[[]|e] s0]; [|by intros [=]].
  destruct ((x ← _; acquire ;; mret x) s0) as [[x|e] s1] eqn:E; [|by intros [=]]. intros [= -> <-]. simpl.
  apply bind_inv in E as [(x & s2 & E & Ek)|(? & _ & [=])].
  apply bind_inv in E as [(art & s3 & E3 & Em)|(? & _ & [=])].
  apply bind_inv in Ek as [(? & s4 & E4 & [= _ <-])|(? & _ & [=])]. injection E4 as _ <-. simpl.
  assert (is_Some (artifacts (db s0) !! a)) as H0.
  { unfold select_artifact in E3. by destruct (artifacts (db s0) !! a). }
  assert (s3 = s0) as -> by (unfold select_artifact in E3; by destruct (artifacts (db s0) !! a); simplify_eq).
  specialize (Hm art s0). rewrite Em in Hm. by apply Hm.
Qed.

Lemma atomic_commit_cas a ag e h sz c tick tr : atomic (sql_commit_cas scan a ag e h sz c tick tr).
Proof.
  apply atomic_guard, atomic_bind.
  - apply atomic_logged. respects_tac ltac:(first [apply seq_cas_apply | apply same_step; seq_leaf]).
  - intros s [u inv|d|v] s' E; [|by eexists..].
    assert (is_Some (artifacts (db s') !! a)) as [row Hrow].
    { eapply cas_win_exists; [|exact E]. intros art. respects_tac ltac:(first
        [ apply keeps_cas_apply | intros ?; unfold keeps_artifact; cbn; by intros ? ]). }
    eexists. unfold mbind, proc_bind, select_artifact. by rewrite Hrow.
Qed.

Lemma seq_apply_member ag cur tick tr acc w : respects seq_step (sql_apply_member scan ag cur tick tr acc w).
Proof. unfold sql_apply_member. destruct w. respects_tac ltac:(apply seq_cas_apply). Qed.

Lemma atomic_commit_all ag ws tick tr : atomic (sql_commit_all scan ag ws tick tr).
Proof.
  destruct ws as [|w ws]; [by split|]. apply atomic_guard, atomic_logged.
  respects_tac ltac:(first [apply seq_apply_member | apply same_step; seq_leaf]).
Qed.

Lemma atomic_create_checkpoint cp ms : atomic (sql_create_checkpoint cp ms).
Proof.
  apply atomic_guard. destruct (cp_owner cp); [|by split].
  intros s. unfold catch. match goal with |- context[transaction ?m s] => pose proof (atomic_txn m) as Ha end.
  specialize (Ha ltac:(unfold insert_member; respects_tac seq_leaf) s). destruct (transaction _ s) as [[x|e] s']; [exact Ha|].
  destruct Ha as [H1 H2]. split; [by destruct e|]. intros _ _. specialize (H2 e eq_refl). by destruct e.
Qed.

Lemma atomic_run o : atomic (sql_run scan o).
Proof.
  destruct o; apply atomic_ret;
    first [ apply atomic_commit_cas | apply atomic_commit_all | apply atomic_create_checkpoint | apply atomic_guard ];
    first [ apply atomic_logged; respects_tac ltac:(first [apply seq_emit | apply same_step; first [seq_leaf | apply seq_insert_state]])
          | apply atomic_txn; unfold sql_fence_check; respects_tac ltac:(first [seq_leaf | apply seq_capture]) ].
Qed.
End facts.
