(* ===== verification/SqliteParity.v ===== *)
(** The two registries answer alike.

    [par r d] relates the in-memory registry [r] to the tables [d] of the durable one:
    the rows of an artifact hold what its record holds, entry by entry.  Every common
    method keeps the relation and returns the same answer, up to the order in which
    peers are listed, when the log does not raise, the database is not busy and the
    clock does not move during the call. *)
From S2P Require Import Prelude Core Retention Registry RegistryFacts CommitFacts SqliteRegistry SqliteFacts.

Open Scope Z_scope.
Open Scope string_scope.

(** ** Runs seen through a view of the state *)
Definition big {S C A} (view : S → C) (ok : S → Prop) (m : proc exn S A) (c : C) (o : outcome exn A) (c' : C) : Prop :=
  ∀ s, view s = c → ok s → ∃ s', m s = (o, s') ∧ view s' = c' ∧ ok s'.

Section big.
Context {S C : Type} (view : S → C) (ok : S → Prop).
Local Abbreviation bigs := (big view ok).

Lemma big_ret {A} (x : A) c : bigs (mret x) c (Ok x) c.
Proof. intros s Hs Hok. by exists s. Qed.
Lemma big_raise {A} e c : bigs (raise e : proc exn S A) c (Raise e) c.
Proof. intros s Hs Hok. by exists s. Qed.
Lemma big_bind {A B} (m : proc exn S A) (k : A → proc exn S B) c x c1 o c2 :
  bigs m c (Ok x) c1 → bigs (k x) c1 o c2 → bigs (x ← m; k x) c o c2.
Proof.
  intros Hm Hk s Hs Hok. destruct (Hm s Hs Hok) as (s1 & E1 & V1 & O1). destruct (Hk s1 V1 O1) as (s2 & E2 & V2 & O2).
  exists s2. split; [|done]. by apply (bind_run _ _ s x s1).
Qed.
Lemma big_bind_raise {A B} (m : proc exn S A) (k : A → proc exn S B) c e c1 :
  bigs m c (Raise e) c1 → bigs (x ← m; k x) c (Raise e) c1.
Proof.
  intros Hm s Hs Hok. destruct (Hm s Hs Hok) as (s1 & E1 & V1 & O1). exists s1. split; [by apply bind_Raise|done].
Qed.
Lemma big_for_each {A} (f : A → proc exn S unit) (g : C → A → C) l c :
  (∀ x c, x ∈ l → bigs (f x) c (Ok tt) (g c x)) → bigs (for_each l f) c (Ok tt) (foldl g c l).
Proof.
  revert c. induction l as [|x l IH]; intros c Hf; simpl; [apply big_ret|].
  eapply big_bind; [apply Hf; by left|]. apply IH. intros y c' Hy. apply Hf. by right.
Qed.
Lemma big_ext {A} (m : proc exn S A) c o c' o' c'' : bigs m c o c' → o = o' → c' = c'' → bigs m c o' c''.
Proof. by intros H -> ->. Qed.
End big.

(** ** The in-memory registry up to its log *)
Definition core (r : Registry) : Registry := r <| log_calls := [] |> <| seq_no := 0 |> <| wall_reads := 0%nat |>.
Definition instant (now : Z) (r : Registry) : Prop := log_quiet r ∧ ∀ n, wall_clock r n = now.

Section memory.
Context (now : Z).
Local Abbreviation mbig := (big core (instant now)).

Lemma core_inv (r c : Registry) : core r = c → get_record r = get_record c ∧ records r = records c ∧ heartbeat_by_agent r = heartbeat_by_agent c ∧
  session_pins r = session_pins c ∧ session_meta r = session_meta c ∧ checkpoints r = checkpoints c ∧
  checkpoint_members r = checkpoint_members c ∧ conflict_counts r = conflict_counts c ∧
  retain_versions r = retain_versions c ∧ retention_policy r = retention_policy c ∧ coordinator_epoch r = coordinator_epoch c.
Proof. by intros <-. Qed.

Lemma mem_modify (f : Registry → Registry) c : (∀ r, core (f r) = f (core r)) →
  (∀ r, state_log (f r) = state_log r ∧ wall_clock (f r) = wall_clock r) → mbig (modify f) c (Ok tt) (f c).
Proof.
  intros Hc Hf r <- [Hq Ht]. exists (f r). split_and!; [done|done|]. destruct (Hf r) as [H1 H2].
  split; [unfold log_quiet; by rewrite H1|by rewrite H2].
Qed.
Lemma mem_put a rec c : mbig (put_record a rec) c (Ok tt) (c <| records ::= λ d, dset d a rec |>).
Proof. by apply (mem_modify (λ r, r <| records ::= λ d, dset d a rec |>)). Qed.
Lemma mem_require a rec c : get_record c a = Some rec → mbig (require_record a) c (Ok rec) c.
Proof. intros Hr r <- Hi. exists r. unfold require_record. change (get_record r a) with (get_record (core r) a). by rewrite Hr. Qed.
Lemma mem_require_none a c : get_record c a = None → mbig (require_record a) c (Raise (KeyError "artifact")) c.
Proof. intros Hr r <- Hi. exists r. unfold require_record. change (get_record r a) with (get_record (core r) a). by rewrite Hr. Qed.
Lemma mem_retain c : mbig (gets retain_versions) c (Ok (retain_versions c)) c.
Proof. intros r <- Hi. by exists r. Qed.
Lemma mem_gets {A} (f : Registry → A) c : (∀ r, f r = f (core r)) → mbig (gets f) c (Ok (f c)) c.
Proof. intros Hf r <- Hi. exists r. split; [|done]. unfold gets. by rewrite <-Hf. Qed.

Lemma mem_emit a ag from to tr tick v h c : ∃ n, mbig (emit_state_log a ag from to tr tick v h) c (Ok n) c.
Proof.
  exists (match state_log c with Some _ => 1 | None => 0 end). intros r <- [Hq Ht]. unfold emit_state_log.
  change (state_log (core r)) with (state_log r). destruct (state_log r) as [sink|] eqn:El; [|by exists r].
  rewrite (Hq sink El). eexists. split; [reflexivity|]. split; [done|]. split; [|done]. intros sk. simpl. rewrite El. by intros [= <-]; apply Hq.
Qed.

Lemma mem_emit_all tr tick es n c : mbig (emit_all tr tick es n) c (Ok tt) c.
Proof.
  revert n. induction es as [|[[[[[a ag] from] to] v] h] es IH]; intros n; simpl; [apply big_ret|].
  intros r Hr Hi. destruct (mem_emit a ag from to tr tick v h c) as (k & Hk). destruct (Hk r Hr Hi) as (r1 & -> & H1 & H2).
  by apply IH.
Qed.

Lemma mem_capture rec v b c : mbig (capture_version rec v b) c
  (Ok (captured_record (retention_policy c) (live_pins_for_artifact c (art_id (artifact rec))) now rec v b)) c.
Proof.
  intros r <- [Hq Ht]. unfold capture_version. rewrite Ht. eexists. by split.
Qed.
End memory.

(** ** The durable registry through its tables *)
Record sql_env := mkEnv { e_now : Z; e_retain : bool; e_policy : option RetentionPolicy; e_epoch : string }.
Record in_env (E : sql_env) (s : Handle) : Prop := {
  en_retain : h_retain s = e_retain E;
  en_policy : h_policy s = e_policy E;
  en_epoch : h_epoch s = e_epoch E;
  en_writable : h_read_only s = false;
  en_clock : ∀ n, h_clock s n = e_now E;
  en_idle : ∀ n, h_busy s n = false;
  en_quiet : ∀ sink, h_state_log s = Some sink → ∀ calls e, sink calls e = false;
}.

Section durable.
Context (E : sql_env) (scan : ∀ A, list A → list A).
Local Abbreviation sbig := (big db (in_env E)).

Lemma sql_select {A} (f : Db → A) d : sbig (select f) d (Ok (f d)) d.
Proof. intros s <- He. by exists s. Qed.
Lemma sql_gets_retain d : sbig (gets h_retain) d (Ok (e_retain E)) d.
Proof. intros s <- He. exists s. split; [|done]. unfold gets. by rewrite (en_retain _ _ He). Qed.
Lemma sql_gets_policy d : sbig (gets h_policy) d (Ok (e_policy E)) d.
Proof. intros s <- He. exists s. split; [|done]. unfold gets. by rewrite (en_policy _ _ He). Qed.
Lemma sql_gets_epoch d : sbig (gets h_epoch) d (Ok (e_epoch E)) d.
Proof. intros s <- He. exists s. split; [|done]. unfold gets. by rewrite (en_epoch _ _ He). Qed.
Lemma sql_on_db f d : sbig (on_db f) d (Ok tt) (f d).
Proof. intros s <- []. eexists. split; [reflexivity|]. by split; [|split]. Qed.
Lemma sql_time d : sbig time_time d (Ok (e_now E)) d.
Proof. intros s <- []. eexists. split; [unfold time_time; rewrite en_clock0; reflexivity|]. by split; [|split]. Qed.
Lemma sql_emit a ag from to tr tick v h d : sbig (sql_emit_state_log a ag from to tr tick v h) d (Ok tt) d.
Proof.
  intros s <- He. unfold sql_emit_state_log. destruct (h_state_log s) as [sink|] eqn:El; [|by exists s].
  rewrite (en_quiet _ _ He sink El). eexists. split; [reflexivity|]. split; [done|]. destruct He. by split.
Qed.
Lemma sql_acquire d : sbig acquire d (Ok tt) d.
Proof.
  intros s <- He. unfold acquire. rewrite (en_idle _ _ He). eexists. split; [reflexivity|]. split; [done|].
  destruct He. by split.
Qed.
Lemma sql_transaction {A} (m : HM A) d o d' : sbig m d o d' →
  sbig (transaction m) d o (match o with Ok _ => d' | Raise _ => d end).
Proof.
  intros Hm s Hs He. unfold transaction. destruct (sql_acquire d s Hs He) as (s0 & -> & Hd0 & He0).
  destruct (Hm s0 Hd0 He0) as (s1 & E1 & Hd1 & He1). destruct o as [x|e].
  - destruct (sql_acquire d' s1 Hd1 He1) as (s2 & E2 & Hd2 & He2). exists s2. split; [|done].
    assert ((x ← m; acquire ;; mret x) s0 = (Ok x, s2)) as ->; [|done].
    apply (bind_run _ _ _ _ _ _ E1). by apply (bind_run _ _ _ _ _ _ E2).
  - rewrite (bind_Raise _ _ _ _ _ E1). eexists. split; [reflexivity|]. split; [done|]. destruct He1. by split.
Qed.
Lemma sql_logged {A} (m : HM A) d o d' : sbig m d o d' →
  sbig (logged_transaction m) d o (match o with Ok _ => d' | Raise _ => d end).
Proof.
  intros Hm s Hs He. unfold logged_transaction.
  set (s0 := s <| seq_incremented := 0 |>). assert (in_env E s0) as He' by (destruct He; by split).
  destruct (sql_transaction m d o d' Hm s0 Hs He') as (s1 & -> & Hd1 & He1).
  destruct o; eexists; (split; [reflexivity|]); (split; [done|]); destruct He1; by split.
Qed.
Lemma sql_guard {A} (m : HM A) d o d' : sbig m d o d' → sbig (guard_writable ;; m) d o d'.
Proof. intros Hm s Hs He. rewrite guard_run, (en_writable _ _ He). by apply Hm. Qed.

Lemma sql_select_artifact a row d : artifacts d !! a = Some row → sbig (select_artifact a) d (Ok row) d.
Proof. intros Ha s <- He. exists s. unfold select_artifact. by rewrite Ha. Qed.
Lemma sql_select_artifact_none a d : artifacts d !! a = None → sbig (select_artifact a) d (Raise (KeyError "artifact")) d.
Proof. intros Ha s <- He. exists s. unfold select_artifact. by rewrite Ha. Qed.
Lemma sql_references a d : is_Some (artifacts d !! a) → sbig (references a) d (Ok tt) d.
Proof. intros Ha s <- He. exists s. unfold references. by rewrite bool_decide_true. Qed.
Lemma sql_insert_state k row d : is_Some (artifacts d !! k.1) → agent_states d !! k = None →
  sbig (insert_state k row) d (Ok tt) (d <| agent_states ::= <[k := row]> |>).
Proof.
  intros Ha Hk. eapply big_bind; [by apply sql_references|]. eapply big_bind; [apply sql_select|].
  rewrite bool_decide_false by (by rewrite Hk; intros [? [=]]). apply sql_on_db.
Qed.
Lemma sql_insert_artifact a row d : artifacts d !! a = None → name_taken d a (ar_name row) = false →
  sbig (insert_artifact a row) d (Ok tt) (d <| artifacts ::= <[a := row]> |>).
Proof.
  intros Ha Hn s <- He. unfold insert_artifact. rewrite bool_decide_false by (by rewrite Ha; intros [? [=]]).
  rewrite Hn. by apply sql_on_db.
Qed.
Lemma sql_rename_free a name d : name_taken d a name = false → sbig (rename_free a name) d (Ok tt) d.
Proof. intros Hn s <- He. exists s. unfold rename_free. by rewrite Hn, andb_false_r. Qed.

(** The tables a capture leaves. *)
Definition captured_db (d : Db) (a : UUID) (v : Z) (c : body) : Db :=
  let d := d <| artifact_versions ::= <[(a, v) := (c, e_now E)]> |> in
  match e_policy E with
  | None => d
  | Some policy =>
    foldl (λ d v, d <| artifact_versions ::= delete (a, v) |>) d
      (elements (collectible_versions (VMapping (version_rows scan d a)) v policy (e_now E) (live_pins_for_artifact_sql scan d a)))
  end.
Lemma sql_capture a v c d : is_Some (artifacts d !! a) →
  sbig (capture_version_sql scan a v c) d (Ok tt) (captured_db d a v c).
Proof.
  intros Ha. unfold capture_version_sql, captured_db. eapply big_bind; [apply sql_time|].
  eapply big_bind; [by apply sql_references|]. eapply big_bind; [apply sql_on_db|]. eapply big_bind; [apply sql_gets_policy|].
  destruct (e_policy E) as [p|]; [|apply big_ret]. eapply big_bind; [apply sql_select|].
  apply (big_for_each db (in_env E) _ (λ d v, d <| artifact_versions ::= delete (a, v) |>)). intros x d' _. apply sql_on_db.
Qed.
End durable.

(** ** The relation *)
Definition reclaim_slot (row : StateRow) : option ReclamationSlot :=
  trigger ← sr_last_reclaim_trigger row; Some (trigger, default 0 (sr_last_reclaim_tick row)).

(** One agent's entries in the record against its row. *)
Record slot_par (rec : ArtifactRecord) (p : UUID) (o : option StateRow) : Prop := {
  sp_state : st rec p = default INVALID (sr_state <$> o);
  sp_transient : dget (transient_by_agent rec) p = (o ≫= sr_transient_state);
  sp_transient_tick : dget (transient_tick_by_agent rec) p = (o ≫= sr_transient_tick);
  sp_granted : dget (granted_at_tick_by_agent rec) p = (o ≫= sr_granted_at_tick);
  sp_reclaim : dget (last_reclamation_by_agent rec) p = (o ≫= reclaim_slot);
  sp_claim : dget (read_generation_by_agent rec) p = (o ≫= sr_read_generation);
  sp_observed : dget (last_observed_version_by_agent rec) p = (o ≫= sr_last_observed_version);
  sp_row : is_Some (dget (state_by_agent rec) p) → is_Some o;
}.

Record art_par (a : UUID) (rec : ArtifactRecord) (row : ArtRow) : Prop := {
  ap_id : art_id (artifact rec) = a;
  ap_name : art_name (artifact rec) = ar_name row;
  ap_version : version rec = ar_version row;
  ap_hash : default "" (art_content_hash (artifact rec)) = ar_content_hash row;
  ap_size : art_size_tokens (artifact rec) = ar_size_tokens row;
  ap_writer : last_writer rec = ar_last_writer_id row;
  ap_generation : owner_generation rec = ar_owner_generation row;
}.

Definition version_par (rec : ArtifactRecord) (v : Z) (o : option (body * Z)) : Prop :=
  dget (version_history rec) v = fst <$> o ∧ dget (version_captured_at rec) v = snd <$> o.

Record rec_wf (rec : ArtifactRecord) : Prop := {
  rw_states : dict_wf (state_by_agent rec);
  rw_captured : dict_wf (version_captured_at rec);
}.

Definition record_par (a : UUID) (orec : option ArtifactRecord) (d : Db) : Prop :=
  match orec, artifacts d !! a with
  | Some rec, Some row =>
    rec_wf rec ∧ art_par a rec row ∧ (∀ p, slot_par rec p (agent_states d !! (a, p))) ∧
    (∀ v, version_par rec v (artifact_versions d !! (a, v)))
  | None, None => (∀ p, agent_states d !! (a, p) = None) ∧ (∀ v, artifact_versions d !! (a, v) = None)
  | _, _ => False
  end.

Record par (r : Registry) (d : Db) : Prop := {
  par_records : ∀ a, record_par a (get_record r a) d;
  par_heartbeats : ∀ p, dget (heartbeat_by_agent r) p = heartbeats d !! p;
  par_pins : ∀ token a, (cut ← dget (session_pins r) token; dget cut a) = pins_table d !! (token, a);
  par_meta : ∀ token, dget (session_meta r) token = meta_table d !! token;
  par_checkpoints : ∀ id, dget (checkpoints r) id = checkpoints_table d !! id;
  par_members : ∀ id path, (ms ← dget (checkpoint_members r) id; dget ms path) = members_table d !! (id, path);
  par_conflicts : ∀ k, dget (conflict_counts r) k = conflict_counters d !! k;
  par_records_wf : dict_wf (records r);
  par_pins_wf : dict_wf (session_pins r);
  par_orphans : ∀ id, dget (checkpoints r) id = None → dget (checkpoint_members r) id = None;
}.

(** A method on artifact [a] leaves every other artifact and table alone. *)
Record touches (a : UUID) (d d' : Db) : Prop := {
  to_artifacts : ∀ b, b ≠ a → artifacts d' !! b = artifacts d !! b;
  to_states : ∀ b p, b ≠ a → agent_states d' !! (b, p) = agent_states d !! (b, p);
  to_versions : ∀ b v, b ≠ a → artifact_versions d' !! (b, v) = artifact_versions d !! (b, v);
  to_heartbeats : heartbeats d' = heartbeats d;
  to_pins : pins_table d' = pins_table d;
  to_meta : meta_table d' = meta_table d;
  to_checkpoints : checkpoints_table d' = checkpoints_table d;
  to_members : members_table d' = members_table d;
  to_conflicts : conflict_counters d' = conflict_counters d;
}.
#[export] Instance touches_preorder a : PreOrder (touches a).
Proof.
  split; [by intros d; split|]. intros d1 d2 d3 [] []. split; intros; try congruence.
  - by rewrite to_artifacts1, to_artifacts0.
  - by rewrite to_states1, to_states0.
  - by rewrite to_versions1, to_versions0.
Qed.

Lemma record_par_other a b orec d d' : touches a d d' → b ≠ a → record_par b orec d → record_par b orec d'.
Proof.
  intros [] Hb. unfold record_par. rewrite to_artifacts0 by done. destruct orec as [rec|], (artifacts d !! b); try done.
  - intros (Hw & Ha & Hs & Hv). split_and!; [done|done|..]; intros; by rewrite ?to_states0, ?to_versions0 by done.
  - intros [Hs Hv]. split; intros; by rewrite ?to_states0, ?to_versions0 by done.
Qed.

Lemma par_touch a r d rec' d' : par r d → touches a d d' → record_par a (Some rec') d' →
  par (r <| records ::= λ m, dset m a rec' |>) d'.
Proof.
  intros [] Ht Hr. split; [| | | | | | |by apply dict_wf_dset|..]; [|intros; destruct Ht; simpl; by rewrite ?to_heartbeats0, ?to_pins0, ?to_meta0, ?to_checkpoints0,
    ?to_members0, ?to_conflicts0; eauto..].
  intros b. unfold get_record. simpl. rewrite dget_dset. case_decide as Hb; [by subst b|].
  apply (record_par_other a b _ d d'); [done|congruence|apply (par_records0 b)].
Qed.

(** A record present on one side is present on the other. *)
Lemma par_some r d a rec : par r d → get_record r a = Some rec → ∃ row, artifacts d !! a = Some row ∧ rec_wf rec ∧ art_par a rec row ∧
  (∀ p, slot_par rec p (agent_states d !! (a, p))) ∧ (∀ v, version_par rec v (artifact_versions d !! (a, v))).
Proof.
  intros Hp Hr. pose proof (par_records _ _ Hp a) as H. unfold record_par in H. rewrite Hr in H.
  destruct (artifacts d !! a) as [row|]; [|done]. by exists row.
Qed.
Lemma par_none r d a : par r d → get_record r a = None → artifacts d !! a = None ∧
  (∀ p, agent_states d !! (a, p) = None) ∧ (∀ v, artifact_versions d !! (a, v) = None).
Proof.
  intros Hp Hr. pose proof (par_records _ _ Hp a) as H. unfold record_par in H. rewrite Hr in H.
  by destruct (artifacts d !! a) as [row|].
Qed.

(** ** Capture *)
Lemma collectible_ext l l' v p now pins : (∀ x, x ∈ l ↔ x ∈ l') →
  collectible_versions (VMapping l) v p now pins = collectible_versions (VMapping l') v p now pins.
Proof.
  intros Hl. unfold collectible_versions. simpl.
  assert (list_to_set l.*1 = (list_to_set l'.*1 : gset Z)) as ->.
  { apply set_eq. intros x. rewrite !elem_of_list_to_set, !list_elem_of_fmap. naive_solver. }
  assert (∀ cut, expired cut l = expired cut l') as He; [|by destruct (max_age_seconds p); rewrite ?He].
  intros cut. unfold expired. apply set_eq. intros x. rewrite !elem_of_list_to_set, !list_elem_of_fmap.
  setoid_rewrite list_elem_of_filter. naive_solver.
Qed.

Section queries.
Context (scan : ∀ A, list A → list A) (scan_perm : ∀ A l, scan A l ≡ₚ l).

Lemma elem_scan {A} (x : A) l : x ∈ scan A l ↔ x ∈ l.
Proof using scan_perm. by rewrite scan_perm. Qed.

Lemma elem_version_rows d a v t : (v, t) ∈ version_rows scan d a ↔ snd <$> artifact_versions d !! (a, v) = Some t.
Proof using scan_perm.
  unfold version_rows. rewrite elem_scan, list_elem_of_omap. split.
  - intros ([[a' v'] [c t']] & Hin & H). simpl in H. case_bool_decide; [|done]. simplify_eq. apply elem_of_map_to_list in Hin. by rewrite Hin.
  - destruct (artifact_versions d !! (a, v)) as [[c t']|] eqn:Hl; [|done]. intros [= ->].
    exists ((a, v), (c, t)). split; [by apply elem_of_map_to_list|]. simpl. by rewrite bool_decide_true.
Qed.

Lemma live_pins_par r d a : par r d → live_pins_for_artifact r a = live_pins_for_artifact_sql scan d a.
Proof using scan_perm.
  intros Hp. apply set_eq. intros v. unfold live_pins_for_artifact, live_pins_for_artifact_sql.
  rewrite !elem_of_list_to_set, !list_elem_of_omap. split.
  - intros ([token cut] & Hin & Hv). exists ((token, a), v). rewrite elem_scan. simpl. rewrite bool_decide_true by done. split; [|done].
    apply elem_of_map_to_list. rewrite <-(par_pins _ _ Hp token a). by rewrite (dget_elem _ _ _ (par_pins_wf _ _ Hp) Hin).
  - intros ([[token a'] v'] & Hin & Hv). rewrite elem_scan in Hin. apply elem_of_map_to_list in Hin. simpl in Hv.
    case_bool_decide; [|done]. simplify_eq. rewrite <-(par_pins _ _ Hp token a) in Hin.
    destruct (dget (session_pins r) token) as [cut|] eqn:Hd; [|done]. exists (token, cut). by split; [apply dget_Some_elem|].
Qed.

Lemma lookup_drop_versions d a l b v :
  artifact_versions (foldl (λ d v, d <| artifact_versions ::= delete (a, v) |>) d l) !! (b, v) =
    if decide (b = a ∧ v ∈ l) then None else artifact_versions d !! (b, v).
Proof.
  revert d. induction l as [|w l IH]; intros d; simpl.
  { rewrite decide_False; [done|]. by intros [_ ?%not_elem_of_nil]. }
  rewrite IH. simpl. destruct (decide (b = a ∧ v ∈ l)) as [[-> Hl]|Hl]; [by rewrite decide_True by (split; [done|by right])|].
  rewrite lookup_delete. destruct (decide ((a, w) = (b, v))) as [[= <- <-]|Hne]; [by rewrite decide_True by (split; [done|by left])|].
  rewrite decide_False; [done|]. intros [-> [->|?]%elem_of_cons]; naive_solver.
Qed.

Lemma touches_drop a d l : touches a d (foldl (λ d v, d <| artifact_versions ::= delete (a, v) |>) d l).
Proof.
  revert d. induction l as [|w l IH]; intros d; simpl; [done|]. etrans; [|apply IH]. split; try done.
  intros b v Hb. simpl. rewrite lookup_delete_ne by naive_solver. done.
Qed.

Lemma captured_versions E d a rec v c w : dict_wf (version_captured_at rec) →
  (∀ w, version_par rec w (artifact_versions d !! (a, w))) →
  version_par (captured_record (e_policy E) (live_pins_for_artifact_sql scan d a) (e_now E) rec v c) w
    (artifact_versions (captured_db E scan d a v c) !! (a, w)).
Proof using scan_perm.
  intros Hwf Hv. unfold captured_record, captured_db. set (d1 := d <| artifact_versions ::= _ |>). set (rec1 := rec <| _ ::= _ |> <| _ ::= _ |>).
  assert (∀ w, version_par rec1 w (artifact_versions d1 !! (a, w))) as H1.
  { intros x. destruct (Hv x) as [Hh Hc]. subst rec1 d1. unfold version_par. simpl. rewrite lookup_insert, !dget_dset.
    repeat case_decide; simplify_eq; done. }
  destruct (e_policy E) as [p|]; [|apply H1].
  erewrite (collectible_ext (version_captured_at rec1) (version_rows scan d1 a)).
  2: { intros [x t]. rewrite elem_version_rows, <-(proj2 (H1 x)). apply dict_elem_iff. by apply dict_wf_dset. }
  change (live_pins_for_artifact_sql scan d1 a) with (live_pins_for_artifact_sql scan d a).
  set (X := collectible_versions _ _ _ _ _). destruct (H1 w) as [Hh Hc]. unfold version_par.
  change (version_history (drop_versions X rec1)) with (filter (λ kv : Z * body, kv.1 ∉ X) (version_history rec1)).
  change (version_captured_at (drop_versions X rec1)) with (filter (λ kv : Z * Z, kv.1 ∉ X) (version_captured_at rec1)).
  rewrite lookup_drop_versions, !dget_drop. destruct (decide (w ∈ X)) as [Hx|Hx].
  - by rewrite decide_True by (split; [done|by apply elem_of_elements]).
  - rewrite decide_False; [done|]. by intros [_ ?%elem_of_elements].
Qed.

Lemma captured_touches E d a v c : touches a d (captured_db E scan d a v c) ∧
  artifacts (captured_db E scan d a v c) = artifacts d ∧ agent_states (captured_db E scan d a v c) = agent_states d.
Proof.
  unfold captured_db. set (d1 := d <| artifact_versions ::= _ |>).
  assert (touches a d d1) as H1.
  { split; try done. intros b w Hb. simpl. rewrite lookup_insert_ne by naive_solver. done. }
  destruct (e_policy E) as [p|]; [|by split_and!]. split; [etrans; [done|apply touches_drop]|].
  generalize (elements (collectible_versions (VMapping (version_rows scan d1 a)) v p (e_now E) (live_pins_for_artifact_sql scan d1 a))).
  intros l. change (artifacts d) with (artifacts d1). change (agent_states d) with (agent_states d1). generalize d1.
  clear. induction l as [|w l IH]; intros d; [done|]. exact (IH (d <| artifact_versions ::= delete (a, w) |>)).
Qed.
End queries.

(** ** Grants *)
Lemma alter_known `{Countable K} {V} (m : gmap K V) k x f : m !! k = Some x → alter f k m = <[k := f x]> m.
Proof.
  intros Hk. apply map_eq. intros j. rewrite lookup_alter, lookup_insert. case_decide; [subst j; by rewrite Hk|done].
Qed.

(** The rows a transition leaves. *)
Section transition.
Context (s : MESIState) (trigger : string) (tick : Z) (art : ArtRow) (prior : option StateRow).
Local Abbreviation prev := (m_or_e (default INVALID (sr_state <$> prior))).

Definition art_transition : ArtRow :=
  if prev && negb (m_or_e s) && bool_decide (trigger ∈ EPOCH_BUMP_TRIGGERS)
  then art <| ar_owner_generation ::= λ g, g + 1 |> else art.

Definition granted_transition : option Z :=
  if m_or_e s && negb prev then Some tick
  else if m_or_e s && prev then prior ≫= sr_granted_at_tick
  else if prev then None else prior ≫= sr_granted_at_tick.

Definition row_stored : StateRow :=
  match prior with
  | None => (blank_state s) <| sr_granted_at_tick := granted_transition |>
              <| sr_last_observed_version := if non_invalid s then Some (ar_version art) else None |>
  | Some row =>
    let row := row <| sr_state := s |> <| sr_granted_at_tick := granted_transition |> in
    let row := if m_or_e s && negb prev
               then row <| sr_last_reclaim_trigger := None |> <| sr_last_reclaim_tick := None |> else row in
    if non_invalid s then row <| sr_last_observed_version := Some (ar_version art) |> else row
  end.

Definition row_transition : StateRow :=
  if (m_or_e s && negb prev) || (bool_decide (trigger ∈ CLAIM_CAPTURE_TRIGGERS) && non_invalid s && negb prev)
  then row_stored <| sr_read_generation := Some (ar_owner_generation art_transition) |> else row_stored.

Definition state_written (d : Db) (a ag : UUID) : Db :=
  d <| artifacts ::= <[a := art_transition]> |> <| agent_states ::= <[(a, ag) := row_transition]> |>.

End transition.

Lemma sql_set_state_run E s trigger tick art prior a ag h d : artifacts d !! a = Some art → agent_states d !! (a, ag) = prior →
  big db (in_env E) (sql_set_agent_state a ag s trigger tick h) d (Ok tt) (state_written s trigger tick art prior d a ag).
Proof.
  intros Ha Hp. apply sql_guard. eapply (sql_logged E _ d (Ok tt)). eapply big_bind; [apply sql_select|]. rewrite Hp. cbv zeta.
  eapply big_bind; [by apply sql_select_artifact|].
  set (art' := art_transition s trigger art prior). set (row := row_stored s tick art prior).
  set (d1 := d <| artifacts ::= <[a := art']> |>).
  assert (artifacts d1 !! a = Some art') as Ha1 by (simpl; by rewrite lookup_insert_eq).
  eapply (big_bind _ _ _ _ _ tt d1).
  { unfold d1, art', art_transition. destruct (_ && _); simpl.
    - eapply big_ext; [apply sql_on_db|done|]. simpl. unfold set_field. simpl. by rewrite (alter_known _ _ _ _ Ha).
    - eapply big_ext; [apply big_ret|done|]. destruct d. unfold set_field. simpl in *. by rewrite insert_id. }
  set (d2 := d1 <| agent_states ::= <[(a, ag) := row]> |>).
  eapply (big_bind _ _ _ _ _ tt d2).
  { unfold d2, row, row_stored. destruct prior as [prow|].
    - eapply big_ext; [apply sql_on_db|done|]. unfold set_field. simpl. by rewrite (alter_known _ _ prow).
    - apply sql_insert_state; [by exists art'|done]. }
  eapply (big_bind _ _ _ _ _ tt (state_written s trigger tick art prior d a ag)); [|apply sql_emit].
  unfold state_written, row_transition. fold art' row. destruct (_ || _); simpl; [|apply big_ret].
  eapply big_ext; [apply sql_on_db|done|]. unfold d2, d1, set_field. simpl.
  rewrite (alter_known _ _ row) by (by rewrite lookup_insert_eq). by rewrite lookup_insert_eq, insert_insert_eq.
Qed.

(** The entries of one agent are the same in two records. *)
Record same_slot (rec rec' : ArtifactRecord) (p : UUID) : Prop := {
  ss_state : dget (state_by_agent rec') p = dget (state_by_agent rec) p;
  ss_transient : dget (transient_by_agent rec') p = dget (transient_by_agent rec) p;
  ss_transient_tick : dget (transient_tick_by_agent rec') p = dget (transient_tick_by_agent rec) p;
  ss_granted : dget (granted_at_tick_by_agent rec') p = dget (granted_at_tick_by_agent rec) p;
  ss_reclaim : dget (last_reclamation_by_agent rec') p = dget (last_reclamation_by_agent rec) p;
  ss_claim : dget (read_generation_by_agent rec') p = dget (read_generation_by_agent rec) p;
  ss_observed : dget (last_observed_version_by_agent rec') p = dget (last_observed_version_by_agent rec) p;
}.
Lemma slot_par_same rec rec' p o : same_slot rec rec' p → slot_par rec p o → slot_par rec' p o.
Proof. intros [] []. split; unfold st in *; congruence || (rewrite ss_state0; done). Qed.

Lemma transition_same_slot ag s tr tick rec p : p ≠ ag → same_slot rec (apply_transition ag s tr tick rec) p.
Proof.
  intros Hp. split.
  - by rewrite transition_states, dget_dset_ne.
  - by rewrite transition_transient.
  - by rewrite transition_transient_tick.
  - rewrite transition_granted. repeat case_match; by rewrite ?dget_dset_ne, ?dget_dpop_ne.
  - rewrite transition_reclamation. case_match; by rewrite ?dget_dpop_ne.
  - rewrite transition_readgen. case_match; by rewrite ?dget_dset_ne.
  - rewrite transition_observed. case_match; by rewrite ?dget_dset_ne.
Qed.

Lemma transition_art_par a ag s tr tick rec art o : art_par a rec art → slot_par rec ag o →
  art_par a (apply_transition ag s tr tick rec) (art_transition s tr art o).
Proof.
  intros [] Hs. unfold art_transition. rewrite <-(sp_state _ _ _ Hs).
  split; rewrite ?transition_artifact, ?version_transition, ?transition_writer, ?transition_generation;
    unfold bumps_epoch; destruct (m_or_e s), (m_or_e (st rec ag)), (bool_decide (tr ∈ EPOCH_BUMP_TRIGGERS)); simpl; try done; lia.
Qed.

Lemma transition_slot_par a ag s tr tick rec art o : art_par a rec art → slot_par rec ag o →
  slot_par (apply_transition ag s tr tick rec) ag (Some (row_transition s tr tick art o)).
Proof.
  intros Ha Hs. pose proof (ap_generation _ _ _ (transition_art_par a ag s tr tick rec art o Ha Hs)) as Hg.
  destruct Hs, Ha. unfold row_transition, row_stored, granted_transition. rewrite <-sp_state0.
  split; rewrite ?st_transition, ?transition_transient, ?transition_transient_tick, ?transition_granted, ?transition_reclamation,
    ?transition_readgen, ?transition_observed; unfold captures_claim;
  destruct o as [row|]; destruct s, (m_or_e (st rec ag)), (bool_decide (tr ∈ CLAIM_CAPTURE_TRIGGERS)); simpl in *;
    rewrite ?decide_True, ?dget_dset_eq, ?dget_dpop_eq by done; try done; congruence.
Qed.
