(* ===== verification/SqliteSimulation.v ===== *)
(** The simulation between the two registries, method by method, and along sequences of
    calls: related stores answer alike and stay related.  What the reads return of
    related stores is in [SqliteReads]. *)
From S2P Require Import Prelude Core Retention Registry RegistryFacts CommitFacts SessionFacts.
From S2P Require Import SqliteRegistry SqliteFacts SqliteParity.

Open Scope Z_scope.
Open Scope string_scope.

(** ** Answers that agree

    The durable registry does not store [depends_on], lists peers in the engine's
    order, and has one message for the two duplicates of a manifest. *)
Definition cas_alike (x y : CasResult) : Prop :=
  match x, y with
  | CasWin u inv, CasWin u' inv' => u <| art_depends_on := [] |> = u' ∧ inv ≡ₚ inv'
  | CasConflict d, CasConflict d' => d = d'
  | CasCorruption v, CasCorruption v' => v = v'
  | _, _ => False
  end.
Definition multi_alike (x y : MultiCasResult) : Prop :=
  match x, y with
  | MultiWin u, MultiWin u' => mcr_versions u = mcr_versions u' ∧
      Forall2 (λ p q, p.1 = q.1 ∧ p.2 ≡ₚ q.2) (mcr_invalidated u) (mcr_invalidated u')
  | MultiConflict l, MultiConflict l' => l = l'
  | MultiCorruption v, MultiCorruption v' => v = v'
  | _, _ => False
  end.
Definition obs_alike (x y : robs) : Prop :=
  match x, y with
  | ObsCas u, ObsCas u' => cas_alike u u'
  | ObsMulti u, ObsMulti u' => multi_alike u u'
  | _, _ => x = y
  end.
Definition manifest_duplicates : list exn :=
  [ValueError "create_checkpoint: duplicate checkpoint_id"; ValueError "create_checkpoint: duplicate member path"].
Definition exn_alike (e e' : exn) : Prop :=
  e = e' ∨ e ∈ manifest_duplicates ∧
    e' = ValueError "create_checkpoint: duplicate checkpoint_id or duplicate member path".
#[export] Instance exn_alike_reflexive : Reflexive exn_alike.
Proof. by left. Qed.
Definition alike (o o' : outcome exn robs) : Prop :=
  match o, o' with
  | Ok x, Ok y => obs_alike x y
  | Raise e, Raise e' => exn_alike e e'
  | _, _ => False
  end.

(** ** Calls covered

    The conditions are those under which the two stores are asked the same question:
    the durable one has a UNIQUE name column and foreign keys, and updates rows where
    the in-memory one fills a dictionary. *)
Definition name_free (r : Registry) (a : UUID) (name : string) : Prop :=
  ∀ b rec, get_record r b = Some rec → b ≠ a → art_name (artifact rec) ≠ name.
Definition op_ok (o : rop) (r : Registry) : Prop :=
  match o with
  | RRegister a _ => get_record r (art_id a) = None ∧ name_free r (art_id a) (art_name a)
  | RSetContent a new _ _ _ => is_Some (get_record r a) ∧ art_id new = a ∧ name_free r a (art_name new)
  | RSetTransient a _ _ _ | RClearTransient a _ => is_Some (get_record r a)
  | RReclamation ag a _ _ => is_Some (get_agent_state r a ag)
  | RAll _ ws _ _ => dict_wf ws
  | RCapture _ token _ _ => dget (session_pins r) token = None
  | _ => True
  end.

Record conf_par (E : sql_env) (r : Registry) : Prop := {
  cf_retain : retain_versions r = e_retain E;
  cf_policy : retention_policy r = e_policy E;
  cf_epoch : coordinator_epoch r = e_epoch E;
}.

Section simulation.
Context (E : sql_env) (scan : ∀ A, list A → list A) (scan_perm : ∀ A l, scan A l ≡ₚ l).
Local Abbreviation mbig := (big core (instant (e_now E))).
Local Abbreviation sbig := (big db (in_env E)).

Definition simulates (m : RM robs) (n : HM robs) (r : Registry) (d : Db) : Prop :=
  ∃ o r' o' d', mbig m r o r' ∧ sbig n d o' d' ∧ alike o o' ∧ par r' d' ∧ conf_par E r'.

Lemma unit_sim {A B} (m : RM A) (n : HM B) r d x r' y d' : mbig m r (Ok x) r' → sbig n d (Ok y) d' → par r' d' → conf_par E r' →
  simulates (m ;; mret ObsUnit) (n ;; mret ObsUnit) r d.
Proof.
  intros Hm Hn Hp Hc. exists (Ok ObsUnit), r', (Ok ObsUnit), d'. split_and!; [..|done|done|done];
    (eapply big_bind; [done|apply big_ret]).
Qed.
Lemma raise_sim {A B} (m : RM A) (n : HM B) (f : A → robs) (g : B → robs) r d e e' : mbig m r (Raise e) r → sbig n d (Raise e') d →
  exn_alike e e' → par r d → conf_par E r → simulates (x ← m; mret (f x)) (x ← n; mret (g x)) r d.
Proof.
  intros Hm Hn He Hp Hc. exists (Raise e), r, (Raise e'), d. split_and!; [..|done|done|done]; by apply big_bind_raise.
Qed.

Lemma sim_set_state a ag s tr tick h r d : par r d → conf_par E r →
  simulates (mem_run (RSetState a ag s tr tick h)) (sql_run scan (RSetState a ag s tr tick h)) r d.
Proof.
  intros Hp Hc. destruct (get_record r a) as [rec|] eqn:Hr.
  - destruct (par_some _ _ _ _ Hp Hr) as (row & Ha & Hw & Hart & Hs & Hv).
    destruct (mem_emit (e_now E) a ag (st rec ag) s tr tick (version rec) h
      (r <| records ::= λ m, dset m a (apply_transition ag s tr tick rec) |>)) as [n Hn].
    eapply (unit_sim _ _ r d _ (r <| records ::= λ m, dset m a (apply_transition ag s tr tick rec) |>));
      [|by apply sql_set_state_run| |by destruct Hc].
    + eapply big_bind; [by apply mem_require|]. eapply big_bind; [apply mem_put|]. eapply big_bind; [exact Hn|apply big_ret].
    + apply (par_touch a _ d); [done| |].
      * split; try done; intros b; simpl; intros; by rewrite lookup_insert_ne by congruence.
      * unfold record_par. simpl. rewrite lookup_insert_eq. split_and!.
        -- destruct Hw. split; rewrite ?transition_states, ?transition_captured; [by apply dict_wf_dset|done].
        -- by apply transition_art_par.
        -- intros p. rewrite lookup_insert. case_decide; [simplify_eq; by apply (transition_slot_par a)|].
           eapply slot_par_same; [apply transition_same_slot; congruence|apply Hs].
        -- intros v. unfold version_par. rewrite transition_history, transition_captured. apply Hv.
  - destruct (par_none _ _ _ Hp Hr) as (Ha & _). apply (raise_sim _ _ (λ _, ObsUnit) (λ _, ObsUnit) _ _ (KeyError "artifact") (KeyError "artifact")); [| |done|done|done].
    + eapply big_bind_raise. by apply mem_require_none.
    + apply sql_guard. eapply (sql_logged E _ d (Raise _)). eapply big_bind; [apply sql_select|]. eapply big_bind_raise.
      by apply sql_select_artifact_none.
Qed.

(** ** Transients, heartbeats, reclamations *)

(** Only entries of agents differ between two records. *)
Record same_head (rec rec' : ArtifactRecord) : Prop := {
  sh_artifact : artifact rec' = artifact rec;
  sh_writer : last_writer rec' = last_writer rec;
  sh_generation : owner_generation rec' = owner_generation rec;
  sh_states : dict_wf (state_by_agent rec) → dict_wf (state_by_agent rec');
  sh_history : version_history rec' = version_history rec;
  sh_captured : version_captured_at rec' = version_captured_at rec;
}.

(** A method that writes the row of one agent, if there is one or if it inserts it. *)
Lemma par_row (a p : UUID) (r : Registry) (d : Db) (rec rec' : ArtifactRecord) (g : gmap (UUID * UUID) StateRow → gmap (UUID * UUID) StateRow) :
  par r d → get_record r a = Some rec → same_head rec rec' →
  (∀ k, k ≠ (a, p) → g (agent_states d) !! k = agent_states d !! k) →
  (∀ q, q ≠ p → same_slot rec rec' q) →
  (slot_par rec p (agent_states d !! (a, p)) → slot_par rec' p (g (agent_states d) !! (a, p))) →
  par (r <| records ::= λ m, dset m a rec' |>) (d <| agent_states ::= g |>).
Proof.
  intros Hp Hr [] Hg Hq Hslot. destruct (par_some _ _ _ _ Hp Hr) as (row & Ha & [] & [] & Hs & Hv). apply (par_touch a _ d); [done| |].
  - split; try done. intros b q Hb. simpl. apply Hg. congruence.
  - unfold record_par. simpl. rewrite Ha. split_and!.
    + split; [auto|congruence].
    + split; unfold version in *; congruence.
    + intros q. destruct (decide (q = p)) as [->|Hne]; [by apply Hslot|]. rewrite Hg by congruence.
      eapply slot_par_same; [by apply Hq|apply Hs].
    + intros v. unfold version_par. rewrite sh_history0, sh_captured0. apply Hv.
Qed.

Lemma mem_update a f rec r : get_record r a = Some rec → mbig (update_record a f) r (Ok tt) (r <| records ::= λ m, dset m a (f rec) |>).
Proof. intros Hr. eapply big_bind; [by apply mem_require|apply mem_put]. Qed.

Lemma alter_other (m : gmap (UUID * UUID) StateRow) f k k' : k' ≠ k → alter f k m !! k' = m !! k'.
Proof. intros. by rewrite lookup_alter_ne. Qed.

Lemma sim_set_transient a ag t tick r d : par r d → conf_par E r → op_ok (RSetTransient a ag t tick) r →
  simulates (mem_run (RSetTransient a ag t tick)) (sql_run scan (RSetTransient a ag t tick)) r d.
Proof.
  intros Hp Hc [rec Hr]. destruct (par_some _ _ _ _ Hp Hr) as (row & Ha & Hw & Hart & Hs & Hv).
  eapply unit_sim; [by apply mem_update| | |by destruct Hc].
  - apply sql_guard. eapply (sql_transaction E _ d (Ok tt)). eapply big_bind; [apply sql_references; by exists row|]. apply sql_on_db.
  - eapply (par_row a ag); [done|done|by split|by intros; rewrite lookup_insert_ne|..].
    + intros q Hq. split; simpl; by rewrite ?dget_dset_ne.
    + rewrite lookup_insert_eq. intros []. unfold st in *. destruct (agent_states d !! (a, ag)) as [x|]; simpl in *;
        split; unfold st; simpl; rewrite ?dget_dset_eq; by eauto.
Qed.

Lemma sim_clear_transient a ag r d : par r d → conf_par E r → op_ok (RClearTransient a ag) r →
  simulates (mem_run (RClearTransient a ag)) (sql_run scan (RClearTransient a ag)) r d.
Proof.
  intros Hp Hc [rec Hr]. destruct (par_some _ _ _ _ Hp Hr) as (row & Ha & Hw & Hart & Hs & Hv).
  eapply unit_sim; [by apply mem_update| | |by destruct Hc].
  - apply sql_guard. eapply (sql_transaction E _ d (Ok tt)). apply sql_on_db.
  - eapply (par_row a ag); [done|done|by split|by intros; apply alter_other|..].
    + intros q Hq. split; simpl; by rewrite ?dget_dpop_ne.
    + rewrite lookup_alter_eq. intros []. unfold st in *. destruct (agent_states d !! (a, ag)) as [x|]; simpl in *;
        split; unfold st; simpl; rewrite ?dget_dpop_eq; by eauto.
Qed.

Lemma sim_reclamation ag a tr tick r d : par r d → conf_par E r → op_ok (RReclamation ag a tr tick) r →
  simulates (mem_run (RReclamation ag a tr tick)) (sql_run scan (RReclamation ag a tr tick)) r d.
Proof.
  intros Hp Hc [x Hx]. unfold get_agent_state in Hx. destruct (get_record r a) as [rec|] eqn:Hr; [|done]. simpl in Hx.
  destruct (par_some _ _ _ _ Hp Hr) as (row & Ha & Hw & Hart & Hs & Hv).
  destruct (sp_row _ _ _ (Hs ag)) as [srow Hsr]; [by rewrite Hx|].
  eapply unit_sim; [by apply mem_update| | |by destruct Hc].
  - apply sql_guard. eapply (sql_transaction E _ d (Ok tt)). apply sql_on_db.
  - eapply (par_row a ag); [done|done|by split|by intros; apply alter_other|..].
    + intros q Hq. split; simpl; by rewrite ?dget_dset_ne.
    + rewrite lookup_alter_eq, Hsr. intros []. unfold st in *. simpl in *. split; unfold st; simpl; rewrite ?dget_dset_eq; by eauto.
Qed.

Lemma sim_heartbeat ag tick r d : par r d → conf_par E r →
  simulates (mem_run (RHeartbeat ag tick)) (sql_run scan (RHeartbeat ag tick)) r d.
Proof.
  intros Hp Hc.
  set (last := match dget (heartbeat_by_agent r) ag with Some l => Z.max l tick | None => tick end).
  eapply (unit_sim _ _ r d tt (r <| heartbeat_by_agent ::= λ m, dset m ag last |>)); [| | |by destruct Hc].
  - intros r0 <- Hi. unfold record_heartbeat. subst last. change (heartbeat_by_agent (core r0)) with (heartbeat_by_agent r0).
    destruct (dget (heartbeat_by_agent r0) ag) as [l|] eqn:El; [case_decide as Hl|].
    + rewrite Z.max_r by lia. eexists. split; [reflexivity|by split].
    + rewrite Z.max_l by lia. exists r0. split_and!; [done| |done]. destruct r0. unfold core, set_field in *. simpl in *. by rewrite dset_id.
    + eexists. split; [reflexivity|by split].
  - apply sql_guard. eapply (sql_transaction E _ d (Ok tt)). apply sql_on_db.
  - split; try apply Hp. intros p. simpl. rewrite dget_dset, lookup_insert, <-!(par_heartbeats _ _ Hp). subst last.
    by repeat case_decide.
Qed.

(** ** Artifacts and their history *)
Definition kept_rec (pins : gset Z) (rec : ArtifactRecord) (v : Z) (c : body) : ArtifactRecord :=
  if e_retain E then captured_record (e_policy E) pins (e_now E) rec v c else rec.
Definition kept_db (d : Db) (a : UUID) (v : Z) (c : body) : Db := if e_retain E then captured_db E scan d a v c else d.

Lemma kept_par a rec d v c pins : record_par a (Some rec) d → pins = live_pins_for_artifact_sql scan d a →
  record_par a (Some (kept_rec pins rec v c)) (kept_db d a v c).
Proof using scan_perm.
  unfold kept_rec, kept_db. destruct (e_retain E); [|done]. intros Hr ->. unfold record_par in *.
  destruct (captured_touches scan E d a v c) as (_ & -> & ->). destruct (artifacts d !! a) as [row|]; [|done].
  destruct Hr as (Hw & Ha & Hs & Hv).
  destruct (captured_shape (e_policy E) (live_pins_for_artifact_sql scan d a) (e_now E) rec v c) as (h & t & Heq).
  pose proof (captured_dates (e_policy E) (live_pins_for_artifact_sql scan d a) (e_now E) rec v c) as Hd.
  split_and!.
  - split; [rewrite Heq; apply Hw|]. unfold captured_record. destruct (e_policy E); simpl; [apply dict_wf_filter|]; apply dict_wf_dset, Hw.
  - rewrite Heq. by destruct Ha.
  - intros p. rewrite Heq. by destruct (Hs p).
  - intros w. apply captured_versions; [done|apply Hw|done].
Qed.

Lemma kept_touches d a v c : touches a d (kept_db d a v c).
Proof. unfold kept_db. destruct (e_retain E); [apply captured_touches|done]. Qed.

Lemma sql_keep a v c d : is_Some (artifacts d !! a) →
  sbig (retain ← gets h_retain; when retain (capture_version_sql scan a v c)) d (Ok tt) (kept_db d a v c).
Proof.
  intros Ha. eapply big_bind; [apply sql_gets_retain|]. unfold kept_db. destruct (e_retain E); [by apply sql_capture|apply big_ret].
Qed.

Lemma mem_keep {A} rec v c (k : ArtifactRecord → RM A) r o r' : conf_par E r →
  mbig (k (kept_rec (live_pins_for_artifact r (art_id (artifact rec))) rec v c)) r o r' →
  mbig (retain ← gets retain_versions; rec ← (if retain : bool then capture_version rec v c else mret rec); k rec) r o r'.
Proof.
  intros [Hcr Hcp _] Hk. eapply big_bind; [apply mem_retain|]. rewrite Hcr. unfold kept_rec in Hk. rewrite <-Hcp in Hk.
  destruct (e_retain E); (eapply big_bind; [|exact Hk]); [apply mem_capture|apply big_ret].
Qed.

Lemma name_taken_free r d a name : par r d → name_free r a name → name_taken d a name = false.
Proof.
  intros Hp Hn. apply not_true_is_false. intros Ht. apply existsb_exists in Ht as ([b row] & Hin & [Hb Hname]%andb_prop).
  apply bool_decide_eq_true in Hb, Hname. apply list_elem_of_In, elem_of_map_to_list in Hin. simpl in *.
  pose proof (par_records _ _ Hp b) as Hr. unfold record_par in Hr. rewrite Hin in Hr.
  destruct (get_record r b) as [rec|] eqn:Eb; [|done]. destruct Hr as (_ & Ha & _).
  apply (Hn b rec Eb Hb). rewrite (ap_name _ _ _ Ha). done.
Qed.

Lemma sim_register a c r d : par r d → conf_par E r → op_ok (RRegister a c) r →
  simulates (mem_run (RRegister a c)) (sql_run scan (RRegister a c)) r d.
Proof using scan_perm.
  intros Hp Hc [Hr Hn]. destruct (par_none _ _ _ Hp Hr) as (Ha & Hs & Hv).
  set (row := mkArtRow (art_name a) (art_version a) 0 (default "" (art_content_hash a)) (art_size_tokens a) None (e_now E)).
  set (d1 := d <| artifacts ::= <[art_id a := row]> |>).
  set (rec := kept_rec (live_pins_for_artifact r (art_id a)) (fresh_record a c) (art_version a) c).
  eapply (unit_sim _ _ r d tt (r <| records ::= λ m, dset m (art_id a) rec |>) tt (kept_db d1 (art_id a) (art_version a) c));
    [| | |by destruct Hc].
  - apply mem_keep; [done|]. apply mem_put.
  - apply sql_guard. eapply (sql_transaction E _ d (Ok tt)). eapply big_bind; [apply sql_time|].
    eapply big_bind; [by apply sql_insert_artifact, (name_taken_free r)|]. apply sql_keep. simpl. rewrite lookup_insert_eq. by exists row.
  - assert (touches (art_id a) d d1) as Ht by (split; try done; intros b Hb; simpl; by rewrite lookup_insert_ne).
    apply (par_touch (art_id a) _ d); [done|etrans; [exact Ht|apply kept_touches]|].
    apply kept_par; [|by rewrite (live_pins_par scan scan_perm r d)].
    unfold record_par. simpl. rewrite lookup_insert_eq. split_and!; [by split; apply NoDup_nil_2|by split| |].
    + intros p. rewrite Hs. by split; [..|intros [? ?]].
    + intros v. by rewrite Hv.
Qed.

Lemma fence_par a ag rec row o : art_par a rec row → slot_par rec ag o →
  fence_superseded rec ag = match o ≫= sr_read_generation with Some g => bool_decide (g < ar_owner_generation row) | None => false end.
Proof. intros Ha Hs. unfold fence_superseded. rewrite (sp_claim _ _ _ Hs), (ap_generation _ _ _ Ha). done. Qed.

Lemma sql_fence a ag rec row d : artifacts d !! a = Some row → art_par a rec row → slot_par rec ag (agent_states d !! (a, ag)) →
  sbig (sql_fence_check a ag) d (if fence_superseded rec ag then Raise StaleReadGeneration else Ok tt) d.
Proof.
  intros Hr Ha Hs. rewrite (fence_par _ _ _ _ _ Ha Hs). eapply big_bind; [apply sql_select|]. unfold sql_get_read_generation.
  destruct (_ ≫= sr_read_generation) as [g|]; [|apply big_ret]. eapply big_bind; [by apply sql_select_artifact|].
  case_bool_decide; [apply big_raise|apply big_ret].
Qed.

(** A commit: the artifact row is replaced, then the body captured. *)
Definition content_set (rec : ArtifactRecord) (new : Artifact) (c : body) (w : option UUID) : ArtifactRecord :=
  rec <| artifact := new |> <| content := c |> <| last_writer := w |>.
Lemma kept_content_set pins rec v new c w : content_set (kept_rec pins rec v c) new c w = kept_rec pins (content_set rec new c w) v c.
Proof. unfold kept_rec, captured_record. by destruct (e_retain E), (e_policy E). Qed.

Lemma sim_set_content a new c w f r d : par r d → conf_par E r → op_ok (RSetContent a new c w f) r →
  simulates (mem_run (RSetContent a new c w f)) (sql_run scan (RSetContent a new c w f)) r d.
Proof using scan_perm.
  intros Hp Hc ([rec Hr] & Hid & Hn). destruct (par_some _ _ _ _ Hp Hr) as (row & Ha & Hw & Hart & Hs & Hv).
  set (fenced := match f with Some ag => fence_superseded rec ag | None => false end).
  assert (sbig (match f with Some ag => sql_fence_check a ag | None => mret tt end) d
            (if fenced then Raise StaleReadGeneration else Ok tt) d) as Hf.
  { subst fenced. destruct f as [ag|]; [by eapply sql_fence|apply big_ret]. }
  destruct fenced eqn:Ef.
  { apply (raise_sim _ _ (λ _, ObsUnit) (λ _, ObsUnit) _ _ StaleReadGeneration StaleReadGeneration); [..|done|done|done].
    - eapply big_bind; [by apply mem_require|]. fold fenced. rewrite Ef. apply big_raise.
    - apply sql_guard. eapply (sql_transaction E _ d (Raise _)). by apply big_bind_raise. }
  set (row' := row <| ar_name := art_name new |> <| ar_version := art_version new |>
    <| ar_content_hash := default "" (art_content_hash new) |> <| ar_size_tokens := art_size_tokens new |>
    <| ar_last_writer_id := w |> <| ar_updated_at := e_now E |>).
  set (d1 := d <| artifacts ::= <[a := row']> |>). set (rec1 := content_set rec new c w).
  eapply (unit_sim _ _ r d tt (r <| records ::= λ m, dset m a (kept_rec (live_pins_for_artifact r a) rec1 (art_version new) c) |>)
            tt (kept_db d1 a (art_version new) c)); [| | |by destruct Hc].
  - eapply big_bind; [by apply mem_require|]. fold fenced. rewrite Ef. apply mem_keep; [done|].
    rewrite (ap_id _ _ _ Hart). subst rec1. rewrite <-kept_content_set. apply mem_put.
  - apply sql_guard. eapply (sql_transaction E _ d (Ok tt)). eapply big_bind; [exact Hf|]. eapply big_bind; [apply sql_time|].
    eapply big_bind; [by apply sql_rename_free, (name_taken_free r)|]. eapply (big_bind _ _ _ _ _ tt d1).
    + eapply big_ext; [apply sql_on_db|done|]. unfold d1, set_field. simpl. by rewrite (alter_known _ _ _ _ Ha).
    + apply sql_keep. simpl. rewrite lookup_insert_eq. by exists row'.
  - assert (touches a d d1) as Ht by (split; try done; intros b Hb; simpl; by rewrite lookup_insert_ne).
    apply (par_touch a _ d); [done|etrans; [exact Ht|apply kept_touches]|].
    apply kept_par; [|by rewrite (live_pins_par scan scan_perm r d)].
    unfold record_par. simpl. rewrite lookup_insert_eq. destruct Hart. split_and!; [by destruct Hw|by split| |done].
    intros p. by destruct (Hs p).
Qed.

Lemma sim_remove a r d : par r d → conf_par E r → simulates (mem_run (RRemove a)) (sql_run scan (RRemove a)) r d.
Proof.
  intros Hp Hc. eapply (unit_sim _ _ r d tt (r <| records ::= λ m, dpop m a |>)); [| | |by destruct Hc].
  - by apply (mem_modify _ (λ r, r <| records ::= λ m, dpop m a |>)).
  - apply sql_guard. eapply (sql_transaction E _ d (Ok tt)). apply sql_on_db.
  - split; try apply Hp; [|by apply dict_wf_dpop, Hp]. intros b. unfold record_par, get_record. simpl. rewrite dget_dpop.
    destruct (decide (a = b)) as [<-|Hb].
    + rewrite lookup_delete_eq. split; intros; apply map_lookup_filter_None_2; right; by intros ? _ [].
    + rewrite lookup_delete_ne by done. pose proof (par_records _ _ Hp b) as H. unfold record_par, get_record in H.
      assert (∀ p, filter (λ kr : (UUID * UUID) * StateRow, kr.1.1 ≠ a) (agent_states d) !! (b, p) = agent_states d !! (b, p)) as Hs.
      { intros p. destruct (agent_states d !! (b, p)) eqn:Ep; [apply map_lookup_filter_Some_2; [done|simpl; congruence]|].
        apply map_lookup_filter_None_2. by left. }
      assert (∀ v, filter (λ kr : (UUID * Z) * (body * Z), kr.1.1 ≠ a) (artifact_versions d) !! (b, v) = artifact_versions d !! (b, v)) as Hv.
      { intros v. destruct (artifact_versions d !! (b, v)) eqn:Ev; [apply map_lookup_filter_Some_2; [done|simpl; congruence]|].
        apply map_lookup_filter_None_2. by left. }
      destruct (dget (records r) b), (artifacts d !! b); try done.
      * destruct H as (? & ? & H1 & H2). split_and!; [done|done|intros; rewrite Hs; apply H1|intros; rewrite Hv; apply H2].
      * destruct H as [H1 H2]. split; intros; rewrite ?Hs, ?Hv; auto.
Qed.

(** ** Sessions *)
Lemma capture_cut_par r d ids cut missing : par r d → sql_capture_cut d ids cut missing = capture_cut r ids cut missing.
Proof.
  intros Hp. revert cut missing. induction ids as [|a ids IH]; intros cut missing; simpl; [done|].
  destruct (get_record r a) as [rec|] eqn:Hr.
  - destruct (par_some _ _ _ _ Hp Hr) as (row & -> & _ & Ha & _). change (art_version (artifact rec)) with (version rec).
    rewrite (ap_version _ _ _ Ha). apply IH.
  - destruct (par_none _ _ _ Hp Hr) as (-> & _). apply IH.
Qed.

Lemma capture_cut_core r ids cut missing : capture_cut (core r) ids cut missing = capture_cut r ids cut missing.
Proof.
  revert cut missing. induction ids as [|a ids IH]; intros cut missing; simpl; [done|].
  change (get_record (core r) a) with (get_record r a). by destruct (get_record r a).
Qed.

Definition pinned (token : string) (d : Db) (av : UUID * Z) : Db := d <| pins_table ::= <[(token, av.1) := av.2]> |>.
Lemma pinned_tables token cut d : ∃ m, foldl (pinned token) d cut = d <| pins_table := m |> ∧
  (dict_wf cut → ∀ t a, m !! (t, a) = if decide (t = token) then match dget cut a with Some v => Some v | None => pins_table d !! (t, a) end
                       else pins_table d !! (t, a)).
Proof.
  revert d. induction cut as [|[b v] cut IH]; intros d.
  { exists (pins_table d). split; [by destruct d|]. intros _ t a. by case_decide. }
  destruct (IH (pinned token d (b, v))) as (m & Hm & Hl). exists m. split; [exact Hm|].
  intros [Hb Hwf]%dict_wf_cons t a. rewrite (Hl Hwf). simpl. rewrite !lookup_insert. apply dget_None in Hb.
  destruct (decide (t = token)) as [->|Ht]; [|by rewrite decide_False by congruence].
  destruct (decide (b = a)) as [->|Hba].
  - rewrite Hb. by rewrite decide_True by done.
  - destruct (dget cut a); [done|]. by rewrite decide_False by congruence.
Qed.

Lemma sim_capture ids token owner tick r d : par r d → conf_par E r → op_ok (RCapture ids token owner tick) r →
  simulates (mem_run (RCapture ids token owner tick)) (sql_run scan (RCapture ids token owner tick)) r d.
Proof.
  intros Hp Hc Hfresh. destruct (capture_cut r ids [] []) as [cut [|m ms]] eqn:Ecut.
  - assert (dict_wf cut) as Hwf. { pose proof (capture_cut_wf r ids [] []) as H. rewrite Ecut in H. apply H, dict_wf_nil. }
    destruct (pinned_tables token cut d) as (pt & Hpt & Hl).
    set (d1 := d <| pins_table := pt |>).
    set (d2 := match owner with Some o => d1 <| meta_table ::= <[token := (o, default 0 tick)]> |> | None => d1 end).
    set (r1 := r <| session_pins ::= λ m, dset m token cut |>).
    set (r2 := match owner with Some o => r1 <| session_meta ::= λ m, dset m token (o, default 0 tick) |> | None => r1 end).
    exists (Ok (ObsCut (inl cut))), r2, (Ok (ObsCut (inl cut))), d2. split_and!.
    + eapply big_bind; [|apply big_ret]. intros r0 <- Hi. unfold capture_version_vector.
      rewrite <-capture_cut_core, Ecut. eexists. split; [reflexivity|].
      subst r2 r1. by destruct owner.
    + eapply big_bind; [|apply big_ret]. apply sql_guard. eapply (sql_transaction E _ d (Ok _)). eapply big_bind; [apply sql_select|].
      rewrite (capture_cut_par r), Ecut by done. eapply big_bind.
      { apply (big_for_each _ _ _ (pinned token)). intros av d' _. apply sql_on_db. }
      rewrite Hpt. fold d1. eapply (big_bind _ _ _ _ _ tt d2); [|apply big_ret]. subst d2. destruct owner; [apply sql_on_db|apply big_ret].
    + done.
    + assert (par r1 d1) as Hp1.
      { split; try apply Hp. 2: by apply dict_wf_dset, Hp. intros t a. simpl. rewrite (Hl Hwf), dget_dset.
        destruct (decide (token = t)) as [<-|Ht]; [|rewrite decide_False by congruence; apply (par_pins _ _ Hp)].
        rewrite decide_True by done. simpl. destruct (dget cut a); [done|]. rewrite <-(par_pins _ _ Hp). by rewrite Hfresh. }
      subst r2 d2. destruct owner as [o|]; [|done]. split; try apply Hp1. intros t. simpl. rewrite dget_dset, lookup_insert.
      case_decide; [done|]. apply (par_meta _ _ Hp).
    + subst r2 r1. destruct Hc. by destruct owner.
  - set (rej := mkVersionedReadRejection UNKNOWN_ARTIFACT_REASON (foldl N.min m ms) 0 None).
    exists (Ok (ObsCut (inr (rej (coordinator_epoch r))))), r, (Ok (ObsCut (inr (rej (e_epoch E))))), d. split_and!; [..|done|done].
    + eapply big_bind; [|apply big_ret]. intros r0 <- Hi. unfold capture_version_vector.
      rewrite <-capture_cut_core, Ecut. exists r0. by split.
    + eapply big_bind; [|apply big_ret]. apply sql_guard. eapply (sql_transaction E _ d (Ok _)). eapply big_bind; [apply sql_select|].
      rewrite (capture_cut_par r), Ecut by done. eapply big_bind; [apply sql_gets_epoch|apply big_ret].
    + simpl. by rewrite (cf_epoch _ _ Hc).
Qed.

Lemma sim_release token r d : par r d → conf_par E r → simulates (mem_run (RRelease token)) (sql_run scan (RRelease token)) r d.
Proof.
  intros Hp Hc. eapply (unit_sim _ _ r d tt (r <| session_pins ::= λ m, dpop m token |> <| session_meta ::= λ m, dpop m token |>));
    [| | |by destruct Hc].
  - by apply (mem_modify _ (λ r, r <| session_pins ::= λ m, dpop m token |> <| session_meta ::= λ m, dpop m token |>)).
  - apply sql_guard. eapply (sql_transaction E _ d (Ok tt)). apply sql_on_db.
  - split; try apply Hp; simpl; [intros t a|intros t|by apply dict_wf_dpop, Hp].
    + rewrite dget_dpop. destruct (decide (token = t)) as [<-|Ht].
      * symmetry. apply map_lookup_filter_None_2. right. by intros ? _ [].
      * rewrite (par_pins _ _ Hp). symmetry. destruct (pins_table d !! (t, a)) eqn:El; [by apply map_lookup_filter_Some_2; [|simpl; congruence]|].
        apply map_lookup_filter_None_2. by left.
    + rewrite dget_dpop, lookup_delete. case_decide; [done|apply (par_meta _ _ Hp)].
Qed.

(** ** Manifests *)
Lemma sql_catch {A} (m : HM A) h d o d' o' d'' : sbig m d o d' →
  match o with Ok x => o' = Ok x ∧ d'' = d' | Raise e => sbig (h e) d' o' d'' end → sbig (catch m h) d o' d''.
Proof.
  intros Hm Hh s Hs He. unfold catch. destruct (Hm s Hs He) as (s1 & -> & Hd & He1). destruct o as [x|e].
  - destruct Hh as [-> ->]. by exists s1.
  - by apply Hh.
Qed.

(** The members of one manifest, inserted one by one, against the index the in-memory
    registry builds first. *)
Lemma insert_members id members acc d : (∀ p, dget acc p = members_table d !! (id, p)) →
  match index_members members acc with
  | Ok by_path => ∃ m, sbig (for_each members (insert_member id)) d (Ok tt) (d <| members_table := m |>) ∧
      (∀ p, dget by_path p = m !! (id, p)) ∧ (∀ id' p, id' ≠ id → m !! (id', p) = members_table d !! (id', p))
  | Raise _ => ∃ d', sbig (for_each members (insert_member id)) d (Raise (IntegrityError "UNIQUE constraint failed")) d'
  end.
Proof.
  revert acc d. induction members as [|m members IH]; intros acc d Hacc; simpl.
  { exists (members_table d). split_and!; [|done|done]. eapply big_ext; [apply big_ret|done|by destruct d]. }
  unfold dmem. rewrite Hacc. destruct (members_table d !! (id, cm_member_path m)) as [old|] eqn:El.
  - exists d. apply big_bind_raise. eapply big_bind; [apply sql_select|]. rewrite bool_decide_true by (by exists old). apply big_raise.
  - set (d1 := d <| members_table ::= <[(id, cm_member_path m) := m]> |>).
    assert (sbig (insert_member id m) d (Ok tt) d1) as H1.
    { eapply big_bind; [apply sql_select|]. rewrite bool_decide_false by (by rewrite El; intros [? [=]]). apply sql_on_db. }
    specialize (IH (dset acc (cm_member_path m) m) d1). destruct (index_members _ _) as [bp|e].
    + destruct IH as (mt & H2 & H3 & H4).
      { intros p. simpl. rewrite dget_dset, lookup_insert, Hacc. repeat case_decide; simplify_eq; done. }
      exists mt. split_and!; [by eapply big_bind; [exact H1|]|done|]. intros id' p Hne. rewrite H4 by done. simpl.
      by rewrite lookup_insert_ne by congruence.
    + destruct IH as (d' & H2).
      { intros p. simpl. rewrite dget_dset, lookup_insert, Hacc. repeat case_decide; simplify_eq; done. }
      exists d'. by eapply big_bind.
Qed.

Lemma sim_checkpoint cp members r d : par r d → conf_par E r →
  simulates (mem_run (RCheckpoint cp members)) (sql_run scan (RCheckpoint cp members)) r d.
Proof.
  intros Hp Hc. set (id := cp_checkpoint_id cp). pose proof (λ e e', raise_sim (create_checkpoint cp members) (sql_create_checkpoint cp members)
    (λ _, ObsUnit) (λ _, ObsUnit) r d e e') as Hraise. unfold create_checkpoint, sql_create_checkpoint in Hraise |- *.
  simpl. unfold create_checkpoint, sql_create_checkpoint. destruct (cp_owner cp) as [o|].
  2: { eapply Hraise; [apply big_raise|apply sql_guard, big_raise|done|done|done]. }
  assert (mbig (gets (λ r, dmem (checkpoints r) (cp_checkpoint_id cp))) r (Ok (dmem (checkpoints r) id)) r) as Hdup by by apply mem_gets.
  pose proof (par_checkpoints _ _ Hp id) as Hid. unfold dmem in Hdup. rewrite Hid in Hdup.
  destruct (checkpoints_table d !! id) as [old|] eqn:El.
  - eapply (Hraise (ValueError _) (ValueError _)); [eapply big_bind; [exact Hdup|apply big_raise]| | |done|done].
    2: { right. split; [by left|done]. }
    apply sql_guard. eapply sql_catch; [eapply (sql_transaction E _ d (Raise _))|].
    + eapply big_bind; [apply sql_select|]. fold id. rewrite bool_decide_true by (by exists old). apply big_raise.
    + apply big_raise.
  - set (d1 := d <| checkpoints_table ::= <[id := cp]> |>).
    assert (∀ p, dget [] p = members_table d1 !! (id, p)) as Hnone.
    { intros p. simpl. rewrite <-(par_members _ _ Hp). by rewrite (par_orphans _ _ Hp id). }
    pose proof (insert_members id members [] d1 Hnone) as Hins. destruct (index_members members []) as [by_path|e] eqn:Ei.
    + destruct Hins as (mt & H1 & H2 & H3).
      eapply (unit_sim _ _ r d tt (r <| checkpoints ::= λ m, dset m id cp |> <| checkpoint_members ::= λ m, dset m id by_path |>)
                tt (d1 <| members_table := mt |>)); [| | |by destruct Hc].
      * eapply big_bind; [exact Hdup|]. eapply (big_bind _ _ _ _ _ by_path r); [intros r0 <- Hi; by exists r0|].
        by apply (mem_modify _ (λ r, r <| checkpoints ::= λ m, dset m id cp |> <| checkpoint_members ::= λ m, dset m id by_path |>)).
      * apply sql_guard. eapply sql_catch; [eapply (sql_transaction E _ d (Ok tt))|by split].
        eapply big_bind; [apply sql_select|]. fold id. rewrite bool_decide_false by (by rewrite El; intros [? [=]]).
        eapply big_bind; [apply sql_on_db|exact H1].
      * split; try apply Hp; simpl.
        -- intros i. rewrite dget_dset, lookup_insert. case_decide; [done|apply (par_checkpoints _ _ Hp)].
        -- intros i p. rewrite dget_dset. destruct (decide (id = i)) as [<-|Hne]; [apply H2|]. rewrite H3 by done. apply (par_members _ _ Hp).
        -- intros i. rewrite !dget_dset. case_decide; [done|apply (par_orphans _ _ Hp)].
    + destruct Hins as (d' & H1).
      assert (e = ValueError "create_checkpoint: duplicate member path") as ->.
      { revert Ei. clear. generalize (@nil (string * CheckpointMember)). induction members as [|m ms IH]; intros l; simpl; [done|].
        destruct (dmem _ _); [by intros [= <-]|apply IH]. }
      eapply (Hraise (ValueError _) (ValueError _)); [| |by right; split; [right; left|]|done|done].
      * eapply big_bind; [exact Hdup|]. eapply big_bind_raise. intros r0 <- Hi. by exists r0.
      * apply sql_guard. eapply sql_catch; [eapply (sql_transaction E _ d (Raise _))|].
        -- eapply big_bind; [apply sql_select|]. fold id. rewrite bool_decide_false by (by rewrite El; intros [? [=]]).
           eapply big_bind; [apply sql_on_db|exact H1].
        -- apply big_raise.
Qed.

Lemma par_checkpoint_set r d id cp : par r d → is_Some (dget (checkpoints r) id) →
  par (r <| checkpoints ::= λ m, dset m id cp |>) (d <| checkpoints_table ::= <[id := cp]> |>).
Proof.
  intros Hp [old Hold]. split; try apply Hp; simpl.
  - intros i. rewrite dget_dset, lookup_insert. case_decide; [done|apply (par_checkpoints _ _ Hp)].
  - intros i. rewrite dget_dset. case_decide; [done|apply (par_orphans _ _ Hp)].
Qed.

Lemma mem_checkpoint id r : mbig (require_checkpoint id) r
  (match dget (checkpoints r) id with Some cp => Ok cp | None => Raise (KeyError "checkpoint") end) r.
Proof.
  intros r0 <- Hi. exists r0. unfold require_checkpoint. change (checkpoints (core r0)) with (checkpoints r0).
  by destruct (dget (checkpoints r0) id).
Qed.

Lemma sim_update_checkpoint id f r d (m : RM unit) : par r d → conf_par E r →
  m = (cp ← require_checkpoint id; modify (λ r, r <| checkpoints ::= λ m, dset m id (f cp) |>)) →
  simulates (m ;; mret ObsUnit) (update_checkpoint id f ;; mret ObsUnit) r d.
Proof.
  intros Hp Hc ->. pose proof (mem_checkpoint id r) as Hm. pose proof (par_checkpoints _ _ Hp id) as Hid.
  destruct (dget (checkpoints r) id) as [cp|] eqn:El.
  - eapply (unit_sim _ _ r d tt (r <| checkpoints ::= λ m, dset m id (f cp) |>)); [| | |by destruct Hc].
    + eapply big_bind; [exact Hm|]. by apply (mem_modify _ (λ r, r <| checkpoints ::= λ m, dset m id (f cp) |>)).
    + apply sql_guard. eapply (sql_transaction E _ d (Ok tt)). eapply big_bind; [apply sql_select|]. rewrite <-Hid. apply sql_on_db.
    + by apply par_checkpoint_set; [|exists cp].
  - apply (raise_sim _ _ (λ _, ObsUnit) (λ _, ObsUnit) _ _ (KeyError "checkpoint") (KeyError "checkpoint")); [..|done|done|done].
    + by eapply big_bind_raise.
    + apply sql_guard. eapply (sql_transaction E _ d (Raise _)). eapply big_bind; [apply sql_select|]. rewrite <-Hid. apply big_raise.
Qed.

Lemma sim_refcount id delta r d : par r d → conf_par E r →
  simulates (mem_run (RRefcount id delta)) (sql_run scan (RRefcount id delta)) r d.
Proof.
  intros Hp Hc. pose proof (mem_checkpoint id r) as Hm. pose proof (par_checkpoints _ _ Hp id) as Hid.
  destruct (dget (checkpoints r) id) as [cp|] eqn:El; [destruct (decide (cp_pin_refcount cp + delta < 0)) as [Hn|Hn]|].
  - apply (raise_sim _ _ ObsInt ObsInt _ _ (ValueError "pin refcount would go negative") (ValueError "pin refcount would go negative")); [..|done|done|done].
    + eapply big_bind; [exact Hm|]. cbv zeta. rewrite decide_True by done. apply big_raise.
    + apply sql_guard. eapply (sql_transaction E _ d (Raise _)). eapply big_bind; [apply sql_select|]. rewrite <-Hid.
      cbv zeta. rewrite decide_True by done. apply big_raise.
  - set (n := cp_pin_refcount cp + delta). set (cp' := cp <| cp_pin_refcount := n |>).
    exists (Ok (ObsInt n)), (r <| checkpoints ::= λ m, dset m id cp' |>), (Ok (ObsInt n)), (d <| checkpoints_table ::= <[id := cp']> |>).
    split_and!; [..|done|by apply par_checkpoint_set; [|exists cp]|by destruct Hc].
    + eapply big_bind; [|apply big_ret]. eapply big_bind; [exact Hm|]. cbv zeta. rewrite decide_False by done.
      eapply big_bind; [|apply big_ret]. by apply (mem_modify _ (λ r, r <| checkpoints ::= λ m, dset m id cp' |>)).
    + eapply big_bind; [|apply big_ret]. apply sql_guard. eapply (sql_transaction E _ d (Ok _)). eapply big_bind; [apply sql_select|].
      rewrite <-Hid. cbv zeta. rewrite decide_False by done. eapply big_bind; [apply sql_on_db|apply big_ret].
  - apply (raise_sim _ _ ObsInt ObsInt _ _ (KeyError "checkpoint") (KeyError "checkpoint")); [..|done|done|done].
    + by eapply big_bind_raise.
    + apply sql_guard. eapply (sql_transaction E _ d (Raise _)). eapply big_bind; [apply sql_select|]. rewrite <-Hid. apply big_raise.
Qed.

Lemma sim_update_member id path f r d : par r d → conf_par E r →
  simulates (update_member id path f ;; mret ObsUnit) (update_member_row id path f ;; mret ObsUnit) r d.
Proof.
  intros Hp Hc. set (members := default [] (dget (checkpoint_members r) id)).
  assert (dget members path = members_table d !! (id, path)) as Hm.
  { rewrite <-(par_members _ _ Hp). subst members. by destruct (dget (checkpoint_members r) id). }
  destruct (dget members path) as [m|] eqn:El.
  - eapply (unit_sim _ _ r d tt (r <| checkpoint_members ::= λ d, dset d id (dset members path (f m)) |>)); [| | |by destruct Hc].
    + intros r0 <- Hi. unfold update_member. change (checkpoint_members r0) with (checkpoint_members (core r0)). fold members. rewrite El.
      eexists. split; [reflexivity|by split].
    + apply sql_guard. eapply (sql_transaction E _ d (Ok tt)). eapply big_bind; [apply sql_select|]. rewrite <-Hm. apply sql_on_db.
    + split; try apply Hp; simpl.
      * intros i p. rewrite dget_dset, lookup_insert. destruct (decide (id = i)) as [<-|Hi].
        -- simpl. rewrite dget_dset. destruct (decide (path = p)) as [<-|Hne]; [by rewrite decide_True by done|].
           rewrite decide_False by congruence. rewrite <-(par_members _ _ Hp). subst members. by destruct (dget (checkpoint_members r) id).
        -- rewrite decide_False by congruence. apply (par_members _ _ Hp).
      * intros i Hi. rewrite dget_dset. case_decide; [subst i|by apply (par_orphans _ _ Hp)].
        exfalso. subst members. by rewrite (par_orphans _ _ Hp id Hi) in El.
  - apply (raise_sim _ _ (λ _, ObsUnit) (λ _, ObsUnit) _ _ (KeyError "member") (KeyError "member")); [..|done|done|done].
    + intros r0 <- Hi. unfold update_member. change (checkpoint_members r0) with (checkpoint_members (core r0)). fold members. rewrite El. by exists r0.
    + apply sql_guard. eapply (sql_transaction E _ d (Raise _)). eapply big_bind; [apply sql_select|]. rewrite <-Hm. apply big_raise.
Qed.

(** ** Optimistic commit *)
Lemma elem_state_rows d a P p row : (p, row) ∈ state_rows scan d a P ↔ agent_states d !! (a, p) = Some row ∧ P p row = true.
Proof using scan_perm.
  unfold state_rows. rewrite (elem_scan scan scan_perm), list_elem_of_omap. split.
  - intros ([[b q] x] & Hin & H). apply elem_of_map_to_list in Hin. simpl in H. case_bool_decide; [|done]. simpl in H.
    destruct (P q x) eqn:EP; [|done]. simplify_eq. done.
  - intros [Hl HP]. exists ((a, p), row). split; [by apply elem_of_map_to_list|]. simpl. rewrite bool_decide_true by done. by rewrite HP.
Qed.

Lemma state_rows_nodup d a P : NoDup (state_rows scan d a P).*1.
Proof using scan_perm.
  unfold state_rows. rewrite scan_perm. pose proof (NoDup_fst_map_to_list (agent_states d)) as Hnd. revert Hnd.
  induction (map_to_list (agent_states d)) as [|[[b q] x] l IH]; simpl; [constructor|]. intros [Hin Hnd]%NoDup_cons. specialize (IH Hnd).
  case_bool_decide as Hb; simpl in *; [|done]. destruct (P q x); [|done]. subst b. simpl. constructor; [|done].
  intros ([q' x'] & -> & ([[b q''] y] & Hy & Hs)%list_elem_of_omap)%list_elem_of_fmap. simpl in *.
  case_bool_decide; [|done]. simpl in Hs. destruct (P q'' y); [|done]. simplify_eq. apply Hin. apply list_elem_of_fmap. by exists ((a, q'), x').
Qed.

Lemma arbitrate_par a ag rec row d expected : artifacts d !! a = Some row → rec_wf rec → art_par a rec row →
  (∀ p, slot_par rec p (agent_states d !! (a, p))) → sql_arbitrate scan d a ag (ar_version row) expected = cas_arbitrate rec ag expected.
Proof using scan_perm.
  intros Hr Hw Ha Hs. unfold sql_arbitrate, cas_arbitrate. change (art_version (artifact rec)) with (version rec).
  rewrite (ap_version _ _ _ Ha). repeat (case_decide; [done|]). pose proof (existsb_holder rec ag (rw_states _ Hw)) as Hh.
  set (P := λ (p : UUID) (row : StateRow), bool_decide (p ≠ ag) && m_or_e (sr_state row)).
  assert ((∃ q, q ≠ ag ∧ m_or_e (st rec q) = true) ↔ ∃ q x, (q, x) ∈ state_rows scan d a P) as Hiff.
  { setoid_rewrite elem_state_rows. unfold P. split.
    - intros (q & Hq & Hm). rewrite (sp_state _ _ _ (Hs q)) in Hm. destruct (agent_states d !! (a, q)) as [x|] eqn:Ex; [|done].
      exists q, x. by rewrite bool_decide_true.
    - intros (q & x & Hx & [Hq Hm]%andb_prop). apply bool_decide_eq_true in Hq. exists q. split; [done|].
      by rewrite (sp_state _ _ _ (Hs q)), Hx. }
  destruct (existsb _ _).
  - destruct (proj1 Hiff (proj1 Hh eq_refl)) as (q & x & Hin). by destruct (state_rows scan d a P); [apply not_elem_of_nil in Hin|].
  - destruct (state_rows scan d a P) as [|[q x] l]; [|by discriminate (proj2 Hh (proj2 Hiff (ex_intro _ q (ex_intro _ x (list_elem_of_here _ _)))))].
    rewrite (fence_par _ _ _ _ _ Ha (Hs ag)), Hr. unfold sql_get_read_generation. by destruct (_ ≫= sr_read_generation).
Qed.

(** The rows of the peers after the invalidation loop. *)
Definition inval_row (row : StateRow) : StateRow :=
  row <| sr_state := INVALID |> <| sr_granted_at_tick := if m_or_e (sr_state row) then None else sr_granted_at_tick row |>.
Definition inval (a : UUID) (d : Db) (pr : UUID * StateRow) : Db :=
  d <| agent_states ::= alter (λ r, r <| sr_state := INVALID |>
    <| sr_granted_at_tick := if m_or_e (sr_state pr.2) then None else sr_granted_at_tick pr.2 |>) (a, pr.1) |>.

Lemma inval_tables a peers d : NoDup peers.*1 → (∀ pr, pr ∈ peers → agent_states d !! (a, pr.1) = Some pr.2) →
  ∃ m, foldl (inval a) d peers = d <| agent_states := m |> ∧
    ∀ b q, m !! (b, q) = if decide (b = a ∧ q ∈ peers.*1) then inval_row <$> agent_states d !! (b, q) else agent_states d !! (b, q).
Proof.
  revert d. induction peers as [|[p row] peers IH]; intros d Hnd Hin; simpl.
  { exists (agent_states d). split; [by destruct d|]. intros b q. rewrite decide_False; [done|]. by intros [_ ?%not_elem_of_nil]. }
  apply NoDup_cons in Hnd as [Hp Hnd]. pose proof (Hin (p, row) (list_elem_of_here _ _)) as Hrow. simpl in Hrow.
  destruct (IH (inval a d (p, row)) Hnd) as (m & Hm & Hl).
  { intros pr Hpr. simpl. rewrite lookup_alter_ne; [apply Hin; by right|]. intros [= ->]. apply Hp, list_elem_of_fmap. by exists pr. }
  exists m. split; [exact Hm|]. intros b q. rewrite Hl. simpl. rewrite lookup_alter.
  destruct (decide ((a, p) = (b, q))) as [[= <- <-]|Hne].
  - rewrite decide_False by naive_solver. rewrite decide_True by (split; [done|by left]). by rewrite Hrow.
  - destruct (decide (b = a ∧ q ∈ peers.*1)) as [[-> Hq]|Hq]; [by rewrite decide_True by (split; [done|by right])|].
    rewrite decide_False; [done|]. intros [-> [->|?]%elem_of_cons]; naive_solver.
Qed.

(** The tables a win leaves. *)
Section win.
Context (a ag : UUID) (row : ArtRow) (h : string) (size : option Z) (c : option body) (d : Db).
Local Abbreviation next := (ar_version row + 1).
Definition won_art : ArtRow :=
  row <| ar_version := next |> <| ar_content_hash := h |> <| ar_size_tokens := size |> <| ar_last_writer_id := Some ag |>
      <| ar_updated_at := e_now E |>.
Definition won_peers : list (UUID * StateRow) :=
  state_rows scan d a (λ p row, bool_decide (p ≠ ag) && non_invalid (sr_state row)).
Definition won_committer : StateRow :=
  match agent_states d !! (a, ag) with
  | None => (blank_state SHARED) <| sr_last_observed_version := Some next |>
  | Some x => x <| sr_state := SHARED |> <| sr_granted_at_tick := sr_granted_at_tick x |> <| sr_last_observed_version := Some next |>
  end.
Definition won_states : Db :=
  (foldl (inval a) (d <| artifacts ::= <[a := won_art]> |>) won_peers) <| agent_states ::= <[(a, ag) := won_committer]> |>.
Definition won_db : Db := match c with Some c => kept_db won_states a next c | None => won_states end.

Lemma won_tables : ∃ m, won_states = d <| artifacts ::= <[a := won_art]> |> <| agent_states := m |> ∧
  m !! (a, ag) = Some won_committer ∧
  (∀ q, q ≠ ag → m !! (a, q) = (λ x, if non_invalid (sr_state x) then inval_row x else x) <$> agent_states d !! (a, q)) ∧
  (∀ b q, b ≠ a → m !! (b, q) = agent_states d !! (b, q)).
Proof using scan_perm.
  unfold won_states. set (d1 := d <| artifacts ::= <[a := won_art]> |>).
  destruct (inval_tables a won_peers d1) as (m & -> & Hm); [apply state_rows_nodup| |].
  { intros [p x] [Hx _]%elem_state_rows. done. }
  exists (<[(a, ag) := won_committer]> m). split_and!; [done|by rewrite lookup_insert_eq| |].
  - intros q Hq. rewrite lookup_insert_ne by congruence. rewrite Hm. change (agent_states d1) with (agent_states d).
    destruct (agent_states d !! (a, q)) as [x|] eqn:Ex; [|by case_decide]. simpl.
    assert (q ∈ won_peers.*1 ↔ non_invalid (sr_state x) = true) as Hiff.
    { rewrite list_elem_of_fmap. split.
      - intros ([q' y] & -> & [Hy [_ Hn]%andb_prop]%elem_state_rows). simpl in *. congruence.
      - intros Hn. exists (q, x). split; [done|]. apply elem_state_rows. by rewrite bool_decide_true. }
    destruct (non_invalid (sr_state x)); [by rewrite decide_True by naive_solver|by rewrite decide_False by naive_solver].
  - intros b q Hb. rewrite lookup_insert_ne by congruence. rewrite Hm, decide_False by naive_solver. done.
Qed.

Lemma won_touches : touches a d won_db.
Proof using scan_perm.
  assert (touches a d won_states) as Ht.
  { destruct won_tables as (m & -> & _ & _ & Hm). split; try done. intros b Hb. simpl. by rewrite lookup_insert_ne. }
  unfold won_db. destruct c; [etrans; [exact Ht|apply kept_touches]|done].
Qed.

Lemma sql_cas_apply_run tick tr : artifacts d !! a = Some row →
  sbig (sql_cas_apply scan a ag (ar_version row) h size c tick tr) d (Ok won_peers.*1) won_db.
Proof using scan_perm.
  intros Ha. set (d1 := d <| artifacts ::= <[a := won_art]> |>).
  eapply big_bind; [apply sql_time|]. eapply (big_bind _ _ _ _ _ tt d1).
  { eapply big_ext; [apply sql_on_db|done|]. unfold d1, set_field. simpl. by rewrite (alter_known _ _ _ _ Ha). }
  eapply big_bind; [apply sql_select|]. change (state_rows scan d1 a _) with won_peers.
  eapply (big_bind _ _ _ _ _ tt (foldl (inval a) d1 won_peers)).
  { apply (big_for_each _ _ _ (inval a)). intros [p x] d' _. eapply big_bind; [apply sql_on_db|apply sql_emit]. }
  destruct won_tables as (m & Hw & Hag & _ & _). destruct (inval_tables a won_peers d1) as (m' & Hf & Hl); [apply state_rows_nodup| |].
  { intros [p x] [Hx _]%elem_state_rows. done. }
  assert (agent_states (foldl (inval a) d1 won_peers) !! (a, ag) = agent_states d !! (a, ag)) as Hcom.
  { rewrite Hf. simpl. rewrite Hl, decide_False; [done|]. intros [_ Hin]. apply list_elem_of_fmap in Hin as ([q x] & Hq & Hin).
    apply elem_state_rows in Hin as [_ [Hq'%bool_decide_eq_true _]%andb_prop]. by simpl in Hq. }
  assert (artifacts (foldl (inval a) d1 won_peers) !! a = Some won_art) as Hart by (rewrite Hf; simpl; by rewrite lookup_insert_eq).
  eapply big_bind; [apply sql_select|]. rewrite Hcom. eapply (big_bind _ _ _ _ _ tt won_states).
  { unfold won_states, won_committer. fold d1. destruct (agent_states d !! (a, ag)) as [x|] eqn:Ex.
    - eapply big_ext; [apply sql_on_db|done|]. unfold set_field. simpl. by rewrite (alter_known _ _ x).
    - apply sql_insert_state; [by exists won_art|done]. }
  eapply big_bind; [apply sql_emit|]. eapply big_bind; [apply sql_gets_retain|].
  eapply (big_bind _ _ _ _ _ tt won_db); [|apply big_ret]. unfold won_db, kept_db.
  destruct c as [c'|]; [|apply big_ret]. destruct (e_retain E); [|apply big_ret]. apply sql_capture.
  rewrite Hw. simpl. rewrite lookup_insert_eq. by eexists.
Qed.
End win.

Lemma peers_par a ag rec d : rec_wf rec → (∀ p, slot_par rec p (agent_states d !! (a, p))) →
  (cas_peers rec ag).*1 ≡ₚ (won_peers a ag d).*1.
Proof using scan_perm.
  intros Hw Hs. apply NoDup_Permutation; [by apply dict_wf_filter, Hw|apply state_rows_nodup|]. intros p.
  rewrite elem_cas_peers_keys by apply Hw. rewrite list_elem_of_fmap. rewrite (sp_state _ _ _ (Hs p)). split.
  - intros [Hp Hn]. destruct (agent_states d !! (a, p)) as [x|] eqn:Ex; [|done]. exists (p, x). split; [done|].
    apply elem_state_rows. by rewrite bool_decide_true.
  - intros ([q x] & -> & [Hx [Hq%bool_decide_eq_true Hn]%andb_prop]%elem_state_rows). simpl. by rewrite Hx.
Qed.

Lemma mem_cas_content rec v c r : mbig (cas_content rec v c) r (Ok (body_stored r (e_now E) rec v c)) r.
Proof.
  unfold cas_content, body_stored. destruct c as [c|]; [|apply big_ret]. eapply big_bind; [apply mem_retain|].
  destruct (retain_versions r); [apply mem_capture|apply big_ret].
Qed.

Lemma mem_cas_win a ag e h sz c tick tr rec r : get_record r a = Some rec → cas_arbitrate rec ag e = None →
  mbig (commit_cas a ag e h sz c tick tr) r (Ok (CasWin (cas_updated a rec h sz) (cas_peers rec ag).*1))
    (r <| records ::= λ m, dset m a (cas_final r (e_now E) a ag rec h sz c) |>).
Proof.
  intros Hr Harb. eapply big_bind; [by apply mem_require|]. cbv zeta. rewrite Harb. eapply big_bind; [apply mem_emit_all|].
  eapply big_bind; [apply mem_cas_content|]. eapply big_bind; [apply mem_put|apply big_ret].
Qed.

(** The entries of agents a win may add: the committer's. *)
Lemma cas_final_keys r a ag rec h sz c p : is_Some (dget (state_by_agent (cas_final r (e_now E) a ag rec h sz c)) p) →
  p = ag ∨ is_Some (dget (state_by_agent rec) p).
Proof.
  unfold cas_final, cas_apply. simpl. rewrite dget_dset. case_decide as Hp; [by left|]. right. revert H.
  assert (∀ l rec0, (∀ kv, kv ∈ l → is_Some (dget (state_by_agent rec0) kv.1)) →
    is_Some (dget (state_by_agent (foldl invalidate_peer rec0 l)) p) → is_Some (dget (state_by_agent rec0) p)) as Hf.
  { induction l as [|[q x] l IH]; intros rec0 Hl; simpl; [done|]. intros Hs. pose proof (Hl (q, x) (list_elem_of_here _ _)) as Hq.
    assert (∀ k, is_Some (dget (state_by_agent (invalidate_peer rec0 (q, x))) k) ↔ is_Some (dget (state_by_agent rec0) k)) as Hk.
    { intros k. unfold invalidate_peer. destruct (m_or_e (q, x).2); simpl; rewrite dget_dset; case_decide; subst; simpl in *; naive_solver. }
    apply Hk, IH; [|done]. intros kv Hin. apply Hk, Hl. by right. }
  intros Hs. apply Hf in Hs.
  - simpl in Hs. by rewrite stored_states in Hs.
  - intros [q x] Hin. simpl. rewrite stored_states. unfold cas_peers in Hin. apply list_elem_of_filter in Hin as [_ Hin].
    destruct (dkey_Some (state_by_agent rec) q) as [y Hy]; [apply list_elem_of_fmap; by exists (q, x)|by exists y].
Qed.

(** The size a win stores: the caller's, or the persisted one. *)
Definition won_size (row : ArtRow) (sz : option Z) : option Z := match sz with Some n => Some n | None => ar_size_tokens row end.

Lemma won_slots (a ag : UUID) (rec : ArtifactRecord) (row : ArtRow) (d : Db) (m : gmap (UUID * UUID) StateRow) : art_par a rec row → (∀ p, slot_par rec p (agent_states d !! (a, p))) →
  (∀ q, q ≠ ag → m_or_e (st rec q) = false) →
  m !! (a, ag) = Some (won_committer a ag row d) →
  (∀ q, q ≠ ag → m !! (a, q) = (λ x, if non_invalid (sr_state x) then inval_row x else x) <$> agent_states d !! (a, q)) →
  ∀ rec' dd, (∀ p, default INVALID (dget dd p) = if decide (p = ag) then SHARED else INVALID) →
  (∀ p, is_Some (dget dd p) → p = ag ∨ is_Some (dget (state_by_agent rec) p)) →
  transient_by_agent rec' = transient_by_agent rec → transient_tick_by_agent rec' = transient_tick_by_agent rec →
  granted_at_tick_by_agent rec' = granted_at_tick_by_agent rec → last_reclamation_by_agent rec' = last_reclamation_by_agent rec →
  read_generation_by_agent rec' = read_generation_by_agent rec →
  state_by_agent rec' = dd → last_observed_version_by_agent rec' = dset (last_observed_version_by_agent rec) ag (version rec + 1) →
  ∀ p, slot_par rec' p (m !! (a, p)).
Proof.
  intros Ha Hs Hother Hag Hq rec' dd Hst Hkeys E1 E2 E3 E4 E5 E6 E7 p.
  pose proof (Hst p) as Hp. pose proof (Hkeys p) as Hk. pose proof (sp_state _ _ _ (Hs p)) as Hps. destruct (Hs p). unfold st in *.
  destruct (decide (p = ag)) as [->|Hne].
  - rewrite Hag. unfold won_committer. rewrite <-(ap_version _ _ _ Ha). destruct (agent_states d !! (a, ag)) as [x|]; simpl in *;
      split; unfold st; rewrite ?E1, ?E2, ?E3, ?E4, ?E5, ?E6, ?E7, ?dget_dset_eq; simpl; try done; congruence.
  - rewrite Hq by done. specialize (Hother p Hne). rewrite Hps in Hother.
    destruct (agent_states d !! (a, p)) as [x|]; simpl in *.
    + unfold inval_row. destruct (non_invalid (sr_state x)) eqn:En; rewrite ?Hother;
        split; unfold st; rewrite ?E1, ?E2, ?E3, ?E4, ?E5, ?E6, ?E7, ?dget_dset_ne by done; simpl; try done; try congruence.
      rewrite Hp. by destruct (sr_state x).
    + split; unfold st; rewrite ?E1, ?E2, ?E3, ?E4, ?E5, ?E6, ?E7, ?dget_dset_ne by done; simpl; try done; naive_solver.
Qed.

Lemma won_par a ag rec row h sz c r d : par r d → conf_par E r → get_record r a = Some rec → artifacts d !! a = Some row →
  (∀ q, q ≠ ag → m_or_e (st rec q) = false) →
  record_par a (Some (cas_final r (e_now E) a ag rec h sz c)) (won_db a ag row h (won_size row sz) c d).
Proof using scan_perm.
  intros Hp Hc Hr Ha Hother. destruct (par_some _ _ _ _ Hp Hr) as (row' & Ha' & Hw & Hart & Hs & Hv). assert (row' = row) as -> by congruence.
  destruct (cas_final_shape r (e_now E) a ag rec h sz c (rw_states _ Hw) Hother) as (dd & Heq & Hwf & Hst).
  pose proof (cas_final_keys r a ag rec h sz c) as Hkeys.
  assert (state_by_agent (cas_final r (e_now E) a ag rec h sz c) = dd) as Hdd by by rewrite Heq. rewrite Hdd in Hkeys.
  set (u := cas_updated a rec h sz) in *.
  set (rec1 := rec <| content := default (content rec) c |> <| artifact := u |> <| last_writer := Some ag |> <| state_by_agent := dd |>
                 <| last_observed_version_by_agent := dset (last_observed_version_by_agent rec) ag (version rec + 1) |>).
  destruct (won_tables a ag row h (won_size row sz) d) as (m & Hm & Hag & Hq & _).
  assert (record_par a (Some rec1) (won_states a ag row h (won_size row sz) d)) as H1.
  { rewrite Hm. unfold record_par. simpl. rewrite lookup_insert_eq. split_and!; [by split; [|apply Hw]| | |apply Hv].
    - split; simpl; try done; try apply Hart.
      + change (version rec + 1 = ar_version row + 1). by rewrite (ap_version _ _ _ Hart).
      + unfold won_size. destruct sz; [done|]. apply Hart.
    - by apply (won_slots a ag rec row d m) with (dd := dd). }
  assert (version rec + 1 = ar_version row + 1) as Hver by (by rewrite (ap_version _ _ _ Hart)).
  unfold won_db. destruct c as [c|].
  - assert (cas_final r (e_now E) a ag rec h sz (Some c) = kept_rec (live_pins_for_artifact r a) rec1 (ar_version row + 1) c) as ->.
    { rewrite Heq, <-Hver. unfold body_stored, kept_rec, rec1. rewrite (cf_retain _ _ Hc), (cf_policy _ _ Hc). simpl.
      rewrite (ap_id _ _ _ Hart). unfold captured_record. by destruct (e_retain E), (e_policy E). }
    apply kept_par; [done|]. rewrite (live_pins_par scan scan_perm r d a Hp). by rewrite Hm.
  - rewrite Heq. exact H1.
Qed.

Definition noted (k : UUID * UUID * ConflictReason) (r : Registry) : Registry :=
  r <| conflict_counts ::= λ m, dset m k (default 0 (dget m k) + 1) |>.
Definition counted_db (k : UUID * UUID * ConflictReason) (d : Db) : Db :=
  d <| conflict_counters ::= λ m, <[k := default 0 (m !! k) + 1]> m |>.
Lemma par_noted k r d : par r d → conf_par E r → par (noted k r) (counted_db k d) ∧ conf_par E (noted k r).
Proof.
  intros Hp Hc. split; [|by destruct Hc]. split; try apply Hp. intros k'. simpl. rewrite dget_dset, lookup_insert, !(par_conflicts _ _ Hp).
  by case_decide.
Qed.
Lemma mem_note a ag reason r : mbig (note_conflict a ag reason) r (Ok tt) (noted (a, ag, reason) r).
Proof. by apply (mem_modify _ (noted (a, ag, reason))). Qed.
Lemma sql_count a ag reason d : sbig (count_conflict_in_txn a ag reason) d (Ok tt) (counted_db (a, ag, reason) d).
Proof. apply sql_on_db. Qed.

Lemma sim_cas a ag e h sz c tick tr r d : par r d → conf_par E r →
  simulates (mem_run (RCas a ag e h sz c tick tr)) (sql_run scan (RCas a ag e h sz c tick tr)) r d.
Proof using scan_perm.
  intros Hp Hc. destruct (get_record r a) as [rec|] eqn:Hr.
  2: { destruct (par_none _ _ _ Hp Hr) as (Ha & _).
       apply (raise_sim _ _ ObsCas ObsCas _ _ (KeyError "artifact") (KeyError "artifact")); [..|done|done|done].
       - eapply big_bind_raise. by apply mem_require_none.
       - apply sql_guard, big_bind_raise. eapply (sql_logged E _ d (Raise _)). by eapply big_bind_raise, sql_select_artifact_none. }
  destruct (par_some _ _ _ _ Hp Hr) as (row & Ha & Hw & Hart & Hs & Hv).
  pose proof (arbitrate_par a ag rec row d e Ha Hw Hart Hs) as Harb.
  pose proof (cas_arbitrate_spec rec ag e (rw_states _ Hw)) as Hspec.
  destruct (cas_arbitrate rec ag e) as [[v|reason]|] eqn:Ev.
  - exists (Ok (ObsCas (CasCorruption v))), r, (Ok (ObsCas (CasCorruption v))), d. split_and!; [..|done|done|done].
    + eapply big_bind; [|apply big_ret]. eapply big_bind; [by apply mem_require|]. rewrite Ev. apply big_ret.
    + eapply big_bind; [|apply big_ret]. apply sql_guard. eapply (big_bind _ _ _ _ _ (CasCorruption v) d); [|apply big_ret]. eapply (sql_logged E _ d (Ok _)).
      eapply big_bind; [by apply sql_select_artifact|]. eapply big_bind; [apply sql_select|]. rewrite Harb. apply big_ret.
  - destruct (par_noted (a, ag, reason) r d Hp Hc) as [Hp1 Hc1].
    exists (Ok (ObsCas (CasConflict (mkConflict reason (version rec))))), (noted (a, ag, reason) r),
      (Ok (ObsCas (CasConflict (mkConflict reason (ar_version row))))), (counted_db (a, ag, reason) d).
    split_and!; [..|simpl; by rewrite (ap_version _ _ _ Hart)|done|done].
    + eapply big_bind; [|apply big_ret]. eapply big_bind; [by apply mem_require|]. rewrite Ev. eapply big_bind; [apply mem_note|apply big_ret].
    + eapply big_bind; [|apply big_ret]. apply sql_guard. eapply (big_bind _ _ _ _ _ (CasConflict (mkConflict reason (ar_version row)))); [|apply big_ret].
      eapply (sql_logged E _ d (Ok _)). eapply big_bind; [by apply sql_select_artifact|]. eapply big_bind; [apply sql_select|]. rewrite Harb.
      eapply big_bind; [apply sql_count|apply big_ret].
  - destruct Hspec as (_ & Hother & _). pose proof (won_par a ag rec row h sz c r d Hp Hc Hr Ha Hother) as Hwon.
    pose proof (won_touches a ag row h (won_size row sz) c d) as Ht.
    set (d' := won_db a ag row h (won_size row sz) c d) in *.
    assert (∃ row', artifacts d' !! a = Some row' ∧ ar_name row' = ar_name row) as (row' & Hrow' & Hname).
    { unfold record_par in Hwon. destruct (artifacts d' !! a) as [row'|]; [|done]. exists row'. split; [done|].
      destruct Hwon as (_ & Hart' & _). rewrite <-(ap_name _ _ _ Hart').
      rewrite cas_final_artifact by (done || apply Hw). simpl. apply (ap_name _ _ _ Hart). }
    eexists _, _, _, d'. split_and!.
    + eapply big_bind; [by apply (mem_cas_win a ag e h sz c tick tr rec)|apply big_ret].
    + eapply big_bind; [|apply big_ret]. apply sql_guard. eapply big_bind.
      { eapply (sql_logged E _ d (Ok _)). eapply big_bind; [by apply sql_select_artifact|]. eapply big_bind; [apply sql_select|].
        rewrite Harb. eapply big_bind; [by apply sql_cas_apply_run|apply big_ret]. }
      eapply big_bind; [apply (sql_select_artifact E a row' d'); exact Hrow'|apply big_ret].
    + simpl. split; [|by apply peers_par]. unfold cas_updated, set_field. simpl. rewrite Hname, (ap_name _ _ _ Hart), (ap_size _ _ _ Hart).
      change (art_version (artifact rec)) with (version rec). by rewrite (ap_version _ _ _ Hart).
    + by apply (par_touch a r d).
    + by destruct Hc.
Qed.

(** ** Multi-artifact publish *)
Lemma check_all_par ag ws conf r d : par r d → sql_check_all scan d ag ws conf = check_all r ag ws conf.
Proof using scan_perm.
  intros Hp. revert conf. induction ws as [|[a e] ws IH]; intros conf; simpl; [done|]. destruct (get_record r a) as [rec|] eqn:Hr.
  - destruct (par_some _ _ _ _ Hp Hr) as (row & Ha & Hw & Hart & Hs & Hv). rewrite Ha.
    rewrite (arbitrate_par a ag rec row d _ Ha Hw Hart Hs). change (art_version (artifact rec)) with (version rec).
    rewrite (ap_version _ _ _ Hart). destruct (cas_arbitrate _ _ _) as [[v|reason]|]; [done|apply IH|apply IH].
  - destruct (par_none _ _ _ Hp Hr) as (-> & _). done.
Qed.

Definition lists_alike : relation (list (UUID * list UUID)) := Forall2 (λ p q, p.1 = q.1 ∧ p.2 ≡ₚ q.2).
Lemma dset_alike l l' a x y : lists_alike l l' → x ≡ₚ y → lists_alike (dset l a x) (dset l' a y).
Proof.
  intros Hl Hxy. induction Hl as [|[k v] [k' v'] l l' [Hk Hv] Hl IH]; simpl in *; [by repeat constructor|]. subst k'.
  case_decide; constructor; by try split.
Qed.

Lemma current_by_lookup d ws a : dict_wf ws → a ∈ ws.*1 → dget (current_by d ws) a = (λ row, (ar_version row, ar_size_tokens row)) <$> artifacts d !! a.
Proof.
  unfold current_by. intros Hwf Hin.
  assert (∀ l acc, dict_wf l → dget (foldl (λ acc (w : UUID * CommitAllEntry), match artifacts d !! w.1 with
    | Some art => dset acc w.1 (ar_version art, ar_size_tokens art) | None => acc end) acc l) a =
    if decide (a ∈ l.*1 ∧ is_Some (artifacts d !! a)) then (λ row, (ar_version row, ar_size_tokens row)) <$> artifacts d !! a else dget acc a) as H.
  { induction l as [|[b e] l IH]; intros acc Hl; cbn [foldl].
    { rewrite decide_False; [done|]. by intros [?%not_elem_of_nil _]. }
    apply dict_wf_cons in Hl as [Hb Hl]. rewrite IH by done. cbn [fst]. change (((b, e) :: l).*1) with (b :: l.*1). destruct (decide (a = b)) as [->|Hne].
    - rewrite decide_False by naive_solver. destruct (artifacts d !! b) as [row|] eqn:Eb; simpl.
      + rewrite dget_dset_eq, decide_True; [done|]. split; [by left|by exists row].
      + rewrite decide_False; [done|]. by intros [_ [? ?]].
    - assert ((a ∈ b :: l.*1) ↔ a ∈ l.*1) as Hiff by (rewrite elem_of_cons; naive_solver).
      destruct (decide (a ∈ l.*1 ∧ is_Some (artifacts d !! a))); [by rewrite decide_True by naive_solver|].
      rewrite decide_False by naive_solver. destruct (artifacts d !! b); [by rewrite dget_dset_ne|done]. }
  rewrite H by done. destruct (artifacts d !! a) as [row|] eqn:Ea; [by rewrite decide_True by (split; [done|by exists row])|].
  rewrite decide_False; [done|]. by intros [_ [? ?]].
Qed.

(** What the CHECK loop established for the members still to be applied. *)
Definition ready (ag : UUID) (cur : list (UUID * (Z * option Z))) (ws : list (UUID * CommitAllEntry)) (r : Registry) (d : Db) : Prop :=
  ∀ a, a ∈ ws.*1 → ∃ rec row, get_record r a = Some rec ∧ artifacts d !! a = Some row ∧
    (∀ q, q ≠ ag → m_or_e (st rec q) = false) ∧ dget cur a = Some (ar_version row, ar_size_tokens row).

Definition acc_alike (acc acc' : MultiCommitResult) : Prop :=
  mcr_versions acc = mcr_versions acc' ∧ lists_alike (mcr_invalidated acc) (mcr_invalidated acc').

Lemma sim_member ag cur tick tr a e ws acc acc' r d : par r d → conf_par E r → dict_wf ((a, e) :: ws) →
  ready ag cur ((a, e) :: ws) r d → acc_alike acc acc' → ∃ acc1 acc1' r1 d1,
  mbig (apply_member ag acc (a, e)) r (Ok acc1) r1 ∧ sbig (sql_apply_member scan ag cur tick tr acc' (a, e)) d (Ok acc1') d1 ∧
  par r1 d1 ∧ conf_par E r1 ∧ ready ag cur ws r1 d1 ∧ acc_alike acc1 acc1'.
Proof using scan_perm.
  intros Hp Hc [Hna Hwf]%dict_wf_cons Hready [Hv Hi]. destruct (Hready a (list_elem_of_here _ _)) as (rec & row & Hr & Ha & Hother & Hcur).
  destruct (par_some _ _ _ _ Hp Hr) as (row' & Ha' & Hw & Hart & Hs & _). assert (row' = row) as -> by congruence.
  set (h := cae_content_hash e). set (sz := cae_size_tokens e). set (c := cae_content e).
  pose proof (won_par a ag rec row h sz c r d Hp Hc Hr Ha Hother) as Hwon. pose proof (won_touches a ag row h (won_size row sz) c d) as Ht.
  set (peers := cas_peers rec ag). pose proof (peers_par a ag rec d Hw Hs) as Hpeers.
  eexists _, _, (r <| records ::= λ m, dset m a (cas_final r (e_now E) a ag rec h sz c) |>), (won_db a ag row h (won_size row sz) c d).
  split_and!.
  - eapply big_bind; [by apply mem_require|]. eapply big_bind; [apply mem_cas_content|]. eapply big_bind; [apply mem_put|apply big_ret].
  - unfold sql_apply_member. rewrite Hcur. simpl. eapply big_bind; [by apply sql_cas_apply_run|apply big_ret].
  - by apply (par_touch a r d).
  - by destruct Hc.
  - intros b Hb. assert (b ≠ a) as Hne by (intros ->; done). destruct (Hready b (list_elem_of_further _ _ _ Hb)) as (recb & rowb & H1 & H2 & H3 & H4).
    exists recb, rowb. split_and!; [|by rewrite (to_artifacts _ _ _ Ht)|done|done]. unfold get_record in *. simpl. by rewrite dget_dset_ne.
  - split; simpl.
    + rewrite Hv. change (art_version (artifact rec)) with (version rec). by rewrite (ap_version _ _ _ Hart).
    + fold peers in Hpeers |- *. destruct (decide (peers = [])) as [Hnil|Hne].
      * rewrite Hnil in Hpeers. apply Permutation_nil in Hpeers. by rewrite decide_True.
      * rewrite decide_False; [by apply dset_alike|]. intros Hnil. rewrite Hnil in Hpeers. symmetry in Hpeers. apply Permutation_nil in Hpeers.
        by destruct peers.
Qed.

Lemma sim_members ag cur tick tr ws acc acc' r d : par r d → conf_par E r → dict_wf ws → ready ag cur ws r d → acc_alike acc acc' →
  ∃ res res' r' d', mbig (foldm (apply_member ag) ws acc) r (Ok res) r' ∧
    sbig (foldm (sql_apply_member scan ag cur tick tr) ws acc') d (Ok res') d' ∧ par r' d' ∧ conf_par E r' ∧ acc_alike res res'.
Proof using scan_perm.
  revert acc acc' r d. induction ws as [|[a e] ws IH]; intros acc acc' r d Hp Hc Hwf Hready Hacc.
  { exists acc, acc', r, d. split_and!; [apply big_ret|apply big_ret|done|done|done]. }
  destruct (sim_member ag cur tick tr a e ws acc acc' r d Hp Hc Hwf Hready Hacc) as (acc1 & acc1' & r1 & d1 & H1 & H2 & H3 & H4 & H5 & H6).
  apply dict_wf_cons in Hwf as [_ Hwf]. destruct (IH acc1 acc1' r1 d1 H3 H4 Hwf H5 H6) as (res & res' & r' & d' & G1 & G2 & G3 & G4 & G5).
  exists res, res', r', d'. split_and!; [by eapply big_bind|by eapply big_bind|done|done|done].
Qed.

Lemma sim_notes ag (l : list (UUID * ConflictDetail)) r d : par r d → conf_par E r → ∃ r' d',
  mbig (for_each l (λ kv, note_conflict kv.1 ag (cd_reason kv.2))) r (Ok tt) r' ∧
  sbig (for_each l (λ kv, count_conflict_in_txn kv.1 ag (cd_reason kv.2))) d (Ok tt) d' ∧ par r' d' ∧ conf_par E r'.
Proof.
  revert r d. induction l as [|[a dt] l IH]; intros r d Hp Hc; simpl; [exists r, d; split_and!; [apply big_ret|apply big_ret|done|done]|].
  destruct (par_noted (a, ag, cd_reason dt) r d Hp Hc) as [Hp1 Hc1]. destruct (IH _ _ Hp1 Hc1) as (r' & d' & H1 & H2 & H3 & H4).
  exists r', d'. split_and!; [eapply big_bind; [apply mem_note|exact H1]|eapply big_bind; [apply sql_count|exact H2]|done|done].
Qed.

Lemma mem_of_outcome {A} (o : outcome exn A) r : mbig (of_outcome o) r o r.
Proof. intros r0 <- Hi. by exists r0. Qed.
Lemma sql_of_outcome {A} (o : outcome exn A) d : sbig (of_outcome o) d o d.
Proof. intros s <- Hi. by exists s. Qed.

Lemma check_all_core r ag ws conf : check_all (core r) ag ws conf = check_all r ag ws conf.
Proof.
  revert conf. induction ws as [|[a e] ws IH]; intros conf; simpl; [done|]. change (get_record (core r) a) with (get_record r a).
  destruct (get_record r a); [|done]. destruct (cas_arbitrate _ _ _) as [[?|?]|]; auto.
Qed.

Lemma mem_gets_id {A} (k : Registry → RM A) r o r' : (∀ r0, core r0 = r → mbig (k r0) r o r') → mbig (r ← gets id; k r) r o r'.
Proof. intros Hk r0 Hr0 Hi. by apply (Hk r0 Hr0 r0). Qed.

Lemma sim_all ag ws tick tr r d : par r d → conf_par E r → op_ok (RAll ag ws tick tr) r →
  simulates (mem_run (RAll ag ws tick tr)) (sql_run scan (RAll ag ws tick tr)) r d.
Proof using scan_perm.
  intros Hp Hc Hwf. pose proof (check_all_par ag ws [] r d Hp) as Hcheck.
  assert (∀ r0, core r0 = r → check_all r0 ag ws [] = check_all r ag ws []) as Hcore by (intros r0 <-; by rewrite check_all_core).
  unfold mem_run, sql_run, commit_all, sql_commit_all. destruct ws as [|w ws].
  { eapply (raise_sim _ _ ObsMulti ObsMulti _ _ (ValueError _) (ValueError _)); [apply big_raise|apply big_raise|done|done|done]. }
  set (writes := w :: ws) in *. destruct (check_all r ag writes []) as [[v|[|cf cfs]]|e] eqn:Ecase.
  - exists (Ok (ObsMulti (MultiCorruption v))), r, (Ok (ObsMulti (MultiCorruption v))), d. split_and!; [..|done|done|done].
    + eapply big_bind; [|apply big_ret]. apply mem_gets_id. intros r0 Hr0. rewrite Hcore by done. eapply big_bind; [apply mem_of_outcome|apply big_ret].
    + eapply big_bind; [|apply big_ret]. apply sql_guard. eapply (sql_logged E _ d (Ok _)). eapply big_bind; [apply sql_select|].
      unfold id. rewrite Hcheck. eapply big_bind; [apply sql_of_outcome|apply big_ret].
  - pose proof (check_all_admitted r ag writes Hwf Ecase) as Hadm.
    assert (ready ag (current_by d writes) writes r d) as Hready.
    { intros a Ha. destruct (dkey_Some writes a Ha) as [e He]. destruct (Hadm a e (dget_Some_elem _ _ _ He)) as (rec & Hr & Harb).
      destruct (par_some _ _ _ _ Hp Hr) as (row & Hrow & Hw & _). exists rec, row. split_and!; [done|done| |].
      - pose proof (cas_arbitrate_spec rec ag (cae_expected_version e) (rw_states _ Hw)) as Hspec. rewrite Harb in Hspec. apply Hspec.
      - rewrite current_by_lookup by done. by rewrite Hrow. }
    destruct (sim_members ag (current_by d writes) tick tr writes (mkMultiCommitResult [] []) (mkMultiCommitResult [] []) r d Hp Hc Hwf Hready)
      as (res & res' & r' & d' & H1 & H2 & H3 & H4 & H5); [by split; [|constructor]|].
    exists (Ok (ObsMulti (MultiWin res))), r', (Ok (ObsMulti (MultiWin res'))), d'. split_and!; [..|apply H5|done|done].
    + eapply big_bind; [|apply big_ret]. apply mem_gets_id. intros r0 Hr0. rewrite Hcore by done. eapply big_bind; [apply mem_of_outcome|].
      eapply big_bind; [apply mem_emit_all|]. eapply big_bind; [exact H1|apply big_ret].
    + eapply big_bind; [|apply big_ret]. apply sql_guard. eapply (sql_logged E _ d (Ok _)). eapply big_bind; [apply sql_select|].
      unfold id. rewrite Hcheck. eapply big_bind; [apply sql_of_outcome|]. eapply big_bind; [exact H2|apply big_ret].
  - destruct (sim_notes ag (cf :: cfs) r d Hp Hc) as (r' & d' & H1 & H2 & H3 & H4).
    exists (Ok (ObsMulti (MultiConflict (cf :: cfs)))), r', (Ok (ObsMulti (MultiConflict (cf :: cfs)))), d'. split_and!; [..|done|done|done].
    + eapply big_bind; [|apply big_ret]. apply mem_gets_id. intros r0 Hr0. rewrite Hcore by done. eapply big_bind; [apply mem_of_outcome|].
      eapply big_bind; [exact H1|apply big_ret].
    + eapply big_bind; [|apply big_ret]. apply sql_guard. eapply (sql_logged E _ d (Ok _)). eapply big_bind; [apply sql_select|].
      unfold id. rewrite Hcheck. eapply big_bind; [apply sql_of_outcome|]. eapply big_bind; [exact H2|apply big_ret].
  - apply (raise_sim _ _ ObsMulti ObsMulti _ _ e e); [..|by destruct e|done|done].
    + apply mem_gets_id. intros r0 Hr0. rewrite Hcore by done. apply big_bind_raise, mem_of_outcome.
    + apply sql_guard. eapply (sql_logged E _ d (Raise _)). eapply big_bind; [apply sql_select|].
      unfold id. rewrite Hcheck. apply big_bind_raise, sql_of_outcome.
Qed.

(** Every common method. *)
Lemma sim_op o r d : par r d → conf_par E r → op_ok o r → simulates (mem_run o) (sql_run scan o) r d.
Proof using scan_perm.
  intros Hp Hc Hok. destruct o.
  - by apply sim_register.
  - by apply sim_set_content.
  - by apply sim_remove.
  - by apply sim_set_state.
  - by apply sim_set_transient.
  - by apply sim_clear_transient.
  - by apply sim_heartbeat.
  - by apply sim_reclamation.
  - by apply sim_cas.
  - by apply sim_all.
  - by apply sim_capture.
  - by apply sim_release.
  - by apply sim_checkpoint.
  - by eapply sim_update_checkpoint.
  - by apply sim_update_member.
  - by apply sim_update_member.
  - by apply sim_refcount.
Qed.
End simulation.

(** ** Sequences of calls

    Each call happens at one reading of the clock. *)
Definition mem_step (now : Z) (o : rop) (r : Registry) : outcome exn robs * Registry := mem_run o (r <| wall_clock := λ _, now |>).
Definition sql_step (scan : ∀ A, list A → list A) (now : Z) (o : rop) (s : Handle) : outcome exn robs * Handle :=
  sql_run scan o (s <| h_clock := λ _, now |>).

Fixpoint mem_trace (ops : list (Z * rop)) (r : Registry) : list (outcome exn robs) * Registry :=
  match ops with
  | [] => ([], r)
  | (now, o) :: ops' => let '(x, r1) := mem_step now o r in let '(l, r2) := mem_trace ops' r1 in (x :: l, r2)
  end.
Fixpoint sql_trace (scan : ∀ A, list A → list A) (ops : list (Z * rop)) (s : Handle) : list (outcome exn robs) * Handle :=
  match ops with
  | [] => ([], s)
  | (now, o) :: ops' => let '(x, s1) := sql_step scan now o s in let '(l, s2) := sql_trace scan ops' s1 in (x :: l, s2)
  end.
Fixpoint ops_ok (ops : list (Z * rop)) (r : Registry) : Prop :=
  match ops with [] => True | (now, o) :: ops' => op_ok o r ∧ ops_ok ops' (mem_step now o r).2 end.

(** The two stores are in step: related tables, the same settings, nothing in the way
    of a call. *)
Record linked (r : Registry) (s : Handle) : Prop := {
  li_par : par r (db s);
  li_quiet : log_quiet r;
  li_retain : h_retain s = retain_versions r;
  li_policy : h_policy s = retention_policy r;
  li_epoch : h_epoch s = coordinator_epoch r;
  li_writable : h_read_only s = false;
  li_idle : ∀ n, h_busy s n = false;
  li_sql_quiet : ∀ sink, h_state_log s = Some sink → ∀ calls e, sink calls e = false;
}.

Section agree.
Context (scan : ∀ A, list A → list A) (scan_perm : ∀ A l, scan A l ≡ₚ l).

Lemma par_same_core r r' d : core r = core r' → par r d → par r' d.
Proof.
  intros Hc Hp. assert (par (core r) d) as Hp' by (destruct Hp; by split). rewrite Hc in Hp'. clear Hp Hc. destruct Hp'. by split.
Qed.

Lemma linked_step now o r s : linked r s → op_ok o r →
  alike (mem_step now o r).1 (sql_step scan now o s).1 ∧ linked (mem_step now o r).2 (sql_step scan now o s).2.
Proof using scan_perm.
  intros [] Hok. set (E := mkEnv now (retain_versions r) (retention_policy r) (coordinator_epoch r)).
  set (r0 := r <| wall_clock := λ _, now |>). set (s0 := s <| h_clock := λ _, now |>).
  destruct (sim_op E scan scan_perm o (core r0) (db s)) as (x & r' & y & d' & Hm & Hs & Hxy & Hpar & Hconf).
  { destruct li_par0. by split. }
  { by split. }
  { by destruct o. }
  destruct (Hm r0 eq_refl) as (r1 & E1 & Hr1 & [Hq1 Ht1]); [by split|].
  destruct (Hs s0 eq_refl) as (s1 & E2 & Hs1 & [Hn1 Hn2 Hn3 Hn4 Hn5 Hn6 Hn7]); [by split|].
  unfold mem_step, sql_step. fold r0 s0. rewrite E1, E2. cbn [fst snd]. split; [done|].
  assert (retain_versions r1 = retain_versions r' ∧ retention_policy r1 = retention_policy r' ∧ coordinator_epoch r1 = coordinator_epoch r')
    as (G1 & G2 & G3) by (by rewrite <-Hr1). destruct Hconf as [C1 C2 C3].
  split; [|done|congruence|congruence|congruence|done|done|done].
  apply (par_same_core r'); [by rewrite <-Hr1|]. by rewrite Hs1.
Qed.

Lemma linked_trace ops r s : linked r s → ops_ok ops r →
  Forall2 alike (mem_trace ops r).1 (sql_trace scan ops s).1 ∧ linked (mem_trace ops r).2 (sql_trace scan ops s).2.
Proof using scan_perm.
  revert r s. induction ops as [|[now o] ops IH]; intros r s Hl Hok; simpl; [by split; [constructor|]|].
  destruct Hok as [Ho Hok]. destruct (linked_step now o r s Hl Ho) as [H1 H2].
  destruct (mem_step now o r) as [x r1]. destruct (sql_step scan now o s) as [y s1]. simpl in *. destruct (IH r1 s1 H2 Hok) as [H3 H4].
  destruct (mem_trace ops r1), (sql_trace scan ops s1). simpl in *. split; [by constructor|done].
Qed.
End agree.
