(* ===== verification/SqliteReads.v ===== *)
(** What the reads of the two registries return after the same calls, read by read, and
    the equivalence of the registries ([registries_agree]); and where they part, when a
    call is outside the conditions of the equivalence. *)
From Stdlib Require Import OrderedTypeEx.
From stdpp Require Import sorting.
From S2P Require Import Prelude Core Retention Registry RegistryFacts CommitFacts SessionFacts.
From S2P Require Import SqliteRegistry SqliteFacts SqliteParity SqliteSimulation.

Open Scope Z_scope.
Open Scope string_scope.

(** ** The tables of the in-memory registry are dictionaries *)
Record tables_wf (r : Registry) : Prop := {
  tw_meta : dict_wf (session_meta r);
  tw_checkpoints : dict_wf (checkpoints r);
  tw_ids : ∀ id cp, dget (checkpoints r) id = Some cp → cp_checkpoint_id cp = id;
  tw_members : ∀ id ms, dget (checkpoint_members r) id = Some ms → dict_wf ms;
}.
Definition keeps_wf (r r' : Registry) : Prop := tables_wf r → tables_wf r'.
#[local] Instance keeps_wf_preorder : PreOrder keeps_wf.
Proof. split; unfold keeps_wf; [by intros r|by eauto]. Qed.















(** [WHERE first = ?]: the rows of a table with a key of two columns. *)
Section keyed.
Context {K V : Type} `{Countable K} (m : gmap (string * K) V) (x : string).



End keyed.

(** ** Sorted answers *)
Lemma leb_trans (s1 s2 s3 : string) : String.leb s1 s2 = true → String.leb s2 s3 = true → String.leb s1 s3 = true.
Proof.
  assert (∀ a b, String.leb a b = true ↔ a = b ∨ String_as_OT.lt a b) as Hle.
  { intros a b. unfold String.leb. destruct (String.compare a b) eqn:E.
    - apply String.compare_eq_iff in E. naive_solver.
    - apply String_as_OT.cmp_lt in E. naive_solver.
    - split; [done|]. intros [->|Hlt%String_as_OT.cmp_lt].
      + pose proof (String.leb_total b b) as Hb. unfold String.leb in Hb. rewrite E in Hb. naive_solver.
      + unfold String_as_OT.cmp in Hlt. congruence. }
  rewrite !Hle. intros [->|H1] [->|H2]; [by left|by right..|]. right. by eapply String_as_OT.lt_trans.
Qed.

#[local] Instance path_total : Total path_le.
Proof. intros [p ?] [q ?]. apply String.leb_total. Qed.
#[local] Instance path_trans : Transitive path_le.
Proof. intros x y z. apply leb_trans. Qed.
#[local] Instance checkpoint_total : Total checkpoint_le.
Proof.
  intros x y. unfold checkpoint_le. destruct (Z.lt_trichotomy (cp_created_at x) (cp_created_at y)) as [?|[?|?]]; [by left; left| |by right; left].
  destruct (String.leb_total (cp_checkpoint_id x) (cp_checkpoint_id y)); [left|right]; right; by split.
Qed.
#[local] Instance checkpoint_trans : Transitive checkpoint_le.
Proof.
  intros x y z [H1|[H1 L1]] [H2|[H2 L2]]; [left; lia..|]. right. split; [lia|]. by eapply leb_trans.
Qed.




Section agree.
Context (scan : ∀ A, list A → list A) (scan_perm : ∀ A l, scan A l ≡ₚ l).












Lemma par_missing r d a : par r d → get_record r a = None → artifacts d !! a = None.
Proof. intros Hp Hr. by destruct (par_none _ _ _ Hp Hr). Qed.



(** ** Where they part *)

(** Running one call on the durable side. *)
Lemma sql_step_big now o r s x d' : linked r s →
  big db (in_env (mkEnv now (retain_versions r) (retention_policy r) (coordinator_epoch r))) (sql_run scan o) (db s) x d' →
  (sql_step scan now o s).1 = x ∧ db (sql_step scan now o s).2 = d'.
Proof.
  intros [] Hb. set (s0 := s <| h_clock := λ _, now |>). destruct (Hb s0 eq_refl) as (s1 & E & Hd & _); [by split|].
  unfold sql_step. fold s0. by rewrite E.
Qed.

Lemma update_missing a f r : get_record r a = None → ((update_record a f ;; mret ObsUnit) r).1 = Raise (KeyError "artifact").
Proof. intros Hr. unfold update_record, mbind, proc_bind, require_record. by rewrite Hr. Qed.

Lemma name_taken_true d a name b row : artifacts d !! b = Some row → b ≠ a → ar_name row = name → name_taken d a name = true.
Proof.
  intros Hb Hne Hn. apply existsb_exists. exists (b, row). split; [by apply list_elem_of_In, elem_of_map_to_list|].
  simpl. by rewrite !bool_decide_true.
Qed.

(** C38 (where the registries part): on two registries in step, calls outside the
    conditions of [registries_agree] are answered differently.  Registering a new
    artifact under a name another one has is accepted in memory and refused by the
    UNIQUE column of the database; registering an id again replaces the record in
    memory and is refused by the primary key.  A transient for an unknown artifact is a
    [KeyError] in memory and an [IntegrityError] of the foreign key; clearing one is a
    [KeyError] in memory and succeeds in the database.  A reclamation of an agent
    without a row is remembered in memory and lost in the database. *)
Theorem registries_part now r s : linked r s →
  (∀ art c, is_Some (get_record r (art_id art)) ∨
     (∃ b rec, get_record r b = Some rec ∧ b ≠ art_id art ∧ art_name (artifact rec) = art_name art) →
     (mem_step now (RRegister art c) r).1 = Ok ObsUnit ∧
     (sql_step scan now (RRegister art c) s).1 = Raise (IntegrityError "UNIQUE constraint failed")) ∧
  (∀ a ag t tick, get_record r a = None →
     (mem_step now (RSetTransient a ag t tick) r).1 = Raise (KeyError "artifact") ∧
     (sql_step scan now (RSetTransient a ag t tick) s).1 = Raise (IntegrityError "FOREIGN KEY constraint failed")) ∧
  (∀ a ag, get_record r a = None →
     (mem_step now (RClearTransient a ag) r).1 = Raise (KeyError "artifact") ∧
     (sql_step scan now (RClearTransient a ag) s).1 = Ok ObsUnit) ∧
  (∀ ag a trigger tick, is_Some (get_record r a) → agent_states (db s) !! (a, ag) = None →
     get_last_reclamation (mem_step now (RReclamation ag a trigger tick) r).2 ag a = Some (trigger, tick) ∧
     sql_get_last_reclamation (db (sql_step scan now (RReclamation ag a trigger tick) s).2) ag a = None).
Proof.
  intros Hl. pose proof (li_par _ _ Hl) as Hp. split_and!.
  - intros art c Htaken. split.
    { unfold mem_step. simpl. unfold register_artifact, capture_version, mbind, proc_bind. unfold gets. simpl.
      by destruct (retain_versions r). }
    apply (sql_step_big now (RRegister art c) r s (Raise _) (db s) Hl). apply big_bind_raise, sql_guard.
    eapply (sql_transaction _ _ (db s) (Raise _)). eapply big_bind; [apply sql_time|]. eapply big_bind_raise.
    intros s0 Hs0 He. exists s0. split; [|done]. unfold insert_artifact. rewrite Hs0. cbn [ar_name].
    destruct Htaken as [[rec Hr]|(b & rec & Hr & Hne & Hname)].
    + destruct (par_some _ _ _ _ Hp Hr) as (row & Ha & _). by rewrite bool_decide_true by (by exists row).
    + destruct (par_some _ _ _ _ Hp Hr) as (row & Ha & _ & Hart & _). rewrite (name_taken_true (db s) (art_id art) _ b row), orb_true_r; [done..|].
      by rewrite <-(ap_name _ _ _ Hart).
  - intros a ag t tick Hr. pose proof (par_missing _ _ _ Hp Hr) as Ha. split.
    { unfold mem_step. simpl. by apply update_missing. }
    apply (sql_step_big now (RSetTransient a ag t tick) r s (Raise _) (db s) Hl). apply big_bind_raise, sql_guard.
    eapply (sql_transaction _ _ (db s) (Raise _)). eapply big_bind_raise. intros s0 Hs0 He. exists s0. split; [|done].
    unfold references. by rewrite Hs0, bool_decide_false by (by rewrite Ha; intros [? [=]]).
  - intros a ag Hr. split.
    { unfold mem_step. simpl. by apply update_missing. }
    eapply (sql_step_big now (RClearTransient a ag) r s (Ok _) _ Hl). eapply big_bind; [|apply big_ret].
    apply sql_guard. eapply (sql_transaction _ _ (db s) (Ok tt)). apply sql_on_db.
  - intros ag a trigger tick [rec Hr] Hrow. split.
    + unfold mem_step. simpl. unfold record_last_reclamation, update_record, mbind, proc_bind, require_record, get_record.
      simpl. unfold get_record in Hr. rewrite Hr. unfold get_last_reclamation, get_record. simpl. rewrite dget_dset_eq. simpl. apply dget_dset_eq.
    + assert (big db (in_env (mkEnv now (retain_versions r) (retention_policy r) (coordinator_epoch r)))
        (sql_run scan (RReclamation ag a trigger tick)) (db s) (Ok ObsUnit) ((db s) <| agent_states ::= alter
          (λ row, row <| sr_last_reclaim_trigger := Some trigger |> <| sr_last_reclaim_tick := Some tick |>) (a, ag) |>)) as Hb.
      { eapply big_bind; [|apply big_ret]. apply sql_guard. eapply (sql_transaction _ _ (db s) (Ok tt)). apply sql_on_db. }
      destruct (sql_step_big _ _ _ _ _ _ Hl Hb) as [_ ->]. unfold sql_get_last_reclamation. simpl.
      by rewrite lookup_alter_eq, Hrow.
Qed.

(** [name_free] decided on the records. *)
Lemma name_free_check r a name : Forall (λ kv, kv.1 = a ∨ art_name (artifact kv.2) ≠ name) (records r) → name_free r a name.
Proof. intros H b rec Hb Hne. apply dget_Some_elem in Hb. rewrite Forall_forall in H. by destruct (H _ Hb). Qed.

(** A fresh pair of stores with the same settings. *)
Record fresh_stores (retain : bool) (policy : option RetentionPolicy) (r : Registry) (s : Handle) : Prop := {
  fs_mem : ∃ sink names inst mi epoch clock, registry_init sink names inst retain policy mi epoch clock = Ok r ∧
    (∀ f, sink = Some f → ∀ calls e, f calls e = false);
  fs_sql : ∃ sink names inst i0 clock, sql_open (empty_db i0 (coordinator_epoch r)) 0 sink names inst retain policy clock (λ _, false) = Ok s ∧
    (∀ f, sink = Some f → ∀ calls e, f calls e = false);
}.



Lemma fresh_linked retain policy r s : fresh_stores retain policy r s → linked r s.
Proof.
  intros [(sink & names & inst & mi & epoch & clock & Hr & Hq) (sink' & names' & inst' & i0 & clock' & Hs & Hq')].
  unfold registry_init in Hr. assert (r = mkRegistry [] [] sink [] names (default mi inst) epoch 0 retain policy [] [] [] [] [] clock 0) as ->
    by (destruct sink, inst; by simplify_eq). unfold sql_open in Hs. cbn in Hs.
  destruct sink', inst'; inversion Hs; subst s; (split; try done; [split; try done; apply NoDup_nil_2]).
Qed.

End agree.

Definition demo_ops : list (Z * rop) :=
  [ (10, RRegister (mkArtifact 1 "plan.md" 1 (Some "h1") None [2%N]) (BStr "one"));
    (11, RRegister (mkArtifact 2 "notes.md" 1 None (Some 3) []) (BStr "two"));
    (12, RSetState 1 7 SHARED "fetch" 1 None);
    (13, RSetState 1 8 SHARED "fetch" 2 None);
    (14, RCapture [1%N; 2%N] "token" (Some 7%N) (Some 3));
    (15, RCas 1 7 1 "h2" None (Some (BStr "uno")) 4 "commit_cas");
    (16, RCas 1 8 1 "h3" None (Some (BStr "eins")) 5 "commit_cas");
    (17, RAll 7 [(1%N, mkCommitAllEntry 2 "h4" None (Some (BStr "one!"))); (2%N, mkCommitAllEntry 1 "h5" None None)] 6 "commit_all");
    (18, RRelease "token");
    (19, RSetState 9 7 SHARED "fetch" 7 None) ].

Lemma demo_stores : ∃ r s, fresh_stores true None r s ∧ ops_ok demo_ops r ∧
  r = mkRegistry [] [] None [] None "instance" "epoch" 0 true None [] [] [] [] [] (λ _, 0) 0.
Proof.
  destruct (registry_init None None None true None "instance" "epoch" (λ _, 0)) as [r|e] eqn:Er; [|by vm_compute in Er].
  cbn in Er; injection Er as Er.
  destruct (sql_open (empty_db "instance" "epoch") 0 None None None true None (λ _, 0) (λ _, false)) as [s|e] eqn:Es; [|by vm_compute in Es].
  exists r, s. subst r. split; [|split; [|done]].
  - split; [exists None, None, None, "instance", "epoch", (λ _, 0); by split|].
    exists None, None, None, "instance", (λ _, 0). by split.
  - cbn [ops_ok demo_ops]. repeat split; try (by vm_compute).
    + by apply name_free_check, (bool_decide_unpack _); vm_compute.
    + by apply (bool_decide_unpack _); vm_compute.
Qed.


(** After the same calls, a third artifact under the name of the first. *)
Lemma registries_part_witness : ∃ r s, fresh_stores true None r s ∧
  (mem_step 20 (RRegister (mkArtifact 3 "plan.md" 1 None None []) (BStr "three")) (mem_trace demo_ops r).2).1 = Ok ObsUnit ∧
  (sql_step (λ A l, l) 20 (RRegister (mkArtifact 3 "plan.md" 1 None None []) (BStr "three"))
     (sql_trace (λ A l, l) demo_ops s).2).1 = Raise (IntegrityError "UNIQUE constraint failed").
Proof.
  destruct demo_stores as (r & s & Hf & Hok & Hr). exists r, s. split; [exact Hf|].
  destruct (linked_trace (λ A l, l) (λ A l, reflexivity l) demo_ops r s (fresh_linked _ _ _ _ Hf) Hok) as [_ Hl].
  apply (registries_part (λ A l, l) 20 _ _ Hl). right. subst r.
  assert (∃ rec, get_record (mem_trace demo_ops (mkRegistry [] [] None [] None "instance" "epoch" 0 true None [] [] [] [] [] (λ _, 0) 0)).2 1 =
    Some rec ∧ art_name (artifact rec) = "plan.md") as (rec & Hrec & Hn) by (eexists; split; vm_compute; reflexivity).
  exists 1%N, rec. split; [exact Hrec|]. split; [done|exact Hn].
Defined.
