(* ===== verification/SqliteDurability.v ===== *)
(** What survives in the durable registry: a call that raises leaves no trace, closing
    and reopening the file continues where the last handle stopped, and the
    statements only this registry has (preemption notices, names by prefix). *)
From Stdlib Require Import Ascii.
From S2P Require Import Prelude Core Retention Registry SqliteRegistry SqliteFacts SqliteParity SqliteSimulation SqliteReads.

Open Scope Z_scope.
Open Scope string_scope.

(** ** Settings

    No method touches the identity and retention rows of [registry_meta] or the
    settings of the handle. *)
Record settled (s s' : Handle) : Prop := {
  se_instance : meta_instance_id (db s') = meta_instance_id (db s);
  se_epoch : meta_epoch (db s') = meta_epoch (db s);
  se_retention : meta_retention (db s') = meta_retention (db s);
  se_handle : (h_instance_id s', h_epoch s', h_retain s', h_policy s', h_read_only s') =
              (h_instance_id s, h_epoch s, h_retain s, h_policy s, h_read_only s);
}.
#[local] Instance settled_preorder : PreOrder settled.
Proof. split; [by intros s|]. intros s1 s2 s3 [] []. split; congruence. Qed.

Section settled.
Context (scan : ∀ A, list A → list A).

Lemma settled_transaction {A} (m : HM A) : respects settled m → respects settled (transaction m).
Proof.
  intros Hm s. unfold transaction. destruct (acquire s) as [[[]|e] s0] eqn:E0; injection E0 as _ <-; [|done].
  assert (respects settled (x ← m; acquire ;; mret x)) as Hb by (respects_tac ltac:(first [exact Hm | by intros ?])).
  specialize (Hb (s <| h_locks ::= S |>)). destruct ((x ← m; acquire ;; mret x) _) as [[x|e] s1]; simpl in *.
  - etrans; [|apply Hb]. done.
  - destruct Hb. by split.
Qed.
Lemma settled_logged {A} (m : HM A) : respects settled m → respects settled (logged_transaction m).
Proof.
  intros Hm s. unfold logged_transaction. pose proof (settled_transaction m Hm (s <| seq_incremented := 0 |>)) as Ht.
  by destruct (transaction m _) as [[x|e] s'], Ht.
Qed.
Lemma settled_emit a ag from to tr tick v h : respects settled (sql_emit_state_log a ag from to tr tick v h).
Proof. intros s. unfold sql_emit_state_log. destruct (h_state_log s) as [sink|]; [|done]. by destruct (sink _ _). Qed.

Ltac settled_leaf :=
  first [ apply settled_emit
        | apply settled_logged
        | apply settled_transaction
        | by intros ?
        | intros ?; first [unfold references; by case_bool_decide | unfold insert_artifact; by destruct (_ || _)
                          | unfold rename_free; by destruct (_ && _) | unfold select_artifact; by destruct (_ !! _)
                          | unfold guard_writable; by destruct (h_read_only _)] ].
Ltac settled_tac := respects_tac settled_leaf.

Lemma settled_run o : respects settled (sql_run scan o).
Proof.
  destruct o; unfold sql_run, sql_register_artifact, sql_set_artifact_and_content, sql_remove_artifact, sql_set_agent_state,
    sql_set_agent_transient, sql_clear_agent_transient, sql_record_heartbeat, sql_record_last_reclamation, sql_commit_cas, sql_commit_all,
    sql_capture_version_vector, sql_release_session, sql_create_checkpoint, sql_set_checkpoint_restore_status,
    sql_set_checkpoint_member_restore, sql_set_checkpoint_member_pin, sql_adjust_checkpoint_pin_refcount, sql_fence_check,
    sql_apply_member, sql_cas_apply, invalidate_peer_row, capture_version_sql, insert_member, insert_state.
  all: settled_tac.
Qed.

Lemma settled_trace ops s : settled s (sql_trace scan ops s).2.
Proof.
  revert s. induction ops as [|[now o] ops IH]; intros s; simpl; [done|]. unfold sql_step.
  pose proof (settled_run o (s <| h_clock := λ _, now |>)) as H1. destruct (sql_run scan o _) as [x s1]. specialize (IH s1).
  destruct (sql_trace scan ops s1) as [l s2]. simpl in *. etrans; [|exact IH]. by destruct H1.
Qed.

Lemma in_step_trace ops s : h_seq s = stored_seq s → h_seq (sql_trace scan ops s).2 = stored_seq (sql_trace scan ops s).2.
Proof.
  revert s. induction ops as [|[now o] ops IH]; intros s Hs; simpl; [done|]. unfold sql_step.
  destruct (atomic_run scan o (s <| h_clock := λ _, now |>)) as [H1 _]. specialize (H1 Hs). destruct (sql_run scan o _) as [x s1].
  specialize (IH s1 H1). by destruct (sql_trace scan ops s1).
Qed.
End settled.

(** ** Closing and reopening *)
Section reopen.
Context (scan : ∀ A, list A → list A).

Lemma open_inv d n sink names inst retain policy clock busy s : sql_open d n sink names inst retain policy clock busy = Ok s →
  (sink = None ∨ is_Some inst) ∧ h_seq s = n ∧ stored_seq s = n ∧ h_instance_id s = rehydrate_meta inst d ∧ h_epoch s = meta_epoch d ∧
  db s = d <| meta_retention := Some (desired_retention retain policy) |>.
Proof.
  intros H. assert (sink = None ∨ is_Some inst) as Hi by (destruct sink, inst; [right; by eexists|discriminate H|by left..]).
  split; [done|]. unfold sql_open in H. assert (∀ (X : outcome exn Handle), match sink, inst with
    | Some _, None => Raise (ValueError "instance_id must be provided when state_log is set") | _, _ => X end = X) as Hm
    by (intros; destruct sink, inst; [done| |done..]; by destruct Hi as [?|[]]).
  rewrite Hm in H. clear Hm Hi. unfold persist_retention_policy, mbind, proc_bind, gets, select in H. cbn in H.
  destruct (decide _) as [Hd|Hd].
  - injection H as <-. simpl. split_and!; try done. destruct d; simpl in *. by rewrite Hd.
  - unfold transaction, acquire, on_db in H. cbn in H. destruct (busy 0%nat); [discriminate H|].
    unfold mbind, proc_bind in H. cbn in H. destruct (busy 1%nat); [discriminate H|]. injection H as <-. by cbn.
Qed.

Lemma open_unchanged d n sink names inst retain policy clock busy : (sink = None ∨ is_Some inst) →
  meta_retention d = Some (desired_retention retain policy) →
  sql_open d n sink names inst retain policy clock busy =
    Ok (mkHandle d n n 0 sink [] names (rehydrate_meta inst d) (meta_epoch d) retain policy false clock 0 busy 0).
Proof.
  intros Hi Hd. unfold sql_open, persist_retention_policy, mbind, proc_bind, gets, select. cbn. rewrite decide_True by done.
  destruct sink, inst; [done| |done..]. by destruct Hi as [?|[]].
Qed.

(** C33 (durability): a registry file closed after any calls and opened again with the
    same settings goes on from where it was: the same tables, hence the same answers,
    the same identity and epoch, and the next sequence number.  The calls may fail in
    any way, and opening again takes no lock. *)
Theorem reopen_continues d n sink names inst retain policy clock busy s ops clock' busy' :
  sql_open d n sink names inst retain policy clock busy = Ok s →
  let closed := (sql_trace scan ops s).2 in
  ∃ s', sql_open (db closed) (stored_seq closed) sink names inst retain policy clock' busy' = Ok s' ∧
    db s' = db closed ∧ h_seq s' = h_seq closed ∧ h_instance_id s' = h_instance_id closed ∧ h_epoch s' = h_epoch closed ∧ h_locks s' = 0%nat.
Proof.
  intros Ho closed. apply open_inv in Ho as (Hi & Hn & Hst & Hid & Hep & Hdb). destruct (settled_trace scan ops s) as [H1 H2 H3 H4].
  pose proof (in_step_trace scan ops s ltac:(congruence)) as Hseq. subst closed. injection H4 as He1 He2 _ _ _.
  eexists. rewrite open_unchanged; [|done|by rewrite H3, Hdb]. split; [done|]. simpl. split_and!; [done|done| | |done].
  - rewrite He1, Hid. unfold rehydrate_meta. rewrite H1, Hdb. by destruct inst.
  - by rewrite He2, Hep, H2, Hdb.
Qed.
End reopen.

Module Demo.
Definition raising : list (LogEntry * bool) → LogEntry → bool := λ calls _, (2 <=? length calls)%nat.
Definition opened (sink : option (list (LogEntry * bool) → LogEntry → bool)) (busy : nat → bool) : outcome exn Handle :=
  sql_open (empty_db "instance" "epoch") 0 sink None (Some "instance") true None (λ _, 0) busy.
Definition store : outcome exn Handle :=
  match opened (Some raising) (λ _, false) with
  | Ok s => Ok (sql_trace (λ A l, l) [(10, RRegister (mkArtifact 1 "plan.md" 1 (Some "h1") None []) (BStr "one"));
                                      (11, RSetState 1 7 SHARED "fetch" 1 None); (12, RSetState 1 8 SHARED "fetch" 2 None)] s).2
  | Raise e => Raise e
  end.
End Demo.

Lemma reopen_continues_witness :
  ∃ s, Demo.opened (Some Demo.raising) (λ n, (n =? 9)%nat) = Ok s ∧
  let closed := (sql_trace (λ A l, l) demo_ops s).2 in
  h_seq closed = 1 ∧
  ∃ s', sql_open (db closed) (stored_seq closed) (Some Demo.raising) None (Some "instance") true None (λ _, 0) (λ _, true) = Ok s' ∧
    db s' = db closed ∧ h_seq s' = h_seq closed ∧ h_instance_id s' = h_instance_id closed ∧ h_epoch s' = h_epoch closed ∧ h_locks s' = 0%nat.
Proof.
  destruct (Demo.opened (Some Demo.raising) (λ n, (n =? 9)%nat)) as [s|e] eqn:Es; [|by vm_compute in Es].
  exists s. split; [done|]. split; [injection Es as <-; by vm_compute|].
  apply (reopen_continues (λ A l, l) (empty_db "instance" "epoch") 0 (Some Demo.raising) None (Some "instance") true None (λ _, 0)
    (λ n, (n =? 9)%nat) s demo_ops (λ _, 0) (λ _, true) Es).
Defined.

(** C5 (failure atomicity): a call of one of the 17 state-changing methods the durable
    registry shares with the in-memory one that raises, for
    whatever reason (bad input, a violated constraint, a busy database at BEGIN or at
    COMMIT, a log that refuses an entry halfway), leaves every table and both copies of
    the sequence number as they were. *)
Theorem failed_call_changes_nothing scan o s e s' : sql_run scan o s = (Raise e, s') →
  db s' = db s ∧ h_seq s' = h_seq s ∧ stored_seq s' = stored_seq s.
Proof. intros H. destruct (atomic_run scan o s) as [_ Ha]. rewrite H in Ha. by apply (Ha e). Qed.

(** Two entries are logged before the third is refused. *)
Lemma failed_call_changes_nothing_witness :
  ∃ s s', Demo.store = Ok s ∧
    sql_run (λ A l, l) (RCas 1 7 1 "h2" None (Some (BStr "uno")) 4 "commit_cas") s = (Raise CallbackError, s') ∧ h_seq s = 2 ∧
    db s' = db s ∧ h_seq s' = h_seq s ∧ stored_seq s' = stored_seq s.
Proof.
  assert (match Demo.store with
          | Ok s => (sql_run (λ A l, l) (RCas 1 7 1 "h2" None (Some (BStr "uno")) 4 "commit_cas") s).1 = Raise CallbackError ∧ h_seq s = 2
          | Raise _ => False
          end) as H by (vm_compute; split; reflexivity).
  destruct Demo.store as [s|e]; [|destruct H]. destruct H as [Hr Hs].
  destruct (sql_run _ _ s) as [x s'] eqn:Er in Hr. simpl in Hr. subst x.
  exists s, s'. split; [reflexivity|]. split; [exact Er|]. split; [exact Hs|].
  apply (failed_call_changes_nothing _ _ _ _ _ Er).
Defined.

(** ** Artifacts under a directory *)

(** [p] is a prefix of [t] up to the case of ASCII letters. *)
Fixpoint prefix_ci (p t : string) : bool :=
  match p, t with
  | "", _ => true
  | String c p', String x t' => bool_decide (ascii_lower c = ascii_lower x) && prefix_ci p' t'
  | _, "" => false
  end.

Lemma escape_char_cons c x s : escape_char c (String x s) = (if bool_decide (x = c) then String "\"%char (String x "") else String x "") ++ escape_char c s.
Proof. simpl. by case_bool_decide. Qed.
Lemma escape_char_app c s t : escape_char c (s ++ t) = escape_char c s ++ escape_char c t.
Proof. induction s as [|x s IH]; simpl; [done|]. case_bool_decide; simpl; by rewrite IH. Qed.
Lemma escape_like_cons c p : escape_like (String c p) =
  (if bool_decide (c ∈ ["\"; "%"; "_"]%char) then String "\"%char (String c "") else String c "") ++ escape_like p.
Proof.
  unfold escape_like. rewrite escape_char_cons, !escape_char_app. f_equal.
  destruct (decide (c ∈ ["\"; "%"; "_"]%char)) as [Hc|Hc].
  - rewrite (bool_decide_true (c ∈ _)) by done. set_unfold in Hc. by destruct_or! Hc; subst c.
  - rewrite (bool_decide_false (c ∈ _)) by done. set_unfold in Hc. repeat (simpl; rewrite bool_decide_false by naive_solver). done.
Qed.

Lemma like_any t : like "%" t = true.
Proof. induction t as [|x t IH]; [done|]. simpl in *. by rewrite IH. Qed.

(** The escaped pattern matches the literal prefix, whatever characters it holds. *)
Lemma like_escaped p t : like (escape_like p ++ "%") t = prefix_ci p t.
Proof.
  revert t. induction p as [|c p IH]; intros t; [apply like_any|]. rewrite escape_like_cons. case_bool_decide as Hc.
  - destruct t as [|x t]; simpl; [done|]. by rewrite <-IH.
  - set_unfold in Hc. cbn [String.append]. destruct t as [|x t]; simpl; rewrite !bool_decide_false by naive_solver; [done|]. by rewrite <-IH.
Qed.

Section prefix.
Context (scan : ∀ A, list A → list A) (scan_perm : ∀ A l, scan A l ≡ₚ l).

(** Names under a directory: the query returns, each once, exactly the names of the
    artifacts that are the directory itself or lie under it, whatever characters the
    directory's name holds; the comparison of the part under it ignores the case of
    ASCII letters. *)
Theorem names_under_prefix_spec d prefix n : prefix ∉ [""; "."; "./"] →
  let dir := rstrip_slash prefix in
  NoDup (artifact_names_under_prefix scan d prefix) ∧
  (n ∈ artifact_names_under_prefix scan d prefix ↔
   (∃ a row, artifacts d !! a = Some row ∧ ar_name row = n) ∧ (n = dir ∨ prefix_ci (dir ++ "/") n = true)).
Proof using scan_perm.
  intros Hp dir. unfold artifact_names_under_prefix. rewrite bool_decide_false by done. rewrite scan_perm. split; [apply NoDup_elements|].
  assert (n ∈ map (λ kr : UUID * ArtRow, ar_name kr.2) (map_to_list (artifacts d)) ↔ ∃ a row, artifacts d !! a = Some row ∧ ar_name row = n) as Hn.
  { rewrite list_elem_of_fmap. split.
    - intros ([a row] & -> & H%elem_of_map_to_list). by exists a, row.
    - intros (a & row & H & <-). exists (a, row). split; [done|]. by apply elem_of_map_to_list. }
  rewrite elem_of_elements, elem_of_union, !elem_of_list_to_set, !list_elem_of_filter, like_escaped, Hn. subst dir. naive_solver.
Qed.
End prefix.

Lemma names_under_prefix_spec_witness :
  let d := (empty_db "i" "e") <| artifacts := {[1%N := mkArtRow "a_b/c" 1 0 "" None None 0; 2%N := mkArtRow "axb/c" 1 0 "" None None 0]} |> in
  NoDup (artifact_names_under_prefix (λ A l, l) d "a_b/") ∧
  ("axb/c" ∈ artifact_names_under_prefix (λ A l, l) d "a_b/" ↔
   (∃ a row, artifacts d !! a = Some row ∧ ar_name row = "axb/c") ∧ ("axb/c" = "a_b" ∨ prefix_ci ("a_b" ++ "/") "axb/c" = true)) ∧
  prefix_ci ("a_b" ++ "/") "axb/c" = false.
Proof.
  intros d. assert ("a_b/" ∉ [""; "."; "./"]) as Hp by (apply (bool_decide_unpack _); vm_compute; exact I).
  destruct (names_under_prefix_spec (λ A l, l) (λ A l, reflexivity l) d "a_b/" "axb/c" Hp) as [H1 H2].
  split; [exact H1|]. split; [exact H2|reflexivity].
Defined.
