(* ===== verification/Migration.v ===== *)
(** Schema creation and migration of the durable registry:
    [_initialize_schema], [_apply_v2_schema], the [_migrate_vN_to_vM] chain,
    [_reject_foreign_ledger_db], [_rehydrate_meta] and [_open_read_only] of
    [src/ccs/coordinator/sqlite_registry.py].

    [Catalog] is the part of the file those methods see: the version stamp, the columns
    of each table, the indexes, and the identity rows of [registry_meta] (a row by
    key; the decimal text of the sequence number as the number).  The table
    [conflict_counters], which a writer creates outside the versioned chain, is not part
    of the schema the stamp describes and is left out.  The second half runs any number
    of opening processes against one file. *)
From S2P Require Import Prelude Core Retention Registry SqliteRegistry SqliteFacts.
From stdpp Require Import strings.

Open Scope Z_scope.
Open Scope string_scope.

Record Catalog := mkCatalog {
  user_version : Z;
  tables : gmap string (gset string);
  indexes : gset string;
  row_instance_id : option string;
  row_sequence_number : option Z;
  row_coordinator_epoch : option string;
  row_schema_runtime : option string;
}.
#[export] Instance eta_Catalog : Settable Catalog :=
  rec_pure mkCatalog <*> user_version <*> tables <*> indexes <*> row_instance_id <*> row_sequence_number
    <*> row_coordinator_epoch <*> row_schema_runtime.

Definition SM (A : Type) : Type := proc exn Catalog A.

Definition SCHEMA_USER_VERSION := 7.
Definition V2_USER_VERSION := 2.
Definition V3_USER_VERSION := 3.
Definition V4_USER_VERSION := 4.
Definition V5_USER_VERSION := 5.
Definition V6_USER_VERSION := 6.
Definition SCHEMA_RUNTIME_STAMP := "python".

(** ** Statements *)
Definition has_table (c : Catalog) (t : string) : bool := bool_decide (is_Some (tables c !! t)).
Definition has_column (c : Catalog) (t col : string) : bool := bool_decide (col ∈ default ∅ (tables c !! t)).

Definition create_table (t : string) (cols : gset string) : SM unit := λ c,
  if has_table c t then (Raise (OperationalError "table already exists"), c) else (Ok tt, c <| tables ::= insert t cols |>).
Definition create_table_if_not_exists (t : string) (cols : gset string) : SM unit := λ c,
  if has_table c t then (Ok tt, c) else (Ok tt, c <| tables ::= insert t cols |>).
Definition create_index (name t : string) : SM unit := λ c,
  if bool_decide (name ∈ indexes c) then (Raise (OperationalError "index already exists"), c)
  else if has_table c t then (Ok tt, c <| indexes ::= ({[name]} ∪.) |>)
  else (Raise (OperationalError "no such table"), c).
Definition create_index_if_not_exists (name t : string) : SM unit := λ c,
  if bool_decide (name ∈ indexes c) then (Ok tt, c) else create_index name t c.
Definition add_column (t col : string) : SM unit := λ c,
  match tables c !! t with
  | None => (Raise (OperationalError "no such table"), c)
  | Some cols => if bool_decide (col ∈ cols) then (Raise (OperationalError "duplicate column name"), c)
                 else (Ok tt, c <| tables ::= insert t ({[col]} ∪ cols) |>)
  end.
Definition stamp (v : Z) : SM unit := modify (λ c, c <| user_version := v |>).

(** [BEGIN IMMEDIATE; ... COMMIT], with [ROLLBACK] on every exception. *)
Definition immediate {A} (m : SM A) : SM A := λ c,
  match m c with (Ok x, c') => (Ok x, c') | (Raise e, _) => (Raise e, c) end.

(** ** The tables *)
Definition artifacts_columns : gset string :=
  list_to_set ["id"; "name"; "version"; "owner_generation"; "content_hash"; "size_tokens"; "last_writer_id"; "updated_at"].
Definition agent_states_columns : gset string :=
  list_to_set ["artifact_id"; "agent_id"; "state"; "transient_state"; "transient_tick"; "granted_at_tick"; "last_reclaim_trigger";
               "last_reclaim_tick"; "read_generation"; "last_observed_version"].
Definition heartbeats_columns : gset string := list_to_set ["agent_id"; "last_tick"].
Definition registry_meta_columns : gset string := list_to_set ["key"; "value"].
Definition pending_notices_columns : gset string :=
  list_to_set ["agent_id"; "artifact_id"; "preempter_agent_id"; "preempted_at_unix_ts"].
Definition artifact_versions_columns : gset string := list_to_set ["artifact_id"; "version"; "content"; "captured_at"].
Definition session_pins_columns : gset string := list_to_set ["session_token"; "artifact_id"; "version"].
Definition session_meta_columns : gset string := list_to_set ["session_token"; "owner"; "created_at_tick"].
Definition workspace_checkpoints_columns : gset string :=
  list_to_set ["checkpoint_id"; "name"; "owner"; "created_at"; "created_at_tick"; "window_min"; "window_max"; "restore_status";
               "restore_updated_at"; "pin_refcount"].
Definition workspace_checkpoint_members_columns : gset string :=
  list_to_set ["checkpoint_id"; "member_path"; "artifact_id"; "native_token"; "fingerprint"; "captured_at"; "absent";
               "dirty_during_window"; "arbitration_tier"; "restore_tier"; "pin_state"; "restore_outcome"; "deleted_at_restore"].

(** ** Foreign files *)
Definition read_schema_runtime_stamp (c : Catalog) : option string :=
  if has_table c "registry_meta" then row_schema_runtime c else None.

(** The probes of [_reject_foreign_ledger_db], in order; [current] was read before. *)
Definition foreign_probes (current : Z) : list (Catalog → bool) :=
  [ (λ c, match read_schema_runtime_stamp c with Some r => bool_decide (r ≠ SCHEMA_RUNTIME_STAMP) | None => false end);
    (λ c, bool_decide (3 <= current) && has_column c "agent_states" "deadline_tick");
    (λ c, bool_decide (current = 2) && negb (has_table c "artifact_versions"));
    (λ c, bool_decide (current = 3) && negb (has_table c "session_pins"));
    (λ c, bool_decide (current = 5) && negb (has_table c "workspace_checkpoints")) ].
Definition reject_foreign_ledger_db (current : Z) : SM unit := λ c,
  if existsb (λ p, p c) (foreign_probes current) then (Raise CrossRuntimeSchemaError, c) else (Ok tt, c).

(** ** Identity rows *)
Record Meta := mkMeta { mt_instance_id : string; mt_seq : Z; mt_epoch : string }.

Definition rehydrate (instance_id_override : option string) (c : Catalog) : outcome exn Meta :=
  match row_instance_id c, row_sequence_number c with
  | Some i, Some n =>
    match row_coordinator_epoch c with
    | Some e => Ok (mkMeta (match instance_id_override with
                            | Some o => if bool_decide (o = "") then i else o
                            | None => i end) n e)
    | None => Raise (SchemaVersionError "coordinator_epoch missing from registry_meta")
    end
  | _, _ => Raise (SchemaVersionError "registry_meta is missing required keys")
  end.
Definition rehydrate_sm (o : option string) : SM Meta := λ c, (rehydrate o c, c).

(** ** Creating the current schema; [minted_id], [minted_epoch] are the [uuid4] calls *)
Definition apply_v2_schema (instance_id : option string) (minted_id minted_epoch : string) : SM Meta :=
  let seed_id := default minted_id instance_id in
  immediate (
    create_table "artifacts" artifacts_columns ;;
    create_index "idx_artifacts_name" "artifacts" ;;
    create_table "agent_states" agent_states_columns ;;
    create_index "idx_agent_states_agent" "agent_states" ;;
    create_table "heartbeats" heartbeats_columns ;;
    create_table "registry_meta" registry_meta_columns ;;
    create_table "pending_notices" pending_notices_columns ;;
    create_table "artifact_versions" artifact_versions_columns ;;
    create_table "session_pins" session_pins_columns ;;
    create_index "idx_session_pins_artifact" "session_pins" ;;
    create_table "session_meta" session_meta_columns ;;
    create_table "workspace_checkpoints" workspace_checkpoints_columns ;;
    create_table "workspace_checkpoint_members" workspace_checkpoint_members_columns ;;
    create_index "idx_workspace_checkpoints_name" "workspace_checkpoints" ;;
    modify (λ c, c <| row_instance_id := Some seed_id |> <| row_sequence_number := Some 0 |>
                   <| row_coordinator_epoch := Some minted_epoch |> <| row_schema_runtime := Some SCHEMA_RUNTIME_STAMP |>) ;;
    stamp SCHEMA_USER_VERSION) ;;
  mret (mkMeta seed_id 0 minted_epoch).

(** ** The migrations

    Each one is a transaction that looks at the stamp again once it holds the write
    lock, and does nothing when another opener was faster. *)
Definition migration (target : Z) (body : SM unit) : SM unit :=
  immediate (
    now ← gets user_version;
    if bool_decide (target <= now) then mret tt else body ;; stamp target).

Definition insert_or_ignore_epoch (e : string) : SM unit :=
  modify (λ c, c <| row_coordinator_epoch ::= λ o, Some (default e o) |>).
Definition insert_or_ignore_runtime : SM unit :=
  modify (λ c, c <| row_schema_runtime ::= λ o, Some (default SCHEMA_RUNTIME_STAMP o) |>).

Definition migrate_v1_to_v2 (minted_epoch : string) : SM unit := migration V2_USER_VERSION (
  art_cols ← gets (λ c, default ∅ (tables c !! "artifacts"));
  state_cols ← gets (λ c, default ∅ (tables c !! "agent_states"));
  when (bool_decide ("owner_generation" ∉ art_cols)) (add_column "artifacts" "owner_generation") ;;
  when (bool_decide ("read_generation" ∉ state_cols)) (add_column "agent_states" "read_generation") ;;
  insert_or_ignore_epoch minted_epoch ;;
  insert_or_ignore_runtime ;;
  create_table_if_not_exists "pending_notices" pending_notices_columns ;;
  create_table_if_not_exists "artifact_versions" artifact_versions_columns).

Definition migrate_v2_to_v3 : SM unit := migration V3_USER_VERSION (
  create_table_if_not_exists "session_pins" session_pins_columns).

Definition migrate_v3_to_v4 : SM unit := migration V4_USER_VERSION (
  create_table_if_not_exists "session_meta" session_meta_columns ;;
  create_index_if_not_exists "idx_session_pins_artifact" "session_pins").

Definition migrate_v4_to_v5 : SM unit := migration V5_USER_VERSION (
  create_table_if_not_exists "workspace_checkpoints" workspace_checkpoints_columns ;;
  create_table_if_not_exists "workspace_checkpoint_members" workspace_checkpoint_members_columns ;;
  create_index_if_not_exists "idx_workspace_checkpoints_name" "workspace_checkpoints").

Definition migrate_v5_to_v6 : SM unit := migration V6_USER_VERSION (
  have ← gets (λ c, has_column c "agent_states" "last_observed_version");
  when (negb have) (add_column "agent_states" "last_observed_version")).

Definition migrate_v6_to_v7 : SM unit := migration SCHEMA_USER_VERSION (
  create_index_if_not_exists "idx_agent_states_agent" "agent_states").

(** The step that leaves version [v]. *)
Definition migrate_from (minted_epoch : string) (v : Z) : SM unit :=
  if bool_decide (v = 1) then migrate_v1_to_v2 minted_epoch
  else if bool_decide (v = 2) then migrate_v2_to_v3
  else if bool_decide (v = V3_USER_VERSION) then migrate_v3_to_v4
  else if bool_decide (v = V4_USER_VERSION) then migrate_v4_to_v5
  else if bool_decide (v = V5_USER_VERSION) then migrate_v5_to_v6
  else migrate_v6_to_v7.

(** ** The dispatch of [_initialize_schema] *)
Inductive plan : Type :=
| PCreate
| PMigrate (from : list Z)
| PRefuse.
Definition dispatch (current : Z) : plan :=
  if bool_decide (current = 0) then PCreate
  else if bool_decide (current = 1) then PMigrate [1; 2; 3; 4; 5; 6]
  else if bool_decide (current = 2) then PMigrate [2; 3; 4; 5; 6]
  else if bool_decide (current = V3_USER_VERSION) then PMigrate [3; 4; 5; 6]
  else if bool_decide (current = V4_USER_VERSION) then PMigrate [4; 5; 6]
  else if bool_decide (current = V5_USER_VERSION) then PMigrate [5; 6]
  else if bool_decide (current = V6_USER_VERSION) then PMigrate [6]
  else if bool_decide (current = SCHEMA_USER_VERSION) then PMigrate []
  else PRefuse.

(** Every migration method ends with [_rehydrate_meta]; the last one decides. *)
Fixpoint chain (instance_id : option string) (minted_epoch : string) (from : list Z) : SM Meta :=
  match from with
  | [] => rehydrate_sm instance_id
  | [v] => migrate_from minted_epoch v ;; rehydrate_sm instance_id
  | v :: rest => migrate_from minted_epoch v ;; _ ← rehydrate_sm instance_id; chain instance_id minted_epoch rest
  end.
Definition initialize_schema (instance_id : option string) (minted_id minted_epoch : string) : SM Meta :=
  current ← gets user_version;
  reject_foreign_ledger_db current ;;
  match dispatch current with
  | PCreate => apply_v2_schema instance_id minted_id minted_epoch
  | PMigrate from => chain instance_id minted_epoch from
  | PRefuse => raise (SchemaVersionError "unexpected schema version")
  end.

(** ** Opening read-only *)
Fixpoint str_lower (s : string) : string :=
  match s with "" => "" | String c s' => String (ascii_lower c) (str_lower s') end.
Fixpoint is_in (needle hay : string) : bool :=
  String.prefix needle hay || match hay with "" => false | String _ hay' => is_in needle hay' end.
Definition STORE_SIGNAL_BUSY := "busy".
Definition STORE_SIGNAL_WAL_RECOVERY := "wal_recovery".
Definition STORE_SIGNAL_UNREADABLE := "unreadable".
Definition classify_sqlite_operational_signal (exc : string) : string :=
  let text := str_lower exc in
  if is_in "busy" text || is_in "locked" text then STORE_SIGNAL_BUSY
  else if is_in "readonly" text || is_in "recovery" text || is_in "wal" text then STORE_SIGNAL_WAL_RECOVERY
  else STORE_SIGNAL_UNREADABLE.

(** A plain read of a read-only connection; [err] is the engine's complaint, if any. *)
Definition readonly_query {A} (err : option string) (q : outcome exn A) : outcome exn A :=
  match err with
  | Some text => Raise (StoreNeedsRecoveryError (classify_sqlite_operational_signal text))
  | None => q
  end.

(** [_open_read_only] on the file, if there is one: the file itself is never changed. *)
Definition open_read_only (file : option Catalog) (version_err meta_err : option string) (instance_id : option string) : outcome exn Meta :=
  match file with
  | None => Raise MissingDatabaseError
  | Some c =>
    match readonly_query version_err (reject_foreign_ledger_db (user_version c) c).1 with
    | Raise e => Raise e
    | Ok _ =>
      if bool_decide (SCHEMA_USER_VERSION < user_version c) then Raise (SchemaVersionError "read-only open: newer schema")
      else if bool_decide (user_version c ≠ SCHEMA_USER_VERSION) then Raise (SchemaVersionError "read-only open: older schema")
      else readonly_query meta_err (rehydrate instance_id c)
    end
  end.

(** ** Several openers

    Processes share the file and nothing else; a step is one read or one transaction.
    [Failed None] is a process that was killed, or gave up on a busy database: what
    it had not committed is rolled back. *)
Inductive opener : Type :=
| Start
| Probing (current : Z) (rest : list (Catalog → bool))
| Creating
| Migrating (from : list Z)
| Rehydrating (rest : list Z)
| Opened (m : Meta)
| Failed (e : option exn).

Record args := mkArgs { a_instance : option string; a_minted_id : string; a_minted_epoch : string }.

Definition opener_step (a : args) (p : opener) (c : Catalog) : opener * Catalog :=
  match p with
  | Start => (Probing (user_version c) (foreign_probes (user_version c)), c)
  | Probing current (probe :: rest) => (if probe c then Failed (Some CrossRuntimeSchemaError) else Probing current rest, c)
  | Probing current [] =>
    (match dispatch current with
     | PCreate => Creating
     | PMigrate [] => Rehydrating []
     | PMigrate from => Migrating from
     | PRefuse => Failed (Some (SchemaVersionError "unexpected schema version"))
     end, c)
  | Creating => match apply_v2_schema (a_instance a) (a_minted_id a) (a_minted_epoch a) c with
                | (Ok m, c') => (Opened m, c')
                | (Raise e, c') => (Failed (Some e), c')
                end
  | Migrating [] => (Rehydrating [], c)
  | Migrating (v :: rest) => match migrate_from (a_minted_epoch a) v c with
                             | (Ok _, c') => (Rehydrating rest, c')
                             | (Raise e, c') => (Failed (Some e), c')
                             end
  | Rehydrating rest => (match rehydrate (a_instance a) c with
                         | Raise e => Failed (Some e)
                         | Ok m => match rest with [] => Opened m | _ => Migrating rest end
                         end, c)
  | Opened _ | Failed _ => (p, c)
  end.

Inductive openers_step : list (args * opener) * Catalog → list (args * opener) * Catalog → Prop :=
| op_run ps c i a p p' c' : ps !! i = Some (a, p) → opener_step a p c = (p', c') → openers_step (ps, c) (<[i := (a, p')]> ps, c')
| op_kill ps c i a p : ps !! i = Some (a, p) → (∀ m, p ≠ Opened m) → openers_step (ps, c) (<[i := (a, Failed None)]> ps, c).
