(* ===== verification/MigrationSafety.v ===== *)
(** Migration is complete and safe under concurrency: from every file an earlier build
    can have left, any interleaving of opening processes arrives at the schema a fresh
    file gets, and all of them agree on the identity of the store. *)
From S2P Require Import Prelude Core Retention Registry SqliteRegistry SqliteFacts Migration.
From stdpp Require Import strings.

Open Scope Z_scope.
Open Scope string_scope.

(** ** The schema by version

    Each table, column and index with the version that introduced it. *)
Definition schema : list (string * (Z * gset string)) :=
  [ ("artifacts", (1, artifacts_columns)); ("agent_states", (1, agent_states_columns)); ("heartbeats", (1, heartbeats_columns));
    ("registry_meta", (1, registry_meta_columns)); ("pending_notices", (2, pending_notices_columns));
    ("artifact_versions", (2, artifact_versions_columns)); ("session_pins", (3, session_pins_columns));
    ("session_meta", (4, session_meta_columns)); ("workspace_checkpoints", (5, workspace_checkpoints_columns));
    ("workspace_checkpoint_members", (5, workspace_checkpoint_members_columns)) ].
Definition column_since (t col : string) : Z :=
  if bool_decide ((t, col) = ("artifacts", "owner_generation")) then 2
  else if bool_decide ((t, col) = ("agent_states", "read_generation")) then 2
  else if bool_decide ((t, col) = ("agent_states", "last_observed_version")) then 6
  else 1.
Definition schema_indexes : list (string * Z) :=
  [ ("idx_artifacts_name", 1); ("idx_session_pins_artifact", 4); ("idx_workspace_checkpoints_name", 5); ("idx_agent_states_agent", 7) ].

Definition table_ok (v : Z) (t : string) (n : Z) (cols : gset string) (have : option (gset string)) : Prop :=
  match have with
  | None => v < n
  | Some h => h ⊆ cols ∧ ∀ x, x ∈ cols → column_since t x <= v → x ∈ h
  end.

(** A file of version [v]: everything introduced up to [v] is there; later pieces may be
    there too, as the shims that shipped without a version bump left them. *)
Record supported (v : Z) (c : Catalog) : Prop := {
  su_tables : ∀ t n cols, (t, (n, cols)) ∈ schema → table_ok v t n cols (tables c !! t);
  su_indexes : ∀ i n, (i, n) ∈ schema_indexes → n <= v → i ∈ indexes c;
  su_instance : is_Some (row_instance_id c);
  su_seq : is_Some (row_sequence_number c);
  su_epoch : 2 <= v → is_Some (row_coordinator_epoch c);
  su_runtime : row_schema_runtime c = None ∨ row_schema_runtime c = Some SCHEMA_RUNTIME_STAMP;
}.

(** Nothing is lost. *)
Record grows (c c' : Catalog) : Prop := {
  gr_tables : ∀ t h, tables c !! t = Some h → ∃ h', tables c' !! t = Some h' ∧ h ⊆ h';
  gr_others : ∀ t, t ∉ schema.*1 → tables c' !! t = tables c !! t;
  gr_indexes : indexes c ⊆ indexes c';
  gr_instance : is_Some (row_instance_id c) → row_instance_id c' = row_instance_id c;
  gr_seq : is_Some (row_sequence_number c) → row_sequence_number c' = row_sequence_number c;
  gr_epoch : is_Some (row_coordinator_epoch c) → row_coordinator_epoch c' = row_coordinator_epoch c;
}.
#[local] Instance grows_preorder : PreOrder grows.
Proof.
  split; [intros c; split; try done; eauto|]. intros c1 c2 c3 [A1 A2 A3 A4 A5 A6] [B1 B2 B3 B4 B5 B6]. split.
  - intros t h (h' & H1 & ?)%A1. apply B1 in H1 as (h'' & ? & ?). exists h''. split; [done|set_solver].
  - intros t Ht. by rewrite B2, A2.
  - set_solver.
  - intros H. rewrite B4, A4; [done..|]. by rewrite A4.
  - intros H. rewrite B5, A5; [done..|]. by rewrite A5.
  - intros H. rewrite B6, A6; [done..|]. by rewrite A6.
Qed.

(** The complete current schema. *)
Definition complete (c : Catalog) : Prop :=
  user_version c = SCHEMA_USER_VERSION ∧ (∀ t n cols, (t, (n, cols)) ∈ schema → tables c !! t = Some cols) ∧
  (∀ i n, (i, n) ∈ schema_indexes → i ∈ indexes c).

Lemma supported_complete c : supported 7 c → user_version c = 7 → complete c.
Proof.
  intros Hs Hv. split; [done|]. split.
  - intros t n cols Hin. pose proof (su_tables _ _ Hs _ _ _ Hin) as Ht. unfold table_ok in Ht. destruct (tables c !! t) as [h|].
    + f_equal. apply set_eq. intros x. split; [by apply Ht|]. intros Hx. apply Ht; [done|].
      unfold column_since. repeat case_bool_decide; lia.
    + set_unfold in Hin. naive_solver lia.
  - intros i n Hin. apply (su_indexes _ _ Hs i n); [done|]. set_unfold in Hin. naive_solver lia.
Qed.

Lemma upgrade v c : supported v c → 1 <= v →
  (∀ t n cols, (t, (n, cols)) ∈ schema → n = v + 1 → is_Some (tables c !! t)) →
  (∀ t n cols x, (t, (n, cols)) ∈ schema → x ∈ cols → column_since t x = v + 1 → x ∈ default ∅ (tables c !! t)) →
  (∀ i n, (i, n) ∈ schema_indexes → n = v + 1 → i ∈ indexes c) →
  is_Some (row_coordinator_epoch c) → supported (v + 1) c.
Proof.
  intros [Ht Hi H1 H2 H3 H4] Hv Hn Hc Hx He. split; try done.
  - intros t n cols Hin. specialize (Ht t n cols Hin). unfold table_ok in *. specialize (Hn t n cols Hin).
    specialize (Hc t n cols). destruct (tables c !! t) as [h|]; simpl in *.
    + split; [apply Ht|]. intros x Hxc Hs. destruct (decide (column_since t x <= v)); [by apply Ht|]. apply Hc; [done..|lia].
    + destruct (decide (n = v + 1)) as [E|]; [|lia]. by destruct (Hn E).
  - intros i n Hin Hle. destruct (decide (n <= v)); [by eapply Hi|]. eapply Hx; [done|lia].
Qed.

Ltac in_schema := unfold schema; repeat first [apply list_elem_of_here | apply list_elem_of_further].

(** ** Statements on a supported file *)
Definition good (v : Z) (P : Catalog → Prop) (m : SM unit) (X : Catalog → Prop) : Prop := ∀ c, supported v c → P c →
  ∃ c', m c = (Ok tt, c') ∧ supported v c' ∧ grows c c' ∧ user_version c' = user_version c ∧ X c'.
Definition upward (X : Catalog → Prop) : Prop := ∀ c c', grows c c' → X c → X c'.

Definition present (t : string) (c : Catalog) : Prop := is_Some (tables c !! t).
Definition with_column (t col : string) (c : Catalog) : Prop := col ∈ default ∅ (tables c !! t).
Definition with_index (i : string) (c : Catalog) : Prop := i ∈ indexes c.
Definition with_epoch (c : Catalog) : Prop := is_Some (row_coordinator_epoch c).

Lemma present_upward t : upward (present t).
Proof. intros c c' Hg [h Hh]. destruct (gr_tables _ _ Hg _ _ Hh) as (h' & ? & _). by exists h'. Qed.
Lemma with_column_upward t col : upward (with_column t col).
Proof.
  intros c c' Hg. unfold with_column. destruct (tables c !! t) as [h|] eqn:E; [|by intros ?%elem_of_empty].
  destruct (gr_tables _ _ Hg _ _ E) as (h' & -> & Hs). simpl. set_solver.
Qed.
Lemma with_index_upward i : upward (with_index i).
Proof. intros c c' Hg Hi. by apply (gr_indexes _ _ Hg). Qed.
Lemma with_epoch_upward : upward with_epoch.
Proof. intros c c' Hg He. unfold with_epoch. by rewrite (gr_epoch _ _ Hg). Qed.
Lemma and_upward X Y : upward X → upward Y → upward (λ c, X c ∧ Y c).
Proof. intros HX HY c c' Hg [H1 H2]. split; eauto. Qed.
#[local] Hint Resolve present_upward with_column_upward with_index_upward with_epoch_upward and_upward : core.

Lemma good_then v P m k X Y : upward P → upward X → good v P m X → good v (λ c, P c ∧ X c) k Y → good v P (m ;; k) (λ c, X c ∧ Y c).
Proof.
  intros HP HX Hm Hk c Hs Hp. destruct (Hm c Hs Hp) as (c1 & E1 & Hs1 & Hg1 & Hv1 & Hx).
  destruct (Hk c1 Hs1) as (c2 & E2 & Hs2 & Hg2 & Hv2 & Hy); [split; eauto|].
  exists c2. split; [unfold mbind, proc_bind; by rewrite E1|]. split; [done|]. split; [by etrans|]. split; [congruence|]. split; eauto.
Qed.

(** A table gains columns of the schema. *)
Lemma supported_insert v c t n cols h : supported v c → (t, (n, cols)) ∈ schema → table_ok v t n cols (Some h) →
  default ∅ (tables c !! t) ⊆ h → supported v (c <| tables ::= insert t h |>) ∧ grows c (c <| tables ::= insert t h |>).
Proof.
  intros Hs Hin Ht Hsub. split.
  - split; try apply Hs. intros t' n' cols' Hin'. simpl. destruct (decide (t' = t)) as [->|Hne].
    + rewrite lookup_insert_eq. assert ((n', cols') = (n, cols)) as [= -> ->]; [|done].
      unfold schema in Hin, Hin'. set_unfold in Hin. set_unfold in Hin'. naive_solver.
    + rewrite lookup_insert_ne by done. by apply (su_tables _ _ Hs).
  - split; try done.
    + intros t' h' Ht'. simpl. destruct (decide (t' = t)) as [->|Hne].
      * exists h. rewrite lookup_insert_eq. split; [done|]. by rewrite Ht' in Hsub.
      * exists h'. by rewrite lookup_insert_ne.
    + intros t' Hnt. change (<[t := h]> (tables c) !! t' = tables c !! t'). rewrite lookup_insert_ne; [done|]. intros <-. apply Hnt. apply list_elem_of_fmap. by exists (t, (n, cols)).
Qed.

Lemma good_create v P t n cols : (t, (n, cols)) ∈ schema → good v P (create_table_if_not_exists t cols) (present t).
Proof.
  intros Hin c Hs _. unfold create_table_if_not_exists, has_table. case_bool_decide as Hp.
  - by exists c.
  - destruct (tables c !! t) as [h|] eqn:E; [by destruct Hp|].
    destruct (supported_insert v c t n cols cols Hs Hin ltac:(split; [done|auto])) as [H1 H2]; [by rewrite E; set_solver|].
    exists (c <| tables ::= insert t cols |>). split; [done|]. do 3 (split; [done|]). exists cols. apply lookup_insert_eq.
Qed.

Lemma good_add_column v P t n cols col : (t, (n, cols)) ∈ schema → n <= v → col ∈ cols →
  good v P (have ← gets (λ c, has_column c t col); when (negb have) (add_column t col)) (with_column t col).
Proof.
  intros Hin Hn Hcol c Hs _. unfold mbind, proc_bind, gets, has_column. case_bool_decide as Hh; simpl.
  - by exists c.
  - unfold add_column. pose proof (su_tables _ _ Hs _ _ _ Hin) as Ht. destruct (tables c !! t) as [h|] eqn:E; [|simpl in Ht; lia].
    simpl in Hh. rewrite bool_decide_false by done. destruct Ht as [Hsub Hx].
    destruct (supported_insert v c t n cols ({[col]} ∪ h) Hs Hin) as [H1 H2].
    { split; [by apply union_subseteq; split; [apply singleton_subseteq_l|]|]. intros x Hxc Hle. apply elem_of_union_r. by apply Hx. }
    { rewrite E. simpl. set_solver. }
    eexists. split; [done|]. do 3 (split; [done|]). unfold with_column. simpl. rewrite lookup_insert_eq. set_solver.
Qed.

Lemma good_index v P i t : (∀ c, supported v c → P c → present t c) → good v P (create_index_if_not_exists i t) (with_index i).
Proof.
  intros Ht c Hs Hp. unfold create_index_if_not_exists, create_index, has_table. case_bool_decide as Hh.
  - by exists c.
  - rewrite bool_decide_true by (by apply Ht). eexists. split; [done|]. split; [|split; [|split; [done|]]].
    + destruct Hs as [H1 H2 H3 H4 H5 H6]. split; try done. intros i' m' Hin' Hle. simpl. specialize (H2 i' m' Hin' Hle). set_solver.
    + split; simpl; try done; [eauto|set_solver].
    + unfold with_index. simpl. set_solver.
Qed.

Lemma good_rows v P f : (∀ c, row_instance_id (f c) = row_instance_id c ∧ row_sequence_number (f c) = row_sequence_number c) →
  (∀ c, tables (f c) = tables c ∧ indexes (f c) = indexes c ∧ user_version (f c) = user_version c) →
  (∀ c, is_Some (row_coordinator_epoch c) → row_coordinator_epoch (f c) = row_coordinator_epoch c) →
  (∀ c, row_schema_runtime c = None ∨ row_schema_runtime c = Some SCHEMA_RUNTIME_STAMP →
        row_schema_runtime (f c) = None ∨ row_schema_runtime (f c) = Some SCHEMA_RUNTIME_STAMP) →
  good v P (modify f) (λ c', ∃ c, c' = f c).
Proof.
  intros Hr Hc He Hm c [H1 H2 H3 H4 H5 H6] _. destruct (Hr c) as [Hr1 Hr2]. destruct (Hc c) as (Hc1 & Hc2 & Hc3).
  exists (f c). split; [done|]. split; [|split; [|split; [done|by eexists]]].
  - split; rewrite ?Hc1, ?Hc2, ?Hr1, ?Hr2; auto. intros Hv. rewrite He; auto.
  - split; rewrite ?Hc1, ?Hc2, ?Hr1, ?Hr2; try done; eauto.
Qed.

Lemma good_weaken v (P P' X Y : Catalog → Prop) m : (∀ c, P' c → P c) → (∀ c, X c → Y c) → good v P m X → good v P' m Y.
Proof. intros HP HX Hm c Hs Hp. destruct (Hm c Hs (HP c Hp)) as (c' & ? & ? & ? & ? & ?). exists c'. auto 6. Qed.
Lemma good_epoch v P e : good v P (insert_or_ignore_epoch e) with_epoch.
Proof.
  eapply good_weaken; [done| |apply (good_rows v P)]; [|done|done|by intros c [x Hx]; cbn; rewrite Hx|done].
  intros c' [c ->]. by eexists.
Qed.
Lemma good_runtime v P : good v P insert_or_ignore_runtime (λ _, True).
Proof.
  eapply good_weaken; [done| |apply (good_rows v P)]; [done|done|done|done|]. intros c [H|H]; cbn; rewrite H; auto.
Qed.

(** ** A migration step *)

(** What holds after leaving version [v] by step [k]. *)
Definition lands (k : Z) (m : SM unit) : Prop := ∀ c w, supported w c → user_version c = w → k <= w →
  ∃ c', m c = (Ok tt, c') ∧ supported (Z.max w (k + 1)) c' ∧ user_version c' = Z.max w (k + 1) ∧ grows c c'.

Lemma migration_lands k target body X : target = k + 1 → good k (λ _, True) body X →
  (∀ c, supported k c → X c → supported target c) → lands k (migration target body).
Proof.
  intros -> Hb Hup c w Hs Hw Hk. unfold migration, immediate, mbind, proc_bind, gets. rewrite Hw. case_bool_decide as Hle.
  - exists c. rewrite Z.max_l by lia. done.
  - assert (w = k) as -> by lia. destruct (Hb c Hs I) as (c1 & -> & Hs1 & Hg & Hv & Hx). cbn. eexists. split; [done|].
    rewrite Z.max_r by lia. split; [|split; [done|by destruct Hg]]. by destruct (Hup c1 Hs1 Hx).
Qed.

(** The pieces of one version, by enumeration. *)
Ltac upgrades k :=
  apply (upgrade k); [done|lia| | | |];
  [ let Hin := fresh in intros ? ? ? Hin ?; unfold schema in Hin; set_unfold in Hin; naive_solver lia
  | let Hin := fresh in let Hs := fresh in intros ? ? ? ? Hin ? Hs; unfold column_since in Hs; repeat case_bool_decide; simplify_eq; try lia; naive_solver
  | let Hin := fresh in intros ? ? Hin ?; unfold schema_indexes in Hin; set_unfold in Hin; naive_solver lia
  | ].

(** Both column lists are read before either table is altered. *)
Lemma reads_first {A} (k : SM A) c :
  (art_cols ← gets (λ c, default ∅ (tables c !! "artifacts"));
   state_cols ← gets (λ c, default ∅ (tables c !! "agent_states"));
   when (bool_decide ("owner_generation" ∉ art_cols)) (add_column "artifacts" "owner_generation") ;;
   when (bool_decide ("read_generation" ∉ state_cols)) (add_column "agent_states" "read_generation") ;; k) c =
  ((have ← gets (λ c, has_column c "artifacts" "owner_generation"); when (negb have) (add_column "artifacts" "owner_generation")) ;;
   (have ← gets (λ c, has_column c "agent_states" "read_generation"); when (negb have) (add_column "agent_states" "read_generation")) ;; k) c.
Proof.
  unfold mbind, proc_bind, gets, has_column. rewrite !bool_decide_not. destruct (bool_decide ("owner_generation" ∈ _)); [done|].
  cbn [negb when]. destruct (add_column "artifacts" "owner_generation" c) as [[[]|e] c1] eqn:E; [|done].
  assert (tables c1 !! "agent_states" = tables c !! "agent_states") as ->; [|done].
  unfold add_column in E. destruct (tables c !! "artifacts"); [|done]. case_bool_decide; simplify_eq. cbn. by rewrite lookup_insert_ne.
Qed.

Ltac then_good := repeat (apply good_then; [by repeat apply and_upward; auto|by auto| |]).

Lemma v1_lands e : lands 1 (migrate_v1_to_v2 e).
Proof.
  eapply (migration_lands 1 _ _ (λ c, with_column "artifacts" "owner_generation" c ∧ with_column "agent_states" "read_generation" c ∧
    with_epoch c ∧ True ∧ present "pending_notices" c ∧ present "artifact_versions" c)); [done| |].
  - intros c Hs Hp. rewrite reads_first. revert c Hs Hp. then_good.
    + eapply good_add_column; [by left|lia|set_solver].
    + eapply good_add_column; [by right; left|lia|set_solver].
    + apply good_epoch.
    + apply good_runtime.
    + apply (good_create _ _ _ 2). in_schema.
    + apply (good_create _ _ _ 2). in_schema.
  - intros c Hs (H1 & H2 & H3 & _ & H4 & H5). by upgrades 1.
Qed.

Lemma v2_lands : lands 2 migrate_v2_to_v3.
Proof.
  eapply (migration_lands 2 _ _ (present "session_pins")); [done| |].
  - apply (good_create _ _ _ 3). in_schema.
  - intros c Hs H. upgrades 2. by apply (su_epoch _ _ Hs).
Qed.
Lemma v3_lands : lands 3 migrate_v3_to_v4.
Proof.
  eapply (migration_lands 3 _ _ (λ c, present "session_meta" c ∧ with_index "idx_session_pins_artifact" c)); [done| |].
  - then_good; [apply (good_create _ _ _ 4); in_schema|]. apply good_index. intros c Hs _.
    pose proof (su_tables _ _ Hs "session_pins" 3 session_pins_columns ltac:(in_schema)) as Ht. unfold present, table_ok in *.
    destruct (tables c !! _); [by eexists|lia].
  - intros c Hs [H1 H2]. upgrades 3. by apply (su_epoch _ _ Hs).
Qed.
Lemma v4_lands : lands 4 migrate_v4_to_v5.
Proof.
  eapply (migration_lands 4 _ _ (λ c, present "workspace_checkpoints" c ∧ present "workspace_checkpoint_members" c ∧
    with_index "idx_workspace_checkpoints_name" c)); [done| |].
  - then_good; [apply (good_create _ _ _ 5); in_schema..|]. apply good_index. by intros c Hs [[_ H] _].
  - intros c Hs (H1 & H2 & H3). upgrades 4. by apply (su_epoch _ _ Hs).
Qed.
Lemma v5_lands : lands 5 migrate_v5_to_v6.
Proof.
  eapply (migration_lands 5 _ _ (with_column "agent_states" "last_observed_version")); [done| |].
  - eapply good_add_column; [by right; left|lia|set_solver].
  - intros c Hs H. upgrades 5. by apply (su_epoch _ _ Hs).
Qed.
Lemma v6_lands : lands 6 migrate_v6_to_v7.
Proof.
  eapply (migration_lands 6 _ _ (with_index "idx_agent_states_agent")); [done| |].
  - apply good_index. intros c Hs _. pose proof (su_tables _ _ Hs "agent_states" 1 agent_states_columns ltac:(in_schema)) as Ht.
    unfold present, table_ok in *. destruct (tables c !! _); [by eexists|lia].
  - intros c Hs H. upgrades 6. by apply (su_epoch _ _ Hs).
Qed.

Lemma step_lands e k : 1 <= k <= 6 → lands k (migrate_from e k).
Proof.
  intros Hk. assert (k = 1 ∨ k = 2 ∨ k = 3 ∨ k = 4 ∨ k = 5 ∨ k = 6) as Hc by lia.
  destruct_or! Hc; subst k; [apply v1_lands|apply v2_lands|apply v3_lands|apply v4_lands|apply v5_lands|apply v6_lands].
Qed.

(** ** Files to start from *)
Definition new_file : Catalog := mkCatalog 0 ∅ ∅ None None None None.
Definition start_ok (c0 : Catalog) : Prop :=
  c0 = new_file ∨ 1 <= user_version c0 <= 7 ∧ supported (user_version c0) c0.

Definition full_tables : gmap string (gset string) := list_to_map ((λ e : string * (Z * gset string), (e.1, e.2.2)) <$> schema).
Definition created (i e : string) : Catalog :=
  mkCatalog 7 full_tables (list_to_set schema_indexes.*1) (Some i) (Some 0) (Some e) (Some SCHEMA_RUNTIME_STAMP).

Lemma full_tables_schema : Forall (λ e : string * (Z * gset string), full_tables !! e.1 = Some e.2.2) schema.
Proof. apply (bool_decide_unpack _). vm_compute. exact I. Qed.

Lemma created_supported i e : supported 7 (created i e).
Proof.
  split; try (by eexists); [| |by right].
  - intros t n cols Hin. pose proof full_tables_schema as Hf. rewrite Forall_forall in Hf. specialize (Hf _ Hin). cbn [fst snd] in Hf.
    change (table_ok 7 t n cols (full_tables !! t)). rewrite Hf. split; [done|auto].
  - intros x n Hin _. change (x ∈ (list_to_set schema_indexes.*1 : gset string)). apply elem_of_list_to_set, list_elem_of_fmap. by exists (x, n).
Qed.

Lemma create_new inst i e :
  apply_v2_schema inst i e new_file = (Ok (mkMeta (default i inst) 0 e), created (default i inst) e).
Proof. vm_compute. reflexivity. Qed.

Lemma created_rehydrate inst i e : rehydrate inst (created (default i inst) e) = Ok (mkMeta (default i inst) 0 e).
Proof. unfold rehydrate. simpl. destruct inst as [o|]; [|done]. simpl. by case_bool_decide; subst. Qed.

Lemma create_twice inst i e c v : supported v c → 1 <= v →
  apply_v2_schema inst i e c = (Raise (OperationalError "table already exists"), c).
Proof.
  intros Hs Hv. pose proof (su_tables _ _ Hs "artifacts" 1 artifacts_columns ltac:(by left)) as Ht. unfold table_ok in Ht.
  destruct (tables c !! "artifacts") as [h|] eqn:E; [|lia].
  unfold apply_v2_schema, immediate, mbind, proc_bind, create_table at 1, has_table. by rewrite E, bool_decide_true by eauto.
Qed.

Lemma supported_table v c t n cols : supported v c → (t, (n, cols)) ∈ schema → n <= v → has_table c t = true.
Proof.
  intros Hs Hin Hn. pose proof (su_tables _ _ Hs _ _ _ Hin) as Ht. unfold has_table, table_ok in *. apply bool_decide_eq_true_2.
  destruct (tables c !! t); [by eexists|lia].
Qed.

Lemma probes_supported v c current probe : supported v c → current <= v → probe ∈ foreign_probes current → probe c = false.
Proof.
  intros Hs Hc Hin. unfold foreign_probes in Hin. rewrite !elem_of_cons, elem_of_nil in Hin.
  destruct_or! Hin; subst probe.
  - unfold read_schema_runtime_stamp. destruct (has_table c _); [|done]. destruct (su_runtime _ _ Hs) as [-> | ->]; [done|].
    apply bool_decide_eq_false_2. by intros [].
  - case_bool_decide; [|done]. apply bool_decide_eq_false_2.
    pose proof (su_tables _ _ Hs "agent_states" 1 agent_states_columns ltac:(in_schema)) as Ht.
    destruct (tables c !! "agent_states") as [h|]; simpl in *; [|set_solver]. intros Hd. apply Ht in Hd. by vm_compute in Hd.
  - case_bool_decide; [|done]. subst. by rewrite (supported_table v c _ 2 artifact_versions_columns Hs ltac:(in_schema) Hc).
  - case_bool_decide; [|done]. subst. by rewrite (supported_table v c _ 3 session_pins_columns Hs ltac:(in_schema) Hc).
  - case_bool_decide; [|done]. subst. by rewrite (supported_table v c _ 5 workspace_checkpoints_columns Hs ltac:(in_schema) Hc).
Qed.

Lemma probes_new probe : probe ∈ foreign_probes 0 → probe new_file = false.
Proof. unfold foreign_probes. rewrite !elem_of_cons, elem_of_nil. intros Hin. destruct_or! Hin; by subst probe. Qed.

Lemma rehydrate_supported v inst c : supported v c → 2 <= v → ∃ m, rehydrate inst c = Ok m.
Proof.
  intros Hs Hv. unfold rehydrate. destruct (su_instance _ _ Hs) as [i ->], (su_seq _ _ Hs) as [n ->], (su_epoch _ _ Hs Hv) as [e ->].
  by eexists.
Qed.
Lemma rehydrate_grows inst c c' m : grows c c' → rehydrate inst c = Ok m → rehydrate inst c' = Ok m.
Proof.
  intros Hg. unfold rehydrate. destruct (row_instance_id c) as [i|] eqn:E1; [|by destruct (row_sequence_number c)].
  destruct (row_sequence_number c) as [n|] eqn:E2; [|done]. destruct (row_coordinator_epoch c) as [e|] eqn:E3; [|done].
  by rewrite (gr_instance _ _ Hg), (gr_seq _ _ Hg), (gr_epoch _ _ Hg), E1, E2, E3 by (rewrite ?E1, ?E2, ?E3; by eexists).
Qed.

(** ** The invariant of the openers *)
Definition file_ok (c0 c : Catalog) : Prop :=
  c = new_file ∧ c0 = new_file ∨
  1 <= user_version c <= 7 ∧ supported (user_version c) c ∧
    (c0 = new_file ∧ user_version c = 7 ∨ user_version c0 <= user_version c ∧ grows c0 c).

Definition opener_ok (c0 c : Catalog) (a : args) (p : opener) : Prop :=
  match p with
  | Start => True
  | Probing current rest => rest ⊆ foreign_probes current ∧ (current = 0 ∧ c0 = new_file ∨ 1 <= current <= user_version c)
  | Creating => c0 = new_file
  | Migrating from => ∃ k, 1 <= k <= 6 ∧ from = seqZ k (7 - k) ∧ k <= user_version c
  | Rehydrating rest => ∃ k, 2 <= k <= 7 ∧ rest = seqZ k (7 - k) ∧ k <= user_version c
  | Opened m => user_version c = 7 ∧ rehydrate (a_instance a) c = Ok m
  | Failed None => True
  | Failed (Some e) => e = OperationalError "table already exists" ∧ c0 = new_file
  end.

Definition advances (c c' : Catalog) : Prop := user_version c <= user_version c' ∧ (1 <= user_version c → grows c c').

Lemma advances_refl c : advances c c.
Proof. by split. Qed.

Lemma opener_ok_advances c0 c c' a p : advances c c' → file_ok c0 c' → opener_ok c0 c a p → opener_ok c0 c' a p.
Proof.
  intros [Hv Hg] Hf. destruct p as [|cur rest| |from|rest|m|[e|]]; simpl; try done.
  - intros [H1 [H|H]]; (split; [done|]); [by left|right; lia].
  - intros (k & ? & ? & ?). exists k. split_and!; (done || lia).
  - intros (k & ? & ? & ?). exists k. split_and!; (done || lia).
  - intros [H7 Hr]. split; [destruct Hf as [[-> _]|[? _]]; simpl in *; lia|]. eapply rehydrate_grows; [|done]. apply Hg. lia.
Qed.

Lemma dispatch_range current : 1 <= current <= 7 → dispatch current = PMigrate (seqZ current (7 - current)).
Proof.
  intros H. assert (current = 1 ∨ current = 2 ∨ current = 3 ∨ current = 4 ∨ current = 5 ∨ current = 6 ∨ current = 7) as Hc by lia.
  by destruct_or! Hc; subst current.
Qed.

Lemma probe_false c0 c current probe : file_ok c0 c → (current = 0 ∧ c0 = new_file ∨ 1 <= current <= user_version c) →
  probe ∈ foreign_probes current → probe c = false.
Proof.
  intros [[-> _]|(Hv & Hs & _)] Hc Hin.
  - destruct Hc as [[-> _]|Hc]; [by apply probes_new|simpl in Hc; lia].
  - eapply probes_supported; [done| |done]. destruct Hc as [[-> _]|Hc]; lia.
Qed.

Lemma migrating_step c0 c a k : file_ok c0 c → 1 <= k <= 6 → k <= user_version c →
  ∃ c', migrate_from (a_minted_epoch a) k c = (Ok tt, c') ∧ file_ok c0 c' ∧ advances c c' ∧ k + 1 <= user_version c'.
Proof.
  intros [[-> _]|(Hv & Hs & H0)] Hk Hle; [simpl in Hle; lia|].
  destruct (step_lands (a_minted_epoch a) k Hk c _ Hs eq_refl Hle) as (c' & E & Hs' & Hv' & Hg).
  exists c'. rewrite <-Hv' in Hs'. split; [done|]. split; [right; split; [lia|]; split; [done|]|].
  - destruct H0 as [[? ?]|[? ?]]; [left; split; [done|lia]|right; split; [lia|by etrans]].
  - split; [split; [lia|done]|lia].
Qed.

Lemma opener_step_ok c0 c a p p' c' : file_ok c0 c → opener_ok c0 c a p → opener_step a p c = (p', c') →
  file_ok c0 c' ∧ opener_ok c0 c' a p' ∧ advances c c'.
Proof.
  intros Hf Hp E. destruct p as [|current [|probe rest]| |[|v from]|rest|m|e]; simpl in E.
  - injection E as <- <-. split; [done|]. split; [|apply advances_refl]. split; [done|].
    destruct Hf as [[-> ->]|(? & _)]; [by left|right; lia].
  - injection E as <- <-. split; [done|]. split; [|apply advances_refl]. destruct Hp as [_ [[-> ?]|Hc]]; [done|].
    assert (current <= 7) by (destruct Hf as [[-> _]|[? _]]; simpl in *; lia).
    rewrite dispatch_range by lia. destruct (decide (current = 7)) as [->|Hne]; [exists 7; split_and!; (done || lia)|].
    rewrite seqZ_cons by lia. exists current. rewrite (seqZ_cons current) by lia. split_and!; (done || lia).
  - destruct Hp as [Hin Hc]. rewrite (probe_false c0 c current probe Hf Hc) in E by set_solver. injection E as <- <-.
    split; [done|]. split; [|apply advances_refl]. split; [set_solver|done].
  - destruct Hf as [[-> ->]|(Hv & Hs & H0)].
    + rewrite create_new in E. injection E as <- <-. split; [right; split; [done|]; split; [apply created_supported|by left]|].
      split; [|by split; [|simpl; lia]]. split; [done|apply created_rehydrate].
    + rewrite (create_twice _ _ _ _ _ Hs) in E by lia. injection E as <- <-. split; [by right|]. by split; [|apply advances_refl].
  - injection E as <- <-. destruct Hp as (k & Hk & Hs & _). rewrite seqZ_cons in Hs by lia. done.
  - destruct Hp as (k & Hk & Hs & Hle). rewrite seqZ_cons in Hs by lia. injection Hs as -> ->.
    destruct (migrating_step c0 c a k Hf Hk Hle) as (c1 & E1 & Hf1 & Ha & Hv). rewrite E1 in E. injection E as <- <-.
    split; [done|]. split; [|done]. exists (Z.succ k). split_and!; [lia|lia|f_equal; lia|lia].
  - destruct Hp as (k & Hk & -> & Hle). destruct Hf as [[-> _]|(Hv & Hs & H0)]; [simpl in Hle; lia|].
    destruct (rehydrate_supported _ (a_instance a) c Hs ltac:(lia)) as [m Hm]. rewrite Hm in E. injection E as <- <-.
    split; [by right|]. split; [|apply advances_refl]. destruct (decide (k = 7)) as [->|Hne]; [split; [lia|done]|].
    rewrite (seqZ_cons k) by lia. exists k. rewrite (seqZ_cons k) by lia. split_and!; (done || lia).
  - injection E as <- <-. split; [done|]. split; [done|apply advances_refl].
  - injection E as <- <-. split; [done|]. split; [done|apply advances_refl].
Qed.

Definition openers_ok (c0 : Catalog) (s : list (args * opener) * Catalog) : Prop :=
  file_ok c0 s.2 ∧ ∀ i a p, s.1 !! i = Some (a, p) → opener_ok c0 s.2 a p.

Lemma openers_step_ok c0 s s' : openers_step s s' → openers_ok c0 s → openers_ok c0 s'.
Proof.
  intros Hstep [Hf Hp]. destruct Hstep as [ps c i a p p' c' Hi E|ps c i a p Hi _]; simpl in *.
  - destruct (opener_step_ok c0 c a p p' c' Hf (Hp i a p Hi) E) as (Hf' & Hp' & Ha). split; [done|]. simpl. intros j b q Hj.
    destruct (decide (j = i)) as [->|Hne].
    + rewrite list_lookup_insert_eq in Hj by (by eapply lookup_lt_Some). by injection Hj as <- <-.
    + rewrite list_lookup_insert_ne in Hj by done. eapply opener_ok_advances; [done..|by eapply Hp].
  - split; [done|]. simpl. intros j b q Hj. destruct (decide (j = i)) as [->|Hne].
    + rewrite list_lookup_insert_eq in Hj by (by eapply lookup_lt_Some). by injection Hj as <- <-.
    + rewrite list_lookup_insert_ne in Hj by done. by eapply Hp.
Qed.

Lemma openers_reach_ok c0 s s' : rtc openers_step s s' → openers_ok c0 s → openers_ok c0 s'.
Proof. induction 1 as [|s1 s2 s3 Hs _ IH]; [done|]. intros H. by apply IH, (openers_step_ok c0 s1). Qed.

(** One process left to itself. *)
Fixpoint alone (a : args) (n : nat) (p : opener) (c : Catalog) : opener * Catalog :=
  match n with O => (p, c) | S n' => let '(p', c') := opener_step a p c in alone a n' p' c' end.

Lemma alone_rtc a n i p c ps : ps !! i = Some (a, p) →
  rtc openers_step (ps, c) (<[i := (a, (alone a n p c).1)]> ps, (alone a n p c).2).
Proof.
  revert p c ps. induction n as [|n IH]; intros p c ps Hi; simpl; [by rewrite list_insert_id|].
  destruct (opener_step a p c) as [p' c'] eqn:E. eapply rtc_l; [by eapply op_run|].
  etrans; [apply (IH p' c' (<[i := (a, p')]> ps)); apply list_lookup_insert_eq; by eapply lookup_lt_Some|].
  by rewrite list_insert_insert_eq.
Qed.

(** ** A file on disk, decided *)
Definition supportedb (v : Z) (c : Catalog) : bool :=
  forallb (λ e : string * (Z * gset string), match tables c !! e.1 with
    | None => bool_decide (v < e.2.1)
    | Some h => bool_decide (h ⊆ e.2.2) && forallb (λ x, negb (column_since e.1 x <=? v)%Z || bool_decide (x ∈ h)) (elements e.2.2)
    end) schema &&
  forallb (λ i : string * Z, negb (i.2 <=? v)%Z || bool_decide (i.1 ∈ indexes c)) schema_indexes &&
  bool_decide (is_Some (row_instance_id c)) && bool_decide (is_Some (row_sequence_number c)) &&
  (negb (2 <=? v)%Z || bool_decide (is_Some (row_coordinator_epoch c))) &&
  bool_decide (row_schema_runtime c = None ∨ row_schema_runtime c = Some SCHEMA_RUNTIME_STAMP).
Lemma supportedb_ok v c : supportedb v c = true → supported v c.
Proof.
  unfold supportedb. rewrite !andb_true_iff, !forallb_forall, !bool_decide_eq_true. intros [[[[[Ht Hi] H1] H2] H3] H4]. split; try done.
  - intros t n cols Hin. apply list_elem_of_In in Hin. specialize (Ht _ Hin). unfold table_ok. cbn [fst snd] in Ht.
    destruct (tables c !! t) as [h|]; [|by apply bool_decide_eq_true in Ht]. rewrite andb_true_iff, forallb_forall, bool_decide_eq_true in Ht.
    destruct Ht as [Hs Hx]. split; [done|]. intros x Hxc Hle. specialize (Hx x). rewrite <-list_elem_of_In in Hx.
    specialize (Hx ltac:(by apply elem_of_elements)). apply orb_true_iff in Hx as [Hx|Hx]; [|by apply bool_decide_eq_true in Hx].
    apply negb_true_iff in Hx. lia.
  - intros x n Hin Hle. apply list_elem_of_In in Hin. specialize (Hi _ Hin). apply orb_true_iff in Hi as [Hi|Hi]; [|by apply bool_decide_eq_true in Hi].
    apply negb_true_iff in Hi. simpl in Hi. lia.
  - intros Hv. apply orb_true_iff in H3 as [H3|H3]; [apply negb_true_iff in H3; lia|by apply bool_decide_eq_true in H3].
Qed.

(** A version 1 file with the notices shim and without the fence columns. *)
Definition old_file : Catalog := mkCatalog 1
  (list_to_map [("artifacts", artifacts_columns ∖ {["owner_generation"]});
                ("agent_states", agent_states_columns ∖ {["read_generation"; "last_observed_version"]});
                ("heartbeats", heartbeats_columns); ("registry_meta", registry_meta_columns); ("pending_notices", pending_notices_columns)])
  {["idx_artifacts_name"]} (Some "instance") (Some 5) None None.
Lemma old_file_ok : start_ok old_file.
Proof. right. split; [done|]. apply supportedb_ok. vm_compute. reflexivity. Qed.

(** ** One opener, start to end *)
Lemma existsb_false_iff {A} (f : A → bool) l : existsb f l = false ↔ ∀ x, x ∈ l → f x = false.
Proof.
  induction l as [|y l IH]; simpl; [split; [by intros _ x ?%not_elem_of_nil|done]|]. rewrite orb_false_iff, IH. set_solver.
Qed.
Lemma chain_cons inst e v rest c c1 m1 : migrate_from e v c = (Ok tt, c1) → rehydrate inst c1 = Ok m1 →
  chain inst e (v :: rest) c = chain inst e rest c1.
Proof. intros E Hm. destruct rest; simpl; unfold mbind, proc_bind, rehydrate_sm; rewrite E; [done|]. by rewrite Hm. Qed.

Lemma chain_lands inst e (n : nat) k c : k = 7 - Z.of_nat n → 1 <= k → k <= user_version c <= 7 → supported (user_version c) c →
  ∃ m c', chain inst e (seqZ k (Z.of_nat n)) c = (Ok m, c') ∧ complete c' ∧ grows c c' ∧ rehydrate inst c' = Ok m.
Proof.
  revert k c. induction n as [|n IH]; intros k c -> Hk Hle Hs.
  - destruct (rehydrate_supported _ inst c Hs ltac:(lia)) as [m Hm]. exists m, c. simpl. unfold rehydrate_sm. rewrite Hm.
    split; [done|]. split; [|done]. assert (user_version c = 7) as Hv by lia. apply supported_complete; [by rewrite <-Hv|done].
  - destruct (step_lands e (7 - Z.of_nat (S n)) ltac:(lia) c _ Hs eq_refl ltac:(lia)) as (c1 & E & Hs1 & Hv1 & Hg).
    rewrite <-Hv1 in Hs1. destruct (rehydrate_supported _ inst c1 Hs1 ltac:(lia)) as [m1 Hm1].
    rewrite seqZ_cons by lia. rewrite (chain_cons _ _ _ _ _ _ _ E Hm1).
    replace (Z.succ (7 - Z.of_nat (S n))) with (7 - Z.of_nat n) by lia. replace (Z.pred (Z.of_nat (S n))) with (Z.of_nat n) by lia.
    destruct (IH (7 - Z.of_nat n) c1) as (m & c' & Hc & Hcomp & Hg' & Hm); [done|lia|lia|done|].
    exists m, c'. split; [done|]. split; [done|]. split; [by etrans|done].
Qed.

(** Opening a new or supported file returns a handle on the complete current schema,
    and keeps what the file held. *)
Theorem initialize_schema_opens inst i e c0 : start_ok c0 →
  ∃ m c, initialize_schema inst i e c0 = (Ok m, c) ∧ complete c ∧ rehydrate inst c = Ok m ∧ (c0 ≠ new_file → grows c0 c).
Proof.
  intros H0. unfold initialize_schema, mbind, proc_bind, gets, reject_foreign_ledger_db. destruct H0 as [->|[Hv Hs]].
  - rewrite (proj2 (existsb_false_iff _ _)) by (intros p Hp; by apply probes_new). cbn [user_version new_file].
    change (dispatch 0) with PCreate. cbn iota.
    exists (mkMeta (default i inst) 0 e), (created (default i inst) e). split; [apply create_new|].
    split; [apply supported_complete; [apply created_supported|done]|]. split; [apply created_rehydrate|done].
  - rewrite (proj2 (existsb_false_iff _ _)) by (intros p Hp; by eapply probes_supported). rewrite dispatch_range by done.
    destruct (chain_lands inst e (Z.to_nat (7 - user_version c0)) (user_version c0) c0) as (m & c & Hc & Hcomp & Hg & Hm); [lia|lia|lia|done|].
    rewrite Z2Nat.id in Hc by lia. exists m, c. auto.
Qed.

(** ** The steps of one opener are the method

    Left to itself, a process ends where [initialize_schema] ends. *)
Definition ended (r : outcome exn Meta * Catalog) : opener * Catalog :=
  (match r.1 with Ok m => Opened m | Raise e => Failed (Some e) end, r.2).

Lemma alone_app a n m p c : alone a (n + m) p c = let '(p', c') := alone a n p c in alone a m p' c'.
Proof. revert p c. induction n as [|n IH]; intros p c; simpl; [done|]. destruct (opener_step a p c) as [p' c']. apply IH. Qed.

Lemma alone_probes a current c rest : existsb (λ p, p c) rest = false →
  alone a (length rest) (Probing current rest) c = (Probing current [], c).
Proof.
  induction rest as [|probe rest IH]; simpl; [done|]. intros [-> Hr]%orb_false_iff. by apply IH.
Qed.
Lemma alone_foreign a current c rest : existsb (λ p, p c) rest = true →
  ∃ n, alone a n (Probing current rest) c = (Failed (Some CrossRuntimeSchemaError), c).
Proof.
  induction rest as [|probe rest IH]; simpl; [done|]. destruct (probe c) eqn:E; simpl.
  - intros _. exists 1%nat. simpl. by rewrite E.
  - intros [n Hn]%IH. exists (S n). simpl. by rewrite E.
Qed.

Lemma alone_chain a from c : from ≠ [] → ∃ n, alone a n (Migrating from) c = ended (chain (a_instance a) (a_minted_epoch a) from c).
Proof.
  revert c. induction from as [|v from IH]; intros c Hne; [done|].
  destruct (migrate_from (a_minted_epoch a) v c) as [[[]|e] c1] eqn:E.
  - destruct from as [|w from].
    + exists 2%nat. simpl. unfold mbind, proc_bind, rehydrate_sm. rewrite E. simpl. by destruct (rehydrate (a_instance a) c1).
    + destruct (rehydrate (a_instance a) c1) as [m|e] eqn:Er.
      * destruct (IH c1 ltac:(done)) as [n Hn]. exists (2 + n)%nat. rewrite (chain_cons _ _ _ _ _ _ _ E Er), <-Hn.
        simpl. rewrite E. simpl. by rewrite Er.
      * exists 2%nat. cbn [chain alone opener_step]. unfold mbind, proc_bind, rehydrate_sm. rewrite E. cbn. by rewrite Er.
  - exists 1%nat. destruct from; simpl; unfold mbind, proc_bind; by rewrite E.
Qed.

Lemma alone_initialize a c : ∃ n, alone a n Start c = ended (initialize_schema (a_instance a) (a_minted_id a) (a_minted_epoch a) c).
Proof.
  unfold initialize_schema, mbind, proc_bind, gets, reject_foreign_ledger_db.
  destruct (existsb (λ p, p c) (foreign_probes (user_version c))) eqn:Ef.
  - destruct (alone_foreign a (user_version c) c _ Ef) as [n Hn]. by exists (S n).
  - assert (∀ q, (∃ n, alone a n (opener_step a (Probing (user_version c) []) c).1 c = q) → ∃ n, alone a n Start c = q) as Hgo.
    { intros q [n Hn]. exists (1 + (length (foreign_probes (user_version c)) + (1 + n)))%nat. rewrite alone_app.
      change (alone a 1 Start c) with (Probing (user_version c) (foreign_probes (user_version c)), c). cbv beta iota.
      rewrite alone_app, alone_probes by done. rewrite <-Hn. simpl. by destruct (dispatch _) as [|[]|]. }
    apply Hgo. simpl. destruct (dispatch (user_version c)) as [|[|v from]|].
    + exists 1%nat. simpl. by destruct (apply_v2_schema _ _ _ c) as [[m|e] c'].
    + exists 1%nat. simpl. unfold rehydrate_sm. by destruct (rehydrate _ c).
    + by apply alone_chain.
    + by exists 0%nat.
Qed.

(** C6 (concurrent migration): any number of processes open a file, new or left by any earlier
    version (with or without the shims), their reads and transactions interleaved in
    any order, some of them killed at any point.  Every process that gets its handle
    finds the complete current schema, the same one a fresh file gets, with every
    table, index and identity row the file had kept; all of them read the same epoch
    and sequence number.  Only the creation of a new file can turn a process away. *)
Theorem concurrent_openers_agree c0 ps0 ps c : start_ok c0 → (∀ a p, (a, p) ∈ ps0 → p = Start) → rtc openers_step (ps0, c0) (ps, c) →
  (∀ a m, (a, Opened m) ∈ ps → complete c ∧ rehydrate (a_instance a) c = Ok m) ∧
  (c0 ≠ new_file → grows c0 c ∧ ∀ a e, (a, Failed (Some e)) ∉ ps) ∧
  (∀ a e, (a, Failed (Some e)) ∈ ps → e = OperationalError "table already exists").
Proof.
  intros H0 Hps Hr. destruct (openers_reach_ok c0 _ _ Hr) as [Hf Hp].
  { split; simpl.
    - destruct H0 as [->|[? ?]]; [by left|]. right. split; [done|]. split; [done|]. by right.
    - intros i a p Hi. by rewrite (Hps a p) by (by eapply list_elem_of_lookup_2). }
  simpl in *. split_and!.
  - intros a m [i Hi]%list_elem_of_lookup. destruct (Hp i _ _ Hi) as [Hv Hm]. split; [|done].
    destruct Hf as [[-> _]|(_ & Hs & _)]; [done|]. apply supported_complete; [by rewrite <-Hv|done].
  - intros Hne. split; [by destruct Hf as [[_ ?]|(_ & _ & [[? _]|[_ ?]])]|].
    intros a e [i Hi]%list_elem_of_lookup. by destruct (Hp i _ _ Hi).
  - intros a e [i Hi]%list_elem_of_lookup. by destruct (Hp i _ _ Hi).
Qed.

Lemma concurrent_openers_agree_witness : ∃ a b ps c m, start_ok old_file ∧ rtc openers_step ([(a, Start); (b, Start)], old_file) (ps, c) ∧
  (a, Opened m) ∈ ps ∧ (b, Opened m) ∈ ps ∧ complete c ∧ mt_seq m = 5 ∧ grows old_file c.
Proof.
  set (a := mkArgs None "i1" "e1"). set (b := mkArgs None "i2" "e2").
  set (half := alone a 12 Start old_file). set (whole := alone b 30 Start half.2). set (last := alone a 30 half.1 whole.2).
  exists a, b, [(a, last.1); (b, whole.1)], last.2, (mkMeta "instance" 5 "e1").
  assert (rtc openers_step ([(a, Start); (b, Start)], old_file) ([(a, last.1); (b, whole.1)], last.2)) as Hr.
  { etrans; [apply (alone_rtc a 12 0 Start); reflexivity|]. etrans; [apply (alone_rtc b 30 1 Start); reflexivity|].
    apply (alone_rtc a 30 0 half.1 whole.2 [(a, half.1); (b, whole.1)]). reflexivity. }
  assert (last.1 = Opened (mkMeta "instance" 5 "e1")) as Ha by (vm_compute; reflexivity).
  assert (whole.1 = Opened (mkMeta "instance" 5 "e1")) as Hb by (vm_compute; reflexivity).
  destruct (concurrent_openers_agree old_file [(a, Start); (b, Start)] [(a, last.1); (b, whole.1)] last.2) as (H1 & H2 & _).
  { apply old_file_ok. }
  { intros x p [[= _ ->]|[[= _ ->]|[]%not_elem_of_nil]%elem_of_cons]%elem_of_cons; reflexivity. }
  { exact Hr. }
  split; [apply old_file_ok|]. split; [exact Hr|]. rewrite Ha, Hb in *. split; [left|]. split; [right; left|].
  split; [apply (H1 a (mkMeta "instance" 5 "e1")); left|]. split; [reflexivity|]. apply H2. discriminate.
Defined.

(** C40 (creation race): two processes that open the same new file at once do not both
    succeed: both read version 0, one creates the schema, and the other fails on the
    first CREATE TABLE, because the creation alone does not look at the version again
    under the write lock. *)
Theorem creation_race_turns_away : ∃ a b ps c, rtc openers_step ([(a, Start); (b, Start)], new_file) (ps, c) ∧
  complete c ∧ ps !! 1%nat = Some (b, Failed (Some (OperationalError "table already exists"))).
Proof.
  set (a := mkArgs None "i1" "e1"). set (b := mkArgs None "i2" "e2").
  exists a, b, [(a, Opened (mkMeta "i1" 0 "e1")); (b, Failed (Some (OperationalError "table already exists")))], (created "i1" "e1").
  split; [|split; [apply supported_complete; [apply created_supported|done]|done]].
  etrans; [apply (alone_rtc a 7 0 Start); done|]. etrans; [apply (alone_rtc b 7 1 Start); done|].
  change (rtc openers_step ([(a, Creating); (b, Creating)], new_file)
    ([(a, Opened (mkMeta "i1" 0 "e1")); (b, Failed (Some (OperationalError "table already exists")))], created "i1" "e1")).
  eapply rtc_l; [eapply (op_run _ _ 0); [done|unfold opener_step; by rewrite create_new]|].
  eapply rtc_l; [eapply (op_run _ _ 1); [done|unfold opener_step; by rewrite (create_twice _ _ _ _ 7) by (done || apply created_supported)]|].
  done.
Qed.
