(* ===== verification/Substrate.v ===== *)
(** Substrates and what surrounds them: [src/ccs/core/substrate.py], the contract types
    of [src/ccs/adapters/substrate.py], and the outside world.

    [Env] gathers the calls that leave the program: the S3 client (boto3) and the
    file seam of the workspace engine ([FileRestoreTarget], [FileContentResolver]).
    Its instances are arbitrary functions on a state of their own, so a call may answer
    anything, fail in any way, and let any number of foreign writers act; [World] adds
    the record of the calls made. *)
From S2P Require Import Prelude Core Hashing.

Open Scope Z_scope.
Open Scope string_scope.

(** [sha256_hex]; bytes are strings. *)
Definition sha256_hex (data : string) : string := hexdigest (Sha256.digest (bytes_of_string data)).

(** ** Tiers *)
Inductive Tier : Type := NATIVE_CAS | DETECT_ONLY | FORWARD_ONLY.
Inductive RestoreTier : Type := RESTORABLE | RESTORABLE_UNPINNED | TIER_FORWARD_ONLY.
Inductive ArbitrationTier : Type := ARB_NATIVE_CAS | ARB_NO_ARBITER.
Inductive DurabilityRegime : Type := IN_PROCESS | PROCESS_CRASH | OS_CRASH.
#[export] Instance tier_eq_dec : EqDecision Tier.
Proof. solve_decision. Defined.
#[export] Instance restore_tier_eq_dec : EqDecision RestoreTier.
Proof. solve_decision. Defined.

Definition restore_tier_value (t : RestoreTier) : string :=
  match t with
  | RESTORABLE => "restorable"
  | RESTORABLE_UNPINNED => "restorable-unpinned"
  | TIER_FORWARD_ONLY => "forward_only"
  end.
Definition arbitration_tier_value (t : ArbitrationTier) : string :=
  match t with ARB_NATIVE_CAS => "native-cas" | ARB_NO_ARBITER => "no-arbiter" end.

Definition derive_restore_tier (versioned pinnable : bool) : RestoreTier :=
  if negb versioned then TIER_FORWARD_ONLY
  else if pinnable then RESTORABLE else RESTORABLE_UNPINNED.

Record CapabilityDescriptor := mkDescriptor {
  cd_tier : Tier;
  cd_version_source : option string;
  cd_versioned_pinnable : bool;
  cd_restore_tier : option RestoreTier;
  cd_arbitration_tier : option ArbitrationTier;
  cd_durability_regime : option DurabilityRegime;
  cd_durability_facts : string;
}.

(** [CapabilityDescriptor.__post_init__]. *)
Definition descriptor_init (d : CapabilityDescriptor) : outcome exn CapabilityDescriptor :=
  if bool_decide (cd_tier d = FORWARD_ONLY ∧ cd_version_source d ≠ None)
  then Raise (ValueError "forward_only forbids a version_source")
  else if bool_decide (cd_tier d = NATIVE_CAS ∧ cd_version_source d = None)
  then Raise (ValueError "native_cas requires a version_source")
  else if bool_decide (cd_restore_tier d = Some RESTORABLE) && negb (cd_versioned_pinnable d)
  then Raise (ValueError "restore_tier 'restorable' requires versioned_pinnable=True")
  else if bool_decide (cd_durability_facts d ≠ "") && match cd_durability_regime d with None => true | Some _ => false end
  then Raise (ValueError "durability_facts requires a declared durability_regime")
  else Ok d.

(** ** Never ship a store

    The values a payload is made of; mapping keys are strings. *)
#[warnings="-register-all"]
Inductive pyval : Type :=
| VMap (entries : list (string * pyval))
| VBytes (data : string)
| VStr (text : string)
| VSeq (items : list pyval)
| VInt (n : Z)
| VNone
| VScalar
| VOther.

(** [len] of a Python string held as UTF-8: bytes that do not continue a character. *)
Fixpoint text_len (s : string) : Z :=
  match s with
  | "" => 0
  | String c s' => let n := Ascii.N_of_ascii c in
                   (if ((128 <=? n) && (n <? 192))%N then 0 else 1) + text_len s'
  end.

Definition CONTENT_FIELD_NAMES : list string := ["content"; "body"; "compressed_body"; "diff"; "sample"].
Definition MAX_OPAQUE_TEXT_LEN : Z := 256.
Definition MAX_COLLECTION_LEN : Z := 256.
Definition MAX_INT_BITS : Z := 64.

Definition bit_length (n : Z) : Z := if bool_decide (n = 0) then 0 else Z.log2 (Z.abs n) + 1.

(** [_SHA256_HEX_RE.match]: 64 lower-case hexadecimal digits and nothing else. *)
Fixpoint all_hex (s : string) : bool :=
  match s with
  | "" => true
  | String c s' => let n := Ascii.N_of_ascii c in
                   ((48 <=? n) && (n <=? 57) || (97 <=? n) && (n <=? 102))%N && all_hex s'
  end.
Definition is_sha256_hex (s : string) : bool := bool_decide (String.length s = 64%nat) && all_hex s.

(** The violations, by their reason ([_walk_violations], [_mapping_violations]). *)
Fixpoint walk_violations (v : pyval) : list string :=
  match v with
  | VMap entries =>
    flat_map (λ kv : string * pyval,
      let '(key, item) := kv in
      if bool_decide (key ∈ CONTENT_FIELD_NAMES) then
        match item with VNone => [] | _ => ["content-proportional field"] end
      else if bool_decide (key = "content_hash") then
        match item with
        | VNone => []
        | VStr s => if is_sha256_hex s then [] else ["fingerprint must be a fixed-width sha-256 hex digest"]
        | _ => ["fingerprint must be a fixed-width sha-256 hex digest"]
        end
      else walk_violations item) entries
  | VBytes _ => ["raw bytes are content"]
  | VStr text => if bool_decide (MAX_OPAQUE_TEXT_LEN < text_len text) then ["text too long"] else []
  | VSeq items =>
    if bool_decide (MAX_COLLECTION_LEN < Z.of_nat (length items)) then ["collection too long"]
    else flat_map walk_violations items
  | VInt n => if bool_decide (MAX_INT_BITS < bit_length n) then ["integer too wide"] else []
  | VNone | VScalar => []
  | VOther => ["unrecognized value type"]
  end.
Definition never_ship_violations (state : list (string * pyval)) : list string := walk_violations (VMap state).
Definition never_ship_a_store (state : list (string * pyval)) : bool := bool_decide (never_ship_violations state = []).

Definition retained_rows_for {Row} (artifact_id : Row → UUID) (rows : list Row) (ids : list UUID) : list Row :=
  filter (λ row, artifact_id row ∈ ids) rows.
Definition retention_is_empty_for {Row} (artifact_id : Row → UUID) (rows : list Row) (ids : list UUID) : bool :=
  bool_decide (length (retained_rows_for artifact_id rows ids) = 0%nat).

(** ** Outcomes of a conditional write ([adapters/substrate.py]) *)
Inductive CasWriteResult : Type :=
| CasWritten (token : string)
| CasLost
| CasUnknown.

Inductive ReconcileVerdict : Type := CONVERGE | RE_DERIVE | RE_DRIVE | CONFLICT | HOLD.
#[export] Instance verdict_eq_dec : EqDecision ReconcileVerdict.
Proof. solve_decision. Defined.

Record ReconcileDecision := mkDecision {
  rd_verdict : ReconcileVerdict;
  rd_observed_bytes : option string;
  rd_observed_token : option string;
}.
Definition bump_fires (d : ReconcileDecision) : bool := bool_decide (rd_verdict d = CONVERGE).
Definition re_drive_token (d : ReconcileDecision) : option string :=
  if bool_decide (rd_verdict d = RE_DRIVE) then rd_observed_token d else None.

(** ** The world outside *)
Inductive put_condition : Type :=
| IfMatch (etag : string)
| IfNoneMatch.

(** What the code reads of an S3 response. *)
Record S3Response := mkResponse {
  r_body : string;
  r_etag : option string;
  r_version_id : option string;
  r_delete_marker : bool;
  r_legal_hold : option string;
}.

Class Env (E : Type) := {
  srv_get_object : string → string → option string → proc exn E S3Response;
  srv_put_object : string → string → put_condition → string → proc exn E S3Response;
  srv_delete_object : string → string → proc exn E S3Response;
  srv_put_legal_hold : string → string → string → string → proc exn E unit;
  srv_get_legal_hold : string → string → string → proc exn E S3Response;
  srv_read_with_version : string → proc exn E (string * Z);
  srv_write_cas_at : string → Z → string → proc exn E unit;
  srv_content_at : string → Z → proc exn E string;
}.

Inductive event : Type :=
| EGet (bucket key : string) (version : option string) (o : outcome exn S3Response)
| EPut (bucket key : string) (cond : put_condition) (data : string) (o : outcome exn S3Response)
| EDelete (bucket key : string) (o : outcome exn S3Response)
| EHold (bucket key version status : string) (o : outcome exn unit)
| EHoldStatus (bucket key version : string) (o : outcome exn S3Response)
| EFileRead (path : string) (o : outcome exn (string * Z))
| EFileWrite (path : string) (expected : Z) (data : string) (o : outcome exn unit)
| EContentAt (path : string) (version : Z) (o : outcome exn string).

Record World (E : Type) := mkWorld { w_env : E; w_events : list event }.
Arguments mkWorld {_} _ _.
Arguments w_env {_} _.
Arguments w_events {_} _.

Section world.
Context {E : Type} `{!Env E}.

Definition WM (A : Type) : Type := proc exn (World E) A.

Definition call {A} (m : proc exn E A) (ev : outcome exn A → event) : WM A := λ w,
  let '(o, e) := m (w_env w) in (o, mkWorld e (w_events w ++ [ev o])%list).

Definition get_object (bucket key : string) (version : option string) : WM S3Response :=
  call (srv_get_object bucket key version) (EGet bucket key version).
Definition put_object (bucket key : string) (cond : put_condition) (data : string) : WM S3Response :=
  call (srv_put_object bucket key cond data) (EPut bucket key cond data).
Definition delete_object (bucket key : string) : WM S3Response :=
  call (srv_delete_object bucket key) (EDelete bucket key).
Definition put_object_legal_hold (bucket key version status : string) : WM unit :=
  call (srv_put_legal_hold bucket key version status) (EHold bucket key version status).
Definition get_object_legal_hold (bucket key version : string) : WM S3Response :=
  call (srv_get_legal_hold bucket key version) (EHoldStatus bucket key version).
Definition read_with_version (path : string) : WM (string * Z) :=
  call (srv_read_with_version path) (EFileRead path).
Definition write_cas_at (path : string) (expected : Z) (data : string) : WM unit :=
  call (srv_write_cas_at path expected data) (EFileWrite path expected data).
Definition content_at (path : string) (version : Z) : WM string :=
  call (srv_content_at path version) (EContentAt path version).
End world.
