(* ===== verification/ObjectStore.v ===== *)
(** The S3 binding: [src/ccs/adapters/coherent_object.py].

    Each method of [CoherentObject] issues calls of the S3 client through [World] and
    classifies what comes back.  The identity of a self-owned client (dropped and
    rebuilt after a transport failure) is not part of the model: every call goes to
    the client there is. *)
From S2P Require Import Prelude Core Hashing Checkpoints Substrate.

Open Scope Z_scope.
Open Scope string_scope.

(** The token that asks for a creation; it holds NUL bytes, which no ETag does. *)
Definition NUL : string := String (Ascii.ascii_of_N 0) "".
Definition CREATE_IF_ABSENT : string := NUL ++ "ccs-create-if-absent" ++ NUL.
Definition CODE_PRECONDITION_FAILED := "PreconditionFailed".
Definition CODE_CONDITIONAL_CONFLICT := "ConditionalRequestConflict".
Definition NOT_FOUND_CODES : list string := ["NoSuchKey"; "NoSuchVersion"; "404"].
Definition NULL_VERSION_ID := "null".
Definition MAX_RETRYABLE_PUT_ATTEMPTS : nat := 8.

(** ** Classifying failures *)
Definition s3_error_code (e : exn) : option string :=
  match e with ClientError code => Some code | _ => None end.

Inductive S3PutOutcome : Type := PUT_WON | PUT_CONFLICT | PUT_RETRYABLE | PUT_RACED_DELETE | PUT_UNKNOWN.

Definition classify_put_exception (e : exn) : option S3PutOutcome :=
  match s3_error_code e with
  | None => Some PUT_UNKNOWN
  | Some code =>
    if bool_decide (code = CODE_PRECONDITION_FAILED) then Some PUT_CONFLICT
    else if bool_decide (code = CODE_CONDITIONAL_CONFLICT) then Some PUT_RETRYABLE
    else if bool_decide (code ∈ NOT_FOUND_CODES) then Some PUT_RACED_DELETE
    else None
  end.

Definition cas_result_for_outcome (o : S3PutOutcome) : CasWriteResult :=
  match o with PUT_UNKNOWN => CasUnknown | _ => CasLost end.

(** [except Exception] lets a [KeyboardInterrupt] through. *)
Definition is_exception (e : exn) : bool := match e with KeyboardInterrupt => false | _ => true end.

(** ** Responses *)
Definition require_response_etag (resp : S3Response) : outcome exn string :=
  match r_etag resp with
  | Some etag => if bool_decide (etag = "") then Raise (CoherenceError "S3 response carried no ETag") else Ok etag
  | None => Raise (CoherenceError "S3 response carried no ETag")
  end.

Definition usable_version_id (v : option string) : option string :=
  match v with
  | Some v => if bool_decide (v = "" ∨ v = NULL_VERSION_ID) then None else Some v
  | None => None
  end.
Definition require_response_version_id (resp : S3Response) : outcome exn string :=
  match usable_version_id (r_version_id resp) with
  | Some v => Ok v
  | None => Raise (VersionPointerUnconfirmed None)
  end.
Definition require_usable_version_pointer (v : string) : outcome exn string :=
  if is_blank v || bool_decide (v = NULL_VERSION_ID) then Raise (VersionPointerUnconfirmed None) else Ok v.
Definition require_usable_token (token : string) : outcome exn string :=
  if is_blank token then Raise (CoherenceError "unusable substrate token") else Ok token.

(** [_put_kwargs]: the condition of the put. *)
Definition put_kwargs (expected_token : string) : outcome exn put_condition :=
  if bool_decide (expected_token = CREATE_IF_ABSENT) then Ok IfNoneMatch
  else match require_usable_token expected_token with Ok t => Ok (IfMatch t) | Raise e => Raise e end.

Record VersionedObjectRead := mkVersionedRead { vr_data : string; vr_etag : string; vr_version_id : string }.

Inductive VersionedCasResult : Type :=
| VersionedCasWritten (etag version_id : string)
| VersionedLost
| VersionedUnknown.

Record ObjectDeletion := mkDeletion { od_delete_marker : bool; od_version_id : option string }.

Section binding.
Context {E : Type} `{!Env E} (bucket : string).
Local Abbreviation M := (@WM E).

Definition get_object_typed (ref : string) (version : option string) : M S3Response :=
  catch (get_object bucket ref version) (λ e,
    match s3_error_code e with
    | Some code => if bool_decide (code ∈ NOT_FOUND_CODES) then raise (KeyError "no object") else raise e
    | None => raise e
    end).

Definition read (ref : string) : M (string * string) :=
  resp ← get_object_typed ref None;
  etag ← of_outcome (require_response_etag resp);
  mret (r_body resp, etag).

Definition versioned_of (resp : S3Response) : M VersionedObjectRead :=
  etag ← of_outcome (require_response_etag resp);
  version ← of_outcome (require_response_version_id resp);
  mret (mkVersionedRead (r_body resp) etag version).
Definition read_versioned (ref : string) : M VersionedObjectRead :=
  resp ← get_object_typed ref None; versioned_of resp.
Definition read_pinned (ref version_id : string) : M VersionedObjectRead :=
  pointer ← of_outcome (require_usable_version_pointer version_id);
  resp ← get_object_typed ref (Some pointer);
  versioned_of resp.

Definition cas_write (ref expected_token new_bytes : string) : M CasWriteResult :=
  cond ← of_outcome (put_kwargs expected_token);
  catch (resp ← put_object bucket ref cond new_bytes;
         etag ← mret (require_response_etag resp);
         mret (inl etag : outcome exn string + CasWriteResult))
    (λ e, if is_exception e then
            match classify_put_exception e with
            | None => raise e
            | Some o => mret (inr (cas_result_for_outcome o))
            end
          else raise e) ≫= λ out,
  match out with
  | inl etag => etag ← of_outcome etag; mret (CasWritten etag)
  | inr res => mret res
  end.

Definition is_noop_write (current_hash intended_hash : string) : bool := bool_decide (current_hash = intended_hash).
Definition cas_write_if_changed (ref expected_token new_bytes current_hash : string) : M (option CasWriteResult) :=
  if is_noop_write current_hash (sha256_hex new_bytes) then mret None
  else res ← cas_write ref expected_token new_bytes; mret (Some res).

Definition reconcile_after_unknown (ref expected_token intended_hash : string) : M ReconcileDecision :=
  catch (seen ← read ref; mret (Some seen))
    (λ e, match e with KeyError _ => mret None | _ => raise e end) ≫= λ seen,
  mret match seen with
       | None => mkDecision HOLD None None
       | Some (data, token) =>
         mkDecision (if bool_decide (token = expected_token) then RE_DRIVE
                     else if bool_decide (sha256_hex data = intended_hash) then CONVERGE
                     else CONFLICT) (Some data) (Some token)
       end.

(** The retry loop of [cas_write_versioned]: [left] retries are allowed after this one,
    [attempts] were made before it. *)
Fixpoint put_loop (ref : string) (cond : put_condition) (new_bytes : string) (left : nat) (attempts : Z) : M VersionedCasResult := λ w,
  match put_object bucket ref cond new_bytes w with
  | (Ok resp, w) =>
    (etag ← of_outcome (require_response_etag resp);
     match usable_version_id (r_version_id resp) with
     | None => raise (VersionPointerUnconfirmed (Some etag))
     | Some v => mret (VersionedCasWritten etag v)
     end) w
  | (Raise e, w) =>
    if is_exception e then
      match classify_put_exception e with
      | None => (Raise e, w)
      | Some PUT_RETRYABLE =>
        match left with
        | O => (Raise (ConditionalPutRetriesExhausted (attempts + 1)), w)
        | S left' => put_loop ref cond new_bytes left' (attempts + 1) w
        end
      | Some PUT_UNKNOWN => (Ok VersionedUnknown, w)
      | Some _ => (Ok VersionedLost, w)
      end
    else (Raise e, w)
  end.
Definition cas_write_versioned (ref expected_token new_bytes : string) : M VersionedCasResult :=
  cond ← of_outcome (put_kwargs expected_token);
  put_loop ref cond new_bytes MAX_RETRYABLE_PUT_ATTEMPTS 0.

Definition delete (ref : string) : M ObjectDeletion :=
  resp ← delete_object bucket ref;
  mret (mkDeletion (r_delete_marker resp) (usable_version_id (r_version_id resp))).

Definition typed_legal_hold_error (e : exn) : exn :=
  match s3_error_code e with
  | Some code => if bool_decide (code = "InvalidRequest") then LegalHoldUnavailable
                 else if bool_decide (code ∈ NOT_FOUND_CODES) then KeyError "no object" else e
  | None => e
  end.
Definition put_legal_hold (ref version_id status : string) : M unit :=
  pointer ← of_outcome (require_usable_version_pointer version_id);
  catch (put_object_legal_hold bucket ref pointer status) (λ e, raise (typed_legal_hold_error e)).
Definition set_legal_hold (ref version_id : string) : M unit := put_legal_hold ref version_id "ON".
Definition release_legal_hold (ref version_id : string) : M unit := put_legal_hold ref version_id "OFF".
Definition legal_hold_status (ref version_id : string) : M bool :=
  pointer ← of_outcome (require_usable_version_pointer version_id);
  resp ← catch (get_object_legal_hold bucket ref pointer) (λ e, raise (typed_legal_hold_error e));
  mret (bool_decide (r_legal_hold resp = Some "ON")).
End binding.
