(* ===== verification/Workspace.v ===== *)
(** The workspace engine: [src/ccs/adapters/workspace.py].

    [WorkspaceVersioner] drives the members of a workspace through two seams: the
    coordinator service (the manifest operations of [Checkpoints]) and the outside
    world ([Substrate], [ObjectStore]).  [Site] holds both.  [Surroundings] is what the
    engine does not control between two of its calls: another party may change the
    registry, a call may fail before or after it takes effect (a transport fault, or the
    process killed, [KeyboardInterrupt]), the clock and the ids drawn.  A crash is a run that
    ends in an exception; the next run starts from the registry and the world it left.

    The [detail] texts of the outcomes are left out. *)
From stdpp Require Import pretty.
From S2P Require Import Prelude Core Registry Service Checkpoints Substrate ObjectStore.

Open Scope Z_scope.
Open Scope string_scope.

(** ** Text *)
Definition continuation (n : N) : bool := ((128 <=? n) && (n <=? 191))%N.

(** Well-formed UTF-8, as Python's strict decoder takes it. *)
Fixpoint utf8_bytes (l : list N) : bool :=
  match l with
  | [] => true
  | b :: l1 =>
    if (b <=? 127)%N then utf8_bytes l1 else
    match l1 with
    | [] => false
    | c :: l2 =>
      if ((194 <=? b) && (b <=? 223))%N then continuation c && utf8_bytes l2 else
      match l2 with
      | [] => false
      | d :: l3 =>
        if ((224 <=? b) && (b <=? 239))%N
        then ((if b =? 224 then (160 <=? c) && (c <=? 191)
               else if b =? 237 then (128 <=? c) && (c <=? 159) else continuation c) &&
              continuation d)%N && utf8_bytes l3
        else
        match l3 with
        | [] => false
        | e :: l4 =>
          if ((240 <=? b) && (b <=? 244))%N
          then ((if b =? 240 then (144 <=? c) && (c <=? 191)
                 else if b =? 244 then (128 <=? c) && (c <=? 143) else continuation c) &&
                continuation d && continuation e)%N && utf8_bytes l4
          else false
        end
      end
    end
  end.
Definition is_utf8 (data : string) : bool :=
  utf8_bytes (map Ascii.N_of_ascii (String.list_ascii_of_string data)).

(** [str(n)] and [int(s)]: white space around, a sign, digits with single underscores
    between them.  (Python also takes the decimal digits of other scripts.) *)
Definition str_of_Z (n : Z) : string := pretty n.

Fixpoint drop_space (l : list N) : list N :=
  match l with
  | b :: l' => if ascii_space b then drop_space l' else l
  | [] => []
  end.
Fixpoint digits_value (l : list N) (acc : Z) : option Z :=
  match l with
  | [] => Some acc
  | b :: l' =>
    if ((48 <=? b) && (b <=? 57))%N then digits_value l' (10 * acc + Z.of_N (b - 48)) else
    if (b =? 95)%N then
      match l' with
      | c :: l2 => if ((48 <=? c) && (c <=? 57))%N then digits_value l2 (10 * acc + Z.of_N (c - 48)) else None
      | [] => None
      end
    else None
  end.
Definition unsigned_value (l : list N) : option Z :=
  match l with
  | b :: _ => if (b =? 95)%N then None else digits_value l 0
  | [] => None
  end.
Definition int_of_str (s : string) : outcome exn Z :=
  let l := drop_space (map Ascii.N_of_ascii (String.list_ascii_of_string s)) in
  let l := rev (drop_space (rev l)) in
  let v := match l with
           | b :: l' => if (b =? 45)%N then Z.opp <$> unsigned_value l'
                        else if (b =? 43)%N then unsigned_value l' else unsigned_value l
           | [] => None
           end in
  match v with Some n => Ok n | None => Raise (ValueError "invalid literal for int()") end.

(** ** Members *)
(** [writable]: the source speaks [write_cas_at]. *)
Inductive member : Type :=
| FileMember (path : string) (writable : bool)
| ObjectMember (path bucket key : string)
| ForwardOnlyMember (path : string).
Definition member_path (m : member) : string :=
  match m with FileMember p _ | ObjectMember p _ _ | ForwardOnlyMember p => p end.

(** [v_pin_store], [v_restore_store]: the service speaks those surfaces;
    [v_resolver]: a [FileContentResolver] was given. *)
Record Versioner := mkVersioner {
  v_owner : UUID;
  v_resolver : bool;
  v_pin_store : bool;
  v_restore_store : bool;
  v_members : list member;
}.
#[export] Instance eta_Versioner : Settable Versioner :=
  rec_pure mkVersioner <*> v_owner <*> v_resolver <*> v_pin_store <*> v_restore_store <*> v_members.

Definition new_versioner (owner : option UUID) (resolver pin_store restore_store : bool) : outcome exn Versioner :=
  match owner with
  | None => Raise (ValueError "WorkspaceVersioner needs an owner")
  | Some owner => Ok (mkVersioner owner resolver pin_store restore_store [])
  end.

Definition require_new_path (v : Versioner) (path : string) : outcome exn string :=
  if is_blank path then Raise (ValueError "member path must be a non-empty string")
  else if existsb (λ m, bool_decide (path = member_path m)) (v_members v)
  then Raise (ValueError "duplicate member path") else Ok path.
Definition register_member (v : Versioner) (path : string) (m : string → member) : outcome exn Versioner :=
  match require_new_path v path with
  | Ok p => Ok (v <| v_members ::= λ ms, (ms ++ [m p])%list |>)
  | Raise e => Raise e
  end.
Definition add_file_member (v : Versioner) (path : string) (writable : bool) : outcome exn Versioner :=
  register_member v path (λ p, FileMember p writable).
Definition add_object_member (v : Versioner) (bucket key : string) (path : option string) : outcome exn Versioner :=
  register_member v (default (String.append "s3://" key) path) (λ p, ObjectMember p bucket key).
Definition add_forward_only_member (v : Versioner) (path : string) : outcome exn Versioner :=
  register_member v path ForwardOnlyMember.

(** [{m.member_path: m for m in self._members}]. *)
Definition declared (v : Versioner) : list (string * member) :=
  fold_left (λ d m, dset d (member_path m) m) (v_members v) [].
Definition require_binding (v : Versioner) (path : string) : outcome exn member :=
  match List.find (λ m, bool_decide (member_path m = path)) (v_members v) with
  | None | Some (ForwardOnlyMember _) => Raise (CoherenceError "no declared binding at leg time")
  | Some m => Ok m
  end.

Definition member_arbitration_tier (m : member) : string :=
  match m with ObjectMember _ _ _ => arbitration_tier_value ARB_NATIVE_CAS | _ => arbitration_tier_value ARB_NO_ARBITER end.

(** ** Reports *)
Record Observation := mkObservation {
  ob_absent : bool;
  ob_token : option string;
  ob_fingerprint : option string;
  ob_versioned : bool;
  ob_pinnable : bool;
}.

Record WorkspaceCheckpoint := mkWorkspaceCheckpoint {
  wc_record : CheckpointRecord;
  wc_members : list CheckpointMember;
}.

Record MemberRestoreOutcome := mkOutcome {
  mo_member_path : string;
  mo_outcome : string;
  mo_attempts : Z;
  mo_new_native_token : option string;
  mo_deleted_at_restore : option Z;
  mo_resumed_from_prior_run : bool;
}.

Inductive ReportedStatus : Type := REG_COMMITTED | REG_EMPTY | REG_PRIOR_RUN | REG_REFUSED.

Record RestoreRegistration := mkRegistration {
  rr_status : ReportedStatus;
  rr_registered : list (string * Z);
  rr_skipped : list string;
  rr_substrate_registered : list string;
  rr_deleted_recorded : list string;
  rr_refused : list (string * ConflictReason);
  rr_invalidated_peers : Z;
  rr_attempts : Z;
}.

Record WorkspaceRestoreReport := mkReport {
  wr_report_checkpoint_id : string;
  wr_report_status : string;
  wr_report_members : list MemberRestoreOutcome;
  wr_report_registration : RestoreRegistration;
}.

Definition MAX_RESTORE_LEG_REDRIVES : nat := 8.
(** The iterations [_LegBudget(MAX_RESTORE_LEG_REDRIVES)] admits. *)
Definition LEG_ITERATIONS : nat := S MAX_RESTORE_LEG_REDRIVES.

Definition concluded_leg (row : CheckpointMember) (outcome : string) (attempts : Z) : MemberRestoreOutcome :=
  mkOutcome (cm_member_path row) outcome attempts None None false.

(** ** The site *)
(** A call fails before it takes effect, or after: the answer is lost. *)
Inductive moment := before_effect | after_effect.
Record Surroundings := mkSurroundings {
  fault : nat → option (moment * exn);
  peers : nat → Registry → Registry;
  clock : nat → Z;
  checkpoint_ids : nat → string;
  mints : nat → string → UUID;
}.
Record Site (E : Type) := mkSite { site_registry : Registry; site_world : World E; site_calls : nat }.
Arguments mkSite {_} _ _ _.
Arguments site_registry {_} _.
Arguments site_world {_} _.
Arguments site_calls {_} _.

Section engine.
Context {E : Type} `{!Env E} (around : Surroundings) (v : Versioner).

Definition M (A : Type) : Type := proc exn (Site E) A.

(** One call out of the engine: the others act first; the call may fail before or after
    it takes effect. *)
Definition calling {A} (m : M A) : M A := λ s,
  let n := site_calls s in
  let s := mkSite (peers around n (site_registry s)) (site_world s) (S n) in
  match fault around n with
  | Some (before_effect, e) => (Raise e, s)
  | Some (after_effect, e) => match m s with (Ok _, s') => (Raise e, s') | raised => raised end
  | None => m s
  end.
Definition on_store {A} (m : nat → RM A) : M A := λ s,
  let n := site_calls s in
  calling (zoom site_registry (λ r s, mkSite r (site_world s) (site_calls s)) (m n)) s.
Definition on_world {A} (m : @WM E A) : M A :=
  calling (zoom site_world (λ w s, mkSite (site_registry s) w (site_calls s)) m).
Definition tick : M Z := λ s,
  (Ok (clock around (site_calls s)), mkSite (site_registry s) (site_world s) (S (site_calls s))).

(** The service calls the engine makes. *)
Definition store_get (id : string) : M (option CheckpointRecord) := on_store (λ _, gets (λ r, get_checkpoint r id)).
Definition store_members (id : string) : M (list CheckpointMember) :=
  on_store (λ _, gets (λ r, get_checkpoint_members r id)).
Definition store_list : M (list CheckpointRecord) := on_store (λ _, gets list_checkpoints).
Definition store_status (id status : string) (at_ : Z) : M unit :=
  on_store (λ _, set_workspace_checkpoint_restore_status id status at_ false).
Definition store_outcome (id path outcome : string) (deleted : option Z) : M unit :=
  on_store (λ _, set_workspace_checkpoint_member_restore id path (Some outcome) deleted false).
Definition store_pin (id path state : string) (tier : option string) : M unit :=
  on_store (λ _, set_workspace_checkpoint_member_pin id path state tier false).
Definition store_refcount (id : string) (delta : Z) : M Z :=
  on_store (λ _, adjust_workspace_checkpoint_pin_refcount id delta false).
Definition store_register (id : string) (writes : list WorkspaceRestoreWrite) (at_ : Z) : M WorkspaceRegistrationResult :=
  on_store (λ n, register_workspace_restore (mints around n) id (v_owner v) writes at_ false).
Definition store_registered (path fingerprint : string) : M bool :=
  on_store (λ _, gets (λ r, workspace_member_registered r path fingerprint)).

(** [try: m except ...: None]: a call whose exceptions of one class are an answer. *)
Definition attempt {A} (answers : exn → bool) (m : M A) : M (option A) :=
  catch (a ← m; mret (Some a)) (λ e, if answers e then mret None else raise e).
Definition is_FileNotFoundError (e : exn) : bool := match e with FileNotFoundError => true | _ => false end.
Definition is_KeyError (e : exn) : bool := match e with KeyError _ => true | _ => false end.

(** ** Capture *)
Definition observe_file (path : string) (refuse_binary : bool) : M Observation :=
  seen ← attempt is_FileNotFoundError (on_world (read_with_version path));
  match seen with
  | None => mret (mkObservation true None None false false)
  | Some (data, version) =>
    if refuse_binary && negb (is_utf8 data) then raise BinaryFileMemberRefused
    else if bool_decide (version < 1) then mret (mkObservation false None (Some (sha256_hex data)) false false)
    else mret (mkObservation false (Some (str_of_Z version)) (Some (sha256_hex data)) true false)
  end.

Definition observe_object (bucket key : string) : M Observation :=
  catch (read ← on_world (read_versioned bucket key);
         mret (mkObservation false (Some (vr_version_id read)) (Some (sha256_hex (vr_data read))) true true))
    (λ e, match e with
          | KeyError _ => mret (mkObservation true None None false false)
          | VersionPointerUnconfirmed _ =>
            seen ← attempt is_KeyError (on_world (read bucket key));
            mret match seen with
                 | None => mkObservation true None None false false
                 | Some (data, _) => mkObservation false None (Some (sha256_hex data)) false false
                 end
          | e => raise e
          end).

(** [_observe]; forward-only members are never observed. *)
Definition observe (m : member) (refuse_binary : bool) : M Observation :=
  match m with
  | FileMember path _ => observe_file path refuse_binary
  | ObjectMember _ bucket key => observe_object bucket key
  | ForwardOnlyMember _ => raise (CoherenceError "forward-only members are not observed")
  end.

Definition capture_one (m : member) : M CheckpointMember :=
  captured_at ← tick;
  match m with
  | ForwardOnlyMember path =>
    mret (mkMember path None None None captured_at false false "no-arbiter" "forward_only" "unpinned" None None)
  | _ =>
    observed ← observe m true;
    mret (mkMember (member_path m) None (ob_token observed) (ob_fingerprint observed) captured_at
            (ob_absent observed) false (member_arbitration_tier m)
            (restore_tier_value (derive_restore_tier (ob_versioned observed) (ob_pinnable observed)))
            "unpinned" None None)
  end.
Fixpoint mapm {A B} (f : A → M B) (l : list A) : M (list B) :=
  match l with
  | [] => mret []
  | x :: l' => y ← f x; ys ← mapm f l'; mret (y :: ys)
  end.
Definition capture_all : M (list CheckpointMember) := mapm capture_one (v_members v).

Definition verify_one (row : CheckpointMember) : M CheckpointMember :=
  match dget (declared v) (cm_member_path row) with
  | None => raise (KeyError "member_by_path")
  | Some (ForwardOnlyMember _) => mret row
  | Some m =>
    live ← observe m false;
    if bool_decide (ob_absent live ≠ cm_absent row ∨ ob_token live ≠ cm_native_token row ∨
                    ob_fingerprint live ≠ cm_fingerprint row)
    then mret (row <| cm_dirty_during_window := true |>) else mret row
  end.
Definition verify_window (rows : list CheckpointMember) : M (list CheckpointMember) := mapm verify_one rows.

Definition window_min (rows : list CheckpointMember) : Z :=
  match map cm_captured_at rows with t :: ts => fold_left Z.min ts t | [] => 0 end.
Definition window_max (rows : list CheckpointMember) : Z :=
  match map cm_captured_at rows with t :: ts => fold_left Z.max ts t | [] => 0 end.

Definition persist (name : string) (rows : list CheckpointMember) : M WorkspaceCheckpoint :=
  record ← catch (now ← tick;
                  on_store (λ n, create_workspace_checkpoint (checkpoint_ids around n) name (Some (v_owner v)) rows
                                   (window_min rows) (window_max rows) now false))
             (λ e, if is_exception e then raise CheckpointPersistFailed else raise e);
  mret (mkWorkspaceCheckpoint record rows).

(** ** Pins *)
Definition is_native_cas (row : CheckpointMember) : bool :=
  bool_decide (cm_arbitration_tier row = arbitration_tier_value ARB_NATIVE_CAS).
Definition is_object (m : option member) : bool := match m with Some (ObjectMember _ _ _) => true | _ => false end.

Definition require_pin_store : outcome exn unit :=
  if v_pin_store v then Ok tt else Raise (TypeError "pin legs need the CheckpointPinStore surface").
(** [_require_pin_store_for_checkpoint]: whether pin legs will run. *)
Definition require_pin_store_for_checkpoint : outcome exn bool :=
  if v_pin_store v then Ok true
  else if existsb (λ m, is_object (Some m)) (v_members v) ||
          (v_resolver v && existsb (λ m, match m with FileMember _ _ => true | _ => false end) (v_members v))
  then Raise (TypeError "pin legs need the CheckpointPinStore surface") else Ok false.

Definition pin_eligible (row : CheckpointMember) : bool :=
  if cm_absent row || bool_decide (cm_native_token row = None) then false
  else if bool_decide (cm_pin_state row ≠ "unpinned") then false
  else if is_native_cas row && bool_decide (cm_restore_tier row = restore_tier_value RESTORABLE) then true
  else bool_decide (cm_arbitration_tier row = arbitration_tier_value ARB_NO_ARBITER) &&
       bool_decide (cm_restore_tier row = restore_tier_value RESTORABLE_UNPINNED) && v_resolver v.

Definition pin_object_leg (id : string) (row : CheckpointMember) (token bucket key : string) : M unit :=
  held ← attempt (λ e, match e with LegalHoldUnavailable | KeyError _ | VersionPointerUnconfirmed _ => true | _ => false end)
           (on_world (set_legal_hold bucket key token));
  match held with
  | None => store_pin id (cm_member_path row) "pin_unavailable" (Some (restore_tier_value RESTORABLE_UNPINNED))
  | Some _ =>
    store_pin id (cm_member_path row) "held" None ;;
    store_refcount id 1 ;; mret tt
  end.

Definition pin_file_leg (id : string) (row : CheckpointMember) (token : string) : M unit :=
  retained ← attempt is_KeyError (version ← of_outcome (int_of_str token);
                                  on_world (content_at (cm_member_path row) version));
  match retained with
  | None => store_pin id (cm_member_path row) "pin_unavailable" (Some (restore_tier_value TIER_FORWARD_ONLY))
  | Some retained =>
    if bool_decide (Some (sha256_hex retained) ≠ cm_fingerprint row)
    then store_pin id (cm_member_path row) "pin_unavailable" (Some (restore_tier_value TIER_FORWARD_ONLY))
    else
      store_pin id (cm_member_path row) "held" None ;;
      store_refcount id 1 ;; mret tt
  end.

Definition pin_leg (id : string) (row : CheckpointMember) : M unit :=
  match cm_native_token row with
  | None => raise (AssertionError "eligibility")
  | Some token =>
    if is_native_cas row then
      match dget (declared v) (cm_member_path row) with
      | Some (ObjectMember _ bucket key) => pin_object_leg id row token bucket key
      | _ => raise (AssertionError "pre-flight guaranteed")
      end
    else pin_file_leg id row token
  end.

(** A native-CAS row without an object member declared for it. *)
Definition lacks_binding (row : CheckpointMember) : bool :=
  is_native_cas row && negb (is_object (dget (declared v) (cm_member_path row))).

Definition pin_members (id : string) : M unit :=
  rows ← store_members id;
  let eligible := List.filter pin_eligible rows in
  if existsb lacks_binding eligible then raise (ValueError "pin pre-flight failed (nothing was pinned)")
  else for_each eligible (pin_leg id).

Definition checkpoint (name : string) (pin : bool) : M WorkspaceCheckpoint :=
  if is_blank name then raise (ValueError "checkpoint needs a non-empty name")
  else if bool_decide (length (v_members v) = 0%nat) then raise (ValueError "checkpoint needs at least one declared member")
  else
    pins ← (if pin then of_outcome require_pin_store_for_checkpoint else mret false);
    rows ← capture_all;
    rows ← verify_window rows;
    result ← persist name rows;
    if pins : bool then
      let id := cp_checkpoint_id (wc_record result) in
      pin_members id ;;
      members ← store_members id;
      mret (mkWorkspaceCheckpoint (wc_record result) members)
    else mret result.

Definition pin_checkpoint (id : string) : M (list CheckpointMember) :=
  if is_blank id then raise (ValueError "pin_checkpoint needs a non-empty checkpoint id")
  else
    of_outcome require_pin_store ;;
    known ← store_get id;
    match known with
    | None => raise (CheckpointUnknown id)
    | Some _ => pin_members id ;; store_members id
    end.

(** The scan stops at the first checkpoint that holds the same version. *)
Fixpoint shared_in (records : list CheckpointRecord) (id : string) (row : CheckpointMember) : M bool :=
  match records with
  | [] => mret false
  | record :: records' =>
    if bool_decide (cp_checkpoint_id record = id) then shared_in records' id row
    else
      others ← store_members (cp_checkpoint_id record);
      if existsb (λ other, bool_decide (cm_pin_state other = "held" ∧ cm_member_path other = cm_member_path row ∧
                                        cm_native_token other = cm_native_token row)) others
      then mret true else shared_in records' id row
  end.
Definition pin_shared_elsewhere (id : string) (row : CheckpointMember) : M bool :=
  records ← store_list; shared_in records id row.

(** The durable half of a release: the row is recorded released; is the hold to drop? *)
Definition release_claim (id : string) (row : CheckpointMember) : M bool :=
  store_pin id (cm_member_path row) "released"
    (if bool_decide (cm_restore_tier row = restore_tier_value RESTORABLE)
     then Some (restore_tier_value RESTORABLE_UNPINNED) else None) ;;
  store_refcount id (-1) ;;
  if negb (is_native_cas row) || bool_decide (cm_native_token row = None) then mret false
  else shared ← pin_shared_elsewhere id row; mret (negb shared).
(** The last-instant re-check, and the drop. *)
Definition drop_hold (id : string) (row : CheckpointMember) (bucket key token : string) : M unit :=
  shared ← pin_shared_elsewhere id row;
  if shared : bool then mret tt
  else
    attempt (λ e, match e with KeyError _ | LegalHoldUnavailable => true | _ => false end)
      (on_world (release_legal_hold bucket key token)) ;; mret tt.

Definition release_row (id : string) (row : CheckpointMember) : M unit :=
  due ← release_claim id row;
  if negb due then mret tt
  else match dget (declared v) (cm_member_path row), cm_native_token row with
       | Some (ObjectMember _ bucket key), Some token => drop_hold id row bucket key token
       | _, _ => raise (AssertionError "pre-flight guaranteed")
       end.

Definition release_checkpoint_pins (id : string) : M (list CheckpointMember) :=
  of_outcome require_pin_store ;;
  known ← store_get id;
  match known with
  | None => raise (CheckpointUnknown id)
  | Some _ =>
    rows ← store_members id;
    let held := List.filter (λ row, bool_decide (cm_pin_state row = "held")) rows in
    if existsb lacks_binding held then raise (ValueError "release pre-flight failed (nothing was released)")
    else for_each held (release_row id) ;; store_members id
  end.

(** ** Restore legs *)
Definition object_live_view (row : CheckpointMember) (bucket key : string) (attempts : Z)
    : M (MemberRestoreOutcome + string * option string) :=
  catch (live ← on_world (read_versioned bucket key);
         mret (inr (vr_etag live, Some (sha256_hex (vr_data live)))))
    (λ e, match e with
          | KeyError _ => mret (inr (CREATE_IF_ABSENT, None))
          | VersionPointerUnconfirmed _ => mret (inl (concluded_leg row "held_unconfirmed" attempts))
          | e => raise e
          end).

Definition resolve_pinned_object (row : CheckpointMember) (bucket key token : string)
    : M (MemberRestoreOutcome + string) :=
  pinned ← attempt is_KeyError (on_world (read_pinned bucket key token));
  mret match pinned with
       | None => inl (concluded_leg row "target_lost" 0)
       | Some pinned => inr (vr_data pinned)
       end.

(** [row.fingerprint or sha256(pinned)]. *)
Definition intended_hash (row : CheckpointMember) (pinned_bytes : string) : string :=
  match cm_fingerprint row with
  | Some f => if bool_decide (f = "") then sha256_hex pinned_bytes else f
  | None => sha256_hex pinned_bytes
  end.

Definition object_cas_attempt (row : CheckpointMember) (bucket key pinned_bytes live_token : string) (attempts : Z)
    : M (option MemberRestoreOutcome) :=
  result ← catch (result ← on_world (cas_write_versioned bucket key live_token pinned_bytes); mret (inr result))
    (λ e, match e with
          | CasRetriesExhausted _ _ _ | ConditionalPutRetriesExhausted _ =>
            mret (inl (concluded_leg row "conflict" attempts))
          | VersionPointerUnconfirmed _ => mret (inl (concluded_leg row "restored" attempts))
          | e => raise e
          end);
  match result with
  | inl outcome => mret (Some outcome)
  | inr (VersionedCasWritten _ version_id) =>
    mret (Some (mkOutcome (cm_member_path row) "restored" attempts (Some version_id) None false))
  | inr VersionedLost => mret None
  | inr VersionedUnknown =>
    decision ← on_world (reconcile_after_unknown bucket key live_token (intended_hash row pinned_bytes));
    mret match rd_verdict decision with
         | CONVERGE => Some (concluded_leg row "converged" attempts)
         | RE_DRIVE | CONFLICT => None
         | _ => Some (concluded_leg row "held_unconfirmed" attempts)
         end
  end.

(** [left] iterations may still be admitted; [attempts] were. *)
Fixpoint object_loop (row : CheckpointMember) (bucket key token : string) (left : nat) (attempts : Z)
    (pinned : option string) : M MemberRestoreOutcome :=
  match left with
  | O => mret (concluded_leg row "conflict" attempts)
  | S left' =>
    let attempts := attempts + 1 in
    view ← object_live_view row bucket key attempts;
    match view with
    | inl outcome => mret outcome
    | inr (live_token, live_hash) =>
      if bool_decide (live_hash = cm_fingerprint row) then mret (concluded_leg row "converged" attempts)
      else
        resolved ← (match pinned with
                    | Some data => mret (inr data)
                    | None => resolve_pinned_object row bucket key token
                    end);
        match resolved with
        | inl outcome => mret outcome
        | inr data =>
          outcome ← object_cas_attempt row bucket key data live_token attempts;
          match outcome with
          | Some outcome => mret outcome
          | None => object_loop row bucket key token left' attempts (Some data)
          end
        end
    end
  end.
Definition drive_object_leg (row : CheckpointMember) (bucket key : string) : M MemberRestoreOutcome :=
  match cm_native_token row with
  | None => mret (concluded_leg row "target_lost" 0)
  | Some token => object_loop row bucket key token LEG_ITERATIONS 0 None
  end.

Definition drive_object_delete_leg (row : CheckpointMember) (bucket key : string) : M MemberRestoreOutcome :=
  live ← attempt is_KeyError (on_world (read bucket key));
  match live with
  | None => mret (concluded_leg row "converged" 0)
  | Some _ =>
    on_world (delete bucket key) ;;
    now ← tick;
    mret (mkOutcome (cm_member_path row) "restored" 1 None (Some now) false)
  end.

Definition drive_file_absent_leg (row : CheckpointMember) : M MemberRestoreOutcome :=
  live ← attempt is_FileNotFoundError (on_world (read_with_version (cm_member_path row)));
  mret match live with
       | None => concluded_leg row "converged" 0
       | Some _ => concluded_leg row "conflict" 0
       end.

(** [int(row.native_token or 0)]. *)
Definition token_version (row : CheckpointMember) : outcome exn Z :=
  match cm_native_token row with
  | Some token => if bool_decide (token = "") then Ok 0 else int_of_str token
  | None => Ok 0
  end.
Definition resolve_pinned_file (row : CheckpointMember) : M (MemberRestoreOutcome + string) :=
  pinned ← attempt is_KeyError (version ← of_outcome (token_version row);
                                on_world (content_at (cm_member_path row) version));
  mret match pinned with
       | None => inl (concluded_leg row "target_lost" 0)
       | Some data => if bool_decide (Some (sha256_hex data) ≠ cm_fingerprint row)
                      then inl (concluded_leg row "target_lost" 0) else inr data
       end.

Definition file_cas_attempt (row : CheckpointMember) (pinned : string) (live_version attempts : Z)
    : M (option MemberRestoreOutcome) :=
  catch (on_world (write_cas_at (cm_member_path row) live_version pinned) ;;
         mret (Some (mkOutcome (cm_member_path row) "restored" attempts (Some (str_of_Z (live_version + 1))) None false)))
    (λ e, match e with
          | CasVersionConflict _ _ => mret None
          | ViewWedged => mret (Some (concluded_leg row "conflict" attempts))
          | CommitUnconfirmed => mret (Some (concluded_leg row "held_unconfirmed" attempts))
          | e => raise e
          end).

Fixpoint file_loop (row : CheckpointMember) (left : nat) (attempts : Z) (pinned : option string) : M MemberRestoreOutcome :=
  match left with
  | O => mret (concluded_leg row "conflict" attempts)
  | S left' =>
    let attempts := attempts + 1 in
    live ← attempt is_FileNotFoundError (on_world (read_with_version (cm_member_path row)));
    match live with
    | None => mret (concluded_leg row "conflict" attempts)
    | Some (live_bytes, live_version) =>
      if bool_decide (Some (sha256_hex live_bytes) = cm_fingerprint row)
      then mret (concluded_leg row "converged" attempts)
      else
        resolved ← (match pinned with
                    | Some data => mret (inr data)
                    | None => resolve_pinned_file row
                    end);
        match resolved with
        | inl outcome => mret outcome
        | inr data =>
          outcome ← file_cas_attempt row data live_version attempts;
          match outcome with
          | Some outcome => mret outcome
          | None => file_loop row left' attempts (Some data)
          end
        end
    end
  end.
Definition drive_file_leg (row : CheckpointMember) : M MemberRestoreOutcome := file_loop row LEG_ITERATIONS 0 None.

(** ** One member *)
Definition drive_absent_member (row : CheckpointMember) (m : member) : M MemberRestoreOutcome :=
  match m with
  | ObjectMember _ bucket key => drive_object_delete_leg row bucket key
  | _ => drive_file_absent_leg row
  end.

Definition drive_member (row : CheckpointMember) : M MemberRestoreOutcome :=
  if cm_absent row then
    m ← of_outcome (require_binding v (cm_member_path row));
    drive_absent_member row m
  else if bool_decide (cm_restore_tier row = restore_tier_value TIER_FORWARD_ONLY)
  then mret (concluded_leg row "forward_only_skipped" 0)
  else
    m ← of_outcome (require_binding v (cm_member_path row));
    match m with
    | ObjectMember _ bucket key => drive_object_leg row bucket key
    | FileMember _ _ => drive_file_leg row
    | ForwardOnlyMember _ => raise (AssertionError "pre-flight guaranteed")
    end.

(** [ConnectionError] and [TimeoutError] are [OSError]s that propagate. *)
Definition absorbed (e : exn) : bool :=
  match e with
  | OSError _ | FileNotFoundError | UnicodeDecodeError | StructuralMemberRefused => true
  | _ => false
  end.
Definition drive_member_absorbing (row : CheckpointMember) : M MemberRestoreOutcome :=
  catch (drive_member row)
    (λ e, if absorbed e then mret (concluded_leg row "target_lost" 0) else raise e).

(** ** Pre-flight *)
Definition require_known_restore_state (record : CheckpointRecord) (rows : list CheckpointMember) : outcome exn unit :=
  if negb (bool_decide (cp_restore_status record ∈ RESTORE_STATUSES))
  then Raise (CoherenceError "unknown restore_status")
  else if existsb (λ row, match cm_restore_outcome row with
                          | Some o => negb (bool_decide (o ∈ RESTORE_MEMBER_OUTCOMES))
                          | None => false
                          end) rows
  then Raise (CoherenceError "unknown restore_outcome")
  else if bool_decide (cp_restore_status record = "concluded" ∨ cp_restore_status record = "registered") &&
          existsb (λ row, bool_decide (cm_restore_outcome row = None)) rows
  then Raise (CoherenceError "inconsistent durable state")
  else Ok tt.

Definition undrivable (row : CheckpointMember) : bool :=
  if negb (cm_absent row) && bool_decide (cm_restore_tier row = restore_tier_value TIER_FORWARD_ONLY) then false
  else match dget (declared v) (cm_member_path row) with
       | None | Some (ForwardOnlyMember _) => true
       | Some (FileMember _ writable) => negb (cm_absent row) && (negb (v_resolver v) || negb writable)
       | Some (ObjectMember _ _ _) => false
       end.
Definition require_drivable (pending : list CheckpointMember) : outcome exn unit :=
  if existsb undrivable pending then Raise (ValueError "restore pre-flight failed (nothing was started)") else Ok tt.

(** ** Registration *)
(** What a list of terminal outcomes registers: the file writes, the members registered
    by their manifest rows, the recorded deletions. *)
Definition classify_outcome (row : CheckpointMember) (outcome : string) (deleted : option Z)
    (acc : list WorkspaceRestoreWrite * list string * list string) :=
  let '(writes, substrate, deletions) := acc in
  match deleted with
  | Some _ => (writes, substrate, deletions ++ [cm_member_path row])%list
  | None =>
    if bool_decide (outcome ≠ "restored") then acc
    else if is_native_cas row then (writes, substrate ++ [cm_member_path row], deletions)%list
    else match cm_fingerprint row with
         | None => acc
         | Some f => (writes ++ [mkRestoreWrite (cm_member_path row) f], substrate, deletions)%list
         end
  end.

Definition row_by_path (rows : list CheckpointMember) : list (string * CheckpointMember) :=
  fold_left (λ d row, dset d (cm_member_path row) row) rows [].
(** The row is looked up before the outcome is classified; every outcome carries the
    path of a row, so this is the lookup the code makes later. *)
Fixpoint classify_outcomes (rows : list (string * CheckpointMember)) (outcomes : list MemberRestoreOutcome)
    (acc : list WorkspaceRestoreWrite * list string * list string)
    : outcome exn (list WorkspaceRestoreWrite * list string * list string) :=
  match outcomes with
  | [] => Ok acc
  | o :: outcomes' =>
    match dget rows (mo_member_path o) with
    | None => Raise (KeyError "row_by_path")
    | Some row => classify_outcomes rows outcomes' (classify_outcome row (mo_outcome o) (mo_deleted_at_restore o) acc)
    end
  end.

Definition reported (s : RegistrationStatus) : ReportedStatus :=
  match s with
  | WORKSPACE_REGISTRATION_COMMITTED => REG_COMMITTED
  | WORKSPACE_REGISTRATION_EMPTY => REG_EMPTY
  | WORKSPACE_REGISTRATION_REFUSED => REG_REFUSED
  end.

Fixpoint registration_loop (id : string) (writes : list WorkspaceRestoreWrite) (substrate deletions : list string)
    (left : nat) (attempts : Z) (last_refused : list (string * ConflictReason)) : M RestoreRegistration :=
  match left with
  | O => mret (mkRegistration REG_REFUSED [] [] substrate deletions last_refused 0 attempts)
  | S left' =>
    let attempts := attempts + 1 in
    now ← tick;
    result ← attempt (λ e, match e with OccCallerTransientError => true | _ => false end) (store_register id writes now);
    match result with
    | None => registration_loop id writes substrate deletions left' attempts last_refused
    | Some result =>
      match wr_status result with
      | WORKSPACE_REGISTRATION_COMMITTED | WORKSPACE_REGISTRATION_EMPTY =>
        mret (mkRegistration (reported (wr_status result)) (wr_versions result) (wr_skipped result) substrate
                deletions [] (Z.of_nat (length (wr_signals result))) attempts)
      | WORKSPACE_REGISTRATION_REFUSED =>
        let refused := map (λ kv : string * ConflictDetail, (kv.1, cd_reason kv.2)) (wr_refused result) in
        if existsb (λ kv, bool_decide (kv.2 = stale_read_generation)) refused
        then mret (mkRegistration REG_REFUSED [] [] substrate deletions refused 0 attempts)
        else registration_loop id writes substrate deletions left' attempts refused
      end
    end
  end.
Definition drive_registration (id : string) (writes : list WorkspaceRestoreWrite) (substrate deletions : list string)
    : M RestoreRegistration :=
  registration_loop id writes substrate deletions LEG_ITERATIONS 0 [].

Definition registration_seam (id : string) (rows : list CheckpointMember) (outcomes : list MemberRestoreOutcome)
    (prior_run : bool) : M RestoreRegistration :=
  classes ← of_outcome (classify_outcomes (row_by_path rows) outcomes ([], [], []));
  let '(writes, substrate, deletions) := classes in
  if prior_run then mret (mkRegistration REG_PRIOR_RUN [] [] substrate deletions [] 0 0)
  else match writes with
       | [] => mret (mkRegistration REG_EMPTY [] [] substrate deletions [] 0 0)
       | _ => drive_registration id writes substrate deletions
       end.

(** ** Reports rebuilt from durable rows *)
Definition outcome_from_durable_row (row : CheckpointMember) : MemberRestoreOutcome :=
  mkOutcome (cm_member_path row) (default "" (cm_restore_outcome row)) 0 None (cm_deleted_at_restore row) true.

Fixpoint unregistered (writes : list WorkspaceRestoreWrite) : M (list string) :=
  match writes with
  | [] => mret []
  | w :: writes' =>
    there ← store_registered (rw_member_path w) (rw_fingerprint w);
    rest ← unregistered writes';
    mret (if there : bool then rest else rw_member_path w :: rest)
  end.
Definition registration_from_durable_state (rows : list CheckpointMember) : M RestoreRegistration :=
  let '(writes, substrate, deletions) :=
    fold_left (λ acc row, classify_outcome row (default "" (cm_restore_outcome row)) (cm_deleted_at_restore row) acc)
      rows ([], [], []) in
  match writes with
  | [] => mret (mkRegistration REG_EMPTY [] [] substrate deletions [] 0 0)
  | _ =>
    missing ← unregistered writes;
    mret (mkRegistration match missing with [] => REG_PRIOR_RUN | _ => REG_REFUSED end [] [] substrate deletions [] 0 0)
  end.
Definition report_from_durable_rows (id : string) (rows : list CheckpointMember) : M WorkspaceRestoreReport :=
  registration ← registration_from_durable_state rows;
  mret (mkReport id "concluded" (map outcome_from_durable_row rows) registration).

(** ** Restore *)
Definition restore_row (id : string) (row : CheckpointMember) : M MemberRestoreOutcome :=
  match cm_restore_outcome row with
  | Some _ => mret (outcome_from_durable_row row)
  | None =>
    outcome ← drive_member_absorbing row;
    store_outcome id (cm_member_path row) (mo_outcome outcome) (mo_deleted_at_restore outcome) ;;
    mret outcome
  end.

Definition mark (id status : string) : M unit := now ← tick; store_status id status now.

Definition restore_locked (id : string) : M WorkspaceRestoreReport :=
  found ← store_get id;
  match found with
  | None => raise (CheckpointUnknown id)
  | Some record =>
    rows ← store_members id;
    of_outcome (require_known_restore_state record rows) ;;
    if bool_decide (cp_restore_status record = "concluded") then report_from_durable_rows id rows
    else
      let prior_registration := bool_decide (cp_restore_status record = "registered") in
      of_outcome (require_drivable (List.filter (λ row, bool_decide (cm_restore_outcome row = None)) rows)) ;;
      mark id "in_progress" ;;
      outcomes ← mapm (restore_row id) rows;
      registration ← registration_seam id rows outcomes prior_registration;
      match rr_status registration with
      | REG_COMMITTED | REG_EMPTY => mark id "registered"
      | _ => mret tt
      end ;;
      mark id "concluded" ;;
      mret (mkReport id "concluded" outcomes registration)
  end.

Definition require_restore_store : outcome exn unit :=
  if v_restore_store v then Ok tt else Raise (TypeError "restore needs the CheckpointRestoreStore surface").

Definition restore (id : string) : M WorkspaceRestoreReport :=
  if is_blank id then raise (ValueError "restore needs a non-empty checkpoint id")
  else of_outcome require_restore_store ;; restore_locked id.
End engine.
