(* ===== verification/WorkspaceFacts.v ===== *)
(** What a run of the workspace engine does to a stored manifest.

    [shows id cp rows s]: the registry of [s] stores the manifest [id], with header [cp]
    and member rows [rows].  Each service call moves it in one way, the calls to the
    outside world not at all. *)
From S2P Require Import Prelude Core Registry RegistryFacts Service Checkpoints ManifestFacts.
From S2P Require Import Substrate ObjectStore Workspace.

Open Scope Z_scope.
Open Scope string_scope.

(** ** Sorting commutes with a change of the rows that keeps their keys *)
Section merge_sort_map.
Context {A : Type} (R : relation A) `{!RelDecision R} (f : A → A).
Hypothesis f_le : ∀ x y, R (f x) (f y) ↔ R x y.

Lemma list_merge_map l1 l2 :
  sorting.list_merge R (map f l1) (map f l2) = map f (sorting.list_merge R l1 l2).
Proof using All.
  revert l2. induction l1 as [|x1 l1 IH1]; intros l2; [by destruct l2|].
  induction l2 as [|x2 l2 IH2]; [done|]. simpl in *.
  destruct (decide (R x1 x2)) as [H|H].
  - rewrite decide_True by by apply f_le. simpl. f_equal. apply (IH1 (x2 :: l2)).
  - rewrite decide_False by by rewrite f_le. simpl. f_equal. apply IH2.
Qed.

Lemma merge_sort_map l : sorting.merge_sort R (map f l) = map f (sorting.merge_sort R l).
Proof using All.
  unfold sorting.merge_sort.
  assert (∀ st, sorting.merge_sort_aux R (map (option_map (map f)) st) (map f l) =
                map f (sorting.merge_sort_aux R st l)) as H; [|apply (H [])].
  assert (∀ st, sorting.merge_stack R (map (option_map (map f)) st) = map f (sorting.merge_stack R st)) as Hs.
  { induction st as [|[l1|] st IH]; simpl; [done| |done]. by rewrite IH, list_merge_map. }
  assert (∀ st l1, sorting.merge_list_to_stack R (map (option_map (map f)) st) (map f l1) =
                   map (option_map (map f)) (sorting.merge_list_to_stack R st l1)) as Hl.
  { induction st as [|[l2|] st IH]; intros l1; simpl; [done| |done]. by rewrite list_merge_map, IH. }
  induction l as [|x l IH]; intros st; simpl; [apply Hs|].
  rewrite <-IH. f_equal. apply (Hl st [x]).
Qed.
End merge_sort_map.

(** ** Stored manifests *)
Record shows (id : string) (cp : CheckpointRecord) (rows : list CheckpointMember) (r : Registry) : Prop := {
  sh_record : get_checkpoint r id = Some cp;
  sh_rows : get_checkpoint_members r id = rows;
  sh_wf : ∃ ms, dget (checkpoint_members r) id = Some ms ∧ dict_wf ms ∧
                ∀ p m, dget ms p = Some m → cm_member_path m = p;
}.

Lemma shows_of_manifest r id cp : manifests_ok r → get_checkpoint r id = Some cp →
  shows id cp (get_checkpoint_members r id) r.
Proof.
  intros Hok Hcp. destruct (mf_members _ _ _ (Hok _ _ Hcp)) as (ms & ? & _ & ? & ?). split; eauto.
Qed.

Lemma shows_eq id cp rows r r' : get_checkpoint r' id = get_checkpoint r id →
  dget (checkpoint_members r') id = dget (checkpoint_members r) id → shows id cp rows r → shows id cp rows r'.
Proof.
  intros H1 H2 [A B C]. split; [congruence| |by rewrite H2].
  unfold get_checkpoint_members in *. by rewrite H2.
Qed.

Lemma fmap_is_map {A B} (f : A → B) l : f <$> l = map f l.
Proof. induction l as [|x l IH]; [done|]. simpl. by rewrite <-IH. Qed.

Lemma elem_of_map {A B} (f : A → B) l y : y ∈ map f l ↔ ∃ x, y = f x ∧ x ∈ l.
Proof. rewrite <-fmap_is_map. apply list_elem_of_fmap. Qed.

Definition set_row (path : string) (f : CheckpointMember → CheckpointMember) (rows : list CheckpointMember)
    : list CheckpointMember :=
  map (λ row, if decide (cm_member_path row = path) then f row else row) rows.

Lemma set_row_paths path f rows : (∀ m, cm_member_path (f m) = cm_member_path m) →
  map cm_member_path (set_row path f rows) = map cm_member_path rows.
Proof. intros Hf. unfold set_row. rewrite map_map. apply map_ext. intros m. by case_decide. Qed.

Lemma dset_map {V} (ms : list (string * V)) path m (f : V → V) : dict_wf ms → dget ms path = Some m →
  dset ms path (f m) = map (λ kv, if decide (kv.1 = path) then (kv.1, f kv.2) else kv) ms.
Proof.
  intros Hwf. induction ms as [|[k v] ms IH]; simpl; [done|]. apply dict_wf_cons in Hwf as [Hk Hwf].
  case_decide as Hd; intros Hm; [|f_equal; by apply IH]. simplify_eq. f_equal. rewrite <-(map_id ms) at 1.
  apply map_ext_in. intros [k' v'] Hin. simpl. rewrite decide_False; [done|]. intros ->. apply Hk.
  apply list_elem_of_fmap. exists (path, v'). split; [done|]. by apply list_elem_of_In.
Qed.

Lemma sorted_keyed (ms : list (string * CheckpointMember)) kv : dict_wf ms →
  (∀ p m, dget ms p = Some m → cm_member_path m = p) →
  In kv (sorting.merge_sort path_le ms) → cm_member_path kv.2 = kv.1.
Proof.
  intros Hwf Hp Hin. destruct kv as [p m]. apply Hp. apply dget_elem; [done|].
  apply list_elem_of_In in Hin. by rewrite (sorting.merge_sort_Permutation path_le ms) in Hin.
Qed.

Lemma row_of_path id cp rows r path : shows id cp rows r → path ∈ map cm_member_path rows →
  ∃ ms m, dget (checkpoint_members r) id = Some ms ∧ dget ms path = Some m.
Proof.
  intros [_ <- (ms & Hms & Hwf & Hp)] Hin. exists ms. unfold get_checkpoint_members in Hin. rewrite Hms in Hin.
  simpl in Hin. apply list_elem_of_fmap in Hin as (m & -> & Hin). apply list_elem_of_fmap in Hin as ([p m'] & -> & Hin).
  exists m'. split; [done|]. apply dget_elem; [done|]. simpl.
  assert (cm_member_path m' = p) as -> by (apply (sorted_keyed ms (p, m') Hwf Hp); by apply list_elem_of_In).
  by rewrite (sorting.merge_sort_Permutation path_le ms) in Hin.
Qed.

Lemma update_member_shows id cp rows r path f : shows id cp rows r → path ∈ map cm_member_path rows →
  (∀ m, cm_member_path (f m) = cm_member_path m) →
  ∃ r', update_member id path f r = (Ok tt, r') ∧ shows id cp (set_row path f rows) r' ∧
        (∀ id', id' ≠ id → dget (checkpoint_members r') id' = dget (checkpoint_members r) id') ∧
        checkpoints r' = checkpoints r.
Proof.
  intros Hsh Hin Hf. destruct (row_of_path _ _ _ _ _ Hsh Hin) as (ms & m & Hms & Hm).
  unfold update_member. rewrite Hms. simpl. rewrite Hm. eexists. split; [done|].
  destruct Hsh as [Hcp <- (ms' & Hms' & Hwf & Hp)]. assert (ms' = ms) as -> by congruence.
  split; [split|split]; [done| | |by intros id' Hne; simpl; rewrite dget_dset_ne by done|done].
  - unfold get_checkpoint_members. simpl. rewrite dget_dset_eq, Hms. simpl. rewrite (dset_map _ _ _ _ Hwf Hm).
    rewrite (merge_sort_map path_le).
    2: { intros [] []. unfold path_le. simpl. by repeat case_decide. }
    unfold set_row. rewrite !fmap_is_map, !map_map. apply map_ext_in. intros kv Hkv.
    rewrite (sorted_keyed ms kv Hwf Hp Hkv). by case_decide.
  - simpl. rewrite dget_dset_eq. eexists. split_and!; [done|by apply dict_wf_dset|].
    intros p m1. rewrite dget_dset. case_decide; [subst p; intros [= <-]; rewrite Hf; by apply Hp|apply Hp].
Qed.

(** ** Registration leaves the manifests alone *)
Definition same_manifests (r r' : Registry) : Prop :=
  checkpoints r' = checkpoints r ∧ checkpoint_members r' = checkpoint_members r.
#[export] Instance same_manifests_preorder : PreOrder same_manifests.
Proof. split; [done|]. intros r1 r2 r3 [] []. split; congruence. Qed.

Lemma same_put a rec : respects same_manifests (put_record a rec).
Proof. done. Qed.
Lemma same_require a : respects same_manifests (require_record a).
Proof. intros r. unfold require_record. by destruct (get_record r a). Qed.
Lemma same_emit_all trigger tick l n : respects same_manifests (emit_all trigger tick l n).
Proof.
  revert n. induction l as [|[[[[[a ag] from] to] v] h] l IH]; intros n r; simpl; [done|].
  unfold emit_state_log. destruct (state_log r) as [sink|]; [|apply IH].
  destruct (sink _ _); [done|]. etrans; [|apply IH]. done.
Qed.
Lemma same_require_artifact a : respects same_manifests (require_artifact a).
Proof. intros r. unfold require_artifact. by destruct (get_artifact r a). Qed.
Ltac same_leaf :=
  first [apply same_put | apply same_require_artifact | apply same_require | apply same_emit_all | by intros ?].

Lemma register_same mint id owner writes t abort : respects same_manifests (register_workspace_restore mint id owner writes t abort).
Proof.
  unfold register_workspace_restore, service_commit_all, abort_guard, commit_all_impl, commit_all_precheck, commit_all,
    plan_write, resolve_workspace_member_artifact, register_artifact, apply_member, cas_content,
    capture_version, note_conflict, validate_single_writer.
  respects_tac same_leaf.
Qed.

(** ** The calls of the engine *)
Section calls.
Context {E : Type} `{!Env E} (around : Surroundings) (v : Versioner) (id : string).
Local Abbreviation M := (@M E).

(** The others leave the manifest alone: one controller per checkpoint. *)
Definition peers_keep : Prop := ∀ n r,
  get_checkpoint (peers around n r) id = get_checkpoint r id ∧
  dget (checkpoint_members (peers around n r)) id = dget (checkpoint_members r) id.
Hypothesis Hkeep : peers_keep.

Definition stored (cp : CheckpointRecord) (rows : list CheckpointMember) (s : Site E) : Prop :=
  shows id cp rows (site_registry s).

Lemma stored_peers cp rows s n w : stored cp rows s → stored cp rows (mkSite (peers around n (site_registry s)) w (S n)).
Proof. destruct (Hkeep n (site_registry s)). by apply shows_eq. Qed.

(** A service call, from what it does to a registry that stores the manifest. *)
Lemma triple_service {A} cp rows (m : nat → RM A) Q X :
  (∀ n r, shows id cp rows r → match m n r with (Ok a, r') => Q a r' | (Raise e, r') => X e r' end) →
  (∀ e r, shows id cp rows r → X e r) → (∀ a e r, Q a r → X e r) →
  triple (stored cp rows) (on_store around m : M A) (λ a s, Q a (site_registry s)) (λ e s, X e (site_registry s)).
Proof.
  intros Hm Hf Hl s Hs. unfold on_store, calling. pose proof (stored_peers _ _ _ (site_calls s) (site_world s) Hs) as Hp.
  specialize (Hm (site_calls s) _ Hp). simpl in Hm. destruct (fault around (site_calls s)) as [[[|] x]|]; unfold zoom; simpl.
  - by apply Hf.
  - destruct (m (site_calls s) (peers around (site_calls s) (site_registry s))) as [[a|e] r']; [by eapply Hl|done].
  - by destruct (m (site_calls s) (peers around (site_calls s) (site_registry s))) as [[a|e] r'].
Qed.

Lemma triple_read {A} cp rows (f : Registry → A) a :
  (∀ r, shows id cp rows r → f r = a) →
  triple (stored cp rows) (on_store around (λ _, gets f) : M A) (λ x s, x = a ∧ stored cp rows s) (λ _ s, stored cp rows s).
Proof.
  intros Hf. apply (triple_service cp rows _ (λ x r, x = a ∧ shows id cp rows r) (λ _ r, shows id cp rows r)); [|done|by intros x e r []].
  intros n r Hr. simpl. split; [by apply Hf|done].
Qed.

Lemma triple_get cp rows :
  triple (stored cp rows) (store_get around id : M _) (λ x s, x = Some cp ∧ stored cp rows s) (λ _ s, stored cp rows s).
Proof. apply triple_read. by intros r []. Qed.
Lemma triple_members cp rows :
  triple (stored cp rows) (store_members around id : M _) (λ x s, x = rows ∧ stored cp rows s) (λ _ s, stored cp rows s).
Proof. apply triple_read. by intros r []. Qed.

Definition with_status (status : string) (at_ : Z) (cp : CheckpointRecord) : CheckpointRecord :=
  cp <| cp_restore_status := status |> <| cp_restore_updated_at := Some at_ |>.

Lemma triple_status cp rows status at_ : status ∈ RESTORE_STATUSES →
  triple (stored cp rows) (store_status around id status at_ : M _)
    (λ _ s, stored (with_status status at_ cp) rows s)
    (λ _ s, stored cp rows s ∨ stored (with_status status at_ cp) rows s).
Proof.
  intros Hst. apply (triple_service cp rows _ (λ _, shows id (with_status status at_ cp) rows)
    (λ _ r, shows id cp rows r ∨ shows id (with_status status at_ cp) rows r)); [|by left|by right]. intros n r Hr.
  unfold set_workspace_checkpoint_restore_status. rewrite bool_decide_eq_true_2 by done. simpl.
  unfold set_checkpoint_restore_status, mbind, proc_bind, require_checkpoint. destruct Hr as [Hcp Hrows Hwf].
  unfold get_checkpoint in Hcp. rewrite Hcp. simpl. split; [|done..].
  unfold get_checkpoint. simpl. by rewrite dget_dset_eq.
Qed.

Lemma triple_update cp rows path (m : RM unit) f : path ∈ map cm_member_path rows →
  (∀ x, cm_member_path (f x) = cm_member_path x) → m = update_member id path f →
  triple (stored cp rows) (on_store around (λ _, m) : M _)
    (λ _ s, stored cp (set_row path f rows) s) (λ _ s, stored cp rows s ∨ stored cp (set_row path f rows) s).
Proof.
  intros Hin Hf ->. apply (triple_service cp rows _ (λ _, shows id cp (set_row path f rows))
    (λ _ r, shows id cp rows r ∨ shows id cp (set_row path f rows) r)); [|by left|by right].
  intros n r Hr. by destruct (update_member_shows _ _ _ _ _ f Hr Hin Hf) as (r' & -> & ? & _).
Qed.

Definition with_outcome (o : string) (deleted : option Z) (row : CheckpointMember) : CheckpointMember :=
  row <| cm_restore_outcome := Some o |> <| cm_deleted_at_restore := deleted |>.
Definition with_pin (state : string) (tier : option string) (row : CheckpointMember) : CheckpointMember :=
  row <| cm_pin_state := state |> <| cm_restore_tier := default (cm_restore_tier row) tier |>.

Lemma triple_outcome cp rows path o deleted : path ∈ map cm_member_path rows → o ∈ RESTORE_MEMBER_OUTCOMES →
  triple (stored cp rows) (store_outcome around id path o deleted : M _)
    (λ _ s, stored cp (set_row path (with_outcome o deleted) rows) s)
    (λ _ s, stored cp rows s ∨ stored cp (set_row path (with_outcome o deleted) rows) s).
Proof.
  intros Hin Ho. apply triple_update; [done..|]. unfold set_workspace_checkpoint_member_restore.
  by rewrite bool_decide_eq_true_2 by done.
Qed.

Lemma triple_pin cp rows path state tier : path ∈ map cm_member_path rows → state ∈ PIN_STATES →
  (∀ t, tier = Some t → t ∈ RESTORE_TIERS) →
  triple (stored cp rows) (store_pin around id path state tier : M _)
    (λ _ s, stored cp (set_row path (with_pin state tier) rows) s)
    (λ _ s, stored cp rows s ∨ stored cp (set_row path (with_pin state tier) rows) s).
Proof.
  intros Hin Hst Ht. apply triple_update; [done..|]. unfold set_workspace_checkpoint_member_pin.
  rewrite bool_decide_eq_true_2 by done. simpl. destruct tier as [t|]; [|done]. by rewrite bool_decide_eq_true_2 by auto.
Qed.

Definition with_refcount (n : Z) (cp : CheckpointRecord) : CheckpointRecord := cp <| cp_pin_refcount := n |>.

Lemma triple_refcount cp rows delta : 0 <= cp_pin_refcount cp + delta →
  triple (stored cp rows) (store_refcount around id delta : M _)
    (λ _ s, stored (with_refcount (cp_pin_refcount cp + delta) cp) rows s)
    (λ _ s, stored cp rows s ∨ stored (with_refcount (cp_pin_refcount cp + delta) cp) rows s).
Proof.
  intros Hd. apply (triple_service cp rows _ (λ _, shows id (with_refcount (cp_pin_refcount cp + delta) cp) rows)
    (λ _ r, shows id cp rows r ∨ shows id (with_refcount (cp_pin_refcount cp + delta) cp) rows r)); [|by left|by right]. intros n r Hr.
  unfold adjust_workspace_checkpoint_pin_refcount. simpl. unfold adjust_checkpoint_pin_refcount, mbind, proc_bind, require_checkpoint.
  destruct Hr as [Hcp Hrows Hwf]. unfold get_checkpoint in Hcp. rewrite Hcp. rewrite decide_False by lia. simpl.
  split; [|done..]. unfold get_checkpoint. simpl. by rewrite dget_dset_eq.
Qed.

Lemma triple_register cp rows writes at_ :
  triple (stored cp rows) (store_register around v id writes at_ : M _) (λ _ s, stored cp rows s) (λ _ s, stored cp rows s).
Proof.
  apply (triple_service cp rows _ (λ _, shows id cp rows) (λ _, shows id cp rows)); [|done..]. intros n r Hr.
  pose proof (register_same (mints around n) id (v_owner v) writes at_ false r) as [Hc Hm].
  destruct (register_workspace_restore _ _ _ _ _ _ r) as [[a|e] r']; simpl in *;
    (eapply shows_eq; [|by rewrite Hm|exact Hr]; unfold get_checkpoint; by rewrite Hc).
Qed.

(** Calls to the world and clock reads. *)
Lemma triple_world {A} cp rows (m : @WM E A) :
  triple (stored cp rows) (on_world around m) (λ _ s, stored cp rows s) (λ _ s, stored cp rows s).
Proof.
  intros s Hs. unfold on_world, calling. pose proof (stored_peers _ _ _ (site_calls s) (site_world s) Hs) as Hp.
  destruct (fault around (site_calls s)) as [[[|] x]|]; [done|..]; unfold zoom; simpl; by destruct (m (site_world s)) as [[a|e] w].
Qed.
Lemma triple_tick cp rows X : triple (stored cp rows) (tick around : M Z) (λ _ s, stored cp rows s) X.
Proof. by intros s Hs. Qed.
End calls.
