(* ===== verification/RestoreFacts.v ===== *)
(** Runs of [restore]: what they leave of the manifest, and what they return. *)
From S2P Require Import Prelude Core Registry RegistryFacts Service Checkpoints ManifestFacts.
From S2P Require Import Substrate ObjectStore Workspace WorkspaceFacts.

Open Scope Z_scope.
Open Scope string_scope.

(** How the durable row of a member may move in a run: it stays, or it gets the
    terminal outcome it did not have. *)
Definition settled_as (row row' : CheckpointMember) : Prop :=
  cm_restore_outcome row = None ∧ ∃ o d, o ∈ RESTORE_MEMBER_OUTCOMES ∧ row' = with_outcome o d row.
Definition row_progress (row row' : CheckpointMember) : Prop := row' = row ∨ settled_as row row'.

(** What the report says of a member is what its durable row says. *)
Record mirrors (row : CheckpointMember) (o : MemberRestoreOutcome) : Prop := {
  mi_path : mo_member_path o = cm_member_path row;
  mi_outcome : cm_restore_outcome row = Some (mo_outcome o);
  mi_deleted : cm_deleted_at_restore row = mo_deleted_at_restore o;
  mi_known : mo_outcome o ∈ RESTORE_MEMBER_OUTCOMES;
  mi_attempts : 0 <= mo_attempts o <= 9;
}.

(** The header but for the restore status. *)
Definition header_of (cp cp' : CheckpointRecord) : Prop :=
  ∃ st at_, cp' = cp <| cp_restore_status := st |> <| cp_restore_updated_at := at_ |>.

Lemma header_refl cp : header_of cp cp.
Proof. exists (cp_restore_status cp), (cp_restore_updated_at cp). by destruct cp. Qed.
Lemma header_status cp st at_ : header_of cp (with_status st at_ cp).
Proof. by exists st, (Some at_). Qed.

#[export] Instance row_progress_preorder : PreOrder row_progress.
Proof.
  split; [by left|]. intros r1 r2 r3 [->|H1] [->|H2]; [by left|by right|by right|].
  destruct H1 as (_ & o & d & _ & ->), H2 as [H2 _]. done.
Qed.

Lemma progress_paths rows rows' : Forall2 row_progress rows rows' →
  map cm_member_path rows' = map cm_member_path rows.
Proof.
  induction 1 as [|r r' l l' [->|(_ & o & d & _ & ->)] _ IH]; simpl; by rewrite ?IH.
Qed.

Lemma shows_nodup id cp rows r : shows id cp rows r → NoDup (map cm_member_path rows).
Proof.
  intros [_ <- (ms & Hms & Hwf & Hp)]. unfold get_checkpoint_members. rewrite Hms. simpl.
  rewrite (fmap_is_map snd), map_map.
  rewrite (map_ext_in _ fst) by (intros kv Hkv; by apply (sorted_keyed ms)).
  rewrite <-fmap_is_map. by rewrite (sorting.merge_sort_Permutation path_le ms).
Qed.

Lemma set_row_app rows1 row rows2 f : NoDup (map cm_member_path (rows1 ++ row :: rows2)) →
  set_row (cm_member_path row) f (rows1 ++ row :: rows2) = (rows1 ++ f row :: rows2)%list.
Proof.
  intros Hnd. unfold set_row. rewrite map_app in *. simpl in *. rewrite decide_True by done.
  apply NoDup_app in Hnd as (_ & Hd & [Hn _]%NoDup_cons).
  assert (∀ l, (∀ x, x ∈ l → cm_member_path x ≠ cm_member_path row) →
    map (λ x, if decide (cm_member_path x = cm_member_path row) then f x else x) l = l) as Hid.
  { intros l Hl. rewrite <-(map_id l) at 2. apply map_ext_in. intros x Hx. rewrite decide_False; [done|].
    apply Hl. by apply list_elem_of_In. }
  rewrite !Hid; [done| |].
  - intros x Hx Heq. apply Hn. rewrite <-fmap_is_map. apply list_elem_of_fmap. eauto.
  - intros x Hx Heq. apply (Hd (cm_member_path x)).
    + rewrite <-fmap_is_map. apply list_elem_of_fmap. eauto.
    + rewrite Heq. by apply elem_of_cons; left.
Qed.

(** ** What a leg returns *)
Record leg_ok (row : CheckpointMember) (o : MemberRestoreOutcome) : Prop := {
  lg_path : mo_member_path o = cm_member_path row;
  lg_known : mo_outcome o ∈ RESTORE_MEMBER_OUTCOMES;
  lg_attempts : 0 <= mo_attempts o <= 9;
}.

Lemma leg_concluded row o n : o ∈ RESTORE_MEMBER_OUTCOMES → 0 <= n <= 9 → leg_ok row (concluded_leg row o n).
Proof. by split. Qed.

Ltac known_outcome := apply (bool_decide_unpack _); vm_compute; exact I.

Section legs.
Context {E : Type} `{!Env E} (around : Surroundings) (v : Versioner).
Local Abbreviation M := (@M E).
Implicit Types row : CheckpointMember.

Definition anything {A : Type} : A → Prop := λ _, True.

Lemma yields_any {A} (m : M A) : yields anything anything m.
Proof. intros s. by destruct (m s) as [[]]. Qed.
Lemma yields_attempt {A} (answers : exn → bool) (m : M A) : yields anything anything (attempt answers m).
Proof. apply yields_any. Qed.

Ltac leg_step :=
  first
    [ apply yields_raise; exact I
    | apply yields_ret; first [exact I | apply leg_concluded; [known_outcome|lia] | split; simpl; [done|known_outcome|lia]]
    | match goal with
      | |- yields _ _ (match ?x with _ => _ end) => destruct x
      end ].

Lemma view_ok row b k n : 0 <= n <= 9 →
  yields (λ x, match x with inl o => leg_ok row o | inr _ => True end) anything (object_live_view around row b k n : M _).
Proof.
  intros Hn. unfold object_live_view. apply (yields_catch _ anything).
  - apply (yields_bind anything); [apply yields_any|]. intros x _. leg_step.
  - intros e _. repeat leg_step.
Qed.

Lemma pinned_object_ok row b k t :
  yields (λ x, match x with inl o => leg_ok row o | inr _ => True end) anything (resolve_pinned_object around row b k t : M _).
Proof.
  apply (yields_bind anything); [apply yields_any|]. intros [x|] _; repeat leg_step.
Qed.

Lemma cas_ok row b k d t n : 0 <= n <= 9 →
  yields (λ x, match x with Some o => leg_ok row o | None => True end) anything (object_cas_attempt around row b k d t n : M _).
Proof.
  intros Hn. unfold object_cas_attempt.
  apply (yields_bind (λ x, match x with inl o => leg_ok row o | inr _ => True end)).
  - apply (yields_catch _ anything).
    + apply (yields_bind anything); [apply yields_any|]. intros x _. leg_step.
    + intros e _. repeat leg_step.
  - intros [o|[et vi| |]] Ho; [by apply yields_ret|repeat leg_step..|].
    apply (yields_bind anything); [apply yields_any|]. intros x _. apply yields_ret.
    destruct (rd_verdict x); first [exact I|apply leg_concluded; [known_outcome|lia]].
Qed.

Lemma object_loop_ok row b k t left n pinned : 0 <= n → n + Z.of_nat left <= 9 →
  yields (leg_ok row) anything (object_loop around row b k t left n pinned : M _).
Proof.
  revert n pinned. induction left as [|left IH]; intros n pinned Hn Hl; cbn [object_loop]; [leg_step|].
  eapply yields_bind; [apply view_ok; lia|]. intros [o|[tok h]] Ho; [by apply yields_ret|].
  case_bool_decide; [leg_step|].
  apply (yields_bind (λ x, match x with inl o => leg_ok row o | inr _ => True end)).
  - destruct pinned; [leg_step|apply pinned_object_ok].
  - intros [o|d] Ho'; [by apply yields_ret|]. eapply yields_bind; [apply cas_ok; lia|].
    intros [o|] Ho''; [by apply yields_ret|]. apply IH; lia.
Qed.

Lemma file_loop_ok row left n pinned : 0 <= n → n + Z.of_nat left <= 9 →
  yields (leg_ok row) anything (file_loop around row left n pinned : M _).
Proof.
  revert n pinned. induction left as [|left IH]; intros n pinned Hn Hl; cbn [file_loop]; [leg_step|].
  apply (yields_bind anything); [apply yields_attempt|]. intros [[d ver]|] _; [|leg_step].
  case_bool_decide; [leg_step|].
  apply (yields_bind (λ x, match x with inl o => leg_ok row o | inr _ => True end)).
  - destruct pinned; [leg_step|]. apply (yields_bind anything); [apply yields_attempt|]. intros [x|] _; apply yields_ret;
      [case_bool_decide; [|exact I]|]; apply leg_concluded; first [known_outcome|lia].
  - intros [o|d'] Ho'; [by apply yields_ret|].
    apply (yields_bind (λ x, match x with Some o => leg_ok row o | None => True end)).
    + apply (yields_catch _ anything); [|intros e _; repeat leg_step].
      apply (yields_bind anything); [apply yields_any|]. intros x _. leg_step.
    + intros [o|] Ho''; [by apply yields_ret|]. apply IH; lia.
Qed.

Lemma drive_ok row : yields (leg_ok row) anything (drive_member_absorbing around v row : M _).
Proof.
  apply (yields_catch _ anything); [|intros e _; repeat leg_step]. unfold drive_member.
  destruct (cm_absent row).
  - apply (yields_bind anything); [apply yields_any|]. intros m _.
    destruct m as [p w|p b k|p]; cbn [drive_absent_member]; unfold drive_file_absent_leg, drive_object_delete_leg.
    all: apply (yields_bind anything); [apply yields_attempt|]; intros [x|] _; try by repeat leg_step.
    apply (yields_bind anything); [apply yields_any|]. intros d _.
    apply (yields_bind anything); [apply yields_any|]. intros now _. leg_step.
  - case_bool_decide; [leg_step|]. apply (yields_bind anything); [apply yields_any|]. intros m _.
    destruct m as [p w|p b k|p]; [by apply file_loop_ok| |leg_step].
    unfold drive_object_leg. destruct (cm_native_token row); [by apply object_loop_ok|leg_step].
Qed.
End legs.

(** ** A run and the manifest *)
Section run.
Context {E : Type} `{!Env E} (around : Surroundings) (v : Versioner) (id : string).
Hypothesis Hkeep : peers_keep around id.
Local Abbreviation M := (@M E).
Local Abbreviation stored := (@stored E id).

Definition kept (s s' : Site E) : Prop := ∀ cp rows, stored cp rows s → stored cp rows s'.
#[local] Instance kept_preorder : PreOrder kept.
Proof. split; [by intros ???|]. intros s1 s2 s3 H1 H2 cp rows Hs. by apply H2, H1. Qed.

Lemma kept_triple {A} (m : M A) : (∀ cp rows, triple (stored cp rows) m (λ _, stored cp rows) (λ _, stored cp rows)) →
  respects kept m.
Proof. intros Hm s cp rows Hs. specialize (Hm cp rows s Hs). by destruct (m s) as [[a|e] s']. Qed.
Lemma triple_kept {A} (m : M A) cp rows : respects kept m → triple (stored cp rows) m (λ _, stored cp rows) (λ _, stored cp rows).
Proof. intros Hm s Hs. specialize (Hm s cp rows Hs). by destruct (m s) as [[a|e] s']. Qed.

Lemma kept_world {A} (m : @WM E A) : respects kept (on_world around m).
Proof using Hkeep. apply kept_triple. intros. by apply triple_world. Qed.
Lemma kept_tick : respects kept (tick around).
Proof. by intros s cp rows Hs. Qed.
Lemma kept_register writes at_ : respects kept (store_register around v id writes at_ : M _).
Proof using Hkeep. apply kept_triple. intros. by apply triple_register. Qed.
Lemma kept_registered p f : respects kept (store_registered around p f : M _).
Proof using Hkeep.
  apply kept_triple. intros cp rows.
  by apply (triple_service around id Hkeep cp rows _ (λ _, shows id cp rows) (λ _, shows id cp rows)).
Qed.
Ltac kept_leaf := first [apply kept_world | apply kept_tick | apply kept_register | apply kept_registered].

Lemma kept_object_loop row b k t left n pinned : respects kept (object_loop around row b k t left n pinned : M _).
Proof using Hkeep.
  revert n pinned. induction left as [|left IH]; intros n pinned; cbn [object_loop]; [by apply respects_pure; try apply _|].
  unfold object_live_view, object_cas_attempt, resolve_pinned_object, attempt.
  respects_tac ltac:(first [kept_leaf | apply IH]).
Qed.
Lemma kept_file_loop row left n pinned : respects kept (file_loop around row left n pinned : M _).
Proof using Hkeep.
  revert n pinned. induction left as [|left IH]; intros n pinned; cbn [file_loop]; [by apply respects_pure; try apply _|].
  unfold file_cas_attempt, resolve_pinned_file, attempt.
  respects_tac ltac:(first [kept_leaf | apply IH]).
Qed.
Lemma kept_drive row : respects kept (drive_member_absorbing around v row : M _).
Proof using Hkeep.
  unfold drive_member_absorbing, drive_member, drive_absent_member, drive_object_delete_leg, drive_file_absent_leg,
    drive_object_leg, drive_file_leg, attempt.
  respects_tac ltac:(first [kept_leaf | apply kept_object_loop | apply kept_file_loop]).
Qed.
Lemma kept_registration_loop writes sub del left n last :
  respects kept (registration_loop around v id writes sub del left n last : M _).
Proof using Hkeep.
  revert n last. induction left as [|left IH]; intros n last; cbn [registration_loop]; [by apply respects_pure; try apply _|].
  unfold attempt. respects_tac ltac:(first [kept_leaf | apply IH]).
Qed.
Lemma kept_seam rows outcomes prior : respects kept (registration_seam around v id rows outcomes prior : M _).
Proof using Hkeep.
  unfold registration_seam, drive_registration. respects_tac ltac:(first [kept_leaf | apply kept_registration_loop]).
Qed.
Lemma kept_unregistered writes : respects kept (unregistered around writes : M _).
Proof using Hkeep. induction writes as [|w writes IH]; cbn [unregistered]; respects_tac ltac:(first [kept_leaf | apply IH]). Qed.
Lemma kept_report rows : respects kept (report_from_durable_rows around id rows : M _).
Proof using Hkeep.
  unfold report_from_durable_rows, registration_from_durable_state. respects_tac ltac:(first [kept_leaf | apply kept_unregistered]).
Qed.

Definition known_row (row : CheckpointMember) : Prop :=
  ∀ o, cm_restore_outcome row = Some o → o ∈ RESTORE_MEMBER_OUTCOMES.

Lemma restore_row_run cp done row todo : NoDup (map cm_member_path (done ++ row :: todo)) → known_row row →
  triple (stored cp (done ++ row :: todo)) (restore_row around v id row : M _)
    (λ o s, ∃ row', row_progress row row' ∧ mirrors row' o ∧ stored cp (done ++ row' :: todo) s)
    (λ _ s, ∃ row', row_progress row row' ∧ stored cp (done ++ row' :: todo) s).
Proof using Hkeep.
  intros Hnd Hk. unfold restore_row. destruct (cm_restore_outcome row) as [o|] eqn:Eo.
  - apply triple_ret. intros s Hs. exists row. split; [by left|]. split; [|done].
    split; simpl; try done; rewrite Eo; [done|]. by apply Hk.
  - eapply triple_bind.
    { eapply triple_conseq; [apply triple_yields; [apply triple_kept, kept_drive|apply drive_ok]|by intros s Hs| |].
      - intros o s H. exact H.
      - intros e s [_ H]. exists row. by split; [left|]. }
    intros o. apply triple_pure. intros Ho. eapply triple_bind.
    + eapply triple_conseq; [apply triple_outcome; [done| |apply Ho]|by intros s Hs|intros u s Hs; exact Hs|].
      * rewrite <-fmap_is_map, fmap_app. simpl. set_solver.
      * intros e s [Hs|Hs]; [exists row; by split; [left|]|]. rewrite set_row_app in Hs by done.
        eexists. split; [right; split; [done|]; eexists _, _; split; [apply Ho|reflexivity]|exact Hs].
    + intros u. apply triple_ret. intros s Hs. rewrite set_row_app in Hs by done.
      eexists. split; [right; split; [done|]; eexists _, _; split; [apply Ho|reflexivity]|]. split; [|exact Hs].
      destruct Ho. by split.
Qed.

Lemma restore_rows_run cp todo done : NoDup (map cm_member_path (done ++ todo)) → Forall known_row todo →
  triple (stored cp (done ++ todo)) (mapm (restore_row around v id) todo : M _)
    (λ outs s, ∃ rows', Forall2 row_progress todo rows' ∧ Forall2 mirrors rows' outs ∧ stored cp (done ++ rows') s)
    (λ _ s, ∃ rows', Forall2 row_progress todo rows' ∧ stored cp (done ++ rows') s).
Proof using Hkeep.
  revert done. induction todo as [|row todo IH]; intros done Hnd Hk; cbn [mapm].
  { apply triple_ret. intros s Hs. exists []. split_and!; [constructor..|done]. }
  apply Forall_cons in Hk as [Hrow Hk]. eapply triple_bind.
  { eapply triple_conseq; [by apply restore_row_run|by intros s Hs| |].
    - intros o s H. exact H.
    - intros e s (row' & Hp & Hs). exists (row' :: todo). split; [|done]. constructor; [done|reflexivity]. }
  intros o. apply triple_exists. intros row'. apply triple_pure. intros Hp. apply triple_pure. intros Hm.
  eapply triple_bind.
  { eapply triple_conseq; [apply (IH (done ++ [row'])%list); [|done]| | |].
    - rewrite <-app_assoc. simpl. rewrite map_app in *. simpl in *.
      assert (cm_member_path row' = cm_member_path row) as -> by (by destruct Hp as [->|(_ & ? & ? & _ & ->)]). done.
    - intros s Hs. by rewrite <-app_assoc.
    - intros outs s H. exact H.
    - intros e s (rows' & Hf & Hs). exists (row' :: rows'). split; [by constructor|]. by rewrite <-app_assoc in Hs. }
  intros outs. apply triple_exists. intros rows'. apply triple_pure. intros Hf. apply triple_pure. intros Hms.
  apply triple_ret. intros s Hs. exists (row' :: rows'). split_and!; [by constructor..|]. by rewrite <-app_assoc in Hs.
Qed.

Lemma known_state record rows : require_known_restore_state record rows = Ok tt →
  Forall known_row rows ∧
  (cp_restore_status record = "concluded" → Forall (λ row, cm_restore_outcome row ≠ None) rows).
Proof.
  unfold require_known_restore_state. destruct (negb _); [done|]. destruct (existsb _ rows) eqn:Ek; [done|].
  intros Hc. split.
  - apply Forall_forall. intros row Hin o Ho. apply not_true_iff_false in Ek. destruct (decide (o ∈ RESTORE_MEMBER_OUTCOMES)); [done|].
    exfalso. apply Ek. apply existsb_exists. exists row. split; [by apply list_elem_of_In|]. rewrite Ho.
    by rewrite bool_decide_eq_false_2 by done.
  - intros Hst. rewrite bool_decide_eq_true_2 in Hc by by left. simpl in Hc. apply Forall_forall. intros row Hin Hn.
    clear Ek.
    rewrite (proj2 (existsb_exists _ rows)) in Hc; [done|].
    exists row. split; [by apply list_elem_of_In|]. by apply bool_decide_eq_true_2.
Qed.

Lemma durable_mirrors rows : Forall known_row rows → Forall (λ row, cm_restore_outcome row ≠ None) rows →
  Forall2 mirrors rows (map outcome_from_durable_row rows).
Proof.
  intros Hk Hn. induction rows as [|row rows IH]; simpl; [constructor|].
  apply Forall_cons in Hk as [Hk ?], Hn as [Hn ?]. constructor; [|by apply IH].
  destruct (cm_restore_outcome row) as [o|] eqn:Eo; [|done]. split; simpl; rewrite ?Eo; try done. by apply Hk.
Qed.

(** A run that returned, and one that was cut short. *)
Definition concluded (cp : CheckpointRecord) (rows : list CheckpointMember) (rep : WorkspaceRestoreReport) (s : Site E) : Prop :=
  wr_report_checkpoint_id rep = id ∧ wr_report_status rep = "concluded" ∧
  (cp_restore_status cp = "in_progress" → rr_status (wr_report_registration rep) ≠ REG_PRIOR_RUN) ∧
  ∃ cp' rows', stored cp' rows' s ∧ header_of cp cp' ∧ cp_restore_status cp' = "concluded" ∧
    Forall2 row_progress rows rows' ∧ Forall2 mirrors rows' (wr_report_members rep).
(** Where a run that marked the header may stop: on its way, with the marker of a
    registration of its own, or, the last answer lost, at the end. *)
Definition stopped (cp cp' : CheckpointRecord) (rows' : list CheckpointMember) : Prop :=
  cp_restore_status cp' = "in_progress" ∨
  (cp_restore_status cp' = "registered" ∧ cp_restore_status cp ≠ "registered") ∨
  (cp_restore_status cp' = "concluded" ∧ Forall (λ row, is_Some (cm_restore_outcome row)) rows').
Definition cut_short (cp : CheckpointRecord) (rows : list CheckpointMember) (s : Site E) : Prop :=
  stored cp rows s ∨
  ∃ cp' rows', stored cp' rows' s ∧ header_of cp cp' ∧ stopped cp cp' rows' ∧ Forall2 row_progress rows rows'.

Lemma mark_run cp rows status : status ∈ RESTORE_STATUSES →
  triple (stored cp rows) (mark around id status : M _)
    (λ _ s, ∃ at_, stored (with_status status at_ cp) rows s)
    (λ _ s, stored cp rows s ∨ ∃ at_, stored (with_status status at_ cp) rows s).
Proof using Hkeep.
  intros Hst. eapply triple_bind; [eapply (triple_tick around id _ _ (λ _ s, stored cp rows s ∨ ∃ at_, stored (with_status status at_ cp) rows s))|]. intros now.
  eapply triple_conseq; [by apply triple_status|done|intros u s Hs; eexists; exact Hs|intros e s [Hs|Hs]; [by left|right; by eexists]].
Qed.

Lemma header_marked cp cp' st t : header_of cp cp' → header_of cp (with_status st t cp').
Proof. intros (st' & t' & ->). by exists st, (Some t). Qed.

(** A resumed run whose registration was done before does not answer that it registered. *)
Lemma seam_prior rows outcomes :
  yields (λ reg, rr_status reg = REG_PRIOR_RUN) anything (registration_seam around v id rows outcomes true : M _).
Proof.
  unfold registration_seam. apply (yields_bind anything); [apply yields_any|]. intros [[w s] d] _. by apply yields_ret.
Qed.

(** Any other run answers for a registration of its own. *)
Lemma loop_own writes sub del left n last :
  yields (λ reg, rr_status reg ≠ REG_PRIOR_RUN) anything (registration_loop around v id writes sub del left n last : M _).
Proof.
  revert n last. induction left as [|left IH]; intros n last; cbn [registration_loop]; [by apply yields_ret|].
  apply (yields_bind anything); [apply yields_any|]. intros now _. apply (yields_bind anything); [apply yields_any|].
  intros [r|] _; [|apply IH]. destruct (wr_status r); [by apply yields_ret..|]. destruct (existsb _ _); [by apply yields_ret|apply IH].
Qed.
Lemma seam_own rows outcomes :
  yields (λ reg, rr_status reg ≠ REG_PRIOR_RUN) anything (registration_seam around v id rows outcomes false : M _).
Proof.
  unfold registration_seam. apply (yields_bind anything); [apply yields_any|]. intros [[w s] d] _.
  destruct w; [by apply yields_ret|apply loop_own].
Qed.

Lemma mirrors_terminal rows outs : Forall2 mirrors rows outs → Forall (λ row, is_Some (cm_restore_outcome row)) rows.
Proof. induction 1 as [|row o rows outs Hm _ IH]; constructor; [|done]. rewrite (mi_outcome _ _ Hm). by eexists. Qed.

(** The part of the run after the header is marked. *)
Lemma drive_run cp rows prior at_ : NoDup (map cm_member_path rows) → Forall known_row rows →
  prior = bool_decide (cp_restore_status cp = "registered") →
  triple (stored (with_status "in_progress" at_ cp) rows)
    (outcomes ← mapm (restore_row around v id) rows;
     registration ← registration_seam around v id rows outcomes prior;
     match rr_status registration with REG_COMMITTED | REG_EMPTY => mark around id "registered" | _ => mret tt end ;;
     mark around id "concluded" ;;
     mret (mkReport id "concluded" outcomes registration) : M _)
    (concluded cp rows) (λ _, cut_short cp rows).
Proof using Hkeep.
  intros Hnd Hk Hprior. set (cp1 := with_status "in_progress" at_ cp).
  eapply triple_bind.
  { eapply triple_conseq; [apply (restore_rows_run cp1 rows []); [done..]|by intros s| |].
    - intros outs s H. exact H.
    - intros e s (rows' & Hp & Hs). right. exists cp1, rows'. split_and!; [done|apply header_status|by left|done]. }
  intros outs. apply triple_exists. intros rows'. apply triple_pure. intros Hp. apply triple_pure. intros Hm. simpl.
  assert (∀ cp' s, stored cp' rows' s → header_of cp cp' → stopped cp cp' rows' → cut_short cp rows s) as Hcut.
  { intros cp' s Hs Hh Hst. right. exists cp', rows'. by split_and!. }
  set (on_way s := ∃ cp', stored cp' rows' s ∧ header_of cp cp' ∧ stopped cp cp' rows').
  assert (∀ s, stored cp1 rows' s → on_way s) as Hon by (intros s Hs; exists cp1; split_and!; [done|apply header_status|by left]).
  assert (∀ s, on_way s → cut_short cp rows s) as Hcut' by (intros s (cp' & H1 & H2 & H3); by eapply Hcut).
  eapply triple_bind.
  { eapply triple_conseq; [apply triple_yields; [apply (triple_kept _ cp1 rows'), kept_seam|]|done|intros r s H; exact H|].
    - instantiate (1 := anything). instantiate (1 := λ reg, rr_status reg = REG_PRIOR_RUN ↔ prior = true).
      intros s. destruct prior; [pose proof (seam_prior rows outs s) as Hs|pose proof (seam_own rows outs s) as Hs];
        by destruct (registration_seam _ _ _ _ _ _ s) as [[]].
    - intros e s [_ Hs]. by apply Hcut', Hon. }
  intros reg. apply triple_pure. intros Hreg. simpl. apply (triple_then_exc _ _ _ on_way).
  { assert (triple (stored cp1 rows') (mret tt : M unit) (λ _, on_way) (λ _, cut_short cp rows)) as Hret
      by (apply triple_ret; exact Hon).
    assert (rr_status reg ≠ REG_PRIOR_RUN → triple (stored cp1 rows') (mark around id "registered" : M unit) (λ _, on_way) (λ _, cut_short cp rows)) as Hmark.
    { intros Hne. assert (∀ t s, stored (with_status "registered" t cp1) rows' s → on_way s) as Hregd.
      { intros t s Hs. exists (with_status "registered" t cp1). split_and!; [done|apply header_marked, header_status|]. right. left. split; [done|].
        intros Hc. apply Hne, Hreg. by rewrite Hprior, bool_decide_eq_true_2. }
      eapply triple_conseq; [apply mark_run; known_outcome|done|intros u s [t Hs]; by eapply Hregd|].
      intros e s [Hs|[t Hs]]; [by apply Hcut', Hon|by eapply Hcut', Hregd]. }
    destruct (rr_status reg); first [exact Hret|by apply Hmark]. }
  apply triple_exists. intros cp2 s (Hs & Hh & Hst). revert s Hs. eapply triple_bind.
  { eapply triple_conseq; [apply mark_run; known_outcome|done|intros u s H; exact H|].
    intros e s [Hs|[t Hs]]; [by apply (Hcut cp2)|]. apply (Hcut _ _ Hs); [by apply header_marked|]. right. right. split; [done|].
    by eapply mirrors_terminal. }
  intros u. apply triple_exists. intros t. apply triple_ret. intros s Hs.
  split; [done|]. split; [done|]. split.
  { simpl. intros Hip Hpr%Hreg. rewrite Hprior in Hpr. apply bool_decide_eq_true in Hpr. congruence. }
  exists (with_status "concluded" t cp2), rows'. split_and!; [done|by apply header_marked|done..].
Qed.

Lemma restore_run cp rows :
  triple (stored cp rows) (restore around v id : M _) (concluded cp rows) (λ _, cut_short cp rows).
Proof using Hkeep.
  unfold restore. destruct (is_blank id); [apply triple_raise; by left|].
  unfold require_restore_store. destruct (v_restore_store v); [|intros s Hs; by left].
  change (of_outcome (Ok tt) ;; restore_locked around v id) with (restore_locked (E:=E) around v id).
  unfold restore_locked.
  eapply triple_bind; [eapply triple_conseq; [apply triple_get; done|done|intros x s H; exact H|by left]|].
  intros found. apply triple_pure. intros ->.
  eapply triple_bind; [eapply triple_conseq; [apply triple_members; done|done|intros x s H; exact H|by left]|].
  intros found. apply triple_pure. intros ->.
  destruct (require_known_restore_state cp rows) as [[]|e] eqn:Eok; [|intros s Hs; by left].
  destruct (known_state _ _ Eok) as [Hk Hc].
  eapply triple_of_outcome; [done|]. case_bool_decide as Hst.
  - eapply triple_bind; [eapply triple_conseq; [apply triple_kept; unfold registration_from_durable_state;
      respects_tac ltac:(first [kept_leaf | apply kept_unregistered])|done|intros x s H; exact H|by left]|].
    intros reg. apply triple_ret. intros s Hs. split; [done|]. split; [done|]. split; [by rewrite Hst|]. exists cp, rows.
    split_and!; [done|apply header_refl|done| |]; [reflexivity|]. apply durable_mirrors; auto.
  - destruct (require_drivable v _) as [[]|e] eqn:Ed; [|intros s Hs; by left].
    eapply triple_of_outcome; [done|]. intros s0 Hs0. pose proof (shows_nodup _ _ _ _ Hs0) as Hnd. revert s0 Hs0.
    eapply triple_bind.
    { eapply triple_conseq; [apply mark_run; known_outcome|done|intros u s H; exact H|].
      intros e s [Hs|[t Hs]]; [by left|]. right. exists (with_status "in_progress" t cp), rows.
      split_and!; [done|apply header_status|by left|reflexivity]. }
    intros u. apply triple_exists. intros at_. by apply drive_run.
Qed.
End run.
