(* ===== verification/RestoreProgress.v ===== *)
(** Restores in a calm environment come to an end: no member can keep the others from
    being driven. *)
From S2P Require Import Prelude Core Registry RegistryFacts Service Checkpoints ManifestFacts.
From S2P Require Import Substrate ObjectStore Workspace WorkspaceFacts RestoreFacts.

Open Scope Z_scope.
Open Scope string_scope.

(** ** Calm environments

    The store may lose a conditional write, leave its outcome unknown, lose a version or
    the whole object, and foreign writers may write at any time; a file may vanish,
    become unreadable or be refused.  What a calm environment does not do is answer
    outside the protocol: deny access, break the transport of a read, or leave an ETag
    out. *)
Definition proper_response (versioned : bool) (resp : S3Response) : Prop :=
  (∃ t, r_etag resp = Some t ∧ is_blank t = false) ∧
  (versioned = true → is_Some (usable_version_id (r_version_id resp))).

(** What reading or writing a member may raise for good: its path is missing, unreadable or
    refused, or holds no text. *)
Definition pathological (x : exn) : bool :=
  match x with OSError _ | FileNotFoundError | UnicodeDecodeError | StructuralMemberRefused => true | _ => false end.
Definition gone_codes : list string := ["NoSuchKey"; "NoSuchVersion"; "404"].
Definition put_codes : list string := ["PreconditionFailed"; "ConditionalRequestConflict"; "NoSuchKey"; "NoSuchVersion"; "404"].

Record calm (E : Type) `{!Env E} : Prop := {
  calm_get : ∀ b k ver e, match (srv_get_object b k ver e).1 with
    | Ok resp => proper_response (bool_decide (ver ≠ None)) resp
    | Raise x => ∃ code, x = ClientError code ∧ code ∈ gone_codes
    end;
  calm_put : ∀ b k c d e, match (srv_put_object b k c d e).1 with
    | Ok resp => proper_response false resp
    | Raise x => x ≠ KeyboardInterrupt ∧ ∀ code, x = ClientError code → code ∈ put_codes
    end;
  calm_delete : ∀ b k e, ∃ resp, (srv_delete_object b k e).1 = Ok resp;
  calm_read : ∀ p e x, (srv_read_with_version p e).1 = Raise x → pathological x = true;
  calm_write : ∀ p n d e x, (srv_write_cas_at p n d e).1 = Raise x →
    pathological x = true ∨ x = ViewWedged ∨ x = CommitUnconfirmed ∨ ∃ a b, x = CasVersionConflict a b;
  calm_content : ∀ p n e x, (srv_content_at p n e).1 = Raise x → pathological x = true ∨ is_KeyError x = true;
}.

(** Rows whose pointer their leg can read. *)
Definition pointer_ok (v : Versioner) (row : CheckpointMember) : Prop :=
  match dget (declared v) (cm_member_path row) with
  | Some (FileMember _ _) => ∃ n, token_version row = Ok n
  | Some (ObjectMember _ _ _) => ∀ t, cm_native_token row = Some t → require_usable_version_pointer t = Ok t
  | _ => True
  end.

(** ** Declared members *)
Definition distinct_paths (v : Versioner) : Prop := NoDup (map member_path (v_members v)).

Lemma register_member_distinct v path m v' : (∀ p, member_path (m p) = p) →
  register_member v path m = Ok v' → distinct_paths v → distinct_paths v'.
Proof.
  unfold register_member, require_new_path. intros Hm. destruct (is_blank path); [done|].
  destruct (existsb _ _) eqn:Ex; [done|]. intros [= <-] Hnd. unfold distinct_paths in *. simpl. rewrite map_app. simpl.
  apply NoDup_app. split_and!; [done| |apply NoDup_singleton]. intros p Hp. rewrite Hm, list_elem_of_singleton. intros ->.
  apply not_true_iff_false in Ex. apply Ex, existsb_exists. apply elem_of_map in Hp as (x & -> & Hx). exists x. split; [by apply list_elem_of_In|]. by apply bool_decide_eq_true_2.
Qed.

Lemma declared_find v path : distinct_paths v →
  List.find (λ m, bool_decide (member_path m = path)) (v_members v) = dget (declared v) path.
Proof.
  intros Hnd. unfold declared.
  assert (∀ ms d, NoDup (map member_path ms) → (∀ m, m ∈ ms → dget d (member_path m) = None) →
    dget (fold_left (λ d m, dset d (member_path m) m) ms d) path =
    match List.find (λ m, bool_decide (member_path m = path)) ms with Some m => Some m | None => dget d path end) as H.
  { induction ms as [|m ms IH]; intros d Hms Hd; simpl; [done|]. apply NoDup_cons in Hms as [Hm Hms].
    rewrite IH; [|done|].
    - case_bool_decide as Hp; [|by rewrite dget_dset_ne]. subst path. rewrite dget_dset_eq.
      destruct (List.find _ ms) as [m'|] eqn:Ef; [|done]. exfalso. apply Hm.
      apply find_some in Ef as [Hin Heq%bool_decide_eq_true]. apply elem_of_map.
      exists m'. split; [done|by apply list_elem_of_In].
    - intros m' Hm'. rewrite dget_dset_ne; [apply Hd; by right|]. intros Heq. apply Hm. apply elem_of_map. by exists m'. }
  rewrite H; [by destruct (List.find _ _)|done|done].
Qed.

Lemma is_blank_empty : is_blank "" = true.
Proof. done. Qed.
Lemma is_blank_nonempty t : is_blank t = false → t ≠ "".
Proof. by intros H ->. Qed.

Lemma put_calm x : x ≠ KeyboardInterrupt ∧ (∀ code, x = ClientError code → code ∈ put_codes) →
  is_exception x = true ∧ classify_put_exception x ≠ None.
Proof.
  intros [Hk Hc]. split; [by destruct x|]. unfold classify_put_exception. destruct (s3_error_code x) as [code|] eqn:Ec; [|done].
  assert (x = ClientError code) as Hx by (destruct x; simplify_eq/=; done). specialize (Hc code Hx).
  repeat case_bool_decide; try done. unfold put_codes, CODE_PRECONDITION_FAILED, CODE_CONDITIONAL_CONFLICT, NOT_FOUND_CODES in *. set_solver.
Qed.

Section calm.
Context {E : Type} `{!Env E} (Hcalm : calm E) (around : Surroundings) (v : Versioner).
Hypothesis Hquiet : ∀ n, fault around n = None.
Local Abbreviation M := (@M E).
Local Abbreviation WM := (@WM E).

Lemma yields_call {A} (Q : A → Prop) (X : exn → Prop) (m : proc exn E A) ev :
  yields Q X m → yields Q X (call m ev : WM A).
Proof. intros Hm w. unfold call. specialize (Hm (w_env w)). destruct (m (w_env w)) as [[a|e] e']; exact Hm. Qed.

Lemma yields_world {A} (Q : A → Prop) X (m : WM A) : yields Q X m → yields Q X (on_world around m).
Proof using Hquiet.
  intros Hm s. unfold on_world, calling. rewrite Hquiet. unfold zoom. simpl.
  specialize (Hm (site_world s)). destruct (m (site_world s)) as [[a|e] w]; exact Hm.
Qed.

Definition is_key (e : exn) : Prop := is_KeyError e = true.

Lemma get_calm b k ver :
  yields (proper_response (bool_decide (ver ≠ None))) is_key (get_object_typed b k ver : WM _).
Proof using Hcalm.
  apply (yields_catch _ (λ x, ∃ code, x = ClientError code ∧ code ∈ gone_codes)).
  - apply yields_call. intros e. apply Hcalm.
  - intros e (code & -> & Hin). cbn [s3_error_code].
    rewrite (bool_decide_eq_true_2 (code ∈ NOT_FOUND_CODES)) by done. by apply yields_raise.
Qed.

Lemma etag_calm vd resp : proper_response vd resp → ∃ t, require_response_etag resp = Ok t ∧ is_blank t = false.
Proof.
  intros [(t & Ht & Hb) _]. exists t. unfold require_response_etag. rewrite Ht.
  rewrite bool_decide_eq_false_2 by by apply is_blank_nonempty. done.
Qed.

Lemma read_calm b k : yields anything is_key (read b k : WM _).
Proof using Hcalm.
  eapply yields_bind; [apply get_calm|]. intros resp Hr. destruct (etag_calm _ _ Hr) as (t & -> & _).
  apply (yields_bind anything); [by apply yields_of_outcome|]. intros x _. by apply yields_ret.
Qed.

(** A versioned read: the ETag is usable, or there is no object, or no version id. *)
Lemma read_versioned_calm b k :
  yields (λ r, is_blank (vr_etag r) = false) (λ e, is_key e ∨ e = VersionPointerUnconfirmed None)
    (read_versioned b k : WM _).
Proof using Hcalm.
  eapply yields_bind; [eapply yields_conseq; [apply get_calm|intros x H; exact H|by left]|].
  intros resp Hr. destruct (etag_calm _ _ Hr) as (t & Ht & Hb). unfold versioned_of. rewrite Ht.
  apply (yields_bind (λ x, x = t)); [by apply yields_of_outcome|]. intros x ->.
  apply (yields_bind anything); [|intros y _; by apply yields_ret].
  apply yields_of_outcome. unfold require_response_version_id. destruct (usable_version_id _); [done|by right].
Qed.

Lemma read_pinned_calm b k t : require_usable_version_pointer t = Ok t → yields anything is_key (read_pinned b k t : WM _).
Proof using Hcalm.
  intros Ht. unfold read_pinned. rewrite Ht. apply (yields_bind (λ x, x = t)); [by apply yields_of_outcome|]. intros x ->.
  eapply yields_bind; [apply get_calm|]. intros resp Hr. destruct (etag_calm _ _ Hr) as (e & He & _).
  unfold versioned_of. rewrite He. apply (yields_bind anything); [by apply yields_of_outcome|]. intros x _.
  apply (yields_bind anything); [|intros y _; by apply yields_ret].
  apply yields_of_outcome. unfold require_response_version_id.
  destruct Hr as [_ Hv]. destruct Hv as [y Hy]; [done|]. by rewrite Hy.
Qed.

Definition cas_exn (e : exn) : Prop :=
  (∃ n, e = ConditionalPutRetriesExhausted n) ∨ ∃ t, e = VersionPointerUnconfirmed t.
Lemma put_loop_calm b k c d left n : yields anything cas_exn (put_loop b k c d left n : WM _).
Proof using Hcalm.
  revert n. induction left as [|left IH]; intros n w; cbn [put_loop]; unfold put_object, call;
    pose proof (calm_put _ Hcalm b k c d (w_env w)) as Hp;
    destruct (srv_put_object b k c d (w_env w)) as [[resp|e] e'].
  all: try (destruct (etag_calm _ _ Hp) as (t & -> & _); unfold of_outcome, mbind, proc_bind;
            destruct (usable_version_id _); simpl; first [done|by right; eexists]).
  all: apply put_calm in Hp as [-> Hc]; destruct (classify_put_exception e) as [[| | | |]|]; try done.
  - left. by eexists.
  - apply IH.
Qed.
Lemma cas_write_calm b k t d : is_blank t = false ∨ t = CREATE_IF_ABSENT →
  yields anything cas_exn (cas_write_versioned b k t d : WM _).
Proof using Hcalm.
  intros Ht. unfold cas_write_versioned, put_kwargs. case_bool_decide as Hc.
  - apply (yields_bind anything); [by apply yields_of_outcome|]. intros. apply put_loop_calm.
  - destruct Ht as [Ht|]; [|done]. unfold require_usable_token. rewrite Ht.
    apply (yields_bind anything); [by apply yields_of_outcome|]. intros. apply put_loop_calm.
Qed.

Lemma reconcile_calm b k t h : yields anything (λ _, False) (reconcile_after_unknown b k t h : WM _).
Proof using Hcalm.
  apply (yields_bind anything).
  - apply (yields_catch _ is_key).
    + apply (yields_bind anything); [apply read_calm|]. intros. by apply yields_ret.
    + intros e He. by destruct e.
  - intros x _. by apply yields_ret.
Qed.

(** ** Legs *)
Lemma attempt_calm {A} (answers : exn → bool) (Q : A → Prop) (X : exn → Prop) (m : M A) :
  yields Q (λ e, answers e = true ∨ X e) m →
  yields (λ x, match x with Some a => Q a | None => True end) X (attempt answers m).
Proof.
  intros Hm. apply (yields_catch _ (λ e, answers e = true ∨ X e)).
  - apply (yields_bind Q); [done|]. intros a Ha. by apply yields_ret.
  - intros e [->|He]; [by apply yields_ret|]. destruct (answers e); [by apply yields_ret|by apply yields_raise].
Qed.

Lemma object_loop_calm row b k t left n pinned : require_usable_version_pointer t = Ok t →
  yields anything (λ _, False) (object_loop around row b k t left n pinned : M _).
Proof using Hcalm Hquiet.
  intros Ht. revert n pinned. induction left as [|left IH]; intros n pinned; cbn [object_loop]; [by apply yields_ret|].
  apply (yields_bind (λ x, match x with inl _ => True | inr (tok, _) => is_blank tok = false ∨ tok = CREATE_IF_ABSENT end)).
  { eapply yields_catch.
    - eapply yields_bind; [apply yields_world, read_versioned_calm|]. intros r Hr. apply yields_ret. by left.
    - intros e [He| ->]; [|by apply yields_ret]. destruct e; try done. apply yields_ret. by right. }
  intros [o|[tok h]] Htok; [by apply yields_ret|]. case_bool_decide; [by apply yields_ret|].
  apply (yields_bind anything).
  { destruct pinned; [by apply yields_ret|]. apply (yields_bind anything); [|intros; by apply yields_ret].
    eapply yields_conseq; [apply (attempt_calm _ anything (λ _, False))|done|done].
    eapply yields_conseq; [by apply yields_world, read_pinned_calm|done|by left]. }
  intros [o|d] _; [by apply yields_ret|].
  apply (yields_bind anything); [|intros [o|] _; [by apply yields_ret|apply IH]].
  unfold object_cas_attempt. apply (yields_bind anything).
  { eapply yields_catch.
    - apply (yields_bind anything); [by apply yields_world, cas_write_calm|]. intros. by apply yields_ret.
    - intros e [[m ->]|[m ->]]; by apply yields_ret. }
  intros [o|[et vi| |]] _; try by apply yields_ret.
  apply (yields_bind anything); [apply yields_world, reconcile_calm|]. intros. by apply yields_ret.
Qed.

(** What escapes a file leg is absorbed. *)
Definition absorbs (e : exn) : Prop := pathological e = true.
Lemma absorbs_absorbed e : absorbs e → absorbed e = true.
Proof. by destruct e. Qed.

Lemma file_read_calm p : yields anything (λ e, is_FileNotFoundError e = true ∨ absorbs e) (on_world around (read_with_version p) : M _).
Proof using Hcalm Hquiet.
  apply yields_world, yields_call. intros e. pose proof (calm_read _ Hcalm p e) as H.
  destruct (srv_read_with_version p e) as [[a|x] e']; [done|]. right. by apply H.
Qed.

Lemma file_loop_calm row left n pinned ver : token_version row = Ok ver →
  yields anything absorbs (file_loop around row left n pinned : M _).
Proof using Hcalm Hquiet.
  intros Ht. revert n pinned. induction left as [|left IH]; intros n pinned; cbn [file_loop]; [by apply yields_ret|].
  eapply yields_bind; [apply attempt_calm, file_read_calm|]. intros [[d vn]|] _; [|by apply yields_ret].
  case_bool_decide as Hsame; [by apply yields_ret|]. apply (yields_bind anything).
  { destruct pinned; [by apply yields_ret|]. apply (yields_bind anything); [|intros; by apply yields_ret].
    eapply yields_conseq; [apply (attempt_calm _ anything absorbs)|done|done]. rewrite Ht.
    apply (yields_bind anything); [by apply yields_of_outcome|]. intros m _. apply yields_world, yields_call. intros e.
    pose proof (calm_content _ Hcalm (cm_member_path row) m e) as H.
    destruct (srv_content_at _ _ e) as [[a|x] e']; [done|]. destruct (H x eq_refl); [by right|by left]. }
  intros [o|d'] _; [by apply yields_ret|].
  apply (yields_bind anything); [|intros [o|] _; [by apply yields_ret|apply IH]].
  apply (yields_catch _ (λ x, absorbs x ∨ x = ViewWedged ∨ x = CommitUnconfirmed ∨ ∃ a b, x = CasVersionConflict a b)).
  - apply (yields_bind anything); [|intros; by apply yields_ret]. apply yields_world, yields_call. intros e.
    pose proof (calm_write _ Hcalm (cm_member_path row) vn d' e) as H.
    destruct (srv_write_cas_at _ _ _ e) as [[a|x] e']; [done|]. by apply H.
  - intros e [He|[->|[->|(x & y & ->)]]]; [|by apply yields_ret..]. destruct e; try done; by apply yields_raise.
Qed.

(** Every drivable member reaches an outcome, whatever the calm environment does. *)
Lemma drive_calm row : distinct_paths v → undrivable v row = false → pointer_ok v row →
  yields (leg_ok row) (λ _, False) (drive_member_absorbing around v row : M _).
Proof using Hcalm Hquiet.
  intros Hnd Hd Hp s. pose proof (drive_ok around v row s) as Hok. revert Hok.
  assert (yields anything (λ _, False) (drive_member_absorbing around v row : M _)) as Hy.
  2: { specialize (Hy s). by destruct (drive_member_absorbing around v row s) as [[a|e] s']. }
  clear s. apply (yields_catch _ absorbs).
  2: { intros e He%absorbs_absorbed. rewrite He. by apply yields_ret. }
  unfold undrivable in Hd. unfold pointer_ok in Hp. unfold drive_member, require_binding. rewrite declared_find by done.
  destruct (cm_absent row); cbn [negb andb] in Hd.
  - destruct (dget (declared v) (cm_member_path row)) as [[p w|p b k|p]|] eqn:Em; try done.
    all: apply (yields_bind (λ m, Some m = dget (declared v) (cm_member_path row))); [by apply yields_of_outcome|].
    all: intros m Hm; rewrite Em in Hm; injection Hm as ->; cbn [drive_absent_member].
    + eapply yields_bind; [apply attempt_calm, file_read_calm|]. intros. by apply yields_ret.
    + apply (yields_bind anything).
      { eapply yields_conseq; [apply (attempt_calm _ anything (λ _, False))|done|done].
        eapply yields_conseq; [apply yields_world, read_calm|done|by left]. }
      intros [x|] _; [|by apply yields_ret]. apply (yields_bind anything).
      2: { intros d _. apply (yields_bind anything); [by intros ?|]. intros; by apply yields_ret. }
      apply yields_world. apply (yields_bind anything); [|intros; by apply yields_ret]. apply yields_call. intros e.
      destruct (calm_delete _ Hcalm b k e) as [resp Hr]. destruct (srv_delete_object b k e) as [[a|x'] e']; done.
  - destruct (bool_decide (cm_restore_tier row = restore_tier_value TIER_FORWARD_ONLY)); [by intros ?|].
    destruct (dget (declared v) (cm_member_path row)) as [[p w|p b k|p]|] eqn:Em; try done.
    all: apply (yields_bind (λ m, Some m = dget (declared v) (cm_member_path row))); [by apply yields_of_outcome|].
    all: intros m Hm; rewrite Em in Hm; injection Hm as ->.
    + destruct Hp as [ver Hver]. by eapply file_loop_calm.
    + unfold drive_object_leg. destruct (cm_native_token row) as [t|] eqn:Et; [|by apply yields_ret].
      eapply yields_conseq; [apply object_loop_calm; by apply Hp|done|done].
Qed.

(** ** The whole run *)
Section run.
Context (id : string) (Hkeep : peers_keep around id).
Local Abbreviation stored := (@stored E id).

Lemma triple_service_calm {A} cp rows (m : nat → RM A) Q X :
  (∀ n r, shows id cp rows r → match m n r with (Ok a, r') => Q a r' | (Raise e, r') => X e r' end) →
  triple (stored cp rows) (on_store around m : M A) (λ a s, Q a (site_registry s)) (λ e s, X e (site_registry s)).
Proof using Hkeep Hquiet.
  intros Hm s Hs. unfold on_store, calling. rewrite Hquiet. unfold zoom. simpl.
  pose proof (stored_peers _ _ Hkeep _ _ _ (site_calls s) (site_world s) Hs) as Hp.
  specialize (Hm (site_calls s) _ Hp). simpl in *.
  by destruct (m (site_calls s) (peers around (site_calls s) (site_registry s))) as [[a|e] r'].
Qed.

Lemma status_calm cp rows status at_ : status ∈ RESTORE_STATUSES →
  triple (stored cp rows) (store_status around id status at_ : M _) (λ _ _, True) (λ _ _, False).
Proof using Hkeep Hquiet.
  intros Hst. apply (triple_service_calm cp rows _ (λ _ _, True) (λ _ _, False)). intros n r [Hcp _ _].
  unfold set_workspace_checkpoint_restore_status. rewrite bool_decide_eq_true_2 by done. simpl.
  unfold set_checkpoint_restore_status, mbind, proc_bind, require_checkpoint. unfold get_checkpoint in Hcp. by rewrite Hcp.
Qed.
Lemma mark_calm cp rows status : status ∈ RESTORE_STATUSES →
  triple (stored cp rows) (mark around id status : M _)
    (λ _ s, ∃ at_, stored (with_status status at_ cp) rows s) (λ _ _, False).
Proof using Hkeep Hquiet.
  intros Hst. eapply triple_returns; [by apply (mark_run around id Hkeep)|].
  eapply triple_bind; [apply triple_tick|]. intros now. by apply status_calm.
Qed.

Lemma outcome_calm cp rows path o d : path ∈ map cm_member_path rows → o ∈ RESTORE_MEMBER_OUTCOMES →
  triple (stored cp rows) (store_outcome around id path o d : M _) (λ _ _, True) (λ _ _, False).
Proof using Hkeep Hquiet.
  intros Hin Ho. apply (triple_service_calm cp rows _ (λ _ _, True) (λ _ _, False)). intros n r Hr.
  unfold set_workspace_checkpoint_member_restore. rewrite bool_decide_eq_true_2 by done.
  change (match update_member id path (with_outcome o d) r with (Ok _, _) => True | (Raise _, _) => False end).
  by destruct (update_member_shows _ _ _ _ _ (with_outcome o d) Hr Hin ltac:(done)) as (r' & -> & _).
Qed.

Definition drivable (row : CheckpointMember) : Prop :=
  known_row row ∧ (cm_restore_outcome row = None → undrivable v row = false ∧ pointer_ok v row).

Lemma restore_row_calm cp done row todo : distinct_paths v → NoDup (map cm_member_path (done ++ row :: todo)) → drivable row →
  triple (stored cp (done ++ row :: todo)) (restore_row around v id row : M _)
    (λ o s, ∃ row', row_progress row row' ∧ mirrors row' o ∧ stored cp (done ++ row' :: todo) s) (λ _ _, False).
Proof using Hcalm Hkeep Hquiet.
  intros Hdp Hnd [Hk Hd].
  eapply triple_returns; [by apply (restore_row_run around v id Hkeep)|].
  unfold restore_row. destruct (cm_restore_outcome row) as [o|] eqn:Eo; [by apply triple_ret|].
  destruct (Hd eq_refl) as [Hu Hp]. eapply triple_bind.
  { eapply triple_conseq; [apply triple_yields; [by apply triple_kept, kept_drive|by apply drive_calm]|done|intros o s H; exact H|by intros e s [H _]]. }
  intros o. apply triple_pure. intros Ho. eapply triple_bind; [apply outcome_calm; [|apply Ho]|by intros; apply triple_ret].
  rewrite <-fmap_is_map, fmap_app. simpl. set_solver.
Qed.

Lemma restore_rows_calm cp todo done : distinct_paths v → NoDup (map cm_member_path (done ++ todo)) → Forall drivable todo →
  triple (stored cp (done ++ todo)) (mapm (restore_row around v id) todo : M _)
    (λ outs s, ∃ rows', Forall2 row_progress todo rows' ∧ Forall2 mirrors rows' outs ∧ stored cp (done ++ rows') s)
    (λ _ _, False).
Proof using Hcalm Hkeep Hquiet.
  intros Hdp. revert done. induction todo as [|row todo IH]; intros done Hnd Hk; cbn [mapm].
  { apply triple_ret. intros s Hs. exists []. split_and!; [constructor..|done]. }
  apply Forall_cons in Hk as [Hrow Hk]. eapply triple_bind; [by apply restore_row_calm|].
  intros o. apply triple_exists. intros row'. apply triple_pure. intros Hp. apply triple_pure. intros Hm.
  eapply triple_bind.
  { eapply triple_conseq; [apply (IH (done ++ [row'])%list); [|done]|intros s Hs; by rewrite <-app_assoc|intros outs s H; exact H|done].
    rewrite <-app_assoc. simpl. rewrite map_app in *. simpl in *.
    assert (cm_member_path row' = cm_member_path row) as -> by (by destruct Hp as [->|(_ & ? & ? & _ & ->)]). done. }
  intros outs. apply triple_exists. intros rows'. apply triple_pure. intros Hf. apply triple_pure. intros Hms.
  apply triple_ret. intros s Hs. exists (row' :: rows'). split_and!; [by constructor..|]. by rewrite <-app_assoc in Hs.
Qed.

(** ** Registration *)
Lemma row_by_path_Some rows path : path ∈ map cm_member_path rows → is_Some (dget (row_by_path rows) path).
Proof.
  intros Hin. unfold row_by_path.
  assert (∀ l d, (path ∈ map cm_member_path l ∨ is_Some (dget d path)) →
    is_Some (dget (fold_left (λ d row, dset d (cm_member_path row) row) l d) path)) as H; [|apply H; by left].
  induction l as [|row l IH]; intros d Hd; simpl in *; [destruct Hd as [Hd|]; [by apply elem_of_nil in Hd|done]|].
  apply IH. rewrite dget_dset. case_decide; [right; by eexists|].
  destruct Hd as [[->|Hd]%elem_of_cons|Hd]; [done|by left|by right].
Qed.
Lemma classify_total rows outs acc : Forall (λ o, is_Some (dget rows (mo_member_path o))) outs →
  ∃ acc', classify_outcomes rows outs acc = Ok acc'.
Proof.
  intros Ho. revert acc. induction Ho as [|o outs [row Hrow] _ IH]; intros acc; simpl; [by eexists|]. rewrite Hrow. apply IH.
Qed.

(** An exception the registration call raised. *)
Definition registration_raised (e : exn) : Prop :=
  ∃ n r writes at_, writes ≠ [] ∧ (register_workspace_restore (mints around n) id (v_owner v) writes at_ false r).1 = Raise e.

Lemma registration_loop_calm writes sub del left n last : writes ≠ [] →
  yields anything registration_raised (registration_loop around v id writes sub del left n last : M _).
Proof using Hquiet.
  intros Hw. revert n last. induction left as [|left IH]; intros n last; cbn [registration_loop]; [by apply yields_ret|].
  apply (yields_bind anything); [by intros ?|]. intros now _. eapply yields_bind.
  { apply (attempt_calm _ anything). intros s. unfold store_register, on_store, calling. rewrite Hquiet. unfold zoom. simpl.
    destruct (register_workspace_restore _ _ _ _ _ _ _) as [[a|e] r'] eqn:Er; [done|]. right. repeat eexists; [done|].
    by rewrite Er. }
  intros [res|] _; [|apply IH]. destruct (wr_status res); [by apply yields_ret..|].
  destruct (existsb _ _); [by apply yields_ret|apply IH].
Qed.
Lemma seam_calm rows outs prior : Forall (λ o, is_Some (dget (row_by_path rows) (mo_member_path o))) outs →
  yields anything registration_raised (registration_seam around v id rows outs prior : M _).
Proof using Hquiet.
  intros Ho. unfold registration_seam. destruct (classify_total _ _ ([], [], []) Ho) as [[[w sub] del] ->].
  apply (yields_bind (λ x, x = (w, sub, del))); [by apply yields_of_outcome|]. intros x ->.
  destruct prior; [by apply yields_ret|]. destruct w as [|w0 w]; [by apply yields_ret|]. by apply registration_loop_calm.
Qed.

(** ** The run *)
Lemma reads_calm {A} cp rows (f : Registry → A) :
  triple (stored cp rows) (on_store around (λ _, gets f) : M A) (λ _ _, True) (λ _ _, False).
Proof using Hkeep Hquiet. by apply (triple_service_calm cp rows _ (λ _ _, True) (λ _ _, False)). Qed.

Lemma unregistered_calm writes : yields anything (λ _, False) (unregistered around writes : M _).
Proof using Hquiet.
  induction writes as [|w writes IH]; cbn [unregistered]; [by apply yields_ret|].
  apply (yields_bind anything).
  - intros s. unfold store_registered, on_store, calling. by rewrite Hquiet.
  - intros b _. apply (yields_bind anything); [apply IH|]. by intros; apply yields_ret.
Qed.

Definition all_settled (rows : list CheckpointMember) : Prop := Forall (λ row, cm_restore_outcome row ≠ None) rows.

(** Only the registration can end the run early, and then every member has its outcome. *)
Definition unregistered_run (rows : list CheckpointMember) (e : exn) (s : Site E) : Prop :=
  registration_raised e ∧
  ∃ cp' rows', stored cp' rows' s ∧ cp_restore_status cp' = "in_progress" ∧ Forall2 row_progress rows rows' ∧ all_settled rows'.

Lemma mirrors_settled rows outs : Forall2 mirrors rows outs → all_settled rows.
Proof. induction 1 as [|row o rows outs Hm _ IH]; constructor; [|done]. by rewrite (mi_outcome _ _ Hm). Qed.

Lemma mirrors_paths rows rows' outs : Forall2 row_progress rows rows' → Forall2 mirrors rows' outs →
  Forall (λ o, is_Some (dget (row_by_path rows) (mo_member_path o))) outs.
Proof.
  intros Hp Hm. apply progress_paths in Hp. apply Forall_forall. intros o Ho. apply row_by_path_Some. rewrite <-Hp. clear Hp.
  induction Hm as [|row o' rows1 outs1 H1 _ IH]; [by apply elem_of_nil in Ho|]. simpl.
  apply elem_of_cons in Ho as [->|Ho]; [rewrite (mi_path _ _ H1); by left|right; by apply IH].
Qed.

Lemma drive_run_calm cp rows prior at_ : distinct_paths v → NoDup (map cm_member_path rows) → Forall drivable rows →
  triple (stored (with_status "in_progress" at_ cp) rows)
    (outcomes ← mapm (restore_row around v id) rows;
     registration ← registration_seam around v id rows outcomes prior;
     match rr_status registration with REG_COMMITTED | REG_EMPTY => mark around id "registered" | _ => mret tt end ;;
     mark around id "concluded" ;;
     mret (mkReport id "concluded" outcomes registration) : M _)
    (λ _ _, True) (unregistered_run rows).
Proof using Hcalm Hkeep Hquiet.
  intros Hdp Hnd Hk. set (cp1 := with_status "in_progress" at_ cp). eapply triple_bind.
  { eapply triple_conseq; [apply (restore_rows_calm cp1 rows []); done|done|intros outs s H; exact H|done]. }
  intros outs. apply triple_exists. intros rows'. apply triple_pure. intros Hp. apply triple_pure. intros Hm. simpl.
  eapply triple_bind.
  { eapply triple_conseq; [apply triple_yields; [by apply (triple_kept id _ cp1 rows'), kept_seam|by eapply seam_calm, mirrors_paths]
      |done|intros r s [_ H]; exact H|].
    intros e s [He Hs]. split; [done|]. exists cp1, rows'. split_and!; [done..|by eapply mirrors_settled]. }
  intros reg. simpl. apply (triple_then _ _ _ (λ s, ∃ cp', stored cp' rows' s)).
  { assert (triple (stored cp1 rows') (mark around id "registered" : M unit) (λ _ s, ∃ cp', stored cp' rows' s) (λ _ _, False)) as Hreg.
    { eapply triple_conseq; [apply mark_calm; known_outcome|done|intros u s [t Hs]; eexists; exact Hs|done]. }
    assert (triple (stored cp1 rows') (mret tt : M unit) (λ _ s, ∃ cp', stored cp' rows' s) (λ _ _, False)) as Hret
      by (apply triple_ret; intros s Hs; eexists; exact Hs).
    by destruct (rr_status reg). }
  apply triple_exists. intros cp2. eapply triple_then; [|by apply triple_ret].
  eapply triple_conseq; [apply mark_calm; known_outcome|done|intros u s H; exact I|done].
Qed.

Lemma require_drivable_ok rows : Forall drivable rows →
  require_drivable v (List.filter (λ row, bool_decide (cm_restore_outcome row = None)) rows) = Ok tt.
Proof.
  intros Hd. unfold require_drivable. destruct (existsb _ _) eqn:Ex; [|done].
  apply existsb_exists in Ex as (row & [Hin Hn%bool_decide_eq_true]%filter_In & Hu).
  rewrite Forall_forall in Hd. destruct (Hd row) as [_ Hrow]; [by apply list_elem_of_In|]. destruct (Hrow Hn). congruence.
Qed.

Lemma restore_calm cp rows : v_restore_store v = true → is_blank id = false → distinct_paths v →
  require_known_restore_state cp rows = Ok tt → (cp_restore_status cp ≠ "concluded" → Forall drivable rows) →
  triple (stored cp rows) (restore around v id : M _) (concluded id cp rows) (unregistered_run rows).
Proof using Hcalm Hkeep Hquiet.
  intros Hst Hb Hdp Hknown Hd.
  assert (triple (stored cp rows) (restore around v id : M _) (λ _ _, True) (unregistered_run rows)) as H.
  2: { intros s Hs. pose proof (restore_run around v id Hkeep cp rows s Hs) as H1. specialize (H s Hs).
       by destruct (restore around v id s) as [[a|e] s']. }
  unfold restore, require_restore_store. rewrite Hb, Hst.
  change (of_outcome (Ok tt) ;; restore_locked around v id) with (restore_locked (E:=E) around v id). unfold restore_locked.
  eapply triple_bind; [eapply triple_conseq; [eapply triple_returns; [by apply triple_get|apply reads_calm]|done|intros x s H; exact H|done]|].
  intros found. apply triple_pure. intros ->.
  eapply triple_bind; [eapply triple_conseq; [eapply triple_returns; [by apply triple_members|apply reads_calm]|done|intros x s H; exact H|done]|].
  intros found. apply triple_pure. intros ->. rewrite Hknown. eapply triple_of_outcome; [done|]. case_bool_decide as Hc.
  - intros s Hs. cut (yields anything (λ _, False) (report_from_durable_rows around id rows : M _)).
    { intros Hy. specialize (Hy s). by destruct (report_from_durable_rows around id rows s) as [[]]. }
    apply (yields_bind anything); [|by intros; apply yields_ret].
    unfold registration_from_durable_state. destruct (fold_left _ rows _) as [[w sub] del].
    destruct w as [|w0 w]; [by apply yields_ret|]. apply (yields_bind anything); [|by intros; apply yields_ret].
    apply unregistered_calm.
  - specialize (Hd Hc). rewrite require_drivable_ok by done. eapply triple_of_outcome; [done|].
    intros s0 Hs0. pose proof (shows_nodup _ _ _ _ Hs0) as Hnd. revert s0 Hs0.
    eapply triple_bind; [eapply triple_conseq; [apply mark_calm; known_outcome|done|intros u s H; exact H|done]|].
    intros u. apply triple_exists. intros at_. by apply drive_run_calm.
Qed.
End run.
End calm.
