(* ===== verification/RestoreWrites.v ===== *)
(** What a restore writes.

    [disciplined v rows evs]: every write in the log [evs] is justified by what came before
    it.  A conditional put carries as its comparand the ETag of the last live read of
    that object (or asks for a creation when that read found none), its bytes are those
    read from the version the manifest pins, and the live object differed from the
    manifest; a file write carries the version of the last live read, and bytes with the
    fingerprint of the manifest; an object is deleted only for a row captured absent, after
    a read that found it. *)
From S2P Require Import Prelude Core Registry RegistryFacts Service Checkpoints ManifestFacts.
From S2P Require Import Substrate ObjectStore Workspace WorkspaceFacts RestoreFacts.

Open Scope Z_scope.
Open Scope string_scope.
Open Scope list_scope.

(** ** Reading a log *)
Definition note_read (b k : string) (acc : option (outcome exn S3Response)) (ev : event) :=
  match ev with
  | EGet b' k' None o => if bool_decide (b' = b ∧ k' = k) then Some o else acc
  | _ => acc
  end.
(** The answer of the last live read of an object. *)
Definition last_read (b k : string) (evs : list event) : option (outcome exn S3Response) :=
  fold_left (note_read b k) evs None.
Definition note_file_read (p : string) (acc : option (outcome exn (string * Z))) (ev : event) :=
  match ev with
  | EFileRead p' o => if bool_decide (p' = p) then Some o else acc
  | _ => acc
  end.
Definition last_file_read (p : string) (evs : list event) : option (outcome exn (string * Z)) :=
  fold_left (note_file_read p) evs None.

(** The bytes were served for that version. *)
Definition fetched (b k t data : string) (evs : list event) : Prop :=
  ∃ resp, EGet b k (Some t) (Ok resp) ∈ evs ∧ r_body resp = data.

Definition not_found (x : exn) : bool :=
  match x with
  | KeyError _ => true
  | ClientError code => bool_decide (code ∈ NOT_FOUND_CODES)
  | _ => false
  end.

(** ** Justified writes *)
Section discipline.
Context (v : Versioner) (rows : list CheckpointMember).

Definition pending_row (row : CheckpointMember) (m : member) : Prop :=
  row ∈ rows ∧ cm_restore_outcome row = None ∧ require_binding v (cm_member_path row) = Ok m.

Definition put_justified (b k : string) (cond : put_condition) (data : string) (pre : list event) : Prop :=
  ∃ row p t, pending_row row (ObjectMember p b k) ∧ cm_absent row = false ∧
    cm_native_token row = Some t ∧ fetched b k t data pre ∧
    match last_read b k pre with
    | Some (Ok resp) => cm_fingerprint row ≠ Some (sha256_hex (r_body resp)) ∧
        ∃ etag, r_etag resp = Some etag ∧ put_kwargs etag = Ok cond
    | Some (Raise x) => not_found x = true ∧ cond = IfNoneMatch
    | None => False
    end.

Definition write_justified (p : string) (expected : Z) (data : string) (pre : list event) : Prop :=
  ∃ row m live, pending_row row m ∧ cm_absent row = false ∧ cm_member_path row = p ∧
    last_file_read p pre = Some (Ok (live, expected)) ∧
    cm_fingerprint row ≠ Some (sha256_hex live) ∧ cm_fingerprint row = Some (sha256_hex data).

Definition delete_justified (b k : string) (pre : list event) : Prop :=
  ∃ row p resp, pending_row row (ObjectMember p b k) ∧ cm_absent row = true ∧ last_read b k pre = Some (Ok resp).

Definition justified (pre : list event) (ev : event) : Prop :=
  match ev with
  | EPut b k cond data _ => put_justified b k cond data pre
  | EFileWrite p expected data _ => write_justified p expected data pre
  | EDelete b k _ => delete_justified b k pre
  | EHold _ _ _ _ _ => False
  | _ => True
  end.

Definition disciplined (evs : list event) : Prop := ∀ pre ev post, evs = (pre ++ ev :: post)%list → justified pre ev.

Lemma disciplined_snoc evs ev : disciplined (evs ++ [ev]) ↔ disciplined evs ∧ justified evs ev.
Proof.
  split.
  - intros H. split; [|by apply (H evs ev [])]. intros pre e post ->. apply (H pre e (post ++ [ev])).
    by rewrite <-app_assoc.
  - intros [H1 H2] pre e post Heq. destruct (decide (post = [])) as [->|Hp].
    + apply app_inj_tail in Heq as [-> ->]. done.
    + destruct (exists_last Hp) as (post' & e' & ->). rewrite app_comm_cons, app_assoc in Heq.
      apply app_inj_tail in Heq as [-> _]. by eapply H1.
Qed.

Lemma last_read_snoc b k evs ev : last_read b k (evs ++ [ev]) = note_read b k (last_read b k evs) ev.
Proof. unfold last_read. by rewrite fold_left_app. Qed.
Lemma last_file_read_snoc p evs ev : last_file_read p (evs ++ [ev]) = note_file_read p (last_file_read p evs) ev.
Proof. unfold last_file_read. by rewrite fold_left_app. Qed.
Lemma fetched_snoc b k t data evs ev : fetched b k t data evs → fetched b k t data (evs ++ [ev]).
Proof. intros (resp & Hin & Hb). exists resp. split; [|done]. apply elem_of_app. by left. Qed.

(** ** Calls

    [F] is a fact about the log that lasts. *)
Definition lasting (F : list event → Prop) : Prop := ∀ evs ev, F evs → F (evs ++ [ev]).

Context {E : Type} `{!Env E}.
Local Abbreviation WM := (@WM E).

Section facts.
Context (F : list event → Prop) (HF : lasting F).

Definition log_ok (w : World E) : Prop := disciplined (w_events w) ∧ F (w_events w).

Lemma call_log {A} (m : proc exn E A) ev (w : World E) :
  ∃ o e, (call m ev w : outcome exn A * World E) = (o, mkWorld e (w_events w ++ [ev o])).
Proof. unfold call. destruct (m (w_env w)) as [o e]. by eexists _, _. Qed.

Lemma log_snoc w e ev : log_ok w → justified (w_events w) ev → log_ok (mkWorld e (w_events w ++ [ev])).
Proof using HF. intros [Hd Hf] Hj. split; [by apply disciplined_snoc|by apply HF]. Qed.

(** A call that is not a write. *)
Lemma quiet_call {A} (m : proc exn E A) ev :
  (∀ evs o, justified evs (ev o)) → triple log_ok (call m ev : WM A) (λ _, log_ok) (λ _, log_ok).
Proof using HF.
  intros Hj w Hw. destruct (call_log m ev w) as ([a|x] & e & ->); by apply log_snoc.
Qed.

(** What a get leaves: a live answer is the last one read, a version is fetched. *)
Lemma get_live_log b k :
  triple log_ok (get_object_typed b k None : WM _)
    (λ resp w, log_ok w ∧ last_read b k (w_events w) = Some (Ok resp))
    (λ e w, log_ok w ∧ (is_KeyError e = true → ∃ x, last_read b k (w_events w) = Some (Raise x) ∧ not_found x = true)).
Proof using HF.
  intros w Hw. unfold get_object_typed, catch, get_object.
  destruct (call_log (srv_get_object b k None) (EGet b k None) w) as (o & e & ->).
  assert (log_ok (mkWorld e (w_events w ++ [EGet b k None o]))) as Hok by by apply log_snoc.
  assert (last_read b k (w_events w ++ [EGet b k None o]) = Some o) as Hl.
  { rewrite last_read_snoc. simpl. by rewrite bool_decide_eq_true_2. }
  destruct o as [resp|x]; [by split|]. destruct (s3_error_code x) as [code|] eqn:Ec.
  - destruct x; try done. simpl in Ec. injection Ec as ->. case_bool_decide as Hin; simpl; [|by split].
    split; [done|]. intros _. exists (ClientError code). split; [by apply Hl|]. by apply bool_decide_eq_true_2.
  - split; [done|]. simpl. intros Hk. exists x. split; [by apply Hl|]. by destruct x.
Qed.

Lemma get_version_log b k t lr :
  triple (λ w, log_ok w ∧ last_read b k (w_events w) = lr) (get_object_typed b k (Some t) : WM _)
    (λ resp w, log_ok w ∧ last_read b k (w_events w) = lr ∧ fetched b k t (r_body resp) (w_events w))
    (λ _, log_ok).
Proof using HF.
  intros w [Hw Hlr]. unfold get_object_typed, catch, get_object.
  destruct (call_log (srv_get_object b k (Some t)) (EGet b k (Some t)) w) as (o & e & ->).
  assert (log_ok (mkWorld e (w_events w ++ [EGet b k (Some t) o]))) as Hok by by apply log_snoc.
  destruct o as [resp|x].
  - split_and!; [done|simpl; by rewrite last_read_snoc|]. exists resp. split; [|done]. simpl. apply elem_of_app. right. by left.
  - destruct (s3_error_code x); [case_bool_decide|]; exact Hok.
Qed.

(** [of_outcome] after a read: the exception is not a [KeyError]. *)
Lemma check_log {A B} (P : World E → Prop) (o : outcome exn A) (k : A → WM B) Q X :
  (∀ e, o = Raise e → ∀ w, P w → X e w) → (∀ a, o = Ok a → triple P (k a) Q X) → triple P (x ← of_outcome o; k x) Q X.
Proof.
  intros He Hk. destruct o as [a|e]; [by apply Hk|]. intros w Hw. simpl. by apply He.
Qed.

Lemma read_log b k :
  triple log_ok (read b k : WM _) (λ _ w, log_ok w ∧ ∃ resp, last_read b k (w_events w) = Some (Ok resp)) (λ _, log_ok).
Proof using HF.
  eapply triple_bind; [eapply triple_conseq; [apply get_live_log|done|intros r w H; exact H|by intros e w [H _]]|].
  intros resp. apply check_log; [by intros e _ w [H _]|]. intros etag _. apply triple_ret. intros w [Hw Hl]. split; [done|by exists resp].
Qed.

Lemma read_versioned_log b k :
  triple log_ok (read_versioned b k : WM _)
    (λ r w, log_ok w ∧ ∃ resp, last_read b k (w_events w) = Some (Ok resp) ∧ r_etag resp = Some (vr_etag r) ∧ r_body resp = vr_data r)
    (λ e w, log_ok w ∧ (is_KeyError e = true → ∃ x, last_read b k (w_events w) = Some (Raise x) ∧ not_found x = true)).
Proof using HF.
  eapply triple_bind; [apply get_live_log|]. intros resp. unfold versioned_of, require_response_etag, require_response_version_id.
  apply check_log.
  { intros e He w [Hw _]. split; [done|]. intros Hk. destruct (r_etag resp); [case_bool_decide|]; by simplify_eq. }
  intros etag Het. apply check_log.
  { intros e He w [Hw _]. split; [done|]. intros Hk. destruct (usable_version_id _); by simplify_eq. }
  intros ver _. apply triple_ret. intros w [Hw Hl]. split; [done|]. exists resp. split_and!; [done| |done].
  destruct (r_etag resp); [case_bool_decide|]; by simplify_eq.
Qed.

Lemma read_pinned_log b k t lr :
  triple (λ w, log_ok w ∧ last_read b k (w_events w) = lr) (read_pinned b k t : WM _)
    (λ r w, log_ok w ∧ last_read b k (w_events w) = lr ∧ fetched b k t (vr_data r) (w_events w)) (λ _, log_ok).
Proof using HF.
  unfold read_pinned. apply check_log; [by intros e _ w [H _]|]. intros ptr Hp.
  assert (ptr = t) as ->. { unfold require_usable_version_pointer in Hp. destruct (_ || _); by simplify_eq. }
  eapply triple_bind; [apply get_version_log|]. intros resp. apply check_log; [by intros e _ w [H _]|]. intros etag _.
  apply check_log; [by intros e _ w [H _]|]. intros ver _. apply triple_ret. by intros w H.
Qed.

Lemma put_justified_snoc b k cond data evs o : put_justified b k cond data evs →
  put_justified b k cond data (evs ++ [EPut b k cond data o]).
Proof.
  intros (row & p & t & H1 & H2 & H3 & H4 & H5). exists row, p, t. split_and!; [done..|by apply fetched_snoc|].
  by rewrite last_read_snoc.
Qed.

Lemma put_loop_log b k cond data left n :
  triple (λ w, log_ok w ∧ put_justified b k cond data (w_events w)) (put_loop b k cond data left n : WM _) (λ _, log_ok) (λ _, log_ok).
Proof using HF.
  revert n. induction left as [|left IH]; intros n w [Hw Hj]; cbn [put_loop]; unfold put_object;
    destruct (call_log (srv_put_object b k cond data) (EPut b k cond data) w) as (o & e & ->);
    assert (log_ok (mkWorld e (w_events w ++ [EPut b k cond data o]))) as Hok by by apply log_snoc.
  all: destruct o as [resp|x].
  all: try (unfold require_response_etag, of_outcome, mbind, proc_bind; destruct (r_etag resp); [case_bool_decide|];
            try destruct (usable_version_id _); exact Hok).
  all: destruct (is_exception x); [|exact Hok]; destruct (classify_put_exception x) as [[| | | |]|]; try exact Hok.
  apply IH. split; [done|]. by apply put_justified_snoc.
Qed.

Lemma cas_write_log b k tok data :
  triple (λ w, log_ok w ∧ ∀ cond, put_kwargs tok = Ok cond → put_justified b k cond data (w_events w))
    (cas_write_versioned b k tok data : WM _) (λ _, log_ok) (λ _, log_ok).
Proof using HF.
  unfold cas_write_versioned. apply check_log; [by intros e _ w [H _]|]. intros cond Hc.
  eapply triple_conseq; [apply (put_loop_log b k cond data)| |done|done]. intros w [Hw Hj]. split; [done|]. by apply Hj.
Qed.

Lemma reconcile_log b k tok h : triple log_ok (reconcile_after_unknown b k tok h : WM _) (λ _, log_ok) (λ _, log_ok).
Proof using HF.
  apply (triple_bind _ _ _ (λ _, log_ok)).
  - apply (triple_catch _ _ _ _ (λ _, log_ok)).
    + eapply triple_bind; [apply read_log|]. intros seen. apply triple_ret. by intros w [H _].
    + intros e. destruct e; first [by apply triple_ret | by apply triple_raise].
  - intros seen. by apply triple_ret.
Qed.

Lemma file_read_log p :
  triple log_ok (read_with_version p : WM _)
    (λ x w, log_ok w ∧ last_file_read p (w_events w) = Some (Ok x)) (λ _, log_ok).
Proof using HF.
  intros w Hw. unfold read_with_version. destruct (call_log (srv_read_with_version p) (EFileRead p) w) as (o & e & ->).
  assert (log_ok (mkWorld e (w_events w ++ [EFileRead p o]))) as Hok by by apply log_snoc.
  destruct o as [x|x]; [|done]. split; [done|]. simpl. rewrite last_file_read_snoc. simpl. by rewrite bool_decide_eq_true_2.
Qed.
Lemma content_log p q n lr :
  triple (λ w, log_ok w ∧ last_file_read p (w_events w) = lr) (content_at q n : WM _)
    (λ _ w, log_ok w ∧ last_file_read p (w_events w) = lr) (λ _, log_ok).
Proof using HF.
  intros w [Hw Hl]. unfold content_at. destruct (call_log (srv_content_at q n) (EContentAt q n) w) as (o & e & ->).
  assert (log_ok (mkWorld e (w_events w ++ [EContentAt q n o]))) as Hok by by apply log_snoc.
  destruct o as [x|x]; [|done]. split; [done|]. simpl. by rewrite last_file_read_snoc.
Qed.
Lemma file_write_log p n d :
  triple (λ w, log_ok w ∧ write_justified p n d (w_events w)) (write_cas_at p n d : WM _) (λ _, log_ok) (λ _, log_ok).
Proof using HF.
  intros w [Hw Hj]. unfold write_cas_at. destruct (call_log (srv_write_cas_at p n d) (EFileWrite p n d) w) as ([x|x] & e & ->);
    by apply log_snoc.
Qed.
Lemma delete_log b k :
  triple (λ w, log_ok w ∧ delete_justified b k (w_events w)) (ObjectStore.delete b k : WM _) (λ _, log_ok) (λ _, log_ok).
Proof using HF.
  apply (triple_bind _ _ _ (λ _, log_ok)); [|intros resp; by apply triple_ret].
  intros w [Hw Hj]. unfold delete_object. destruct (call_log (srv_delete_object b k) (EDelete b k) w) as ([x|x] & e & ->);
    by apply log_snoc.
Qed.
End facts.

(** ** Legs *)
(** Failures around a call: the process is killed, the transport or the store fails. *)
Definition abrupt (e : exn) : bool :=
  match e with
  | KeyboardInterrupt | ConnectionError | TimeoutError | TransportError | OperationalError _ | WatchdogAbandoned | RuntimeError _ => true
  | _ => false
  end.

Context (around : Surroundings) (Habrupt : ∀ n w e, fault around n = Some (w, e) → abrupt e = true).
Local Abbreviation M := (@M E).

Definition logged (F : list event → Prop) (s : Site E) : Prop := log_ok F (site_world s).

Lemma triple_on_world {A} P (m : WM A) F Q X :
  triple P m Q X → (∀ w, P w → log_ok F w) → (∀ a w, Q a w → log_ok F w) →
  triple (λ s, P (site_world s)) (on_world around m : M A) (λ a s, Q a (site_world s))
    (λ e s, X e (site_world s) ∨ (abrupt e = true ∧ log_ok F (site_world s))).
Proof using Habrupt.
  intros Hm HP HQ s Hs. unfold on_world, calling. specialize (Hm (site_world s) Hs).
  destruct (fault around (site_calls s)) as [[[|] e]|] eqn:Ef; unfold zoom; simpl.
  - right. eauto.
  - destruct (m (site_world s)) as [[a|x] w]; [right; eauto|by left].
  - destruct (m (site_world s)) as [[a|x] w]; [done|by left].
Qed.
(** The facts of a call about a log whose discipline it keeps. *)
Ltac log_kept := match goal with
  | |- ∀ w, _ → log_ok _ w => intros ? H; first [exact H|exact (proj1 H)]
  | |- ∀ a w, _ → log_ok _ w => intros ? ? H; first [exact H|exact (proj1 H)]
  end.

Lemma logged_mono (F G : list event → Prop) s : (∀ evs, F evs → G evs) → logged F s → logged G s.
Proof. intros HFG [Hd Hf]. split; auto. Qed.
Definition anyfact (evs : list event) : Prop := True.
Lemma anyfact_lasting : lasting anyfact.
Proof. done. Qed.

Section leg.
Context (row : CheckpointMember) (m : member) (Hrow : pending_row row m) (Hpresent : cm_absent row = false).

Section object.
Context (p b k t : string) (Hm : m = ObjectMember p b k) (Ht : cm_native_token row = Some t).

(** The bytes kept from an earlier iteration were fetched. *)
Definition kept_bytes (pinned : option string) (evs : list event) : Prop :=
  ∀ d, pinned = Some d → fetched b k t d evs.
Lemma kept_bytes_lasting pinned : lasting (kept_bytes pinned).
Proof. intros evs ev H d Hd. by apply fetched_snoc, H. Qed.

(** What the live view justifies. *)
Definition view_justifies (tok : string) (hash : option string) (evs : list event) : Prop :=
  match last_read b k evs with
  | Some (Ok resp) => r_etag resp = Some tok ∧ hash = Some (sha256_hex (r_body resp))
  | Some (Raise x) => not_found x = true ∧ tok = CREATE_IF_ABSENT ∧ hash = None
  | None => False
  end.

Lemma view_log n pinned :
  triple (logged (kept_bytes pinned)) (object_live_view around row b k n : M _)
    (λ x s, logged (kept_bytes pinned) s ∧
            match x with inl _ => True | inr (tok, hash) => view_justifies tok hash (w_events (site_world s)) end)
    (λ _, logged (kept_bytes pinned)).
Proof using Habrupt.
  unfold object_live_view. eapply triple_catch.
  - eapply triple_bind; [eapply triple_on_world; [apply read_versioned_log, kept_bytes_lasting|log_kept..]|]. intros r. apply triple_ret.
    intros s (Hs & resp & Hl & He & Hb). split; [done|]. unfold view_justifies. rewrite Hl. by rewrite Hb.
  - intros e. destruct e; try (apply triple_raise; intros s [[Hs _]|[_ Hs]]; exact Hs).
    + apply triple_ret. intros s [[Hs Hx]|[Ha _]]; [|done]. split; [done|]. destruct (Hx eq_refl) as (x & Hl & Hn).
      unfold view_justifies. by rewrite Hl.
    + apply triple_ret. intros s [[Hs _]|[Ha _]]; [|done]. by split.
Qed.

Lemma view_put tok hash d cond evs : view_justifies tok hash evs → hash ≠ cm_fingerprint row →
  fetched b k t d evs → put_kwargs tok = Ok cond → put_justified b k cond d evs.
Proof using Hrow Hpresent Hm Ht.
  intros Hv Hh Hf Hc. exists row, p, t. subst m. split_and!; [done..|]. unfold view_justifies in Hv.
  destruct (last_read b k evs) as [[resp|x]|]; [| |done].
  - destruct Hv as [He ->]. split; [congruence|]. by exists tok.
  - destruct Hv as (Hn & -> & ->). split; [done|]. unfold put_kwargs in Hc. rewrite bool_decide_eq_true_2 in Hc by done. by simplify_eq.
Qed.

(** The bytes to write: those kept, or those of the pinned version; the live read stays the last. *)
Lemma resolve_log lr :
  triple (λ s, logged (kept_bytes None) s ∧ last_read b k (w_events (site_world s)) = lr)
    (resolve_pinned_object around row b k t : M _)
    (λ x s, logged (kept_bytes None) s ∧ match x with
            | inl _ => True
            | inr d => last_read b k (w_events (site_world s)) = lr ∧ fetched b k t d (w_events (site_world s))
            end)
    (λ _, logged (kept_bytes None)).
Proof using Habrupt.
  unfold resolve_pinned_object. apply (triple_bind _ _ _ (λ x s, logged (kept_bytes None) s ∧ match x with
    | None => True
    | Some r => last_read b k (w_events (site_world s)) = lr ∧ fetched b k t (vr_data r) (w_events (site_world s))
    end)).
  - unfold attempt. eapply triple_catch.
    + eapply triple_bind; [eapply (triple_on_world (λ w, log_ok (kept_bytes None) w ∧ last_read b k (w_events w) = lr)); [apply read_pinned_log, kept_bytes_lasting|log_kept..]|].
      intros r. apply triple_ret. by intros s (Hs & Hl & Hf).
    + intros e. destruct (is_KeyError e); [apply triple_ret|apply triple_raise]; intros s [Hs|[_ Hs]]; first [exact Hs|exact (conj Hs I)].
  - intros [r|]; apply triple_ret; by intros s H.
Qed.

Lemma attempt_log d tok n :
  triple (λ s, logged (kept_bytes (Some d)) s ∧ ∀ cond, put_kwargs tok = Ok cond → put_justified b k cond d (w_events (site_world s)))
    (object_cas_attempt around row b k d tok n : M _)
    (λ _, logged (kept_bytes (Some d))) (λ _, logged (kept_bytes (Some d))).
Proof using Habrupt.
  unfold object_cas_attempt. apply (triple_bind _ _ _ (λ _, logged (kept_bytes (Some d)))).
  - eapply triple_catch.
    + eapply triple_bind; [eapply (triple_on_world (λ w, log_ok (kept_bytes (Some d)) w ∧ ∀ cond, put_kwargs tok = Ok cond → put_justified b k cond d (w_events w)));
        [apply cas_write_log, kept_bytes_lasting|log_kept..]|]. intros r. by apply triple_ret.
    + intros e. destruct e; first [apply triple_ret | apply triple_raise]; intros s [Hs|[_ Hs]]; exact Hs.
  - intros [o|[et vi| |]]; try by apply triple_ret.
    eapply triple_bind; [eapply triple_conseq; [eapply triple_on_world; [apply reconcile_log, kept_bytes_lasting|log_kept..]|done|intros x s H; exact H|]|].
    + by intros e s [Hs|[_ Hs]].
    + intros dec. by apply triple_ret.
Qed.

Lemma object_loop_log left n pinned :
  triple (logged (kept_bytes pinned)) (object_loop around row b k t left n pinned : M _) (λ _, logged anyfact) (λ _, logged anyfact).
Proof using Habrupt Hrow Hpresent Hm Ht.
  assert (∀ F s, logged F s → logged anyfact s) as Hany by (intros F s; by apply logged_mono).
  revert n pinned. induction left as [|left IH]; intros n pinned; cbn [object_loop]; [apply triple_ret, Hany|].
  eapply triple_bind; [eapply triple_conseq; [apply view_log|done|intros x s H; exact H|intros e; apply Hany]|].
  intros [o|[tok hash]]; [apply triple_ret; intros s [Hs _]; by eapply Hany|].
  case_bool_decide as Hh; [apply triple_ret; intros s [Hs _]; by eapply Hany|].
  apply (triple_bind _ _ _ (λ x s, match x with
    | inl _ => logged anyfact s
    | inr d => logged (kept_bytes (Some d)) s ∧ ∀ cond, put_kwargs tok = Ok cond → put_justified b k cond d (w_events (site_world s))
    end)).
  - destruct pinned as [d|].
    + apply triple_ret. intros s [Hs Hv]. split; [done|]. intros cond Hc. eapply view_put; [done..| |done]. by apply Hs.
    + intros s [Hs Hv]. pose proof (resolve_log (last_read b k (w_events (site_world s))) s (conj Hs eq_refl)) as Hr.
      destruct (resolve_pinned_object around row b k t s) as [[[o|d]|e] s']; [by eapply Hany, Hr| |by eapply Hany].
      destruct Hr as (Hs' & Hl & Hf). split; [split; [apply Hs'|by intros d' [= <-]]|]. intros cond Hc.
      eapply view_put; [|done..]. unfold view_justifies in *. by rewrite Hl.
  - intros [o|d]; [by apply triple_ret|].
    eapply triple_bind; [eapply triple_conseq; [apply attempt_log|done|intros x s H; exact H|intros e; apply Hany]|].
    intros [o|]; [apply triple_ret; intros s; apply Hany|apply IH].
Qed.
End object.

Local Abbreviation path := (cm_member_path row).

Lemma file_live_log :
  triple (logged anyfact) (attempt is_FileNotFoundError (on_world around (read_with_version path)) : M _)
    (λ x s, logged anyfact s ∧ ∀ y, x = Some y → last_file_read path (w_events (site_world s)) = Some (Ok y))
    (λ _, logged anyfact).
Proof using Habrupt.
  eapply triple_catch.
  - eapply triple_bind; [eapply triple_on_world; [apply file_read_log, anyfact_lasting|log_kept..]|]. intros y. apply triple_ret.
    intros s [Hs Hl]. split; [done|]. by intros ? [= ->].
  - intros e. destruct (is_FileNotFoundError e); [apply triple_ret|apply triple_raise]; intros s [Hs|[_ Hs]];
      first [exact Hs|split; [exact Hs|done]].
Qed.

Lemma resolve_file_log lr :
  triple (λ s, logged anyfact s ∧ last_file_read path (w_events (site_world s)) = lr) (resolve_pinned_file around row : M _)
    (λ x s, logged anyfact s ∧ match x with
            | inl _ => True
            | inr d => last_file_read path (w_events (site_world s)) = lr ∧ cm_fingerprint row = Some (sha256_hex d)
            end)
    (λ _, logged anyfact).
Proof using Habrupt.
  unfold resolve_pinned_file. apply (triple_bind _ _ _ (λ x s, logged anyfact s ∧
    (is_Some x → last_file_read path (w_events (site_world s)) = lr))).
  - apply (triple_catch _ _ _ _ (λ _, logged anyfact)).
    + destruct (token_version row) as [n|e]; [|by intros s [Hs _]].
      eapply triple_bind.
      * eapply triple_of_outcome; [done|]. eapply triple_conseq; [eapply (triple_on_world (λ w, log_ok anyfact w ∧ last_file_read path (w_events w) = lr)); [apply (content_log _ anyfact_lasting path path n)|log_kept..]|done|intros x s H; exact H|by intros e s [Hs|[_ Hs]]].
      * intros x. apply triple_ret. intros s [Hs Hl]. by split.
    + intros e. destruct (is_KeyError e); [apply triple_ret|by apply triple_raise]. intros s Hs. split; [done|by intros []].
  - intros [d|]; apply triple_ret; intros s [Hs Hl]; (split; [done|]); [|done]. case_bool_decide as Hd; [done|].
    split; [by apply Hl|]. symmetry. by destruct (decide (Some (sha256_hex d) = cm_fingerprint row)).
Qed.

Lemma file_loop_log left n pinned : (∀ d, pinned = Some d → cm_fingerprint row = Some (sha256_hex d)) →
  triple (logged anyfact) (file_loop around row left n pinned : M _) (λ _, logged anyfact) (λ _, logged anyfact).
Proof using Habrupt Hrow Hpresent.
  revert n pinned. induction left as [|left IH]; intros n pinned Hpin; cbn [file_loop]; [by apply triple_ret|].
  eapply triple_bind; [apply file_live_log|]. intros [[live ver]|]; [|apply triple_ret; by intros s [Hs _]].
  case_bool_decide as Hsame; [apply triple_ret; by intros s [Hs _]|].
  apply (triple_bind _ _ _ (λ x s, logged anyfact s ∧ match x with
    | inl _ => True
    | inr d => cm_fingerprint row = Some (sha256_hex d) ∧ write_justified path ver d (w_events (site_world s))
    end)).
  - assert (∀ d evs, cm_fingerprint row = Some (sha256_hex d) → last_file_read path evs = Some (Ok (live, ver)) →
      write_justified path ver d evs) as Hj by (intros d evs Hd Hl; exists row, m, live; split_and!; congruence || done).
    destruct pinned as [d|].
    + apply triple_ret. intros s [Hs Hl]. split_and!; [done|by apply Hpin|]. apply Hj; [by apply Hpin|by apply Hl].
    + eapply triple_conseq; [apply (resolve_file_log (Some (Ok (live, ver))))|intros s [Hs Hl]; split; [done|by apply Hl]| |done].
      intros [o|d] s [Hs Hx]; (split; [done|]); [done|]. destruct Hx as [Hl Hd]. split; [done|]. by apply Hj.
  - intros [o|d]; [apply triple_ret; by intros s [Hs _]|].
    assert (triple (λ s, logged anyfact s ∧ write_justified path ver d (w_events (site_world s)))
      (file_cas_attempt around row d ver (n + 1) : M _) (λ _, logged anyfact) (λ _, logged anyfact)) as Ha.
    { eapply triple_catch.
      - eapply triple_bind; [eapply (triple_on_world (λ w, log_ok anyfact w ∧ write_justified path ver d (w_events w))); [apply file_write_log, anyfact_lasting|log_kept..]|].
        intros u. by apply triple_ret.
      - intros e. destruct e; first [apply triple_ret | apply triple_raise]; intros s [Hs|[_ Hs]]; exact Hs. }
    intros s (Hs & Hd & Hj). eapply (triple_bind _ _ _ (λ _, logged anyfact)); [apply Ha| |by split].
    intros [o|]; [by apply triple_ret|]. apply IH. by intros d' [= <-].
Qed.
End leg.

(** Service calls do not touch the log. *)
Lemma store_log {A} (m : nat → RM A) : triple (logged anyfact) (on_store around m : M A) (λ _, logged anyfact) (λ _, logged anyfact).
Proof.
  intros s Hs. unfold on_store, calling. destruct (fault around (site_calls s)) as [[[|] x]|]; [done|..]; unfold zoom; simpl; by destruct (m _ _) as [[a|e] r'].
Qed.
Lemma tick_log : triple (logged anyfact) (tick around : M Z) (λ _, logged anyfact) (λ _, logged anyfact).
Proof. by intros s Hs. Qed.

Lemma drive_log row : row ∈ rows → cm_restore_outcome row = None →
  triple (logged anyfact) (drive_member_absorbing around v row : M _) (λ _, logged anyfact) (λ _, logged anyfact).
Proof using Habrupt.
  intros Hin Ho. apply (triple_catch _ _ _ _ (λ _, logged anyfact)).
  2: { intros e. destruct (absorbed e); [by apply triple_ret|by apply triple_raise]. }
  unfold drive_member. destruct (cm_absent row) eqn:Ea.
  - destruct (require_binding v (cm_member_path row)) as [m|e] eqn:Em; [|by intros s Hs]. eapply triple_of_outcome; [done|].
    destruct m as [p w|p b k|p]; cbn [drive_absent_member].
    1,3: eapply triple_bind; [apply file_live_log|]; intros x; apply triple_ret; by intros s [Hs _].
    apply (triple_bind _ _ _ (λ x s, logged anyfact s ∧ (is_Some x → delete_justified b k (w_events (site_world s))))).
    + unfold attempt. eapply triple_catch.
      * eapply triple_bind; [eapply triple_on_world; [apply read_log, anyfact_lasting|log_kept..]|]. intros x. apply triple_ret.
        intros s (Hs & resp & Hl). split; [done|]. intros _. exists row, p, resp. by split_and!.
      * intros e. destruct (is_KeyError e); [apply triple_ret|apply triple_raise]; intros s [Hs|[_ Hs]];
          first [exact Hs|split; [exact Hs|by intros []]].
    + intros [x|]; [|apply triple_ret; by intros s [Hs _]].
      apply (triple_bind _ _ _ (λ _, logged anyfact)); [|intros d; eapply triple_bind; [apply tick_log|intros now; by apply triple_ret]].
      eapply triple_conseq; [eapply (triple_on_world (λ w, log_ok anyfact w ∧ delete_justified b k (w_events w))); [apply delete_log, anyfact_lasting|log_kept..]
        |intros s [Hs Hd]; split; [done|by apply Hd]|done|by intros e s [Hs|[_ Hs]]].
  - destruct (bool_decide _); [by apply triple_ret|].
    destruct (require_binding v (cm_member_path row)) as [m|e] eqn:Em; [|by intros s Hs]. eapply triple_of_outcome; [done|].
    destruct m as [p w|p b k|p]; [|unfold drive_object_leg; destruct (cm_native_token row) as [t|] eqn:Et; [|by apply triple_ret]|by apply triple_raise].
    + eapply file_loop_log; [by split_and!|done|by intros d].
    + eapply triple_conseq; [eapply (object_loop_log row (ObjectMember p b k)); [by split_and!|done..]| |done|done].
      intros s Hs. eapply logged_mono; [|exact Hs]. by intros evs _ d.
Qed.

Lemma mark_log id status : triple (logged anyfact) (mark around id status : M _) (λ _, logged anyfact) (λ _, logged anyfact).
Proof. eapply triple_bind; [apply tick_log|]. intros now. apply store_log. Qed.

Lemma rows_log id l : (∀ row, row ∈ l → row ∈ rows) →
  triple (logged anyfact) (mapm (restore_row around v id) l : M _) (λ _, logged anyfact) (λ _, logged anyfact).
Proof using Habrupt.
  induction l as [|row l IH]; intros Hl; cbn [mapm]; [by apply triple_ret|].
  apply (triple_bind _ _ _ (λ _, logged anyfact)).
  - unfold restore_row. destruct (cm_restore_outcome row) eqn:Eo; [by apply triple_ret|].
    eapply triple_bind; [apply drive_log; [apply Hl; by left|done]|]. intros o. eapply triple_bind; [apply store_log|].
    intros u. by apply triple_ret.
  - intros o. eapply triple_bind; [apply IH; intros row' Hr; apply Hl; by right|]. intros os. by apply triple_ret.
Qed.

Lemma seam_log id rs outs prior : triple (logged anyfact) (registration_seam around v id rs outs prior : M _) (λ _, logged anyfact) (λ _, logged anyfact).
Proof.
  unfold registration_seam. destruct (classify_outcomes _ _ _) as [[[w sub] del]|e]; [|by intros s Hs].
  eapply triple_of_outcome; [done|]. destruct prior; [by apply triple_ret|]. destruct w as [|w0 w]; [by apply triple_ret|].
  unfold drive_registration. generalize 0, (@nil (string * ConflictReason)). generalize (w0 :: w). intros l.
  induction LEG_ITERATIONS as [|left IH]; intros n last; cbn [registration_loop]; [by apply triple_ret|].
  eapply triple_bind; [apply tick_log|]. intros now. apply (triple_bind _ _ _ (λ _, logged anyfact)).
  - eapply triple_catch; [eapply triple_bind; [apply store_log|intros r; by apply triple_ret]|].
    intros e. destruct e; first [by apply triple_ret | by apply triple_raise].
  - intros [r|]; [|apply IH]. destruct (wr_status r); [by apply triple_ret..|].
    destruct (existsb _ _); [by apply triple_ret|apply IH].
Qed.

Lemma report_log id rs : triple (logged anyfact) (report_from_durable_rows around id rs : M _) (λ _, logged anyfact) (λ _, logged anyfact).
Proof.
  apply (triple_bind _ _ _ (λ _, logged anyfact)); [|by intros; apply triple_ret].
  unfold registration_from_durable_state. destruct (fold_left _ rs _) as [[w sub] del].
  destruct w as [|w0 w]; [by apply triple_ret|]. apply (triple_bind _ _ _ (λ _, logged anyfact)); [|by intros; apply triple_ret].
  generalize (w0 :: w). intros l. induction l as [|x l IH]; cbn [unregistered]; [by apply triple_ret|].
  eapply triple_bind; [apply store_log|]. intros there. eapply triple_bind; [apply IH|]. by intros; apply triple_ret.
Qed.

Lemma restore_log id cp : peers_keep around id →
  triple (λ s, stored id cp rows s ∧ logged anyfact s) (restore around v id : M _) (λ _, logged anyfact) (λ _, logged anyfact).
Proof using Habrupt.
  intros Hkeep. unfold restore. destruct (is_blank id); [apply triple_raise; by intros s [_ Hs]|].
  unfold require_restore_store. destruct (v_restore_store v); [|by intros s [_ Hs]].
  change (of_outcome (Ok tt) ;; restore_locked around v id) with (restore_locked (E:=E) around v id). unfold restore_locked.
  apply (triple_bind _ _ _ (λ x s, x = Some cp ∧ stored id cp rows s ∧ logged anyfact s)).
  { eapply triple_conseq; [apply triple_and; [by apply triple_get|apply store_log]|intros s H; exact H|by intros x s [[-> H1] H2]|by intros e s [_ H]]. }
  intros found. apply triple_pure. intros ->. apply (triple_bind _ _ _ (λ x s, x = rows ∧ logged anyfact s)).
  { eapply triple_conseq; [apply triple_and; [by apply triple_members|apply store_log]|intros s H; exact H|by intros x s [[-> _] H]|by intros e s [_ H]]. }
  intros found. apply triple_pure. intros ->.
  destruct (require_known_restore_state cp rows) as [[]|e]; [|by intros s Hs]. eapply triple_of_outcome; [done|].
  destruct (bool_decide _); [apply report_log|].
  destruct (require_drivable v _) as [[]|e]; [|by intros s Hs]. eapply triple_of_outcome; [done|].
  eapply triple_bind; [apply mark_log|]. intros u. eapply triple_bind; [by apply rows_log|]. intros outs.
  eapply triple_bind; [apply seam_log|]. intros reg. apply (triple_bind _ _ _ (λ _, logged anyfact)).
  - destruct (rr_status reg); first [apply mark_log|by apply triple_ret].
  - intros u'. eapply triple_bind; [apply mark_log|]. intros u''. by apply triple_ret.
Qed.
End discipline.
