(* ===== verification/RestoreSafety.v ===== *)
(** Workspace restores: the theorems, with a store to run them on. *)
From stdpp Require Import pretty.
From S2P Require Import Prelude Core Hashing Registry RegistryFacts Service Checkpoints ManifestFacts.
From S2P Require Import Substrate ObjectStore Workspace WorkspaceFacts RestoreFacts RestoreProgress RestoreWrites.

Open Scope Z_scope.
Open Scope string_scope.

(** ** A store

    Versioned objects, files with retained versions, legal holds; what the engine calls
    is answered as S3 and the coordinator answer it. *)
Module Shop.
Record t := mk {
  objects : list (string * list (nat * string));
  next : nat;
  files : list (string * (string * Z));
  retained : list (string * Z * string);
  locks : bool;
}.
#[export] Instance eta_t : Settable t :=
  rec_pure mk <*> objects <*> next <*> files <*> retained <*> locks.

Definition version_id (n : nat) : string := String.append "v" (pretty n).
Definition etag (n : nat) : string := String.append "e" (pretty n).
Definition respond (n : nat) (body : string) : S3Response := mkResponse body (Some (etag n)) (Some (version_id n)) false None.

Definition current (key : string) (s : t) : option (nat * string) := head (default [] (dget (objects s) key)).

Definition get (key : string) (ver : option string) : proc exn t S3Response := λ s,
  match ver with
  | None => match current key s with
            | Some (n, body) => (Ok (respond n body), s)
            | None => (Raise (ClientError "NoSuchKey"), s)
            end
  | Some v => match List.find (λ nb, bool_decide (version_id nb.1 = v)) (default [] (dget (objects s) key)) with
              | Some (n, body) => (Ok (respond n body), s)
              | None => (Raise (ClientError "NoSuchVersion"), s)
              end
  end.

Definition put (key : string) (cond : put_condition) (data : string) : proc exn t S3Response := λ s,
  let admitted := match cond, current key s with
                  | IfMatch tok, Some (n, _) => bool_decide (tok = etag n)
                  | IfNoneMatch, None => true
                  | _, _ => false
                  end in
  if admitted
  then (Ok (respond (next s) data),
        s <| objects ::= λ d, dset d key ((next s, data) :: default [] (dget d key)) |> <| next ::= S |>)
  else (Raise (ClientError "PreconditionFailed"), s).

#[global] Instance env : Env t := {
  srv_get_object _ key ver := get key ver;
  srv_put_object _ key cond data := put key cond data;
  srv_delete_object _ key := λ s, (Ok (mkResponse "" None None true None), s <| objects ::= λ d, dpop d key |>);
  srv_put_legal_hold _ _ _ _ := λ s, (if locks s then Ok tt else Raise (ClientError "InvalidRequest"), s);
  srv_get_legal_hold _ _ _ := λ s, (Raise (ClientError "InvalidRequest"), s);
  srv_read_with_version path := λ s,
    (match dget (files s) path with Some x => Ok x | None => Raise FileNotFoundError end, s);
  srv_write_cas_at path expected data := λ s,
    match dget (files s) path with
    | Some (_, ver) => if bool_decide (ver = expected)
                       then (Ok tt, s <| files ::= λ d, dset d path (data, ver + 1) |>)
                       else (Raise (CasVersionConflict expected ver), s)
    | None => (Raise FileNotFoundError, s)
    end;
  srv_content_at path ver := λ s,
    (match dget (retained s) (path, ver) with Some b => Ok b | None => Raise (KeyError "not retained") end, s);
}.

Lemma nonblank c s : ascii_space (Ascii.N_of_ascii c) = false → (Ascii.N_of_ascii c < 128)%N → is_blank (String c s) = false.
Proof.
  intros Hs Hc. unfold is_blank. simpl. rewrite Hs. destruct (map _ _) as [|x [|y l]]; [done|..];
    rewrite ?(proj2 (N.eqb_neq (Ascii.N_of_ascii c) 194)), ?(proj2 (N.eqb_neq (Ascii.N_of_ascii c) 225)),
      ?(proj2 (N.eqb_neq (Ascii.N_of_ascii c) 226)), ?(proj2 (N.eqb_neq (Ascii.N_of_ascii c) 227)) by lia; done.
Qed.
Lemma respond_proper n body b : proper_response b (respond n body).
Proof.
  split.
  - exists (etag n). split; [done|]. by apply nonblank.
  - intros _. unfold usable_version_id, respond. cbn [r_version_id]. rewrite bool_decide_eq_false_2; [by eexists|]. by intros [|].
Qed.

Lemma shop_calm : calm t.
Proof.
  split.
  - intros b k ver e. simpl. unfold get. destruct ver as [v|].
    + destruct (List.find _ _) as [[n body]|]; simpl; [apply respond_proper|]. exists "NoSuchVersion". split; [done|]. set_solver.
    + destruct (current k e) as [[n body]|]; simpl; [apply respond_proper|]. exists "NoSuchKey". split; [done|]. set_solver.
  - intros b k c d e. simpl. unfold put. destruct (match c with IfMatch _ => _ | IfNoneMatch => _ end); simpl; [apply respond_proper|].
    split; [done|]. intros code [= <-]. set_solver.
  - intros b k e. by eexists.
  - intros p e x. simpl. by destruct (dget (files e) p) as [y|]; simpl; intros [= <-].
  - intros p n d e x. simpl. destruct (dget (files e) p) as [[y ver]|]; [case_bool_decide|]; simpl; intros [= <-]; [|by left].
    right. right. right. by eexists _, _.
  - intros p n e x. simpl. by destruct (dget (retained e) (p, n)) as [y|]; simpl; intros [= <-]; right.
Qed.
End Shop.

(** ** A workspace: one file, one object, one action *)
Module Workspace_demo.
Definition quiet : Surroundings :=
  mkSurroundings (λ _, None) (λ _ r, r) (λ n, 100 + Z.of_nat n) (λ _, "cp") (λ _ path, N.of_nat (100 + String.length path)).
Definition killed_at (n : nat) : Surroundings :=
  mkSurroundings (λ k, if (k =? n)%nat then Some (before_effect, KeyboardInterrupt) else None) (λ _ r, r) (clock quiet) (checkpoint_ids quiet) (mints quiet).

(** The answer of call [n] is lost with the process. *)
Definition lost_at (n : nat) : Surroundings :=
  mkSurroundings (λ k, if (k =? n)%nat then Some (after_effect, KeyboardInterrupt) else None) (λ _ r, r) (clock quiet) (checkpoint_ids quiet) (mints quiet).

Definition versioner : Versioner :=
  mkVersioner 7 true true true [FileMember "plan.md" true; ObjectMember "s3://data" "bucket" "data"; ForwardOnlyMember "deploy"].

Definition registry0 : Registry :=
  (register_artifact (mkArtifact 1 "plan.md" 1 (Some (sha256_hex "one")) None []) (BStr "")
    (mkRegistry [] [] None [] None "inst" "epoch" 0 false None [] [] [] [] [] (λ n, Z.of_nat n) 0)).2.
Definition shop0 : Shop.t :=
  Shop.mk [("data", [(0%nat, "alpha")])] 1 [("plan.md", ("one", 1))] [("plan.md", 1, "one")] true.
Definition site (r : Registry) (w : Shop.t) : Site Shop.t := mkSite r (mkWorld w []) 0.

(** The checkpoint is taken; then foreign writers change the file and the object. *)
Definition captured : outcome exn WorkspaceCheckpoint * Site Shop.t := checkpoint quiet versioner "nightly" true (site registry0 shop0).
Definition shop1 : Shop.t :=
  Shop.mk [("data", [(1%nat, "beta"); (0%nat, "alpha")])] 2 [("plan.md", ("two", 2))] [("plan.md", 1, "one")] true.
Definition site1 : Site Shop.t := site (site_registry captured.2) shop1.

(** The manifests of a registry, checked by evaluation. *)
Definition manifest_checked (r : Registry) (icp : string * CheckpointRecord) : bool :=
  let '(id, cp) := icp in
  match dget (checkpoint_members r) id with
  | Some ms =>
    bool_decide (cp_checkpoint_id cp = id ∧ is_Some (cp_owner cp) ∧ cp_window_min cp <= cp_window_max cp ∧
      cp_restore_status cp ∈ RESTORE_STATUSES ∧ 0 <= cp_pin_refcount cp ∧ ms ≠ [] ∧ NoDup ms.*1 ∧
      Forall (λ kv, cm_member_path kv.2 = kv.1) ms)
  | None => false
  end.
Lemma manifests_checked r : forallb (manifest_checked r) (checkpoints r) = true → manifests_ok r.
Proof.
  intros Hall id cp Hcp%dget_Some_elem. rewrite forallb_forall in Hall. apply list_elem_of_In in Hcp.
  specialize (Hall _ Hcp). unfold manifest_checked in Hall. destruct (dget (checkpoint_members r) id) as [ms|] eqn:Em; [|done].
  apply bool_decide_eq_true in Hall as (Hid & Ho & Hw & Hs & Hp & Hne & Hnd & Hk). split; try done.
  exists ms. split_and!; [done..|]. intros p m Hm%dget_Some_elem. rewrite Forall_forall in Hk. by apply (Hk (p, m)).
Qed.
Lemma site1_ok : manifests_ok (site_registry site1).
Proof. apply manifests_checked. by vm_compute. Qed.

Lemma keep_quiet r : peers r = (λ _ x, x) → peers_keep r "cp".
Proof. intros Hr n x. by rewrite Hr. Qed.

Definition status (s : Site Shop.t) : option string := option_map cp_restore_status (get_checkpoint (site_registry s) "cp").
Definition outcomes (s : Site Shop.t) : list (string * option string) :=
  map (λ row, (cm_member_path row, cm_restore_outcome row)) (get_checkpoint_members (site_registry s) "cp").
Definition header1 : CheckpointRecord :=
  default (mkCheckpoint "" "" None 0 0 0 0 "" None 0) (get_checkpoint (site_registry site1) "cp").
Lemma header1_eq : get_checkpoint (site_registry site1) "cp" = Some header1.
Proof. by vm_compute. Qed.

(** A run killed after the file was restored. *)
Definition crashed : Site Shop.t := (restore (killed_at 10) versioner "cp" site1).2.
Definition crashed_header : CheckpointRecord := default header1 (get_checkpoint (site_registry crashed) "cp").
Definition crashed_row : CheckpointMember :=
  nth 1 (get_checkpoint_members (site_registry crashed) "cp") (mkMember "" None None None 0 false false "" "" "" None None).
Lemma crashed_row_in : crashed_row ∈ get_checkpoint_members (site_registry crashed) "cp".
Proof.
  apply list_elem_of_In, nth_In. apply Nat.ltb_lt. by vm_compute.
Qed.

(** The version and fingerprint the coordinator holds for the file, and a commit to it. *)
Definition registered_as (s : Site Shop.t) : option (Z * option string) :=
  option_map (λ a, (art_version a, art_content_hash a)) (get_artifact (site_registry s) 1%N).
Definition committed (ag : UUID) (expected : Z) (text : string) (s : Site Shop.t) : Site Shop.t :=
  mkSite (service_commit_cas ag 1 expected (sha256_hex text) 5 None None false (site_registry s)).2 (site_world s) (site_calls s).
End Workspace_demo.
Import Workspace_demo.

(** ** Theorems *)

(** C9 (the report is the durable state): one controller restores the checkpoint: the
    other parties do anything to the coordinator except write this checkpoint's header and
    rows ([peers_keep]).  Then, whatever the environment answers and whichever call fails,
    before it takes effect or after, a restore moves each member row at most once, from no
    outcome to a terminal one.  If it returns, the header says [concluded], every row is
    terminal, and the report says of each member what its row says, within nine attempts.
    If it raises, the manifest is as it was, or the header says that the restore is to be
    resumed, or only the last answer was lost: the header says [concluded] and every row
    is terminal. *)
Theorem restore_durable {E} `{!Env E} around v id (s : Site E) cp :
  manifests_ok (site_registry s) → peers_keep around id → get_checkpoint (site_registry s) id = Some cp →
  let rows := get_checkpoint_members (site_registry s) id in
  let '(o, s') := restore around v id s in
  let rows' := get_checkpoint_members (site_registry s') id in
  ∃ cp', get_checkpoint (site_registry s') id = Some cp' ∧ header_of cp cp' ∧ Forall2 row_progress rows rows' ∧
  match o with
  | Ok rep => wr_report_checkpoint_id rep = id ∧ cp_restore_status cp' = "concluded" ∧
              Forall2 mirrors rows' (wr_report_members rep)
  | Raise _ => (cp' = cp ∧ rows' = rows) ∨ cp_restore_status cp' = "in_progress" ∨ cp_restore_status cp' = "registered" ∨
               (cp_restore_status cp' = "concluded" ∧ Forall (λ row, is_Some (cm_restore_outcome row)) rows')
  end.
Proof.
  intros Hok Hkeep Hcp rows.
  pose proof (restore_run around v id Hkeep cp rows s (shows_of_manifest _ _ _ Hok Hcp)) as Hrun.
  destruct (restore around v id s) as [[rep|e] s'].
  - destruct Hrun as (Hid & _ & _ & cp' & rows' & [Hc Hr _] & Hh & Hst & Hp & Hm). exists cp'. rewrite Hr. by split_and!.
  - destruct Hrun as [[Hc Hr _]|(cp' & rows' & [Hc Hr _] & Hh & Hst & Hp)].
    + exists cp. rewrite Hr. split_and!; [done|apply header_refl|reflexivity|by left].
    + exists cp'. rewrite Hr. split_and!; [done..|]. right. destruct Hst as [?|[[? _]|?]]; auto.
Qed.

Lemma restore_durable_witness :
  let s' := (restore (killed_at 10) versioner "cp" site1).2 in
  status s' = Some "in_progress" ∧
  outcomes s' = [("deploy", Some "forward_only_skipped"); ("plan.md", Some "restored"); ("s3://data", None)] ∧
  Forall2 row_progress (get_checkpoint_members (site_registry site1) "cp") (get_checkpoint_members (site_registry s') "cp") ∧
  status (restore (lost_at 20) versioner "cp" site1).2 = Some "concluded".
Proof.
  split; [by vm_compute|]. split; [by vm_compute|]. split; [|by vm_compute].
  pose proof (restore_durable (killed_at 10) versioner "cp" site1
    header1 site1_ok (keep_quiet (killed_at 10) eq_refl) header1_eq) as H.
  cbv zeta in H. destruct (restore _ _ _ _) as [o s']. by destruct H as (cp' & _ & _ & H & _).
Defined.

(** Restores one after the other, each with its own surroundings and declared members: a
    run that raised is one that crashed, and the next resumes it. *)
Fixpoint after_restores {E} `{!Env E} (id : string) (runs : list (Surroundings * Versioner)) (s : Site E) : Site E :=
  match runs with
  | [] => s
  | (around, v) :: runs' => after_restores id runs' (restore around v id s).2
  end.

Lemma restore_progress {E} `{!Env E} id runs (s : Site E) cp rows :
  Forall (λ run, peers_keep run.1 id) runs → stored id cp rows s →
  ∃ cp' rows', stored id cp' rows' (after_restores id runs s) ∧ header_of cp cp' ∧ Forall2 row_progress rows rows'.
Proof.
  intros Hk. revert s cp rows. induction Hk as [|[around v] runs Hk _ IH]; intros s cp rows Hs; simpl.
  { exists cp, rows. split_and!; [done|apply header_refl|reflexivity]. }
  assert (∃ cp1 rows1, stored id cp1 rows1 (restore around v id s).2 ∧ header_of cp cp1 ∧ Forall2 row_progress rows rows1)
    as (cp1 & rows1 & Hs1 & Hh1 & Hp1).
  { pose proof (restore_run around v id Hk cp rows s Hs) as Hrun. destruct (restore around v id s) as [[rep|e] s']; simpl.
    - destruct Hrun as (_ & _ & _ & cp' & rows' & ? & ? & _ & ? & _). eauto.
    - destruct Hrun as [?|(cp' & rows' & ? & ? & _ & ?)]; [|eauto]. exists cp, rows. split_and!; [done|apply header_refl|reflexivity]. }
  destruct (IH _ _ _ Hs1) as (cp2 & rows2 & ? & Hh2 & Hp2). exists cp2, rows2. split_and!; [done| |by trans rows1].
  destruct Hh1 as (st1 & t1 & ->), Hh2 as (st2 & t2 & ->). by exists st2, t2.
Qed.

(** C18 (outcomes are final): once a terminal outcome is recorded for a member, no later
    run changes its row, over any number of crashed and resumed restores.  What other
    processes do to the coordinator meanwhile leaves this manifest alone. *)
Theorem restore_outcomes_final {E} `{!Env E} id runs (s : Site E) cp row o :
  manifests_ok (site_registry s) → get_checkpoint (site_registry s) id = Some cp →
  Forall (λ run, peers_keep run.1 id) runs →
  row ∈ get_checkpoint_members (site_registry s) id → cm_restore_outcome row = Some o →
  row ∈ get_checkpoint_members (site_registry (after_restores id runs s)) id.
Proof.
  intros Hok Hcp Hk Hin Ho.
  destruct (restore_progress id runs s cp _ Hk (shows_of_manifest _ _ _ Hok Hcp)) as (cp' & rows' & [_ -> _] & _ & Hp).
  clear Hok Hcp Hk. induction Hp as [|r r' rows rows' Hr _ IH]; [by apply elem_of_nil in Hin|].
  apply elem_of_cons in Hin as [->|Hin]; [|right; by apply IH]. destruct Hr as [->|[Hn _]]; [by left|congruence].
Qed.

Lemma restore_outcomes_final_witness :
  cm_restore_outcome crashed_row = Some "restored" ∧
  crashed_row ∈ get_checkpoint_members
    (site_registry (after_restores "cp" [(killed_at 15, versioner); (quiet, versioner)] crashed)) "cp".
Proof.
  assert (forallb (manifest_checked (site_registry crashed)) (checkpoints (site_registry crashed)) = true) as Hok%manifests_checked by by vm_compute.
  assert (cm_restore_outcome crashed_row = Some "restored") as Hrow by by vm_compute.
  split; [done|].
  apply (restore_outcomes_final "cp" [(killed_at 15, versioner); (quiet, versioner)] crashed crashed_header crashed_row "restored");
    [done|by vm_compute|by repeat constructor|apply crashed_row_in|done].
Defined.

(** C11 (termination): in a calm environment, with every member declared and readable
    pointers, a restore settles every member: no sequence of lost races, unknown
    outcomes, vanished files or refused members keeps another from being driven.  It
    returns its report, or raises what the registration call raised, with every
    outcome on record. *)
Theorem restore_settles {E} `{!Env E} around v id (s : Site E) cp :
  calm E → (∀ n, fault around n = None) → peers_keep around id → manifests_ok (site_registry s) →
  get_checkpoint (site_registry s) id = Some cp → v_restore_store v = true → is_blank id = false → distinct_paths v →
  require_known_restore_state cp (get_checkpoint_members (site_registry s) id) = Ok tt →
  Forall (drivable v) (get_checkpoint_members (site_registry s) id) →
  let '(o, s') := restore around v id s in
  all_settled (get_checkpoint_members (site_registry s') id) ∧
  match o with
  | Ok rep => option_map cp_restore_status (get_checkpoint (site_registry s') id) = Some "concluded"
  | Raise e => registration_raised around v id e
  end.
Proof.
  intros Hcalm Hq Hkeep Hok Hcp Hst Hb Hdp Hknown Hd.
  pose proof (restore_calm Hcalm around v Hq id Hkeep cp _ Hst Hb Hdp Hknown (λ _, Hd) s (shows_of_manifest _ _ _ Hok Hcp)) as Hrun.
  destruct (restore around v id s) as [[rep|e] s'].
  - destruct Hrun as (_ & _ & _ & cp' & rows' & [Hc -> _] & _ & Hs & _ & Hm). split; [by eapply mirrors_settled|].
    rewrite Hc. simpl. by rewrite Hs.
  - destruct Hrun as (He & cp' & rows' & [_ -> _] & _ & _ & Hs). by split.
Qed.

Lemma restore_settles_witness :
  all_settled (get_checkpoint_members (site_registry (restore quiet versioner "cp" site1).2) "cp").
Proof.
  assert (Forall (λ row, cm_restore_outcome row = None) (get_checkpoint_members (site_registry site1) "cp")) as Hn
    by (vm_compute; repeat constructor).
  assert (Forall (λ row, undrivable versioner row = false) (get_checkpoint_members (site_registry site1) "cp")) as Hu
    by (vm_compute; repeat constructor).
  assert (Forall (pointer_ok versioner) (get_checkpoint_members (site_registry site1) "cp")) as Hp.
  { vm_compute. repeat constructor; [by eexists|]. by intros t [= <-]. }
  assert (Forall (drivable versioner) (get_checkpoint_members (site_registry site1) "cp")) as Hd.
  { rewrite Forall_forall in Hn, Hu, Hp |- *. intros row Hin. split; [|by auto]. intros o Ho. by rewrite (Hn row Hin) in Ho. }
  pose proof (restore_settles quiet versioner "cp" site1 header1 Shop.shop_calm (λ _, eq_refl) (keep_quiet quiet eq_refl) site1_ok
    header1_eq eq_refl eq_refl ltac:(by apply (bool_decide_unpack _); vm_compute) ltac:(by vm_compute) Hd) as H.
  destruct (restore quiet versioner "cp" site1) as [o s']. apply H.
Defined.

(** C10 (no blind write): every write a restore makes is a compare-and-set against its own
    last read.  A put carries the ETag of the last live read of the object, or asks for a
    creation when that read found nothing; its bytes are those of the pinned version;
    the object read differed from the manifest.  A file write carries the version last
    read, and bytes with the fingerprint of the manifest.  An object is deleted only
    for a member captured absent, after a read that found it.  No hold is touched. *)
Theorem restore_writes_guarded {E} `{!Env E} around v id (s : Site E) cp :
  (∀ n w e, fault around n = Some (w, e) → abrupt e = true) → peers_keep around id →
  manifests_ok (site_registry s) → get_checkpoint (site_registry s) id = Some cp → w_events (site_world s) = [] →
  disciplined v (get_checkpoint_members (site_registry s) id) (w_events (site_world (restore around v id s).2)).
Proof.
  intros Ha Hkeep Hok Hcp Hev.
  pose proof (restore_log v (get_checkpoint_members (site_registry s) id) around Ha id cp Hkeep s) as Hrun.
  assert (logged v (get_checkpoint_members (site_registry s) id) anyfact s) as Hl.
  { split; [|done]. rewrite Hev. intros pre ev post Heq. by destruct pre. }
  specialize (Hrun (conj (shows_of_manifest _ _ _ Hok Hcp) Hl)).
  destruct (restore around v id s) as [[rep|e] s']; apply Hrun.
Qed.

Lemma restore_writes_guarded_witness :
  let evs := w_events (site_world (restore (killed_at 18) versioner "cp" site1).2) in
  (∃ o, EPut "bucket" "data" (IfMatch "e1") "alpha" o ∈ evs) ∧ (∃ o, EFileWrite "plan.md" 2 "one" o ∈ evs) ∧
  disciplined versioner (get_checkpoint_members (site_registry site1) "cp") evs.
Proof.
  split; [eexists; apply list_elem_of_In; vm_compute; do 5 right; left; reflexivity|].
  split; [eexists; apply list_elem_of_In; vm_compute; do 2 right; left; reflexivity|].
  apply (restore_writes_guarded (killed_at 18) versioner "cp" site1 header1); [|by apply (keep_quiet (killed_at 18))|apply site1_ok|apply header1_eq|done].
  intros n w e. simpl. destruct (_ =? _)%nat; [by intros [= <- <-]|done].
Defined.

(** C36 (the resume forgets the registration): the header [registered] is documented as an
    exactly-once marker.  Let a restore that completed its registration be resumed, and
    let the resume be cut after its first write and before its last.  Then the marker is
    gone: the header says [in_progress], and, as long as the manifest stays as it is, no
    later restore that returns answers [PRIOR_RUN]: it registered, or tried to register,
    a second time. *)
Theorem resume_forgets_registration {E} `{!Env E} around v id (s : Site E) cp e s1 cp1 :
  manifests_ok (site_registry s) → peers_keep around id → get_checkpoint (site_registry s) id = Some cp →
  cp_restore_status cp = "registered" → restore around v id s = (Raise e, s1) →
  get_checkpoint (site_registry s1) id = Some cp1 → cp_restore_status cp1 ≠ "concluded" → cp1 ≠ cp →
  cp_restore_status cp1 = "in_progress" ∧
  ∀ around' v' (s2 : Site E) rep s3, manifests_ok (site_registry s2) → peers_keep around' id →
    get_checkpoint (site_registry s2) id = Some cp1 → restore around' v' id s2 = (Ok rep, s3) →
    rr_status (wr_report_registration rep) ≠ REG_PRIOR_RUN.
Proof.
  intros Hok Hkeep Hcp Hreg Hrun Hcp1 Hnc Hne.
  pose proof (restore_run around v id Hkeep cp _ s (shows_of_manifest _ _ _ Hok Hcp)) as Hcut. rewrite Hrun in Hcut.
  assert (cp_restore_status cp1 = "in_progress") as Hst.
  { destruct Hcut as [[Hc _ _]|(cp' & rows' & [Hc _ _] & _ & Hst & _)]; [congruence|]. assert (cp' = cp1) as -> by congruence.
    destruct Hst as [?|[[_ ?]|[? _]]]; [done|congruence|done]. }
  split; [done|]. intros around' v' s2 rep s3 Hok2 Hkeep2 Hcp2 Hrun2.
  pose proof (restore_run around' v' id Hkeep2 cp1 _ s2 (shows_of_manifest _ _ _ Hok2 Hcp2)) as Hend. rewrite Hrun2 in Hend.
  destruct Hend as (_ & _ & Hown & _). by apply Hown.
Qed.

(** On the workspace: the first run is killed after the marker is written, the resume too;
    a peer commits; the next resume registers a second time, and the fingerprint of the
    checkpoint replaces the peer's version. *)
Definition marked : Site Shop.t := (restore (killed_at 18) versioner "cp" (committed 8 1 "two" site1)).2.
Definition forgotten : Site Shop.t := (restore (killed_at 24) versioner "cp" marked).2.
Definition overtaken : Site Shop.t := committed 8 3 "three" forgotten.
Definition header_at (s : Site Shop.t) : CheckpointRecord := default header1 (get_checkpoint (site_registry s) "cp").

Lemma resume_forgets_registration_witness :
  status marked = Some "registered" ∧ registered_as overtaken = Some (4, Some (sha256_hex "three")) ∧
  registered_as (restore quiet versioner "cp" overtaken).2 = Some (5, Some (sha256_hex "one")) ∧
  match (restore quiet versioner "cp" overtaken).1 with
  | Ok rep => rr_status (wr_report_registration rep) ≠ REG_PRIOR_RUN
  | Raise _ => False
  end.
Proof.
  split; [by vm_compute|]. split; [by vm_compute|]. split; [by vm_compute|].
  assert (forallb (manifest_checked (site_registry marked)) (checkpoints (site_registry marked)) = true) as Hok%manifests_checked by by vm_compute.
  assert (forallb (manifest_checked (site_registry overtaken)) (checkpoints (site_registry overtaken)) = true) as Hok2%manifests_checked by by vm_compute.
  destruct (restore quiet versioner "cp" overtaken) as [[rep|x] s3] eqn:Erun; [|by vm_compute in Erun].
  assert (restore (killed_at 24) versioner "cp" marked = (Raise KeyboardInterrupt, forgotten)) as Hcut by by vm_compute.
  refine (proj2 (resume_forgets_registration (killed_at 24) versioner "cp" marked (header_at marked) KeyboardInterrupt forgotten
    (header_at forgotten) Hok (keep_quiet (killed_at 24) eq_refl) _ _ Hcut _ _ _) quiet versioner overtaken rep s3 Hok2
    (keep_quiet quiet eq_refl) _ Erun); by vm_compute.
Defined.
