(* ===== verification/PinFacts.v ===== *)
(** Pins: what a run of the pin legs leaves of the manifest, and that nothing is called
    held without a hold. *)
From S2P Require Import Prelude Core Registry RegistryFacts Service Checkpoints ManifestFacts.
From S2P Require Import Substrate ObjectStore Workspace WorkspaceFacts RestoreFacts.

Open Scope Z_scope.
Open Scope string_scope.
Open Scope list_scope.

(** ** Logs only grow *)
Definition grows {E} (w w' : World E) : Prop := ∀ ev, ev ∈ w_events w → ev ∈ w_events w'.
#[export] Instance grows_preorder {E} : PreOrder (@grows E).
Proof. split; [by intros w ev|]. intros w1 w2 w3 H1 H2 ev Hev. by apply H2, H1. Qed.

Section pins.
Context {E : Type} `{!Env E} (around : Surroundings) (v : Versioner) (id : string).
Hypothesis Hkeep : peers_keep around id.
Local Abbreviation M := (@M E).
Local Abbreviation WM := (@WM E).
Local Abbreviation stored := (@stored E id).

Definition log (s : Site E) : list event := w_events (site_world s).
Definition grown (s s' : Site E) : Prop := grows (site_world s) (site_world s').
#[local] Instance grown_preorder : PreOrder grown.
Proof. split; [by intros s ev|]. intros s1 s2 s3 H1 H2 ev Hev. by apply H2, H1. Qed.

Lemma grows_call {A} (m : proc exn E A) ev : respects grows (call m ev : WM A).
Proof. intros w. unfold call. destruct (m (w_env w)) as [o e]. intros ev' Hev. simpl. apply elem_of_app. by left. Qed.
Lemma grown_world {A} (m : WM A) : respects grows m → respects grown (on_world around m : M A).
Proof.
  intros Hm s. specialize (Hm (site_world s)). unfold on_world, calling.
  destruct (fault around (site_calls s)) as [[[|] x]|]; [by intros ev|..]; unfold zoom; simpl; by destruct (m (site_world s)) as [[] w].
Qed.
Lemma grown_store {A} (m : nat → RM A) : respects grown (on_store around m : M A).
Proof.
  intros s. unfold on_store, calling.
  destruct (fault around (site_calls s)) as [[[|] x]|]; [by intros ev|..]; unfold zoom; simpl; destruct (m _ _) as [[] r]; by intros ev.
Qed.

(** A run that keeps the log, and a fact about the log that lasts. *)
Lemma triple_log {A} P (m : M A) Q X (F : list event → Prop) : respects grown m →
  (∀ l l', (∀ ev, ev ∈ l → ev ∈ l') → F l → F l') → triple P m Q X →
  triple (λ s, P s ∧ F (log s)) m (λ a s, Q a s ∧ F (log s)) (λ e s, X e s ∧ F (log s)).
Proof.
  intros Hg HF Hm s [Hs Hf]. specialize (Hm s Hs). specialize (Hg s). destruct (m s) as [[a|e] s']; simpl in *;
    (split; [done|]; by eapply HF).
Qed.

(** ** Legs *)
(** The pin of a row is there: the version is held, or its bytes were served and match. *)
Definition backed (l : list event) (row : CheckpointMember) : Prop :=
  ∃ t, cm_native_token row = Some t ∧
  if is_native_cas row
  then ∃ p b k, dget (declared v) (cm_member_path row) = Some (ObjectMember p b k) ∧ EHold b k t "ON" (Ok tt) ∈ l
  else ∃ n data, int_of_str t = Ok n ∧ EContentAt (cm_member_path row) n (Ok data) ∈ l ∧ cm_fingerprint row = Some (sha256_hex data).

Definition downgraded (row : CheckpointMember) : CheckpointMember :=
  with_pin "pin_unavailable" (Some (restore_tier_value (if is_native_cas row then RESTORABLE_UNPINNED else TIER_FORWARD_ONLY))) row.

(** How a leg moves its row. *)
Inductive pin_step (l : list event) (row : CheckpointMember) : CheckpointMember → Prop :=
| pin_held : backed l row → pin_step l row (with_pin "held" None row)
| pin_downgraded : pin_step l row (downgraded row).

Lemma backed_mono l l' row : (∀ ev, ev ∈ l → ev ∈ l') → backed l row → backed l' row.
Proof.
  intros Hl (t & Ht & Hb). exists t. split; [done|]. destruct (is_native_cas row).
  - destruct Hb as (p & b & k & Hd & Hh). exists p, b, k. auto.
  - destruct Hb as (n & d & Hn & Hc & Hf). exists n, d. auto.
Qed.
Lemma pin_step_mono l l' row row' : (∀ ev, ev ∈ l → ev ∈ l') → pin_step l row row' → pin_step l' row row'.
Proof. intros Hl [Hb|]; [by apply pin_held, (backed_mono l)|apply pin_downgraded]. Qed.

Definition is_held (row : CheckpointMember) : bool := bool_decide (cm_pin_state row = "held").

(** The two ways a leg ends, from the rows before and after its own. *)
Section leg.
Context (cp : CheckpointRecord) (done todo : list CheckpointMember) (row : CheckpointMember).
Hypothesis Hnd : NoDup (map cm_member_path (done ++ row :: todo)).
Hypothesis Hcount : 0 <= cp_pin_refcount cp.

(** [n] more pins are counted. *)
Definition counted (n : Z) : CheckpointRecord := with_refcount (cp_pin_refcount cp + n) cp.
Definition leg_done (s : Site E) : Prop :=
  ∃ row', pin_step (log s) row row' ∧ stored (counted (if is_held row' then 1 else 0)) (done ++ row' :: todo) s.
Definition leg_cut (s : Site E) : Prop :=
  ∃ cp' row', (row' = row ∨ pin_step (log s) row row') ∧ stored cp' (done ++ row' :: todo) s.

Lemma in_rows : cm_member_path row ∈ map cm_member_path (done ++ row :: todo).
Proof. apply elem_of_map. exists row. split; [by constructor|]. apply elem_of_app. right. by left. Qed.

Lemma counted_0 : counted 0 = cp.
Proof. unfold counted, with_refcount. rewrite Z.add_0_r. by destruct cp. Qed.

Lemma hold_leg :
  triple (λ s, stored cp (done ++ row :: todo) s ∧ backed (log s) row)
    (store_pin around id (cm_member_path row) "held" None ;; store_refcount around id 1 ;; mret tt : M unit)
    (λ _, leg_done) (λ _, leg_cut).
Proof using Hkeep Hnd Hcount.
  assert (∀ l l', (∀ ev, ev ∈ l → ev ∈ l') → backed l row → backed l' row) as HF by (intros; by eapply backed_mono).
  eapply triple_bind.
  { eapply triple_conseq; [eapply (triple_log _ _ _ _ (λ l, backed l row)); [apply grown_store|exact HF|
      apply (triple_pin around id Hkeep cp _ (cm_member_path row) "held" None in_rows); [known_outcome|by intros]]| | |].
    - by intros s Hs.
    - intros u s Hs. exact Hs.
    - intros e s [[Hs|Hs] Hb]; [exists cp, row; split; [by left|done]|]. rewrite set_row_app in Hs by done.
      exists cp, (with_pin "held" None row). split; [right; by constructor|done]. }
  intros u. rewrite set_row_app by done. eapply triple_bind.
  { eapply triple_conseq; [eapply (triple_log _ _ _ _ (λ l, backed l row)); [apply grown_store|exact HF|
      apply (triple_refcount around id Hkeep cp (done ++ with_pin "held" None row :: todo) 1); lia]| | |].
    - by intros s Hs.
    - intros u' s Hs. exact Hs.
    - intros e s [[Hs|Hs] Hb]; eexists _, (with_pin "held" None row); (split; [right; by constructor|exact Hs]). }
  intros n. apply triple_ret. intros s [Hs Hb]. exists (with_pin "held" None row). split; [by constructor|done].
Qed.

Lemma downgrade_leg tier : Some tier = Some (restore_tier_value (if is_native_cas row then RESTORABLE_UNPINNED else TIER_FORWARD_ONLY)) →
  triple (stored cp (done ++ row :: todo)) (store_pin around id (cm_member_path row) "pin_unavailable" (Some tier) : M unit)
    (λ _, leg_done) (λ _, leg_cut).
Proof using Hkeep Hnd Hcount.
  intros Ht. eapply triple_conseq; [apply (triple_pin around id Hkeep cp); [apply in_rows|known_outcome|]| | |].
  - intros t Heq. assert (Some t = Some (restore_tier_value (if is_native_cas row then RESTORABLE_UNPINNED else TIER_FORWARD_ONLY))) as [= ->] by congruence.
    destruct (is_native_cas row); known_outcome.
  - by intros s Hs.
  - intros u s Hs. rewrite set_row_app in Hs by done. rewrite Ht in Hs. exists (downgraded row). split; [constructor|].
    change (if is_held (downgraded row) then 1 else 0) with 0. by rewrite counted_0.
  - intros e s [Hs|Hs]; [exists cp, row; split; [by left|done]|]. rewrite set_row_app in Hs by done. rewrite Ht in Hs.
    exists cp, (downgraded row). split; [right; constructor|done].
Qed.

Definition untouched (s : Site E) : Prop := stored cp (done ++ row :: todo) s.

(** An answer from outside that leaves the manifest, and what it shows when it succeeds. *)
Lemma triple_attempt {A} (answers : exn → bool) (m : M A) (F : A → list event → Prop) :
  triple untouched m (λ a s, untouched s ∧ F a (log s)) (λ _, untouched) →
  triple untouched (attempt answers m) (λ x s, untouched s ∧ ∀ a, x = Some a → F a (log s)) (λ _, leg_cut).
Proof.
  intros Hm. unfold attempt. eapply triple_catch.
  - eapply triple_bind; [exact Hm|]. intros a. apply triple_ret. intros s [Hs Ha]. split; [done|]. by intros ? [= <-].
  - intros e. destruct (answers e); [apply triple_ret|apply triple_raise]; intros s Hs; [by split|].
    exists cp, row. split; [by left|done].
Qed.

(** A call of the world that succeeded is in the log. *)
Lemma triple_called {A} (w : WM A) (F : A → list event → Prop) :
  (∀ w0, match w w0 with (Ok a, w1) => F a (w_events w1) | _ => True end) →
  triple untouched (on_world around w) (λ a s, untouched s ∧ F a (log s)) (λ _, untouched).
Proof using Hkeep.
  intros Hw s Hs. pose proof (triple_world around id Hkeep cp (done ++ row :: todo) w s Hs) as Ht. revert Ht.
  specialize (Hw (site_world s)). unfold on_world, calling.
  destruct (fault around (site_calls s)) as [[[|] x]|]; [done|..]; unfold zoom; simpl;
    destruct (w (site_world s)) as [[a|e] w1]; by intros Ht.
Qed.

Lemma set_hold_log b k t w0 :
  match (set_legal_hold b k t : WM unit) w0 with (Ok a, w1) => EHold b k t "ON" (Ok tt) ∈ w_events w1 | _ => True end.
Proof.
  unfold set_legal_hold, put_legal_hold, require_usable_version_pointer. destruct (_ || _); [done|].
  unfold mbind, proc_bind, of_outcome, catch, put_object_legal_hold, call.
  destruct (srv_put_legal_hold b k t "ON" (w_env w0)) as [[[]|e] e']; [|done]. simpl. apply elem_of_app. right. by left.
Qed.
Lemma content_at_log p n w0 :
  match (content_at p n : WM string) w0 with (Ok d, w1) => EContentAt p n (Ok d) ∈ w_events w1 | _ => True end.
Proof.
  unfold content_at, call. destruct (srv_content_at p n (w_env w0)) as [[d|e] e']; [|done]. simpl. apply elem_of_app. right. by left.
Qed.

Lemma pin_leg_run : pin_eligible v row = true → lacks_binding v row = false →
  triple untouched (pin_leg around v id row : M unit) (λ _, leg_done) (λ _, leg_cut).
Proof using Hkeep Hnd Hcount.
  intros He Hb. unfold pin_leg. destruct (cm_native_token row) as [t|] eqn:Et.
  2: { unfold pin_eligible in He. rewrite Et in He. rewrite bool_decide_eq_true_2, orb_true_r in He; done. }
  unfold lacks_binding in Hb. destruct (is_native_cas row) eqn:En; simpl in Hb.
  - destruct (dget (declared v) (cm_member_path row)) as [[| p b k|]|] eqn:Ed; try done. unfold pin_object_leg.
    eapply triple_bind; [apply (triple_attempt _ _ (λ _ l, EHold b k t "ON" (Ok tt) ∈ l)),
      (triple_called _ (λ _ l, EHold b k t "ON" (Ok tt) ∈ l)), set_hold_log|].
    intros [u|].
    + eapply triple_conseq; [apply hold_leg| |done|done]. intros s [Hs Hh]. split; [done|]. exists t. split; [done|]. rewrite En.
      exists p, b, k. split; [done|by apply (Hh u)].
    + eapply triple_conseq; [apply downgrade_leg; by rewrite En| |done|done]. by intros s [Hs _].
  - unfold pin_file_leg.
    eapply (triple_bind _ _ _ (λ x s, untouched s ∧ ∀ d, x = Some d →
      ∃ n, int_of_str t = Ok n ∧ EContentAt (cm_member_path row) n (Ok d) ∈ log s)).
    + apply (triple_attempt is_KeyError _ (λ d l, ∃ n, int_of_str t = Ok n ∧ EContentAt (cm_member_path row) n (Ok d) ∈ l)).
      destruct (int_of_str t) as [n|e]; [|by intros s Hs]. eapply triple_of_outcome; [done|].
      eapply triple_conseq; [apply (triple_called _ (λ d l, EContentAt (cm_member_path row) n (Ok d) ∈ l)), content_at_log|done| |done].
      intros d s [Hs Hc]. split; [done|]. by exists n.
    + intros [d|]; [case_bool_decide as Hf|].
      * eapply triple_conseq; [apply downgrade_leg; by rewrite En| |done|done]. by intros s [Hs _].
      * eapply triple_conseq; [apply hold_leg| |done|done]. intros s [Hs Hh]. split; [done|]. exists t. split; [done|]. rewrite En.
        destruct (Hh d eq_refl) as (n & Hn & Hc). exists n, d. split_and!; [done..|]. symmetry.
        by destruct (decide (Some (sha256_hex d) = cm_fingerprint row)).
      * eapply triple_conseq; [apply downgrade_leg; by rewrite En| |done|done]. by intros s [Hs _].
Qed.
End leg.

Lemma grows_set_hold b k t : respects grows (set_legal_hold b k t : WM unit).
Proof.
  unfold set_legal_hold, put_legal_hold, put_object_legal_hold. respects_tac ltac:(apply grows_call).
Qed.
Lemma grown_leg row : respects grown (pin_leg around v id row : M unit).
Proof.
  unfold pin_leg, pin_object_leg, pin_file_leg, attempt, store_pin, store_refcount, content_at.
  respects_tac ltac:(first [apply grown_store | apply grown_world, grows_set_hold | apply grown_world, grows_call]).
Qed.

(** ** All the legs *)
Definition pinned (l : list event) (row row' : CheckpointMember) : Prop :=
  if pin_eligible v row then pin_step l row row' else row' = row.
Definition pin_progress (l : list event) (row row' : CheckpointMember) : Prop :=
  row' = row ∨ (pin_eligible v row = true ∧ pin_step l row row').

Lemma pinned_progress l row row' : pinned l row row' → pin_progress l row row'.
Proof. unfold pinned. destruct (pin_eligible v row) eqn:He; [by right|by left]. Qed.
Lemma pin_progress_mono l l' row row' : (∀ ev, ev ∈ l → ev ∈ l') → pin_progress l row row' → pin_progress l' row row'.
Proof. intros Hl [->|[He Hs]]; [by left|]. right. split; [done|by eapply pin_step_mono]. Qed.

Definition held_count (rows : list CheckpointMember) : Z := Z.of_nat (length (List.filter is_held rows)).

Lemma eligible_not_held row : pin_eligible v row = true → is_held row = false.
Proof.
  unfold pin_eligible, is_held. destruct (_ || _); [done|]. intros He. apply bool_decide_eq_false_2. intros Hh. rewrite Hh in He.
  by rewrite bool_decide_eq_true_2 in He.
Qed.

Lemma pin_step_path l row row' : pin_step l row row' → cm_member_path row' = cm_member_path row.
Proof. by destruct 1. Qed.

Lemma counted_counted cp n m : counted (counted cp n) m = counted cp (n + m).
Proof. unfold counted, with_refcount. simpl. by rewrite Z.add_assoc. Qed.

Lemma pins_run todo cp done : NoDup (map cm_member_path (done ++ todo)) → 0 <= cp_pin_refcount cp →
  existsb (lacks_binding v) (List.filter (pin_eligible v) todo) = false →
  triple (stored cp (done ++ todo)) (for_each (List.filter (pin_eligible v) todo) (pin_leg around v id) : M unit)
    (λ _ s, ∃ rows', Forall2 (pinned (log s)) todo rows' ∧ stored (counted cp (held_count rows' - held_count todo)) (done ++ rows') s)
    (λ _ s, ∃ cp' rows', Forall2 (pin_progress (log s)) todo rows' ∧ stored cp' (done ++ rows') s).
Proof using Hkeep.
  revert cp done. induction todo as [|row todo IH]; intros cp done Hnd Hc Hb.
  { apply triple_ret. intros s Hs. exists []. split; [constructor|]. by rewrite counted_0. }
  simpl in Hb |- *. destruct (pin_eligible v row) eqn:He.
  - simpl in Hb. apply orb_false_iff in Hb as [Hb1 Hb2]. eapply triple_bind.
    { eapply triple_conseq; [by apply (pin_leg_run cp done todo row)|by intros s Hs|intros u s H; exact H|].
      intros e s (cp' & row' & Hr & Hs). exists cp', (row' :: todo). split; [|done]. constructor; [|by apply Forall2_same_length_lookup_2; [done|intros; left; congruence]].
      destruct Hr as [->|Hr]; [by left|by right]. }
    intros u. apply triple_exists. intros row'.
    assert (∀ s, pin_step (log s) row row' → is_held row = false ∧ cm_member_path row' = cm_member_path row) as Hst.
    { intros s Hs. split; [by apply eligible_not_held|by eapply pin_step_path]. }
    intros s [Hp Hs]. destruct (Hst s Hp) as [Hheld Hpath]. revert s Hp Hs.
    set (d := if is_held row' then 1 else 0).
    assert (triple (λ s, stored (counted cp d) ((done ++ [row']) ++ todo) s ∧ pin_step (log s) row row')
      (for_each (List.filter (pin_eligible v) todo) (pin_leg around v id) : M unit)
      (λ _ s, ∃ rows', Forall2 (pinned (log s)) (row :: todo) rows' ∧ stored (counted cp (held_count rows' - held_count (row :: todo))) (done ++ rows') s)
      (λ _ s, ∃ cp' rows', Forall2 (pin_progress (log s)) (row :: todo) rows' ∧ stored cp' (done ++ rows') s)) as Hrest.
    { eapply triple_conseq; [eapply (triple_log _ _ _ _ (λ l, pin_step l row row'));
        [apply respects_for_each; [apply _|apply grown_leg]|intros l l' Hl H; by apply (pin_step_mono l)|apply (IH (counted cp d) (done ++ [row']))]|intros s H; exact H| |].
      - rewrite <-app_assoc. simpl. rewrite map_app in Hnd |- *. simpl in Hnd |- *. by rewrite Hpath.
      - simpl. unfold d. destruct (is_held row'); lia.
      - done.
      - intros u' s [(rows' & Hf & Hs) Hr]. exists (row' :: rows'). split; [constructor; [unfold pinned; by rewrite He|done]|].
        rewrite <-app_assoc in Hs. rewrite counted_counted in Hs.
        replace (held_count (row' :: rows') - held_count (row :: todo)) with (d + (held_count rows' - held_count todo)); [done|].
        unfold held_count, d. simpl. rewrite Hheld. destruct (is_held row'); simpl; lia.
      - intros e s [(cp' & rows' & Hf & Hs) Hr]. exists cp', (row' :: rows'). rewrite <-app_assoc in Hs.
        split; [constructor; [by right|done]|done]. }
    intros s Hp Hs. apply Hrest. split; [|done]. by rewrite <-app_assoc.
  - eapply triple_conseq; [apply (IH cp (done ++ [row])); [by rewrite <-app_assoc|done|done]| | |].
    + intros s Hs. by rewrite <-app_assoc.
    + intros u s (rows' & Hf & Hs). exists (row :: rows'). split; [constructor; [unfold pinned; by rewrite He|done]|].
      rewrite <-app_assoc in Hs. replace (held_count (row :: rows') - held_count (row :: todo)) with (held_count rows' - held_count todo); [done|].
      unfold held_count. simpl. destruct (is_held row); simpl; lia.
    + intros e s (cp' & rows' & Hf & Hs). exists cp', (row :: rows'). rewrite <-app_assoc in Hs. split; [constructor; [by left|done]|done].
Qed.

Definition pins_done (cp : CheckpointRecord) (rows : list CheckpointMember) (s : Site E) : Prop :=
  ∃ rows', Forall2 (pinned (log s)) rows rows' ∧ stored (counted cp (held_count rows' - held_count rows)) rows' s.
Definition pins_cut (rows : list CheckpointMember) (s : Site E) : Prop :=
  ∃ cp' rows', Forall2 (pin_progress (log s)) rows rows' ∧ stored cp' rows' s.

Lemma pin_members_run cp rows : 0 <= cp_pin_refcount cp →
  triple (stored cp rows) (pin_members around v id : M unit) (λ _, pins_done cp rows) (λ _, pins_cut rows).
Proof using Hkeep.
  assert (∀ s, stored cp rows s → pins_cut rows s) as Hcut.
  { intros s Hs. exists cp, rows. split; [|done]. clear Hs. induction rows; constructor; [by left|done]. }
  intros Hc. eapply triple_bind.
  { eapply triple_conseq; [by apply triple_members|done|intros x s H; exact H|intros e; apply Hcut]. }
  intros x. apply triple_pure. intros ->. destruct (existsb _ _) eqn:Eb; [apply triple_raise, Hcut|].
  intros s Hs. apply (pins_run rows cp []); [by eapply shows_nodup|done..].
Qed.
End pins.

(** ** Capture *)

(** What a captured row says of itself. *)
Record fair_row (row : CheckpointMember) : Prop := {
  fr_absent : cm_absent row = true → cm_native_token row = None ∧ cm_fingerprint row = None ∧ cm_restore_tier row = "forward_only";
  fr_restorable : cm_restore_tier row = "restorable" → is_native_cas row = true ∧ cm_absent row = false ∧ is_Some (cm_native_token row);
  fr_unpinned : cm_pin_state row = "unpinned";
  fr_outcome : cm_restore_outcome row = None;
}.

Section capture.
Context {E : Type} `{!Env E} (around : Surroundings) (v : Versioner).
Local Abbreviation M := (@M E).

(** What an observation says; [pinnable] only of objects. *)
Definition fair_observation (m : member) (o : Observation) : Prop :=
  (ob_absent o = true → ob_token o = None ∧ ob_fingerprint o = None ∧ ob_versioned o = false) ∧
  (ob_versioned o = true → is_Some (ob_token o)) ∧
  (ob_pinnable o = true → member_arbitration_tier m = "native-cas").

Lemma observe_fair m refuse : yields (fair_observation m) anything (observe around m refuse : M _).
Proof.
  destruct m as [p w|p b k|p]; cbn [observe]; [|  |by apply yields_raise].
  - apply (yields_bind anything); [apply yields_any|]. intros [[d n]|] _.
    + destruct (refuse && _); [by apply yields_raise|]. case_bool_decide; apply yields_ret; by split_and!; eauto.
    + by apply yields_ret.
  - apply (yields_catch _ anything).
    + apply (yields_bind anything); [apply yields_any|]. intros r _. apply yields_ret. by split_and!; eauto.
    + intros e _. destruct e; try by apply yields_raise.
      * by apply yields_ret.
      * apply (yields_bind anything); [apply yields_any|]. intros [[d t]|] _; by apply yields_ret.
Qed.

Lemma capture_fair m : yields (λ row, fair_row row ∧ cm_member_path row = member_path m) anything (capture_one around m : M _).
Proof.
  apply (yields_bind anything); [apply yields_any|]. intros t _.
  assert (∀ o, fair_observation m o → fair_row (mkMember (member_path m) None (ob_token o) (ob_fingerprint o) t (ob_absent o) false
    (member_arbitration_tier m) (restore_tier_value (derive_restore_tier (ob_versioned o) (ob_pinnable o))) "unpinned" None None)) as Hrow.
  { intros o (Ha & Ht & Hp). split; simpl; [| |done|done].
    - intros H. destruct (Ha H) as (-> & -> & ->). done.
    - destruct (ob_versioned o) eqn:Ev; [|done]. destruct (ob_pinnable o) eqn:Ep; [|done]. intros _.
      split_and!; [unfold is_native_cas; simpl; by apply bool_decide_eq_true_2, Hp| |by apply Ht].
      destruct (ob_absent o); [|done]. by destruct (Ha eq_refl) as (_ & _ & ?). }
  destruct m as [p w|p b k|p].
  1,2: eapply yields_bind; [apply observe_fair|]; intros o Ho; apply yields_ret; split; [by apply Hrow|done].
  apply yields_ret. by split; [split|].
Qed.

Lemma verify_fair row : fair_row row →
  yields (λ row', fair_row row' ∧ cm_member_path row' = cm_member_path row) anything (verify_one around v row : M _).
Proof.
  intros Hr. assert (fair_row (row <| cm_dirty_during_window := true |>)) as Hr' by (destruct Hr; by split).
  unfold verify_one. destruct (dget _ _) as [[p w|p b k|p]|]; [| |by apply yields_ret|by apply yields_raise].
  all: apply (yields_bind anything); [apply yields_any|]; intros o _; case_bool_decide; by apply yields_ret.
Qed.

Lemma mapm_yields {A B} (f : A → M B) (R : A → B → Prop) l : Forall (λ x, yields (R x) anything (f x)) l →
  yields (Forall2 R l) anything (mapm f l).
Proof.
  induction 1 as [|x l Hx _ IH]; cbn [mapm]; [apply yields_ret; constructor|].
  eapply yields_bind; [exact Hx|]. intros y Hy. eapply yields_bind; [exact IH|]. intros ys Hys. apply yields_ret. by constructor.
Qed.

Lemma captured_rows :
  yields (λ rows, Forall fair_row rows ∧ map cm_member_path rows = map member_path (v_members v)) anything
    (rows ← capture_all around v; verify_window around v rows : M _).
Proof.
  eapply yields_bind.
  { apply (mapm_yields _ (λ m row, fair_row row ∧ cm_member_path row = member_path m)). apply Forall_forall. intros m _. apply capture_fair. }
  intros rows Hrows. eapply yields_conseq.
  { apply (mapm_yields _ (λ row row', fair_row row' ∧ cm_member_path row' = cm_member_path row)).
    apply Forall_forall. intros row Hin. apply verify_fair. revert row Hin. apply Forall_forall.
    eapply Forall2_Forall_r; [exact Hrows|]. apply Forall_forall. by intros m _ row [H _]. }
  2: done.
  intros rows' Hrows'. split.
  - eapply Forall2_Forall_r; [exact Hrows'|]. apply Forall_forall. by intros m _ row [H _].
  - transitivity (map cm_member_path rows).
    + clear Hrows. induction Hrows' as [|? ? ? ? [_ Hp] _ IH]; simpl; by rewrite ?Hp, ?IH.
    + clear Hrows'. induction Hrows as [|? ? ? ? [_ Hp] _ IH]; simpl; by rewrite ?Hp, ?IH.
Qed.

(** ** The stored manifest *)
Lemma create_shows cid name owner rows wmin wmax t r cp r' :
  create_workspace_checkpoint cid name owner rows wmin wmax t false r = (Ok cp, r') →
  cp_checkpoint_id cp = cid ∧ cp_pin_refcount cp = 0 ∧ ∃ rows', shows cid cp rows' r' ∧ rows' ≡ₚ rows.
Proof.
  unfold create_workspace_checkpoint. destruct (is_blank name); [done|]. destruct owner as [owner|]; [|done].
  destruct (decide (rows = [])); [done|]. destruct (decide (wmax < wmin)); [done|]. unfold abort_guard.
  unfold create_checkpoint, mbind, proc_bind. unfold gets, of_outcome. cbn [cp_owner cp_checkpoint_id].
  destruct (dmem (checkpoints r) cid); [done|].
  destruct (index_members rows []) as [by_path|e] eqn:Ei; [|done]. simpl. intros [= <- <-].
  destruct (index_members_spec _ _ _ Ei dict_wf_nil ltac:(done)) as (Hwf & Hp & Hall).
  split_and!; [done..|]. eexists. split; [split; [|reflexivity|]|].
  - unfold get_checkpoint. simpl. by rewrite dget_dset_eq.
  - exists by_path. simpl. by rewrite dget_dset_eq.
  - unfold get_checkpoint_members. simpl. rewrite dget_dset_eq. simpl.
    rewrite (sorting.merge_sort_Permutation path_le by_path). by rewrite Hall.
Qed.

Lemma persist_run name rows :
  triple (λ _, True) (persist around v name rows : M _)
    (λ res s, wc_members res = rows ∧ cp_pin_refcount (wc_record res) = 0 ∧
              ∃ rows', stored (cp_checkpoint_id (wc_record res)) (wc_record res) rows' s ∧ rows' ≡ₚ rows)
    (λ _ _, True).
Proof.
  intros s _. unfold persist, mbind, proc_bind, catch, tick. simpl. unfold on_store, calling. simpl.
  destruct (fault around _) as [[[|] e]|]; [by destruct (is_exception e)|..]; unfold zoom; simpl;
    destruct (create_workspace_checkpoint _ _ _ _ _ _ _ _ _) as [[cp|x] r'] eqn:Ec; simpl; try by destruct (is_exception _).
  destruct (create_shows _ _ _ _ _ _ _ _ _ _ Ec) as (Hid & Hc & rows' & Hs & Hp). split_and!; [done..|].
  exists rows'. split; [|done]. unfold stored. simpl. by rewrite Hid.
Qed.
End capture.
