(* ===== verification/PinSafety.v ===== *)
(** Checkpoints and pins: the theorems. *)
From S2P Require Import Prelude Core Hashing Registry RegistryFacts Service Checkpoints ManifestFacts.
From S2P Require Import Substrate ObjectStore Workspace WorkspaceFacts RestoreFacts PinFacts RestoreProgress RestoreSafety.

Open Scope Z_scope.
Open Scope string_scope.
Open Scope list_scope.

Import Workspace_demo.

(** ** Checkpoints *)
Definition captured_result : WorkspaceCheckpoint :=
  match captured.1 with
  | Ok result => result
  | Raise _ => mkWorkspaceCheckpoint header1 []
  end.

Lemma triple_assoc {S A B C} P (m : proc exn S A) (f : A → proc exn S B) (k : B → proc exn S C) Q X :
  triple P (y ← (x ← m; f x); k y) Q X → triple P (x ← m; y ← f x; k y) Q X.
Proof. intros H s Hs. specialize (H s Hs). revert H. unfold mbind, proc_bind. by destruct (m s) as [[]]. Qed.

Lemma triple_of_yields {S A} Q X (m : proc exn S A) : yields Q X m → triple (λ _, True) m (λ a _, Q a) (λ e _, X e).
Proof. intros H s _. specialize (H s). by destruct (m s) as [[]]. Qed.

Lemma fair_not_held rows : Forall fair_row rows → held_count rows = 0.
Proof.
  intros Hf. unfold held_count. replace (List.filter is_held rows) with (@nil CheckpointMember); [done|].
  induction Hf as [|row rows Hrow _ IH]; [done|]. simpl. unfold is_held at 1. rewrite (fr_unpinned _ Hrow).
  by rewrite bool_decide_eq_false_2.
Qed.

(** A fair row that claims to be restorable is eligible, so its leg settled it. *)
Lemma pinned_backed v l row row' : fair_row row → pinned v l row row' → cm_restore_tier row' = "restorable" →
  cm_pin_state row' = "held" ∧ backed v l row'.
Proof.
  intros Hf Hp Ht. unfold pinned in Hp. destruct (pin_eligible v row) eqn:He.
  - destruct Hp as [Hb|]; [by split|]. unfold downgraded in Ht. simpl in Ht. by destruct (is_native_cas row).
  - subst row'. destruct (fr_restorable _ Hf Ht) as (Hn & Ha & [t Htok]). unfold pin_eligible in He.
    rewrite Ha, Htok, (fr_unpinned _ Hf), Hn, Ht in He. by vm_compute in He.
Qed.

(** What a checkpoint with pins leaves: the fair rows of the capture, each pinned by its leg. *)
Definition pinned_manifest {E} (v : Versioner) (res : WorkspaceCheckpoint) (s : Site E) : Prop :=
  ∃ cp' rows rows', Forall fair_row rows ∧ map cm_member_path rows ≡ₚ map member_path (v_members v) ∧
    Forall2 (pinned v (log s)) rows rows' ∧ stored (cp_checkpoint_id (wc_record res)) cp' rows' s ∧
    cp_pin_refcount cp' = held_count rows' ∧ wc_members res = rows'.

Lemma checkpoint_run {E} `{!Env E} around v name : (∀ id, peers_keep around id) → v_pin_store v = true →
  triple (λ _ : Site E, True) (checkpoint around v name true) (pinned_manifest v) (λ _ _, True).
Proof.
  intros Hkeep Hst. unfold checkpoint. destruct (is_blank name); [by apply triple_raise|].
  destruct (bool_decide _); [by apply triple_raise|]. unfold require_pin_store_for_checkpoint. rewrite Hst.
  eapply triple_of_outcome; [done|]. apply triple_assoc.
  apply (triple_bind _ _ _ (λ rows _, Forall fair_row rows ∧ map cm_member_path rows = map member_path (v_members v))).
  { eapply triple_conseq; [apply triple_of_yields, captured_rows|done|intros rows s H; exact H|done]. }
  intros rows. eapply (triple_conseq (λ s, (Forall fair_row rows ∧ map cm_member_path rows = map member_path (v_members v)) ∧ True) _ _ _ _ (λ _ _, True));
    [|by intros s [? ?]|intros a s' H; exact H|done].
  apply triple_pure. intros [Hfair Hpaths]. eapply triple_bind; [apply persist_run|]. intros res. simpl.
  apply triple_pure. intros _. apply triple_pure. intros Hc0. apply triple_exists. intros rows0.
  eapply (triple_conseq (λ s, rows0 ≡ₚ rows ∧ stored (cp_checkpoint_id (wc_record res)) (wc_record res) rows0 s) _ _ _ _ (λ _ _, True));
    [|by intros s [? ?]|intros a s' H; exact H|done].
  apply triple_pure. intros Hperm. eapply triple_bind.
  { eapply triple_conseq; [apply (pin_members_run around v _ (Hkeep _) (wc_record res) rows0); lia|done|intros u s H; exact H|done]. }
  intros u. apply triple_exists. intros rows'. set (id := cp_checkpoint_id (wc_record res)).
  apply (triple_bind _ _ _ (λ x s, x = rows' ∧ Forall2 (pinned v (log s)) rows0 rows' ∧
    stored id (counted (wc_record res) (held_count rows' - held_count rows0)) rows' s)).
  { eapply triple_conseq; [eapply (triple_log _ _ _ _ (λ l, Forall2 (pinned v l) rows0 rows')); [apply grown_store| |
      apply (triple_members around id (Hkeep id))]|by intros s [Hf Hs]|by intros x s [[-> Hs] Hf]|intros e s _; exact I].
    intros l l' Hl Hf. eapply Forall2_impl; [exact Hf|]. intros row row' H. unfold pinned in *.
    destruct (pin_eligible v row); [by eapply pin_step_mono|done]. }
  intros members. apply triple_ret. intros s (-> & Hf & Hs).
  assert (Forall fair_row rows0) as Hfair0 by by rewrite Hperm.
  eexists _, rows0, rows'. split_and!; [done| |exact Hf|exact Hs| |done].
  - rewrite <-Hpaths. by rewrite Hperm.
  - simpl. rewrite (fair_not_held _ Hfair0), Hc0. lia.
Qed.

(** C12 (restorable means restorable): a checkpoint taken with pins returns the rows the
    coordinator stores, one per declared member; each row whose tier is [restorable] is
    [held], and the legal hold on the version it names was set; the pin count of the
    checkpoint is the number of its held rows.  What other processes do to the
    coordinator while it runs leaves the manifests alone. *)
Theorem checkpoint_backs_claims {E} `{!Env E} around v name (s : Site E) result s' :
  (∀ id, peers_keep around id) → v_pin_store v = true → checkpoint around v name true s = (Ok result, s') →
  let id := cp_checkpoint_id (wc_record result) in
  wc_members result = get_checkpoint_members (site_registry s') id ∧
  map cm_member_path (wc_members result) ≡ₚ map member_path (v_members v) ∧
  option_map cp_pin_refcount (get_checkpoint (site_registry s') id) = Some (held_count (wc_members result)) ∧
  Forall (λ row, cm_restore_tier row = "restorable" → cm_pin_state row = "held" ∧ backed v (log s') row) (wc_members result).
Proof.
  intros Hkeep Hst Hrun id. pose proof (checkpoint_run around v name Hkeep Hst s I) as H. rewrite Hrun in H.
  destruct H as (cp' & rows & rows' & Hfair & Hpaths & Hf & [Hcp Hrows _] & Hcount & ->). fold id in Hcp, Hrows.
  split_and!; [done| |by rewrite Hcp; simpl; rewrite Hcount|].
  - rewrite <-Hpaths. clear -Hf. induction Hf as [|row row' rows rows' Hp _ IH]; simpl; [done|].
    assert (cm_member_path row' = cm_member_path row) as ->; [|by rewrite IH].
    unfold pinned in Hp. destruct (pin_eligible v row); [by eapply pin_step_path|by subst].
  - clear -Hf Hfair. induction Hf as [|row row' rows rows' Hp _ IH]; [done|]. apply Forall_cons in Hfair as [Hrow Hfair].
    constructor; [by apply (pinned_backed v _ row)|by apply IH].
Qed.

Lemma checkpoint_backs_claims_witness : ∃ result s', captured = (Ok result, s') ∧
  map (λ row, (cm_member_path row, cm_restore_tier row, cm_pin_state row)) (wc_members result) =
    [("deploy", "forward_only", "unpinned"); ("plan.md", "restorable-unpinned", "held"); ("s3://data", "restorable", "held")] ∧
  option_map cp_pin_refcount (get_checkpoint (site_registry s') (cp_checkpoint_id (wc_record result))) = Some 2 ∧
  Forall (λ row, cm_restore_tier row = "restorable" → cm_pin_state row = "held" ∧ backed versioner (log s') row) (wc_members result).
Proof.
  exists captured_result, captured.2. assert (captured = (Ok captured_result, captured.2)) as Heq by by vm_compute.
  split; [exact Heq|]. split; [by vm_compute|]. split; [by vm_compute|].
  pose proof (checkpoint_backs_claims quiet versioner "nightly" (site registry0 shop0) captured_result captured.2
    (λ id n r, conj eq_refl eq_refl) eq_refl Heq) as H. cbv zeta in H. destruct H as (_ & _ & _ & H). exact H.
Defined.

(** ** Release *)
(** A row holds the version that [row] names. *)
Definition shared_with (row other : CheckpointMember) : Prop :=
  cm_pin_state other = "held" ∧ cm_member_path other = cm_member_path row ∧ cm_native_token other = cm_native_token row.
(** Checkpoint [id] holds it. *)
Definition held_by (id : string) (row : CheckpointMember) (r : Registry) : Prop :=
  ∃ cp other, get_checkpoint r id = Some cp ∧ cp_checkpoint_id cp = id ∧ other ∈ get_checkpoint_members r id ∧ shared_with row other.
(** The others may pin at any moment, but they release no pin of another checkpoint than [id]. *)
Definition pins_stay (around : Surroundings) (id : string) : Prop :=
  ∀ n r id' row, id' ≠ id → held_by id' row r → held_by id' row (peers around n r).

(** A hold is dropped for a row of this checkpoint, and only when no other held it in [r0]. *)
Definition drop_ok (v : Versioner) (id : string) (r0 : Registry) (rows : list CheckpointMember) (ev : event) : Prop :=
  match ev with
  | EHold b k t status _ => status = "OFF" ∧ ∃ row p, row ∈ rows ∧ cm_pin_state row = "held" ∧ cm_native_token row = Some t ∧
      dget (declared v) (cm_member_path row) = Some (ObjectMember p b k) ∧ ∀ id', id' ≠ id → ¬ held_by id' row r0
  | EPut _ _ _ _ _ | EDelete _ _ _ | EFileWrite _ _ _ _ => False
  | _ => True
  end.

Section release.
Context {E : Type} `{!Env E} (around : Surroundings) (v : Versioner) (id : string).
Hypothesis Hstay : pins_stay around id.
Local Abbreviation M := (@M E).

(** *** One sibling that holds the version *)
Section sibling.
Context (id' : string) (row : CheckpointMember) (l : list event).
Hypothesis Hid : id' ≠ id.
Definition guarded (s : Site E) : Prop := held_by id' row (site_registry s) ∧ log s = l.
(** It will hold it when the next call is made. *)
Definition awaited (s : Site E) : Prop := held_by id' row (peers around (site_calls s) (site_registry s)) ∧ log s = l.
Lemma guarded_awaited s : guarded s → awaited s.
Proof using Hstay Hid. intros [Hh Hl]. split; [by apply Hstay|done]. Qed.

Lemma guarded_store {A} (m : nat → RM A) (Q : A → Prop) :
  (∀ n r, held_by id' row r → held_by id' row (m n r).2 ∧ ∀ a, (m n r).1 = Ok a → Q a) →
  triple awaited (on_store around m : M A) (λ a s, Q a ∧ guarded s) (λ _, guarded).
Proof.
  intros Hm s [Hp Hl]. unfold on_store, calling.
  destruct (Hm (site_calls s) _ Hp) as [H1 H2].
  destruct (fault around (site_calls s)) as [[[|] x]|]; unfold zoom; simpl; [by split|..];
    destruct (m (site_calls s) (peers around (site_calls s) (site_registry s))) as [[a|e] r']; simpl in *;
    by repeat (split; auto).
Qed.

Lemma guarded_scan records : (∃ cp, cp ∈ records ∧ cp_checkpoint_id cp = id') →
  triple guarded (shared_in around records id row : M bool) (λ b s, b = true ∧ guarded s) (λ _, guarded).
Proof using Hstay Hid.
  induction records as [|record records IH]; [by intros (cp & []%elem_of_nil & _)|]. intros (cp & Hin & Hcp). cbn [shared_in].
  case_bool_decide as Hown.
  { apply IH. exists cp. split; [|done]. apply elem_of_cons in Hin as [->|]; [congruence|done]. }
  eapply triple_bind; [eapply triple_conseq; [apply (guarded_store _ (λ others, cp_checkpoint_id record = id' → ∃ other, other ∈ others ∧ shared_with row other))|
    apply guarded_awaited|intros x s H; exact H|done]|].
  { intros n r Hh. split; [done|]. intros a [= <-] ->. destruct Hh as (? & other & _ & _ & ? & ?). by exists other. }
  intros others. apply triple_pure. intros Ho. destruct (existsb _ others) eqn:Ex; [by apply triple_ret|].
  apply elem_of_cons in Hin as [->|Hin]; [|apply IH; by exists cp].
  exfalso. destruct (Ho Hcp) as (other & Hoin & Hsh). apply not_true_iff_false in Ex. apply Ex, existsb_exists.
  exists other. split; [by apply list_elem_of_In|]. by apply bool_decide_eq_true_2.
Qed.

Lemma guarded_check : triple awaited (pin_shared_elsewhere around id row : M bool) (λ b s, b = true ∧ guarded s) (λ _, guarded).
Proof using Hstay Hid.
  eapply triple_bind; [apply (guarded_store _ (λ records, ∃ cp, cp ∈ records ∧ cp_checkpoint_id cp = id'))|].
  { intros n r Hh. split; [done|]. intros a [= <-]. destruct Hh as (cp & other & Hcp & He & _). exists cp. split; [|done].
    unfold list_checkpoints. rewrite (sorting.merge_sort_Permutation checkpoint_le). apply list_elem_of_fmap. exists (id', cp).
    split; [done|]. by apply dget_Some_elem. }
  intros records. apply triple_pure. apply guarded_scan.
Qed.

Lemma guarded_drop b k t : triple awaited (drop_hold around id row b k t : M unit) (λ _, guarded) (λ _, guarded).
Proof using Hstay Hid. eapply triple_bind; [apply guarded_check|]. intros x. apply triple_pure. intros ->. by apply triple_ret. Qed.
End sibling.

(** The writes of a release go to its own manifest. *)
Lemma held_other id' row r r' : checkpoints r' = checkpoints r ∨ get_checkpoint r' id' = get_checkpoint r id' →
  dget (checkpoint_members r') id' = dget (checkpoint_members r) id' → held_by id' row r → held_by id' row r'.
Proof.
  intros Hc Hm (cp & other & Hcp & He & Hin & Hsh). exists cp, other. split_and!; [|done| |done].
  - destruct Hc as [Hc| ->]; [|done]. unfold get_checkpoint in *. by rewrite Hc.
  - unfold get_checkpoint_members in *. by rewrite Hm.
Qed.
Lemma held_pin id' row path st t n r : id' ≠ id → held_by id' row r →
  held_by id' row ((λ _ : nat, set_workspace_checkpoint_member_pin id path st t false) n r).2.
Proof.
  intros Hid Hh. unfold set_workspace_checkpoint_member_pin, abort_guard, set_checkpoint_member_pin, update_member.
  destruct (negb _); [done|]. destruct (match t with Some _ => _ | None => false end); [done|].
  destruct (dget (default [] _) path); [|done]. simpl. apply (held_other id' row r); [by left| |exact Hh]. simpl. by rewrite dget_dset_ne.
Qed.
Lemma held_refcount id' row d n r : id' ≠ id → held_by id' row r →
  held_by id' row ((λ _ : nat, adjust_workspace_checkpoint_pin_refcount id d false) n r).2.
Proof.
  intros Hid Hh. unfold adjust_workspace_checkpoint_pin_refcount, abort_guard, adjust_checkpoint_pin_refcount, mbind, proc_bind, require_checkpoint.
  destruct (dget (checkpoints r) id); [|done]. destruct (decide _); [done|]. simpl. apply (held_other id' row r); [|done|exact Hh].
  right. unfold get_checkpoint. simpl. by rewrite dget_dset_ne.
Qed.

(** *** All siblings of the registry the release began with *)
Context (r0 : Registry) (rows : list CheckpointMember).
Definition still_held (r : Registry) : Prop := ∀ id' row, id' ≠ id → held_by id' row r0 → held_by id' row r.
Definition releasing (s : Site E) : Prop := still_held (site_registry s) ∧ Forall (drop_ok v id r0 rows) (log s).

Lemma releasing_store {A} (m : nat → RM A) : (∀ n r id' row, id' ≠ id → held_by id' row r → held_by id' row (m n r).2) →
  triple releasing (on_store around m : M A) (λ _, releasing) (λ _, releasing).
Proof using Hstay.
  intros Hm s [Ho Hl]. unfold on_store, calling.
  assert (still_held (peers around (site_calls s) (site_registry s))) as Hp by (intros id' row Hid Hh; by apply Hstay, Ho).
  assert (still_held (m (site_calls s) (peers around (site_calls s) (site_registry s))).2) as Hp' by (intros id' row Hid Hh; by apply Hm, Hp).
  destruct (fault around (site_calls s)) as [[[|] x]|]; unfold zoom; simpl; [by split|..]; destruct (m _ _) as [[a|e] r']; by split.
Qed.

Lemma releasing_scan row records : triple releasing (shared_in around records id row : M bool) (λ _, releasing) (λ _, releasing).
Proof using Hstay.
  induction records as [|record records IH]; cbn [shared_in]; [by apply triple_ret|]. destruct (bool_decide _); [done|].
  eapply triple_bind; [by apply releasing_store|]. intros others. destruct (existsb _ _); [by apply triple_ret|done].
Qed.
(** The check answers [false] only when no sibling held the version. *)
Lemma releasing_check row :
  triple releasing (pin_shared_elsewhere around id row : M bool)
    (λ b s, (b = false → ∀ id', id' ≠ id → ¬ held_by id' row r0) ∧ releasing s) (λ _, releasing).
Proof using Hstay.
  intros s Hs. assert (triple releasing (pin_shared_elsewhere around id row : M bool) (λ _, releasing) (λ _, releasing)) as Hr.
  { eapply triple_bind; [by apply releasing_store|]. intros records. apply releasing_scan. }
  specialize (Hr s Hs). pose proof (λ id' Hid Hh, guarded_check id' row (log s) Hid s (guarded_awaited id' row _ Hid s (conj (proj1 Hs id' row Hid Hh) eq_refl))) as Hg.
  destruct (pin_shared_elsewhere around id row s) as [[b|e] s']; [|done]. split; [|done].
  intros -> id' Hid Hh. destruct (Hg id' Hid Hh) as [[=] _].
Qed.

Lemma releasing_drop row p b k t : row ∈ rows → cm_pin_state row = "held" → cm_native_token row = Some t →
  dget (declared v) (cm_member_path row) = Some (ObjectMember p b k) → (∀ id', id' ≠ id → ¬ held_by id' row r0) →
  triple releasing (on_world around (release_legal_hold b k t) : M unit) (λ _, releasing) (λ _, releasing).
Proof using Hstay.
  intros Hin Hh Ht Hd Hn s [Ho Hl]. unfold on_world, calling.
  assert (still_held (peers around (site_calls s) (site_registry s))) as Hp by (intros id' row' Hid Hh'; by apply Hstay, Ho).
  assert (∀ w o, release_legal_hold b k t (site_world s) = (o, w) → Forall (drop_ok v id r0 rows) (w_events w)) as Hw.
  { unfold release_legal_hold, put_legal_hold, require_usable_version_pointer. intros w o. destruct (_ || _); [by intros [= <- <-]|].
    unfold mbind, proc_bind, of_outcome, catch, put_object_legal_hold, call.
    destruct (srv_put_legal_hold b k t "OFF" (w_env (site_world s))) as [o' e].
    assert (Forall (drop_ok v id r0 rows) (log s ++ [EHold b k t "OFF" o'])) as Hl'.
    { apply Forall_app. split; [done|]. constructor; [|done]. split; [done|]. by exists row, p. }
    destruct o'; by intros [= <- <-]. }
  destruct (fault around (site_calls s)) as [[[|] x]|]; unfold zoom; simpl; [by split|..];
    destruct (release_legal_hold b k t (site_world s)) as [[u|e] w] eqn:Er; (split; [done|]); by eapply Hw.
Qed.

Lemma release_row_run row : row ∈ rows → cm_pin_state row = "held" →
  triple releasing (release_row around v id row : M unit) (λ _, releasing) (λ _, releasing).
Proof using Hstay.
  intros Hin Hh. apply (triple_bind _ _ _ (λ _, releasing)).
  { eapply triple_bind; [apply releasing_store; intros; by apply held_pin|]. intros u.
    eapply triple_bind; [apply releasing_store; intros; by apply held_refcount|]. intros n.
    destruct (_ || _); [by apply triple_ret|]. eapply triple_bind; [apply releasing_check|]. intros b.
    apply triple_ret. by intros s [_ Hs]. }
  intros due. destruct (negb due); [by apply triple_ret|].
  destruct (dget (declared v) (cm_member_path row)) as [[| p b k|]|] eqn:Ed; try by apply triple_raise.
  destruct (cm_native_token row) as [t|] eqn:Et; [|by apply triple_raise].
  eapply triple_bind; [apply releasing_check|]. intros [|]; [apply triple_ret; by intros s [_ Hs]|]. apply triple_pure. intros Hn.
  apply (triple_bind _ _ _ (λ _, releasing)); [|intros x; by apply triple_ret].
  eapply triple_catch; [eapply triple_bind; [eapply releasing_drop; [done..|by apply Hn]|intros x; by apply triple_ret]|].
  intros e. destruct e; first [by apply triple_ret | by apply triple_raise].
Qed.
End release.

(** C19 (shared holds survive): while a checkpoint's pins are released the other parties may
    do anything to the coordinator, pin this very version included, as long as they leave
    this checkpoint's own manifest alone and release no pin of theirs.  Then the release
    drops a legal hold only for a row it held itself, and never one that a row of another
    checkpoint held when the release began; it writes nothing to the members.  Calls may
    fail before or after they take effect. *)
Theorem release_keeps_shared_holds {E} `{!Env E} around v id (s : Site E) cp :
  peers_keep around id → pins_stay around id → manifests_ok (site_registry s) → get_checkpoint (site_registry s) id = Some cp →
  w_events (site_world s) = [] →
  Forall (drop_ok v id (site_registry s) (get_checkpoint_members (site_registry s) id))
    (log (release_checkpoint_pins around v id s).2).
Proof.
  intros Hkeep Hstay Hok Hcp Hev. set (rows := get_checkpoint_members (site_registry s) id). set (r0 := site_registry s).
  assert (triple (λ s, stored id cp rows s ∧ releasing v id r0 rows s) (release_checkpoint_pins around v id)
    (λ _, releasing v id r0 rows) (λ _, releasing v id r0 rows)) as Hrun.
  { unfold release_checkpoint_pins, require_pin_store. destruct (v_pin_store v); [|by intros s' [_ Hs]].
    eapply triple_of_outcome; [done|].
    apply (triple_bind _ _ _ (λ x s, x = Some cp ∧ stored id cp rows s ∧ releasing v id r0 rows s)).
    { eapply triple_conseq; [apply triple_and; [by apply triple_get|by apply releasing_store]|intros s' H; exact H|by intros x s' [[-> H1] H2]|by intros e s' [_ H]]. }
    intros x. apply triple_pure. intros ->. apply (triple_bind _ _ _ (λ x s, x = rows ∧ releasing v id r0 rows s)).
    { eapply triple_conseq; [apply triple_and; [by apply triple_members|by apply releasing_store]|intros s' H; exact H|by intros x s' [[-> H1] H2]|by intros e s' [_ H]]. }
    intros x. apply triple_pure. intros ->. destruct (existsb _ _); [by apply triple_raise|].
    apply (triple_bind _ _ _ (λ _, releasing v id r0 rows)); [|intros u; by apply releasing_store].
    assert (∀ row, row ∈ List.filter (λ row, bool_decide (cm_pin_state row = "held")) rows → row ∈ rows ∧ cm_pin_state row = "held") as Hheld.
    { intros row [? ?%bool_decide_eq_true]%list_elem_of_In%filter_In. by rewrite list_elem_of_In. }
    induction (List.filter _ rows) as [|row l IH]; [by apply triple_ret|]. cbn [for_each].
    destruct (Hheld row) as [Hin Hh]; [by left|].
    eapply triple_bind; [by apply release_row_run|]. intros u. apply IH. intros row' Hr. apply Hheld. by right. }
  specialize (Hrun s). destruct (release_checkpoint_pins around v id s) as [[x|e] s']; apply Hrun.
  all: split; [by apply shows_of_manifest|]; split; [by intros id' row|]; unfold log; by rewrite Hev.
Qed.

(** The durable half makes no call to the store. *)
Lemma claim_quiet {E} `{!Env E} around id row : respects (λ s s' : Site E, log s' = log s) (release_claim around id row : @M E bool).
Proof.
  assert (∀ A (m : nat → RM A), respects (λ s s' : Site E, log s' = log s) (on_store around m : @M E A)) as Hst.
  { intros A m s. unfold on_store, calling.
    destruct (fault around (site_calls s)) as [[[|] x]|]; [done|..]; unfold zoom; simpl; by destruct (m _ _) as [[] r]. }
  assert (PreOrder (λ s s' : Site E, log s' = log s)) by (split; [done|]; intros s1 s2 s3; congruence).
  assert (∀ records, respects (λ s s' : Site E, log s' = log s) (shared_in around records id row : @M E bool)) as Hscan.
  { induction records as [|record records IH]; cbn [shared_in]; respects_tac ltac:(first [apply Hst|apply IH]). }
  unfold release_claim, pin_shared_elsewhere. respects_tac ltac:(first [apply Hst|apply Hscan]).
Qed.

(** C29 (the last-instant re-check): a sibling that pins the same version while it is being
    released keeps its hold.  If the sibling's row is [held] when the last-instant re-check
    of the row lists the checkpoints, the release of the row makes no call to the store at
    all, whenever the pin was recorded (before the release, before the first scan, or
    after it) and whatever fails, provided that the others release no pin meanwhile.  The
    window between the re-check and the drop stays open. *)
Theorem pin_before_recheck_survives {E} `{!Env E} around v id (s : Site E) row o s1 id' :
  pins_stay around id → id' ≠ id → release_claim around id row s = (o, s1) →
  held_by id' row (peers around (site_calls s1) (site_registry s1)) →
  log (release_row around v id row s).2 = log s.
Proof.
  intros Hstay Hid Hc Hh. assert (log s1 = log s) as <- by (pose proof (claim_quiet around id row s) as Hq; by rewrite Hc in Hq). unfold release_row, mbind, proc_bind. rewrite Hc. destruct o as [due|e]; [|done].
  destruct (negb due); [done|]. destruct (dget (declared v) (cm_member_path row)) as [[| p b k|]|]; try done.
  destruct (cm_native_token row) as [t|]; [|done].
  pose proof (guarded_drop around id Hstay id' row (log s1) Hid b k t s1 (conj Hh eq_refl)) as Hg.
  destruct (drop_hold around id row b k t s1) as [[u|e] s2]; apply Hg.
Qed.

(** A second checkpoint over the same workspace: both hold the object's version. *)
Definition quiet2 : Surroundings := mkSurroundings (fault quiet) (peers quiet) (clock quiet) (λ _, "cp2") (mints quiet).
Definition twice : Site Shop.t := site (site_registry (checkpoint quiet2 versioner "again" true captured.2).2) shop0.
Definition first_released : Site Shop.t := (release_checkpoint_pins quiet versioner "cp" twice).2.

Lemma stay_quiet around id : peers around = (λ _ r, r) → pins_stay around id.
Proof. intros Hp n r id' row _ Hh. by rewrite Hp. Qed.

Lemma release_keeps_shared_holds_witness :
  map cm_pin_state (get_checkpoint_members (site_registry first_released) "cp") = ["unpinned"; "released"; "released"] ∧
  log first_released = [] ∧
  log (release_checkpoint_pins quiet versioner "cp2" first_released).2 = [EHold "bucket" "data" "v0" "OFF" (Ok tt)] ∧
  Forall (drop_ok versioner "cp" (site_registry twice) (get_checkpoint_members (site_registry twice) "cp")) (log first_released).
Proof.
  split; [by vm_compute|]. split; [by vm_compute|]. split; [by vm_compute|].
  assert (get_checkpoint (site_registry twice) "cp" = Some (default header1 (get_checkpoint (site_registry twice) "cp"))) as Hcp by by vm_compute.
  assert (forallb (manifest_checked (site_registry twice)) (checkpoints (site_registry twice)) = true) as Hok by by vm_compute.
  assert (w_events (site_world twice) = []) as Hev by by vm_compute.
  unfold first_released.
  exact (release_keeps_shared_holds quiet versioner "cp" twice _ (keep_quiet quiet eq_refl) (stay_quiet quiet "cp" eq_refl) (manifests_checked _ Hok) Hcp Hev).
Defined.

(** The second checkpoint is recorded by another party just before call 3, the re-check. *)
Definition second_lands (r : Registry) : Registry :=
  if dmem (checkpoints r) "cp2" then r
  else r <| checkpoints ::= λ d, dset d "cp2" (default header1 (get_checkpoint (site_registry twice) "cp2")) |>
         <| checkpoint_members ::= λ d, dset d "cp2" (default [] (dget (checkpoint_members (site_registry twice)) "cp2")) |>.
Definition pinned_meanwhile : Surroundings :=
  mkSurroundings (fault quiet) (λ n r, if (n =? 3)%nat then second_lands r else r) (clock quiet) (checkpoint_ids quiet) (mints quiet).
Definition once : Site Shop.t := site (site_registry captured.2) shop0.
Definition data_row : CheckpointMember :=
  nth 2 (get_checkpoint_members (site_registry once) "cp") (mkMember "" None None None 0 false false "" "" "" None None).

Lemma meanwhile_stay : pins_stay pinned_meanwhile "cp".
Proof.
  intros n r id' row _ Hh. cbn [peers pinned_meanwhile]. destruct (n =? 3)%nat; [|exact Hh]. unfold second_lands.
  generalize (default header1 (get_checkpoint (site_registry twice) "cp2")), (default [] (dget (checkpoint_members (site_registry twice)) "cp2")).
  intros h ms. destruct (dmem (checkpoints r) "cp2") eqn:Em; [done|].
  assert (id' ≠ "cp2").
  { intros ->. destruct Hh as (cp & _ & Hcp & _). unfold get_checkpoint in Hcp. unfold dmem in Em. by rewrite Hcp in Em. }
  apply (held_other id' row r); [right; unfold get_checkpoint; simpl; by rewrite dget_dset_ne|simpl; by rewrite dget_dset_ne|done].
Qed.

Lemma pin_before_recheck_survives_witness :
  log (release_row quiet versioner "cp" data_row once).2 = [EHold "bucket" "data" "v0" "OFF" (Ok tt)] ∧
  log (release_row pinned_meanwhile versioner "cp" data_row once).2 = [].
Proof.
  split; [by vm_compute|].
  refine (pin_before_recheck_survives pinned_meanwhile versioner "cp" once data_row _ _ "cp2" meanwhile_stay _ (surjective_pairing _) _); [done|].
  set (s1 := (release_claim pinned_meanwhile "cp" data_row once).2).
  exists (default header1 (get_checkpoint (site_registry twice) "cp2")), (nth 2 (get_checkpoint_members (site_registry twice) "cp2") data_row).
  split; [by vm_compute|]. split; [by vm_compute|]. split; [|by vm_compute].
  replace (get_checkpoint_members (peers pinned_meanwhile (site_calls s1) (site_registry s1)) "cp2") with
    (get_checkpoint_members (site_registry twice) "cp2") by by vm_compute.
  apply list_elem_of_In, nth_In, Nat.ltb_lt. by vm_compute.
Defined.
