(* ===== verification/DurableService.v ===== *)
(** The coordinator service over the durable registry: the methods of
    [src/ccs/coordinator/service.py] that the HTTP coordinator calls, on the store of
    [SqliteRegistry].

    The service is the same code as in [Service]; what differs is the registry under
    it.  Each registry call is a transaction of its own, so an operation that raises
    keeps the calls that committed before. *)
From S2P Require Import Prelude Core Hashing Registry Service SqliteRegistry.

Open Scope Z_scope.
Open Scope string_scope.

Section service.
Context (scan : ∀ A, list A → list A).

(** [abort_guard]: the registry lock is won, then the abort event is tested. *)
Definition sql_abort_guard {A} (abort : bool) (m : HM A) : HM A :=
  if abort then raise WatchdogAbandoned else m.

Definition sql_require_artifact (a : UUID) : HM Artifact :=
  artifact ← select (λ d, sql_get_artifact d a);
  match artifact with
  | Some artifact => mret artifact
  | None => raise (CoherenceError "artifact_not_found")
  end.

Definition sql_validate_single_writer (a : UUID) : HM unit :=
  state_map ← select (λ d, sql_get_state_map scan d a);
  of_outcome (check_single_writer state_map).

Definition sql_revoke_peer (a ag : UUID) (trigger : string) (tick new_version : Z)
    (signals : list InvalidationSignal) (peer : UUID * MESIState) : HM (list InvalidationSignal) :=
  match invalidation_transient_for_state peer.2 with
  | Some t => sql_set_agent_transient a peer.1 t tick
  | None => mret tt
  end ;;
  sql_set_agent_state a peer.1 INVALID trigger tick None ;;
  mret (signals ++ [mkSignal a new_version tick ag])%list.

Definition sql_revoke_peers (a ag : UUID) (trigger : string) (tick new_version : Z) : HM (list InvalidationSignal) :=
  state_map ← select (λ d, sql_get_state_map scan d a);
  foldm (sql_revoke_peer a ag trigger tick new_version) (other_holders state_map ag) [].

Definition sql_write_impl (ag a : UUID) (tick : Z) : HM (list InvalidationSignal) :=
  artifact ← sql_require_artifact a;
  sql_set_agent_transient a ag IED tick ;;
  signals ← sql_revoke_peers a ag "write" tick (art_version artifact);
  sql_set_agent_state a ag EXCLUSIVE "write" tick None ;;
  sql_clear_agent_transient a ag ;;
  sql_validate_single_writer a ;;
  mret signals.
Definition sql_write (ag a : UUID) (tick : Z) (abort : bool) : HM (list InvalidationSignal) :=
  sql_abort_guard abort (sql_write_impl ag a tick).

Definition sql_commit_impl (ag a : UUID) (c : string) (tick : Z) (content_hash : option string)
    (size_tokens : option Z) : HM (Artifact * list InvalidationSignal) :=
  artifact ← sql_require_artifact a;
  agent_state ← select (λ d, sql_get_agent_state d a ag);
  if negb (in_m_or_e agent_state) then
    reclamation ← select (λ d, sql_get_last_reclamation d ag a);
    match reclamation with
    | Some _ => raise (CoherenceError "commit_not_allowed reclaimed_by")
    | None => raise (CoherenceError "commit_not_allowed")
    end
  else
    sql_set_agent_transient a ag MWB tick ;;
    let next_version := art_version artifact + 1 in
    of_outcome (check_monotonic_version (art_version artifact) next_version) ;;
    let updated := mkArtifact (art_id artifact) (art_name artifact) next_version
      (match content_hash with Some h => Some h | None => art_content_hash artifact end)
      (match size_tokens with Some n => Some n | None => art_size_tokens artifact end)
      (art_depends_on artifact) in
    catch (sql_set_artifact_and_content scan a updated (BStr c) (Some ag) (Some ag))
      (λ e, match e with
            | StaleReadGeneration => sql_clear_agent_transient a ag ;; raise StaleReadGeneration
            | _ => raise e
            end) ;;
    signals ← sql_revoke_peers a ag "commit" tick next_version;
    commit_hash ← of_outcome (match content_hash with
                              | Some h => Ok h
                              | None => compute_content_hash (BStr c)
                              end);
    sql_set_agent_state a ag MODIFIED "commit" tick (Some commit_hash) ;;
    sql_clear_agent_transient a ag ;;
    sql_validate_single_writer a ;;
    mret (updated, signals).
Definition sql_commit (ag a : UUID) (c : string) (tick : Z) (content_hash : option string)
    (size_tokens : option Z) (abort : bool) : HM (Artifact * list InvalidationSignal) :=
  sql_abort_guard abort (sql_commit_impl ag a c tick content_hash size_tokens).

Definition sql_commit_cas_impl (ag a : UUID) (expected_version : Z) (content_hash : string) (tick : Z)
    (size_tokens : option Z) (c : option body) : HM (Artifact * list InvalidationSignal + ConflictDetail) :=
  artifact ← sql_require_artifact a;
  transient ← select (λ d, sql_get_agent_transient d a ag);
  match transient with
  | Some _ => raise OccCallerTransientError
  | None =>
    agent_state ← select (λ d, sql_get_agent_state d a ag);
    if in_m_or_e agent_state
    then raise (CoherenceError "commit_cas_not_allowed reason=occ_is_shared_or_invalid_only")
    else
      result ← sql_commit_cas scan a ag expected_version content_hash size_tokens c tick "commit_cas";
      match result with
      | CasCorruption _ => raise (CoherenceError "commit_cas_corruption")
      | CasConflict detail => mret (inr detail)
      | CasWin updated invalidated_ids =>
        of_outcome (check_monotonic_version (art_version artifact) (art_version updated)) ;;
        sql_validate_single_writer a ;;
        mret (inl (updated, map (λ _ : UUID, mkSignal a (art_version updated) tick ag) invalidated_ids))
      end
  end.
Definition sql_service_commit_cas (ag a : UUID) (expected_version : Z) (content_hash : string) (tick : Z)
    (size_tokens : option Z) (c : option body) (abort : bool)
    : HM (Artifact * list InvalidationSignal + ConflictDetail) :=
  sql_abort_guard abort (sql_commit_cas_impl ag a expected_version content_hash tick size_tokens c).

Definition sql_revoke_is_superseded (d : Db) (ag a : UUID) (new_version : Z) (issuer : UUID) : bool :=
  if decide (issuer = ag) then false
  else if decide (sql_get_agent_state d a ag = Some INVALID) then false
  else match sql_last_observed_version_for d a ag with
       | Some observed => bool_decide (new_version <= observed)
       | None => false
       end.
Definition sql_invalidate_impl (ag a : UUID) (new_version : Z) (issuer : UUID) (tick : Z)
    : HM (option InvalidationSignal) :=
  known ← select (λ d, sql_has_artifact d a);
  if negb known then mret None
  else
    superseded ← select (λ d, sql_revoke_is_superseded d ag a new_version issuer);
    if superseded : bool then mret None
    else
      sql_set_agent_state a ag INVALID "invalidate" tick None ;;
      sql_clear_agent_transient a ag ;;
      mret (Some (mkSignal a new_version tick issuer)).
Definition sql_invalidate (ag a : UUID) (new_version : Z) (issuer : UUID) (tick : Z) (abort : bool)
    : HM (option InvalidationSignal) :=
  sql_abort_guard abort (sql_invalidate_impl ag a new_version issuer tick).

Definition sql_service_record_heartbeat (ag : UUID) (now_tick : Z) : HM unit :=
  if decide (now_tick < 0) then raise (ValueError "now_tick must be >= 0")
  else sql_record_heartbeat ag now_tick.
End service.
