(* ===== verification/DurableFacts.v ===== *)
(** What the calls of the durable registry and service do to the tables, whatever the
    database, the log and the clock answer.

    A call that returns leaves the tables its rows say; a call that raises leaves them
    as they were.  From this: the grants stay single-writer and the versions only grow
    under every service operation, also when one of its calls fails half way. *)
From S2P Require Import Prelude Core Hashing Registry Service SqliteRegistry SqliteFacts SqliteParity SqliteSimulation DurableService.

Open Scope Z_scope.
Open Scope string_scope.

(** ** Calls as steps on the tables *)
Definition leads {A} (m : HM A) (d : Db) (R : A → Db → Prop) : Prop :=
  ∀ s x s', db s = d → m s = (Ok x, s') → R x (db s').
(** A call: it steps as [R] says, or it raises and changes nothing. *)
Definition calls {A} (m : HM A) (R : Db → A → Db → Prop) : Prop :=
  ∀ s, match m s with (Ok x, s') => R (db s) x (db s') | (Raise _, s') => db s' = db s end.

Section leads.
Lemma leads_bind {A B} (m : HM A) (k : A → HM B) d (M : A → Db → Prop) R :
  leads m d M → (∀ x d', M x d' → leads (k x) d' R) → leads (x ← m; k x) d R.
Proof.
  intros Hm Hk s y s' Hs E. apply bind_inv in E as [(x & s1 & E1 & E2)|(e & _ & [=])].
  exact (Hk x (db s1) (Hm s x s1 Hs E1) s1 y s' eq_refl E2).
Qed.
Lemma leads_ret {A} (x : A) d (R : A → Db → Prop) : R x d → leads (mret x) d R.
Proof. intros HR s y s' <- [= <- <-]. done. Qed.
Lemma leads_raise {A} e d (R : A → Db → Prop) : leads (raise e) d R.
Proof. by intros s y s' _ [=]. Qed.
Lemma leads_select {A B} (f : Db → A) (k : A → HM B) d R : leads (k (f d)) d R → leads (x ← select f; k x) d R.
Proof. intros Hk. apply (leads_bind _ _ _ (λ x d', x = f d ∧ d' = d)); [by intros s x s' <- [= <- <-]|]. by intros x d' [-> ->]. Qed.
Lemma leads_gets {A B} (f : Handle → A) (k : A → HM B) d R : (∀ x, leads (k x) d R) → leads (x ← gets f; k x) d R.
Proof. intros Hk. apply (leads_bind _ _ _ (λ _ d', d' = d)); [by intros s x s' <- [= _ <-]|]. by intros x d' ->. Qed.
Lemma leads_on_db f d (R : unit → Db → Prop) : R tt (f d) → leads (on_db f) d R.
Proof. by intros HR s x s' <- [= <- <-]. Qed.
Lemma leads_then_on_db {B} f (k : HM B) d R : leads k (f d) R → leads (on_db f ;; k) d R.
Proof. intros Hk. apply (leads_bind _ _ _ (λ _ d', d' = f d)); [by apply leads_on_db|]. by intros _ d' ->. Qed.
Lemma leads_time {B} (k : Z → HM B) d R : (∀ now, leads (k now) d R) → leads (x ← time_time; k x) d R.
Proof. intros Hk. apply (leads_bind _ _ _ (λ _ d', d' = d)); [by intros s x s' <- [= _ <-]|]. by intros x d' ->. Qed.
Lemma leads_select_artifact {B} a (k : ArtRow → HM B) d R :
  (∀ row, artifacts d !! a = Some row → leads (k row) d R) → leads (x ← select_artifact a; k x) d R.
Proof.
  intros Hk. apply (leads_bind _ _ _ (λ row d', d' = d ∧ artifacts d !! a = Some row)).
  - intros s row s' <-. unfold select_artifact. destruct (artifacts (db s) !! a) eqn:Ea; intros [= <- <-]. done.
  - intros row d' [-> Ha]. by apply Hk.
Qed.
Lemma leads_emit a ag from to tr tick v h d (R : unit → Db → Prop) : R tt d → leads (sql_emit_state_log a ag from to tr tick v h) d R.
Proof.
  intros HR s x s' <-. unfold sql_emit_state_log. destruct (h_state_log s) as [sink|]; [|by intros [= <- <-]].
  destruct (sink _ _); intros [= <- <-]. done.
Qed.
Lemma leads_references {B} a (k : HM B) d R : (is_Some (artifacts d !! a) → leads k d R) → leads (references a ;; k) d R.
Proof.
  intros Hk. apply (leads_bind _ _ _ (λ _ d', d' = d ∧ is_Some (artifacts d !! a))).
  - intros s x s' <-. unfold references. case_bool_decide; intros [= <- <-]. done.
  - intros _ d' [-> Ha]. by apply Hk.
Qed.
Lemma leads_insert_state k row d (R : unit → Db → Prop) : R tt (d <| agent_states ::= <[k := row]> |>) → leads (insert_state k row) d R.
Proof.
  intros HR. apply leads_references. intros _. apply leads_select. case_bool_decide; [apply leads_raise|by apply leads_on_db].
Qed.
Lemma leads_conseq {A} (m : HM A) d (R R' : A → Db → Prop) : leads m d R → (∀ x d', R x d' → R' x d') → leads m d R'.
Proof. intros Hm HR s x s' Hs E. by apply HR, (Hm s x s'). Qed.
Lemma leads_for_each {A} (f : A → HM unit) (g : Db → A → Db) l d (R : unit → Db → Prop) :
  (∀ x d, leads (f x) d (λ _ d', d' = g d x)) → R tt (foldl g d l) → leads (for_each l f) d R.
Proof.
  intros Hf. revert d. induction l as [|x l IH]; intros d HR; simpl; [by apply leads_ret|].
  eapply leads_bind; [apply Hf|]. intros _ d' ->. by apply IH.
Qed.

Lemma transaction_tables {A} (m : HM A) s : match transaction m s with
  | (Ok x, s') => ∃ s0 s1, db s0 = db s ∧ m s0 = (Ok x, s1) ∧ db s' = db s1
  | (Raise _, s') => db s' = db s
  end.
Proof.
  unfold transaction. destruct (acquire s) as [[[]|e] s0] eqn:E0; injection E0 as _ <-; [|done].
  destruct ((x ← m; acquire ;; mret x) _) as [[x|e] s1] eqn:E1; [|done].
  apply bind_inv in E1 as [(y & s2 & E2 & E3)|(? & _ & [=])]. apply bind_inv in E3 as [([] & s3 & E3 & [= -> <-])|(? & _ & [=])].
  injection E3 as _ <-. eexists _, s2. split; [|by split; [exact E2|]]. done.
Qed.
Lemma calls_transaction {A} (m : HM A) R : (∀ d, leads m d (R d)) → calls (transaction m) R.
Proof.
  intros Hm s. pose proof (transaction_tables m s) as Ht. destruct (transaction m s) as [[x|e] s']; [|done].
  destruct Ht as (s0 & s1 & Hd & E & ->). by apply (Hm (db s) s0 x s1).
Qed.
Lemma calls_logged {A} (m : HM A) R : (∀ d, leads m d (R d)) → calls (logged_transaction m) R.
Proof.
  intros Hm s. unfold logged_transaction. pose proof (calls_transaction m R Hm (s <| seq_incremented := 0 |>)) as Ht.
  by destruct (transaction m _) as [[x|e] s'].
Qed.
Lemma calls_guard {A} (m : HM A) R : calls m R → calls (guard_writable ;; m) R.
Proof. intros Hm s. rewrite guard_run. destruct (h_read_only s); [done|apply Hm]. Qed.
Lemma calls_conseq {A} (m : HM A) (R R' : Db → A → Db → Prop) : calls m R → (∀ d x d', R d x d' → R' d x d') → calls m R'.
Proof. intros Hm HR s. specialize (Hm s). destruct (m s) as [[x|e] s']; [by apply HR|done]. Qed.
Lemma calls_respects {A} (m : HM A) (R : Db → A → Db → Prop) (Q : relation Db) `{!Reflexive Q} :
  calls m R → (∀ d x d', R d x d' → Q d d') → respects (λ s s', Q (db s) (db s')) m.
Proof. intros Hm HR s. specialize (Hm s). destruct (m s) as [[x|e] s']; simpl; [by eapply HR|by rewrite Hm]. Qed.
End leads.

(** ** The calls *)
Section effects.
Context (scan : ∀ A, list A → list A).

Lemma set_state_effect a ag st tr tick h : calls (sql_set_agent_state a ag st tr tick h) (λ d _ d',
  ∃ art, artifacts d !! a = Some art ∧ d' = state_written st tr tick art (agent_states d !! (a, ag)) d a ag).
Proof.
  apply calls_guard, calls_logged. intros d. apply leads_select. cbv zeta. apply leads_select_artifact. intros art Ha.
  set (prior := agent_states d !! (a, ag)). set (art' := art_transition st tr art prior). set (row := row_stored st tick art prior).
  set (d1 := d <| artifacts ::= <[a := art']> |>).
  apply (leads_bind _ _ _ (λ _ d', d' = d1)).
  { unfold d1, art', art_transition. destruct (_ && _); simpl.
    - apply leads_on_db. unfold set_field. simpl. by rewrite (alter_known _ _ _ _ Ha).
    - apply leads_ret. destruct d. unfold set_field. simpl in *. by rewrite insert_id. }
  intros _ ? ->. set (d2 := d1 <| agent_states ::= <[(a, ag) := row]> |>).
  apply (leads_bind _ _ _ (λ _ d', d' = d2)).
  { unfold d2, row, row_stored. destruct prior as [prow|] eqn:Ep; [|by apply leads_insert_state].
    apply leads_on_db. unfold set_field. simpl. by rewrite (alter_known _ _ prow). }
  intros _ ? ->. apply (leads_bind _ _ _ (λ _ d', d' = state_written st tr tick art prior d a ag)).
  { unfold state_written, row_transition. fold art' row. destruct (_ || _); simpl; [|by apply leads_ret].
    apply leads_on_db. unfold d2, d1, set_field. simpl.
    rewrite (alter_known _ _ row) by (by rewrite lookup_insert_eq). by rewrite lookup_insert_eq, insert_insert_eq. }
  intros _ ? ->. apply leads_emit. by exists art.
Qed.

Definition transient_row (t : TransientState) (tick : Z) (row : option StateRow) : StateRow :=
  (default (blank_state INVALID) row) <| sr_transient_state := Some t |> <| sr_transient_tick := Some tick |>.
Lemma set_transient_effect a ag t tick : calls (sql_set_agent_transient a ag t tick) (λ d _ d',
  is_Some (artifacts d !! a) ∧ d' = d <| agent_states ::= <[(a, ag) := transient_row t tick (agent_states d !! (a, ag))]> |>).
Proof.
  apply calls_guard, calls_transaction. intros d. apply leads_references. intros Ha. by apply leads_on_db.
Qed.
Lemma clear_transient_effect a ag : calls (sql_clear_agent_transient a ag) (λ d _ d',
  d' = d <| agent_states ::= alter (λ row, row <| sr_transient_state := None |> <| sr_transient_tick := None |>) (a, ag) |>).
Proof. apply calls_guard, calls_transaction. intros d. by apply leads_on_db. Qed.

Lemma heartbeat_effect ag now : calls (sql_service_record_heartbeat ag now) (λ d _ d', ∃ m, d' = d <| heartbeats := m |>).
Proof.
  unfold sql_service_record_heartbeat. case_decide; [by intros s|]. apply calls_guard, calls_transaction.
  intros d. apply leads_on_db. by eexists.
Qed.

Lemma resolve_effect minted path h : calls (resolve_or_register scan minted path h) (λ d a d',
  (lookup_artifact_id_by_name scan d path = Some a ∧ d' = d) ∨
  (lookup_artifact_id_by_name scan d path = None ∧ a = minted ∧ artifacts d !! minted = None ∧
   name_taken d minted path = false ∧ ∃ now, d' = d <| artifacts ::= <[minted := mkArtRow path 1 0 h None None now]> |>)).
Proof.
  apply calls_guard. intros s. unfold catch.
  match goal with |- context [transaction ?m s] => pose proof (calls_transaction m (λ d a d',
    (lookup_artifact_id_by_name scan d path = Some a ∧ d' = d) ∨
    (lookup_artifact_id_by_name scan d path = None ∧ a = minted ∧ artifacts d !! minted = None ∧
     name_taken d minted path = false ∧ ∃ now, d' = d <| artifacts ::= <[minted := mkArtRow path 1 0 h None None now]> |>))) as Ht end.
  specialize (Ht ltac:(intros d; apply leads_select; destruct (lookup_artifact_id_by_name scan d path) as [a|];
    [apply leads_ret; by left|apply leads_time; intros now; apply (leads_bind _ _ _ (λ _ d', artifacts d !! minted = None ∧
       name_taken d minted path = false ∧ d' = d <| artifacts ::= <[minted := mkArtRow path 1 0 h None None now]> |>));
     [intros s0 [] s1 <-; unfold insert_artifact; simpl; case_bool_decide as Hd; simpl;
        [done|destruct (name_taken _ _ _); [done|]; intros [= <-]; split_and!; [by apply eq_None_not_Some|done..]]
     |intros _ d' (H1 & H2 & ->); apply leads_ret; right; split_and!; [done..|by exists now]]]) s).
  destruct (transaction _ s) as [[x|e] s']; [done|]. destruct e; try done. unfold mbind, proc_bind, select, gets. rewrite Ht.
  destruct (lookup_artifact_id_by_name scan (db s) path) as [a|] eqn:El; [|done]. left. by rewrite Ht.
Qed.

Definition notices_only (d d' : Db) : Prop := ∃ m, d' = d <| pending_notices := m |>.
Lemma record_notice_effect victim a p t : calls (record_preemption_notice victim a p t) (λ d _ d', notices_only d d').
Proof. apply calls_guard, calls_transaction. intros d. apply leads_references. intros _. apply leads_on_db. by eexists. Qed.
Lemma pop_notices_effect ag : calls (pop_pending_notices scan ag) (λ d _ d', notices_only d d').
Proof.
  apply calls_guard, calls_transaction. intros d. apply leads_select.
  apply (leads_bind _ _ _ (λ _ d', notices_only d d')); [apply leads_on_db; by eexists|]. intros _ d' Hd. by apply leads_ret.
Qed.
Lemma pop_notice_effect ag a : calls (pop_preemption_notice ag a) (λ d _ d', notices_only d d').
Proof.
  apply calls_guard, calls_transaction. intros d. apply leads_select.
  apply (leads_bind _ _ _ (λ _ d', notices_only d d')); [apply leads_on_db; by eexists|]. intros _ d' Hd. by apply leads_ret.
Qed.

(** The tables after an optimistic commit won. *)
Record cas_won (a ag : UUID) (h : string) (row : ArtRow) (d d' : Db) : Prop := {
  cw_frame : d' = d <| artifacts := artifacts d' |> <| agent_states := agent_states d' |>;
  cw_row : ∃ size now, artifacts d' = <[a := row <| ar_version := ar_version row + 1 |> <| ar_content_hash := h |>
    <| ar_size_tokens := size |> <| ar_last_writer_id := Some ag |> <| ar_updated_at := now |>]> (artifacts d);
  cw_writer : sql_get_agent_state d' a ag = Some SHARED;
  cw_transient : sql_get_agent_transient d' a ag = sql_get_agent_transient d a ag;
  cw_peers : ∀ q, q ≠ ag → sql_get_agent_state d' a q = (λ _, INVALID) <$> sql_get_agent_state d a q;
  cw_others : ∀ b q, b ≠ a → agent_states d' !! (b, q) = agent_states d !! (b, q);
}.

Hypothesis scan_perm : ∀ A (l : list A), scan A l ≡ₚ l.

Lemma cas_apply_effect a ag h size tick tr row d : artifacts d !! a = Some row →
  leads (sql_cas_apply scan a ag (ar_version row) h size None tick tr) d (λ _ d', cas_won a ag h row d d').
Proof using scan_perm.
  intros Ha. apply leads_time. intros now. set (E := mkEnv now false None "").
  set (art := won_art E ag row h size). set (d1 := d <| artifacts ::= <[a := art]> |>).
  apply (leads_bind _ _ _ (λ _ d', d' = d1)).
  { apply leads_on_db. unfold d1, set_field. simpl. by rewrite (alter_known _ _ _ _ Ha). }
  intros _ ? ->. apply leads_select. change (state_rows scan d1 a _) with (won_peers scan a ag d).
  apply (leads_bind _ _ _ (λ _ d', d' = foldl (inval a) d1 (won_peers scan a ag d))).
  { apply (leads_for_each _ (inval a)); [|done]. intros [p x] d'. eapply (leads_bind _ _ _ (λ _ d'', d'' = inval a d' (p, x))).
    - by apply leads_on_db.
    - intros _ ? ->. by apply leads_emit. }
  intros _ ? ->. destruct (won_tables E scan scan_perm a ag row h size d) as (m & Hw & Hag & Hq & Ho).
  assert (agent_states (foldl (inval a) d1 (won_peers scan a ag d)) !! (a, ag) = agent_states d !! (a, ag)) as Hcom.
  { destruct (inval_tables a (won_peers scan a ag d) d1) as (m' & Hf & Hl);
      [by apply (state_rows_nodup scan scan_perm)|by intros [p x] [Hx _]%(elem_state_rows scan scan_perm)|].
    rewrite Hf. simpl. rewrite Hl, decide_False; [done|]. intros [_ Hin]. apply list_elem_of_fmap in Hin as ([q x] & Hq' & Hin).
    apply (elem_state_rows scan scan_perm) in Hin as [_ [Hq''%bool_decide_eq_true _]%andb_prop]. by simpl in Hq'. }
  apply leads_select. rewrite Hcom. apply (leads_bind _ _ _ (λ _ d', d' = won_states E scan a ag row h size d)).
  { unfold won_states, won_committer. fold art d1. destruct (agent_states d !! (a, ag)) as [x|] eqn:Ex; [|by apply leads_insert_state].
    apply leads_on_db. unfold set_field. simpl. by rewrite (alter_known _ _ x). }
  intros _ ? ->. apply (leads_bind _ _ _ (λ _ d', d' = won_states E scan a ag row h size d)); [by apply leads_emit|].
  intros _ ? ->. apply leads_gets. intros retain. apply leads_ret. rewrite Hw. split; simpl.
  - by destruct d.
  - by exists size, now.
  - unfold sql_get_agent_state. simpl. rewrite Hag. unfold won_committer. by destruct (agent_states d !! (a, ag)).
  - unfold sql_get_agent_transient. simpl. rewrite Hag. unfold won_committer. by destruct (agent_states d !! (a, ag)).
  - intros q Hne. unfold sql_get_agent_state. simpl. rewrite (Hq q Hne). destruct (agent_states d !! (a, q)) as [x|]; [|done]. simpl.
    f_equal. by destruct (sr_state x) eqn:Ex; simpl; rewrite ?Ex.
  - done.
Qed.

(** What the discrimination says. *)
Definition cas_step (a ag : UUID) (expected : Z) (h : string) (d : Db) (r : CasResult) (d' : Db) : Prop :=
  ∃ row, artifacts d !! a = Some row ∧
  match r with
  | CasWin updated _ => sql_arbitrate scan d a ag (ar_version row) expected = None ∧ art_version updated = ar_version row + 1 ∧
      cas_won a ag h row d d'
  | CasConflict detail => (∃ reason, sql_arbitrate scan d a ag (ar_version row) expected = Some (inr reason) ∧
      detail = mkConflict reason (ar_version row)) ∧ ∃ m, d' = d <| conflict_counters := m |>
  | CasCorruption v => sql_arbitrate scan d a ag (ar_version row) expected = Some (inl v) ∧ d' = d
  end.
Lemma commit_cas_effect a ag expected h sz tick tr :
  calls (sql_commit_cas scan a ag expected h sz None tick tr) (cas_step a ag expected h).
Proof using scan_perm.
  apply calls_guard. intros s. unfold mbind at 1, proc_bind at 1.
  match goal with |- context [logged_transaction ?m s] => pose proof (calls_logged m (cas_step a ag expected h)) as Ht end.
  specialize (Ht ltac:(intros d; apply leads_select_artifact; intros row Ha; apply leads_select;
    destruct (sql_arbitrate scan d a ag (ar_version row) expected) as [[cur|reason]|] eqn:Earb;
    [apply leads_ret; by exists row
    |apply (leads_bind _ _ _ (λ _ d', ∃ m, d' = d <| conflict_counters := m |>)); [apply leads_on_db; by eexists|];
     intros _ d' Hd; apply leads_ret; exists row; split; [done|]; split; [by exists reason|done]
    |eapply leads_bind; [by apply cas_apply_effect|]; intros inv d' Hw; apply leads_ret; by exists row]) s).
  destruct (logged_transaction _ s) as [[[u inv|detail|v]|e] s']; [|done..].
  destruct Ht as (row & Ha & Harb & Hv & Hw). pose proof (cw_row _ _ _ _ _ _ Hw) as (size & now & Hrow).
  unfold mbind, proc_bind, select_artifact. rewrite Hrow, lookup_insert_eq. simpl. by exists row.
Qed.

Lemma capture_effect a v c d (R : unit → Db → Prop) : (∀ m, R tt (d <| artifact_versions := m |>)) →
  leads (capture_version_sql scan a v c) d R.
Proof.
  intros HR. apply leads_time. intros now. apply leads_references. intros _.
  apply (leads_bind _ _ _ (λ _ d', ∃ m, d' = d <| artifact_versions := m |>)); [apply leads_on_db; by eexists|]. intros _ ? [m ->].
  apply leads_gets. intros [policy|]; [|by apply leads_ret]. apply leads_select.
  eapply leads_for_each; [intros v' d'; by apply leads_on_db|].
  match goal with |- R tt (foldl _ _ ?l) => generalize l end. intros l. revert m.
  induction l as [|v' l IH]; intros m; simpl; [apply HR|]. apply (IH (base.delete (a, v') m)).
Qed.
(** The tables after the body of an artifact was set. *)
Definition content_written (a : UUID) (new : Artifact) (writer : option UUID) (d d' : Db) : Prop :=
  d' = d <| artifacts := artifacts d' |> <| artifact_versions := artifact_versions d' |> ∧
  ∃ now, artifacts d' = alter (λ row, row <| ar_name := art_name new |> <| ar_version := art_version new |>
      <| ar_content_hash := default "" (art_content_hash new) |> <| ar_size_tokens := art_size_tokens new |>
      <| ar_last_writer_id := writer |> <| ar_updated_at := now |>) a (artifacts d).
Lemma set_content_effect a new c w f : calls (sql_set_artifact_and_content scan a new c w f) (λ d _ d', content_written a new w d d').
Proof.
  apply calls_guard, calls_transaction. intros d. apply (leads_bind _ _ _ (λ _ d', d' = d)).
  { destruct f as [ag|]; [|by apply leads_ret]. apply leads_select. destruct (sql_get_read_generation d a ag); [|by apply leads_ret].
    apply leads_select_artifact. intros row _. case_bool_decide; [apply leads_raise|by apply leads_ret]. }
  intros _ ? ->. apply leads_time. intros now. apply (leads_bind _ _ _ (λ _ d', d' = d)).
  { intros s [] s' <-. unfold rename_free. by destruct (_ && _); intros [= <-]. }
  intros _ ? ->. apply leads_then_on_db, leads_gets. intros [|]; simpl.
  - apply capture_effect. intros m. split; [by destruct d|]. by exists now.
  - apply leads_ret. split; [by destruct d|]. by exists now.
Qed.
End effects.

(** ** What every step keeps *)
Record store_wf (d : Db) : Prop := {
  sw_names : ∀ a b ra rb, artifacts d !! a = Some ra → artifacts d !! b = Some rb → ar_name ra = ar_name rb → a = b;
  sw_known : ∀ a p st, sql_get_agent_state d a p = Some st → is_Some (artifacts d !! a);
  sw_writer : ∀ a p q, in_m_or_e (sql_get_agent_state d a p) = true → in_m_or_e (sql_get_agent_state d a q) = true → p = q;
}.
(** No artifact goes away, no version and no generation goes back. *)
Definition grows (d d' : Db) : Prop := ∀ a row, artifacts d !! a = Some row → ∃ row', artifacts d' !! a = Some row' ∧
  ar_name row' = ar_name row ∧ ar_version row <= ar_version row' ∧ ar_owner_generation row <= ar_owner_generation row'.
Definition evolves (d d' : Db) : Prop := (store_wf d → store_wf d') ∧ grows d d'.
#[export] Instance evolves_preorder : PreOrder evolves.
Proof.
  split; [split; [done|]; intros a row Ha; by exists row|]. intros d1 d2 d3 [W1 G1] [W2 G2]. split; [auto|].
  intros a row Ha. destruct (G1 a row Ha) as (r2 & H2 & ? & ? & ?), (G2 a r2 H2) as (r3 & H3 & ? & ? & ?).
  exists r3. split_and!; [done|congruence|lia|lia].
Qed.

Lemma evolves_same d d' : artifacts d' = artifacts d → agent_states d' = agent_states d → evolves d d'.
Proof.
  intros Ha Hs. split.
  - intros [H1 H2 H3]. unfold sql_get_agent_state in *. split; unfold sql_get_agent_state; rewrite ?Ha, ?Hs; auto.
  - intros a row Hr. exists row. by rewrite Ha.
Qed.
(** The grants of one artifact change; those that were there may be taken away. *)
Lemma evolves_grants a d d' : grows d d' → dom (artifacts d') = dom (artifacts d) → is_Some (artifacts d !! a) →
  (∀ b q, b ≠ a → sql_get_agent_state d' b q = sql_get_agent_state d b q) →
  (store_wf d → ∀ p q, in_m_or_e (sql_get_agent_state d' a p) = true → in_m_or_e (sql_get_agent_state d' a q) = true → p = q) →
  evolves d d'.
Proof.
  intros HG Hdom Ha Ho Hw. split; [|done]. intros W. split.
  - intros x y rx ry Hx Hy Hn.
    assert (∀ z rz, artifacts d' !! z = Some rz → ∃ r, artifacts d !! z = Some r ∧ ar_name rz = ar_name r) as Hback.
    { intros z rz Hz. assert (z ∈ dom (artifacts d)) as Hd by (rewrite <-Hdom; apply elem_of_dom; by eexists).
      apply elem_of_dom in Hd as [r Hr]. exists r. split; [done|]. destruct (HG z r Hr) as (r' & Hr' & ? & _). congruence. }
    destruct (Hback x rx Hx) as (r1 & H1 & E1), (Hback y ry Hy) as (r2 & H2 & E2). apply (sw_names _ W x y r1 r2); congruence.
  - intros b p st Hst. apply elem_of_dom. rewrite Hdom. apply elem_of_dom. destruct (decide (b = a)) as [->|Hb]; [done|].
    rewrite Ho in Hst by done. by apply (sw_known _ W b p st).
  - intros b p q. destruct (decide (b = a)) as [->|Hb]; [by apply Hw|]. rewrite !Ho by done. apply (sw_writer _ W).
Qed.

Lemma written_state st tr tick art prior d a ag b q :
  sql_get_agent_state (state_written st tr tick art prior d a ag) b q =
  if decide (b = a ∧ q = ag) then Some st else sql_get_agent_state d b q.
Proof.
  unfold sql_get_agent_state, state_written. simpl. rewrite lookup_insert. destruct (decide ((a, ag) = (b, q))) as [[= -> ->]|Hne].
  - rewrite decide_True by done. simpl. unfold row_transition, row_stored. f_equal.
    destruct (_ || _), prior as [row|]; simpl; try done; by repeat case_match.
  - rewrite decide_False by naive_solver. done.
Qed.
Lemma written_grows st tr tick art prior d a ag : artifacts d !! a = Some art →
  let d' := state_written st tr tick art prior d a ag in grows d d' ∧ dom (artifacts d') = dom (artifacts d).
Proof.
  intros Ha. simpl. split.
  - intros b row Hb. unfold state_written. simpl. rewrite lookup_insert. case_decide as Heq; [|by exists row]. simplify_eq.
    eexists. split; [done|]. unfold art_transition. case_match; simpl; split_and!; done || lia.
  - unfold state_written. simpl. rewrite dom_insert_L. apply elem_of_dom_2 in Ha. set_solver.
Qed.

(** ** The service operations *)
Definition ev (s s' : Handle) : Prop := evolves (db s) (db s').
#[export] Instance ev_preorder : PreOrder ev.
Proof. unfold ev. split; [intros s; reflexivity|]. intros s1 s2 s3 H1 H2. etrans; [exact H1|exact H2]. Qed.

Section operations.
Context (scan : ∀ A, list A → list A) (scan_perm : ∀ A (l : list A), scan A l ≡ₚ l).

Lemma written_evolves st tr tick art d a ag : artifacts d !! a = Some art →
  (m_or_e st = true → ∀ q, q ≠ ag → in_m_or_e (sql_get_agent_state d a q) = false) →
  evolves d (state_written st tr tick art (agent_states d !! (a, ag)) d a ag).
Proof.
  intros Ha Hst. destruct (written_grows st tr tick art (agent_states d !! (a, ag)) d a ag Ha) as [HG Hdom].
  apply (evolves_grants a); [done|done|by exists art| |].
  - intros b q Hb. rewrite written_state, decide_False by naive_solver. done.
  - intros W p q. rewrite !written_state. destruct (m_or_e st) eqn:Est.
    + assert (∀ x, in_m_or_e (if decide (a = a ∧ x = ag) then Some st else sql_get_agent_state d a x) = true → x = ag) as Hx.
      { intros x. destruct (decide (x = ag)) as [->|Hne]; [done|]. rewrite decide_False by naive_solver. by rewrite Hst. }
      intros Hp%Hx Hq%Hx. congruence.
    + assert (∀ x, in_m_or_e (if decide (a = a ∧ x = ag) then Some st else sql_get_agent_state d a x) = true →
        in_m_or_e (sql_get_agent_state d a x) = true) as Hx by (intros x; case_decide; simpl; [by rewrite Est|done]).
      intros Hp%Hx Hq%Hx. by apply (sw_writer _ W a).
Qed.
Lemma ev_set_state a ag st tr tick h : m_or_e st = false → respects ev (sql_set_agent_state a ag st tr tick h).
Proof.
  intros Hst. eapply (calls_respects _ _ evolves); [apply set_state_effect|]. intros d _ d' (art & Ha & ->).
  apply written_evolves; [done|by rewrite Hst].
Qed.
Lemma ev_frame {A} (m : HM A) R : calls m R → (∀ d x d', R d x d' → artifacts d' = artifacts d ∧ agent_states d' = agent_states d) →
  respects ev m.
Proof. intros Hm HR. eapply (calls_respects _ _ evolves); [exact Hm|]. intros d x d' Hd. by apply evolves_same; apply (HR d x d'). Qed.
Lemma ev_heartbeat ag now : respects ev (sql_service_record_heartbeat ag now).
Proof. eapply ev_frame; [apply heartbeat_effect|]. by intros d _ d' [m ->]. Qed.
Lemma ev_record_notice v a p t : respects ev (record_preemption_notice v a p t).
Proof. eapply ev_frame; [apply record_notice_effect|]. by intros d _ d' [m ->]. Qed.
Lemma ev_pop_notices ag : respects ev (pop_pending_notices scan ag).
Proof. eapply ev_frame; [apply pop_notices_effect|]. by intros d _ d' [m ->]. Qed.
Lemma ev_pop_notice ag a : respects ev (pop_preemption_notice ag a).
Proof. eapply ev_frame; [apply pop_notice_effect|]. by intros d _ d' [m ->]. Qed.

(** Rows rewritten with their state kept; a new row is INVALID. *)
Lemma evolves_rows (d : Db) (m : gmap (UUID * UUID) StateRow) :
  (∀ a q, ∀ row, m !! (a, q) = Some row → (is_Some (artifacts d !! a) ∧ sr_state row = INVALID) ∨
     sql_get_agent_state d a q = Some (sr_state row)) → evolves d (d <| agent_states := m |>).
Proof.
  intros Hm. assert (∀ a q st, sql_get_agent_state (d <| agent_states := m |>) a q = Some st →
    (is_Some (artifacts d !! a) ∧ st = INVALID) ∨ sql_get_agent_state d a q = Some st) as Hst.
  { intros a q st. unfold sql_get_agent_state at 1. simpl. destruct (m !! (a, q)) as [row|] eqn:Em; [|done]. intros [= <-]. by apply Hm. }
  split; [|intros a row Ha; by exists row]. intros [H1 H2 H3]. split; [exact H1| |].
  - intros a p st [[? _]|?]%Hst; [done|by eapply H2].
  - intros a p q Hp Hq. destruct (sql_get_agent_state _ a p) as [sp|] eqn:Ep; [|done].
    destruct (sql_get_agent_state _ a q) as [sq|] eqn:Eq; [|done]. apply Hst in Ep as [[_ ->]|Ep], Eq as [[_ ->]|Eq]; try done.
    apply (H3 a); by rewrite ?Ep, ?Eq.
Qed.
Lemma ev_set_transient a ag t tick : respects ev (sql_set_agent_transient a ag t tick).
Proof.
  eapply (calls_respects _ _ evolves); [apply set_transient_effect|]. intros d _ d' [Ha ->]. apply evolves_rows. intros b q row.
  rewrite lookup_insert. unfold sql_get_agent_state, transient_row. case_decide as Heq; [|intros ->; by right].
  simplify_eq. intros [= <-]. destruct (agent_states d !! (b, q)); simpl; [by right|by left].
Qed.
Lemma ev_clear_transient a ag : respects ev (sql_clear_agent_transient a ag).
Proof.
  eapply (calls_respects _ _ evolves); [apply clear_transient_effect|]. intros d _ d' ->. apply evolves_rows. intros b q row.
  rewrite lookup_alter. unfold sql_get_agent_state. case_decide as Heq; [|intros ->; by right].
  simplify_eq. destruct (agent_states d !! (b, q)); intros [= <-]. by right.
Qed.
Lemma ev_resolve minted path h : respects ev (resolve_or_register scan minted path h).
Proof.
  eapply (calls_respects _ _ evolves); [apply resolve_effect|]. intros d a d' [[_ ->]|(_ & -> & Hnone & Hfree & now & ->)]; [done|].
  assert (∀ b rb, artifacts d !! b = Some rb → ar_name rb ≠ path) as Hname.
  { intros b rb Hb <-. unfold name_taken in Hfree. assert (existsb (λ kr : UUID * ArtRow, bool_decide (kr.1 ≠ minted) &&
      bool_decide (ar_name kr.2 = ar_name rb)) (map_to_list (artifacts d)) = true) as Ht; [|congruence].
    apply existsb_exists. exists (b, rb). split; [by apply list_elem_of_In, elem_of_map_to_list|]. simpl.
    rewrite !bool_decide_true; [done|done|congruence]. }
  split.
  - intros [H1 H2 H3]. split; [|intros b p st Hst; simpl; rewrite lookup_insert_is_Some; right; split; [|by eapply H2]|exact H3].
    + simpl. intros b c rb rc. rewrite !lookup_insert. repeat case_decide; simplify_eq; try done.
      * intros [= <-] Hc Hn. by destruct (Hname c rc Hc).
      * intros Hb [= <-] Hn. by destruct (Hname b rb Hb).
      * apply H1.
    + intros ->. destruct (H2 _ _ _ Hst). congruence.
  - intros b row Hb. exists row. simpl. rewrite lookup_insert_ne by congruence. done.
Qed.

Lemma won_grows a ag h row d d' : artifacts d !! a = Some row → cas_won a ag h row d d' →
  grows d d' ∧ dom (artifacts d') = dom (artifacts d).
Proof.
  intros Ha Hw. destruct (cw_row _ _ _ _ _ _ Hw) as (size & now & Hrow). rewrite Hrow. split.
  - intros b rb Hb. rewrite Hrow, lookup_insert. case_decide as Heq; [|by exists rb]. subst b.
    assert (rb = row) as -> by congruence. eexists. split; [done|]. simpl. split_and!; [done|lia|lia].
  - rewrite dom_insert_L. apply elem_of_dom_2 in Ha. set_solver.
Qed.
Lemma ev_commit_cas a ag expected h sz tick tr : respects ev (sql_commit_cas scan a ag expected h sz None tick tr).
Proof using scan_perm.
  eapply (calls_respects _ _ evolves); [by apply commit_cas_effect|]. intros d r d' (row & Ha & Hr). destruct r as [u inv|detail|v].
  - destruct Hr as (_ & _ & Hw). destruct (won_grows a ag h row d d' Ha Hw) as [HG Hdom].
    apply (evolves_grants a); [done|done|by exists row| |].
    + intros b q Hb. unfold sql_get_agent_state. by rewrite (cw_others _ _ _ _ _ _ Hw).
    + assert (∀ x, in_m_or_e (sql_get_agent_state d' a x) = false) as Hno; [|intros _ p q Hp; by rewrite Hno in Hp].
      intros x. destruct (decide (x = ag)) as [->|Hne]; [by rewrite (cw_writer _ _ _ _ _ _ Hw)|].
      rewrite (cw_peers _ _ _ _ _ _ Hw x Hne). by destruct (sql_get_agent_state d a x).
  - destruct Hr as [_ [m ->]]. by apply evolves_same.
  - by destruct Hr as [_ ->].
Qed.

(** *** Revocation of the peers *)
Lemma elem_state_map d a q st : (q, st) ∈ sql_get_state_map scan d a ↔ sql_get_agent_state d a q = Some st.
Proof using scan_perm.
  unfold sql_get_state_map, sql_get_agent_state. rewrite list_elem_of_fmap. split.
  - intros ([p row] & [= -> ->] & Hin). apply (elem_state_rows scan scan_perm) in Hin as [Hr _]. simpl. by rewrite Hr.
  - intros Hs. destruct (agent_states d !! (a, q)) as [row|] eqn:Er; [|done]. simplify_eq/=. exists (q, row). split; [done|].
    by apply (elem_state_rows scan scan_perm).
Qed.

(** No agent but [ag] and those still in the list writes. *)
Definition writers_in (a ag : UUID) (l : list (UUID * MESIState)) (d : Db) : Prop :=
  ∀ q, q ≠ ag → in_m_or_e (sql_get_agent_state d a q) = true → q ∈ l.*1.
Lemma revoke_peer_triple a ag tr tick v sigs peer l : triple (λ s, writers_in a ag (peer :: l) (db s))
  (sql_revoke_peer a ag tr tick v sigs peer) (λ _ s, writers_in a ag l (db s)) (λ _ _, True).
Proof.
  apply (triple_bind _ _ _ (λ _ s, writers_in a ag (peer :: l) (db s))).
  - destruct (invalidation_transient_for_state peer.2) as [t|]; [|by apply triple_ret]. intros s Hs.
    pose proof (set_transient_effect a peer.1 t tick s) as He. destruct (sql_set_agent_transient _ _ _ _ s) as [[x|e] s']; [|done].
    destruct He as [_ He]. intros q Hq. rewrite He. unfold sql_get_agent_state. simpl. rewrite lookup_insert.
    case_decide as Heq; [|by apply Hs]. simplify_eq. intros Hm. apply Hs; [done|]. unfold sql_get_agent_state.
    by destruct (agent_states (db s) !! (a, peer.1)).
  - intros _. apply (triple_bind _ _ _ (λ _ s, writers_in a ag l (db s))); [|intros _; by apply triple_ret]. intros s Hs.
    pose proof (set_state_effect a peer.1 INVALID tr tick None s) as He. destruct (sql_set_agent_state _ _ _ _ _ _ s) as [[x|e] s']; [|done].
    destruct He as (art & Ha & He). intros q Hq. rewrite He, written_state. case_decide as Heq; [done|]. intros Hm.
    specialize (Hs q Hq Hm). simpl in Hs. apply elem_of_cons in Hs as [->|?]; [naive_solver|done].
Qed.
Lemma revoke_peers_triple a ag tr tick v : triple (λ _, True) (sql_revoke_peers scan a ag tr tick v)
  (λ _ s, ∀ q, q ≠ ag → in_m_or_e (sql_get_agent_state (db s) a q) = false) (λ _ _, True).
Proof using scan_perm.
  intros s _. unfold sql_revoke_peers, mbind, proc_bind, select, gets.
  assert (writers_in a ag (other_holders (sql_get_state_map scan (db s) a) ag) (db s)) as Hw.
  { intros q Hq Hm. destruct (sql_get_agent_state (db s) a q) as [st|] eqn:Es; [|done]. apply list_elem_of_fmap.
    exists (q, st). split; [done|]. apply list_elem_of_filter. split; [by destruct st|by apply elem_state_map]. }
  revert Hw. generalize (other_holders (sql_get_state_map scan (db s) a) ag) as l. generalize (@nil InvalidationSignal) as sigs.
  intros sigs l. revert s sigs. induction l as [|peer l IH]; intros s sigs Hw; simpl.
  - intros q Hq. destruct (in_m_or_e _) eqn:Em; [|done]. by apply Hw, not_elem_of_nil in Em.
  - pose proof (revoke_peer_triple a ag tr tick v sigs peer l s Hw) as Hp. unfold mbind, proc_bind.
    destruct (sql_revoke_peer _ _ _ _ _ _ _ s) as [[sigs'|e] s']; [by apply IH|done].
Qed.

Ltac ev_leaf := first
  [ apply ev_set_transient | apply ev_clear_transient | apply ev_heartbeat | apply ev_record_notice | apply ev_pop_notices
  | apply ev_pop_notice | apply ev_resolve | apply ev_commit_cas | (apply ev_set_state; reflexivity)
  | (apply respects_pure; [apply _|]; intros ?; first [reflexivity | by destruct (_ : outcome _ _)]) ].
Lemma ev_revoke_peer a ag tr tick v sigs peer : respects ev (sql_revoke_peer a ag tr tick v sigs peer).
Proof. unfold sql_revoke_peer. destruct (invalidation_transient_for_state peer.2); respects_tac ev_leaf. Qed.
Lemma ev_revoke_peers a ag tr tick v : respects ev (sql_revoke_peers scan a ag tr tick v).
Proof. unfold sql_revoke_peers. respects_tac ltac:(first [apply ev_revoke_peer | ev_leaf]). Qed.

Lemma triple_ev {A} (m : HM A) d0 : respects ev m →
  triple (λ s, evolves d0 (db s)) m (λ _ s, evolves d0 (db s)) (λ _ s, evolves d0 (db s)).
Proof. intros Hm s Hs. specialize (Hm s). unfold ev in Hm. destruct (m s) as [[x|e] s']; simpl in *; by etrans. Qed.
Lemma ev_triple {A} (m : HM A) :
  (∀ d0, triple (λ s, db s = d0) m (λ _ s, evolves d0 (db s)) (λ _ s, evolves d0 (db s))) → respects ev m.
Proof. intros Hm s. specialize (Hm (db s) s eq_refl). unfold ev. by destruct (m s) as [[x|e] s']. Qed.
Lemma set_writer_triple a ag st tr tick h d0 :
  triple (λ s, evolves d0 (db s) ∧ ∀ q, q ≠ ag → in_m_or_e (sql_get_agent_state (db s) a q) = false)
    (sql_set_agent_state a ag st tr tick h) (λ _ s, evolves d0 (db s)) (λ _ s, evolves d0 (db s)).
Proof.
  intros s [Hs Hno]. pose proof (set_state_effect a ag st tr tick h s) as He.
  destruct (sql_set_agent_state _ _ _ _ _ _ s) as [[x|e] s']; [|by rewrite He].
  destruct He as (art & Ha & ->). etrans; [exact Hs|]. by apply written_evolves.
Qed.
Lemma revoke_and_take {A} a ag tr tick v st h (k : list InvalidationSignal → HM A) d0 : (∀ sigs, respects ev (k sigs)) →
  triple (λ s, evolves d0 (db s)) (signals ← sql_revoke_peers scan a ag tr tick v; sql_set_agent_state a ag st tr tick h ;; k signals)
    (λ _ s, evolves d0 (db s)) (λ _ s, evolves d0 (db s)).
Proof using scan_perm.
  intros Hk. apply (triple_bind _ _ _ (λ _ s, evolves d0 (db s) ∧ ∀ q, q ≠ ag → in_m_or_e (sql_get_agent_state (db s) a q) = false)).
  - eapply triple_conseq; [apply (triple_and _ _ _ _ _ _ _ (triple_ev _ d0 (ev_revoke_peers a ag tr tick v)) (revoke_peers_triple a ag tr tick v))|..].
    + by intros s Hs.
    + by intros x s Hs.
    + by intros e s [Hs _].
  - intros sigs. apply (triple_bind _ _ _ (λ _ s, evolves d0 (db s))); [apply set_writer_triple|]. intros _. by apply triple_ev.
Qed.

Lemma ev_validate a : respects ev (sql_validate_single_writer scan a).
Proof. unfold sql_validate_single_writer. respects_tac ev_leaf. Qed.
Lemma ev_abort {A} b (m : HM A) : respects ev m → respects ev (sql_abort_guard b m).
Proof. intros Hm. destruct b; [|done]. respects_tac ev_leaf. Qed.
Lemma require_cases a d0 : triple (λ s, db s = d0) (sql_require_artifact a)
  (λ art s, db s = d0 ∧ ∃ row, artifacts d0 !! a = Some row ∧ art = row_artifact a row) (λ _ s, db s = d0).
Proof.
  intros s <-. unfold sql_require_artifact, mbind, proc_bind, select, gets, sql_get_artifact, fetch_artifact_row.
  destruct (artifacts (db s) !! a) as [row|] eqn:Ea; simpl; [|done]. split; [done|]. by exists row.
Qed.

Lemma ev_write ag a tick b : respects ev (sql_write scan ag a tick b).
Proof using scan_perm.
  apply ev_abort, ev_triple. intros d0. apply (triple_bind _ _ _ (λ _ s, evolves d0 (db s))).
  { eapply triple_conseq; [apply (require_cases a d0)|done|by intros art s [-> _]|by intros e s ->]. }
  intros art. apply (triple_bind _ _ _ (λ _ s, evolves d0 (db s))); [apply triple_ev, ev_set_transient|]. intros _.
  apply revoke_and_take. intros sigs. respects_tac ltac:(first [apply ev_validate | ev_leaf]).
Qed.

Lemma content_evolves a row c h w d d' : artifacts d !! a = Some row →
  content_written a (mkArtifact (art_id (row_artifact a row)) (art_name (row_artifact a row)) (art_version (row_artifact a row) + 1) c h [])
    w d d' → evolves d d'.
Proof.
  intros Ha [Hd [now Hrow]]. rewrite (alter_known _ _ _ _ Ha) in Hrow. apply (evolves_grants a).
  - intros b rb Hb. rewrite Hrow, lookup_insert. case_decide as Heq; [|by exists rb]. subst b. assert (rb = row) as -> by congruence.
    eexists. split; [done|]. simpl. split_and!; [done|lia|lia].
  - rewrite Hrow, dom_insert_L. apply elem_of_dom_2 in Ha. set_solver.
  - by exists row.
  - intros b q _. rewrite Hd. by destruct d.
  - intros W p q. rewrite Hd. apply (sw_writer _ W).
Qed.

(** Past the content write: the peers, the hash, the new grant. *)
Lemma commit_tail_triple a ag c tick ch v (r : Artifact) d0 : triple (λ s, evolves d0 (db s))
  (signals ← sql_revoke_peers scan a ag "commit" tick v;
   commit_hash ← of_outcome (match ch with Some h => Ok h | None => compute_content_hash (BStr c) end);
   sql_set_agent_state a ag MODIFIED "commit" tick (Some commit_hash) ;;
   sql_clear_agent_transient a ag ;; sql_validate_single_writer scan a ;; mret (r, signals))
  (λ _ s, evolves d0 (db s)) (λ _ s, evolves d0 (db s)).
Proof using scan_perm.
  apply (triple_bind _ _ _ (λ _ s, evolves d0 (db s) ∧ ∀ q, q ≠ ag → in_m_or_e (sql_get_agent_state (db s) a q) = false)).
  { eapply triple_conseq; [apply (triple_and _ _ _ _ _ _ _ (triple_ev _ d0 (ev_revoke_peers a ag "commit" tick v))
      (revoke_peers_triple a ag "commit" tick v))|by intros s Hs|by intros x s Hs|by intros e s [Hs _]]. }
  intros sigs s [Hs Hno]. unfold mbind, proc_bind at 1, of_outcome. destruct (match ch with Some _ => _ | None => _ end) as [h|e]; [|done].
  revert s Hs Hno. intros s Hs Hno. apply (triple_bind _ _ _ (λ _ s, evolves d0 (db s))
    (λ _ s, evolves d0 (db s)) (λ _ s, evolves d0 (db s)) (set_writer_triple a ag MODIFIED "commit" tick (Some h) d0)); [|by split].
  intros _. apply triple_ev. respects_tac ltac:(first [apply ev_validate | ev_leaf]).
Qed.

Lemma set_content_triple a ag row c h w b d0 d1 : artifacts d1 !! a = Some row → evolves d0 d1 →
  triple (λ s, db s = d1) (catch (sql_set_artifact_and_content scan a
      (mkArtifact (art_id (row_artifact a row)) (art_name (row_artifact a row)) (art_version (row_artifact a row) + 1) c h []) b w (Some ag))
    (λ e, match e with StaleReadGeneration => sql_clear_agent_transient a ag ;; raise StaleReadGeneration | _ => raise e end))
    (λ _ s, evolves d0 (db s)) (λ _ s, evolves d0 (db s)).
Proof.
  intros Ha Hev. apply (triple_catch _ _ _ _ (λ _ s, evolves d0 (db s))).
  - intros s <-. pose proof (set_content_effect scan a (mkArtifact (art_id (row_artifact a row)) (art_name (row_artifact a row))
      (art_version (row_artifact a row) + 1) c h []) b w (Some ag) s) as He.
    destruct (sql_set_artifact_and_content _ _ _ _ _ _ s) as [[x|e] s']; [|by rewrite He].
    etrans; [exact Hev|]. by eapply content_evolves.
  - intros e. apply triple_ev. destruct e; respects_tac ev_leaf.
Qed.
Lemma set_transient_triple a ag t tick d0 : triple (λ s, db s = d0) (sql_set_agent_transient a ag t tick)
  (λ _ s, ∃ d1, evolves d0 d1 ∧ artifacts d1 = artifacts d0 ∧ db s = d1) (λ _ s, db s = d0).
Proof.
  intros s <-. pose proof (set_transient_effect a ag t tick s) as He. pose proof (ev_set_transient a ag t tick s) as Hev. unfold ev in Hev.
  destruct (sql_set_agent_transient _ _ _ _ s) as [[x|e] s']; simpl in *; [|done]. exists (db s'). destruct He as [_ He]. split_and!; [exact Hev|by rewrite He|done].
Qed.
Lemma ev_commit ag a c tick ch sz b : respects ev (sql_commit scan ag a c tick ch sz b).
Proof using scan_perm.
  apply ev_abort, ev_triple. intros d0. eapply triple_bind.
  { eapply triple_conseq; [apply (require_cases a d0)|done|by intros art s Hs|by intros e s ->]. }
  intros art s [Hs (row & Ha & ->)]. unfold mbind at 1, proc_bind at 1, select, gets. destruct (in_m_or_e _); simpl.
  2: { unfold mbind, proc_bind, select, gets. rewrite Hs. by destruct (sql_get_last_reclamation _ _ _); simpl; rewrite Hs. }
  refine (triple_bind (λ s, db s = d0) _ _ _ (λ _ s, evolves d0 (db s)) (λ _ s, evolves d0 (db s)) _ _ s Hs).
  { eapply triple_conseq; [apply (set_transient_triple a ag MWB tick d0)|done|by intros x ? Hx|by intros e ? ->]. }
  intros x. apply triple_exists. intros d1. apply triple_pure. intros Hev. apply triple_pure. intros Harts.
  unfold check_monotonic_version. rewrite decide_False by (simpl; lia). eapply triple_of_outcome; [done|].
  eapply triple_bind; [apply set_content_triple; [by rewrite Harts|exact Hev]|]. intros y. apply commit_tail_triple.
Qed.
Lemma ev_invalidate ag a v issuer tick b : respects ev (sql_invalidate ag a v issuer tick b).
Proof. apply ev_abort. unfold sql_invalidate_impl. respects_tac ev_leaf. Qed.
Lemma ev_service_cas ag a e h tick sz b : respects ev (sql_service_commit_cas scan ag a e h tick sz None b).
Proof using scan_perm.
  apply ev_abort. unfold sql_commit_cas_impl, sql_require_artifact.
  respects_tac ltac:(first [apply ev_validate | ev_leaf]).
Qed.
End operations.
