(* ===== verification/Policy.v ===== *)
(** The tracked-artifact policy: [src/ccs/adapters/claude_code/policy.py].

    Patterns are matched on the characters of a path; [chars] decodes the UTF-8 text a
    string holds.  The regular expressions the code builds from a pattern are lists of
    [tok], and [match_toks] is what [re] does with them. *)
From S2P Require Import Prelude Core Substrate.
From Stdlib Require Import Ascii.

Open Scope Z_scope.
Open Scope string_scope.

(** ** Text *)
Fixpoint bytes_of (s : string) : list N :=
  match s with "" => [] | String c s' => Ascii.N_of_ascii c :: bytes_of s' end.

Definition tail_bits (n : N) : N := N.land n 63.
Fixpoint decode (l : list N) : list N :=
  match l with
  | [] => []
  | a :: l1 =>
    if (a <? 192)%N then a :: decode l1
    else match l1 with
    | [] => [a]
    | b :: l2 =>
      if (a <? 224)%N then (N.shiftl (N.land a 31) 6 + tail_bits b)%N :: decode l2
      else match l2 with
      | [] => [a; b]
      | c :: l3 =>
        if (a <? 240)%N then (N.shiftl (N.land a 15) 12 + N.shiftl (tail_bits b) 6 + tail_bits c)%N :: decode l3
        else match l3 with
        | [] => [a; b; c]
        | d :: l4 => (N.shiftl (N.land a 7) 18 + N.shiftl (tail_bits b) 12 + N.shiftl (tail_bits c) 6 + tail_bits d)%N :: decode l4
        end
      end
    end
  end.
Definition chars (s : string) : list N := decode (bytes_of s).
Definition ch (c : Ascii.ascii) : N := Ascii.N_of_ascii c.

(** [s.split(sep)]. *)
Fixpoint split_acc (sep : Ascii.ascii) (s acc : string) : list string :=
  match s with
  | "" => [acc]
  | String c s' => if Ascii.eqb c sep then acc :: split_acc sep s' "" else split_acc sep s' (acc ++ String c "")
  end.
Definition split_on (sep : Ascii.ascii) (s : string) : list string := split_acc sep s "".
(** [s.replace(a, b)] of one character by another. *)
Fixpoint replace_char (a b : Ascii.ascii) (s : string) : string :=
  match s with "" => "" | String c s' => String (if Ascii.eqb c a then b else c) (replace_char a b s') end.
Definition drop_prefix (p s : string) : string :=
  if String.prefix p s then String.substring (String.length p) (String.length s - String.length p) s else s.
Definition backslash : Ascii.ascii := Ascii.ascii_of_N 92.
Definition posix (s : string) : string := replace_char backslash "/" s.

(** ** Patterns *)
Inductive tok : Type :=
| TOne (p : N → bool)
| TStar (p : N → bool).

(** [fin] is the end of the expression: what may be left of the text. *)
Fixpoint match_toks (fin : list N → bool) (ts : list tok) : list N → bool :=
  match ts with
  | [] => fin
  | TOne p :: ts' => λ l, match l with c :: l' => p c && match_toks fin ts' l' | [] => false end
  | TStar p :: ts' =>
    fix go l := match_toks fin ts' l || match l with c :: l' => p c && go l' | [] => false end
  end.

Definition any_char (c : N) : bool := true.
Definition not_slash (c : N) : bool := negb (c =? ch "/")%N.
Definition not_newline (c : N) : bool := negb (c =? 10)%N.
Definition lit (x c : N) : bool := (c =? x)%N.

(** The expression for a pattern with [**]: [.*] for [**] with the slash after it,
    [[^/]*] for [*], [[^/]] for [?]. *)
Fixpoint glob_toks (l : list N) : list tok :=
  match l with
  | [] => []
  | c :: l1 =>
    if (c =? ch "*")%N then
      match l1 with
      | c2 :: l2 =>
        if (c2 =? ch "*")%N then
          TStar not_newline ::
            match l2 with
            | c3 :: l3 => if (c3 =? ch "/")%N then glob_toks l3 else glob_toks l2
            | [] => []
            end
        else TStar not_slash :: glob_toks l1
      | [] => [TStar not_slash]
      end
    else if (c =? ch "?")%N then TOne not_slash :: glob_toks l1
    else TOne (lit c) :: glob_toks l1
  end.
(** [$] also matches before a final newline. *)
Definition dollar (l : list N) : bool := match l with [] => true | [c] => (c =? 10)%N | _ => false end.

(** [fnmatch.fnmatchcase]: [*] and [?] cross slashes, [[seq]] and [[!seq]] are classes. *)
Fixpoint class_items (l : list N) : list (N * N) :=
  match l with
  | [] => []
  | x :: l1 =>
    match l1 with
    | m :: l2 =>
      if (m =? ch "-")%N then
        match l2 with
        | y :: l3 => (x, y) :: class_items l3
        | [] => [(x, x); (m, m)]
        end
      else (x, x) :: class_items l1
    | [] => [(x, x)]
    end
  end.
Definition in_class (items : list (N * N)) (c : N) : bool :=
  existsb (λ r : N * N, (r.1 <=? c) && (c <=? r.2))%N items.

(** The class that starts after [[]: its content, and what follows the closing bracket. *)
Fixpoint until_bracket (l acc : list N) : option (list N * list N) :=
  match l with
  | [] => None
  | c :: l' => if (c =? ch "]")%N then Some (rev acc, l') else until_bracket l' (c :: acc)
  end.
Definition class_content (l : list N) : option (list N * list N) :=
  let '(bang, l1) := match l with c :: l' => if (c =? ch "!")%N then ([c], l') else ([], l) | [] => ([], l) end in
  let '(bracket, l2) := match l1 with c :: l' => if (c =? ch "]")%N then ([c], l') else ([], l1) | [] => ([], l1) end in
  match until_bracket l2 [] with
  | Some (content, rest) => Some ((bang ++ bracket ++ content)%list, rest)
  | None => None
  end.
Definition class_pred (content : list N) : N → bool :=
  match content with
  | c :: content' => if (c =? ch "!")%N then λ x, negb (in_class (class_items content') x)
                     else in_class (class_items content)
  | [] => λ _, false
  end.

(** A class takes at least two characters of the pattern; [fuel] is its length. *)
Fixpoint fnmatch_toks (fuel : nat) (l : list N) : list tok :=
  match fuel, l with
  | O, _ | _, [] => []
  | S fuel', c :: l' =>
    if (c =? ch "*")%N then TStar any_char :: fnmatch_toks fuel' l'
    else if (c =? ch "?")%N then TOne any_char :: fnmatch_toks fuel' l'
    else if (c =? ch "[")%N then
      match class_content l' with
      | Some (content, rest) => TOne (class_pred content) :: fnmatch_toks fuel' rest
      | None => TOne (lit c) :: fnmatch_toks fuel' l'
      end
    else TOne (lit c) :: fnmatch_toks fuel' l'
  end.
Definition fnmatchcase (path pattern : string) : bool :=
  match_toks (λ l, bool_decide (l = [])) (fnmatch_toks (S (length (chars pattern))) (chars pattern)) (chars path).

Fixpoint has_double_star (s : string) : bool :=
  match s with
  | String "*" (String "*" _) => true
  | String _ s' => has_double_star s'
  | "" => false
  end.
Definition glob_match (path pattern : string) : bool :=
  if negb (has_double_star pattern) then fnmatchcase path pattern
  else match_toks dollar (glob_toks (chars pattern)) (chars path).
Definition matches_any (path : string) (patterns : list string) : bool :=
  existsb (glob_match (posix path)) patterns.

(** ** Paths and patterns that are refused *)
Definition normalize_relative (p : string) : option string :=
  if bool_decide (p = "") then None
  else
    let cleaned := drop_prefix "./" p in
    if bool_decide (cleaned = "") then None
    else if String.prefix "/" p then None
    else if bool_decide (".." ∈ split_on "/" cleaned) then None
    else Some cleaned.

Definition validate_pattern (pattern : string) : option string :=
  if bool_decide (pattern = "") then Some "empty pattern"
  else if String.prefix "/" pattern then Some "absolute path"
  else if bool_decide (".." ∈ split_on "/" (posix pattern)) then Some "contains '..' (path traversal)"
  else None.

(** ** The policy *)
Definition DEFAULT_TRACKED_PATTERNS : list string :=
  ["CLAUDE.md"; "AGENTS.md"; "docs/specs/**/*.md"; "docs/plans/**/*.md"; "docs/brainstorms/**/*.md";
   "**/plan.md"; "**/task.md"; "**/spec.md"].

Record TrackedArtifactPolicy := mkPolicy {
  tracked_patterns : list string;
  ignored_patterns : list string;
  user_added_patterns : list string;
  strict_mode_paths : list string;
  rejected_patterns : list (string * string);
}.

(** What [yaml.safe_load] made of a file is [raw]; [None] is a file that is missing,
    unreadable or malformed.  [py_str] is [str] on values that are not strings. *)
Section load.
Context (py_str : pyval → string) (type_name : pyval → string).
Definition load_yaml_patterns (raw : option pyval) : list string * list (string * string) :=
  match raw with
  | Some (VSeq items) =>
    fold_left (λ acc item,
      match item with
      | VStr s => match validate_pattern s with
                  | None => ((acc.1 ++ [s])%list, acc.2)
                  | Some reason => (acc.1, (acc.2 ++ [(s, reason)])%list)
                  end
      | _ => (acc.1, (acc.2 ++ [(py_str item, ("non-string pattern (" ++ type_name item ++ ")")%string)])%list)
      end) items ([], [])
  | _ => ([], [])
  end.

Definition load (tracked ignored strict : option pyval) : TrackedArtifactPolicy :=
  let '(added, r1) := load_yaml_patterns tracked in
  let '(ignored, r2) := load_yaml_patterns ignored in
  let '(strict, r3) := load_yaml_patterns strict in
  mkPolicy DEFAULT_TRACKED_PATTERNS ignored added strict (r1 ++ r2 ++ r3)%list.
End load.

Definition is_tracked (p : TrackedArtifactPolicy) (path : string) : bool :=
  match normalize_relative path with
  | None => false
  | Some normalized =>
    (matches_any normalized (tracked_patterns p) || matches_any normalized (user_added_patterns p)) &&
    negb (matches_any normalized (ignored_patterns p))
  end.

Definition is_strict_mode (p : TrackedArtifactPolicy) (path : string) : bool :=
  if bool_decide (strict_mode_paths p = []) then false
  else if negb (is_tracked p path) then false
  else match normalize_relative path with
       | None => false
       | Some normalized => matches_any normalized (strict_mode_paths p)
       end.

Definition count_strict_mode_matches (p : TrackedArtifactPolicy) (paths : list string) : Z :=
  Z.of_nat (length (List.filter (is_strict_mode p) paths)).

(** ** Facts *)
Lemma strict_is_tracked p path : is_strict_mode p path = true → is_tracked p path = true.
Proof. unfold is_strict_mode. case_bool_decide; [done|]. by destruct (is_tracked p path). Qed.

Lemma tracked_relative p path : is_tracked p path = true →
  String.prefix "/" path = false ∧ ".." ∉ split_on "/" (drop_prefix "./" path).
Proof.
  unfold is_tracked, normalize_relative. case_bool_decide; [done|]. case_bool_decide; [done|].
  destruct (String.prefix "/" path); [done|]. by case_bool_decide.
Qed.
