(* ===== verification/BashPaths.v ===== *)
(** The paths a Bash command reads: [src/ccs/adapters/claude_code/bash_path_detector.py],
    with [shlex.split] and the regular expressions it uses written out on the characters
    of the command. *)
From S2P Require Import Prelude Core Substrate Policy.
From Stdlib Require Import Ascii.

Open Scope Z_scope.
Open Scope string_scope.

(** ** Characters *)
Definition encode_char (c : N) : string :=
  let byte (n : N) (s : string) := String (ascii_of_N n) s in
  let tail (n : N) := (128 + N.land n 63)%N in
  if (c <? 128)%N then byte c ""
  else if (c <? 2048)%N then byte (192 + N.shiftr c 6)%N (byte (tail c) "")
  else if (c <? 65536)%N then byte (224 + N.shiftr c 12)%N (byte (tail (N.shiftr c 6)) (byte (tail c) ""))
  else byte (240 + N.shiftr c 18)%N (byte (tail (N.shiftr c 12)) (byte (tail (N.shiftr c 6)) (byte (tail c) ""))).
Fixpoint encode (l : list N) : string := match l with [] => "" | c :: l' => encode_char c ++ encode l' end.

(** [str.isspace] of one character, which is also what [\s] matches. *)
Definition is_space (c : N) : bool :=
  ((9 <=? c) && (c <=? 13) || (28 <=? c) && (c <=? 32) || (c =? 133) || (c =? 160) || (c =? 5760) ||
   (8192 <=? c) && (c <=? 8202) || (c =? 8232) || (c =? 8233) || (c =? 8239) || (c =? 8287) || (c =? 12288))%N.
Fixpoint lstrip (l : list N) : list N :=
  match l with c :: l' => if is_space c then lstrip l' else l | [] => [] end.
Definition strip (l : list N) : list N := reverse (lstrip (reverse (lstrip l))).
Definition alnum (c : N) : bool :=
  ((48 <=? c) && (c <=? 57) || (65 <=? c) && (c <=? 90) || (97 <=? c) && (c <=? 122))%N.
Definition one_of (s : string) (c : N) : bool := bool_decide (c ∈ chars s).

(** ** [shlex.split(segment, comments=False, posix=True)] *)
Definition dquote : N := 34.
Definition squote : N := 39.
Definition escape : N := 92.
Definition is_quote (c : N) : bool := ((c =? dquote) || (c =? squote))%N.
Definition shlex_space (c : N) : bool := ((c =? 32) || (c =? 9) || (c =? 13) || (c =? 10))%N.
(** The states of [read_token]: between words, in a word, in a quote, after an escape
    met in a word or in a quote. *)
Inductive lex_state := LSpace | LWord | LQuote (q : N) | LEscape (back : option N).
Definition emit (token : list N) (quoted : bool) (rest : list (list N)) : list (list N) :=
  if bool_decide (token ≠ []) || quoted then token :: rest else rest.
Fixpoint shlex_go (l : list N) (st : lex_state) (token : list N) (quoted : bool) : option (list (list N)) :=
  match l with
  | [] => match st with LSpace | LWord => Some (emit token quoted []) | _ => None end
  | c :: l' =>
    match st with
    | LSpace | LWord =>
      if shlex_space c then emit token quoted <$> shlex_go l' LSpace [] false
      else if (c =? escape)%N then shlex_go l' (LEscape None) token quoted
      else if is_quote c then shlex_go l' (LQuote c) token quoted
      else shlex_go l' LWord (token ++ [c])%list quoted
    | LQuote q =>
      if (c =? q)%N then shlex_go l' LWord token true
      else if ((c =? escape) && (q =? dquote))%N then shlex_go l' (LEscape (Some q)) token true
      else shlex_go l' (LQuote q) (token ++ [c])%list true
    | LEscape None => shlex_go l' LWord (token ++ [c])%list quoted
    | LEscape (Some q) =>
      if ((c =? escape) || (c =? q))%N then shlex_go l' (LQuote q) (token ++ [c])%list quoted
      else shlex_go l' (LQuote q) (token ++ [escape; c])%list quoted
    end
  end.
(** [None] is the [ValueError] of a quote or an escape left open. *)
Definition shlex_split (l : list N) : option (list (list N)) := shlex_go l LSpace [] false.

(** ** Segments *)
Definition bar : N := ch "|".
Fixpoint replace_pair (x : N) (l : list N) : list N :=
  match l with
  | a :: l1 =>
    match l1 with
    | b :: l2 => if ((a =? x) && (b =? x))%N then bar :: replace_pair x l2 else a :: replace_pair x l1
    | [] => [a]
    end
  | [] => []
  end.
Fixpoint split_bar (l acc : list N) : list (list N) :=
  match l with
  | [] => [acc]
  | c :: l' => if (c =? bar)%N then acc :: split_bar l' [] else split_bar l' (acc ++ [c])%list
  end.
Definition split_pipeline (command : list N) : list (list N) :=
  let normalized := replace_pair bar (replace_pair (ch "&") command) in
  let normalized := map (λ c, if ((c =? ch ";") || (c =? ch "&"))%N then bar else c) normalized in
  List.filter (λ seg, bool_decide (seg ≠ [])) (map strip (split_bar normalized [])).

Definition TRACKED_READ_COMMANDS : list string :=
  ["cat"; "less"; "more"; "head"; "tail"; "awk"; "sed"; "xargs"; "grep"; "rg"; "ugrep"; "wc"].
Definition BASH_WRAPPER_COMMANDS : list string := ["eval"; "command"; "exec"; "builtin"].
Definition MAX_WRAPPERS : nat := 4.

(** [re.match(r"^[A-Z_][A-Z0-9_]*=", tok)]. *)
Fixpoint env_tail (s : string) : bool :=
  match s with
  | "" => false
  | String "=" _ => true
  | String c s' => let n := N_of_ascii c in
                   ((65 <=? n) && (n <=? 90) || (48 <=? n) && (n <=? 57) || (n =? 95))%N && env_tail s'
  end.
Definition env_assignment (s : string) : bool :=
  match s with
  | "" => false
  | String c s' => let n := N_of_ascii c in ((65 <=? n) && (n <=? 90) || (n =? 95))%N && env_tail s'
  end.

Section detect.
Context (is_tracked : string → bool).

(** The arguments of a command that reads. *)
Fixpoint read_args (args : list string) : list string :=
  match args with
  | [] => []
  | arg :: args' =>
    if String.prefix "-" arg then read_args args'
    else if bool_decide (arg ∈ TRACKED_READ_COMMANDS) then []
    else if is_tracked arg then arg :: read_args args' else read_args args'
  end.
(** The walk to the command word, past [wrappers] words so far. *)
Fixpoint command_word (tokens : list string) (first : bool) (wrappers : nat) : list string :=
  match tokens with
  | [] => []
  | tok :: tokens' =>
    if first && env_assignment tok then command_word tokens' false wrappers
    else if bool_decide (tok ∈ BASH_WRAPPER_COMMANDS) && bool_decide (wrappers < MAX_WRAPPERS)%nat
    then command_word tokens' false (S wrappers)
    else if bool_decide (tok ∈ TRACKED_READ_COMMANDS) then read_args tokens' else []
  end.
Definition detect_in_segment (segment : list N) : list string :=
  match shlex_split segment with
  | None => []
  | Some tokens => command_word (map encode tokens) true 0
  end.

(** ** Inline programs *)
Fixpoint strip_lit (p l : list N) : option (list N) :=
  match p, l with
  | [], _ => Some l
  | x :: p', c :: l' => if (x =? c)%N then strip_lit p' l' else None
  | _ :: _, [] => None
  end.
(** [\s+]. *)
Definition spaces (l : list N) : option (list N) :=
  match l with c :: l' => if is_space c then Some (lstrip l') else None | [] => None end.
(** [.*?] up to the quote that opened it. *)
Fixpoint until (q : N) (l : list N) : option (list N * list N) :=
  match l with
  | [] => None
  | c :: l' => if (c =? q)%N then Some ([], l')
               else match until q l' with Some (b, r) => Some (c :: b, r) | None => None end
  end.
(** One of the three expressions at a position: the quoted body and what follows it. *)
Definition eval_here (name : string) (digit : bool) (flag : string) (l : list N) : option (list N * list N) :=
  match strip_lit (chars name) l with
  | None => None
  | Some l =>
    let l := match l with c :: l' => if digit && (c =? ch "3")%N then l' else l | [] => l end in
    match spaces l with
    | None => None
    | Some l =>
      match strip_lit (chars flag) l with
      | None => None
      | Some l =>
        match spaces l with
        | Some (q :: l) => if is_quote q then until q l else None
        | _ => None
        end
      end
    end
  end.
(** [finditer]; the fuel is the length of the text. *)
Fixpoint eval_bodies (name : string) (digit : bool) (flag : string) (fuel : nat) (l : list N) : list (list N) :=
  match fuel, l with
  | S fuel', _ :: l' =>
    match eval_here name digit flag l with
    | Some (body, rest) => body :: eval_bodies name digit flag fuel' rest
    | None => eval_bodies name digit flag fuel' l'
    end
  | _, _ => []
  end.
Definition TRACKED_EVAL_PATTERNS : list (string * bool * string) :=
  [("python", true, "-c"); ("perl", false, "-e"); ("ruby", false, "-e")].

(** The path-shaped tokens of a body: one candidate for each maximal run of path
    characters, up to the extension after its last dot that has one. *)
Definition path_char (c : N) : bool := alnum c || one_of "_./-" c.
Fixpoint runs (l acc : list N) : list (list N) :=
  match l with
  | [] => [acc]
  | c :: l' => if path_char c then runs l' (acc ++ [c])%list else acc :: runs l' []
  end.
Fixpoint take_alnum (l : list N) : list N :=
  match l with c :: l' => if alnum c then c :: take_alnum l' else [] | [] => [] end.
(** [before] is what was read of the run; a dot at its start has nothing before it. *)
Fixpoint path_token (before l : list N) : option (list N) :=
  match l with
  | [] => None
  | c :: l' =>
    match path_token (before ++ [c])%list l' with
    | Some t => Some t
    | None =>
      if (c =? ch ".")%N && bool_decide (before ≠ []) && bool_decide (take_alnum l' ≠ [])
      then Some (before ++ c :: take_alnum l')%list else None
    end
  end.
Definition path_tokens (body : list N) : list string := map encode (omap (path_token []) (runs body [])).

Fixpoint dedup (seen : list string) (l : list string) : list string :=
  match l with
  | [] => []
  | p :: l' => if bool_decide (p ∈ seen) then dedup seen l' else p :: dedup (p :: seen) l'
  end.
Definition detect_tracked_paths (command : string) : list string :=
  let text := chars command in
  dedup [] (flat_map detect_in_segment (split_pipeline text) ++
    flat_map (λ pat : string * bool * string,
      flat_map (λ body, List.filter is_tracked (path_tokens body)) (eval_bodies pat.1.1 pat.1.2 pat.2 (length text) text))
      TRACKED_EVAL_PATTERNS).
End detect.
