(* ===== verification/Auth.v ===== *)
(** Who may talk to the coordinator: [src/ccs/adapters/claude_code/auth.py], with the
    part of [ipaddress] it uses written out.  The environment is the list of variables
    that are set. *)
From S2P Require Import Prelude Core Substrate Policy BashPaths.
From Stdlib Require Import Ascii.

Open Scope Z_scope.
Open Scope string_scope.

(** ** [ipaddress.ip_address] *)
Inductive IPAddress : Type :=
| IPv4Address (ip : Z)
| IPv6Address (ip : Z) (scope_id : option string).
#[export] Instance ip_eq_dec : EqDecision IPAddress.
Proof. solve_decision. Defined.

Fixpoint digits_in (base : Z) (value : ascii → option Z) (s : string) (acc : Z) : option Z :=
  match s with
  | "" => Some acc
  | String c s' => match value c with Some v => digits_in base value s' (acc * base + v) | None => None end
  end.
Definition dec_digit (c : ascii) : option Z :=
  let n := Z.of_N (N_of_ascii c) in if (48 <=? n)%Z && (n <=? 57)%Z then Some (n - 48) else None.
Definition hex_digit (c : ascii) : option Z :=
  let n := Z.of_N (N_of_ascii c) in
  if (48 <=? n)%Z && (n <=? 57)%Z then Some (n - 48)
  else if (97 <=? n)%Z && (n <=? 102)%Z then Some (n - 87)
  else if (65 <=? n)%Z && (n <=? 70)%Z then Some (n - 55) else None.

Definition parse_octet (s : string) : option Z :=
  if bool_decide (s = "") || bool_decide (3 < String.length s)%nat then None
  else if bool_decide (s ≠ "0") && String.prefix "0" s then None
  else match digits_in 10 dec_digit s 0 with
       | Some n => if bool_decide (n <= 255) then Some n else None
       | None => None
       end.
Definition parse_hextet (s : string) : option Z :=
  if bool_decide (s = "") || bool_decide (4 < String.length s)%nat then None else digits_in 16 hex_digit s 0.

Fixpoint has_char (x : ascii) (s : string) : bool :=
  match s with "" => false | String c s' => Ascii.eqb c x || has_char x s' end.
(** The numbers of a list of parts, most significant first. *)
Fixpoint parts_value (base : Z) (parse : string → option Z) (parts : list string) (acc : Z) : option Z :=
  match parts with
  | [] => Some acc
  | p :: parts' => match parse p with Some n => parts_value base parse parts' (acc * base + n) | None => None end
  end.
Definition ipv4 (s : string) : option Z :=
  let octets := split_on "." s in
  if bool_decide (length octets = 4%nat) then parts_value 256 parse_octet octets 0 else None.

Definition hex4 (n : Z) : string :=
  let digit (k : Z) := String (ascii_of_N (Z.to_N (if (k <? 10)%Z then 48 + k else 87 + k))) "" in
  digit (n / 4096 mod 16) ++ digit (n / 256 mod 16) ++ digit (n / 16 mod 16) ++ digit (n mod 16).
(** The parts with an IPv4 tail spelled as two hextets. *)
Definition v6_parts (s : string) : option (list string) :=
  let parts := split_on ":" s in
  if bool_decide (length parts < 3)%nat then None
  else
    let tail := default "" (last parts) in
    if has_char "." tail then
      match ipv4 tail with
      | Some n => Some (removelast parts ++ [hex4 (n / 65536); hex4 (n mod 65536)])%list
      | None => None
      end
    else Some parts.
(** Where [::] is: the empty parts that are neither first nor last. *)
Definition inner_gaps (parts : list string) : list nat :=
  List.filter (λ i, bool_decide (parts !! i = Some "")) (seq 1 (length parts - 2)).
Definition v6_value (parts : list string) : option Z :=
  let first_empty := bool_decide (head parts = Some "") in
  let last_empty := bool_decide (last parts = Some "") in
  if bool_decide (9 < length parts)%nat then None
  else match inner_gaps parts with
  | [] =>
    if bool_decide (length parts ≠ 8%nat) || first_empty || last_empty then None
    else parts_value 65536 parse_hextet parts 0
  | [skip] =>
    let parts_hi := if first_empty then (skip - 1)%nat else skip in
    let parts_lo := (if last_empty then length parts - skip - 1 - 1 else length parts - skip - 1)%nat in
    if first_empty && bool_decide (parts_hi ≠ 0%nat) || last_empty && bool_decide (parts_lo ≠ 0%nat) then None
    else if bool_decide (8 < parts_hi + parts_lo + 1)%nat then None
    else
      match parts_value 65536 parse_hextet (take parts_hi parts) 0 with
      | Some hi => parts_value 65536 parse_hextet (drop (length parts - parts_lo) parts)
                     (hi * 65536 ^ Z.of_nat (8 - (parts_hi + parts_lo)))
      | None => None
      end
  | _ => None
  end.
Definition ipv6 (s : string) : option IPAddress :=
  match split_on "%" s with
  | [addr] => ip ← (parts ← v6_parts addr; v6_value parts); Some (IPv6Address ip None)
  | [addr; scope_id] =>
    if bool_decide (scope_id = "") then None
    else ip ← (parts ← v6_parts addr; v6_value parts); Some (IPv6Address ip (Some scope_id))
  | _ => None
  end.
(** [None] is the [ValueError]. *)
Definition ip_address (s : string) : option IPAddress :=
  if has_char "/" s then None
  else match ipv4 s with
       | Some n => Some (IPv4Address n)
       | None => ipv6 s
       end.

(** ** Where the coordinator may listen *)
Definition HOST_ALLOWLIST : list string := ["localhost"; "127.0.0.1"].
Definition REMOTE_TRUTHY_ENV_VALUES : list string := ["1"; "true"; "yes"; "on"].
Definition environ : Type := list (string * string).

Definition lower_char (c : N) : N := if ((65 <=? c) && (c <=? 90))%N then (c + 32)%N else c.
Definition serve_env_enabled (env : environ) (name : string) : bool :=
  bool_decide (encode (map lower_char (strip (chars (default "" (dget env name))))) ∈ REMOTE_TRUTHY_ENV_VALUES).
Definition remote_flag_enabled (env : environ) : bool := serve_env_enabled env "CCS_REMOTE_COORDINATOR".
Definition is_loopback_host (host : string) : bool := bool_decide (host ∈ HOST_ALLOWLIST).

Definition in_net (ip network prefix width : Z) : bool := bool_decide (ip / 2 ^ (width - prefix) = network / 2 ^ (width - prefix)).
Definition v4 (a b c d : Z) : Z := ((a * 256 + b) * 256 + c) * 256 + d.
Definition is_private_range (ip : IPAddress) : bool :=
  match ip with
  | IPv4Address n => in_net n (v4 10 0 0 0) 8 32 || in_net n (v4 172 16 0 0) 12 32 || in_net n (v4 192 168 0 0) 16 32
  | IPv6Address n _ => in_net n (64512 * 65536 ^ 7) 7 128
  end.
Definition is_unspecified (ip : IPAddress) : bool := match ip with IPv4Address n | IPv6Address n _ => bool_decide (n = 0) end.

Definition validate_bind_host (env : environ) (host : string) : outcome exn unit :=
  if is_loopback_host host then Ok tt
  else if negb (remote_flag_enabled env) then Raise (ValueError "refusing to bind the coordinator beyond loopback")
  else match ip_address host with
       | None => Raise (ValueError "bind host is not a valid IP address")
       | Some ip =>
         if is_unspecified ip then Raise (ValueError "refusing to bind the coordinator to the wildcard address")
         else if negb (is_private_range ip) then Raise (ValueError "bind host is not an RFC-1918/4193 private-range address")
         else Ok tt
       end.
Definition assert_serve_transport_acknowledged (env : environ) (bind_host : string) : outcome exn unit :=
  if is_loopback_host bind_host then Ok tt
  else if serve_env_enabled env "CCS_TLS_TERMINATED" then Ok tt
  else if serve_env_enabled env "CCS_SERVE_INSECURE" then Ok tt
  else Raise (ValueError "refusing to serve the coordinator bearer on routed bind").
Definition build_host_allowlist (env : environ) (bind_host : string) : outcome exn (list string) :=
  match validate_bind_host env bind_host with
  | Raise e => Raise e
  | Ok _ => Ok (if is_loopback_host bind_host then HOST_ALLOWLIST else HOST_ALLOWLIST ++ [bind_host])%list
  end.

(** ** Each request *)
Definition BEARER_PREFIX : string := "Bearer ".
Fixpoint is_ascii (s : string) : bool :=
  match s with "" => true | String c s' => (N_of_ascii c <? 128)%N && is_ascii s' end.
(** [hmac.compare_digest] refuses text that is not ASCII. *)
Definition verify_bearer (authorization_header : option string) (expected_secret : string) : outcome exn bool :=
  match authorization_header with
  | None => Ok false
  | Some header =>
    if String.prefix BEARER_PREFIX header then
      let presented := drop_prefix BEARER_PREFIX header in
      if is_ascii presented && is_ascii expected_secret then Ok (bool_decide (presented = expected_secret))
      else Raise (TypeError "comparing strings with non-ASCII characters is not supported")
    else Ok false
  end.

(** [s.split(x, 1)]. *)
Fixpoint cut_at (x : ascii) (s : string) : option (string * string) :=
  match s with
  | "" => None
  | String c s' => if Ascii.eqb c x then Some ("", s')
                   else match cut_at x s' with Some (before, after) => Some (String c before, after) | None => None end
  end.
Definition host_from_header (host_header : string) : string :=
  match host_header with
  | String "[" inside =>
    match cut_at "]" inside with
    | None => host_header
    | Some (host, rest) => if bool_decide (rest ≠ "") && negb (String.prefix ":" rest) then host_header else host
    end
  | _ => match cut_at ":" host_header with Some (host, _) => host | None => host_header end
  end.
Definition verify_host (host_header : option string) (allowlist : list string) : bool :=
  match host_header with
  | None => false
  | Some header =>
    if bool_decide (header = "") then false
    else
      let hostname := host_from_header header in
      if bool_decide (hostname ∈ allowlist) then true
      else match ip_address hostname with
           | None => false
           | Some candidate => existsb (λ entry, bool_decide (ip_address entry = Some candidate)) allowlist
           end
  end.
