(* ===== verification/HookPayloads.v ===== *)
(** What the hook endpoints say: JSON values, the boundary validators of
    [src/ccs/adapters/claude_code/coordinator_server.py] and the response builders of
    [src/ccs/adapters/claude_code/hook_payloads.py], with their texts.

    Strings hold UTF-8.  Times are whole seconds; a JSON number that is not an integer
    is kept as [JReal], with the one bit of it that the code looks at. *)
From stdpp Require Import pretty.
From S2P Require Import Prelude Core Hashing Substrate Policy.
From Stdlib Require Import Ascii.

Open Scope Z_scope.
Open Scope string_scope.

(** ** JSON *)
#[warnings="-register-all"]
Inductive json : Type :=
| JNull
| JBool (b : bool)
| JInt (n : Z)
| JReal (is_zero : bool)
| JStr (s : string)
| JArr (items : list json)
| JObj (fields : list (string * json)).

(** [body.get(k)] on an object. *)
Definition jget (body : list (string * json)) (k : string) : json := default JNull (dget body k).
Definition truthy (v : json) : bool :=
  match v with
  | JNull => false
  | JBool b => b
  | JInt n => negb (n =? 0)%Z
  | JReal is_zero => negb is_zero
  | JStr s => negb (bool_decide (s = ""))
  | JArr items => match items with [] => false | _ => true end
  | JObj fields => match fields with [] => false | _ => true end
  end.
(** [v is True], and [v == s] for a string. *)
Definition is_true (v : json) : bool := match v with JBool b => b | _ => false end.
Definition is_str (s : string) (v : json) : bool := match v with JStr t => bool_decide (t = s) | _ => false end.
Definition jopt {A} (f : A → json) (o : option A) : json := match o with Some a => f a | None => JNull end.

(** ** Text *)
Definition str_int (n : Z) : string := pretty n.
Definition newline : string := String (ascii_of_N 10) "".
Fixpoint join (sep : string) (l : list string) : string :=
  match l with [] => "" | [s] => s | s :: l' => s ++ sep ++ join sep l' end.
Definition short (s : string) : string := String.substring 0 8 s.
Fixpoint str_last (s : string) : string :=
  match s with "" => "" | String c "" => String c "" | String _ s' => str_last s' end.

(** [datetime.fromtimestamp(ts, tz=timezone.utc).isoformat()] of a whole second. *)
Definition pad (width : nat) (n : Z) : string :=
  let digits := str_int n in
  String.concat "" (replicate (width - String.length digits) "0") ++ digits.
Definition civil_from_days (days : Z) : Z * Z * Z :=
  let z := days + 719468 in
  let era := z / 146097 in
  let doe := z - era * 146097 in
  let yoe := (doe - doe / 1460 + doe / 36524 - doe / 146096) / 365 in
  let doy := doe - (365 * yoe + yoe / 4 - yoe / 100) in
  let mp := (5 * doy + 2) / 153 in
  let m := if (mp <? 10)%Z then mp + 3 else mp - 9 in
  (yoe + era * 400 + (if (m <=? 2)%Z then 1 else 0), m, doy - (153 * mp + 2) / 5 + 1).
Definition iso_utc (ts : Z) : string :=
  let '(y, m, d) := civil_from_days (ts / 86400) in
  let secs := ts mod 86400 in
  pad 4 y ++ "-" ++ pad 2 m ++ "-" ++ pad 2 d ++ "T" ++
  pad 2 (secs / 3600) ++ ":" ++ pad 2 (secs / 60 mod 60) ++ ":" ++ pad 2 (secs mod 60) ++ "+00:00".

(** ** Validators *)
Definition hex_char (c : ascii) : bool :=
  let n := N_of_ascii c in ((48 <=? n) && (n <=? 57) || (97 <=? n) && (n <=? 102) || (65 <=? n) && (n <=? 70))%N.
(** [n] characters of a class; what is left of the text. *)
Fixpoint take_class (p : ascii → bool) (n : nat) (s : string) : option string :=
  match n, s with
  | O, _ => Some s
  | S n', String c s' => if p c then take_class p n' s' else None
  | S _, "" => None
  end.
(** Groups of hexadecimal digits with hyphens between them. *)
Fixpoint hex_groups (sizes : list nat) (s : string) : option string :=
  match sizes with
  | [] => Some s
  | [n] => take_class hex_char n s
  | n :: sizes' => match take_class hex_char n s with Some (String "-" s') => hex_groups sizes' s' | _ => None end
  end.
(** [$] at the end of an expression used with [match]. *)
Definition at_end (s : string) : bool := bool_decide (s = "" ∨ s = newline).
Definition session_id_re (s : string) : bool :=
  match hex_groups [8; 4; 4; 4; 12]%nat s with Some rest => at_end rest | None => false end.
Definition content_hash_re (s : string) : bool :=
  match take_class hex_char 64 s with Some rest => at_end rest | None => false end.

Inductive session_id_error : Type := MISSING | MALFORMED.
Definition validate_session_id (v : json) : option (session_id_error * string) :=
  match v with
  | JStr s => if session_id_re s then None else Some (MALFORMED, "session_id must be a UUID (8-4-4-4-12 hex with hyphens)")
  | _ => Some (MISSING, "missing session_id")
  end.

Definition MAX_PATH_LEN : Z := 1024.
Fixpoint has_control (s : string) : bool :=
  match s with
  | "" => false
  | String c s' => let n := N_of_ascii c in ((n <? 32) || (n =? 127))%N || has_control s'
  end.
Definition path_problem (path : string) : option string :=
  if bool_decide (path = "") then Some "path is empty"
  else if bool_decide (MAX_PATH_LEN < text_len path) then Some "path exceeds 1024 chars"
  else if String.prefix "/" path then Some "path must be relative (no leading /)"
  else if String.prefix (String backslash "") path then Some "path must be relative (no leading \)"
  else if has_control path then Some "path contains control characters"
  else if bool_decide (".." ∈ split_on "/" (posix path)) then Some "path contains '..' traversal"
  else None.
Definition validate_path (v : json) : option string :=
  match v with JStr path => path_problem path | _ => Some "path must be a string" end.
(** The message of the four hook endpoints. *)
Definition path_message (reason : string) : string :=
  if bool_decide (reason = "path is empty" ∨ reason = "path must be a string") then "missing or empty path" else reason.

Definition validate_content_hash (v : json) (required : bool) : option string :=
  match v with
  | JNull => if required then Some "content_hash must be a string" else None
  | JStr s => if bool_decide (s = "") then Some "content_hash is empty (omit the field instead if unknown)"
              else if content_hash_re s then None
              else Some "content_hash must be 64 hex characters (sha-256)"
  | _ => Some "content_hash must be a string"
  end.

(** ** Identities *)
Definition subagent_char (c : ascii) : bool :=
  let n := N_of_ascii c in
  ((48 <=? n) && (n <=? 57) || (97 <=? n) && (n <=? 122) || (65 <=? n) && (n <=? 90) || (n =? 95) || (n =? 45))%N.
Fixpoint all_class (p : ascii → bool) (s : string) : bool :=
  match s with "" => true | String c s' => p c && all_class p s' end.
(** [fullmatch]. *)
Definition subagent_id_re (s : string) : bool :=
  all_class subagent_char s && bool_decide (s ≠ "") && bool_decide (String.length s <= 64)%nat.
Definition raw_subagent_id_value (body : list (string * json)) : json :=
  match dget body "agent_id" with Some v => v | None => jget body "agentId" end.
Definition read_subagent_id (body : list (string * json)) : option string :=
  match raw_subagent_id_value body with
  | JStr s => if subagent_id_re s then Some s else None
  | _ => None
  end.
Definition has_subagent_id_field (body : list (string * json)) : bool :=
  match raw_subagent_id_value body with JNull | JStr "" => false | _ => true end.

Definition session_to_agent_name (session_id : string) (subagent_id : option string) : string :=
  match subagent_id with
  | Some aid => "claude-session-" ++ session_id ++ ":subagent-" ++ aid
  | None => "claude-session-" ++ session_id
  end.
(** [subagent_id] is [None] or a non-empty match of [subagent_id_re]. *)
Definition session_to_agent_id (session_id : string) (subagent_id : option string) : UUID :=
  uuid5 NAMESPACE_URL ("ccs-agent:" ++ session_to_agent_name session_id subagent_id).
Definition SWEEP_RECLAMATION_PREEMPTER_ID : UUID :=
  uuid5 NAMESPACE_URL "ccs-coordinator-sweep:stable-grant-reclamation".

(** The attribution a name stands for: the subagent, else the session. *)
Fixpoint after_mark (mark s : string) : option string :=
  if String.prefix mark s then Some (drop_prefix mark s)
  else match s with "" => None | String _ s' => after_mark mark s' end.
Definition name_to_session (name : string) : option string :=
  if String.prefix "claude-session-" name then
    let rest := drop_prefix "claude-session-" name in
    Some (default rest (after_mark ":subagent-" rest))
  else None.

(** ** Envelopes ([hook_payloads.py]) *)
Definition TERMINAL_DENIAL_CLASSES : list string := ["permissions_deny_strict_mode"].

(** The envelope, when [denial_class] is not terminal. *)
Definition allow_envelope (additional_context : option string) : json :=
  JObj ([("hookEventName", JStr "PreToolUse"); ("permissionDecision", JStr "allow")] ++
        match additional_context with Some text => [("additionalContext", JStr text)] | None => [] end)%list.
Definition emit_allow (additional_context denial_class : option string) : outcome exn json :=
  if match denial_class with Some c => bool_decide (c ∈ TERMINAL_DENIAL_CLASSES) | None => false end
  then Raise (AssertionError "refused to convert TERMINAL_DENIAL_CLASSES member to allow")
  else Ok (allow_envelope additional_context).

(** The two times are floats in the code and whole seconds here, as all clock readings
    of the coordinator are. *)
Record StaleSummary := mkSummary {
  ss_path : string;
  ss_current_version : Z;
  ss_prior_version_seen_by_session : option Z;
  ss_last_writer_session_id : string;
  ss_last_writer_at_unix_ts : Z;
  ss_warning_generated_at_unix_ts : Z;
  ss_hash_differs : bool;
}.
Definition summary_json (s : StaleSummary) : json :=
  JObj [("path", JStr (ss_path s)); ("current_version", JInt (ss_current_version s));
        ("prior_version_seen_by_session", jopt JInt (ss_prior_version_seen_by_session s));
        ("last_writer_session_id", JStr (ss_last_writer_session_id s));
        ("last_writer_at_unix_ts", JInt (ss_last_writer_at_unix_ts s));
        ("warning_generated_at_unix_ts", JInt (ss_warning_generated_at_unix_ts s));
        ("hash_differs", JBool (ss_hash_differs s))].

(** [STRICT_MODE_DENY_REASON_TEMPLATE.format(...)]. *)
Definition deny_reason (path last_writer_short last_writer_ts_iso : string) : string :=
  "Stale read denied: " ++ path ++ " was updated by session " ++ last_writer_short ++
  " at " ++ last_writer_ts_iso ++ ". Re-read " ++ path ++ " via the Read tool before " ++
  "proceeding. This denial is structural (v0.2 strict mode); retrying " ++
  "the same operation will produce the same denial.".
Definition emit_strict_deny (summary : StaleSummary) : json :=
  let full := if bool_decide (ss_last_writer_session_id summary = "") then "<unknown>" else ss_last_writer_session_id summary in
  let writer := if String.prefix "<" full && bool_decide (str_last full = ">") then full else short full in
  JObj [("hookEventName", JStr "PreToolUse"); ("permissionDecision", JStr "deny");
        ("permissionDecisionReason",
          JStr (deny_reason (ss_path summary) writer (iso_utc (ss_last_writer_at_unix_ts summary))))].

Definition stale_read_warning (s : StaleSummary) : string :=
  let prior_clause := match ss_prior_version_seen_by_session s with
    | Some prior => "you previously saw v" ++ str_int prior
    | None => "this is the first time your session has observed this artifact " ++
              "(another session in this workspace registered it before you)"
    end in
  let divergence := if ss_hash_differs s
    then "Your worktree's current content also differs from the coordinator's " ++
         "last-recorded hash, which suggests in-flight local edits or a different branch checkout."
    else "Your worktree's content matches the last-recorded hash; the divergence " ++
         "is purely about version-tracking metadata." in
  "⚠ Stale read [warning emitted " ++ iso_utc (ss_warning_generated_at_unix_ts s) ++ "]: " ++ ss_path s ++
  " was updated by session " ++ short (ss_last_writer_session_id s) ++ " at " ++ iso_utc (ss_last_writer_at_unix_ts s) ++
  ". Current version is v" ++ str_int (ss_current_version s) ++ "; " ++ prior_clause ++ ". " ++ divergence ++
  " Consider re-reading " ++ ss_path s ++ " before acting on stale assumptions.".

(** [detected] is the clock when the message is built. *)
Definition edit_collision_warning (holder_session_id : string) (holder_acquired_at detected : Z) (path : string) : string :=
  "⚠ Concurrent edit detected at " ++ iso_utc detected ++ " (UTC): another session (" ++ short holder_session_id ++
  ") has been editing " ++ path ++ " since " ++ iso_utc holder_acquired_at ++
  ". Your edit will land in your own worktree, but only one session's " ++
  "commit will be accepted by the coordinator. Consider waiting for the " ++
  "other session to finish or coordinating which one should proceed.".

Definition build_stale_response (summary : StaleSummary) : outcome exn (list (string * json)) :=
  match emit_allow (Some (stale_read_warning summary)) None with
  | Ok envelope => Ok [("hookSpecificOutput", envelope); ("status", JStr "stale"); ("summary", summary_json summary)]
  | Raise e => Raise e
  end.
Definition build_collision_response (holder_session_id : string) (holder_acquired_at detected : Z) (path : string)
    : outcome exn (list (string * json)) :=
  match emit_allow (Some (edit_collision_warning holder_session_id holder_acquired_at detected path)) None with
  | Ok envelope => Ok [("hookSpecificOutput", envelope); ("ok", JBool true); ("collision", JBool true)]
  | Raise e => Raise e
  end.

Definition SESSION_START_HEADER : string := "Post-compaction re-grounding (agent-coherence):".
Definition session_start_grant_line (state path : string) (version : Z) : string :=
  "At compaction you held " ++ state ++ " on " ++ path ++ " (v" ++ str_int version ++ ") — re-acquire before writing.".
Definition session_start_stale_line (path : string) (current last : Z) : string :=
  path ++ " advanced to v" ++ str_int current ++ " past your last-observed v" ++ str_int last ++
  " — re-read before relying on it.".
Definition session_start_touched_line (path : string) (current : Z) : string :=
  path ++ " is at v" ++ str_int current ++ ".".
Definition session_start_overflow_line (count : Z) : string :=
  "Plus " ++ str_int count ++ " more — run agent-coherence-status for the full picture.".
Definition session_start_subagent_prefix (name : string) : string := "Subagent " ++ name ++ ":".
Definition SESSION_START_CLOSING_LINE : string :=
  "Versions are as of this re-grounding; a more recent read supersedes this notice.".
Definition emit_pretooluse_context (text : string) : json :=
  JObj [("hookEventName", JStr "PreToolUse"); ("additionalContext", JStr text)].
Definition emit_session_start (text : string) : json :=
  JObj [("hookEventName", JStr "SessionStart"); ("additionalContext", JStr text)].

(** The texts agree with CPython's. *)
Example iso_examples : map iso_utc [0; 951782400; 1763287530; 4102444799] =
  ["1970-01-01T00:00:00+00:00"; "2000-02-29T00:00:00+00:00"; "2025-11-16T10:05:30+00:00"; "2099-12-31T23:59:59+00:00"].
Proof. by vm_compute. Qed.
