(* ===== verification/Hooks.v ===== *)
(** The HTTP coordinator: [src/ccs/adapters/claude_code/coordinator_server.py] over the
    durable registry, with [auth.py].

    [Server] is the coordinator object.  A request is handled from its first byte to its
    answer before the next one starts; what a handler calls runs as its [work] does under
    the watchdog: in time, or late, after the degraded answer went out.  A late run tests
    the abort event where the code does, and [sc_abort] says what it finds there.  The
    map of agent names is one object shared with the registry, which reads it for its
    log, so it is kept in the handle. *)
From S2P Require Import Prelude Core Hashing Registry Service SqliteRegistry DurableService Substrate ObjectStore Policy BashPaths Auth HookPayloads.
From Stdlib Require Import Ascii.

Open Scope Z_scope.
Open Scope string_scope.

Abbreviation fields := (list (string * json)).

(** ** The coordinator object *)
Record Server := mkServer {
  sv_registry : Handle;
  sv_policy : TrackedArtifactPolicy;
  sv_counters : list (string * Z);
  sv_stale_warned_pairs : gset (UUID * UUID);
  sv_recent_strict_denies : list ((string * string) * Z);
  sv_compact_pending : gset string;
  sv_audit_log : list (string * string * string);
  sv_migration_draining : bool;
  sv_shutting_down : bool;
  sv_secret : string;
  sv_host_allowlist : list string;
  (** [time.monotonic], the [uuid4] draws, and what the audit file answers to an append *)
  sv_monotonic : nat → Z;
  sv_monotonic_reads : nat;
  sv_mints : nat → UUID;
  sv_minted : nat;
  sv_append_ok : nat → bool;
}.
#[export] Instance eta_Server : Settable Server :=
  rec_pure mkServer <*> sv_registry <*> sv_policy <*> sv_counters <*> sv_stale_warned_pairs <*> sv_recent_strict_denies
    <*> sv_compact_pending <*> sv_audit_log <*> sv_migration_draining <*> sv_shutting_down <*> sv_secret <*> sv_host_allowlist
    <*> sv_monotonic <*> sv_monotonic_reads <*> sv_mints <*> sv_minted <*> sv_append_ok.

Definition SVM (A : Type) : Type := proc exn Server A.
Definition reg {A} (m : HM A) : SVM A := zoom sv_registry (λ h s, s <| sv_registry := h |>) m.
Definition read_db {A} (f : Db → A) : SVM A := gets (λ s, f (db (sv_registry s))).

Definition monotonic : SVM Z := λ s,
  (Ok (sv_monotonic s (sv_monotonic_reads s)), s <| sv_monotonic_reads ::= S |>).
Definition now_unix : SVM Z := reg time_time.
Definition monotonic_seconds : SVM Z := reg time_time.
Definition uuid4 : SVM UUID := λ s, (Ok (sv_mints s (sv_minted s)), s <| sv_minted ::= S |>).

(** ** Counters and markers *)
Definition bump (name : string) : SVM unit :=
  modify (λ s, s <| sv_counters ::= λ d, dset d name (default 0 (dget d name) + 1) |>).
Definition mark_stale_warned (ag a : UUID) : SVM unit := modify (λ s, s <| sv_stale_warned_pairs ::= union {[(ag, a)]} |>).
Definition consume_stale_marker (ag a : UUID) : SVM bool := λ s,
  if bool_decide ((ag, a) ∈ sv_stale_warned_pairs s)
  then (Ok true, s <| sv_stale_warned_pairs ::= λ g, g ∖ {[(ag, a)]} |>) else (Ok false, s).
Definition record_strict_deny (session_id path : string) : SVM unit :=
  now ← monotonic;
  modify (λ s, s <| sv_recent_strict_denies ::= λ d, dset d (session_id, path) now |>).
Definition mark_compact_pending (session_id : string) : SVM unit :=
  modify (λ s, s <| sv_compact_pending ::= union {[session_id]} |>).
Definition consume_compact_pending (session_id : string) : SVM bool := λ s,
  if bool_decide (session_id ∈ sv_compact_pending s)
  then (Ok true, s <| sv_compact_pending ::= λ g, g ∖ {[session_id]} |>) else (Ok false, s).
Definition expire_compact_pending (session_id : string) : SVM unit :=
  modify (λ s, s <| sv_compact_pending ::= λ g, g ∖ {[session_id]} |>).

(** [audit_log.append_strict_deny]: [False] when the file's mode drifted or the append
    failed; an append that failed leaves no row, which nothing here reads. *)
Definition append_strict_deny (session_id path tool : string) : SVM bool := λ s,
  (Ok (sv_append_ok s (length (sv_audit_log s))), s <| sv_audit_log ::= λ l, (l ++ [(session_id, path, tool)])%list |>).
Definition audit_deny (session_id path tool : string) : SVM unit :=
  ok ← append_strict_deny session_id path tool;
  when (negb ok) (bump "audit_log_mode_drift_total").

(** ** Sessions *)
Definition agent_names (s : Server) : list (UUID * string) := default [] (h_agent_names (sv_registry s)).
Definition register_session (session_id : string) (subagent_id : option string) : SVM UUID :=
  let ag := session_to_agent_id session_id subagent_id in
  names ← gets agent_names;
  when (negb (dmem names ag))
    (reg (modify (λ h, h <| h_agent_names := Some (dset names ag (session_to_agent_name session_id subagent_id)) |>))) ;;
  mret ag.
Definition agent_id_to_session (names : list (UUID * string)) (ag : UUID) : option string :=
  name ← dget names ag; name_to_session name.

(** The parent first, then the registered subagents by name. *)
Definition by_key {A} : relation (string * A) := λ x y, String.le x.1 y.1.
Definition agents_for_session (names : list (UUID * string)) (session_id : string) : list (UUID * option string) :=
  let prefix := "claude-session-" ++ session_id ++ ":subagent-" in
  let subagents := omap (λ kv : UUID * string,
    if String.prefix prefix kv.2 then Some (drop_prefix prefix kv.2, kv.1) else None) names in
  (session_to_agent_id session_id None, None) ::
  map (λ kv : string * UUID, (kv.2, Some kv.1)) (sorting.merge_sort by_key subagents).

Section handlers.
Context (scan : ∀ A, list A → list A).

(** ** Who wrote last *)
Definition last_writer_session (names : list (UUID * string)) (d : Db) (a : UUID) : option string :=
  match last_writer_for d a with
  | Some w => agent_id_to_session names w
  | None =>
    match List.find (λ kv : UUID * MESIState, bool_decide (kv.2 = MODIFIED)) (sql_get_state_map scan d a) with
    | Some (ag, _) => agent_id_to_session names ag
    | None => None
    end
  end.
Definition last_writer_unix_ts (d : Db) (a : UUID) : option Z := get_artifact_updated_at d a.
(** [x or now_unix()]: a time of 0 is false. *)
Definition or_now (t : option Z) : SVM Z :=
  match t with
  | Some t => if bool_decide (t = 0) then now_unix else mret t
  | None => now_unix
  end.

Definition SHARED_FOREIGN_DENY_LAG_WINDOW_SEC : Z := 5.
Definition is_recent_self_commit_lag (d : Db) (a caller : UUID) (now : Z) : bool :=
  if bool_decide (last_writer_for d a ≠ Some caller) then false
  else match last_writer_unix_ts d a with
       | None => false
       | Some updated_at => bool_decide (now - updated_at <= SHARED_FOREIGN_DENY_LAG_WINDOW_SEC)
       end.

(** ** Texts made from the registry *)
Definition PREEMPTION_PROSE_VERBATIM_CAP : nat := 3.
Definition SESSION_START_ARTIFACT_VERBATIM_CAP : nat := 3.

Definition newest_first : relation (UUID * UUID * Z) := λ x y, y.2 <= x.2.
#[local] Instance newest_first_dec x y : Decision (newest_first x y).
Proof. unfold newest_first. apply _. Defined.
Definition preemption_line (names : list (UUID * string)) (d : Db) (notice : UUID * UUID * Z) : string :=
  let '(a, preempter, ts) := notice in
  let path := match sql_get_artifact d a with Some art => art_name art | None => "<unknown-artifact>" end in
  if bool_decide (preempter = SWEEP_RECLAMATION_PREEMPTER_ID)
  then "  • " ++ path ++ " — reclaimed by the coordinator sweep (heartbeat timeout or max-hold ceiling) at " ++ iso_utc ts ++
       ". Any local edit you made to this file will land in your worktree but is NOT reflected in the coordinator's version. " ++
       "Re-fetch via pre-read and retry."
  else "  • " ++ path ++ " — preempted/revoked by session " ++ short (default "<unknown>" (agent_id_to_session names preempter)) ++
       " at " ++ iso_utc ts ++ ". Any local edit you made to this file will land in your worktree but is NOT reflected in the coordinator's version.".
Definition build_preemption_text (names : list (UUID * string)) (d : Db) (notices : list (UUID * UUID * Z)) : string :=
  let sorted_notices := sorting.merge_sort newest_first notices in
  let overflow := drop PREEMPTION_PROSE_VERBATIM_CAP sorted_notices in
  join newline (["⚠ Coordinator notice: your EXCLUSIVE grant was preempted:"] ++
    map (preemption_line names d) (take PREEMPTION_PROSE_VERBATIM_CAP sorted_notices) ++
    (if bool_decide (overflow = []) then []
     else ["  • Plus " ++ str_int (Z.of_nat (length overflow)) ++ " more preemptions since your last activity; " ++
           "run `/agent-coherence status` (or query GET /status on the coordinator) for the full list."]%string) ++
    ["Re-read affected files before continuing if you need the latest coordinator-tracked version, " ++
     "or proceed knowing your edits remain local-only until you re-acquire and commit."]%string)%list.

Definition state_name (s : MESIState) : string :=
  match s with MODIFIED => "MODIFIED" | EXCLUSIVE => "EXCLUSIVE" | SHARED => "SHARED" | INVALID => "INVALID" end.

(** One agent's line for one artifact it has a row for. *)
Definition session_start_line (d : Db) (ag a : UUID) (path : string) (current : Z) (state : MESIState) : string :=
  if bool_decide (state ≠ INVALID) then session_start_grant_line (state_name state) path current
  else match sql_last_observed_version_for d a ag with
       | Some last =>
         if bool_decide (last < current) && bool_decide (last_writer_for d a ≠ Some ag)
         then session_start_stale_line path current last else session_start_touched_line path current
       | None => session_start_touched_line path current
       end.
Fixpoint take_lines (budget : nat) (groups : list (option string * list string)) : list string :=
  match groups with
  | [] => []
  | (name, lines) :: groups' =>
    match budget with
    | O => []
    | _ => ((match name with Some n => [session_start_subagent_prefix n] | None => [] end) ++ take budget lines ++
            take_lines (budget - length (take budget lines)) groups')%list
    end
  end.
(** The text, and whether the workspace has any artifact. *)
Definition session_start_context (names : list (UUID * string)) (d : Db) (session_id : string) : option string * bool :=
  let agents := agents_for_session names session_id in
  let '(arts, states) := status_snapshot scan d (Some (map fst agents)) in
  let sorted_artifacts := sorting.merge_sort by_key (map (λ ar : UUID * (string * Z), (ar.2.1, (ar.1, ar.2.2))) arts) in
  let rows (ag : UUID) := omap (λ ar : string * (UUID * Z),
    state ← dget (default [] (dget states ar.2.1)) ag; Some (ar, state)) sorted_artifacts in
  let notices := flat_map (λ agent : UUID * option string,
    omap (λ row : (string * (UUID * Z)) * MESIState,
      pending ← peek_preemption_notice d agent.1 row.1.2.1; Some (row.1.2.1, pending.1, pending.2)) (rows agent.1)) agents in
  let groups := List.filter (λ g : option string * list string, negb (bool_decide (g.2 = [])))
    (map (λ agent : UUID * option string, (agent.2,
       map (λ row : (string * (UUID * Z)) * MESIState,
         session_start_line d agent.1 row.1.2.1 row.1.1 row.1.2.2 row.2) (rows agent.1))) agents) in
  let has_state := negb (bool_decide (arts = [])) in
  if bool_decide (groups = []) && bool_decide (notices = []) then (None, has_state)
  else
    let total := length (concat (map snd groups)) in
    (Some (join newline ([SESSION_START_HEADER] ++
      (if bool_decide (notices = []) then [] else [build_preemption_text names d notices]) ++
      take_lines SESSION_START_ARTIFACT_VERBATIM_CAP groups ++
      (if bool_decide (SESSION_START_ARTIFACT_VERBATIM_CAP < total)%nat
       then [session_start_overflow_line (Z.of_nat total - Z.of_nat SESSION_START_ARTIFACT_VERBATIM_CAP)] else []) ++
      [SESSION_START_CLOSING_LINE])%list), has_state).
Definition build_session_start_context (session_id : string) (abort : bool) : SVM (option string * bool) :=
  names ← gets agent_names;
  reg (sql_abort_guard abort (select (λ d, session_start_context names d session_id))).

(** ** Re-grounding after a compaction *)
Definition reground_qualifies (result : fields) : bool :=
  match jget result "hookSpecificOutput" with
  | JNull => is_true (jget result "ok") || is_str "fresh" (jget result "status")
  | JObj hso => is_str "allow" (jget hso "permissionDecision")
  | _ => false
  end.
(** [abort i] is the test before the flag is taken, [abort (S i)] the builder's guard. *)
Definition claim_reground_context (session_id : string) (body : fields) (abort : nat → bool) (i : nat) : SVM (option string) :=
  if has_subagent_id_field body then mret None
  else if abort i then mret None
  else
    pending ← consume_compact_pending session_id;
    if negb pending then mret None
    else catch (built ← build_session_start_context session_id (abort (S i)); mret built.1) (λ _, mret None).
Definition attach_reground (result : fields) (text : string) : fields :=
  match jget result "hookSpecificOutput" with
  | JObj hso =>
    let merged := match dget hso "additionalContext" with
                  | Some (JStr existing) => existing ++ newline ++ newline ++ text
                  | _ => text
                  end in
    dset result "hookSpecificOutput" (JObj (dset hso "additionalContext" (JStr merged)))
  | _ => dset result "hookSpecificOutput" (emit_pretooluse_context text)
  end.
Definition deliver_pending_reground (session_id : string) (body result : fields) (abort : nat → bool) (i : nat) : SVM fields :=
  if negb (reground_qualifies result) then mret result
  else
    text ← claim_reground_context session_id body abort i;
    mret (match text with Some text => attach_reground result text | None => result end).

(** ** The watchdog *)
Record Schedule := mkSchedule { sc_overloaded : bool; sc_timeout : bool; sc_abort : nat → bool }.
Definition in_time : Schedule := mkSchedule false false (λ _, false).

(** A run that outlives its answer.  In the code it goes on beside the requests that
    follow; here it ends before the next one starts. *)
Definition late (m : SVM fields) : SVM unit := λ s,
  match m s with
  | (Ok _, s') => bump "watchdog_late_completion_total" s'
  | (Raise WatchdogAbandoned, s') => bump "watchdog_late_aborts_total" s'
  | (Raise _, s') => (Ok tt, s')
  end.

Definition DEFAULT_DEGRADED_RESPONSE : fields :=
  [("status", JStr "fresh"); ("degraded", JBool true);
   ("hookSpecificOutput", allow_envelope (Some
     ("⚠ Coherence could not verify this file's freshness — the coordinator " ++
      "staleness check timed out under load. Proceeding WITHOUT a stale-read " ++
      "guarantee: if this file is shared with other agents or sessions, " ++
      "re-read it before relying on its contents.")))].
Definition OK_DEGRADED_RESPONSE : fields := [("ok", JBool true); ("degraded", JBool true)].
Definition SESSION_START_DEGRADED_RESPONSE : fields := [].
Definition OCC_DEGRADED_RESPONSE : fields :=
  [("ok", JBool false); ("degraded", JBool true); ("reason", JStr "commit_unconfirmed")].

Definition response : Type := Z * fields.
Definition error (status : Z) (msg : string) : response := (status, [("error", JStr msg)]).

Definition exn_type (e : exn) : string :=
  match e with
  | KeyError _ => "KeyError" | ValueError _ => "ValueError" | AttributeError _ => "AttributeError"
  | AssertionError _ => "AssertionError" | CoherenceError _ => "CoherenceError" | StaleReadGeneration => "StaleReadGeneration"
  | OccCallerTransientError => "OccCallerTransientError" | InvariantViolationError _ => "InvariantViolationError"
  | WatchdogAbandoned => "WatchdogAbandoned" | IntegrityError _ => "IntegrityError" | OperationalError _ => "OperationalError"
  | TypeError _ => "TypeError" | RuntimeError _ => "RuntimeError" | ReadOnlyMutationError => "ReadOnlyMutationError" | _ => "Exception"
  end.
Definition is_coherence_error (e : exn) : bool :=
  match e with
  | CoherenceError _ | StaleReadGeneration | OccCallerTransientError | SessionInvalidated _ | InvalidTransitionError
  | InvariantViolationError _ | CasRetriesExhausted _ _ _ | CheckpointUnknown _ | StaleView | ViewWedged | CommitUnconfirmed
  | CasVersionConflict _ _ => true
  | _ => false
  end.
Definition exn_text (e : exn) : string :=
  match e with CoherenceError msg | InvariantViolationError msg => msg | e => exn_type e end.
Definition refusal (reason : string) : fields := [("ok", JBool false); ("reason", JStr reason)].

Definition run_or_degrade (sc : Schedule) (degraded : fields) (work : (nat → bool) → SVM fields) : SVM response :=
  if sc_overloaded sc then bump "watchdog_queue_overflows_total" ;; mret (error 503 "watchdog queue overloaded")
  else if sc_timeout sc then
    bump "watchdog_timeouts_total" ;; late (work (sc_abort sc)) ;; mret (200, degraded)
  else
    catch (result ← work (λ _, false); mret (200, result))
      (λ e, if is_exception e then mret (200, refusal ("internal: " ++ exn_type e)) else raise e).

Definition fast_path_json (sc : Schedule) (session_id : string) (body base : fields) : SVM response :=
  pending ← gets (λ s, bool_decide (session_id ∈ sv_compact_pending s));
  if negb pending then mret (200, base)
  else if sc_timeout sc then
    bump "watchdog_timeouts_total" ;;
    late (deliver_pending_reground session_id body base (sc_abort sc) 0) ;; mret (200, base)
  else
    result ← deliver_pending_reground session_id body base (λ _, false) 0;
    mret (200, result).

(** The session and the path of a request, or the 400 it is answered with. *)
Definition session_and_path (body : fields) : response + (string * string) :=
  match validate_session_id (jget body "session_id"), validate_path (default (JStr "") (dget body "path")) with
  | Some e, _ => inl (error 400 e.2)
  | None, Some reason => inl (error 400 (path_message reason))
  | None, None =>
    match jget body "session_id", default (JStr "") (dget body "path") with
    | JStr session_id, JStr path => inr (session_id, path)
    | _, _ => inl (error 400 "missing session_id")
    end
  end.

Definition as_str (v : json) : option string := match v with JStr s => Some s | _ => None end.

(** ** Strict denials *)
Definition F_SENTINEL_CONTENT_HASH : string := String.concat "" (replicate 64 "f").

(** The summary of a stale view; [or_now] reads the clock only when it must. *)
Definition stale_summary (a : UUID) (path : string) (version : Z) (prior : option Z) (hash_differs : bool)
    : SVM StaleSummary :=
  names ← gets agent_names;
  writer ← read_db (λ d, last_writer_session names d a);
  updated ← read_db (λ d, last_writer_unix_ts d a);
  ts ← or_now updated;
  generated ← now_unix;
  mret (mkSummary path version prior (default "<unknown>" writer) ts generated hash_differs).

Definition emit_pre_read_strict_deny (ag : UUID) (session_id : string) (a : UUID) (path : string) (summary : StaleSummary)
    : SVM fields :=
  bump "stale_warning_emitted_total" ;;
  mark_stale_warned ag a ;;
  bump "strict_mode_denials_total" ;;
  record_strict_deny session_id path ;;
  audit_deny session_id path "Read" ;;
  mret [("hookSpecificOutput", emit_strict_deny summary); ("status", JStr "stale"); ("summary", summary_json summary)].

(** The notices of an agent, taken and rendered. *)
Definition pop_notice_text (ag : UUID) : SVM (option string) :=
  notices ← reg (pop_pending_notices scan ag);
  if bool_decide (notices = []) then mret None
  else
    names ← gets agent_names;
    text ← read_db (λ d, build_preemption_text names d notices);
    mret (Some text).
(** [resp["hookSpecificOutput"]["additionalContext"] = text + ... + the old one]. *)
Definition prepend_context (result : fields) (text : string) : fields :=
  match jget result "hookSpecificOutput" with
  | JObj hso =>
    let old := match jget hso "additionalContext" with JStr t => t | _ => "" end in
    dset result "hookSpecificOutput" (JObj (dset hso "additionalContext" (JStr (text ++ newline ++ newline ++ old))))
  | _ => result
  end.

(** ** POST /hooks/pre-read *)
Section pre_read.
Context (session_id path : string) (content_hash : option string) (want_generation verify_only : bool) (ag : UUID) (now : Z).

Definition generation_field (gen : Z) : fields := if want_generation then [("owner_generation", JInt gen)] else [].

(** The path is observed for the first time: version 1 is seeded. *)
Definition pre_read_first : SVM fields :=
  let seed := default "" content_hash in
  minted ← uuid4;
  a ← reg (resolve_or_register scan minted path seed);
  reg (sql_set_agent_state a ag SHARED "first_read" now (Some seed)) ;;
  pair ← read_db (λ d, sql_get_artifact_and_generation d a);
  mret (match pair with
        | Some (art, gen) => [("status", JStr "fresh"); ("version", JInt (art_version art))] ++ generation_field gen
        | None => [("status", JStr "fresh"); ("version", JInt 1)]
        end)%list.

Definition differs (recorded : option string) : bool :=
  match content_hash, recorded with
  | Some h, Some h' => bool_decide (h ≠ "" ∧ h' ≠ "" ∧ h ≠ h')
  | _, _ => false
  end.

(** The reader holds a grant: fresh, unless the bytes it read are foreign. *)
Definition pre_read_fresh (a : UUID) (artifact : Artifact) (gen : Z) : SVM fields :=
  let version := art_version artifact in
  let mismatch := differs (art_content_hash artifact) && bool_decide (art_content_hash artifact ≠ Some F_SENTINEL_CONTENT_HASH) in
  let fresh := ([("status", JStr "fresh"); ("version", JInt version)] ++
                (if mismatch then [("hash_differs", JBool true)] else []) ++ generation_field gen)%list in
  if negb mismatch then mret fresh
  else
    bump "fresh_shared_hash_mismatch_total" ;;
    policy ← gets sv_policy;
    if negb (is_strict_mode policy path) then mret fresh
    else
      instant ← now_unix;
      lag ← read_db (λ d, is_recent_self_commit_lag d a ag instant);
      if lag : bool then bump "shared_foreign_lag_suppressed_total" ;; mret fresh
      else
        names ← gets agent_names;
        writer ← read_db (λ d, last_writer_session names d a);
        updated ← read_db (λ d, last_writer_unix_ts d a);
        let ts := match updated with Some t => if bool_decide (t = 0) then instant else t | None => instant end in
        emit_pre_read_strict_deny ag session_id a path
          (mkSummary path version (Some version) (default "<unknown>" writer) ts instant true).

(** The reader has no grant, or lost it. *)
Definition pre_read_stale (a : UUID) (artifact : Artifact) (gen : Z) (state : option MESIState) : SVM fields :=
  let version := art_version artifact in
  let invalid := bool_decide (state = Some INVALID) in
  let prior := if invalid then Some (if bool_decide (0 < version) then version - 1 else 0) else None in
  let hash_differs := differs (art_content_hash artifact) in
  summary ← stale_summary a path version prior hash_differs;
  policy ← gets sv_policy;
  if is_strict_mode policy path && (invalid || bool_decide (state = None) && hash_differs)
  then emit_pre_read_strict_deny ag session_id a path summary
  else
    when (negb verify_only) (reg (sql_set_agent_state a ag SHARED "post_stale_read" now content_hash)) ;;
    resp ← of_outcome (build_stale_response summary);
    let resp := (resp ++ generation_field gen)%list in
    if verify_only then mret resp
    else
      bump "stale_warning_emitted_total" ;;
      mark_stale_warned ag a ;;
      text ← pop_notice_text ag;
      mret (match text with Some text => prepend_context resp text | None => resp end).

Definition pre_read_known (a : UUID) : SVM fields :=
  when (negb verify_only)
    (hit ← consume_stale_marker ag a; when hit (bump "stale_warning_reread_total")) ;;
  pair ← read_db (λ d, sql_get_artifact_and_generation d a);
  state ← read_db (λ d, sql_get_agent_state d a ag);
  match pair with
  | None => raise (AttributeError "version")
  | Some (artifact, gen) =>
    match state with
    | Some (MODIFIED | EXCLUSIVE | SHARED) => pre_read_fresh a artifact gen
    | _ => pre_read_stale a artifact gen state
    end
  end.

Definition pre_read_work : SVM fields :=
  reg (sql_service_record_heartbeat ag now) ;;
  found ← read_db (λ d, lookup_artifact_id_by_name scan d path);
  match found with None => pre_read_first | Some a => pre_read_known a end.

(** A fresh answer carries the pending notices. *)
Definition pre_read_surfacing (body : fields) (abort : nat → bool) : SVM fields :=
  result ← pre_read_work;
  result ← (if negb verify_only && is_str "fresh" (jget result "status") && negb (dmem result "hookSpecificOutput")
            then
              text ← pop_notice_text ag;
              match text with
              | Some text => envelope ← of_outcome (emit_allow (Some text) None);
                             mret (dset result "hookSpecificOutput" envelope)
              | None => mret result
              end
            else mret result);
  deliver_pending_reground session_id body result abort 0.
End pre_read.

Definition handle_pre_read (sc : Schedule) (body : fields) : SVM response :=
  let content_hash := if truthy (jget body "content_hash") then jget body "content_hash" else JNull in
  match session_and_path body, validate_content_hash content_hash false with
  | inl refused, _ => mret refused
  | inr _, Some reason => mret (error 400 reason)
  | inr (session_id, path), None =>
    policy ← gets sv_policy;
    if negb (is_tracked policy path) then fast_path_json sc session_id body [("status", JStr "fresh")]
    else
      ag ← register_session session_id (read_subagent_id body);
      now ← monotonic_seconds;
      run_or_degrade sc DEFAULT_DEGRADED_RESPONSE
        (pre_read_surfacing session_id path (as_str content_hash) (truthy (jget body "want_owner_generation"))
           (truthy (jget body "verify_only")) ag now body)
  end.

(** ** POST /hooks/pre-edit *)
Definition other_writer (ag : UUID) (peer : UUID * MESIState) : bool :=
  negb (bool_decide (peer.1 = ag)) && in_m_or_e (Some peer.2).
Definition exclusive_holder (d : Db) (a exclude_agent : UUID) : option (UUID * option Z) :=
  match List.find (other_writer exclude_agent) (sql_get_state_map scan d a) with
  | Some (other, _) => Some (other, sql_granted_at_tick d other a)
  | None => None
  end.
Definition peers_in_me_excluding (d : Db) (a ag : UUID) : list UUID :=
  map fst (List.filter (other_writer ag) (sql_get_state_map scan d a)).

(** [except CoherenceError as exc: return {"ok": False, "reason": str(exc)}]. *)
Definition refusing {A} (m : SVM A) (k : A → SVM fields) : SVM fields := λ s,
  match m s with
  | (Ok x, s') => k x s'
  | (Raise e, s') => if is_coherence_error e then (Ok (refusal (exn_text e)), s') else (Raise e, s')
  end.

Section pre_edit.
Context (session_id path : string) (ag : UUID) (now : Z).

Definition pre_edit_strict_deny (a : UUID) (version : Z) : SVM fields :=
  summary ← stale_summary a path version (Some (version - 1)) false;
  bump "stale_warning_emitted_total" ;;
  bump "strict_mode_denials_total" ;;
  record_strict_deny session_id path ;;
  audit_deny session_id path "Edit" ;;
  mret [("ok", JBool false); ("hookSpecificOutput", emit_strict_deny summary); ("status", JStr "stale");
        ("summary", summary_json summary)].

Definition pre_edit_answer (holder : option (UUID * option Z)) (notice_text : option string) : SVM fields :=
  match holder with
  | Some (holder_id, granted_at) =>
    names ← gets agent_names;
    acquired ← or_now granted_at;
    detected ← now_unix;
    resp ← of_outcome (build_collision_response (default "<unknown>" (agent_id_to_session names holder_id)) acquired detected path);
    mret (match notice_text with Some text => prepend_context resp text | None => resp end)
  | None =>
    match notice_text with
    | Some text => envelope ← of_outcome (emit_allow (Some text) None);
                   mret [("ok", JBool true); ("hookSpecificOutput", envelope)]
    | None => mret [("ok", JBool true)]
    end
  end.

(** EXCLUSIVE is taken, and the writers it was taken from are told. *)
Definition pre_edit_acquire (a : UUID) (abort : bool) : SVM fields :=
  peers_in_me ← read_db (λ d, peers_in_me_excluding d a ag);
  holder ← read_db (λ d, exclusive_holder d a ag);
  refusing (reg (sql_write scan ag a now abort)) (λ _,
    for_each peers_in_me (λ victim, at_ ← now_unix; reg (record_preemption_notice victim a ag at_)) ;;
    notice_text ← pop_notice_text ag;
    pre_edit_answer holder notice_text).

Definition pre_edit_work (abort : bool) : SVM fields :=
  reg (sql_service_record_heartbeat ag now) ;;
  found ← read_db (λ d, lookup_artifact_id_by_name scan d path);
  a ← match found with
      | Some a => mret a
      | None => minted ← uuid4; reg (resolve_or_register scan minted path "")
      end;
  policy ← gets sv_policy;
  artifact ← read_db (λ d, sql_get_artifact d a);
  editor_state ← read_db (λ d, sql_get_agent_state d a ag);
  match artifact with
  | Some artifact =>
    if is_strict_mode policy path && bool_decide (0 < art_version artifact) && bool_decide (editor_state = Some INVALID)
    then pre_edit_strict_deny a (art_version artifact) else pre_edit_acquire a abort
  | None => pre_edit_acquire a abort
  end.
End pre_edit.

Definition handle_pre_edit (sc : Schedule) (body : fields) : SVM response :=
  match session_and_path body with
  | inl refused => mret refused
  | inr (session_id, path) =>
    policy ← gets sv_policy;
    if negb (is_tracked policy path) then fast_path_json sc session_id body [("ok", JBool true)]
    else
      ag ← register_session session_id (read_subagent_id body);
      now ← monotonic_seconds;
      run_or_degrade sc OK_DEGRADED_RESPONSE (λ abort,
        result ← pre_edit_work session_id path ag now (abort 0%nat);
        deliver_pending_reground session_id body result abort 1)
  end.

(** ** POST /hooks/post-edit *)
Section post_edit.
Context (path : string) (ag : UUID) (now : Z) (abort : bool).

Definition with_current_version (a : UUID) (answer : fields) : SVM fields :=
  artifact ← read_db (λ d, sql_get_artifact d a);
  mret (match artifact with
        | Some artifact => answer ++ [("current_version", JInt (art_version artifact))]
        | None => answer
        end)%list.

Definition post_edit_release (a : UUID) : SVM fields :=
  let released := [("ok", JBool true); ("released", JBool true)] in
  artifact ← read_db (λ d, sql_get_artifact d a);
  match artifact with
  | Some artifact => refusing (reg (sql_invalidate ag a (art_version artifact) ag now abort)) (λ _, mret released)
  | None => mret released
  end.

Definition commit_refused (a : UUID) (e : exn) : SVM fields :=
  popped ← reg (pop_preemption_notice ag a);
  names ← gets agent_names;
  mret (match popped with
        | None => refusal (exn_text e)
        | Some (preempter, at_) =>
          if bool_decide (preempter = SWEEP_RECLAMATION_PREEMPTER_ID) then
            refusal ("commit_not_allowed: your M/E grant on " ++ path ++ " was reclaimed by the coordinator sweep (heartbeat " ++
                     "timeout or max-hold ceiling) at " ++ iso_utc at_ ++ ". Your edit landed in your local worktree but the " ++
                     "coordinator's version was not bumped. Re-fetch the latest via pre-read and retry. " ++
                     "Underlying coordinator error: " ++ exn_text e) ++ [("reclaimed", JBool true)]
          else
            refusal ("commit_not_allowed: your EXCLUSIVE grant on " ++ path ++ " was preempted by session " ++
                     short (default "<unknown>" (agent_id_to_session names preempter)) ++ " at " ++ iso_utc at_ ++
                     ". Your edit landed in your local worktree but will not be reflected in the coordinator's " ++
                     "version. Underlying coordinator error: " ++ exn_text e) ++ [("preempted", JBool true)]
        end)%list.

Definition post_edit_commit (a : UUID) (content_hash : option string) : SVM fields := λ s,
  match reg (sql_commit scan ag a "" now content_hash None abort) s with
  | (Ok _, s') => (bump "intra_task_acquire_release_total" ;; mret [("ok", JBool true)]) s'
  | (Raise StaleReadGeneration, s') => with_current_version a (refusal "stale_read_generation") s'
  | (Raise e, s') => if is_coherence_error e then commit_refused a e s' else (Raise e, s')
  end.

Definition post_edit_work (success : bool) (content_hash : option string) : SVM fields :=
  reg (sql_service_record_heartbeat ag now) ;;
  found ← read_db (λ d, lookup_artifact_id_by_name scan d path);
  match found with
  | None => mret [("ok", JBool true); ("note", JStr "untracked-at-commit")]
  | Some a => if success then post_edit_commit a content_hash else post_edit_release a
  end.
End post_edit.

Definition handle_post_edit (sc : Schedule) (body : fields) : SVM response :=
  let success := truthy (default (JBool true) (dget body "success")) in
  match session_and_path body, validate_content_hash (jget body "content_hash") success with
  | inl refused, _ => mret refused
  | inr _, Some reason => mret (error 400 reason)
  | inr (session_id, path), None =>
    policy ← gets sv_policy;
    if negb (is_tracked policy path) then mret (200, [("ok", JBool true)])
    else
      ag ← register_session session_id (read_subagent_id body);
      now ← monotonic_seconds;
      run_or_degrade sc OK_DEGRADED_RESPONSE (λ abort,
        post_edit_work path ag now (abort 0%nat) success (as_str (jget body "content_hash")))
  end.

(** ** POST /hooks/post-edit-cas *)
Definition reason_text (r : ConflictReason) : string :=
  match r with
  | version_mismatch => "version_mismatch" | other_holder => "other_holder" | stale_read_generation => "stale_read_generation"
  end.
Section post_edit_cas.
Context (path : string) (ag : UUID) (now : Z) (abort : bool) (expected_version : Z) (content_hash : string).

Definition post_edit_cas_commit (a : UUID) : SVM fields := λ s,
  match reg (sql_service_commit_cas scan ag a expected_version content_hash now None None abort) s with
  | (Ok (inl (updated, _)), s') =>
    (bump "intra_task_acquire_release_total" ;; mret [("ok", JBool true); ("version", JInt (art_version updated))]) s'
  | (Ok (inr detail), s') =>
    (Ok (refusal (reason_text (cd_reason detail)) ++ [("current_version", JInt (cd_current_version detail))])%list, s')
  | (Raise OccCallerTransientError, s') => with_current_version a (refusal "caller_in_transient_state") s'
  | (Raise e, s') => if is_coherence_error e then (Ok (refusal (exn_text e)), s') else (Raise e, s')
  end.
Definition post_edit_cas_work : SVM fields :=
  reg (sql_service_record_heartbeat ag now) ;;
  found ← read_db (λ d, lookup_artifact_id_by_name scan d path);
  match found with
  | None => mret [("ok", JBool true); ("note", JStr "untracked-at-commit")]
  | Some a => post_edit_cas_commit a
  end.
End post_edit_cas.

Definition as_version (v : json) : option Z :=
  match v with JInt n => if bool_decide (n < 0) then None else Some n | _ => None end.

Definition handle_post_edit_cas (sc : Schedule) (body : fields) : SVM response :=
  match session_and_path body, validate_content_hash (jget body "content_hash") true, as_version (jget body "expected_version") with
  | inl refused, _, _ => mret refused
  | inr _, Some reason, _ => mret (error 400 reason)
  | inr _, None, None => mret (error 400 "expected_version must be a non-negative integer")
  | inr (session_id, path), None, Some expected_version =>
    policy ← gets sv_policy;
    if negb (is_tracked policy path) then mret (200, [("ok", JBool true)])
    else
      ag ← register_session session_id (read_subagent_id body);
      now ← monotonic_seconds;
      run_or_degrade sc OCC_DEGRADED_RESPONSE (λ abort,
        post_edit_cas_work path ag now (abort 0%nat) expected_version (default "" (as_str (jget body "content_hash"))))
  end.

(** ** POST /hooks/session-stop *)
Section session_stop.
Context (ag : UUID) (now : Z) (abort : nat → bool).

(** One held artifact: released, or left when the service refuses. *)
Definition stop_release (released : list string) (held : nat * UUID) : SVM (list string) :=
  artifact ← read_db (λ d, sql_get_artifact d held.2);
  match artifact with
  | None => mret released
  | Some artifact =>
    catch (reg (sql_invalidate ag held.2 (art_version artifact) ag now (abort held.1)) ;;
           mret (released ++ [art_name artifact])%list)
      (λ e, if is_coherence_error e then mret released else raise e)
  end.
Definition notice_json (names : list (UUID * string)) (d : Db) (notice : UUID * UUID * Z) : json :=
  let '(a, preempter, ts) := notice in
  let session := default "" (agent_id_to_session names preempter) in
  JObj [("path", JStr (match sql_get_artifact d a with Some art => art_name art | None => "<unknown-artifact>" end));
        ("preempter_session_id", JStr session);
        ("preempter_session_short", JStr (if bool_decide (session = "") then "<unknown>" else short session));
        ("preempted_at_unix_ts", JInt ts); ("preempted_at_iso", JStr (iso_utc ts))].
Definition session_stop_work : SVM fields :=
  reg (sql_service_record_heartbeat ag now) ;;
  held ← read_db (λ d, artifacts_held_by_agent scan d ag [EXCLUSIVE; MODIFIED]);
  released ← foldm stop_release (zip (seq 0 (length held)) held) [];
  pending ← reg (pop_pending_notices scan ag);
  names ← gets agent_names;
  notices ← read_db (λ d, map (notice_json names d) pending);
  text ← read_db (λ d, build_preemption_text names d pending);
  let answer := [("ok", JBool true); ("released_artifacts", JArr (map JStr released))] in
  mret (if bool_decide (pending = []) then answer
        else answer ++ [("notices", JArr notices);
          ("hookSpecificOutput", JObj [("hookEventName", JStr "Stop"); ("additionalContext", JStr text)])])%list.
End session_stop.

Definition handle_session_stop (sc : Schedule) (body : fields) : SVM response :=
  match validate_session_id (jget body "session_id"), jget body "session_id" with
  | Some e, _ => mret (error 400 e.2)
  | None, JStr session_id =>
    let subagent_id := read_subagent_id body in
    if bool_decide (subagent_id = None) && has_subagent_id_field body
    then mret (200, [("ok", JBool true); ("released_artifacts", JArr [])])
    else
      when (negb (has_subagent_id_field body)) (expire_compact_pending session_id) ;;
      ag ← register_session session_id subagent_id;
      now ← monotonic_seconds;
      run_or_degrade sc OK_DEGRADED_RESPONSE (session_stop_work ag now)
  | None, _ => mret (error 400 "missing session_id")
  end.

(** ** POST /hooks/session-start *)
Definition session_start_work (session_id : string) (abort : nat → bool) : SVM fields :=
  built ← build_session_start_context session_id (abort 0%nat);
  match built.1 with
  | None => mret []
  | Some text => mark_compact_pending session_id ;; mret [("hookSpecificOutput", emit_session_start text)]
  end.
Definition handle_session_start (sc : Schedule) (body : fields) : SVM response :=
  match validate_session_id (jget body "session_id"), jget body "session_id" with
  | Some e, _ => mret (error 400 e.2)
  | None, JStr session_id =>
    register_session session_id None ;;
    match read_subagent_id body with
    | Some aid => _ ← register_session session_id (Some aid); mret tt
    | None => mret tt
    end ;;
    run_or_degrade sc SESSION_START_DEGRADED_RESPONSE (session_start_work session_id)
  | None, _ => mret (error 400 "missing session_id")
  end.

(** ** POST /hooks/pre-bash and POST /hooks/pre-grep *)
Definition STRICT_DENY_ROUTE_AROUND_WINDOW_SEC : Z := 30.
Definition check_strict_deny_route_around (session_id path : string) : SVM bool :=
  now ← monotonic;
  modify (λ s, s <| sv_recent_strict_denies ::=
    List.filter (λ kt : (string * string) * Z, negb (bool_decide (kt.2 < now - STRICT_DENY_ROUTE_AROUND_WINDOW_SEC))) |>) ;;
  gets (λ s, dmem (sv_recent_strict_denies s) (session_id, path)).

(** What the loop over the paths has gathered: the stale paths with their versions,
    and the summary of the first one that is strict. *)
Abbreviation scanned := (list (string * Z) * option StaleSummary)%type.

Section paths.
Context (ag : UUID) (now : Z).

(** A known path the agent has no valid view of; it is granted SHARED again. *)
Definition scan_stale (trigger path : string) (acc : scanned) (a : UUID) (state : option MESIState) : SVM scanned :=
  artifact ← read_db (λ d, sql_get_artifact d a);
  match artifact with
  | None => raise (AttributeError "version")
  | Some artifact =>
    let version := art_version artifact in
    policy ← gets sv_policy;
    first ← (if bool_decide (acc.2 = None) && is_strict_mode policy path
             then summary ← stale_summary a path version
                    (if bool_decide (state = Some INVALID) then Some (version - 1) else None) false;
                  mret (Some summary)
             else mret acc.2);
    reg (sql_set_agent_state a ag SHARED trigger now None) ;;
    mret ((acc.1 ++ [(path, version)])%list, first)
  end.
Definition scan_known (trigger path : string) (acc : scanned) (a : UUID) : SVM scanned :=
  state ← read_db (λ d, sql_get_agent_state d a ag);
  match state with
  | Some (MODIFIED | EXCLUSIVE | SHARED) => mret acc
  | _ => scan_stale trigger path acc a state
  end.
Definition bash_path (acc : scanned) (path : string) : SVM scanned :=
  found ← read_db (λ d, lookup_artifact_id_by_name scan d path);
  match found with
  | None =>
    minted ← uuid4;
    a ← reg (resolve_or_register scan minted path "");
    reg (sql_set_agent_state a ag SHARED "first_bash_read" now None) ;;
    mret acc
  | Some a => scan_known "post_stale_bash" path acc a
  end.
Definition grep_path (acc : scanned) (path : string) : SVM scanned :=
  found ← read_db (λ d, lookup_artifact_id_by_name scan d path);
  match found with
  | None => mret acc
  | Some a => scan_known "post_stale_grep" path acc a
  end.

Definition stale_paths (stale : list (string * Z)) : json := JArr (map (λ pv : string * Z, JStr pv.1) stale).
Definition paths_str (stale : list (string * Z)) : string :=
  join ", " (map (λ pv : string * Z, pv.1 ++ " (current v" ++ str_int pv.2 ++ ")") stale).
Definition bash_warning (stale : list (string * Z)) : string :=
  "⚠ Bash command reads tracked artifacts that have been updated since your session's last fresh read: " ++ paths_str stale ++
  ". The command will still execute (v0.1.1 is warn-only), but consider re-reading via the Read tool before relying on " ++
  "the output as ground truth.".
Definition grep_warning (stale : list (string * Z)) : string :=
  "⚠ Grep search over tracked artifacts your session has not freshened since peer commits: " ++ paths_str stale ++
  ". The results may reflect outdated content. Consider re-reading via Read before acting on Grep output.".

(** The denial of the whole command. *)
Definition paths_strict_deny (session_id tool : string) (stale : list (string * Z)) (summary : StaleSummary) : SVM fields :=
  bump "stale_warning_emitted_total" ;;
  bump "strict_mode_denials_total" ;;
  (if bool_decide (tool = "Bash")
   then routed ← check_strict_deny_route_around session_id (ss_path summary);
        when routed (bump "strict_mode_routed_around_via_bash_total")
   else mret tt) ;;
  record_strict_deny session_id (ss_path summary) ;;
  audit_deny session_id (ss_path summary) tool ;;
  mret [("hookSpecificOutput", emit_strict_deny summary); ("status", JStr "stale"); ("stale_paths", stale_paths stale)].

Definition paths_allow (warning : list (string * Z) → string) (stale : list (string * Z)) : SVM fields :=
  text ← pop_notice_text ag;
  if bool_decide (stale = []) && bool_decide (text = None) then mret [("status", JStr "fresh")]
  else
    let parts := (match text with Some text => [text] | None => [] end ++
                  (if bool_decide (stale = []) then [] else [warning stale]))%list in
    envelope ← of_outcome (emit_allow (Some (join (newline ++ newline) parts)) None);
    if bool_decide (stale = []) then mret [("hookSpecificOutput", envelope); ("status", JStr "fresh")]
    else
      bump "stale_warning_emitted_total" ;;
      mret [("hookSpecificOutput", envelope); ("status", JStr "stale"); ("stale_paths", stale_paths stale)].

Definition pre_bash_work (session_id : string) (tracked_paths : list string) : SVM fields :=
  reg (sql_service_record_heartbeat ag now) ;;
  found ← foldm bash_path tracked_paths ([], None);
  match found.2 with
  | Some summary => paths_strict_deny session_id "Bash" found.1 summary
  | None => paths_allow bash_warning found.1
  end.
Definition pre_grep_work (session_id : string) (tracked_paths : list string) : SVM fields :=
  reg (sql_service_record_heartbeat ag now) ;;
  found ← foldm grep_path tracked_paths ([], None);
  match found.2 with
  | Some summary => paths_strict_deny session_id "Grep" found.1 summary
  | None => paths_allow grep_warning found.1
  end.
End paths.

Definition MAX_COMMAND_LEN : Z := 16384.
Definition handle_pre_bash (sc : Schedule) (body : fields) : SVM response :=
  match validate_session_id (jget body "session_id"), jget body "session_id", jget body "command" with
  | Some e, _, _ => mret (error 400 e.2)
  | None, JStr session_id, JStr command =>
    if bool_decide (strip (chars command) = []) then mret (error 400 "missing or empty command")
    else if bool_decide (MAX_COMMAND_LEN < text_len command) then mret (error 413 "command too long")
    else
      policy ← gets sv_policy;
      let tracked_paths := detect_tracked_paths (is_tracked policy) command in
      if bool_decide (tracked_paths = []) then fast_path_json sc session_id body [("status", JStr "fresh")]
      else
        ag ← register_session session_id (read_subagent_id body);
        now ← monotonic_seconds;
        run_or_degrade sc DEFAULT_DEGRADED_RESPONSE (λ abort,
          result ← pre_bash_work ag now session_id tracked_paths;
          deliver_pending_reground session_id body result abort 0)
  | None, _, _ => mret (error 400 "missing or empty command")
  end.
Definition handle_pre_grep (sc : Schedule) (body : fields) : SVM response :=
  let search_root := default (JStr "") (dget body "search_root") in
  match validate_session_id (jget body "session_id"), jget body "session_id",
        (if is_str "" search_root then None else validate_path search_root), search_root with
  | Some e, _, _, _ => mret (error 400 e.2)
  | None, _, Some reason, _ => mret (error 400 reason)
  | None, JStr session_id, None, JStr search_root =>
    tracked_paths ← read_db (λ d, artifact_names_under_prefix scan d search_root);
    if bool_decide (tracked_paths = []) then fast_path_json sc session_id body [("status", JStr "fresh")]
    else
      ag ← register_session session_id (read_subagent_id body);
      now ← monotonic_seconds;
      run_or_degrade sc DEFAULT_DEGRADED_RESPONSE (λ abort,
        result ← pre_grep_work ag now session_id tracked_paths;
        deliver_pending_reground session_id body result abort 0)
  | None, _, None, _ => mret (error 400 "missing session_id")
  end.

(** ** The dispatcher *)

(** A request: its line, the headers the code reads, and its body as [json.loads]
    gives it.  [rq_content_length] is [None] when the header is no number (a missing
    header is 0), [rq_json] when the bytes are no UTF-8 JSON. *)
Record HookRequest := mkRequest {
  rq_method : string;
  rq_path : string;
  rq_host : option string;
  rq_authorization : option string;
  rq_content_length : option Z;
  rq_json : option json;
}.
Definition MAX_REQUEST_BODY_BYTES : Z := 64 * 1024.
Definition read_json (rq : HookRequest) : response + fields :=
  match rq_content_length rq with
  | None => inl (error 400 "invalid Content-Length")
  | Some n =>
    if bool_decide (n <= 0) then inl (error 400 "missing or empty body (Content-Length:0)")
    else if bool_decide (MAX_REQUEST_BODY_BYTES < n)
    then inl (error 413 ("request body exceeds " ++ str_int MAX_REQUEST_BODY_BYTES ++ " bytes (Content-Length=" ++ str_int n ++ ")"))
    else match rq_json rq with
         | None => inl (error 400 "invalid json")
         | Some (JObj obj) => inr obj
         | Some _ => inl (error 400 "body must be a JSON object")
         end
  end.

Definition handler : Type := Schedule → HookRequest → SVM response.
Definition with_body (handle : Schedule → fields → SVM response) : handler := λ sc rq,
  match read_json rq with
  | inl refused => mret refused
  | inr body => handle sc body
  end.

(** The eight routes of [_ROUTES] under [/hooks]. *)
Definition HOOK_ROUTES : list ((string * string) * handler) :=
  [(("POST", "/hooks/pre-read"), with_body handle_pre_read);
   (("POST", "/hooks/pre-edit"), with_body handle_pre_edit);
   (("POST", "/hooks/post-edit"), with_body handle_post_edit);
   (("POST", "/hooks/post-edit-cas"), with_body handle_post_edit_cas);
   (("POST", "/hooks/session-stop"), with_body handle_session_stop);
   (("POST", "/hooks/session-start"), with_body handle_session_start);
   (("POST", "/hooks/pre-bash"), with_body handle_pre_bash);
   (("POST", "/hooks/pre-grep"), with_body handle_pre_grep)].
(** The fourteen other keys of [_ROUTES]; their handlers are not modelled. *)
Definition OTHER_ROUTES : list (string * string) :=
  [("POST", "/policy/track"); ("POST", "/policy/untrack"); ("POST", "/session/begin"); ("POST", "/session/read");
   ("POST", "/session/commit"); ("POST", "/session/commit_all"); ("POST", "/session/heartbeat"); ("POST", "/workspace/checkpoint");
   ("GET", "/workspace/checkpoints"); ("POST", "/workspace/restore/status"); ("POST", "/workspace/restore/member");
   ("POST", "/workspace/restore/register"); ("GET", "/status"); ("POST", "/admin/prepare-for-migration")].
(** A route table: the hook handlers, and anything under the other keys. *)
Definition route_table (routes : list ((string * string) * handler)) : Prop :=
  ∀ key, key ∉ OTHER_ROUTES → dget routes key = dget HOOK_ROUTES key.
Definition MIGRATION_REJECTED_ROUTES : list (string * string) :=
  [("POST", "/hooks/pre-edit"); ("POST", "/hooks/post-edit-cas"); ("POST", "/session/commit"); ("POST", "/session/commit_all");
   ("POST", "/workspace/restore/register")].
Definition ENDPOINT_COUNTER_NAMES : list ((string * string) * string) :=
  [(("POST", "/hooks/pre-read"), "pre_read_total"); (("POST", "/hooks/pre-edit"), "pre_edit_total");
   (("POST", "/hooks/post-edit"), "post_edit_total"); (("POST", "/hooks/post-edit-cas"), "post_edit_cas_total");
   (("POST", "/hooks/session-stop"), "session_stop_total"); (("POST", "/hooks/session-start"), "session_start_total");
   (("POST", "/hooks/pre-bash"), "pre_bash_total"); (("POST", "/hooks/pre-grep"), "pre_grep_total");
   (("POST", "/policy/track"), "policy_track_total"); (("POST", "/policy/untrack"), "policy_untrack_total");
   (("GET", "/status"), "status_total")].

Definition route_path (raw_path : string) : string :=
  match cut_at "?" raw_path with Some (route, _) => route | None => raw_path end.

Definition rq_route (rq : HookRequest) : string * string := (rq_method rq, route_path (rq_path rq)).

(** One request that passed the checks, with the routes of the coordinator. *)
Definition route_request (routes : list ((string * string) * handler)) (sc : Schedule) (rq : HookRequest) : SVM response :=
  let route := (rq_method rq, route_path (rq_path rq)) in
  match dget routes route with
  | None => mret (error 404 ("unknown route " ++ rq_method rq ++ " " ++ route_path (rq_path rq)))
  | Some handle =>
    draining ← gets sv_migration_draining;
    if draining && bool_decide (route ∈ MIGRATION_REJECTED_ROUTES)
    then mret (error 503 ("coordinator is draining for backend migration; this write was rejected. Retry after the migration " ++
                          "completes and the coordinator restarts."))
    else
      match dget ENDPOINT_COUNTER_NAMES route with Some name => bump name | None => mret tt end ;;
      handle sc rq
  end.
(** [_dispatch]; the count of the requests in flight and the idle clock are left out. *)
Definition dispatch (routes : list ((string * string) * handler)) (sc : Schedule) (rq : HookRequest) : SVM response :=
  shutting_down ← gets sv_shutting_down;
  if shutting_down : bool then mret (error 503 "coordinator shutting down")
  else
    allowlist ← gets sv_host_allowlist;
    if negb (verify_host (rq_host rq) allowlist) then mret (error 403 "host header not allowlisted")
    else
      secret ← gets sv_secret;
      admitted ← of_outcome (verify_bearer (rq_authorization rq) secret);
      if negb admitted then bump "auth_401_total" ;; mret (error 401 "missing or invalid bearer token")
      else
        catch (route_request routes sc rq)
          (λ e, if is_exception e then mret (error 500 ("internal: " ++ exn_type e)) else raise e).
End handlers.
