(* ===== verification/HookFacts.v ===== *)
(** What a request does to the coordinator, whatever it carries and however the
    watchdog, the database and the log behave: the store stays well formed, versions
    only grow, the settings stay, and the answer has the shape of its endpoint. *)
From S2P Require Import Prelude Core Hashing Registry Service SqliteRegistry SqliteFacts DurableService DurableFacts Substrate ObjectStore.
From S2P Require Import Policy BashPaths Auth HookPayloads Hooks.

Open Scope Z_scope.
Open Scope string_scope.

Abbreviation sdb s := (db (sv_registry s)).
Definition settings (s : Server) : TrackedArtifactPolicy * string * list string * bool * bool :=
  (sv_policy s, sv_secret s, sv_host_allowlist s, sv_migration_draining s, sv_shutting_down s).
Definition moves (s s' : Server) : Prop := evolves (sdb s) (sdb s') ∧ settings s' = settings s.
#[export] Instance moves_preorder : PreOrder moves.
Proof.
  split; [by split|]. intros s1 s2 s3 [H1 E1] [H2 E2]. split; [by etrans|congruence].
Qed.

Section moves.
Context (scan : ∀ A, list A → list A) (scan_perm : ∀ A (l : list A), scan A l ≡ₚ l).

Lemma moves_reg {A} (m : HM A) : respects ev m → respects moves (reg m).
Proof. intros Hm s. specialize (Hm (sv_registry s)). unfold reg, zoom. destruct (m (sv_registry s)) as [o h]. by split. Qed.
Lemma moves_same {A} (m : SVM A) : (∀ s, sdb (m s).2 = sdb s ∧ settings (m s).2 = settings s) → respects moves m.
Proof. intros Hm s. destruct (Hm s) as [H1 H2]. split; [by rewrite H1|done]. Qed.
Lemma moves_register sid sub : respects moves (register_session sid sub).
Proof.
  apply moves_same. intros s. unfold register_session, mbind, proc_bind, gets, when. simpl. by destruct (negb _).
Qed.
Lemma moves_clock : respects moves now_unix.
Proof. by apply moves_same. Qed.
Lemma moves_marker ag a : respects moves (consume_stale_marker ag a).
Proof. apply moves_same. intros s. unfold consume_stale_marker. by case_bool_decide. Qed.
Lemma moves_flag sid : respects moves (consume_compact_pending sid).
Proof. apply moves_same. intros s. unfold consume_compact_pending. by case_bool_decide. Qed.
Lemma moves_late m : respects moves m → respects moves (late m).
Proof.
  intros Hm s. unfold late. specialize (Hm s). destruct (m s) as [[x|e] s']; simpl in *; [exact Hm|]. by destruct e.
Qed.
Lemma moves_refusing {A} (m : SVM A) k : respects moves m → (∀ x, respects moves (k x)) → respects moves (refusing m k).
Proof.
  intros Hm Hk s. unfold refusing. specialize (Hm s). destruct (m s) as [[x|e] s']; simpl in *; [by etrans; [|apply Hk]|].
  by destruct (is_coherence_error e).
Qed.

Lemma moves_pure {A} (m : SVM A) : (∀ s, (m s).2 = s) → respects moves m.
Proof. apply respects_pure, _. Qed.
Lemma moves_bump name : respects moves (bump name).
Proof. by apply moves_same. Qed.
Lemma moves_mark ag a : respects moves (mark_stale_warned ag a).
Proof. by apply moves_same. Qed.
Lemma moves_record sid p : respects moves (record_strict_deny sid p).
Proof. by apply moves_same. Qed.
Lemma moves_mint : respects moves uuid4.
Proof. by apply moves_same. Qed.
Lemma moves_audit sid p t : respects moves (audit_deny sid p t).
Proof.
  apply moves_same. intros s. unfold audit_deny, append_strict_deny, mbind, proc_bind. simpl. by destruct (sv_append_ok _ _).
Qed.
Lemma moves_context names sid b : respects moves (reg (sql_abort_guard b (select (λ d, session_start_context scan names d sid)))).
Proof. apply moves_reg. destruct b; apply respects_pure; [apply _|done|apply _|done]. Qed.

(** Follow a handler statement by statement. *)
Ltac moves_go := repeat
  lazymatch goal with
  | |- respects moves (mbind _ _) => apply respects_bind; [apply _| |intros ?]
  | |- respects moves (mret _) => apply moves_pure; intros ?; reflexivity
  | |- respects moves (raise _) => apply moves_pure; intros ?; reflexivity
  | |- respects moves (gets _) => apply moves_pure; intros ?; reflexivity
  | |- respects moves (read_db _) => apply moves_pure; intros ?; reflexivity
  | |- respects moves (of_outcome _) => apply moves_pure; intros ?; reflexivity
  | |- respects moves (bump _) => apply moves_bump
  | |- respects moves (mark_stale_warned _ _) => apply moves_mark
  | |- respects moves (record_strict_deny _ _) => apply moves_record
  | |- respects moves uuid4 => apply moves_mint
  | |- respects moves now_unix => apply moves_clock
  | |- respects moves monotonic_seconds => apply moves_clock
  | |- respects moves (register_session _ _) => apply moves_register
  | |- respects moves (audit_deny _ _ _) => apply moves_audit
  | |- respects moves (consume_stale_marker _ _) => apply moves_marker
  | |- respects moves (consume_compact_pending _) => apply moves_flag
  | |- respects moves (late _) => apply moves_late
  | |- respects moves (refusing _ _) => apply moves_refusing; [|intros ?]
  | |- respects moves (reg (sql_abort_guard _ (select _))) => apply moves_context
  | |- respects moves (reg _) => apply moves_reg; first
      [ apply ev_heartbeat | apply ev_record_notice | apply ev_pop_notices | apply ev_pop_notice | apply ev_resolve
      | apply ev_commit; assumption | apply ev_service_cas; assumption | apply ev_write; assumption | apply ev_invalidate
      | apply ev_set_state; reflexivity ]
  | |- respects moves (for_each _ _) => apply respects_for_each; [apply _|intros ?]
  | |- respects moves (foldm _ _ _) => apply respects_foldm; [apply _|intros ? ?]
  | |- respects moves (catch _ _) => apply respects_catch; [apply _| |intros ?]
  | |- respects moves (when ?b _) => unfold when; destruct b
  | |- respects moves (match ?x with _ => _ end) => destruct x
  | |- respects moves (let _ := _ in _) => cbv zeta
  end.

Lemma moves_reground sid body result abort i : respects moves (deliver_pending_reground scan sid body result abort i).
Proof. unfold deliver_pending_reground, claim_reground_context, build_session_start_context. moves_go. Qed.
Lemma moves_summary a p v pr hd : respects moves (stale_summary scan a p v pr hd).
Proof. unfold stale_summary, or_now. moves_go. Qed.
Lemma moves_notice_text ag : respects moves (pop_notice_text scan ag).
Proof. unfold pop_notice_text. moves_go. Qed.

Ltac moves_all extra := moves_go; repeat (first
  [ apply moves_reground | apply moves_summary | apply moves_notice_text | extra ]; moves_go).

Lemma moves_run sc degraded work : (∀ abort, respects moves (work abort)) → respects moves (run_or_degrade sc degraded work).
Proof. intros Hw. unfold run_or_degrade. moves_all ltac:(apply Hw). Qed.
Lemma moves_fast sc sid body base : respects moves (fast_path_json scan sc sid body base).
Proof. unfold fast_path_json. moves_all fail. Qed.

Lemma moves_deny ag sid a p summary : respects moves (emit_pre_read_strict_deny ag sid a p summary).
Proof. unfold emit_pre_read_strict_deny. moves_go. Qed.
Lemma moves_pre_read sid p ch wg vo ag now body abort : respects moves (pre_read_surfacing scan sid p ch wg vo ag now body abort).
Proof.
  unfold pre_read_surfacing, pre_read_work, pre_read_first, pre_read_known, pre_read_fresh, pre_read_stale.
  moves_all ltac:(apply moves_deny).
Qed.
Lemma moves_pre_edit sid p ag now b : respects moves (pre_edit_work scan sid p ag now b).
Proof using scan_perm.
  unfold pre_edit_work, pre_edit_acquire, pre_edit_strict_deny, pre_edit_answer, or_now. moves_all fail.
Qed.
Lemma moves_current a answer : respects moves (with_current_version a answer).
Proof. unfold with_current_version. moves_go. Qed.
Lemma moves_commit_refused p ag a e : respects moves (commit_refused p ag a e).
Proof. unfold commit_refused. moves_go. Qed.
Lemma moves_post_edit_commit p ag now b a ch : respects moves (post_edit_commit scan p ag now b a ch).
Proof using scan_perm.
  intros s. pose proof (moves_reg _ (ev_commit scan scan_perm ag a "" now ch None b) s) as Hm. unfold post_edit_commit.
  destruct (reg _ s) as [[x|e] s']; cbn [snd] in Hm; (etrans; [exact Hm|]).
  - apply (moves_bump _ s').
  - destruct e; try (simpl; reflexivity); try apply (moves_commit_refused p ag a _ s'); apply (moves_current a _ s').
Qed.
Lemma moves_post_edit p ag now b ok ch : respects moves (post_edit_work scan p ag now b ok ch).
Proof using scan_perm. unfold post_edit_work, post_edit_release. moves_all ltac:(apply moves_post_edit_commit). Qed.
Lemma moves_cas_commit ag now b e h a : respects moves (post_edit_cas_commit scan ag now b e h a).
Proof using scan_perm.
  intros s.
  pose proof (moves_reg _ (ev_service_cas scan scan_perm ag a e h now None b) s) as Hm. unfold post_edit_cas_commit.
  destruct (reg _ s) as [[[[u sigs]|detail]|x] s']; cbn [snd] in Hm; (etrans; [exact Hm|]).
  - apply (moves_bump _ s').
  - simpl. reflexivity.
  - destruct x; try (simpl; reflexivity); apply (moves_current a _ s').
Qed.
Lemma moves_post_edit_cas p ag now b e h : respects moves (post_edit_cas_work scan p ag now b e h).
Proof using scan_perm. unfold post_edit_cas_work. moves_all ltac:(apply moves_cas_commit). Qed.
Lemma moves_session_stop ag now abort : respects moves (session_stop_work scan ag now abort).
Proof. unfold session_stop_work, stop_release. moves_all fail. Qed.
Lemma moves_session_start sid abort : respects moves (session_start_work scan sid abort).
Proof.
  unfold session_start_work, build_session_start_context, mark_compact_pending. moves_go. by apply moves_same.
Qed.
Lemma moves_route_around sid p : respects moves (check_strict_deny_route_around sid p).
Proof. by apply moves_same. Qed.
Lemma moves_paths_deny sid tool stale summary : respects moves (paths_strict_deny sid tool stale summary).
Proof. unfold paths_strict_deny. moves_all ltac:(apply moves_route_around). Qed.
Lemma moves_paths_allow ag warning stale : respects moves (paths_allow scan ag warning stale).
Proof. unfold paths_allow. moves_all fail. Qed.
Lemma moves_scan_known ag now tr p acc a : respects moves (scan_known scan ag now tr p acc a).
Proof. unfold scan_known, scan_stale. moves_all fail. Qed.
Lemma moves_pre_bash ag now sid ps : respects moves (pre_bash_work scan ag now sid ps).
Proof.
  unfold pre_bash_work, bash_path. moves_all ltac:(first [apply moves_paths_deny | apply moves_paths_allow | apply moves_scan_known]).
Qed.
Lemma moves_pre_grep ag now sid ps : respects moves (pre_grep_work scan ag now sid ps).
Proof.
  unfold pre_grep_work, grep_path. moves_all ltac:(first [apply moves_paths_deny | apply moves_paths_allow | apply moves_scan_known]).
Qed.

(** ** A whole request *)
Lemma moves_expire sid : respects moves (expire_compact_pending sid).
Proof. apply moves_same. intros s. split; reflexivity. Qed.
Ltac moves_endpoint := moves_go; repeat (
  lazymatch goal with
  | |- respects moves (run_or_degrade _ _ _) => apply moves_run; intros ?
  | |- respects moves (fast_path_json _ _ _ _ _) => apply moves_fast
  | |- respects moves (deliver_pending_reground _ _ _ _ _ _) => apply moves_reground
  | |- respects moves (pre_read_surfacing _ _ _ _ _ _ _ _ _ _) => apply moves_pre_read
  | |- respects moves (pre_edit_work _ _ _ _ _ _) => apply moves_pre_edit
  | |- respects moves (post_edit_work _ _ _ _ _ _ _) => apply moves_post_edit
  | |- respects moves (post_edit_cas_work _ _ _ _ _ _ _) => apply moves_post_edit_cas
  | |- respects moves (session_stop_work _ _ _ _) => apply moves_session_stop
  | |- respects moves (session_start_work _ _ _) => apply moves_session_start
  | |- respects moves (pre_bash_work _ _ _ _ _) => apply moves_pre_bash
  | |- respects moves (pre_grep_work _ _ _ _ _) => apply moves_pre_grep
  | |- respects moves (expire_compact_pending _) => apply moves_expire
  end; moves_go).
Lemma moves_body handle sc rq : (∀ body, respects moves (handle sc body)) → respects moves (with_body handle sc rq).
Proof. intros Hh. unfold with_body. destruct (read_json rq); [by apply moves_pure|apply Hh]. Qed.
Lemma moves_handle_pre_read sc body : respects moves (handle_pre_read scan sc body).
Proof. unfold handle_pre_read. moves_endpoint. Qed.
Lemma moves_handle_pre_edit sc body : respects moves (handle_pre_edit scan sc body).
Proof using scan_perm. unfold handle_pre_edit. moves_endpoint. Qed.
Lemma moves_handle_post_edit sc body : respects moves (handle_post_edit scan sc body).
Proof using scan_perm. unfold handle_post_edit. moves_endpoint. Qed.
Lemma moves_handle_post_edit_cas sc body : respects moves (handle_post_edit_cas scan sc body).
Proof using scan_perm. unfold handle_post_edit_cas. moves_endpoint. Qed.
Lemma moves_handle_session_stop sc body : respects moves (handle_session_stop scan sc body).
Proof. unfold handle_session_stop. moves_endpoint. Qed.
Lemma moves_handle_session_start sc body : respects moves (handle_session_start scan sc body).
Proof. unfold handle_session_start. moves_endpoint. Qed.
Lemma moves_handle_pre_bash sc body : respects moves (handle_pre_bash scan sc body).
Proof. unfold handle_pre_bash. moves_endpoint. Qed.
Lemma moves_handle_pre_grep sc body : respects moves (handle_pre_grep scan sc body).
Proof. unfold handle_pre_grep. moves_endpoint. Qed.
Lemma moves_handlers : Forall (λ rh, ∀ sc rq, respects moves (rh.2 sc rq)) (HOOK_ROUTES scan).
Proof using scan_perm.
  unfold HOOK_ROUTES. repeat (apply Forall_cons; split); try apply Forall_nil_2; intros sc rq; apply moves_body; intros body; cbn [snd].
  - apply moves_handle_pre_read.
  - apply moves_handle_pre_edit.
  - apply moves_handle_post_edit.
  - apply moves_handle_post_edit_cas.
  - apply moves_handle_session_stop.
  - apply moves_handle_session_start.
  - apply moves_handle_pre_bash.
  - apply moves_handle_pre_grep.
Qed.
Lemma moves_route sc rq : respects moves (route_request (HOOK_ROUTES scan) sc rq).
Proof using scan_perm.
  unfold route_request. destruct (dget (HOOK_ROUTES scan) _) as [handle|] eqn:Eh; moves_go.
  all: by apply (proj1 (Forall_forall _ _) moves_handlers (_, _) (dget_Some_elem _ _ _ Eh)).
Qed.
Lemma moves_dispatch sc rq : respects moves (dispatch (HOOK_ROUTES scan) sc rq).
Proof using scan_perm. unfold dispatch. moves_go. apply moves_route. Qed.
End moves.

(** The requests of the modelled routes do not see the rest of the table. *)
Lemma dispatch_hook scan routes sc rq s : route_table scan routes → rq_route rq ∉ OTHER_ROUTES →
  dispatch routes sc rq s = dispatch (HOOK_ROUTES scan) sc rq s.
Proof.
  intros Ht Hr. unfold dispatch, route_request. change (rq_method rq, route_path (rq_path rq)) with (rq_route rq). by rewrite (Ht _ Hr).
Qed.
