(* ===== verification/HookShapes.v ===== *)
(** The answers of the coordinator: every request is answered, with a status the
    clients know and a body of the shape its endpoint documents. *)
From S2P Require Import Prelude Core Hashing Registry Service SqliteRegistry SqliteFacts DurableService DurableFacts Substrate ObjectStore.
From S2P Require Import Policy BashPaths Auth HookPayloads Hooks HookFacts.

Open Scope Z_scope.
Open Scope string_scope.

(** ** Exceptions are ordinary: [except Exception] catches them *)
Definition ordinary {S A} (m : proc exn S A) : Prop := ∀ s e s', m s = (Raise e, s') → is_exception e = true.

Section ordinary.
Context {S : Type}.
Lemma ordinary_bind {A B} (m : proc exn S A) (k : A → proc exn S B) : ordinary m → (∀ x, ordinary (k x)) → ordinary (x ← m; k x).
Proof. intros Hm Hk s e s' [(x & s1 & _ & E)|(e' & E & [= ->])]%bind_inv; [by eapply Hk|by eapply Hm]. Qed.
Lemma ordinary_Ok {A} (m : proc exn S A) : (∀ s, ∃ x s', m s = (Ok x, s')) → ordinary m.
Proof. intros Hm s e s' E. destruct (Hm s) as (x & s1 & E'). congruence. Qed.
Lemma ordinary_raise {A} e : is_exception e = true → ordinary (raise e : proc exn S A).
Proof. by intros He s e' s' [= <- _]. Qed.
Lemma ordinary_of_outcome {A} (o : outcome exn A) : (∀ e, o = Raise e → is_exception e = true) → ordinary (of_outcome o : proc exn S A).
Proof. intros Ho s e s' [= E _]. by apply Ho. Qed.
Lemma ordinary_catch {A} (m : proc exn S A) h : ordinary m → (∀ e, is_exception e = true → ordinary (h e)) → ordinary (catch m h).
Proof.
  intros Hm Hh s e s'. unfold catch. specialize (Hm s). destruct (m s) as [[x|e1] s1]; [done|]. intros E. eapply Hh; [|exact E]. by eapply Hm.
Qed.
Lemma ordinary_foldm {A B} (f : B → A → proc exn S B) l b : (∀ b x, ordinary (f b x)) → ordinary (foldm f l b).
Proof. intros Hf. revert b. induction l as [|x l IH]; intros b; simpl; [by apply ordinary_Ok; eauto|]. by apply ordinary_bind. Qed.
Lemma ordinary_for_each {A} l (f : A → proc exn S unit) : (∀ x, ordinary (f x)) → ordinary (for_each l f).
Proof. intros Hf. induction l as [|x l IH]; simpl; [by apply ordinary_Ok; eauto|]. by apply ordinary_bind. Qed.
End ordinary.

Lemma ordinary_transaction {A} (m : HM A) : ordinary m → ordinary (transaction m).
Proof.
  intros Hm s e s'. unfold transaction, acquire. destruct (h_busy s (h_locks s)); [by intros [= <- _]|].
  destruct ((x ← m; _) _) as [[x|e1] s1] eqn:E1; [done|]. intros [= <- _].
  apply bind_inv in E1 as [(x & s2 & _ & E2)|(e' & E2 & [= ->])]; [|by eapply Hm].
  unfold mbind, proc_bind in E2. destruct (h_busy s2 (h_locks s2)); by simplify_eq/=.
Qed.
Lemma ordinary_logged {A} (m : HM A) : ordinary m → ordinary (logged_transaction m).
Proof.
  intros Hm s e s'. unfold logged_transaction. pose proof (ordinary_transaction m Hm (s <| seq_incremented := 0 |>)) as Ht.
  destruct (transaction m _) as [[x|e1] s1]; [done|]. intros [= <- _]. by eapply Ht.
Qed.
Lemma ordinary_emit a ag f t tr tick v h : ordinary (sql_emit_state_log a ag f t tr tick v h).
Proof. intros s e s'. unfold sql_emit_state_log. destruct (h_state_log s); [|done]. by destruct (_ : bool); intros [= <- _]. Qed.
Lemma ordinary_leaf_select a : ordinary (select_artifact a).
Proof. intros s e s'. unfold select_artifact. by destruct (_ !! _); intros [= <- _]. Qed.
Lemma ordinary_leaf_insert a row : ordinary (insert_artifact a row).
Proof. intros s e s'. unfold insert_artifact. by destruct (_ || _); intros [= <- _]. Qed.
Lemma ordinary_leaf_references a : ordinary (references a).
Proof. intros s e s'. unfold references. by case_bool_decide; intros [= <- _]. Qed.
Lemma ordinary_leaf_rename a n : ordinary (rename_free a n).
Proof. intros s e s'. unfold rename_free. by destruct (_ && _); intros [= <- _]. Qed.
Lemma ordinary_guard : ordinary guard_writable.
Proof. intros s e s'. unfold guard_writable. by destruct (h_read_only s); intros [= <- _]. Qed.

Ltac ordinary_go := repeat
  lazymatch goal with
  | |- ordinary (mbind _ _) => apply ordinary_bind; [|intros ?]
  | |- ordinary (mret _) => apply ordinary_Ok; intros ?; eexists _, _; reflexivity
  | |- ordinary (gets _) => apply ordinary_Ok; intros ?; eexists _, _; reflexivity
  | |- ordinary (select _) => apply ordinary_Ok; intros ?; eexists _, _; reflexivity
  | |- ordinary (modify _) => apply ordinary_Ok; intros ?; eexists _, _; reflexivity
  | |- ordinary (on_db _) => apply ordinary_Ok; intros ?; eexists _, _; reflexivity
  | |- ordinary (update_artifact _ _) => apply ordinary_Ok; intros ?; eexists _, _; reflexivity
  | |- ordinary (update_state _ _) => apply ordinary_Ok; intros ?; eexists _, _; reflexivity
  | |- ordinary (count_conflict_in_txn _ _ _) => apply ordinary_Ok; intros ?; eexists _, _; reflexivity
  | |- ordinary time_time => apply ordinary_Ok; intros ?; eexists _, _; reflexivity
  | |- ordinary (raise _) => first [apply ordinary_raise; reflexivity | apply ordinary_raise; assumption]
  | |- ordinary guard_writable => apply ordinary_guard
  | |- ordinary (transaction _) => apply ordinary_transaction
  | |- ordinary (logged_transaction _) => apply ordinary_logged
  | |- ordinary (sql_emit_state_log _ _ _ _ _ _ _ _) => apply ordinary_emit
  | |- ordinary (select_artifact _) => apply ordinary_leaf_select
  | |- ordinary (insert_artifact _ _) => apply ordinary_leaf_insert
  | |- ordinary (references _) => apply ordinary_leaf_references
  | |- ordinary (rename_free _ _) => apply ordinary_leaf_rename
  | |- ordinary (catch _ _) => apply ordinary_catch; [|intros ? ?]
  | |- ordinary (foldm _ _ _) => apply ordinary_foldm; intros ? ?
  | |- ordinary (for_each _ _) => apply ordinary_for_each; intros ?
  | |- ordinary (when ?b _) => unfold when; destruct b
  | |- ordinary (match ?x with _ => _ end) => destruct x
  | |- ordinary (let _ := _ in _) => cbv zeta
  end.

Section registry.
Context (scan : ∀ A, list A → list A).
Lemma ordinary_set_state a ag st tr tick h : ordinary (sql_set_agent_state a ag st tr tick h).
Proof. unfold sql_set_agent_state, insert_state. ordinary_go. Qed.
Lemma ordinary_transient a ag t tick : ordinary (sql_set_agent_transient a ag t tick).
Proof. unfold sql_set_agent_transient. ordinary_go. Qed.
Lemma ordinary_clear a ag : ordinary (sql_clear_agent_transient a ag).
Proof. unfold sql_clear_agent_transient. ordinary_go. Qed.
Lemma ordinary_heartbeat ag now : ordinary (sql_service_record_heartbeat ag now).
Proof. unfold sql_service_record_heartbeat, sql_record_heartbeat. ordinary_go. Qed.
Lemma ordinary_resolve m p h : ordinary (resolve_or_register scan m p h).
Proof. unfold resolve_or_register. ordinary_go. Qed.
Lemma ordinary_notice v a p t : ordinary (record_preemption_notice v a p t).
Proof. unfold record_preemption_notice. ordinary_go. Qed.
Lemma ordinary_pops ag : ordinary (pop_pending_notices scan ag).
Proof. unfold pop_pending_notices. ordinary_go. Qed.
Lemma ordinary_pop ag a : ordinary (pop_preemption_notice ag a).
Proof. unfold pop_preemption_notice. ordinary_go. Qed.
Lemma ordinary_require a : ordinary (sql_require_artifact a).
Proof. unfold sql_require_artifact. ordinary_go. Qed.
Lemma ordinary_validate a : ordinary (sql_validate_single_writer scan a).
Proof.
  unfold sql_validate_single_writer. ordinary_go. apply ordinary_of_outcome. unfold check_single_writer. case_decide; [by intros e [= <-]|done].
Qed.
Lemma ordinary_monotonic p c : ordinary (of_outcome (check_monotonic_version p c) : HM unit).
Proof. apply ordinary_of_outcome. unfold check_monotonic_version. case_decide; [by intros e [= <-]|done]. Qed.
Lemma ordinary_revoke a ag tr tick v : ordinary (sql_revoke_peers scan a ag tr tick v).
Proof. unfold sql_revoke_peers, sql_revoke_peer. ordinary_go; [apply ordinary_transient|apply ordinary_set_state..]. Qed.
Lemma ordinary_abort {A} b (m : HM A) : ordinary m → ordinary (sql_abort_guard b m).
Proof. intros Hm. destruct b; [by apply ordinary_raise|done]. Qed.
Lemma ordinary_write ag a tick b : ordinary (sql_write scan ag a tick b).
Proof.
  apply ordinary_abort. unfold sql_write_impl. ordinary_go; [apply ordinary_require|apply ordinary_transient|apply ordinary_revoke|
    apply ordinary_set_state|apply ordinary_clear|apply ordinary_validate].
Qed.
Lemma ordinary_invalidate ag a v i tick b : ordinary (sql_invalidate ag a v i tick b).
Proof. apply ordinary_abort. unfold sql_invalidate_impl. ordinary_go; [apply ordinary_set_state|apply ordinary_clear]. Qed.
Lemma ordinary_cas ag a e h tick b : ordinary (sql_service_commit_cas scan ag a e h tick None None b).
Proof.
  apply ordinary_abort. unfold sql_commit_cas_impl, sql_commit_cas, sql_cas_apply, invalidate_peer_row, insert_state.
  ordinary_go; first [apply ordinary_require | apply ordinary_monotonic | apply ordinary_validate | idtac].
Qed.
Lemma ordinary_set_content a new c w f : ordinary (sql_set_artifact_and_content scan a new c w f).
Proof. unfold sql_set_artifact_and_content, sql_fence_check, capture_version_sql. ordinary_go. Qed.
Lemma ordinary_commit ag a tick h b : ordinary (sql_commit scan ag a "" tick (Some h) None b).
Proof.
  apply ordinary_abort. unfold sql_commit_impl. ordinary_go; first [apply ordinary_require | apply ordinary_transient | apply ordinary_monotonic
    | apply ordinary_set_content | apply ordinary_clear | apply ordinary_revoke | apply ordinary_set_state | apply ordinary_validate
    | by apply ordinary_of_outcome | idtac].
Qed.
End registry.

(** ** The shapes *)
Definition is_text (v : json) : bool := match v with JStr _ => true | _ => false end.
Definition is_obj (v : json) : bool := match v with JObj _ => true | _ => false end.
Definition hook_output_ok (hso : fields) : bool :=
  is_text (jget hso "hookEventName") &&
  match dget hso "permissionDecision" with None => true | Some v => is_str "allow" v || is_str "deny" v end &&
  match dget hso "additionalContext" with None => true | Some v => is_text v end.
(** The type of each field of an answer. *)
Definition field_ok (k : string) (v : json) : bool :=
  match v with
  | JStr v => bool_decide (k ∈ ["reason"; "note"; "error"]) || bool_decide (k = "status") && bool_decide (v ∈ ["fresh"; "stale"])
  | JBool _ => bool_decide (k ∈ ["ok"; "degraded"; "hash_differs"; "collision"; "released"; "reclaimed"; "preempted"])
  | JInt _ => bool_decide (k ∈ ["version"; "current_version"; "owner_generation"])
  | JObj v => bool_decide (k = "summary") || bool_decide (k = "hookSpecificOutput") && hook_output_ok v
  | JArr items => bool_decide (k ∈ ["stale_paths"; "released_artifacts"]) && forallb is_text items ||
                  bool_decide (k = "notices") && forallb is_obj items
  | _ => false
  end.
Definition typed (r : fields) : bool := bool_decide (dict_wf r) && forallb (λ kv, field_ok kv.1 kv.2) r.
(** A typed answer with the field its clients branch on; an internal error reads
    [{ok: false, reason}] at every endpoint. *)
Definition answers (key : string) (r : fields) : Prop :=
  typed r = true ∧ (key ∈ r.*1 ∨ key = "" ∨ ∃ why, r = refusal why).
Definition well_formed (key : string) (codes : list Z) (r : response) : Prop :=
  (r.1 = 200 ∧ answers key r.2) ∨ (r.1 ∈ codes ∧ ∃ msg, r.2 = [("error", JStr msg)]).

Definition gives {A} (Q : A → Prop) (m : SVM A) : Prop := yields Q (λ e, is_exception e = true) m.

Lemma typed_dset k v r : field_ok k v = true → typed r = true → typed (dset r k v) = true.
Proof.
  unfold typed. intros Hf [Hd%bool_decide_eq_true Hall]%andb_prop. rewrite bool_decide_true by by apply dict_wf_dset. simpl.
  apply forallb_forall. intros [k' v'] Hin%list_elem_of_In. apply dget_elem in Hin; [|by apply dict_wf_dset].
  rewrite dget_dset in Hin. case_decide as Hk; [by simplify_eq|]. apply dget_Some_elem, list_elem_of_In in Hin.
  by apply (proj1 (forallb_forall _ _) Hall).
Qed.
(** ** Statements *)
Section gives.
Lemma gives_bind {A B} (R : A → Prop) Q (m : SVM A) (k : A → SVM B) :
  gives R m → (∀ x, R x → gives Q (k x)) → gives Q (x ← m; k x).
Proof. apply yields_bind. Qed.
Lemma gives_then {A B} Q (m : SVM A) (k : A → SVM B) : ordinary m → (∀ x, gives Q (k x)) → gives Q (x ← m; k x).
Proof.
  intros Hm Hk. apply (gives_bind (λ _, True)); [|by intros x _]. intros s. specialize (Hm s).
  destruct (m s) as [[x|e] s']; [done|]. simpl. by eapply Hm.
Qed.
Lemma gives_ret {A} (Q : A → Prop) x : Q x → gives Q (mret x).
Proof. by intros Hx s. Qed.
Lemma gives_raise {A} (Q : A → Prop) e : is_exception e = true → gives Q (raise e).
Proof. by intros He s. Qed.
Lemma ordinary_gives {A} (m : SVM A) : gives (λ _, True) m → ordinary m.
Proof. intros Hm s e s' E. specialize (Hm s). by rewrite E in Hm. Qed.
Lemma gives_ordinary {A} (m : SVM A) : ordinary m → gives (λ _, True) m.
Proof. intros Hm s. specialize (Hm s). destruct (m s) as [[x|e] s']; [done|]. simpl. by eapply Hm. Qed.
Lemma ordinary_reg {A} (m : HM A) : ordinary m → ordinary (reg m).
Proof.
  intros Hm s e s'. unfold reg, zoom. specialize (Hm (sv_registry s)). destruct (m (sv_registry s)) as [o h]. intros [= -> _]. by eapply Hm.
Qed.
Lemma gives_conseq {A} (Q Q' : A → Prop) (m : SVM A) : gives Q m → (∀ x, Q x → Q' x) → gives Q' m.
Proof. intros Hm HQ. by eapply yields_conseq. Qed.
Lemma gives_outcome {A} (Q : A → Prop) o : match o with Ok x => Q x | Raise e => is_exception e = true end → gives Q (of_outcome o).
Proof. by intros Ho s. Qed.
End gives.

Section statements.
Context (scan : ∀ A, list A → list A).

Lemma ordinary_same {A} (m : SVM A) : (∀ s, ∃ x s', m s = (Ok x, s')) → ordinary m.
Proof. apply ordinary_Ok. Qed.
Lemma ordinary_register sid sub : ordinary (register_session sid sub).
Proof. apply ordinary_Ok. intros s. unfold register_session, mbind, proc_bind, gets, when. simpl. destruct (negb _); eexists _, _; reflexivity. Qed.
Lemma ordinary_marker ag a : ordinary (consume_stale_marker ag a).
Proof. apply ordinary_Ok. intros s. unfold consume_stale_marker. case_bool_decide; eexists _, _; reflexivity. Qed.
Lemma ordinary_flag sid : ordinary (consume_compact_pending sid).
Proof. apply ordinary_Ok. intros s. unfold consume_compact_pending. case_bool_decide; eexists _, _; reflexivity. Qed.
Lemma ordinary_audit sid p t : ordinary (audit_deny sid p t).
Proof.
  apply ordinary_Ok. intros s. unfold audit_deny, append_strict_deny, mbind, proc_bind. simpl. destruct (sv_append_ok _ _); eexists _, _; reflexivity.
Qed.
Lemma ordinary_context names sid b : ordinary (reg (sql_abort_guard b (select (λ d, session_start_context scan names d sid)))).
Proof. apply ordinary_reg, ordinary_abort. by apply ordinary_Ok; eauto. Qed.

Ltac server_go := repeat
  lazymatch goal with
  | |- ordinary (mbind _ _) => apply ordinary_bind; [|intros ?]
  | |- ordinary (mret _) => apply ordinary_Ok; intros ?; eexists _, _; reflexivity
  | |- ordinary (gets _) => apply ordinary_Ok; intros ?; eexists _, _; reflexivity
  | |- ordinary (read_db _) => apply ordinary_Ok; intros ?; eexists _, _; reflexivity
  | |- ordinary (modify _) => apply ordinary_Ok; intros ?; eexists _, _; reflexivity
  | |- ordinary (bump _) => apply ordinary_Ok; intros ?; eexists _, _; reflexivity
  | |- ordinary (mark_stale_warned _ _) => apply ordinary_Ok; intros ?; eexists _, _; reflexivity
  | |- ordinary (record_strict_deny _ _) => apply ordinary_Ok; intros ?; eexists _, _; reflexivity
  | |- ordinary (check_strict_deny_route_around _ _) => apply ordinary_Ok; intros ?; eexists _, _; reflexivity
  | |- ordinary (expire_compact_pending _) => apply ordinary_Ok; intros ?; eexists _, _; reflexivity
  | |- ordinary (mark_compact_pending _) => apply ordinary_Ok; intros ?; eexists _, _; reflexivity
  | |- ordinary uuid4 => apply ordinary_Ok; intros ?; eexists _, _; reflexivity
  | |- ordinary now_unix => apply ordinary_Ok; intros ?; eexists _, _; reflexivity
  | |- ordinary monotonic_seconds => apply ordinary_Ok; intros ?; eexists _, _; reflexivity
  | |- ordinary (raise _) => first [apply ordinary_raise; reflexivity | apply ordinary_raise; assumption]
  | |- ordinary (register_session _ _) => apply ordinary_register
  | |- ordinary (audit_deny _ _ _) => apply ordinary_audit
  | |- ordinary (consume_stale_marker _ _) => apply ordinary_marker
  | |- ordinary (consume_compact_pending _) => apply ordinary_flag
  | |- ordinary (reg (sql_abort_guard _ (select _))) => apply ordinary_context
  | |- ordinary (reg _) => apply ordinary_reg; first
      [ apply ordinary_heartbeat | apply ordinary_notice | apply ordinary_pops | apply ordinary_pop | apply ordinary_resolve
      | apply ordinary_cas | apply ordinary_write | apply ordinary_invalidate | apply ordinary_set_state ]
  | |- ordinary (catch _ _) => apply ordinary_catch; [|intros ? ?]
  | |- ordinary (foldm _ _ _) => apply ordinary_foldm; intros ? ?
  | |- ordinary (for_each _ _) => apply ordinary_for_each; intros ?
  | |- ordinary (when ?b _) => unfold when; destruct b
  | |- ordinary (match ?x with _ => _ end) => destruct x
  | |- ordinary (let _ := _ in _) => cbv zeta
  end.

Lemma ordinary_claim sid body abort i : ordinary (claim_reground_context scan sid body abort i).
Proof. unfold claim_reground_context, build_session_start_context. server_go. Qed.
Lemma ordinary_summary a p v pr hd : ordinary (stale_summary scan a p v pr hd).
Proof. unfold stale_summary, or_now. server_go. Qed.
Lemma ordinary_text ag : ordinary (pop_notice_text scan ag).
Proof. unfold pop_notice_text. server_go. Qed.
Lemma ordinary_scan_known ag now tr p acc a : ordinary (scan_known scan ag now tr p acc a).
Proof. unfold scan_known, scan_stale. server_go; apply ordinary_summary. Qed.

(** ** The endpoints *)

(** Typed, with the field [key]. *)
Definition keyed (key : string) (r : fields) : Prop := typed r = true ∧ key ∈ r.*1.
Lemma keyed_answers key r : keyed key r → answers key r.
Proof. intros [H1 H2]. split; [done|by left]. Qed.
Lemma keyed_dset key k v r : field_ok k v = true → keyed key r → keyed key (dset r k v).
Proof. intros Hf [Hr Hk]. split; [by apply typed_dset|]. apply dkeys_dset. by right. Qed.
Lemma output_dset hso t : hook_output_ok hso = true → hook_output_ok (dset hso "additionalContext" (JStr t)) = true.
Proof.
  unfold hook_output_ok, jget. rewrite !dget_dset, !decide_False by done. rewrite decide_True by done.
  intros [-> _]%andb_prop. done.
Qed.
Lemma typed_output r hso : typed r = true → jget r "hookSpecificOutput" = JObj hso → hook_output_ok hso = true.
Proof.
  unfold typed, jget. intros [_ Hall]%andb_prop Hj. destruct (dget r "hookSpecificOutput") as [v|] eqn:Ed; [|done]. simpl in Hj. subst v.
  apply dget_Some_elem, list_elem_of_In in Ed. pose proof (proj1 (forallb_forall _ _) Hall _ Ed) as Hf. exact Hf.
Qed.
Lemma keyed_attach key r text : keyed key r → keyed key (attach_reground r text).
Proof.
  intros Hr. unfold attach_reground. destruct (jget r "hookSpecificOutput") eqn:Ej; try (by apply keyed_dset).
  apply keyed_dset; [|done]. simpl. apply output_dset. by eapply typed_output; [apply Hr|].
Qed.
Lemma keyed_prepend key r text : keyed key r → keyed key (prepend_context r text).
Proof.
  intros Hr. unfold prepend_context. destruct (jget r "hookSpecificOutput") eqn:Ej; try done.
  apply keyed_dset; [|done]. simpl. apply output_dset. by eapply typed_output; [apply Hr|].
Qed.
Lemma gives_reground key sid body r abort i : keyed key r → gives (keyed key) (deliver_pending_reground scan sid body r abort i).
Proof.
  intros Hr. unfold deliver_pending_reground. destruct (negb _); [by apply gives_ret|]. apply gives_then; [apply ordinary_claim|].
  intros [text|]; apply gives_ret; [by apply keyed_attach|done].
Qed.

Ltac keyed_tac := apply gives_ret; split; [reflexivity|simpl; set_solver].
(** Go on past a statement whose value does not matter. *)
Ltac skip := apply gives_then; [server_go; try first [apply ordinary_summary | apply ordinary_text | unfold or_now; server_go]|intros ?].

Lemma gives_deny ag sid a p sm : gives (keyed "status") (emit_pre_read_strict_deny ag sid a p sm).
Proof. unfold emit_pre_read_strict_deny. do 5 skip. keyed_tac. Qed.
Lemma gives_pre_read_first p ch wg ag now : gives (keyed "status") (pre_read_first scan p ch wg ag now).
Proof. unfold pre_read_first. cbv zeta. do 4 skip. destruct wg, x2 as [[art gen]|]; keyed_tac. Qed.
Lemma gives_pre_read_fresh sid p ch wg ag a art gen : gives (keyed "status") (pre_read_fresh scan sid p ch wg ag a art gen).
Proof.
  unfold pre_read_fresh. cbv zeta. destruct (differs _ _ && _); simpl; [|destruct wg; keyed_tac]. do 2 skip.
  destruct (negb _); [destruct wg; keyed_tac|]. do 2 skip. destruct x2; [skip; destruct wg; keyed_tac|]. do 3 skip. apply gives_deny.
Qed.
Definition stale_answer (sm : StaleSummary) : fields :=
  [("hookSpecificOutput", allow_envelope (Some (stale_read_warning sm))); ("status", JStr "stale"); ("summary", summary_json sm)].
Lemma gives_pre_read_stale sid p ch wg vo ag now a art gen st : gives (keyed "status") (pre_read_stale scan sid p ch wg vo ag now a art gen st).
Proof.
  unfold pre_read_stale. cbv zeta. do 2 skip. destruct (_ && _); [apply gives_deny|]. skip.
  apply (gives_bind (λ r, r = stale_answer x)); [by apply gives_outcome|]. intros ? ->.
  assert (keyed "status" (stale_answer x ++ generation_field wg gen)%list) as Hg.
  { destruct wg; (split; [reflexivity|simpl; set_solver]). }
  destruct vo; [by apply gives_ret|]. do 3 skip. destruct x4 as [text|]; apply gives_ret; [by apply keyed_prepend|done].
Qed.
Lemma gives_pre_read sid p ch wg vo ag now body abort :
  gives (keyed "status") (pre_read_surfacing scan sid p ch wg vo ag now body abort).
Proof.
  unfold pre_read_surfacing. apply (gives_bind (keyed "status")).
  - unfold pre_read_work. do 2 skip. destruct x0 as [a|]; [|apply gives_pre_read_first]. unfold pre_read_known. do 3 skip.
    destruct x1 as [[art gen]|]; [|by apply gives_raise]. destruct x2 as [[| | |]|]; first [apply gives_pre_read_fresh | apply gives_pre_read_stale].
  - intros r Hr. apply (gives_bind (keyed "status")); [|intros r' Hr'; by apply gives_reground].
    destruct (_ && _ && _); [|by apply gives_ret]. skip. destruct x as [text|]; [|by apply gives_ret].
    apply (gives_bind (λ v, v = allow_envelope (Some text))); [by apply gives_outcome|]. intros ? ->.
    apply gives_ret, keyed_dset; [done|done].
Qed.

Lemma gives_refusing {A} (m : SVM A) k : ordinary m → (∀ x, gives (keyed "ok") (k x)) → gives (keyed "ok") (refusing m k).
Proof.
  intros Hm Hk s. unfold refusing. specialize (Hm s). destruct (m s) as [[x|e] s']; [apply Hk|].
  destruct (is_coherence_error e); simpl; [split; [reflexivity|simpl; set_solver]|by eapply Hm].
Qed.
Lemma gives_edit_answer p holder text : gives (keyed "ok") (pre_edit_answer p holder text).
Proof.
  unfold pre_edit_answer. destruct holder as [[h granted]|].
  - do 3 skip. apply (gives_bind (λ r, r = [("hookSpecificOutput", allow_envelope (Some (edit_collision_warning
      (default "<unknown>" (agent_id_to_session x h)) x0 x1 p))); ("ok", JBool true); ("collision", JBool true)])); [by apply gives_outcome|].
    intros ? ->. destruct text as [text|]; apply gives_ret; [apply keyed_prepend|]; (split; [reflexivity|simpl; set_solver]).
  - destruct text as [text|]; [|keyed_tac]. apply (gives_bind (λ v, v = allow_envelope (Some text))); [by apply gives_outcome|].
    intros ? ->. keyed_tac.
Qed.
Lemma gives_pre_edit sid p ag now b : gives (keyed "ok") (pre_edit_work scan sid p ag now b).
Proof.
  assert (∀ a, gives (keyed "ok") (pre_edit_acquire scan p ag now a b)) as Hacq.
  { intros a. unfold pre_edit_acquire. do 2 skip. apply gives_refusing; [server_go|]. intros _. do 2 skip. apply gives_edit_answer. }
  unfold pre_edit_work. do 6 skip. destruct x3 as [art|]; [|apply Hacq]. destruct (_ && _); [|apply Hacq].
  unfold pre_edit_strict_deny. do 5 skip. keyed_tac.
Qed.
Lemma gives_current a r : keyed "ok" r → dget r "current_version" = None → gives (keyed "ok") (with_current_version a r).
Proof.
  intros [Hr Hk] Hn. unfold with_current_version. skip. destruct x as [art|]; apply gives_ret; [|done]. rewrite <-dset_absent by done.
  by apply keyed_dset.
Qed.
Lemma gives_post_edit p ag now b ok ch : (ok = true → is_Some ch) → gives (keyed "ok") (post_edit_work scan p ag now b ok ch).
Proof.
  intros Hch. unfold post_edit_work. do 2 skip. destruct x0 as [a|]; [|keyed_tac]. destruct ok.
  - destruct Hch as [h ->]; [done|]. intros s. unfold post_edit_commit. pose proof (ordinary_reg _ (ordinary_commit scan ag a now h b) s) as Ho.
    destruct (reg _ s) as [[y|e] s']; [split; [reflexivity|simpl; set_solver]|].
    assert (gives (keyed "ok") (commit_refused p ag a e)) as Href.
    { unfold commit_refused. do 2 skip. destruct x0 as [[preempter at_]|]; [destruct (bool_decide _)|]; keyed_tac. }
    destruct e; try exact (Href s'); try (by apply (Ho _ _ eq_refl)).
    apply (gives_current a (refusal "stale_read_generation")); [split; [reflexivity|simpl; set_solver]|done].
  - unfold post_edit_release. skip. destruct x0 as [art|]; [|keyed_tac]. apply gives_refusing; [server_go|]. intros _. keyed_tac.
Qed.
Lemma gives_post_edit_cas p ag now b e h : gives (keyed "ok") (post_edit_cas_work scan p ag now b e h).
Proof.
  unfold post_edit_cas_work. do 2 skip. destruct x0 as [a|]; [|keyed_tac]. intros s. unfold post_edit_cas_commit.
  pose proof (ordinary_reg _ (ordinary_cas scan ag a e h now b) s) as Ho.
  destruct (reg _ s) as [[[[u sigs]|detail]|y] s']; [split; [reflexivity|simpl; set_solver]..|].
  destruct y; try (by apply (Ho _ _ eq_refl)); try (split; [reflexivity|simpl; set_solver]).
  apply (gives_current a (refusal "caller_in_transient_state")); [split; [reflexivity|simpl; set_solver]|done].
Qed.

Lemma forallb_texts l : forallb is_text (map JStr l) = true.
Proof. by induction l. Qed.
Lemma gives_session_stop ag now abort : gives (keyed "ok") (session_stop_work scan ag now abort).
Proof.
  unfold session_stop_work. do 2 skip. apply gives_then.
  { server_go. unfold stop_release. server_go. }
  intros released. do 2 skip. apply (gives_bind (λ l, forallb is_obj l = true)).
  { intros s. simpl. induction x1 as [|[[a preempter] ts] l IH]; [done|]. exact IH. }
  intros notices Hn. skip. cbv zeta. apply gives_ret.
  split; [|destruct (bool_decide _); simpl; set_solver]. destruct (bool_decide _); unfold typed;
    (rewrite bool_decide_true by (unfold dict_wf; simpl; repeat constructor; set_solver)); simpl; by rewrite forallb_texts, ?Hn.
Qed.
Lemma gives_session_start sid abort : gives (λ r, typed r = true) (session_start_work scan sid abort).
Proof.
  unfold session_start_work. apply gives_then; [unfold build_session_start_context; server_go|]. intros [[text|] has]; simpl; [|by apply gives_ret].
  skip. by apply gives_ret.
Qed.
Lemma typed_stale stale v : field_ok "hookSpecificOutput" v = true →
  keyed "status" [("hookSpecificOutput", v); ("status", JStr "stale"); ("stale_paths", stale_paths stale)].
Proof.
  intros Hv. split; [|simpl; set_solver]. unfold typed. rewrite bool_decide_true by (unfold dict_wf; simpl; repeat constructor; set_solver).
  cbn [forallb andb fst snd]. rewrite Hv. simpl. unfold stale_paths.
  assert (forallb is_text (map (λ pv : string * Z, JStr pv.1) stale) = true) as -> by (by induction stale). done.
Qed.
Lemma gives_paths_deny sid tool stale sm : gives (keyed "status") (paths_strict_deny sid tool stale sm).
Proof. unfold paths_strict_deny. do 5 skip. apply gives_ret. by apply typed_stale. Qed.
Lemma gives_paths_allow ag warning stale : gives (keyed "status") (paths_allow scan ag warning stale).
Proof.
  unfold paths_allow. skip. destruct (_ && _); [keyed_tac|]. cbv zeta.
  match goal with |- context [emit_allow (Some ?t) None] => set (text := t) end.
  apply (gives_bind (λ v, v = allow_envelope (Some text))); [by apply gives_outcome|]. intros ? ->. destruct (bool_decide _); [keyed_tac|].
  skip. apply gives_ret. by apply typed_stale.
Qed.
Lemma gives_pre_bash ag now sid ps : gives (keyed "status") (pre_bash_work scan ag now sid ps).
Proof.
  unfold pre_bash_work. skip. apply gives_then; [server_go; unfold bash_path; server_go; apply ordinary_scan_known|]. intros [stale [sm|]]; simpl.
  - apply gives_paths_deny.
  - apply gives_paths_allow.
Qed.
Lemma gives_pre_grep ag now sid ps : gives (keyed "status") (pre_grep_work scan ag now sid ps).
Proof.
  unfold pre_grep_work. skip. apply gives_then; [server_go; unfold grep_path; server_go; apply ordinary_scan_known|]. intros [stale [sm|]]; simpl.
  - apply gives_paths_deny.
  - apply gives_paths_allow.
Qed.

(** ** A whole request *)
Definition HOOK_CODES : list Z := [400; 413; 503].

Lemma gives_error key codes st msg : st ∈ codes → gives (well_formed key codes) (mret (error st msg)).
Proof. intros Hst. apply gives_ret. right. split; [done|by exists msg]. Qed.
Lemma gives_run key sc degraded work (Q : fields → Prop) : (∀ r, Q r → answers key r) → Q degraded →
  (∀ abort, gives Q (work abort)) → gives (well_formed key HOOK_CODES) (run_or_degrade sc degraded work).
Proof.
  intros HQ Hd Hw. unfold run_or_degrade. destruct (sc_overloaded sc); [skip; by apply gives_error; set_solver|].
  destruct (sc_timeout sc).
  - skip. apply gives_then; [|intros _; apply gives_ret; left; by auto]. apply ordinary_Ok. intros s. unfold late.
    destruct (work _ s) as [[r|e] s']; [by eexists _, _|]. destruct e; by eexists _, _.
  - intros s. unfold catch, mbind, proc_bind. specialize (Hw (λ _, false) s). destruct (work _ s) as [[r|e] s']; simpl in *.
    + left. by auto.
    + rewrite Hw. simpl. left. split; [done|]. split; [reflexivity|]. right. right. by eexists.
Qed.
Lemma gives_fast key sc sid body base : keyed key base → gives (well_formed key HOOK_CODES) (fast_path_json scan sc sid body base).
Proof.
  intros Hb. unfold fast_path_json. skip. destruct (negb _); [apply gives_ret; left; by split; [|apply keyed_answers]|].
  destruct (sc_timeout sc).
  - skip. apply gives_then; [|intros _; apply gives_ret; left; by split; [|apply keyed_answers]]. apply ordinary_Ok. intros s. unfold late.
    destruct (deliver_pending_reground _ _ _ _ _ _ s) as [[r|e] s']; [by eexists _, _|]. destruct e; by eexists _, _.
  - apply (gives_bind (keyed key)); [by apply gives_reground|]. intros r Hr. apply gives_ret. left. by split; [|apply keyed_answers].
Qed.
Lemma refused_path body r : session_and_path body = inl r → ∃ msg, r = error 400 msg.
Proof.
  unfold session_and_path. destruct (validate_session_id _) as [e|]; [intros [= <-]; by eexists|].
  destruct (validate_path _) as [e|]; [intros [= <-]; by eexists|]. destruct (jget body "session_id"), (default (JStr "") (dget body "path")); try (intros [= <-]; by eexists); done.
Qed.
Ltac answer_tac := apply gives_ret; left; split; [done|]; apply keyed_answers; split; [reflexivity|simpl; set_solver].
Ltac refused H := apply refused_path in H as [? ->]; apply gives_error; set_solver.
Ltac keyed_base := split; [reflexivity|simpl; set_solver].

Lemma gives_handle_pre_read sc body : gives (well_formed "status" HOOK_CODES) (handle_pre_read scan sc body).
Proof.
  unfold handle_pre_read. cbv zeta. destruct (session_and_path body) as [r|[sid p]] eqn:Ep; [refused Ep|].
  destruct (validate_content_hash _ _); [apply gives_error; set_solver|]. skip. destruct (negb _); [apply gives_fast; keyed_base|].
  do 2 skip. apply (gives_run _ _ _ _ (keyed "status")); [apply keyed_answers|keyed_base|]. intros abort. apply gives_pre_read.
Qed.
Lemma gives_handle_pre_edit sc body : gives (well_formed "ok" HOOK_CODES) (handle_pre_edit scan sc body).
Proof.
  unfold handle_pre_edit. destruct (session_and_path body) as [r|[sid p]] eqn:Ep; [refused Ep|]. skip. destruct (negb _); [apply gives_fast; keyed_base|].
  do 2 skip. apply (gives_run _ _ _ _ (keyed "ok")); [apply keyed_answers|keyed_base|]. intros abort.
  apply (gives_bind (keyed "ok")); [apply gives_pre_edit|]. intros r Hr. by apply gives_reground.
Qed.
Lemma required_hash body : validate_content_hash (jget body "content_hash") true = None → is_Some (as_str (jget body "content_hash")).
Proof. by destruct (jget body "content_hash"). Qed.
Lemma gives_handle_post_edit sc body : gives (well_formed "ok" HOOK_CODES) (handle_post_edit scan sc body).
Proof.
  unfold handle_post_edit. cbv zeta. destruct (session_and_path body) as [r|[sid p]] eqn:Ep; [refused Ep|].
  destruct (validate_content_hash _ _) eqn:Eh; [apply gives_error; set_solver|]. skip. destruct (negb _); [answer_tac|].
  do 2 skip. apply (gives_run _ _ _ _ (keyed "ok")); [apply keyed_answers|keyed_base|]. intros abort. apply gives_post_edit.
  intros Hs. rewrite Hs in Eh. by apply required_hash.
Qed.
Lemma gives_handle_post_edit_cas sc body : gives (well_formed "ok" HOOK_CODES) (handle_post_edit_cas scan sc body).
Proof.
  unfold handle_post_edit_cas. destruct (session_and_path body) as [r|[sid p]] eqn:Ep; [refused Ep|].
  destruct (validate_content_hash _ _); [apply gives_error; set_solver|]. destruct (as_version _); [|apply gives_error; set_solver].
  skip. destruct (negb _); [answer_tac|]. do 2 skip. apply (gives_run _ _ _ _ (keyed "ok")); [apply keyed_answers|keyed_base|].
  intros abort. apply gives_post_edit_cas.
Qed.
Lemma gives_handle_session_stop sc body : gives (well_formed "ok" HOOK_CODES) (handle_session_stop scan sc body).
Proof.
  unfold handle_session_stop. destruct (validate_session_id _); [apply gives_error; set_solver|].
  destruct (jget body "session_id"); try (apply gives_error; set_solver). cbv zeta. destruct (_ && _); [answer_tac|]. do 3 skip.
  apply (gives_run _ _ _ _ (keyed "ok")); [apply keyed_answers|keyed_base|]. intros abort. apply gives_session_stop.
Qed.
Lemma gives_handle_session_start sc body : gives (well_formed "" HOOK_CODES) (handle_session_start scan sc body).
Proof.
  unfold handle_session_start. destruct (validate_session_id _); [apply gives_error; set_solver|].
  destruct (jget body "session_id"); try (apply gives_error; set_solver). do 2 skip.
  apply (gives_run _ _ _ _ (λ r, typed r = true)); [intros r Hr; split; [done|by right; left]|reflexivity|]. intros abort. apply gives_session_start.
Qed.
Lemma gives_handle_pre_bash sc body : gives (well_formed "status" HOOK_CODES) (handle_pre_bash scan sc body).
Proof.
  unfold handle_pre_bash. destruct (validate_session_id _); [apply gives_error; set_solver|].
  destruct (jget body "session_id"); try (apply gives_error; set_solver). destruct (jget body "command"); try (apply gives_error; set_solver).
  destruct (bool_decide _); [apply gives_error; set_solver|]. destruct (bool_decide _); [apply gives_error; set_solver|]. skip. cbv zeta.
  destruct (bool_decide _); [apply gives_fast; keyed_base|]. do 2 skip.
  apply (gives_run _ _ _ _ (keyed "status")); [apply keyed_answers|keyed_base|]. intros abort.
  apply (gives_bind (keyed "status")); [apply gives_pre_bash|]. intros r Hr. by apply gives_reground.
Qed.
Lemma gives_handle_pre_grep sc body : gives (well_formed "status" HOOK_CODES) (handle_pre_grep scan sc body).
Proof.
  unfold handle_pre_grep. cbv zeta. destruct (validate_session_id _); [apply gives_error; set_solver|].
  destruct (jget body "session_id"), (if is_str _ _ then _ else _), (default (JStr "") (dget body "search_root")); try (apply gives_error; set_solver). skip.
  destruct (bool_decide _); [apply gives_fast; keyed_base|]. do 2 skip.
  apply (gives_run _ _ _ _ (keyed "status")); [apply keyed_answers|keyed_base|]. intros abort.
  apply (gives_bind (keyed "status")); [apply gives_pre_grep|]. intros r Hr. by apply gives_reground.
Qed.

(** The field the clients of a route branch on; none for [/hooks/session-start]. *)
Definition route_key (path : string) : string :=
  if bool_decide (path ∈ ["/hooks/pre-read"; "/hooks/pre-bash"; "/hooks/pre-grep"]) then "status"
  else if bool_decide (path = "/hooks/session-start") then "" else "ok".
Definition DISPATCH_CODES : list Z := [400; 401; 403; 404; 413; 500; 503].

Lemma gives_body key handle sc rq : (∀ body, gives (well_formed key HOOK_CODES) (handle sc body)) →
  gives (well_formed key DISPATCH_CODES) (with_body handle sc rq).
Proof.
  intros Hh. unfold with_body. destruct (read_json rq) as [r|body] eqn:Er.
  - unfold read_json in Er. repeat case_match; simplify_eq; apply gives_error; set_solver.
  - eapply gives_conseq; [apply Hh|]. intros r [H|[Hc Hm]]; [by left|right]. split; [set_solver|done].
Qed.
Lemma gives_handlers : Forall (λ rh, ∀ sc rq, gives (well_formed (route_key rh.1.2) DISPATCH_CODES) (rh.2 sc rq)) (HOOK_ROUTES scan).
Proof.
  unfold HOOK_ROUTES. repeat (apply Forall_cons; split); try apply Forall_nil_2; intros sc rq; apply gives_body; intros body; cbn [fst snd].
  - apply gives_handle_pre_read.
  - apply gives_handle_pre_edit.
  - apply gives_handle_post_edit.
  - apply gives_handle_post_edit_cas.
  - apply gives_handle_session_stop.
  - apply gives_handle_session_start.
  - apply gives_handle_pre_bash.
  - apply gives_handle_pre_grep.
Qed.
Lemma gives_route sc rq : gives (well_formed (route_key (route_path (rq_path rq))) DISPATCH_CODES) (route_request (HOOK_ROUTES scan) sc rq).
Proof.
  unfold route_request. cbv zeta. destruct (dget (HOOK_ROUTES scan) _) as [handle|] eqn:Eh; [|apply gives_error; set_solver].
  skip. destruct (_ && _); [apply gives_error; set_solver|]. apply gives_then; [destruct (dget _ _); server_go|]. intros _.
  apply dget_Some_elem in Eh. exact (proj1 (Forall_forall _ _) gives_handlers _ Eh sc rq).
Qed.
End statements.

(** C15: Every hook request is answered, and the answer is typed. Take any coordinator
    whose route table has the eight [/hooks] handlers, whatever it has under the fourteen
    other routes, and any request that is not for one of those fourteen.  Whatever the
    client sends, in whatever state and under whatever schedule and faults the
    coordinator is, [dispatch] returns: either 200 with a JSON object in which every field
    has its documented type, no key is repeated, and the field the route's clients branch
    on is there (or the object is the internal-error refusal [{ok: false, reason}]); or an
    error status the clients know with the single field [error].  The bearer check is
    assumed to return, which it does for ASCII headers. *)
Theorem answers_have_their_shape scan routes sc rq s b : route_table scan routes → rq_route rq ∉ OTHER_ROUTES →
  verify_bearer (rq_authorization rq) (sv_secret s) = Ok b →
  ∃ r s', dispatch routes sc rq s = (Ok r, s') ∧ well_formed (route_key (route_path (rq_path rq))) DISPATCH_CODES r.
Proof.
  intros Ht Hr Hb. rewrite (dispatch_hook scan routes sc rq s Ht Hr). unfold dispatch, mbind, proc_bind, gets. destruct (sv_shutting_down s).
  { eexists _, _. split; [reflexivity|]. right. split; [set_solver|by eexists]. }
  destruct (negb (verify_host _ _)). { eexists _, _. split; [reflexivity|]. right. split; [set_solver|by eexists]. }
  unfold of_outcome. rewrite Hb. destruct (negb b). { eexists _, _. split; [reflexivity|]. right. split; [set_solver|by eexists]. }
  unfold catch. pose proof (gives_route scan sc rq s) as Hg. destruct (route_request _ _ _ s) as [[r|e] s']; simpl in Hg.
  - by exists r, s'.
  - rewrite Hg. eexists _, _. split; [reflexivity|]. right. split; [set_solver|by eexists].
Qed.
