(* ===== verification/StrictReads.v ===== *)
(** Strict mode: a session that lost its view of a strict path is denied, every time,
    with the same words, until something grants it a view again. *)
From S2P Require Import Prelude Core Hashing Registry Service SqliteRegistry SqliteFacts DurableService DurableFacts Substrate ObjectStore.
From S2P Require Import Policy BashPaths Auth HookPayloads Hooks HookFacts.

Open Scope Z_scope.
Open Scope string_scope.

(** The same request sent again and again, each time under some schedule. *)
Fixpoint attempts (handle : Schedule → fields → SVM response) (scs : list Schedule) (body : fields) : SVM (list response) :=
  match scs with
  | [] => mret []
  | sc :: scs' => r ← handle sc body; rs ← attempts handle scs' body; mret (r :: rs)
  end.

(** Reads of several sessions, one after the other, each under some schedule. *)
Fixpoint reads_of (handle : Schedule → fields → SVM response) (reqs : list (Schedule * fields)) : SVM (list response) :=
  match reqs with
  | [] => mret []
  | (sc, body) :: reqs' => r ← handle sc body; rs ← reads_of handle reqs'; mret (r :: rs)
  end.

(** What a denied client may see: the denial, an internal error, or, when the watchdog
    gave up, the degraded answer and the overload. *)
Definition denied_as (deny : json) (r : response) : Prop :=
  (r.1 = 200 ∧ jget r.2 "hookSpecificOutput" = deny ∧ is_str "stale" (jget r.2 "status") = true) ∨
  (∃ e, r = (200, refusal ("internal: " ++ exn_type e))).
Definition seen_as (deny : json) (sc : Schedule) (r : response) : Prop :=
  if sc_overloaded sc then r = error 503 "watchdog queue overloaded"
  else if sc_timeout sc then r = (200, DEFAULT_DEGRADED_RESPONSE)
  else denied_as deny r.

(** The tables a denial reads and must leave. *)
Definition same_tables (d d' : Db) : Prop :=
  artifacts d' = artifacts d ∧ agent_states d' = agent_states d ∧ pending_notices d' = pending_notices d.

Section denied.
Context (scan : ∀ A, list A → list A).
Context (body : fields) (sid path : string) (a : UUID) (row : ArtRow) (pol : TrackedArtifactPolicy) (d0 : Db)
  (names0 : list (UUID * string)).
Local Abbreviation ag := (session_to_agent_id sid (read_subagent_id body)).
Local Abbreviation content_hash := (if truthy (jget body "content_hash") then jget body "content_hash" else JNull).
Hypothesis Hpath : session_and_path body = inr (sid, path).
Hypothesis Hhash : validate_content_hash content_hash false = None.
Hypothesis Htracked : is_tracked pol path = true.
Hypothesis Hstrict : is_strict_mode pol path = true.
Hypothesis Hlookup : lookup_artifact_id_by_name scan d0 path = Some a.
Hypothesis Hrow : artifacts d0 !! a = Some row.
Hypothesis Hdate : ar_updated_at row ≠ 0.
Hypothesis Hinvalid : sql_get_agent_state d0 a ag = Some INVALID.

Definition registered_names : list (UUID * string) :=
  if dmem names0 ag then names0 else dset names0 ag (session_to_agent_name sid (read_subagent_id body)).
Definition frozen (names : list (UUID * string)) (s : Server) : Prop :=
  same_tables d0 (sdb s) ∧ sv_policy s = pol ∧ agent_names s = names.
Definition deny_json : json := emit_strict_deny
  (mkSummary path (ar_version row) None (default "<unknown>" (last_writer_session scan registered_names d0 a)) (ar_updated_at row) 0 false).

Lemma frozen_reg {A} (m : HM A) names (R : Db → A → Db → Prop) : calls m R → (∀ d x d', R d x d' → same_tables d d') →
  (∀ h, h_agent_names (m h).2 = h_agent_names h) → triple (frozen names) (reg m) (λ _, frozen names) (λ _, frozen names).
Proof.
  intros Hm HR Hn s ((H1 & H2 & H3) & Hp & Hs). unfold reg, zoom. specialize (Hm (sv_registry s)). specialize (Hn (sv_registry s)).
  destruct (m (sv_registry s)) as [[x|e] h]; simpl in *.
  - apply HR in Hm as (E1 & E2 & E3). split; [|split; [done|by unfold agent_names; simpl; rewrite Hn]].
    split_and!; simpl; congruence.
  - split; [|split; [done|by unfold agent_names; simpl; rewrite Hn]].
    split_and!; simpl; congruence.
Qed.

Lemma heartbeat_names g now h : h_agent_names (sql_service_record_heartbeat g now h).2 = h_agent_names h.
Proof.
  unfold sql_service_record_heartbeat, sql_record_heartbeat. case_decide; [done|]. rewrite guard_run. destruct (h_read_only h); [done|].
  unfold transaction, acquire, mbind, proc_bind, on_db, modify. simpl. destruct (h_busy h (h_locks h)); [done|]. simpl.
  by destruct (h_busy h (S (h_locks h))).
Qed.
Lemma heartbeat_raises g now h e h' : sql_service_record_heartbeat g now h = (Raise e, h') → is_exception e = true.
Proof.
  unfold sql_service_record_heartbeat, sql_record_heartbeat. case_decide; [by intros [= <- _]|]. rewrite guard_run.
  destruct (h_read_only h); [by intros [= <- _]|]. unfold transaction, acquire, mbind, proc_bind, on_db, modify. simpl.
  destruct (h_busy h (h_locks h)); [by intros [= <- _]|]. simpl. by destruct (h_busy h (S (h_locks h))); intros [= <- _].
Qed.
Lemma frozen_heartbeat now : triple (frozen registered_names) (reg (sql_service_record_heartbeat ag now))
  (λ _, frozen registered_names) (λ e s, is_exception e = true ∧ frozen registered_names s).
Proof.
  intros s Hs. pose proof (frozen_reg (sql_service_record_heartbeat ag now) registered_names _ (heartbeat_effect ag now)
    ltac:(by intros d _ d' [m ->]) (heartbeat_names ag now) s Hs) as Ht. revert Ht. unfold reg, zoom.
  destruct (sql_service_record_heartbeat ag now (sv_registry s)) as [[x|e] h] eqn:Eh; [done|]. intros Ht. split; [|done].
  by eapply heartbeat_raises.
Qed.
Lemma frozen_same {A} (m : SVM A) (Q : A → Prop) :
  (∀ s, ∃ x, (m s).1 = Ok x ∧ Q x ∧ sdb (m s).2 = sdb s ∧ sv_policy (m s).2 = sv_policy s ∧ agent_names (m s).2 = agent_names s) →
  ∀ names X, triple (frozen names) m (λ x s, Q x ∧ frozen names s) X.
Proof.
  intros Hm names X s (Hd & Hp & Hn). destruct (Hm s) as (x & Hx & HQ & E1 & E2 & E3). destruct (m s) as [o s']. simpl in *.
  rewrite Hx. split; [done|]. split_and!; [by rewrite E1|congruence|congruence].
Qed.

Local Abbreviation F := (frozen registered_names).
Lemma frozen_reads {B} (f : Db → B) s : (∀ d d', same_tables d d' → f d' = f d) → F s → f (sdb s) = f d0.
Proof. intros Hf [Hs _]. by apply Hf. Qed.
Lemma lookup_same d d' p : same_tables d d' → lookup_artifact_id_by_name scan d' p = lookup_artifact_id_by_name scan d p.
Proof. intros (Ha & _). unfold lookup_artifact_id_by_name. by rewrite Ha. Qed.
Lemma writer_same names d d' : same_tables d d' → last_writer_session scan names d' a = last_writer_session scan names d a.
Proof.
  intros (Ha & Hs & _). unfold last_writer_session, last_writer_for, sql_get_state_map, state_rows. by rewrite Ha, Hs.
Qed.
Lemma frozen_bump name X : triple F (bump name) (λ _, F) X.
Proof. by intros s Hs. Qed.
Lemma frozen_consume vo X : triple F (when (negb vo) (hit ← consume_stale_marker ag a; when hit (bump "stale_warning_reread_total"))) (λ _, F) X.
Proof.
  intros s Hs. destruct vo; [done|]. simpl. unfold mbind, proc_bind, consume_stale_marker. case_bool_decide; simpl; exact Hs.
Qed.

Lemma frozen_summary v pr hd X : triple F (stale_summary scan a path v pr hd) (λ sm s, (∃ gen, sm =
  mkSummary path v pr (default "<unknown>" (last_writer_session scan registered_names d0 a)) (ar_updated_at row) gen hd) ∧ F s) X.
Proof using Hrow Hdate.
  unfold stale_summary. eapply (triple_gets F _ _ registered_names); [by intros s (_ & _ & ?)|].
  eapply (triple_gets F _ _ (last_writer_session scan registered_names d0 a)); [intros s [Hs _]; by apply writer_same|].
  eapply (triple_gets F _ _ (Some (ar_updated_at row))).
  { intros s ((Ha & _) & _). unfold last_writer_unix_ts, get_artifact_updated_at. by rewrite Ha, Hrow. }
  unfold or_now. rewrite bool_decide_false by done. apply (triple_bind _ _ _ (λ t s, t = ar_updated_at row ∧ F s)); [by apply triple_ret|].
  intros t. apply triple_pure. intros ->. apply (triple_bind _ _ _ (λ _, F)); [by intros s Hs|]. intros gen. apply triple_ret.
  intros s Hs. split; [by exists gen|done].
Qed.
Lemma frozen_deny sm X : triple F (emit_pre_read_strict_deny ag sid a path sm) (λ r s,
  r = [("hookSpecificOutput", emit_strict_deny sm); ("status", JStr "stale"); ("summary", summary_json sm)] ∧ F s) X.
Proof.
  intros s Hs. unfold emit_pre_read_strict_deny, audit_deny, append_strict_deny, record_strict_deny, monotonic, bump, mark_stale_warned,
    modify, mbind, proc_bind. simpl. destruct (sv_append_ok _ _); simpl; (split; [done|exact Hs]).
Qed.
Definition denial (r : fields) : Prop := jget r "hookSpecificOutput" = deny_json ∧ is_str "stale" (jget r "status") = true.

Lemma frozen_work ch wg vo now : triple F (pre_read_work scan sid path ch wg vo ag now) (λ r s, denial r ∧ F s)
  (λ e s, is_exception e = true ∧ F s).
Proof using Hlookup Hrow Hdate Hinvalid Hstrict.
  apply (triple_bind _ _ _ (λ _, F)); [apply frozen_heartbeat|]. intros _.
  eapply (triple_gets F _ _ (Some a)). { intros s Hs. rewrite <-Hlookup. apply lookup_same, Hs. }
  apply (triple_bind _ _ _ (λ _, F)); [apply frozen_consume|]. intros _.
  eapply (triple_gets F _ _ (Some (row_artifact a row, ar_owner_generation row))).
  { intros s ((Ha & _) & _). unfold sql_get_artifact_and_generation. by rewrite Ha, Hrow. }
  eapply (triple_gets F _ _ (Some INVALID)).
  { intros s ((_ & Hs & _) & _). rewrite <-Hinvalid. unfold sql_get_agent_state. by rewrite Hs. }
  unfold pre_read_stale. cbv zeta. eapply triple_bind; [apply frozen_summary|]. intros sm. apply triple_pure. intros [gen ->].
  eapply (triple_gets F _ _ pol); [by intros s (_ & ? & _)|]. rewrite Hstrict, !bool_decide_true by done. simpl.
  eapply triple_conseq; [apply (frozen_deny _ (λ e s, is_exception e = true ∧ F s))|done| |done]. intros r s [-> Hs]. by split.
Qed.
Lemma denial_unqualified r : denial r → reground_qualifies r = false ∧ dmem r "hookSpecificOutput" = true.
Proof.
  intros [Hd _]. unfold reground_qualifies. rewrite Hd. split; [done|]. unfold dmem. unfold jget in Hd.
  by destruct (dget r "hookSpecificOutput").
Qed.
Lemma frozen_surfacing ch wg vo now abort :
  triple F (pre_read_surfacing scan sid path ch wg vo ag now body abort) (λ r s, denial r ∧ F s)
  (λ e s, is_exception e = true ∧ F s).
Proof using Hlookup Hrow Hdate Hinvalid Hstrict.
  unfold pre_read_surfacing. eapply triple_bind; [apply frozen_work|]. intros r. apply triple_pure. intros Hr.
  destruct (denial_unqualified r Hr) as [Hq Hm]. rewrite Hm, andb_false_r. simpl.
  apply (triple_bind _ _ _ (λ x s, x = r ∧ F s)); [by apply triple_ret|]. intros x. apply triple_pure. intros ->.
  unfold deliver_pending_reground. rewrite Hq. by apply triple_ret.
Qed.

Lemma frozen_register X : triple (λ s, frozen names0 s ∨ F s) (register_session sid (read_subagent_id body)) (λ x s, x = ag ∧ F s) X.
Proof.
  intros s Hs. unfold register_session, mbind, proc_bind, gets. simpl.
  assert (dmem registered_names ag = true) as Hreg.
  { unfold registered_names. destruct (dmem names0 ag) eqn:Em; [done|]. apply dmem_true. eexists. by rewrite dget_dset, decide_True. }
  destruct Hs as [(Hd & Hp & Hn)|Hs].
  - rewrite Hn. destruct (dmem names0 ag) eqn:Em; simpl; (split; [done|]); split_and!; [exact Hd|done| |exact Hd|done|].
    + unfold registered_names. by rewrite Em.
    + unfold registered_names, agent_names. simpl. by rewrite Em.
  - pose proof Hs as (_ & _ & Hn). rewrite Hn, Hreg. simpl. by split.
Qed.
Lemma frozen_late m X : triple F m (λ _, F) (λ _, F) → triple F (late m) (λ _, F) X.
Proof.
  intros Hm s Hs. specialize (Hm s Hs). unfold late. destruct (m s) as [[r|e] s']; [exact Hm|]. destruct e; exact Hm.
Qed.
Lemma frozen_run sc work : (∀ abort, triple F (work abort) (λ r s, denial r ∧ F s) (λ e s, is_exception e = true ∧ F s)) →
  triple F (run_or_degrade sc DEFAULT_DEGRADED_RESPONSE work) (λ r s, seen_as deny_json sc r ∧ F s) (λ _ _, False).
Proof.
  intros Hw. unfold run_or_degrade, seen_as. destruct (sc_overloaded sc); [by intros s Hs|]. destruct (sc_timeout sc).
  - apply (triple_bind _ _ _ (λ _, F)); [apply frozen_bump|]. intros _. apply (triple_bind _ _ _ (λ _, F)); [|by intros _ s Hs].
    apply frozen_late. eapply triple_conseq; [apply Hw|done|by intros r s [_ ?]|by intros e s [_ ?]].
  - apply (triple_catch _ _ _ _ (λ e s, is_exception e = true ∧ F s)).
    + eapply triple_bind; [apply Hw|]. intros r. apply triple_ret. intros s [[H1 H2] H3]. split; [by left|done].
    + intros e. apply triple_pure. intros ->. apply triple_ret. intros s Hs. split; [right; by exists e|done].
Qed.
Lemma frozen_attempt sc : triple (λ s, frozen names0 s ∨ F s) (handle_pre_read scan sc body)
  (λ r s, seen_as deny_json sc r ∧ F s) (λ _ _, False).
Proof using Hpath Hhash Htracked Hlookup Hrow Hdate Hinvalid Hstrict.
  unfold handle_pre_read. cbv zeta. rewrite Hpath, Hhash. eapply (triple_gets _ _ _ pol); [by intros s [(_ & ? & _)|(_ & ? & _)]|].
  rewrite Htracked. simpl. eapply triple_bind; [apply frozen_register|]. intros x. apply triple_pure. intros ->.
  apply (triple_bind _ _ _ (λ _, F)); [by intros s Hs|]. intros now. apply frozen_run. intros abort. apply frozen_surfacing.
Qed.
Lemma frozen_attempts scs : triple (λ s, frozen names0 s ∨ F s) (attempts (handle_pre_read scan) scs body)
  (λ rs s, Forall2 (seen_as deny_json) scs rs ∧ (frozen names0 s ∨ F s)) (λ _ _, False).
Proof using Hpath Hhash Htracked Hlookup Hrow Hdate Hinvalid Hstrict.
  induction scs as [|sc scs IH]; simpl; [apply triple_ret; by intros s Hs|].
  eapply triple_bind; [apply frozen_attempt|]. intros r. apply triple_pure. intros Hr.
  eapply triple_bind; [eapply triple_conseq; [apply IH|intros s Hs; by right|done|done]|]. intros rs. apply triple_pure. intros Hrs.
  apply triple_ret. intros s Hs. split; [by constructor|done].
Qed.
End denied.

(** The denial of the hook protocol. *)
Definition denial_of (reason : string) : json :=
  JObj [("hookEventName", JStr "PreToolUse"); ("permissionDecision", JStr "deny"); ("permissionDecisionReason", JStr reason)].

(** A read request of a session whose view of the artifact is INVALID in [d]. *)
Definition shut_out (d : Db) (a : UUID) (path : string) (body : fields) : Prop := ∃ sid,
  session_and_path body = inr (sid, path) ∧
  validate_content_hash (if truthy (jget body "content_hash") then jget body "content_hash" else JNull) false = None ∧
  sql_get_agent_state d a (session_to_agent_id sid (read_subagent_id body)) = Some INVALID.

Lemma shut_out_reads scan d0 pol path a row reqs : is_strict_mode pol path = true →
  lookup_artifact_id_by_name scan d0 path = Some a → artifacts d0 !! a = Some row → ar_updated_at row ≠ 0 →
  Forall (λ rq, shut_out d0 a path rq.2) reqs →
  triple (λ s, same_tables d0 (sdb s) ∧ sv_policy s = pol) (reads_of (handle_pre_read scan) reqs)
    (λ rs s, Forall2 (λ rq r, ∃ reason, seen_as (denial_of reason) rq.1 r) reqs rs ∧ same_tables d0 (sdb s)) (λ _ _, False).
Proof.
  intros Hs Hl Hr Hd. induction reqs as [|[sc body] reqs IH]; intros Hreqs; simpl; [by apply triple_ret; intros s [? _]|].
  apply Forall_cons in Hreqs as [(sid & Hp & Hh & Hi) Hreqs].
  apply (triple_bind _ _ _ (λ r s, (∃ reason, seen_as (denial_of reason) sc r) ∧ same_tables d0 (sdb s) ∧ sv_policy s = pol)).
  - intros s [Ht Hpol].
    pose proof (frozen_attempt scan body sid path a row pol d0 (agent_names s) Hp Hh (strict_is_tracked _ _ Hs) Hs Hl Hr Hd Hi sc s
      (or_introl (conj Ht (conj Hpol eq_refl)))) as Ha.
    destruct (handle_pre_read scan sc body s) as [[r|e] s']; [|done]. destruct Ha as (Hseen & Ht' & Hp' & _).
    split; [by eexists|by split].
  - intros r. apply triple_pure. intros Hseen. eapply triple_bind; [by apply IH|]. intros rs. apply triple_pure. intros Hrs.
    apply triple_ret. intros s Ht. split; [by constructor|done].
Qed.

(** C17: A strict denial is structural. Once a session holds an INVALID view of a strict
    path, every one of its reads of it, however often it retries, is denied with the
    same words (the reason names the same writer and the same date), whatever the
    database does; the exceptions are the answers that do not come from the check: an
    internal error, the 503 of an overloaded pool and the degraded answer of a read that
    timed out.  None of these attempts changes a grant, a version or a notice, also when
    it completes late. *)
Theorem strict_denial_is_sticky scan body sid path a row s scs :
  session_and_path body = inr (sid, path) →
  validate_content_hash (if truthy (jget body "content_hash") then jget body "content_hash" else JNull) false = None →
  is_strict_mode (sv_policy s) path = true →
  lookup_artifact_id_by_name scan (sdb s) path = Some a → artifacts (sdb s) !! a = Some row → ar_updated_at row ≠ 0 →
  sql_get_agent_state (sdb s) a (session_to_agent_id sid (read_subagent_id body)) = Some INVALID →
  ∃ reason rs s', let deny := JObj [("hookEventName", JStr "PreToolUse"); ("permissionDecision", JStr "deny");
                                    ("permissionDecisionReason", JStr reason)] in
    attempts (handle_pre_read scan) scs body s = (Ok rs, s') ∧ Forall2 (seen_as deny) scs rs ∧ same_tables (sdb s) (sdb s').
Proof.
  intros Hp Hh Hs Hl Hr Hd Hi.
  pose proof (frozen_attempts scan body sid path a row (sv_policy s) (sdb s) (agent_names s) Hp Hh
    (strict_is_tracked _ _ Hs) Hs Hl Hr Hd Hi scs s (or_introl (conj (conj eq_refl (conj eq_refl eq_refl)) (conj eq_refl eq_refl)))) as Ht.
  destruct (attempts _ _ _ s) as [[rs|e] s']; [|done]. destruct Ht as [Hrs Hf].
  eexists _, rs, s'. split; [reflexivity|]. split; [exact Hrs|]. destruct Hf as [[Hf _]|[Hf _]]; exact Hf.
Qed.
