(* ===== verification/CasEndpoint.v ===== *)
(** The optimistic commit over HTTP: the answer of [post-edit-cas] tells what happened
    to the store, and a conflict can be retried. *)
From S2P Require Import Prelude Core Hashing Registry Service SqliteRegistry SqliteFacts SqliteParity SqliteSimulation.
From S2P Require Import DurableService DurableFacts Substrate ObjectStore Policy BashPaths Auth HookPayloads Hooks HookFacts HookShapes StrictReads.

Open Scope Z_scope.
Open Scope string_scope.

(** ** The service call *)
Section service.
Context (scan : ∀ A, list A → list A) (scan_perm : ∀ A (l : list A), scan A l ≡ₚ l).

Lemma check_passes a d : store_wf d → check_single_writer (sql_get_state_map scan d a) = Ok tt.
Proof using scan_perm.
  intros W. unfold check_single_writer. rewrite decide_False; [done|]. set (m := sql_get_state_map scan d a).
  assert (NoDup m.*1) as Hnd.
  { unfold m, sql_get_state_map. rewrite <-list_fmap_compose. apply (state_rows_nodup scan scan_perm). }
  assert (∀ p st, (p, st) ∈ m → sql_get_agent_state d a p = Some st) as Hin by (intros p st; by apply elem_state_map).
  intros Hlen. destruct (filter (λ kv : UUID * MESIState, m_or_e kv.2 = true) m) as [|[p sp] [|[q sq] l]] eqn:Ef; simpl in Hlen; [lia|lia|].
  assert ((p, sp) ∈ filter (λ kv : UUID * MESIState, m_or_e kv.2 = true) m ∧ (q, sq) ∈ filter (λ kv : UUID * MESIState, m_or_e kv.2 = true) m)
    as [[Hp1 Hp2]%list_elem_of_filter [Hq1 Hq2]%list_elem_of_filter] by (rewrite Ef; split; set_solver).
  assert (NoDup (filter (λ kv : UUID * MESIState, m_or_e kv.2 = true) m).*1) as Hf.
  { by apply (dict_wf_filter (λ kv : UUID * MESIState, m_or_e kv.2 = true)). }
  rewrite Ef in Hf. simpl in Hf. apply NoDup_cons in Hf as [Hne _]. apply Hne.
  assert (p = q) as ->; [|by left]. apply (sw_writer _ W a); [by rewrite (Hin p sp)|by rewrite (Hin q sq)].
Qed.

Lemma validate_passes a s : store_wf (db s) → sql_validate_single_writer scan a s = (Ok tt, s).
Proof using scan_perm.
  intros W. unfold sql_validate_single_writer, mbind, proc_bind, select, gets, of_outcome. by rewrite check_passes.
Qed.

Lemma arbitrate_wins d a ag current expected : sql_arbitrate scan d a ag current expected = None → current = expected.
Proof. unfold sql_arbitrate. repeat case_decide; try done. lia. Qed.

Definition service_cas_step (a ag : UUID) (expected : Z) (h : string) (d : Db)
    (r : Artifact * list InvalidationSignal + ConflictDetail) (d' : Db) : Prop :=
  ∃ row, artifacts d !! a = Some row ∧
  match r with
  | inl (updated, _) => ar_version row = expected ∧ art_version updated = expected + 1 ∧ cas_won a ag h row d d'
  | inr detail => cd_current_version detail = ar_version row ∧ ∃ m, d' = d <| conflict_counters := m |>
  end.
Lemma service_cas_effect ag a e h tick b s : store_wf (db s) →
  match sql_service_commit_cas scan ag a e h tick None None b s with
  | (Ok r, s') => service_cas_step a ag e h (db s) r (db s')
  | (Raise _, s') => db s' = db s
  end.
Proof using scan_perm.
  intros W. unfold sql_service_commit_cas. destruct b; [done|]. simpl. unfold sql_commit_cas_impl. unfold mbind at 1, proc_bind at 1.
  pose proof (require_cases a (db s) s eq_refl) as Hr. destruct (sql_require_artifact a s) as [[art|x] s1]; [|done].
  destruct Hr as [Hs1 (row & Ha & ->)]. unfold mbind at 1, proc_bind at 1, select, gets.
  destruct (sql_get_agent_transient (db s1) a ag); [by simpl; rewrite Hs1|]. unfold mbind at 1, proc_bind at 1.
  destruct (in_m_or_e _); [by simpl; rewrite Hs1|]. unfold mbind at 1, proc_bind at 1.
  pose proof (commit_cas_effect scan scan_perm a ag e h None tick "commit_cas" s1) as He.
  pose proof (ev_commit_cas scan scan_perm a ag e h None tick "commit_cas" s1) as [Hwf _].
  destruct (sql_commit_cas _ _ _ _ _ _ _ _ _ s1) as [[r|x] s2]; cbn [snd] in Hwf; [|by rewrite He].
  rewrite Hs1 in He, Hwf. destruct He as (row' & Ha' & He). assert (row' = row) as -> by congruence. destruct r as [u inv|detail|v].
  - destruct He as (Harb & Hv & Hw). apply arbitrate_wins in Harb as <-.
    unfold mbind, proc_bind, of_outcome, check_monotonic_version. rewrite decide_False by (simpl; lia).
    rewrite validate_passes by auto. simpl. by exists row.
  - destruct He as [(reason & _ & ->) Hm]. by exists row.
  - simpl. destruct He as [_ ->]. done.
Qed.
End service.

(** ** The endpoint *)
Definition untouched (d d' : Db) : Prop := artifacts d' = artifacts d ∧ agent_states d' = agent_states d.

(** The commit of [ag] landed: version [expected] of the artifact at [path] became the
    next one with the bytes of hash [h]; the writer keeps a valid view, every other
    agent that had one lost it, and nothing else changed. *)
Record landed (scan : ∀ A, list A → list A) (path h : string) (ag : UUID) (expected : Z) (a : UUID) (d d' : Db) : Prop := {
  ld_found : lookup_artifact_id_by_name scan d path = Some a;
  ld_row : ∃ row size now, artifacts d !! a = Some row ∧ ar_version row = expected ∧
    artifacts d' = <[a := row <| ar_version := ar_version row + 1 |> <| ar_content_hash := h |>
      <| ar_size_tokens := size |> <| ar_last_writer_id := Some ag |> <| ar_updated_at := now |>]> (artifacts d);
  ld_writer : sql_get_agent_state d' a ag = Some SHARED;
  ld_peers : ∀ q, q ≠ ag → sql_get_agent_state d' a q = (λ _, INVALID) <$> sql_get_agent_state d a q;
  ld_others : ∀ b q, b ≠ a → agent_states d' !! (b, q) = agent_states d !! (b, q);
}.

Section endpoint.
Context (scan : ∀ A, list A → list A) (scan_perm : ∀ A (l : list A), scan A l ≡ₚ l).
Context (path h : string) (ag : UUID) (expected : Z).

(** What the work of the endpoint may have done. *)
Definition cas_truth (d : Db) (ans : fields) (d' : Db) : Prop :=
  (ans = [("ok", JBool true); ("version", JInt (expected + 1))] ∧ ∃ a, landed scan path h ag expected a d d') ∨
  (dget ans "version" = None ∧ untouched d d' ∧ (jget ans "ok" = JBool true → lookup_artifact_id_by_name scan d path = None)).

Lemma heartbeat_tables now s : match reg (sql_service_record_heartbeat ag now) s with (_, s') => ∃ m, sdb s' = (sdb s) <| heartbeats := m |> end.
Proof.
  unfold reg, zoom. pose proof (heartbeat_effect ag now (sv_registry s)) as He.
  destruct (sql_service_record_heartbeat ag now (sv_registry s)) as [[x|e] hd]; [exact He|].
  exists (heartbeats (sdb s)). simpl. rewrite He. by destruct (sdb s).
Qed.
Lemma service_truth a now b s : store_wf (sdb s) → lookup_artifact_id_by_name scan (sdb s) path = Some a →
  match post_edit_cas_commit scan ag now b expected h a s with
  | (Ok ans, s') => cas_truth (sdb s) ans (sdb s')
  | (Raise _, s') => untouched (sdb s) (sdb s')
  end.
Proof using scan_perm.
  intros W Hl. unfold post_edit_cas_commit. unfold reg, zoom.
  pose proof (service_cas_effect scan scan_perm ag a expected h now b (sv_registry s) W) as He.
  destruct (sql_service_commit_cas _ _ _ _ _ _ _ _ _ _) as [[[[u sigs]|detail]|e] hd]; cbn [sv_registry].
  - destruct He as (row & Ha & Hv & Hu & Hw). left. rewrite Hu. split; [done|]. exists a. simpl.
    destruct (cw_row _ _ _ _ _ _ Hw) as (size & now' & Hrow).
    split; [done|by exists row, size, now'|apply Hw|apply Hw|apply Hw].
  - destruct He as (row & Ha & Hv & m & Hd). right. split; [done|]. simpl. by rewrite Hd.
  - assert (untouched (sdb s) (db hd)) as Hu by (rewrite He; done).
    destruct e; try exact Hu; try (right; split_and!; [reflexivity|exact Hu..|done]).
    unfold with_current_version, mbind, proc_bind, read_db, gets. right. by destruct (sql_get_artifact _ a).
Qed.
Lemma work_truth now b s : store_wf (sdb s) → match post_edit_cas_work scan path ag now b expected h s with
  | (Ok ans, s') => cas_truth (sdb s) ans (sdb s')
  | (Raise e, s') => untouched (sdb s) (sdb s')
  end.
Proof using scan_perm.
  intros W. unfold post_edit_cas_work. unfold mbind at 1, proc_bind at 1. pose proof (heartbeat_tables now s) as Hh.
  destruct (reg _ s) as [[[]|e] s1]; destruct Hh as [m Hm]; [|by rewrite Hm].
  assert (store_wf (sdb s1)) as W1 by (rewrite Hm; destruct W; by split).
  assert (∀ d', untouched (sdb s1) d' → untouched (sdb s) d') as Hu by (intros d' [H1 H2]; rewrite Hm in H1, H2; done).
  unfold mbind, proc_bind, read_db, gets. destruct (lookup_artifact_id_by_name scan (sdb s1) path) as [a|] eqn:El.
  - pose proof (service_truth a now b s1 W1 El) as Ht. destruct (post_edit_cas_commit _ _ _ _ _ _ _ s1) as [[ans|e] s2]; [|by apply Hu].
    destruct Ht as [[-> [a' [H1 H2 H3 H4 H5]]]|[Hv Ht]]; [left|right; destruct Ht as [Ht1 Ht2]; split_and!; [done|by apply Hu..|intros Hok; specialize (Ht2 Hok); congruence]].
    split; [done|]. exists a'. rewrite Hm in H1, H2, H4, H5. by split.
  - right. rewrite Hm in El. by rewrite Hm.
Qed.
End endpoint.

(** ** The handler *)
Section handler.
Context (scan : ∀ A, list A → list A) (scan_perm : ∀ A (l : list A), scan A l ≡ₚ l).

Lemma register_run sid sub s : ∃ s', register_session sid sub s = (Ok (session_to_agent_id sid sub), s') ∧
  sdb s' = sdb s ∧ sv_policy s' = sv_policy s ∧
  agent_names s' = if dmem (agent_names s) (session_to_agent_id sid sub) then agent_names s
                   else dset (agent_names s) (session_to_agent_id sid sub) (session_to_agent_name sid sub).
Proof.
  unfold register_session, mbind, proc_bind, gets, when, mret, proc_ret. simpl.
  destruct (dmem (agent_names s) (session_to_agent_id sid sub)); simpl; by eexists.
Qed.

Lemma clock_run s : ∃ now s', monotonic_seconds s = (Ok now, s') ∧ sdb s' = sdb s.
Proof. by eexists _, _. Qed.

(** The work under the watchdog: it ran in time, or late behind the degraded answer. *)
Lemma run_cases sc degraded work s (Q : (nat → bool) → Server → outcome exn fields → Server → Prop) :
  sc_overloaded sc = false → (∀ abort, ordinary (work abort)) → (∀ abort s, Q abort s (work abort s).1 (work abort s).2) →
  ∃ r s', run_or_degrade sc degraded work s = (Ok (200, r), s') ∧
    ∃ s0 o s1, sdb s0 = sdb s ∧ sdb s' = sdb s1 ∧ Q (if sc_timeout sc then sc_abort sc else λ _, false) s0 o s1 ∧
      r = if sc_timeout sc then degraded else match o with Ok x => x | Raise e => refusal ("internal: " ++ exn_type e) end.
Proof.
  intros Ho Hord HQ. unfold run_or_degrade. rewrite Ho. destruct (sc_timeout sc).
  - unfold mbind, proc_bind, bump, modify, late. set (s0 := s <| sv_counters ::= _ |>). specialize (HQ (sc_abort sc) s0).
    destruct (work (sc_abort sc) s0) as [[x|e] s1] eqn:E1; simpl in *.
    + eexists _, _. split; [reflexivity|]. by exists s0, (Ok x), s1.
    + destruct e; (eexists _, _; split; [reflexivity|]; eexists s0, _, s1; split_and!; [done..|exact HQ|done]).
  - unfold catch, mbind, proc_bind. specialize (HQ (λ _, false) s). pose proof (Hord (λ _, false) s) as He.
    destruct (work (λ _, false) s) as [[x|e] s1]; simpl in *.
    + eexists _, _. split; [reflexivity|]. by exists s, (Ok x), s1.
    + rewrite (He e s1 eq_refl). eexists _, _. split; [reflexivity|]. by exists s, (Raise e), s1.
Qed.

Lemma handler_truth sc body sid path e s : session_and_path body = inr (sid, path) →
  validate_content_hash (jget body "content_hash") true = None → as_version (jget body "expected_version") = Some e →
  is_tracked (sv_policy s) path = true → sc_overloaded sc = false → store_wf (sdb s) →
  let ag := session_to_agent_id sid (read_subagent_id body) in
  let h := default "" (as_str (jget body "content_hash")) in
  ∃ ans s', handle_post_edit_cas scan sc body s = (Ok (200, ans), s') ∧
    if sc_timeout sc then ans = OCC_DEGRADED_RESPONSE ∧ (untouched (sdb s) (sdb s') ∨ ∃ a, landed scan path h ag e a (sdb s) (sdb s'))
    else cas_truth scan path h ag e (sdb s) ans (sdb s').
Proof using scan_perm.
  intros Hp Hh He Ht Ho W. cbv zeta. unfold handle_post_edit_cas. rewrite Hp, Hh, He. unfold mbind at 1, proc_bind at 1, gets.
  rewrite Ht. simpl. unfold mbind at 1, proc_bind at 1. destruct (register_run sid (read_subagent_id body) s) as (s1 & -> & Hd & _ & _).
  unfold mbind at 1, proc_bind at 1. destruct (clock_run s1) as (now & s2 & -> & Hd2). rewrite Hd in Hd2.
  set (work := λ abort : nat → bool, post_edit_cas_work scan path _ _ (abort 0%nat) e _).
  destruct (run_cases sc OCC_DEGRADED_RESPONSE work s2 (λ abort s o s', store_wf (sdb s) → match o with
    | Ok ans => cas_truth scan path (default "" (as_str (jget body "content_hash"))) (session_to_agent_id sid (read_subagent_id body)) e
                  (sdb s) ans (sdb s')
    | Raise _ => untouched (sdb s) (sdb s')
    end)) as (r & s' & Hrun & s0 & o & s3 & H0 & H3 & HQ & Hr); [done| | |].
  - intros abort. apply ordinary_gives. eapply gives_conseq; [apply gives_post_edit_cas|done].
  - intros abort s0 W0. pose proof (work_truth scan scan_perm path
      (default "" (as_str (jget body "content_hash"))) (session_to_agent_id sid (read_subagent_id body)) e
      now (abort 0%nat) s0 W0) as Hw. unfold work.
    by destruct (post_edit_cas_work _ _ _ _ _ _ _ s0) as [[x|x] s9].
  - rewrite Hd2 in H0. rewrite H0 in HQ. specialize (HQ W). exists r, s'. split; [exact Hrun|]. rewrite H3. destruct (sc_timeout sc).
    + split; [done|]. destruct o as [ans|x]; [|by left]. destruct HQ as [[_ Hl]|(_ & Hu & _)]; [by right|by left].
    + subst r. destruct o as [ans|x]; [exact HQ|]. right. split_and!; [done|apply HQ..|done].
Qed.

Lemma lookup_unique d a row : store_wf d → artifacts d !! a = Some row → lookup_artifact_id_by_name scan d (ar_name row) = Some a.
Proof using scan_perm.
  intros W Ha. unfold lookup_artifact_id_by_name.
  set (l := filter (λ kr : UUID * ArtRow, ar_name kr.2 = ar_name row) (map_to_list (artifacts d))).
  assert (∀ kr, kr ∈ scan _ l → kr = (a, row)) as Hall.
  { intros [b rb]. rewrite scan_perm. unfold l. rewrite list_elem_of_filter, elem_of_map_to_list. simpl. intros [Hn Hb].
    assert (b = a) as -> by (by apply (sw_names _ W b a rb row)). congruence. }
  assert ((a, row) ∈ scan _ l) as Hin by (rewrite scan_perm; unfold l; by rewrite list_elem_of_filter, elem_of_map_to_list).
  destruct (scan _ l) as [|kr l']; [by apply not_elem_of_nil in Hin|]. simpl. by rewrite (Hall kr ltac:(by left)).
Qed.
Lemma lookup_named d a path : lookup_artifact_id_by_name scan d path = Some a → ∃ row, artifacts d !! a = Some row ∧ ar_name row = path.
Proof using scan_perm.
  unfold lookup_artifact_id_by_name. set (l := filter _ _). destruct (scan _ l) as [|[b rb] l'] eqn:E; [done|]. intros [= <-].
  assert ((b, rb) ∈ scan _ l) as Hin by (rewrite E; by left). rewrite scan_perm in Hin. unfold l in Hin.
  apply list_elem_of_filter in Hin as [Hn Hb]. apply elem_of_map_to_list in Hb. by exists rb.
Qed.
End handler.

(** C8: The optimistic commit never lies. Whatever the body of the request and however the
    watchdog, the database and the log behave, [post-edit-cas] returns, and its answer
    tells what happened.  [{ok: true, version: e+1}] means that the commit landed on
    version [e] with the caller's hash, that the caller keeps its view and that every
    other session lost its own.  Any other answer in time means that no artifact and no
    grant changed; such an answer says [ok: true] only where there was nothing to commit,
    an untracked or unknown path.  A request that timed out is answered [ok: false], and
    then the commit may still have landed. *)
Theorem cas_answer_is_truthful scan sc body s : (∀ A (l : list A), scan A l ≡ₚ l) → store_wf (sdb s) →
  ∃ st ans s', handle_post_edit_cas scan sc body s = (Ok (st, ans), s') ∧
  let done e a := ∃ sid path, session_and_path body = inr (sid, path) ∧ as_version (jget body "expected_version") = Some e ∧
    landed scan path (default "" (as_str (jget body "content_hash"))) (session_to_agent_id sid (read_subagent_id body)) e a
      (sdb s) (sdb s') in
  (∃ e a, ans = [("ok", JBool true); ("version", JInt (e + 1))] ∧ done e a) ∨
  (dget ans "version" = None ∧ untouched (sdb s) (sdb s') ∧
    (jget ans "ok" = JBool true → ∃ sid path, session_and_path body = inr (sid, path) ∧
      (is_tracked (sv_policy s) path = false ∨ lookup_artifact_id_by_name scan (sdb s) path = None))) ∨
  (sc_timeout sc = true ∧ ans = OCC_DEGRADED_RESPONSE ∧ ∃ e a, done e a).
Proof.
  intros Hscan W. destruct (session_and_path body) as [refused|[sid path]] eqn:Hp.
  { destruct (refused_path body refused Hp) as [msg ->]. unfold handle_post_edit_cas. rewrite Hp. eexists _, _, _. split; [reflexivity|].
    right. by left. }
  destruct (validate_content_hash (jget body "content_hash") true) as [msg|] eqn:Hh.
  { unfold handle_post_edit_cas. rewrite Hp, Hh. eexists _, _, _. split; [reflexivity|]. right. by left. }
  destruct (as_version (jget body "expected_version")) as [e|] eqn:He.
  2: { unfold handle_post_edit_cas. rewrite Hp, Hh, He. eexists _, _, _. split; [reflexivity|]. right. by left. }
  destruct (is_tracked (sv_policy s) path) eqn:Ht.
  2: { unfold handle_post_edit_cas, mbind, proc_bind, gets. rewrite Hp, Hh, He, Ht. eexists _, _, _. split; [reflexivity|]. right. left.
       split_and!; [done..|]. intros _. exists sid, path. split; [done|by left]. }
  destruct (sc_overloaded sc) eqn:Ho.
  { unfold handle_post_edit_cas, mbind, proc_bind, gets. rewrite Hp, Hh, He, Ht. simpl.
    destruct (register_run sid (read_subagent_id body) s) as (s1 & -> & Hd & _ & _). simpl. unfold run_or_degrade. rewrite Ho.
    eexists _, _, _. split; [reflexivity|]. right. left. split_and!; [done|simpl; by rewrite Hd..|done]. }
  destruct (handler_truth scan Hscan sc body sid path e s Hp Hh He Ht Ho W) as (ans & s' & Hrun & Hans).
  exists 200, ans, s'. split; [exact Hrun|]. cbv zeta. destruct (sc_timeout sc).
  - destruct Hans as [-> [Hu|[a Hl]]]; [right; left; by split_and!|]. right. right. split; [done|]. split; [done|]. exists e, a, sid, path.
    by split_and!.
  - destruct Hans as [[-> [a Hl]]|(Hv & Hu & Hn)]; [left; exists e, a; split; [done|]; by exists sid, path|]. right. left. split_and!; [done..|].
    intros Hok. exists sid, path. split; [done|right; by apply Hn].
Qed.

(** A read request of a session other than [writer] that has a row for the artifact. *)
Definition other_reader (d : Db) (a writer : UUID) (path : string) (body : fields) : Prop := ∃ sid,
  session_and_path body = inr (sid, path) ∧
  validate_content_hash (if truthy (jget body "content_hash") then jget body "content_hash" else JNull) false = None ∧
  session_to_agent_id sid (read_subagent_id body) ≠ writer ∧
  is_Some (sql_get_agent_state d a (session_to_agent_id sid (read_subagent_id body))).

(** C13: A commit shuts the readers out. When one session's optimistic commit on a strict
    path was answered in time with a version, the next reads of the file by the other
    sessions that had a view of it, however many and in whatever order they come, are
    each answered with a denial and change no grant, version or notice.  The exceptions
    are the answers that do not come from the check: an internal error, the 503 of an
    overloaded pool, and, for a read that timed out, the degraded answer, which lets the
    read through with a warning.  The file's date is not the epoch, and between the
    commit and the reads nothing grants a view again. *)
Theorem cas_win_denies_readers scan body sid path s v s1 a reqs : (∀ A (l : list A), scan A l ≡ₚ l) → store_wf (sdb s) →
  session_and_path body = inr (sid, path) → handle_post_edit_cas scan in_time body s = (Ok (200, [("ok", JBool true); ("version", JInt v)]), s1) →
  is_strict_mode (sv_policy s) path = true → lookup_artifact_id_by_name scan (sdb s) path = Some a →
  Forall (λ rq, other_reader (sdb s) a (session_to_agent_id sid (read_subagent_id body)) path rq.2) reqs →
  (∀ row, artifacts (sdb s1) !! a = Some row → ar_updated_at row ≠ 0) →
  ∃ rs s2, reads_of (handle_pre_read scan) reqs s1 = (Ok rs, s2) ∧
    Forall2 (λ rq r, ∃ reason, seen_as (denial_of reason) rq.1 r) reqs rs ∧ same_tables (sdb s1) (sdb s2).
Proof.
  intros Hscan W Hp Hrun Hs Hl Hreqs Hdate.
  destruct (moves_handle_post_edit_cas scan Hscan in_time body s) as [[W' _] Hset]. rewrite Hrun in W', Hset. specialize (W' W).
  assert (∃ e, as_version (jget body "expected_version") = Some e ∧ validate_content_hash (jget body "content_hash") true = None) as (e & He & Hh).
  { revert Hrun. unfold handle_post_edit_cas. rewrite Hp. destruct (validate_content_hash _ true); [by intros [=]|].
    destruct (as_version _) as [e|]; [by eauto|by intros [=]]. }
  destruct (handler_truth scan Hscan in_time body sid path e s Hp Hh He (strict_is_tracked _ _ Hs) eq_refl W) as (ans & s1' & Hrun' & Hans).
  assert (s1' = s1 ∧ ans = [("ok", JBool true); ("version", JInt v)]) as [-> ->] by (rewrite Hrun' in Hrun; by injection Hrun as -> ->).
  simpl in Hans. destruct Hans as [[_ [a' Hland]]|(Hv & _)]; [|done]. destruct Hland as [Hl' (row & size & now & Hrow & Hver & Harts) _ Hpeers _].
  assert (a' = a) as -> by congruence. destruct (lookup_named scan Hscan _ _ _ Hl) as (row' & Hrow' & Hname).
  assert (row' = row) as -> by congruence.
  assert (∃ row1, artifacts (sdb s1) !! a = Some row1 ∧ ar_name row1 = path) as (row1 & Hrow1 & Hname1).
  { rewrite Harts, lookup_insert_eq. by eexists. }
  assert (sv_policy s1 = sv_policy s) as Hpol by (unfold settings in Hset; simpl in Hset; congruence).
  assert (lookup_artifact_id_by_name scan (sdb s1) path = Some a) as Hl1 by (rewrite <-Hname1; by eapply lookup_unique).
  assert (Forall (λ rq, shut_out (sdb s1) a path rq.2) reqs) as Hshut.
  { eapply Forall_impl; [exact Hreqs|]. intros rq (rsid & Hrp & Hrh & Hne & st & Hst). exists rsid. split_and!; [done..|].
    by rewrite (Hpeers _ Hne), Hst. }
  rewrite <-Hpol in Hs.
  pose proof (shut_out_reads scan (sdb s1) (sv_policy s1) path a row1 reqs Hs Hl1 Hrow1 (Hdate _ Hrow1) Hshut s1
    (conj (conj eq_refl (conj eq_refl eq_refl)) eq_refl)) as Ht.
  destruct (reads_of _ _ s1) as [[rs|x] s2]; [|done]. by exists rs, s2.
Qed.
