(* ===== verification/CasProgress.v ===== *)
(** Progress of the optimistic commit: on a database that is not busy a conflict tells
    the version to retry at, and the retry wins. *)
From S2P Require Import Prelude Core Hashing Registry Service SqliteRegistry SqliteFacts SqliteParity SqliteSimulation.
From S2P Require Import DurableService DurableFacts Substrate ObjectStore Policy BashPaths Auth HookPayloads Hooks HookFacts HookShapes.
From S2P Require Import StrictReads CasEndpoint.

Open Scope Z_scope.
Open Scope string_scope.

(** The store takes writes, is not busy, and its log does not raise; the clock is past
    the epoch. *)
Record calm_store (s : Handle) : Prop := {
  ca_writable : h_read_only s = false;
  ca_idle : ∀ n, h_busy s n = false;
  ca_quiet : ∀ sink, h_state_log s = Some sink → ∀ calls e, sink calls e = false;
  ca_clock : ∀ n, 0 <= h_clock s n;
}.
(** [m] returns on a calm store. *)
Definition goes {A} (m : HM A) (d : Db) (Q : A → Db → Prop) : Prop :=
  ∀ s, calm_store s → db s = d → ∃ x s', m s = (Ok x, s') ∧ calm_store s' ∧ Q x (db s').

Section goes.
Lemma goes_bind {A B} (m : HM A) (k : A → HM B) d M Q : goes m d M → (∀ x d', M x d' → goes (k x) d' Q) → goes (x ← m; k x) d Q.
Proof.
  intros Hm Hk s Hc Hd. destruct (Hm s Hc Hd) as (x & s1 & E1 & Hc1 & HM). destruct (Hk x _ HM s1 Hc1 eq_refl) as (y & s2 & E2 & H2).
  exists y, s2. split; [|done]. by apply (bind_run _ _ s x s1).
Qed.
Lemma goes_ret {A} (x : A) d (Q : A → Db → Prop) : Q x d → goes (mret x) d Q.
Proof. intros HQ s Hc <-. by exists x, s. Qed.
Lemma goes_select {A B} (f : Db → A) (k : A → HM B) d Q : goes (k (f d)) d Q → goes (x ← select f; k x) d Q.
Proof. intros Hk. apply (goes_bind _ _ _ (λ x d', x = f d ∧ d' = d)); [intros s Hc <-; by exists (f (db s)), s|]. by intros x d' [-> ->]. Qed.
Lemma goes_gets {A B} (f : Handle → A) (k : A → HM B) d Q : (∀ x, goes (k x) d Q) → goes (x ← gets f; k x) d Q.
Proof. intros Hk. apply (goes_bind _ _ _ (λ _ d', d' = d)); [intros s Hc <-; by exists (f s), s|]. by intros x d' ->. Qed.
Lemma goes_time {B} (k : Z → HM B) d Q : (∀ now, goes (k now) d Q) → goes (x ← time_time; k x) d Q.
Proof.
  intros Hk. apply (goes_bind _ _ _ (λ _ d', d' = d)); [|by intros x d' ->]. intros s [] <-. eexists _, _. split; [reflexivity|]. by split; [split|].
Qed.
Lemma goes_on_db f d (Q : unit → Db → Prop) : Q tt (f d) → goes (on_db f) d Q.
Proof. intros HQ s [] <-. eexists _, _. split; [reflexivity|]. by split; [split|]. Qed.
Lemma goes_then_on_db {B} f (k : HM B) d Q : goes k (f d) Q → goes (on_db f ;; k) d Q.
Proof. intros Hk. apply (goes_bind _ _ _ (λ _ d', d' = f d)); [by apply goes_on_db|]. by intros _ d' ->. Qed.
Lemma goes_emit a ag from to tr tick v h d (Q : unit → Db → Prop) : Q tt d → goes (sql_emit_state_log a ag from to tr tick v h) d Q.
Proof.
  intros HQ s Hc <-. unfold sql_emit_state_log. destruct (h_state_log s) as [sink|] eqn:El; [|by exists tt, s].
  rewrite (ca_quiet _ Hc sink El). eexists _, _. split; [reflexivity|]. destruct Hc. by split; [split|].
Qed.
Lemma goes_select_artifact {B} a row (k : ArtRow → HM B) d Q : artifacts d !! a = Some row → goes (k row) d Q → goes (x ← select_artifact a; k x) d Q.
Proof.
  intros Ha Hk. apply (goes_bind _ _ _ (λ x d', x = row ∧ d' = d)); [|by intros x d' [-> ->]].
  intros s Hc <-. exists row, s. unfold select_artifact. by rewrite Ha.
Qed.
Lemma goes_insert_state k row d (Q : unit → Db → Prop) : is_Some (artifacts d !! k.1) → agent_states d !! k = None →
  Q tt (d <| agent_states ::= <[k := row]> |>) → goes (insert_state k row) d Q.
Proof.
  intros Ha Hk HQ. apply (goes_bind _ _ _ (λ _ d', d' = d)).
  { intros s Hc <-. exists tt, s. unfold references. by rewrite bool_decide_true. }
  intros _ ? ->. apply goes_select. rewrite bool_decide_false by (rewrite Hk; by intros [? [=]]). by apply goes_on_db.
Qed.
Lemma goes_for_each {A} (f : A → HM unit) (g : Db → A → Db) l d (Q : unit → Db → Prop) :
  (∀ x d, goes (f x) d (λ _ d', d' = g d x)) → Q tt (foldl g d l) → goes (for_each l f) d Q.
Proof.
  intros Hf. revert d. induction l as [|x l IH]; intros d HQ; simpl; [by apply goes_ret|].
  eapply goes_bind; [apply Hf|]. intros _ d' ->. by apply IH.
Qed.
Lemma goes_transaction {A} (m : HM A) d Q : goes m d Q → goes (transaction m) d Q.
Proof.
  intros Hm s Hc Hd. unfold transaction, acquire. rewrite (ca_idle _ Hc).
  set (s0 := s <| h_locks ::= S |>). assert (calm_store s0) as Hc0 by (destruct Hc; by split).
  destruct (Hm s0 Hc0 Hd) as (x & s1 & E1 & Hc1 & HQ). unfold mbind, proc_bind. rewrite E1. rewrite (ca_idle _ Hc1). simpl.
  eexists _, _. split; [reflexivity|]. destruct Hc1. by split; [split|].
Qed.
Lemma goes_logged {A} (m : HM A) d Q : goes m d Q → goes (logged_transaction m) d Q.
Proof.
  intros Hm s Hc Hd. unfold logged_transaction. set (s0 := s <| seq_incremented := 0 |>).
  assert (calm_store s0) as Hc0 by (destruct Hc; by split).
  destruct (goes_transaction m d Q Hm s0 Hc0 Hd) as (x & s1 & -> & Hc1 & HQ). eexists _, _. split; [reflexivity|]. destruct Hc1. by split; [split|].
Qed.
Lemma goes_guard {A} (m : HM A) d Q : goes m d Q → goes (guard_writable ;; m) d Q.
Proof. intros Hm s Hc Hd. rewrite guard_run, (ca_writable _ Hc). by apply Hm. Qed.
End goes.

Lemma heartbeat_goes ag now d : 0 <= now → goes (sql_service_record_heartbeat ag now) d (λ _ d', ∃ m, d' = d <| heartbeats := m |>).
Proof.
  intros Hn. unfold sql_service_record_heartbeat. rewrite decide_False by lia. apply goes_guard, goes_transaction, goes_on_db. by eexists.
Qed.

Section retry.
Context (scan : ∀ A, list A → list A) (scan_perm : ∀ A (l : list A), scan A l ≡ₚ l).

Lemma inval_artifacts a l d : artifacts (foldl (inval a) d l) = artifacts d.
Proof. revert d. induction l as [|pr l IH]; intros d; simpl; [done|]. by rewrite IH. Qed.
Lemma cas_apply_goes a ag cur h size tick tr d : is_Some (artifacts d !! a) →
  goes (sql_cas_apply scan a ag cur h size None tick tr) d (λ _ d', is_Some (artifacts d' !! a)).
Proof.
  intros [row Ha]. apply goes_time. intros now. apply goes_then_on_db, goes_select.
  set (d1 := d <| artifacts ::= _ |>). assert (is_Some (artifacts d1 !! a)) as Ha1 by (simpl; rewrite lookup_alter_eq, Ha; by eexists).
  set (peers := state_rows _ _ _ _). apply (goes_bind _ _ _ (λ _ d', d' = foldl (inval a) d1 peers)).
  { apply (goes_for_each _ (inval a)); [|done]. intros [p x] d'. apply goes_then_on_db, goes_emit. done. }
  intros _ ? ->. apply goes_select. set (d2 := foldl (inval a) d1 peers).
  assert (is_Some (artifacts d2 !! a)) as Ha2 by (unfold d2; by rewrite inval_artifacts).
  apply (goes_bind _ _ _ (λ _ d', artifacts d' = artifacts d2)).
  { destruct (agent_states d2 !! (a, ag)) as [x|] eqn:Ex; [by apply goes_on_db|by apply goes_insert_state]. }
  intros _ d3 Hd3. apply (goes_bind _ _ _ (λ _ d', d' = d3)); [by apply goes_emit|]. intros _ ? ->. apply goes_gets. intros retain.
  apply (goes_bind _ _ _ (λ _ d', d' = d3)); [by apply goes_ret|]. intros _ ? ->. apply goes_ret. by rewrite Hd3.
Qed.
Lemma commit_cas_goes a ag e h sz tick tr d : is_Some (artifacts d !! a) →
  goes (sql_commit_cas scan a ag e h sz None tick tr) d (λ _ _, True).
Proof.
  intros [row Ha]. apply goes_guard.
  apply (goes_bind _ _ _ (λ r d', match r with CasWin _ _ => is_Some (artifacts d' !! a) | _ => True end)).
  - apply goes_logged. eapply goes_select_artifact; [exact Ha|]. apply goes_select. destruct (sql_arbitrate _ _ _ _ _ _) as [[c|reason]|].
    + by apply goes_ret.
    + apply goes_then_on_db. by apply goes_ret.
    + eapply goes_bind; [by apply cas_apply_goes; exists row|]. intros inv d' Hd'. by apply goes_ret.
  - intros [u inv|detail|v] d' Hd'; [|by apply goes_ret..]. destruct Hd' as [row' Ha']. eapply goes_select_artifact; [exact Ha'|]. by apply goes_ret.
Qed.

(** The caller may commit: it has no transition under way and no write grant, no other
    session holds one, and no revocation fenced its claim. *)
Record may_commit (d : Db) (a ag : UUID) : Prop := {
  mc_transient : sql_get_agent_transient d a ag = None;
  mc_grant : in_m_or_e (sql_get_agent_state d a ag) = false;
  mc_alone : ∀ q, q ≠ ag → in_m_or_e (sql_get_agent_state d a q) = false;
  mc_claim : ∀ g row, sql_get_read_generation d a ag = Some g → artifacts d !! a = Some row → ar_owner_generation row <= g;
}.
Lemma arbitrate_at d a ag cur e : may_commit d a ag → is_Some (artifacts d !! a) →
  sql_arbitrate scan d a ag cur e = if decide (cur < e) then Some (inl cur) else if decide (e < cur) then Some (inr version_mismatch) else None.
Proof using scan_perm.
  intros [_ _ Halone Hclaim] [row Ha]. unfold sql_arbitrate. repeat (case_decide; [done|]).
  destruct (state_rows _ _ _ _) as [|[q x] l] eqn:Er.
  - destruct (sql_get_read_generation d a ag) as [g|] eqn:Eg; [|done]. rewrite Ha. specialize (Hclaim g row eq_refl Ha).
    by rewrite bool_decide_false by lia.
  - assert ((q, x) ∈ state_rows scan d a (λ p row, bool_decide (p ≠ ag) && m_or_e (sr_state row))) as Hin by (rewrite Er; by left).
    apply (elem_state_rows scan scan_perm) in Hin as [Hx [Hq%bool_decide_eq_true Hm]%andb_prop].
    specialize (Halone q Hq). unfold sql_get_agent_state in Halone. rewrite Hx in Halone. simpl in Halone. congruence.
Qed.
Lemma service_goes a ag e h tick d row : store_wf d → may_commit d a ag → artifacts d !! a = Some row → e <= ar_version row →
  goes (sql_service_commit_cas scan ag a e h tick None None false) d (λ r d', service_cas_step a ag e h d r d' ∧
    if decide (e = ar_version row) then ∃ u sigs, r = inl (u, sigs) else r = inr (mkConflict version_mismatch (ar_version row))).
Proof using scan_perm.
  intros W Hm Ha Hle s Hc <-. pose proof (service_cas_effect scan scan_perm ag a e h tick false s W) as Hstep. revert Hstep.
  unfold sql_service_commit_cas. simpl. unfold sql_commit_cas_impl, sql_require_artifact, mbind, proc_bind, select, gets.
  unfold sql_get_artifact, fetch_artifact_row. rewrite Ha. simpl.
  rewrite (mc_transient _ _ _ Hm), (mc_grant _ _ _ Hm).
  destruct (commit_cas_goes a ag e h None tick "commit_cas" (db s) ltac:(by eexists) s Hc eq_refl) as (r & s1 & E1 & Hc1 & _).
  pose proof (commit_cas_effect scan scan_perm a ag e h None tick "commit_cas" s) as He.
  pose proof (ev_commit_cas scan scan_perm a ag e h None tick "commit_cas" s) as [Hwf _]. rewrite E1 in He, Hwf |- *. cbn [snd] in Hwf.
  destruct He as (row' & Ha' & He). assert (row' = row) as -> by congruence. rewrite (arbitrate_at _ _ _ _ _ Hm) in He by (by eexists).
  rewrite !decide_False in He by lia.
  destruct r as [u inv|detail|v].
  - destruct He as (Harb & Hu & Hw). case_decide; [done|]. unfold of_outcome, check_monotonic_version. simpl.
    rewrite decide_False by lia. rewrite (check_passes scan scan_perm) by auto. simpl. intros Hstep.
    eexists _, s1. split; [reflexivity|]. split; [done|]. split; [exact Hstep|]. rewrite decide_True by lia. by eexists _, _.
  - destruct He as [(reason & Harb & ->) Hd]. case_decide; [|done]. simplify_eq. intros Hstep. eexists _, s1.
    split; [reflexivity|]. split; [done|]. split; [exact Hstep|]. rewrite decide_False by lia. done.
  - destruct He as [Harb _]. by case_decide.
Qed.

Lemma goes_reg {A} (m : HM A) d Q s : goes m d Q → calm_store (sv_registry s) → sdb s = d →
  ∃ x s', reg m s = (Ok x, s') ∧ calm_store (sv_registry s') ∧ Q x (sdb s').
Proof.
  intros Hm Hc Hd. destruct (Hm (sv_registry s) Hc Hd) as (x & h & E & Hc' & HQ). unfold reg, zoom. rewrite E. eexists _, _. by split.
Qed.
Definition conflict_answer (v : Z) : fields :=
  [("ok", JBool false); ("reason", JStr "version_mismatch"); ("current_version", JInt v)].
Definition win_answer (v : Z) : fields := [("ok", JBool true); ("version", JInt v)].

Lemma work_goes path ag now e h a row s : store_wf (sdb s) → calm_store (sv_registry s) → 0 <= now →
  lookup_artifact_id_by_name scan (sdb s) path = Some a → artifacts (sdb s) !! a = Some row → may_commit (sdb s) a ag →
  e <= ar_version row → ∃ s', post_edit_cas_work scan path ag now false e h s =
    (Ok (if decide (e = ar_version row) then win_answer (e + 1) else conflict_answer (ar_version row)), s') ∧ calm_store (sv_registry s').
Proof using scan_perm.
  intros W Hc Hn Hl Ha Hm Hle. unfold post_edit_cas_work. unfold mbind at 1, proc_bind at 1.
  destruct (goes_reg _ _ _ s (heartbeat_goes ag now (sdb s) Hn) Hc eq_refl) as (? & s1 & -> & Hc1 & [m Hd1]).
  assert (store_wf (sdb s1)) as W1 by (rewrite Hd1; destruct W; by split).
  assert (may_commit (sdb s1) a ag) as Hm1 by (rewrite Hd1; destruct Hm; by split).
  unfold mbind, proc_bind, read_db, gets. assert (lookup_artifact_id_by_name scan (sdb s1) path = Some a) as -> by (by rewrite Hd1).
  unfold post_edit_cas_commit.
  destruct (goes_reg _ _ _ s1 (service_goes a ag e h now (sdb s1) row W1 Hm1 ltac:(by rewrite Hd1) Hle) Hc1 eq_refl) as (r & s2 & -> & Hc2 & Hstep & Hr).
  case_decide.
  - destruct Hr as (u & sigs & ->). destruct Hstep as (row' & _ & _ & Hu & _). unfold mbind, proc_bind. simpl. rewrite Hu. by eexists.
  - subst r. by eexists.
Qed.
Lemma request_goes body sid path e a row s : session_and_path body = inr (sid, path) →
  validate_content_hash (jget body "content_hash") true = None → as_version (jget body "expected_version") = Some e →
  is_tracked (sv_policy s) path = true → store_wf (sdb s) → calm_store (sv_registry s) →
  lookup_artifact_id_by_name scan (sdb s) path = Some a → artifacts (sdb s) !! a = Some row →
  may_commit (sdb s) a (session_to_agent_id sid (read_subagent_id body)) → e <= ar_version row →
  ∃ s', handle_post_edit_cas scan in_time body s =
    (Ok (200, if decide (e = ar_version row) then win_answer (e + 1) else conflict_answer (ar_version row)), s') ∧ calm_store (sv_registry s').
Proof using scan_perm.
  intros Hp Hh He Ht W Hc Hl Ha Hm Hle. unfold handle_post_edit_cas. rewrite Hp, Hh, He. unfold mbind at 1, proc_bind at 1, gets. rewrite Ht. simpl.
  unfold mbind at 1, proc_bind at 1. set (ag := session_to_agent_id sid (read_subagent_id body)) in *.
  assert (∃ s1, register_session sid (read_subagent_id body) s = (Ok ag, s1) ∧ sdb s1 = sdb s ∧ calm_store (sv_registry s1)) as (s1 & -> & Hd1 & Hc1).
  { unfold register_session, mbind, proc_bind, gets, when. fold ag. simpl. destruct (negb _); [|by eexists].
    eexists. split; [reflexivity|]. split; [done|]. destruct Hc. by split. }
  unfold mbind at 1, proc_bind at 1. assert (∃ now s2, monotonic_seconds s1 = (Ok now, s2) ∧ 0 <= now ∧ sdb s2 = sdb s1 ∧ calm_store (sv_registry s2))
    as (now & s2 & -> & Hn & Hd2 & Hc2).
  { eexists _, _. split; [reflexivity|]. split; [apply Hc1|]. split; [done|]. destruct Hc1. by split. }
  unfold run_or_degrade. simpl. unfold catch, mbind, proc_bind.
  destruct (work_goes path ag now e (default "" (as_str (jget body "content_hash"))) a row s2) as (s3 & -> & Hc3);
    rewrite ?Hd2, ?Hd1; [done..|]. by eexists.
Qed.
End retry.

(** C14: An optimistic writer makes progress. On a store that takes writes, is not busy,
    whose log does not raise and whose clock is past the epoch, and with answers in time,
    a session with no write grant and no transition under way, whose claim no revocation fenced and whom no
    other session excludes, is answered [version_mismatch] with the current version when
    it commits at an older one; committing again at the version it was told wins, and
    the file is at the next version with the new hash. *)
Theorem cas_retry_wins scan body retry sid path e a row s : (∀ A (l : list A), scan A l ≡ₚ l) →
  session_and_path body = inr (sid, path) → session_and_path retry = inr (sid, path) → read_subagent_id retry = read_subagent_id body →
  validate_content_hash (jget body "content_hash") true = None → validate_content_hash (jget retry "content_hash") true = None →
  as_version (jget body "expected_version") = Some e → is_tracked (sv_policy s) path = true → store_wf (sdb s) → calm_store (sv_registry s) →
  lookup_artifact_id_by_name scan (sdb s) path = Some a → artifacts (sdb s) !! a = Some row →
  may_commit (sdb s) a (session_to_agent_id sid (read_subagent_id body)) → e < ar_version row →
  jget retry "expected_version" = JInt (ar_version row) → 0 <= ar_version row →
  ∃ s1 s2 row2, handle_post_edit_cas scan in_time body s = (Ok (200, conflict_answer (ar_version row)), s1) ∧
    handle_post_edit_cas scan in_time retry s1 = (Ok (200, win_answer (ar_version row + 1)), s2) ∧
    artifacts (sdb s2) !! a = Some row2 ∧ ar_version row2 = ar_version row + 1 ∧
    ar_content_hash row2 = default "" (as_str (jget retry "content_hash")).
Proof.
  intros Hscan Hp Hp' Hsub Hh Hh' He Ht W Hc Hl Ha Hm Hlt Hv Hpos.
  assert (as_version (jget retry "expected_version") = Some (ar_version row)) as He' by (rewrite Hv; simpl; by rewrite bool_decide_false by lia).
  destruct (request_goes scan Hscan body sid path e a row s Hp Hh He Ht W Hc Hl Ha Hm ltac:(lia)) as (s1 & E1 & Hc1).
  rewrite decide_False in E1 by lia.
  destruct (moves_handle_post_edit_cas scan Hscan in_time body s) as [[W1 _] Hset]. rewrite E1 in W1, Hset. specialize (W1 W). cbn [snd] in *.
  assert (sv_policy s1 = sv_policy s) as Hpol by (unfold settings in Hset; congruence).
  destruct (handler_truth scan Hscan in_time body sid path e s Hp Hh He Ht eq_refl W) as (ans & s1' & E1' & Hans).
  rewrite E1 in E1'. injection E1' as <- <-. simpl in Hans. destruct Hans as [[Hbad _]|(_ & [Harts Hstates] & _)]; [done|].
  assert (lookup_artifact_id_by_name scan (sdb s1) path = Some a) as Hl1 by (unfold lookup_artifact_id_by_name; by rewrite Harts).
  assert (may_commit (sdb s1) a (session_to_agent_id sid (read_subagent_id retry))) as Hm1.
  { rewrite Hsub. destruct Hm as [H1 H2 H3 H4].
    split; unfold sql_get_agent_transient, sql_get_agent_state, sql_get_read_generation in *; rewrite ?Hstates, ?Harts; auto. }
  destruct (request_goes scan Hscan retry sid path (ar_version row) a row s1 Hp' Hh' He') as (s2 & E2 & Hc2);
    [by rewrite Hpol|done|done|done|by rewrite Harts|done|lia|]. rewrite decide_True in E2 by done.
  destruct (handler_truth scan Hscan in_time retry sid path (ar_version row) s1 Hp' Hh' He' ltac:(by rewrite Hpol) eq_refl W1) as (ans & s2' & E2' & Hans).
  rewrite E2 in E2'. injection E2' as <- <-. simpl in Hans. destruct Hans as [[_ [a' [Hf (row' & size & now & Hr & _ & Hr2) _ _ _]]]|(Hbad & _)]; [|done].
  assert (a' = a) as -> by congruence. assert (row' = row) as -> by congruence.
  eexists s1, s2, _. split; [exact E1|]. split; [exact E2|]. rewrite Hr2, lookup_insert_eq. by split.
Qed.
