(* ===== verification/HookSafety.v ===== *)
(** The coordinator as a whole: who gets in, what any sequence of requests keeps, and a
    small workspace on which the theorems of the endpoints are run. *)
From S2P Require Import Prelude Core Hashing Registry Service SqliteRegistry SqliteFacts SqliteParity DurableService DurableFacts.
From S2P Require Import Substrate ObjectStore Policy BashPaths Auth HookPayloads Hooks HookFacts HookShapes StrictReads CasEndpoint CasProgress.

Open Scope Z_scope.
Open Scope string_scope.

(** ** Sequences of requests *)
Fixpoint serve (routes : list ((string * string) * handler)) (reqs : list (Schedule * HookRequest)) (s : Server) : Server :=
  match reqs with
  | [] => s
  | (sc, rq) :: reqs' => serve routes reqs' (dispatch routes sc rq s).2
  end.

Lemma moves_serve scan routes reqs s : (∀ A (l : list A), scan A l ≡ₚ l) → route_table scan routes →
  Forall (λ r, rq_route r.2 ∉ OTHER_ROUTES) reqs → moves s (serve routes reqs s).
Proof.
  intros Hscan Ht. revert s. induction reqs as [|[sc rq] reqs IH]; intros s Hr; simpl; [reflexivity|].
  apply Forall_cons in Hr as [Hr Hrs]. rewrite (dispatch_hook scan routes sc rq s Ht Hr).
  etrans; [apply (moves_dispatch scan Hscan sc rq s)|by apply IH].
Qed.

(** ** Who gets in *)
Lemma prefix_drop p t : String.prefix p t = true → t = p ++ drop_prefix p t.
Proof.
  unfold drop_prefix. intros Hp. rewrite Hp. revert t Hp. induction p as [|c p IH]; intros t Hp.
  - change (t = String.substring 0 (String.length t - 0) t). rewrite Nat.sub_0_r. clear. induction t as [|c t IH]; [done|].
    simpl. by rewrite <-IH.
  - destruct t as [|c' t]; [done|]. simpl in Hp. destruct (Ascii.ascii_dec c c') as [<-|]; [|done].
    exact (f_equal (String c) (IH t Hp)).
Qed.
Lemma bearer_admits header secret : verify_bearer header secret = Ok true → header = Some (BEARER_PREFIX ++ secret).
Proof.
  unfold verify_bearer. destruct header as [h|]; [|done]. destruct (String.prefix BEARER_PREFIX h) eqn:Ep; [|done].
  destruct (_ && _); [|done]. intros [= Hb%bool_decide_eq_true]. f_equal. rewrite (prefix_drop _ _ Ep). by rewrite Hb.
Qed.
(** The name in a Host header is one of the allowed names, or spells the address of one. *)
Definition names_host (allowlist : list string) (host_header : string) : Prop :=
  host_from_header host_header ∈ allowlist ∨
  ∃ ip entry, ip_address (host_from_header host_header) = Some ip ∧ entry ∈ allowlist ∧ ip_address entry = Some ip.
Lemma host_admits header allowlist : verify_host header allowlist = true → ∃ h, header = Some h ∧ names_host allowlist h.
Proof.
  unfold verify_host. destruct header as [h|]; [|done]. case_bool_decide; [done|]. case_bool_decide as Hin; [intros _; exists h; by split; [|left]|].
  destruct (ip_address (host_from_header h)) as [ip|] eqn:Ei; [|done]. intros He. apply existsb_exists in He as (entry & He1 & He2).
  apply bool_decide_eq_true in He2. exists h. split; [done|]. right. exists ip, entry. split_and!; [done|by apply list_elem_of_In|done].
Qed.
(** An allowlist was built for a loopback name, or for a private address. *)
Lemma allowlist_built env bind_host l : build_host_allowlist env bind_host = Ok l →
  (∀ h, h ∈ l ↔ h ∈ HOST_ALLOWLIST ∨ h = bind_host) ∧
  (bind_host ∈ HOST_ALLOWLIST ∨ (remote_flag_enabled env = true ∧ ∃ ip, ip_address bind_host = Some ip ∧ is_private_range ip = true)).
Proof.
  unfold build_host_allowlist, validate_bind_host. destruct (is_loopback_host bind_host) eqn:El.
  - intros [= <-]. apply bool_decide_eq_true in El. split; [|by left]. intros h. split; [by left|]. by intros [?| ->].
  - destruct (remote_flag_enabled env); [|done]. simpl. destruct (ip_address bind_host) as [ip|]; [|done].
    destruct (is_unspecified ip); [done|]. destruct (is_private_range ip) eqn:Epr; [|done]. intros [= <-]. split; [set_solver|]. right. eauto.
Qed.

(** C16: Only admitted requests act. Whatever the routes behind it, a request that is answered
    200 or changes the store carried the exact bearer secret and a Host header that names
    a loopback host or the address the coordinator was bound to (or spells one of their
    addresses); and that address is a loopback name or, with the cross-host opt-in, a
    private-range IP. *)
Theorem only_admitted_requests_act env bind_host routes sc rq s o s' :
  build_host_allowlist env bind_host = Ok (sv_host_allowlist s) → dispatch routes sc rq s = (o, s') →
  sdb s' ≠ sdb s ∨ (∃ body, o = Ok (200, body)) →
  rq_authorization rq = Some (BEARER_PREFIX ++ sv_secret s) ∧
  (∃ h, rq_host rq = Some h ∧ names_host (HOST_ALLOWLIST ++ [bind_host]) h) ∧
  (bind_host ∈ HOST_ALLOWLIST ∨ (remote_flag_enabled env = true ∧ ∃ ip, ip_address bind_host = Some ip ∧ is_private_range ip = true)).
Proof.
  intros [Hl Hb]%allowlist_built. unfold dispatch, mbind, proc_bind, gets.
  destruct (sv_shutting_down s); [intros [= <- <-]; by intros [?|[body [=]]]|].
  destruct (verify_host (rq_host rq) (sv_host_allowlist s)) eqn:Eh; simpl; [|intros [= <- <-]; by intros [?|[body [=]]]].
  unfold of_outcome. destruct (verify_bearer (rq_authorization rq) (sv_secret s)) as [[|]|e] eqn:Eb; simpl;
    [|intros [= <- <-]; by intros [?|[body [=]]]..]. intros _ _. apply host_admits in Eh as (h & Hh & Hn). split; [by apply bearer_admits|].
  split; [|done]. exists h. split; [done|]. destruct Hn as [Hn|(ip & entry & H1 & H2 & H3)].
  - left. apply Hl in Hn. set_solver.
  - right. exists ip, entry. split_and!; [done| |done]. apply Hl in H2. set_solver.
Qed.

(** C7: The store survives every hook client. Take any coordinator whose route table has
    the eight [/hooks] handlers, whatever it has under the fourteen other routes, and any
    sequence of requests that are not for one of those fourteen: hook requests, admitted
    or not, well formed or not, and requests for routes that do not exist.  Whatever the
    watchdog does with each of them and wherever the database or the log fails, the store
    stays well formed: names are unique, grants belong to known artifacts and no artifact
    has two writers; no artifact disappears, no version and no ownership generation goes
    back; and the settings stay.  A late run ends before the next request starts. *)
Theorem requests_keep_the_store scan routes reqs s : (∀ A (l : list A), scan A l ≡ₚ l) → route_table scan routes →
  Forall (λ r, rq_route r.2 ∉ OTHER_ROUTES) reqs → store_wf (sdb s) →
  store_wf (sdb (serve routes reqs s)) ∧ grows (sdb s) (sdb (serve routes reqs s)) ∧ settings (serve routes reqs s) = settings s.
Proof. intros Hscan Ht Hr W. destruct (moves_serve scan routes reqs s Hscan Ht Hr) as [[HW HG] Hset]. auto. Qed.

(** ** A small workspace

    [plan.md] is tracked and strict; two sessions read it, the first one commits. *)
Module Desk.

Definition in_order : ∀ A : Type, list A → list A := λ _ l, l.
Lemma in_order_perm A (l : list A) : in_order A l ≡ₚ l.
Proof. done. Qed.
Definition registry : Handle :=
  mkHandle (empty_db "i" "e") 0 0 0 None [] (Some []) "i" "e" false None false (λ _, 1763287530) 0 (λ _, false) 0.
Definition desk : Server :=
  mkServer registry (mkPolicy (DEFAULT_TRACKED_PATTERNS ++ ["plan.md"; "notes.md"])%list [] ["plan.md"; "notes.md"] ["plan.md"] [])
    [] ∅ [] ∅ [] false false "secret" HOST_ALLOWLIST (λ _, 0) 0 (λ n, (1000 + N.of_nat n)%N) 0 (λ _, true).
Definition ada : string := "aaaaaaaa-0000-4000-8000-000000000001".
Definition bob : string := "bbbbbbbb-0000-4000-8000-000000000002".
Definition draft : string := "aaaaaaaaaaaaaaaaaaaaaaaaaaaaaaaaaaaaaaaaaaaaaaaaaaaaaaaaaaaaaaaa".
Definition final : string := "bbbbbbbbbbbbbbbbbbbbbbbbbbbbbbbbbbbbbbbbbbbbbbbbbbbbbbbbbbbbbbbb".
Definition reading (sid hash : string) : fields := [("session_id", JStr sid); ("path", JStr "plan.md"); ("content_hash", JStr hash)].
Definition grepping (sid : string) : fields := [("session_id", JStr sid); ("search_root", JStr "")].
Definition saving (sid : string) (e : Z) : fields :=
  [("session_id", JStr sid); ("path", JStr "plan.md"); ("content_hash", JStr final); ("expected_version", JInt e)].
Definition request (path : string) (body : fields) : HookRequest :=
  mkRequest "POST" path (Some "localhost:7777") (Some "Bearer secret") (Some 100) (Some (JObj body)).
Definition posts (l : list (string * fields)) : list (Schedule * HookRequest) := (λ pb, (in_time, request pb.1 pb.2)) <$> l.

(** Both sessions have read the file. *)
Definition shared : Server := serve (HOOK_ROUTES in_order) (posts [("/hooks/pre-read", reading ada draft); ("/hooks/pre-read", reading bob draft)]) desk.
(** The first one has committed a new version. *)
Definition committed : Server := serve (HOOK_ROUTES in_order) (posts [("/hooks/post-edit-cas", saving ada 1)]) shared.
Definition plan : UUID := default 0%N (lookup_artifact_id_by_name in_order (sdb shared) "plan.md").
Definition plan_row (s : Server) : ArtRow := default (mkArtRow "" 0 0 "" None None 0) (artifacts (sdb s) !! plan).

Lemma desk_wf : store_wf (sdb desk).
Proof. by split. Qed.
Lemma shared_wf : store_wf (sdb shared).
Proof. apply (moves_serve in_order _ _ desk in_order_perm); [done|by apply (bool_decide_unpack _); vm_compute|apply desk_wf]. Qed.
Lemma shared_calm : calm_store (sv_registry shared).
Proof.
  split; [by vm_compute| |by vm_compute|].
  - assert (h_busy (sv_registry shared) = h_busy registry) as -> by (by vm_compute). done.
  - assert (h_clock (sv_registry shared) = h_clock registry) as -> by (by vm_compute). done.
Qed.
Lemma nobody_writes q : in_m_or_e (sql_get_agent_state (sdb shared) plan q) = false.
Proof.
  assert (forallb (λ kr, negb (m_or_e (sr_state kr.2))) (map_to_list (agent_states (sdb shared))) = true) as H by (by vm_compute).
  rewrite forallb_forall in H. unfold sql_get_agent_state. destruct (agent_states (sdb shared) !! (plan, q)) as [r|] eqn:E; [|done].
  apply elem_of_map_to_list, list_elem_of_In, H in E. by apply negb_true_iff in E.
Qed.
Lemma bob_may_commit : may_commit (sdb shared) plan (session_to_agent_id bob None).
Proof.
  split; [by vm_compute|apply nobody_writes|intros q _; apply nobody_writes|].
  assert (sql_get_read_generation (sdb shared) plan (session_to_agent_id bob None) = None) as -> by (by vm_compute).
  intros g row [=].
Qed.

(** What the coordinator answers to a list of posts. *)
Fixpoint answers_to (l : list (string * fields)) (s : Server) : list (outcome exn response) :=
  match l with
  | [] => []
  | (path, body) :: l' =>
    let r := dispatch (HOOK_ROUTES in_order) in_time (request path body) s in r.1 :: answers_to l' r.2
  end.
Definition status_of (r : outcome exn response) : json := match r with Ok (_, body) => jget body "status" | Raise _ => JNull end.

End Desk.
Import Desk.

(** A denied search lifts the denial: strict denials are documented as structural: the
    same operation will be denied again until the session re-reads the file. On a
    workspace where bob's view of the strict [plan.md] was invalidated, bob's read is
    denied; a search that is denied for the same reason grants bob a fresh view on the
    way, so that the retried search is allowed, and so is the read, with nothing re-read
    in between. *)
Example grep_denial_is_lifted : let read := ("/hooks/pre-read", reading bob final) in let grep := ("/hooks/pre-grep", grepping bob) in
  status_of <$> answers_to [read; grep; grep; read] committed = [JStr "stale"; JStr "stale"; JStr "fresh"; JStr "fresh"].
Proof. by vm_compute. Qed.

(** ** The theorems on the workspace *)
Lemma only_admitted_requests_act_witness : ∃ rq o s', dispatch (HOOK_ROUTES in_order) in_time rq desk = (o, s') ∧
  rq_authorization rq = Some "Bearer secret" ∧ ∃ h, rq_host rq = Some h ∧ names_host (HOST_ALLOWLIST ++ ["127.0.0.1"]) h.
Proof.
  set (rq := request "/hooks/pre-read" (reading ada draft)). eexists rq, _, _. split; [apply surjective_pairing|].
  edestruct (only_admitted_requests_act [] "127.0.0.1" (HOOK_ROUTES in_order) in_time rq desk) as (H1 & H2 & _);
    [by vm_compute|apply surjective_pairing| |by split].
  right. eexists. vm_compute. reflexivity.
Defined.
Lemma requests_keep_the_store_witness : store_wf (sdb committed).
Proof.
  apply (requests_keep_the_store in_order (HOOK_ROUTES in_order) (posts [("/hooks/post-edit-cas", saving ada 1)]) shared in_order_perm);
    [done|by apply (bool_decide_unpack _); vm_compute|exact shared_wf].
Defined.
Lemma answers_have_their_shape_witness : ∃ r s',
  dispatch (HOOK_ROUTES in_order) in_time (request "/hooks/pre-read" (reading bob draft)) committed = (Ok r, s') ∧
  well_formed (route_key "/hooks/pre-read") DISPATCH_CODES r.
Proof.
  apply (answers_have_their_shape in_order (HOOK_ROUTES in_order) in_time (request "/hooks/pre-read" (reading bob draft)) committed true);
    [done|by apply (bool_decide_unpack _); vm_compute|by vm_compute].
Defined.
Lemma strict_denial_is_sticky_witness : ∃ reason rs s',
  let deny := JObj [("hookEventName", JStr "PreToolUse"); ("permissionDecision", JStr "deny"); ("permissionDecisionReason", JStr reason)] in
  attempts (handle_pre_read in_order) [in_time; in_time] (reading bob final) committed = (Ok rs, s') ∧
  Forall2 (seen_as deny) [in_time; in_time] rs ∧ same_tables (sdb committed) (sdb s').
Proof. apply (strict_denial_is_sticky in_order (reading bob final) bob "plan.md" plan (plan_row committed)); by vm_compute. Defined.
Lemma cas_answer_is_truthful_witness : ∃ st ans s', handle_post_edit_cas in_order in_time (saving ada 1) shared = (Ok (st, ans), s') ∧
  (dget ans "version" = None → untouched (sdb shared) (sdb s')).
Proof.
  pose proof (cas_answer_is_truthful in_order in_time (saving ada 1) shared in_order_perm shared_wf) as H.
  destruct H as (st & ans & s' & Hrun & H). exists st, ans, s'. split; [exact Hrun|]. intros Hv.
  destruct H as [(e & a & -> & _)|[(_ & Hu & _)|(Hf & _)]]; [discriminate Hv|exact Hu|discriminate Hf].
Defined.
Lemma cas_win_denies_readers_witness : ∃ rs s2,
  let s1 := (handle_post_edit_cas in_order in_time (saving ada 1) shared).2 in
  reads_of (handle_pre_read in_order) [(in_time, reading bob final); (in_time, reading bob draft)] s1 = (Ok rs, s2) ∧
  Forall2 (λ rq r, ∃ reason, seen_as (denial_of reason) rq.1 r)
    [(in_time, reading bob final); (in_time, reading bob draft)] rs ∧ same_tables (sdb s1) (sdb s2).
Proof.
  apply (cas_win_denies_readers in_order (saving ada 1) ada "plan.md" shared 2 _ plan); [done|exact shared_wf|by vm_compute..| |].
  - repeat (apply Forall_cons; split); try apply Forall_nil_2; exists bob; split_and!; vm_compute; try done; by eexists.
  - vm_compute. by intros row [= <-].
Defined.
Lemma cas_retry_wins_witness : ∃ s1 s2 row2, handle_post_edit_cas in_order in_time (saving bob 0) shared = (Ok (200, conflict_answer 1), s1) ∧
  handle_post_edit_cas in_order in_time (saving bob 1) s1 = (Ok (200, win_answer 2), s2) ∧
  artifacts (sdb s2) !! plan = Some row2 ∧ ar_version row2 = 2 ∧ ar_content_hash row2 = final.
Proof.
  apply (cas_retry_wins in_order (saving bob 0) (saving bob 1) bob "plan.md" 0 plan (plan_row shared) shared);
    lazymatch goal with
    | |- store_wf _ => exact shared_wf
    | |- calm_store _ => exact shared_calm
    | |- may_commit _ _ _ => exact bob_may_commit
    | |- _ => by vm_compute
    end.
Defined.
